(* ===== verification/_CoqProject ===== *)
-Q . S2P
Prelude.v
GoStrings.v
Config.v
Wire.v
Topic.v
Headers.v
Errors.v
Stream.v
PubChannel.v
Names.v
Consumer.v
Cancel.v
Service.v
Dispatcher.v
Session.v
SessionLife.v
Backoff.v
Events.v
Bus.v
Pbtypes.v
CustomTypes.v
Broker.v
BrokerOps.v
BrokerStore.v
BrokerPump.v
Listeners.v
Topology.v
Channels.v
Rpc.v
StreamCalls.v
ConsumerLife.v
DispatcherLife.v
DispatcherCalls.v
Gen.v
Options.v
Dynamic.v
ServiceLife.v
Uuid.v
Transport.v
Log.v
Protoload.v
Cli.v
Flags.v
Combat.v
Peers.v
