(* ===== verification/Prelude.v ===== *)
(** * A verification of protobus-go

    protobus-go is a Go library for RPC, server streaming and events over
    RabbitMQ. A process dials a [Bus]; a [Client] publishes request envelopes to
    the bus exchange and its [dispatcher] matches replies to calls by correlation
    id; a [Service] consumes a queue, dispatches each request to a handler and
    settles the delivery (reply, retry, dead letter, acknowledge); an
    [EventListener] matches events against topic patterns. Everything is published
    through a [pubChannel], which waits for broker confirms, over a [session],
    which reconnects and restores its components. Bindings are generated from
    schemas, or schemas are compiled at run time and used by name.

    ** The parts and the files that model them

    Foundations.
    - [Prelude]: machine integers, generic lemmas, the invariant rule for step
      relations. [GoStrings]: the parts of package strings, strconv, time and
      unicode/utf8 the sources use.
    - [Config] (config.go): defaults, environment, validation.
    - [Errors] (errors.go): the error tree with errors.Is/As, codes, names, and
      what may be shown to logs and callers. [Log] (log.go): the level filter,
      the attributes, the bound on logged values, panic summaries, redacted URLs.
    - [Uuid] (internal/uuid): random identifiers, from their bytes.
    - [Options] (options.go, desc.go): every option and the interfaces they
      satisfy, where they are applied, and the chain of interceptors.

    Data on the wire.
    - [Wire] (internal/wire/envelope.go): the request, response and event
      envelopes. protobuf's [protowire] package is the class [Protowire], what
      the code relies on is the class [ProtowireLaws], and a base-128 instance
      discharges it.
    - [Headers] (headers.go): AMQP messages and the header readers. The
      conversion of an out-of-range float is the class [GoArch].
    - [Pbtypes] (pbtypes/pbtypes.go): bigint and timestamp. [CustomTypes]
      (customtypes.go): the check of every message for over-wide bigints.
    - [Topic] (internal/topic/trie.go and topicMatch of
      internal/fakebroker/broker.go): the subscription trie and the broker's
      rule. [Names] (client.go, options.go): method names, routing keys,
      instances.

    The broker (internal/fakebroker) and what is declared on it.
    - [Broker]: one function per operation on its state: declarations, routing,
      TTL and dead-lettering, delivery under prefetch, settlement, loss of
      channels and connections. [BrokerOps]: settlement of several deliveries,
      operator actions, restart, queries, injected faults. [BrokerStore]: an
      abstract store of messages, and the proof that the broker refines it.
      [BrokerPump]: the goroutines that hand deliveries and events on.
      [Listeners]: the Go channels they hand events to, and who closes them.
    - [Topology] (service.go, eventlistener.go, consumer.go): what services and
      listeners declare, run against that broker; its retry queues implement the
      interface [RetryPath] of [Consumer]. [Channels] (dispatcher.go, cancel.go,
      events.go): the reply queue, the queue of the cancel listener and the event
      publisher's channel, on the same broker. [Rpc]: client, dispatcher, broker,
      consumer and service together, for one call.

    The sides of a connection.
    - [PubChannel] (pubchan.go): publishers, writer goroutine, confirm loop and
      broker as one step relation.
    - [Session] (session.go): readiness, registration and reconnection.
      [SessionLife]: the supervisor and the calls that connect and close,
      interleaved. [Backoff]: the wait between attempts, in binary64 arithmetic.
      [Transport] (internal/transport): dialling, and what becomes of a dial
      nobody waits for.
    - [Stream] (stream.go, clientStream of dispatcher.go): the two ends of a
      streaming call. Modules [ServerStream] and [ClientStream] hold the
      operations; [StreamRun], [Producer] and [Buffers] the step relations of
      one caller, one producer and many callers sharing a byte allowance.
    - [Consumer] (consumer.go): one delivery from receipt to settlement in a
      writer monad over broker actions; module [Slots] is the concurrency
      accounting of the receive loop. [ConsumerLife]: the consumer around it,
      its channel, loop and consumer tag, while it is restored, recovered,
      stopped and closed.
    - [Cancel] (cancel.go, deliveryControl of consumer.go): cancellation of
      running deliveries.
    - [Service] (service.go, stream.go, client.go): registration, dispatch,
      failure classification, and the client's side of a unary call.
      [ServiceLife] (also eventlistener.go, run.go): starting, stopping and
      closing it.
    - [Dispatcher] (dispatcher.go, options.go): calls in flight and the
      streaming caller's loop ([StreamLoop]). [DispatcherLife]: the reply
      consumer while it is restored, recovered and repaired.
      [DispatcherCalls]: the calls that wait on it. [StreamCalls]: the table of
      streams and the streaming callers.
    - [Events] (events.go, eventlistener.go): publishing and subscribing.
    - [Bus] (bus.go): in-flight counting ([Inflight]), attaching components while
      the bus may be closing ([Attach]), dialling, draining and shutting down.

    Schemas and tools.
    - [Gen] (internal/gen): the lines of the generated bindings.
    - [Dynamic] (dynamic.go, client.go): services and clients of schemas known at
      run time. [Protoload] (protoload): what is compiled, the imports added, the
      order of registration.
    - [Cli] (cmd/protobus): commands and exit codes, names, packages, the
      generation plan and the service skeleton. [Flags]: its flags and the
      standard parser.
    - [Combat] (examples/combat/game): the players of the battle royale and the
      turn that goes around. [Peers] (crosslang/gopeer, examples/tokenstream,
      examples/calculator): the handlers of the other samples.

    ** What the theorems show

    - Envelopes survive the wire with unknown fields around them (C1); header
      readers never leave the int64 range, and the one boundary value, 2^63,
      where the range check is not exact is exhibited (C6).
    - The trie matches exactly what AMQP's topic rule and the broker match, once
      each and in order (C2).
    - A call over the broker comes back: the request published by the client is
      delivered to the service, answered and settled, and its reply, the value or
      the error the handler gave, is the one the caller returns with (C3).
    - The broker refines a store in which a message stays until it is settled,
      expires or its queue goes (C4). The declared retry topology works on it: a
      copy parked by a service comes back to its queue under its own key (C5), a
      retried event comes back to the listener that failed it and to no other
      (C7), and what is published to the bus's own queues is delivered at once,
      once (C23).
    - Error texts meant for nobody reach neither logs nor callers (C8); no
      over-wide bigint crosses the library in either direction (C9).
    - End to end, a stream is a prefix of what was sent and a clean end means
      all of it; buffers stay within limits (C10, C11).
    - A publish result is truthful under every interleaving, confirm slots do
      not leak, closing strands nobody (C12-C14).
    - A consumer's channels and loops are never closed twice, stopping is final,
      and a consumer that wants deliveries is attended to, but for the windows
      the theorem names (C15, C16).
    - A delivery is settled once, after its publishes, and never lost; retries
      end in the dead-letter queue; handlers respect the concurrency bound
      (C17-C19); cancel notices reach the right deliveries (C20).
    - Dispatch trusts the broker's key (C21); failures are replied or retried,
      never both (C22).
    - The reply consumer is rebuilt without tearing down a newer one, and
      waiting calls are answered or failed, but for four windows (C24, C25); a
      call gets its own answer and the table of calls is exact (C26), and so it
      is for streaming calls, which leave nothing behind (C27).
    - In a session's life no channel is closed twice, readiness never lies and no
      connection leaks (C28); reconnection is bounded and restores in order
      (C29).
    - Events reach exactly the handlers they are for, and publishing meets
      subscribing (C30, C31).
    - Beside the numbered theorems: a dial that is given up leaks no connection
      ([dial_no_leak]) and the wait before an attempt is capped
      ([backoff_capped]); no confirm or return goes to a closed listener
      ([notify_safe]) and a cancel may ([cancel_after_close]); a logged URL does
      not depend on its password ([redactURL_private]); exactly one player has
      the turn until there is a winner ([one_turn]); a token stream stops where
      its reader did and says so ([generate_records]).
    - Draining waits for exactly the work in flight; closing closes every
      component once (C32, C33).
    - The environment cannot put a value out of range into the configuration
      (C34); what the generator prints and refuses (C35); interceptors nest in
      the order they were given (C36); a table of handlers serves exactly what
      it lists, and a call by name comes back with its answer (C37, C38);
      starting a service is all or nothing, except for its events (C39);
      identifiers are canonical and lose nothing (C40).

    ** Modelling choices

    Concurrency is interleaving: each critical section of the code is one step
    of a relation, and time, the broker and the connection are steps of the
    environment. Errors are values of [Errors.err]. Where recursion is not
    structural it has fuel, with a proof that it suffices: the field walk of
    [Wire] (the number of bytes, [decoders_terminate]), [resolve_fuel] of [Names]
    (the length of the name, [resolveContract_loop]), [reachesBigintWalk] of
    [CustomTypes] (the number of types, [reachesBigintWalk_correct]),
    [dispatch_fuel] of [Broker] (the number of waiting messages,
    [dispatch_fuel_enough]) and [reconnect] of [Session] (one more than the
    limit of attempts, [reconnect_spec]). Integers are [Z], wrapped where the
    width matters. Nil and empty byte slices are one value.

    ** What is not modelled

    Help texts, gofmt and the file system, which are the host's;
    the operation log of the in-memory broker, which only tests read; the main
    functions of the tools and the samples, and what the samples print; the
    helpers that drive a real broker's management API from tests; generated code. *)
From stdpp Require Export base list gmap strings sorting relations pretty.
From Stdlib Require Export ZArith Lia.
From Stdlib Require Export Strings.Byte Strings.Ascii.

#[export] Set Default Goal Selector "!".

(** ** Machine integers *)

Definition MaxInt32 : Z := 2147483647.
Definition MinInt32 : Z := -2147483648.
Definition MaxInt64 : Z := 9223372036854775807.
Definition MinInt64 : Z := -9223372036854775808.
Definition MaxUint16 : Z := 65535.
Definition MaxUint64 : Z := 18446744073709551615.

(** Two's complement wrap-around of Go's [int32], [int64] and [uint64]. *)
Definition int32_wrap (z : Z) : Z := (z + 2 ^ 31) mod 2 ^ 32 - 2 ^ 31.
Definition int64_wrap (z : Z) : Z := ((z + 2 ^ 63) mod 2 ^ 64) - 2 ^ 63.
Definition uint64_wrap (z : Z) : Z := z mod 2 ^ 64.

Definition is_int64 (z : Z) : Prop := (MinInt64 <= z <= MaxInt64)%Z.

Lemma int64_wrap_small z : (MinInt64 <= z <= MaxInt64)%Z -> int64_wrap z = z.
Proof.
  unfold MinInt64, MaxInt64, int64_wrap. intros Hz. rewrite Z.mod_small; lia.
Qed.

Lemma int32_wrap_small z : (- 2 ^ 31 <= z < 2 ^ 31)%Z -> int32_wrap z = z.
Proof. intros H. unfold int32_wrap. rewrite Z.mod_small; lia. Qed.

(** ** Lists *)

Lemma Forall_snoc_2 {X : Type} (P : X -> Prop) l x : Forall P l -> P x -> Forall P (l ++ [x]).
Proof. intros Hl Hx. apply Forall_app. auto. Qed.

Lemma alter_lookup_Some {X : Type} (f : X -> X) i (l : list X) j x :
  alter f i l !! j = Some x <-> (j = i /\ exists y, l !! i = Some y /\ x = f y) \/ (j <> i /\ l !! j = Some x).
Proof.
  destruct (decide (j = i)) as [->|Hj].
  - rewrite list_lookup_alter_eq. destruct (l !! i); simpl; naive_solver.
  - rewrite list_lookup_alter_ne by done. naive_solver.
Qed.

(** How many elements satisfy [f]. *)
Definition countb {X : Type} (f : X -> bool) (l : list X) : nat :=
  foldr (fun x n => Nat.b2n (f x) + n)%nat 0%nat l.

Lemma countb_app {X : Type} (f : X -> bool) l k : countb f (l ++ k) = (countb f l + countb f k)%nat.
Proof. induction l as [|x l IH]; simpl; [done|]. rewrite IH. lia. Qed.

Lemma countb_alter {X : Type} (f : X -> bool) g i l x :
  l !! i = Some x -> (countb f (alter g i l) + Nat.b2n (f x) = countb f l + Nat.b2n (f (g x)))%nat.
Proof.
  revert i. induction l as [|y l IH]; intros [|i] H; simplify_eq/=; [lia|].
  change (list_alter g i l) with (alter g i l). specialize (IH _ H). lia.
Qed.

Lemma countb_pos {X : Type} (f : X -> bool) i l x : l !! i = Some x -> f x = true -> (0 < countb f l)%nat.
Proof.
  revert i. induction l as [|y l IH]; intros [|i] H Hf; simplify_eq/=; [rewrite Hf; simpl; lia|].
  specialize (IH _ H Hf). lia.
Qed.

Lemma countb_le {X : Type} (f g : X -> bool) l :
  (forall x, x ∈ l -> f x = true -> g x = true) -> (countb f l <= countb g l)%nat.
Proof.
  induction l as [|x l IH]; simpl; intros H; [done|].
  assert (Nat.b2n (f x) <= Nat.b2n (g x))%nat.
  { destruct (f x) eqn:E; simpl; [|lia]. rewrite H; [done| |done]. by left. }
  enough (countb f l <= countb g l)%nat by lia. apply IH. intros y Hy. apply H. by right.
Qed.

(** ** Step relations *)

(** An invariant that every step preserves holds in every reachable state. *)
Lemma rtc_invariant {St : Type} (R : relation St) (I : St -> Prop) x y :
  (forall a b, R a b -> I a -> I b) -> I x -> rtc R x y -> I y.
Proof. intros Hstep Hx Hr. induction Hr; eauto. Qed.

Create Rewrite HintDb gostr.

