(* ===== verification/GoStrings.v ===== *)
(** * GoStrings: the parts of Go's string packages the sources call

    Go strings are byte strings; they are modelled by [string] (each [ascii]
    is one byte), and [[]byte] by [list byte]. The functions below follow the
    documented behaviour of [strings], [strconv] and [unicode/utf8] on the
    calls made by the repository:
    - [Split], [LastIndexByte], [HasPrefix], [ContainsAny];
    - [TrimSpace], which strips Unicode white space (the non-ASCII white space
      characters appear as their UTF-8 byte sequences);
    - [EqualFold]/[ToLower] restricted to ASCII folding: they are only compared
      with words over letters whose Unicode folding class is ASCII;
    - [strconv.ParseInt]/[ParseUint] in base 10;
    - [utf8.Valid]. *)
From S2P Require Import Prelude.

Local Open Scope Z_scope.

(** ** Bytes and strings *)

Abbreviation bytes := (list byte).

#[export] Instance byte_eq_dec : EqDecision byte := Byte.byte_eq_dec.

Definition byteZ (b : byte) : Z := Z.of_N (Byte.to_N b).
Definition asciiZ (c : ascii) : Z := Z.of_N (N_of_ascii c).

(** [[]byte(s)] and [string(b)]. *)
Definition to_bytes (s : string) : bytes := String.list_byte_of_string s.
Definition of_bytes (b : bytes) : string := String.string_of_list_byte b.

(** [len(s)]: Go lengths count bytes. *)
Definition len {A} (l : list A) : Z := Z.of_nat (length l).
Definition slen (s : string) : Z := Z.of_nat (String.length s).

(** ** package strings *)

(** [strings.Split(s, ".")] for a one-byte separator: always at least one
    word. *)
Fixpoint split_on (sep : ascii) (s : string) : list string :=
  match s with
  | EmptyString => [EmptyString]
  | String c s' =>
      if Ascii.eqb c sep then EmptyString :: split_on sep s'
      else match split_on sep s' with
           | w :: ws => String c w :: ws
           | [] => [String c EmptyString]
           end
  end.

Definition dot : ascii := "."%char.
Definition Split (s : string) : list string := split_on dot s.

(** [strings.Join(ws, ".")], the inverse of [Split]. *)
Definition Join (ws : list string) : string := String.concat "." ws.

(** [strings.LastIndexByte(s, c)]: [-1] when absent. *)
Fixpoint LastIndexByte (s : string) (c : ascii) : Z :=
  match s with
  | EmptyString => -1
  | String c' s' =>
      let i := LastIndexByte s' c in
      if 0 <=? i then i + 1 else if Ascii.eqb c' c then 0 else -1
  end.

(** Slicing [s[:i]] and [s[i:]] for an index within the string. *)
Definition slice_to (s : string) (i : Z) : string := String.substring 0 (Z.to_nat i) s.
Definition slice_from (s : string) (i : Z) : string :=
  String.substring (Z.to_nat i) (String.length s - Z.to_nat i) s.

Definition HasPrefix (s p : string) : bool := String.prefix p s.

Fixpoint contains_char (c : ascii) (s : string) : bool :=
  match s with
  | EmptyString => false
  | String c' s' => Ascii.eqb c' c || contains_char c s'
  end.

(** [strings.ContainsAny(s, chars)] for ASCII [chars]. *)
Fixpoint ContainsAny (s chars : string) : bool :=
  match s with
  | EmptyString => false
  | String c s' => contains_char c chars || ContainsAny s' chars
  end.

(** *** White space *)

(** The UTF-8 sequences of the non-ASCII characters with Unicode's
    White_Space property (U+0085, U+00A0, U+1680, U+2000..U+200A, U+2028,
    U+2029, U+202F, U+205F, U+3000). *)
Definition unicode_spaces : list (list Z) :=
  [[0xC2; 0x85]; [0xC2; 0xA0]; [0xE1; 0x9A; 0x80]]
  ++ map (fun k => [0xE2; 0x80; 0x80 + Z.of_nat k]) (seq 0 11)
  ++ [[0xE2; 0x80; 0xA8]; [0xE2; 0x80; 0xA9]; [0xE2; 0x80; 0xAF];
      [0xE2; 0x81; 0x9F]; [0xE3; 0x80; 0x80]].

Definition ascii_space (c : Z) : bool :=
  ((9 <=? c) && (c <=? 13)) || (c =? 32).

Definition codes (s : string) : list Z := map asciiZ (String.list_ascii_of_string s).

Fixpoint is_prefixb (p l : list Z) : bool :=
  match p, l with
  | [], _ => true
  | x :: p', y :: l' => (x =? y) && is_prefixb p' l'
  | _ :: _, [] => false
  end.

(** The number of bytes of the white space character [l] starts with, if any;
    [spaces] are the multi-byte ones. *)
Definition space_width (spaces : list (list Z)) (l : list Z) : nat :=
  match l with
  | [] => 0%nat
  | c :: _ =>
      if ascii_space c then 1%nat
      else match List.find (fun p => is_prefixb p l) spaces with
           | Some p => length p
           | None => 0%nat
           end
  end.

(** Drops leading white space; [fuel] is the length of the string. *)
Fixpoint trim_left (fuel : nat) (spaces : list (list Z)) (l : list Z) : list Z :=
  match fuel with
  | O => l
  | S fuel' =>
      match space_width spaces l with
      | O => l
      | S n => trim_left fuel' spaces (drop (S n) l)
      end
  end.

Definition TrimSpace_codes (l : list Z) : list Z :=
  let l1 := trim_left (length l) unicode_spaces l in
  rev (trim_left (length l1) (map (@rev Z) unicode_spaces) (rev l1)).

(** [strings.TrimSpace], on the byte codes of the result. *)
Definition TrimSpace (s : string) : list Z := TrimSpace_codes (codes s).

(** *** ASCII folding *)

Definition lower (c : Z) : Z := if (65 <=? c) && (c <=? 90) then c + 32 else c.

(** [strings.EqualFold(s, t)] where [t] is a lower-case ASCII word without the
    letters k and s (whose folding classes contain non-ASCII characters). *)
Definition EqualFold (s t : string) : bool :=
  bool_decide (map lower (codes s) = codes t).

(** ** package strconv *)

Definition is_digit (c : Z) : bool := (48 <=? c) && (c <=? 57).

Fixpoint digits_value (acc : Z) (l : list Z) : option Z :=
  match l with
  | [] => Some acc
  | c :: l' => if is_digit c then digits_value (acc * 10 + (c - 48)) l' else None
  end.

(** [strconv.ParseUint(s, 10, 64)]: digits only, at least one, and a value
    that fits; [None] is an error. *)
Definition ParseUint64 (l : list Z) : option Z :=
  match l with
  | [] => None
  | _ => match digits_value 0 l with
         | Some v => if v <=? MaxUint64 then Some v else None
         | None => None
         end
  end.

(** [strconv.ParseInt(s, 10, 64)]: an optional sign, then digits. *)
Definition split_sign (l : list Z) : bool * list Z :=
  match l with
  | c :: l' => if c =? 43 then (false, l') else if c =? 45 then (true, l') else (false, l)
  | [] => (false, [])
  end.

Definition signed_digits (neg : bool) (ds : list Z) : option Z :=
  match ds with
  | [] => None
  | _ => match digits_value 0 ds with
         | Some v =>
             if neg then (if v <=? MaxInt64 + 1 then Some (- v) else None)
             else (if v <=? MaxInt64 then Some v else None)
         | None => None
         end
  end.

Definition ParseInt64 (l : list Z) : option Z :=
  let '(neg, ds) := split_sign l in signed_digits neg ds.

(** [strconv.Quote], the [%q] verb. ASCII is exact; bytes of non-ASCII
    characters stand for themselves, as Go prints the printable ones. *)
Definition hex_char (n : nat) : ascii := ascii_of_nat (if (n <? 10)%nat then 48 + n else 87 + n).

Definition quote_char (c : ascii) : string :=
  let n := nat_of_ascii c in
  let bs := ascii_of_nat 92 in
  let esc x := String bs (String x EmptyString) in
  if (n =? 34)%nat || (n =? 92)%nat then esc c
  else if (n =? 7)%nat then esc "a"%char
  else if (n =? 8)%nat then esc "b"%char
  else if (n =? 12)%nat then esc "f"%char
  else if (n =? 10)%nat then esc "n"%char
  else if (n =? 13)%nat then esc "r"%char
  else if (n =? 9)%nat then esc "t"%char
  else if (n =? 11)%nat then esc "v"%char
  else if (n <? 32)%nat || (n =? 127)%nat then
    String bs (String "x" (String (hex_char (n / 16)) (String (hex_char (n mod 16)) EmptyString)))
  else String c EmptyString.

Definition Quote (s : string) : string :=
  let q := String (ascii_of_nat 34) EmptyString in
  q +:+ String.concat "" (map quote_char (String.list_ascii_of_string s)) +:+ q.

(** ** time.Duration *)

Definition Nanosecond : Z := 1.
Definition Microsecond : Z := 1000.
Definition Millisecond : Z := 1000000.
Definition Second : Z := 1000000000.

(** The fraction digits of [fmtFrac]: [prec] digits of [v], trailing zeros and
    an all-zero fraction omitted; the rest of [v] is returned. *)
Fixpoint fmt_frac (prec : nat) (v : Z) (print : bool) (acc : string) : Z * string :=
  match prec with
  | O => (v, if print then (String "." acc) else acc)
  | S p =>
      let digit := v mod 10 in
      let print := print || negb (digit =? 0) in
      fmt_frac p (v / 10) print (if print then (pretty digit +:+ acc) else acc)
  end.

Definition fmt_with_frac (prec : nat) (v : Z) (unit : string) : string :=
  let '(w, frac) := fmt_frac prec v false "" in pretty w +:+ frac +:+ unit.

(** [d.String()], as the [%v] verb prints a duration. *)
Definition duration_string (d : Z) : string :=
  let u := Z.abs d in
  let body :=
    if u =? 0 then "0s"
    else if u <? Microsecond then pretty u +:+ "ns"
    else if u <? Millisecond then
      fmt_with_frac 3 u (String (ascii_of_nat 194) (String (ascii_of_nat 181) "s"))
    else if u <? Second then fmt_with_frac 6 u "ms"
    else
      let '(secs, frac) := fmt_frac 9 u false "" in
      let s := pretty (secs mod 60) +:+ frac +:+ "s" in
      let m := secs / 60 in
      if m =? 0 then s
      else
        let h := m / 60 in
        let ms := pretty (m mod 60) +:+ "m" +:+ s in
        if h =? 0 then ms else pretty h +:+ "h" +:+ ms in
  if d <? 0 then "-" +:+ body else body.

(** ** package unicode/utf8 *)

Definition in_range (lo hi : Z) (b : byte) : bool := (lo <=? byteZ b) && (byteZ b <=? hi).
Definition cont : byte -> bool := in_range 0x80 0xBF.

(** [utf8.Valid]: shortest-form encodings of Unicode scalar values, surrogates
    excluded. *)
Fixpoint utf8_valid (l : bytes) : bool :=
  match l with
  | [] => true
  | b0 :: l1 =>
      if in_range 0 0x7F b0 then utf8_valid l1
      else match l1 with
      | [] => false
      | b1 :: l2 =>
          if in_range 0xC2 0xDF b0 then cont b1 && utf8_valid l2
          else match l2 with
          | [] => false
          | b2 :: l3 =>
              if in_range 0xE0 0xE0 b0 then in_range 0xA0 0xBF b1 && cont b2 && utf8_valid l3
              else if in_range 0xED 0xED b0 then in_range 0x80 0x9F b1 && cont b2 && utf8_valid l3
              else if in_range 0xE1 0xEF b0 then cont b1 && cont b2 && utf8_valid l3
              else match l3 with
              | [] => false
              | b3 :: l4 =>
                  if in_range 0xF0 0xF0 b0 then in_range 0x90 0xBF b1 && cont b2 && cont b3 && utf8_valid l4
                  else if in_range 0xF4 0xF4 b0 then in_range 0x80 0x8F b1 && cont b2 && cont b3 && utf8_valid l4
                  else if in_range 0xF1 0xF3 b0 then cont b1 && cont b2 && cont b3 && utf8_valid l4
                  else false
              end
          end
      end
  end.

(** ** Lemmas *)

Lemma to_of_bytes b : to_bytes (of_bytes b) = b.
Proof. apply String.list_byte_of_string_of_list_byte. Qed.

Lemma of_to_bytes s : of_bytes (to_bytes s) = s.
Proof. apply String.string_of_list_byte_of_string. Qed.

#[export] Instance to_bytes_inj : Inj (=) (=) to_bytes.
Proof. intros s t E. by rewrite <-(of_to_bytes s), <-(of_to_bytes t), E. Qed.

Lemma length_to_bytes s : length (to_bytes s) = String.length s.
Proof.
  unfold to_bytes, String.list_byte_of_string.
  induction s as [|c s IH]; simpl in *; [done | by rewrite <-IH].
Qed.

Lemma len_to_bytes s : len (to_bytes s) = slen s.
Proof. unfold len, slen. by rewrite length_to_bytes. Qed.

Lemma len_nonneg {A} (l : list A) : 0 <= len l.
Proof. unfold len. lia. Qed.

Lemma len_app {A} (l k : list A) : len (l ++ k) = len l + len k.
Proof. unfold len. rewrite length_app. lia. Qed.

Lemma len_nil_iff {A} (l : list A) : len l = 0 <-> l = [].
Proof. unfold len. destruct l; simpl; split; intros; (done || lia). Qed.

Lemma split_on_ne sep s : split_on sep s <> [].
Proof.
  destruct s as [|c s]; simpl; [done|].
  destruct (Ascii.eqb c sep); [done|]. by destruct (split_on sep s).
Qed.

#[export] Hint Rewrite @len_app len_to_bytes to_of_bytes of_to_bytes : gostr.

Lemma digits_value_nonneg acc l v : 0 <= acc -> digits_value acc l = Some v -> 0 <= v.
Proof.
  revert acc. induction l as [|c l IH]; simpl; intros acc Ha H; [by simplify_eq|].
  unfold is_digit in *. destruct (Z.leb_spec 48 c), (Z.leb_spec c 57); simpl in H; try done.
  eapply IH; [|exact H]. lia.
Qed.

Lemma ParseUint64_range l v : ParseUint64 l = Some v -> 0 <= v <= MaxUint64.
Proof.
  unfold ParseUint64. destruct l as [|c l]; [done|]. destruct (digits_value 0 (c :: l)) as [u|] eqn:E; [|done].
  apply digits_value_nonneg in E; [|done]. destruct (Z.leb_spec u MaxUint64); [|done]. intros [= <-]. lia.
Qed.

Lemma split_on_app sep a b : split_on sep (a +:+ String sep b) = split_on sep a ++ split_on sep b.
Proof.
  induction a as [|c a IH]; simpl.
  - by rewrite Ascii.eqb_refl.
  - change (String.append a (String sep b)) with (a +:+ String sep b). rewrite IH.
    destruct (Ascii.eqb c sep); [done|]. pose proof (split_on_ne sep a). by destruct (split_on sep a).
Qed.

Lemma split_on_word sep s : contains_char sep s = false -> split_on sep s = [s].
Proof.
  induction s as [|c s IH]; simpl; [done|]. destruct (Ascii.eqb_spec c sep) as [->|Hne].
  - done.
  - intros H. by rewrite IH.
Qed.

Lemma string_length_app s t : String.length (s +:+ t) = (String.length s + String.length t)%nat.
Proof. induction s as [|c s IH]; [done|]. exact (f_equal S IH). Qed.
