(* ===== verification/Config.v ===== *)
(** * Config: the bus's tunables (config.go)

    Durations are int64 nanoseconds. The environment is a function from a
    variable's name to its value, [""] when unset. [Validate] iterates over Go
    maps, whose order is unspecified: the orders are arguments, and the theorems
    hold for every permutation of the entries. Each message [Validate] can
    produce is a constructor. *)
From S2P Require Import Prelude GoStrings.
From Stdlib Require Import SpecFloat.

Local Open Scope Z_scope.

Record ReconnectPolicy := {
  RMaxRetries : Z;
  InitialDelay : Z;
  MaxDelay : Z;
  Multiplier : spec_float
}.

Record Config := {
  BusExchange : string;
  CallbacksExchange : string;
  EventsExchange : string;
  CancelExchange : string;
  ProcessingTimeout : Z;
  RPCTimeout : Z;
  StreamIdleTimeout : Z;
  DefaultPrefetch : Z;
  PublishConfirmTimeout : Z;
  Heartbeat : Z;
  ConnectionReadyTimeout : Z;
  MaxOutstandingConfirms : Z;
  StreamMaxBufferedChunks : Z;
  StreamMaxBufferedBytes : Z;
  StreamMaxTotalBufferedBytes : Z;
  ExposeInternalErrors : bool;
  ShutdownDrainTimeout : Z;
  Reconnect : ReconnectPolicy
}.

(** The float64 values 1 and 2. *)
Definition float_one : spec_float := S754_finite false (2 ^ 52) (-52).
Definition float_two : spec_float := S754_finite false (2 ^ 52) (-51).

Definition DefaultConfig : Config := {|
  BusExchange := "proto.bus";
  CallbacksExchange := "proto.bus.callback";
  EventsExchange := "proto.bus.events";
  CancelExchange := "proto.bus.cancel";
  ProcessingTimeout := 600 * Second;
  RPCTimeout := 600 * Second;
  StreamIdleTimeout := 60 * Second;
  DefaultPrefetch := 1;
  PublishConfirmTimeout := 30 * Second;
  Heartbeat := 30 * Second;
  ConnectionReadyTimeout := 30 * Second;
  MaxOutstandingConfirms := 256;
  StreamMaxBufferedChunks := 1024;
  StreamMaxBufferedBytes := Z.shiftl 64 20;
  StreamMaxTotalBufferedBytes := Z.shiftl 256 20;
  ExposeInternalErrors := true;
  ShutdownDrainTimeout := 30 * Second;
  Reconnect := {| RMaxRetries := 10; InitialDelay := Second; MaxDelay := 30 * Second; Multiplier := float_two |}
|}.

(** ** Reading the environment *)

Section Env.
Variable getenv : string -> string.

Definition envString (name : string) (dst : string) : string :=
  if decide (getenv name = "") then dst else getenv name.

Definition envPositive (name : string) (max : Z) : option Z :=
  let raw := TrimSpace (getenv name) in
  if bool_decide (raw = []) then None
  else if negb (forallb is_digit raw) then None
  else match ParseUint64 raw with
       | None => None
       | Some v => if (v =? 0) || (max <? v) then None else Some v
       end.

Definition envInt (name : string) (dst : Z) : Z := default dst (envPositive name MaxInt32).

Definition envInt64 (name : string) (dst : Z) : Z := default dst (envPositive name MaxInt64).

Definition envDuration (name : string) (unit : Z) (dst : Z) : Z :=
  match envPositive name (MaxInt64 / unit) with
  | Some v => int64_wrap (v * unit)
  | None => dst
  end.

Definition envBool (name : string) (dst : bool) : bool :=
  let w := map lower (TrimSpace (getenv name)) in
  if bool_decide (w ∈ map codes ["1"; "true"; "yes"; "on"]) then true
  else if bool_decide (w ∈ map codes ["0"; "false"; "no"; "off"]) then false
  else dst.

Definition ConfigFromEnv : Config :=
  let c := DefaultConfig in {|
  BusExchange := envString "BUS_EXCHANGE_NAME" (BusExchange c);
  CallbacksExchange := envString "CALLBACKS_EXCHANGE_NAME" (CallbacksExchange c);
  EventsExchange := envString "EVENTS_EXCHANGE_NAME" (EventsExchange c);
  CancelExchange := envString "CANCEL_EXCHANGE_NAME" (CancelExchange c);
  ProcessingTimeout := envDuration "MESSAGE_PROCESSING_TIMEOUT" Millisecond (ProcessingTimeout c);
  RPCTimeout := envDuration "RPC_CALL_TIMEOUT_MS" Millisecond (RPCTimeout c);
  StreamIdleTimeout := envDuration "STREAM_IDLE_TIMEOUT_MS" Millisecond (StreamIdleTimeout c);
  DefaultPrefetch := envInt "DEFAULT_PREFETCH" (DefaultPrefetch c);
  PublishConfirmTimeout := envDuration "PUBLISH_CONFIRM_TIMEOUT_MS" Millisecond (PublishConfirmTimeout c);
  Heartbeat := envDuration "AMQP_HEARTBEAT_SECONDS" Second (Heartbeat c);
  ConnectionReadyTimeout := envDuration "CONNECTION_READY_TIMEOUT_MS" Millisecond (ConnectionReadyTimeout c);
  MaxOutstandingConfirms := envInt "MAX_OUTSTANDING_CONFIRMS" (MaxOutstandingConfirms c);
  StreamMaxBufferedChunks := envInt "STREAM_MAX_BUFFERED_CHUNKS" (StreamMaxBufferedChunks c);
  StreamMaxBufferedBytes := envInt64 "STREAM_MAX_BUFFERED_BYTES" (StreamMaxBufferedBytes c);
  StreamMaxTotalBufferedBytes := envInt64 "STREAM_MAX_TOTAL_BUFFERED_BYTES" (StreamMaxTotalBufferedBytes c);
  ExposeInternalErrors := envBool "PROTOBUS_EXPOSE_INTERNAL_ERRORS" (ExposeInternalErrors c);
  ShutdownDrainTimeout := envDuration "SHUTDOWN_DRAIN_TIMEOUT_MS" Millisecond (ShutdownDrainTimeout c);
  Reconnect := Reconnect c
|}.
End Env.

(** ** Validation *)

Inductive config_error :=
| EmptyName (field : string)
| SameName (other field name : string)
| NotPositive (field : string) (v : Z)
| NegativeField (field : string) (v : Z)
| OutOfUint16 (field : string) (v : Z)
| DelayOrder (maxDelay initialDelay : Z)
| SmallMultiplier (m : spec_float).

Definition exchange_fields (c : Config) : list (string * string) :=
  [("BusExchange", BusExchange c); ("CallbacksExchange", CallbacksExchange c);
   ("EventsExchange", EventsExchange c); ("CancelExchange", CancelExchange c)].

Definition positive_fields (c : Config) : list (string * Z) :=
  [("ProcessingTimeout", ProcessingTimeout c); ("RPCTimeout", RPCTimeout c);
   ("StreamIdleTimeout", StreamIdleTimeout c); ("PublishConfirmTimeout", PublishConfirmTimeout c);
   ("ConnectionReadyTimeout", ConnectionReadyTimeout c); ("Reconnect.InitialDelay", InitialDelay (Reconnect c))].

(** The loop over the exchange names; [names] maps a name to the field that
    used it last. *)
Fixpoint check_names (names : gmap string string) (l : list (string * string)) : list config_error :=
  match l with
  | [] => []
  | (field, name) :: l' =>
      if decide (name = "") then EmptyName field :: check_names names l'
      else
        match names !! name with
        | Some other => [SameName other field name]
        | None => []
        end ++ check_names (<[name := field]> names) l'
  end.

Fixpoint check_positive (l : list (string * Z)) : list config_error :=
  match l with
  | [] => []
  | (field, d) :: l' => (if d <=? 0 then [NotPositive field d] else []) ++ check_positive l'
  end.

Definition bad_if (b : bool) (e : config_error) : list config_error := if b then [e] else [].

(** [Validate]: the errors it joins; none is nil. [names] and [durations] are
    the orders its two loops visit their maps in. *)
Definition Validate (names : list (string * string)) (durations : list (string * Z)) (c : Config)
    : list config_error :=
  check_names ∅ names ++ check_positive durations
  ++ bad_if (Heartbeat c <? 0) (NegativeField "Heartbeat" (Heartbeat c))
  ++ bad_if (ShutdownDrainTimeout c <? 0) (NegativeField "ShutdownDrainTimeout" (ShutdownDrainTimeout c))
  ++ bad_if ((DefaultPrefetch c <? 1) || (MaxUint16 <? DefaultPrefetch c))
       (OutOfUint16 "DefaultPrefetch" (DefaultPrefetch c))
  ++ bad_if ((MaxOutstandingConfirms c <? 1) || (MaxUint16 <? MaxOutstandingConfirms c))
       (OutOfUint16 "MaxOutstandingConfirms" (MaxOutstandingConfirms c))
  ++ bad_if (StreamMaxBufferedChunks c <? 1) (NotPositive "StreamMaxBufferedChunks" (StreamMaxBufferedChunks c))
  ++ bad_if (StreamMaxBufferedBytes c <? 1) (NotPositive "StreamMaxBufferedBytes" (StreamMaxBufferedBytes c))
  ++ bad_if (StreamMaxTotalBufferedBytes c <? 1)
       (NotPositive "StreamMaxTotalBufferedBytes" (StreamMaxTotalBufferedBytes c))
  ++ bad_if (RMaxRetries (Reconnect c) <? 0) (NegativeField "Reconnect.MaxRetries" (RMaxRetries (Reconnect c)))
  ++ bad_if (MaxDelay (Reconnect c) <? InitialDelay (Reconnect c))
       (DelayOrder (MaxDelay (Reconnect c)) (InitialDelay (Reconnect c)))
  ++ bad_if (SFltb (Multiplier (Reconnect c)) float_one) (SmallMultiplier (Multiplier (Reconnect c))).

(** What a configuration must satisfy to work. *)
Record usable (c : Config) : Prop := {
  use_names : Forall (fun n => n <> "") (exchange_fields c).*2 /\ NoDup (exchange_fields c).*2;
  use_durations : Forall (fun d => 0 < d) (positive_fields c).*2;
  use_zero : 0 <= Heartbeat c /\ 0 <= ShutdownDrainTimeout c;
  use_uint16 : 1 <= DefaultPrefetch c <= MaxUint16 /\ 1 <= MaxOutstandingConfirms c <= MaxUint16;
  use_buffers : 1 <= StreamMaxBufferedChunks c /\ 1 <= StreamMaxBufferedBytes c /\ 1 <= StreamMaxTotalBufferedBytes c;
  use_reconnect : 0 <= RMaxRetries (Reconnect c) /\ InitialDelay (Reconnect c) <= MaxDelay (Reconnect c) /\
    SFltb (Multiplier (Reconnect c)) float_one = false
}.

(** ** Lemmas *)

Lemma check_names_nil names l :
  check_names names l = [] <->
  Forall (fun n => n <> "") l.*2 /\ NoDup l.*2 /\ Forall (fun n => names !! n = None) l.*2.
Proof.
  revert names. induction l as [|[f n] l IH]; intros names; simpl.
  { split; [intros _|done]. split_and!; constructor. }
  rewrite !Forall_cons, NoDup_cons. destruct (decide (n = "")) as [->|Hn]; [naive_solver|].
  destruct (names !! n) as [o|] eqn:En; simpl; [naive_solver congruence|].
  rewrite IH, !Forall_forall. split.
  - intros (H1 & H2 & H3). split_and!; try done.
    + intros Hin. specialize (H3 n Hin). by rewrite lookup_insert_eq in H3.
    + intros m Hm. specialize (H3 m Hm). destruct (decide (m = n)) as [->|]; [done|].
      by rewrite lookup_insert_ne in H3.
  - intros ([_ H1] & [Hin H2] & [_ H3]). split_and!; try done.
    intros m Hm. rewrite lookup_insert_ne; [by apply H3|]. by intros ->.
Qed.

Lemma check_positive_nil l : check_positive l = [] <-> Forall (fun d => 0 < d) l.*2.
Proof.
  induction l as [|[f d] l IH]; simpl; [by split|]. rewrite Forall_cons.
  destruct (Z.leb_spec d 0); simpl; [split; [done|lia]|]. rewrite IH. naive_solver.
Qed.

Lemma bad_if_nil b e : bad_if b e = [] <-> b = false.
Proof. by destruct b. Qed.

Lemma app_nil_iff {X : Type} (l k : list X) : l ++ k = [] <-> l = [] /\ k = [].
Proof. split; [apply app_eq_nil|by intros [-> ->]]. Qed.

Lemma Validate_usable names durations c :
  names ≡ₚ exchange_fields c -> durations ≡ₚ positive_fields c ->
  Validate names durations c = [] <-> usable c.
Proof.
  intros Hn Hd. unfold Validate. rewrite !app_nil_iff, !bad_if_nil, check_names_nil, check_positive_nil.
  rewrite !orb_false_iff, !Z.ltb_ge.
  assert (names.*2 ≡ₚ (exchange_fields c).*2) as Hn2 by (by rewrite Hn).
  assert (durations.*2 ≡ₚ (positive_fields c).*2) as Hd2 by (by rewrite Hd).
  assert (Forall (fun n : string => (∅ : gmap string string) !! n = None) names.*2) as He.
  { apply Forall_forall. intros x _. apply lookup_empty. }
  rewrite Hd2, Hn2 in *.
  split.
  - intros ([Hx [Hy _]] & ?). split; naive_solver.
  - intros [[] ? [] [] [? []] [? []]]. naive_solver.
Qed.

Section EnvLemmas.
Context (getenv : string -> string).

Lemma envPositive_bounds name max v : envPositive getenv name max = Some v -> 0 < v <= max.
Proof.
  unfold envPositive. destruct (bool_decide _); [done|]. destruct (negb _); [done|].
  destruct (ParseUint64 _) as [u|] eqn:Hp; [|done]. apply ParseUint64_range in Hp.
  destruct (Z.eqb_spec u 0); [done|]. destruct (Z.ltb_spec max u); [done|]. intros [= <-]. lia.
Qed.

Lemma envDuration_ok name unit dst :
  0 < unit -> 0 < dst <= MaxInt64 -> 0 < envDuration getenv name unit dst <= MaxInt64.
Proof.
  intros Hu Hd. unfold envDuration. destruct (envPositive _ _ _) as [v|] eqn:E; [|done].
  apply envPositive_bounds in E as [Hv Hm].
  assert (v * unit <= MaxInt64) by (pose proof (Z.mul_div_le MaxInt64 unit Hu); nia).
  rewrite int64_wrap_small by (unfold MinInt64; nia). nia.
Qed.

Lemma envInt_ok name dst : 0 < dst <= MaxInt32 -> 0 < envInt getenv name dst <= MaxInt32.
Proof.
  intros Hd. unfold envInt. destruct (envPositive _ _ _) as [v|] eqn:E; [|done]. by apply envPositive_bounds in E.
Qed.

Lemma envInt64_ok name dst : 0 < dst <= MaxInt64 -> 0 < envInt64 getenv name dst <= MaxInt64.
Proof.
  intros Hd. unfold envInt64. destruct (envPositive _ _ _) as [v|] eqn:E; [|done]. by apply envPositive_bounds in E.
Qed.

Lemma envString_ok name dst : dst <> "" -> envString getenv name dst <> "".
Proof. intros Hd. unfold envString. by destruct (decide _). Qed.
End EnvLemmas.


(** An environment with a blank-padded timeout, one that overflows and a value
    that is not a number. *)
Definition sample_getenv (name : string) : string :=
  if decide (name = "RPC_CALL_TIMEOUT_MS") then " 250 "
  else if decide (name = "STREAM_IDLE_TIMEOUT_MS") then "99999999999999999"
  else if decide (name = "DEFAULT_PREFETCH") then "-3"
  else "".

