(* ===== verification/Wire.v ===== *)
(** * Wire: the protobus envelopes (internal/wire/envelope.go)

    The five messages every request, reply and event travels in, their
    encoders ([AppendRequest], [AppendResponse], [AppendEvent]) and decoders
    ([DecodeRequest], [DecodeResponse], [DecodeEvent]).

    The primitive protobuf encoding is package protowire, which is not part of
    the repository: it is the class [Protowire] of operations, with what its
    documentation promises as the laws of [ProtowireLaws]. Module [Varint] is a
    base-128 implementation of that interface; it discharges the laws, so every
    theorem of this file applies to it. *)
From S2P Require Import Prelude GoStrings.

Local Open Scope Z_scope.

(** ** The protowire interface *)

Definition BytesType : Z := 2.

(** Field numbers protobuf allows. *)
Definition valid_number (num : Z) : Prop := 1 <= num <= 536870911.

(** A consumed length: the Go functions return [n < 0] for a parse error. *)
Class Protowire := {
  AppendTag : bytes -> Z -> Z -> bytes;
  AppendVarint : bytes -> Z -> bytes;
  AppendBytes : bytes -> bytes -> bytes;
  SizeTag : Z -> Z;
  SizeBytes : Z -> Z;
  ConsumeTag : bytes -> Z * Z * Z;
  ConsumeBytes : bytes -> bytes * Z;
  ConsumeFieldValue : Z -> Z -> bytes -> Z
}.

Class ProtowireLaws (P : Protowire) : Prop := {
  append_tag_app b num typ : AppendTag b num typ = b ++ AppendTag [] num typ;
  append_varint_app b v : AppendVarint b v = b ++ AppendVarint [] v;
  append_bytes_varint b v : AppendBytes b v = AppendVarint b (len v) ++ v;
  size_tag num : valid_number num -> SizeTag num = len (AppendTag [] num BytesType);
  size_bytes n : 0 <= n <= MaxInt64 -> SizeBytes n = len (AppendVarint [] n) + n;
  consume_tag num rest :
    valid_number num ->
    ConsumeTag (AppendTag [] num BytesType ++ rest)
    = (num, BytesType, len (AppendTag [] num BytesType));
  consume_bytes v rest :
    len v <= MaxInt64 ->
    ConsumeBytes (AppendVarint [] (len v) ++ v ++ rest)
    = (v, len (AppendVarint [] (len v)) + len v);
  (* a successful parse of a tag reads at least one byte of the input, a
     successful parse of a value never more than there is *)
  consume_tag_bound b num typ n : ConsumeTag b = (num, typ, n) -> 0 <= n -> 1 <= n <= len b;
  consume_bytes_bound b v n : ConsumeBytes b = (v, n) -> n <= len b;
  consume_field_bound num typ b : ConsumeFieldValue num typ b <= len b;
  (* the value of a length-delimited field is what ConsumeBytes reads *)
  consume_field_bytes num b : ConsumeFieldValue num BytesType b = snd (ConsumeBytes b)
}.

(** ** The envelopes *)

Record Request := { ReqMethod : string; Actor : string; ReqData : bytes }.
Record Result := { ResMethod : string; ResData : bytes }.
Record Error := { ErrMethod : string; ErrMessage : string; ErrCode : string }.
Record Response := { ResponseResult : option Result; ResponseError : option Error }.
Record Event := { EvType : string; EvTopic : string; EvData : bytes }.

(** What a decoder reports. Every constructor but [OutOfFuel] is an error
    wrapping [ErrMalformed]; [OutOfFuel] marks a loop of the model cut short,
    which [walk_never_out_of_fuel] excludes. *)
Inductive wire_error :=
| BadTag (code : Z)
| BadField (num code : Z)
| BadWireType (num typ : Z)
| BadUTF8 (num : Z)
| NeitherMember
| OutOfFuel.

#[export] Instance wire_error_eq_dec : EqDecision wire_error.
Proof. solve_decision. Defined.

(** [AppendResponse] refuses a container with both members or none. *)
Inductive append_error := BothMembers | NoMember.

Section Envelopes.
Context {P : Protowire}.

(** *** Encoding *)

(** [grow] on a slice with contents [b] and capacity [cap]: the contents are
    kept and the capacity leaves room for [n] more bytes. *)
Definition grow (cap : Z) (b : bytes) (n : Z) : bytes * Z :=
  if n <=? cap - len b then (b, cap) else (b, len b + n).

Definition sizeField (field n : Z) : Z := SizeTag field + SizeBytes n.

Definition appendString (b : bytes) (field : Z) (s : string) : bytes :=
  AppendBytes (AppendTag b field BytesType) (to_bytes s).

Definition appendBytes (b : bytes) (field : Z) (v : bytes) : bytes :=
  AppendBytes (AppendTag b field BytesType) v.

Definition SizeRequest (r : Request) : Z :=
  let n := sizeField 1 (slen (ReqMethod r)) + sizeField 3 (len (ReqData r)) in
  if decide (Actor r = "") then n else n + sizeField 2 (slen (Actor r)).

Definition AppendRequest (b : bytes) (r : Request) : bytes :=
  let b := appendString b 1 (ReqMethod r) in
  let b := if decide (Actor r = "") then b else appendString b 2 (Actor r) in
  appendBytes b 3 (ReqData r).

Definition sizeResult (r : Result) : Z :=
  sizeField 1 (slen (ResMethod r)) + sizeField 2 (len (ResData r)).

Definition AppendResult (b : bytes) (r : Result) : bytes :=
  appendBytes (appendString b 1 (ResMethod r)) 2 (ResData r).

Definition sizeError (e : Error) : Z :=
  sizeField 1 (slen (ErrMethod e)) + sizeField 2 (slen (ErrMessage e))
  + sizeField 3 (slen (ErrCode e)).

Definition appendError (b : bytes) (e : Error) : bytes :=
  appendString (appendString (appendString b 1 (ErrMethod e)) 2 (ErrMessage e)) 3 (ErrCode e).

Definition AppendResponse (b : bytes) (r : Response) : bytes * option append_error :=
  match ResponseResult r, ResponseError r with
  | Some _, Some _ => (b, Some BothMembers)
  | Some res, None =>
      let n := sizeResult res in
      let b := AppendVarint (AppendTag b 1 BytesType) (uint64_wrap n) in
      (AppendResult b res, None)
  | None, Some e =>
      let n := sizeError e in
      let b := AppendVarint (AppendTag b 2 BytesType) (uint64_wrap n) in
      (appendError b e, None)
  | None, None => (b, Some NoMember)
  end.

Definition AppendEvent (b : bytes) (e : Event) : bytes :=
  let b := appendString b 1 (EvType e) in
  let b := appendString b 2 (EvTopic e) in
  appendBytes b 3 (EvData e).

Definition SizeEvent (e : Event) : Z :=
  sizeField 1 (slen (EvType e)) + sizeField 2 (slen (EvTopic e)) + sizeField 3 (len (EvData e)).

(** *** Decoding *)

(** [walk]: [fn] is the field callback; it updates the value being decoded
    (the variable the Go closure captures) and may fail. The loop runs while
    bytes remain, and each round consumes at least a tag. *)
Fixpoint walk_fuel {S : Type} (fuel : nat) (b : bytes) (known : Z -> bool)
    (fn : Z -> bytes -> S -> S * option wire_error) (s : S) : S * option wire_error :=
  match b with
  | [] => (s, None)
  | _ =>
    match fuel with
    | O => (s, Some OutOfFuel)
    | Datatypes.S fuel' =>
      let '(num, typ, n) := ConsumeTag b in
      if n <? 0 then (s, Some (BadTag n))
      else
        let b := drop (Z.to_nat n) b in
        if negb (known num) then
          let n := ConsumeFieldValue num typ b in
          if n <? 0 then (s, Some (BadField num n))
          else walk_fuel fuel' (drop (Z.to_nat n) b) known fn s
        else if negb (typ =? BytesType) then (s, Some (BadWireType num typ))
        else
          let '(v, n) := ConsumeBytes b in
          if n <? 0 then (s, Some (BadField num n))
          else
            let b := drop (Z.to_nat n) b in
            match fn num v s with
            | (s', Some err) => (s', Some err)
            | (s', None) => walk_fuel fuel' b known fn s'
            end
    end
  end.

Definition walk {S : Type} (b : bytes) (known : Z -> bool)
    (fn : Z -> bytes -> S -> S * option wire_error) (s : S) : S * option wire_error :=
  walk_fuel (length b) b known fn s.

Definition upTo (max : Z) (n : Z) : bool := (1 <=? n) && (n <=? max).

(** [str]: the empty string with an error when [v] is not UTF-8. *)
Definition str (num : Z) (v : bytes) : string * option wire_error :=
  if utf8_valid v then (of_bytes v, None) else ("", Some (BadUTF8 num)).

Definition request_field (num : Z) (v : bytes) (r : Request) : Request * option wire_error :=
  if num =? 1 then
    let '(x, err) := str num v in
    ({| ReqMethod := x; Actor := Actor r; ReqData := ReqData r |}, err)
  else if num =? 2 then
    let '(x, err) := str num v in
    ({| ReqMethod := ReqMethod r; Actor := x; ReqData := ReqData r |}, err)
  else if num =? 3 then
    ({| ReqMethod := ReqMethod r; Actor := Actor r; ReqData := v |}, None)
  else (r, None).

Definition zeroRequest : Request := {| ReqMethod := ""; Actor := ""; ReqData := [] |}.
Definition zeroResult : Result := {| ResMethod := ""; ResData := [] |}.
Definition zeroError : Error := {| ErrMethod := ""; ErrMessage := ""; ErrCode := "" |}.
Definition zeroEvent : Event := {| EvType := ""; EvTopic := ""; EvData := [] |}.

Definition DecodeRequest (b : bytes) : Request * option wire_error :=
  walk b (upTo 3) request_field zeroRequest.

Definition result_field (num : Z) (v : bytes) (r : Result) : Result * option wire_error :=
  if num =? 1 then
    let '(x, err) := str num v in ({| ResMethod := x; ResData := ResData r |}, err)
  else if num =? 2 then ({| ResMethod := ResMethod r; ResData := v |}, None)
  else (r, None).

Definition decodeResult (b : bytes) (r : Result) : Result * option wire_error :=
  walk b (upTo 2) result_field r.

Definition error_field (num : Z) (v : bytes) (e : Error) : Error * option wire_error :=
  if num =? 1 then
    let '(x, err) := str num v in
    ({| ErrMethod := x; ErrMessage := ErrMessage e; ErrCode := ErrCode e |}, err)
  else if num =? 2 then
    let '(x, err) := str num v in
    ({| ErrMethod := ErrMethod e; ErrMessage := x; ErrCode := ErrCode e |}, err)
  else if num =? 3 then
    let '(x, err) := str num v in
    ({| ErrMethod := ErrMethod e; ErrMessage := ErrMessage e; ErrCode := x |}, err)
  else (e, None).

Definition decodeError (b : bytes) (e : Error) : Error * option wire_error :=
  walk b (upTo 3) error_field e.

(** The variables [res], [er], [hasRes] and [hasErr] of [DecodeResponse]. *)
Record response_acc := {
  acc_res : Result; acc_er : Error; hasRes : bool; hasErr : bool
}.

Definition response_field (num : Z) (v : bytes) (a : response_acc)
    : response_acc * option wire_error :=
  if num =? 1 then
    let '(res, err) := decodeResult v (acc_res a) in
    ({| acc_res := res; acc_er := acc_er a; hasRes := true; hasErr := hasErr a |}, err)
  else
    let '(er, err) := decodeError v (acc_er a) in
    ({| acc_res := acc_res a; acc_er := er; hasRes := hasRes a; hasErr := true |}, err).

Definition emptyResponse : Response := {| ResponseResult := None; ResponseError := None |}.

Definition DecodeResponse (b : bytes) : Response * option wire_error :=
  let '(a, err) :=
    walk b (upTo 2) response_field
      {| acc_res := zeroResult; acc_er := zeroError; hasRes := false; hasErr := false |} in
  match err with
  | Some e => (emptyResponse, Some e)
  | None =>
      if hasErr a then ({| ResponseResult := None; ResponseError := Some (acc_er a) |}, None)
      else if hasRes a then ({| ResponseResult := Some (acc_res a); ResponseError := None |}, None)
      else (emptyResponse, Some NeitherMember)
  end.

Definition event_field (num : Z) (v : bytes) (e : Event) : Event * option wire_error :=
  if num =? 1 then
    let '(x, err) := str num v in
    ({| EvType := x; EvTopic := EvTopic e; EvData := EvData e |}, err)
  else if num =? 2 then
    let '(x, err) := str num v in
    ({| EvType := EvType e; EvTopic := x; EvData := EvData e |}, err)
  else if num =? 3 then
    ({| EvType := EvType e; EvTopic := EvTopic e; EvData := v |}, None)
  else (e, None).

Definition DecodeEvent (b : bytes) : Event * option wire_error :=
  walk b (upTo 3) event_field zeroEvent.

(** ** Lemmas *)

Context {L : ProtowireLaws P}.

(** The encoding of one length-delimited field. *)
Definition value (v : bytes) : bytes := AppendVarint [] (len v) ++ v.
Definition field (num : Z) (v : bytes) : bytes := AppendTag [] num BytesType ++ value v.

Lemma appendBytes_field b num v : appendBytes b num v = b ++ field num v.
Proof.
  unfold appendBytes, field, value.
  rewrite append_bytes_varint, append_varint_app, append_tag_app.
  by rewrite <-!app_assoc.
Qed.

Lemma appendString_field b num s : appendString b num s = b ++ field num (to_bytes s).
Proof. apply appendBytes_field. Qed.

Lemma field_ne num v : valid_number num -> field num v <> [].
Proof.
  intros Hn E. apply app_nil in E as [E _].
  pose proof (consume_tag num [] Hn) as H. rewrite E in H. simpl in H.
  apply consume_tag_bound in H; [|done]. unfold len in H. simpl in H. lia.
Qed.

Lemma field_consume_tag num v rest :
  valid_number num ->
  ConsumeTag (field num v ++ rest) = (num, BytesType, len (AppendTag [] num BytesType)).
Proof. intros Hn. unfold field. rewrite <-app_assoc. by apply consume_tag. Qed.

Lemma field_drop_tag num v rest :
  drop (Z.to_nat (len (AppendTag [] num BytesType))) (field num v ++ rest) = value v ++ rest.
Proof. unfold field, len. by rewrite <-app_assoc, Nat2Z.id, drop_app_length. Qed.

Lemma value_consume v rest :
  len v <= MaxInt64 -> ConsumeBytes (value v ++ rest) = (v, len (value v)).
Proof.
  intros Hv. unfold value. rewrite <-app_assoc, len_app. by apply consume_bytes.
Qed.

Lemma value_drop v rest : drop (Z.to_nat (len (value v))) (value v ++ rest) = rest.
Proof. unfold len. by rewrite Nat2Z.id, drop_app_length. Qed.

Lemma len_field num v :
  valid_number num -> len v <= MaxInt64 -> len (field num v) = sizeField num (len v).
Proof.
  intros Hn Hv. unfold field, value, sizeField.
  rewrite !len_app, size_tag, size_bytes by (try done; pose proof (len_nonneg v); lia). lia.
Qed.

(** *** The walk terminates, and any fuel of at least the input's length gives
    the same result. *)

Lemma drop_length_lt {A} (l : list A) n : 1 <= n -> l <> [] -> (length (drop (Z.to_nat n) l) < length l)%nat.
Proof. intros Hn Hl. rewrite length_drop. destruct l; [done|]. simpl. lia. Qed.

Section Walk.
Context {S : Type} (known : Z -> bool) (fn : Z -> bytes -> S -> S * option wire_error).

Lemma walk_fuel_irrelevant f1 f2 b s :
  (length b <= f1)%nat -> (length b <= f2)%nat ->
  walk_fuel f1 b known fn s = walk_fuel f2 b known fn s.
Proof.
  revert f2 b s. induction f1 as [|f1 IH]; intros f2 b s H1 H2.
  { destruct b; [by destruct f2 | simpl in H1; lia]. }
  destruct b as [|x b]; [by destruct f2|].
  destruct f2 as [|f2]; [simpl in H2; lia|].
  cbn [walk_fuel].
  destruct (ConsumeTag (x :: b)) as [[num typ] n] eqn:Ht.
  destruct (Z.ltb_spec n 0); [done|].
  apply consume_tag_bound in Ht; [|lia].
  assert (length (drop (Z.to_nat n) (x :: b)) < length (x :: b))%nat by (apply drop_length_lt; [lia|done]).
  set (b' := drop (Z.to_nat n) (x :: b)) in *.
  destruct (negb (known num)).
  { destruct (_ <? 0); [done|]. apply IH; rewrite length_drop; lia. }
  destruct (negb (typ =? BytesType)); [done|].
  destruct (ConsumeBytes b') as [v m]. destruct (m <? 0); [done|].
  destruct (fn num v s) as [s' [e|]]; [done|]. apply IH; rewrite length_drop; lia.
Qed.

Lemma walk_nil s : walk [] known fn s = (s, None).
Proof. done. Qed.

(** One round of the loop on an input that starts with a field. *)
Lemma walk_round num v rest s :
  valid_number num -> len v <= MaxInt64 ->
  walk (field num v ++ rest) known fn s =
    if known num then
      match fn num v s with
      | (s', Some e) => (s', Some e)
      | (s', None) => walk rest known fn s'
      end
    else walk rest known fn s.
Proof.
  intros Hn Hv. unfold walk at 1.
  pose proof (field_ne num v Hn) as Hne.
  assert (length rest < length (field num v ++ rest))%nat as Hlt.
  { rewrite length_app. destruct (field num v); [done | simpl; lia]. }
  destruct (field num v ++ rest) as [|x b] eqn:E; [by apply app_nil in E as [E _]|].
  assert (length (x :: b) = Datatypes.S (length b)) as Hlen by done.
  rewrite Hlen. cbn [walk_fuel].
  rewrite <-E, field_consume_tag by done.
  assert (forall A (l : list A), (len l <? 0) = false) as Hlb.
  { intros A l. apply Z.ltb_ge, len_nonneg. }
  rewrite Hlb, field_drop_tag. destruct (known num); simpl.
  - rewrite value_consume by done. rewrite Hlb, value_drop.
    destruct (fn num v s) as [s' [e|]]; [done|]. apply walk_fuel_irrelevant; lia.
  - rewrite consume_field_bytes, value_consume by done. simpl.
    rewrite Hlb, value_drop. apply walk_fuel_irrelevant; lia.
Qed.

Lemma walk_known num v rest s :
  valid_number num -> len v <= MaxInt64 -> known num = true ->
  walk (field num v ++ rest) known fn s =
    match fn num v s with
    | (s', Some e) => (s', Some e)
    | (s', None) => walk rest known fn s'
    end.
Proof. intros Hn Hv Hk. by rewrite walk_round, Hk. Qed.

(** A field outside the known range is skipped, whatever its contents. *)
Lemma walk_unknown num v rest s :
  valid_number num -> len v <= MaxInt64 -> known num = false ->
  walk (field num v ++ rest) known fn s = walk rest known fn s.
Proof. intros Hn Hv Hk. by rewrite walk_round, Hk. Qed.

Lemma walk_fuel_no_oof f b s :
  (forall num v s, snd (fn num v s) <> Some OutOfFuel) ->
  (length b <= f)%nat -> snd (walk_fuel f b known fn s) <> Some OutOfFuel.
Proof.
  intros Hfn. revert b s. induction f as [|f IH]; intros b s Hb.
  { destruct b; [done | simpl in Hb; lia]. }
  destruct b as [|x b]; [done|]. cbn [walk_fuel].
  destruct (ConsumeTag (x :: b)) as [[num typ] n] eqn:Ht.
  destruct (Z.ltb_spec n 0); [done|].
  apply consume_tag_bound in Ht; [|lia].
  assert (length (drop (Z.to_nat n) (x :: b)) < length (x :: b))%nat by (apply drop_length_lt; [lia|done]).
  set (b' := drop (Z.to_nat n) (x :: b)) in *.
  destruct (negb (known num)).
  { destruct (_ <? 0); [done|]. apply IH; rewrite length_drop; lia. }
  destruct (negb (typ =? BytesType)); [done|].
  destruct (ConsumeBytes b') as [v m]. destruct (m <? 0); [done|].
  specialize (Hfn num v s). destruct (fn num v s) as [s' [e|]]; [done|].
  apply IH; rewrite length_drop; lia.
Qed.

End Walk.

(** *** Well-formed envelopes: UTF-8 text, lengths a Go slice can have. *)

Definition text_ok (s : string) : bool := utf8_valid (to_bytes s) && (slen s <=? MaxInt64).
Definition data_ok (b : bytes) : bool := len b <=? MaxInt64.

Definition request_ok (r : Request) : bool :=
  text_ok (ReqMethod r) && text_ok (Actor r) && data_ok (ReqData r).
Definition result_ok (r : Result) : bool :=
  text_ok (ResMethod r) && data_ok (ResData r) && (sizeResult r <=? MaxInt64).
Definition error_ok (e : Error) : bool :=
  text_ok (ErrMethod e) && text_ok (ErrMessage e) && text_ok (ErrCode e)
  && (sizeError e <=? MaxInt64).
Definition response_ok (r : Response) : bool :=
  match ResponseResult r, ResponseError r with
  | Some res, None => result_ok res
  | None, Some e => error_ok e
  | _, _ => false
  end.
Definition event_ok (e : Event) : bool :=
  text_ok (EvType e) && text_ok (EvTopic e) && data_ok (EvData e).

Lemma text_ok_spec s :
  text_ok s = true -> utf8_valid (to_bytes s) = true /\ len (to_bytes s) <= MaxInt64.
Proof. unfold text_ok. rewrite len_to_bytes. intros [? ?%Z.leb_le]%andb_prop. done. Qed.

Lemma str_ok num s : text_ok s = true -> str num (to_bytes s) = (s, None).
Proof. intros [Hv _]%text_ok_spec. unfold str. by rewrite Hv, of_to_bytes. Qed.

(** Fields a newer peer may add: any numbers above those this version knows. *)
Definition extension (max : Z) (ext : list (Z * bytes)) : Prop :=
  Forall (fun '(num, v) => max < num /\ valid_number num /\ len v <= MaxInt64) ext.
Definition encode_ext (ext : list (Z * bytes)) : bytes :=
  concat (map (fun '(num, v) => field num v) ext).

Lemma walk_extension {S} max fn (s : S) ext :
  0 <= max -> extension max ext ->
  walk (encode_ext ext) (upTo max) fn s = (s, None).
Proof.
  intros Hm. induction 1 as [|[num v] ext (Hlt & Hn & Hv) _ IH]; [done|].
  unfold encode_ext. simpl. rewrite walk_unknown; try done.
  unfold upTo. apply andb_false_intro2. lia.
Qed.

End Envelopes.

(** Steps of a decoding proof: fields the reader knows, one round each. *)
Ltac wire_ok :=
  repeat match goal with
  | H : (_ && _)%bool = true |- _ => apply andb_prop in H as [? ?]
  | H : data_ok _ = true |- _ => unfold data_ok in H; apply Z.leb_le in H
  | H : (_ <=? _) = true |- _ => apply Z.leb_le in H
  end.
Ltac wire_side :=
  first [ done | unfold valid_number; lia
        | match goal with H : text_ok _ = true |- _ => apply text_ok_spec in H as [? ?]; done end
        | reflexivity ].
Ltac wire_round :=
  rewrite walk_known by wire_side;
  cbn [request_field result_field error_field event_field Z.eqb Pos.eqb];
  rewrite ?str_ok by done; cbn -[walk].

Section RoundTrip.
Context {P : Protowire} {L : ProtowireLaws P}.

Lemma decodeResult_encoded res r0 ext :
  result_ok res = true -> extension 2 ext ->
  decodeResult (AppendResult [] res ++ encode_ext ext) r0 = (res, None).
Proof.
  intros Hok Hext. unfold result_ok in Hok. wire_ok. unfold decodeResult, AppendResult.
  rewrite appendBytes_field, appendString_field. simpl. rewrite <-!app_assoc.
  do 2 wire_round. rewrite walk_extension by (lia || done). by destruct res.
Qed.

Lemma decodeError_encoded e e0 ext :
  error_ok e = true -> extension 3 ext ->
  decodeError (appendError [] e ++ encode_ext ext) e0 = (e, None).
Proof.
  intros Hok Hext. unfold error_ok in Hok. wire_ok. unfold decodeError, appendError.
  rewrite !appendString_field. simpl. rewrite <-!app_assoc.
  do 3 wire_round. rewrite walk_extension by (lia || done). by destruct e.
Qed.

Lemma len_AppendResult b r :
  result_ok r = true -> len (AppendResult b r) = len b + sizeResult r.
Proof.
  intros Hok. unfold result_ok in Hok. wire_ok. unfold AppendResult, sizeResult.
  rewrite appendBytes_field, appendString_field, !len_app, !len_field by wire_side.
  rewrite len_to_bytes. lia.
Qed.

Lemma len_appendError b e :
  error_ok e = true -> len (appendError b e) = len b + sizeError e.
Proof.
  intros Hok. unfold error_ok in Hok. wire_ok. unfold appendError, sizeError.
  rewrite !appendString_field, !len_app, !len_field by wire_side.
  rewrite !len_to_bytes. lia.
Qed.

Lemma result_member_len r : result_ok r = true -> len (AppendResult [] r) <= MaxInt64.
Proof.
  intros H. rewrite len_AppendResult by done. unfold result_ok in H. wire_ok.
  change (len []) with 0. lia.
Qed.

Lemma error_member_len e : error_ok e = true -> len (appendError [] e) <= MaxInt64.
Proof.
  intros H. rewrite len_appendError by done. unfold error_ok in H. wire_ok.
  change (len []) with 0. lia.
Qed.

Lemma AppendResult_app b r : AppendResult b r = b ++ AppendResult [] r.
Proof.
  unfold AppendResult. rewrite !appendBytes_field, !appendString_field. by rewrite <-!app_assoc.
Qed.

Lemma appendError_app b e : appendError b e = b ++ appendError [] e.
Proof. unfold appendError. rewrite !appendString_field. by rewrite <-!app_assoc. Qed.

(** The members of a response container, as they appear on the wire. *)
Definition encoded_member (r : Response) : bytes :=
  match ResponseResult r, ResponseError r with
  | Some res, _ => field 1 (AppendResult [] res)
  | None, Some e => field 2 (appendError [] e)
  | None, None => []
  end.

Lemma AppendResponse_member b r :
  response_ok r = true -> AppendResponse b r = (b ++ encoded_member r, None).
Proof.
  intros Hok. unfold response_ok in Hok. unfold AppendResponse, encoded_member.
  assert (forall n, 0 <= n <= MaxInt64 -> uint64_wrap n = n) as Hw.
  { intros n Hn. apply Z.mod_small. unfold MaxInt64 in Hn. lia. }
  destruct (ResponseResult r) as [res|] eqn:?, (ResponseError r) as [e|] eqn:?; try done.
  - pose proof (len_AppendResult [] res Hok) as Hl. change (len []) with 0 in Hl; rewrite Z.add_0_l in Hl.
    unfold result_ok in Hok. wire_ok.
    rewrite (AppendResult_app (AppendVarint _ _)), append_varint_app, append_tag_app. unfold field, value.
    rewrite Hw, Hl by (pose proof (len_nonneg (AppendResult [] res)); lia).
    by rewrite <-!app_assoc.
  - pose proof (len_appendError [] e Hok) as Hl. change (len []) with 0 in Hl; rewrite Z.add_0_l in Hl.
    unfold error_ok in Hok. wire_ok.
    rewrite (appendError_app (AppendVarint _ _)), append_varint_app, append_tag_app. unfold field, value.
    rewrite Hw, Hl by (pose proof (len_nonneg (appendError [] e)); lia).
    by rewrite <-!app_assoc.
Qed.

Lemma response_encoded (r : Response) (ext : list (Z * bytes)) :
  response_ok r = true -> extension 2 ext ->
  exists b, AppendResponse [] r = (b, None) /\ DecodeResponse (b ++ encode_ext ext) = (r, None).
Proof.
  intros Hok Hext. exists (encoded_member r). rewrite AppendResponse_member by done.
  split; [done|]. unfold response_ok in Hok. unfold DecodeResponse, encoded_member.
  destruct r as [[res|] [e|]]; simpl in *; try done.
  - pose proof (result_member_len res Hok). rewrite walk_known by wire_side.
    unfold response_field at 1. simpl.
    rewrite <-(app_nil_r (AppendResult [] res)). change [] with (encode_ext []) at 2.
    rewrite decodeResult_encoded by (done || constructor). simpl.
    by rewrite walk_extension by (lia || done).
  - pose proof (error_member_len e Hok). rewrite walk_known by wire_side.
    unfold response_field at 1. simpl.
    rewrite <-(app_nil_r (appendError [] e)). change [] with (encode_ext []) at 2.
    rewrite decodeError_encoded by (done || constructor). simpl.
    by rewrite walk_extension by (lia || done).
Qed.

Lemma request_decoded (r : Request) (ext : list (Z * bytes)) :
  request_ok r = true -> extension 3 ext ->
  DecodeRequest (AppendRequest [] r ++ encode_ext ext) = (r, None).
Proof.
  intros Hok Hext. unfold request_ok in Hok. wire_ok. unfold DecodeRequest, AppendRequest.
  rewrite appendBytes_field. destruct (decide (Actor r = "")) as [Ha|Ha];
    rewrite ?appendString_field; simpl; rewrite <-!app_assoc.
  - do 2 wire_round. rewrite walk_extension by (lia || done). destruct r. simpl in *. by subst.
  - do 3 wire_round. rewrite walk_extension by (lia || done). by destruct r.
Qed.

Lemma request_encoded (r : Request) : request_ok r = true -> DecodeRequest (AppendRequest [] r) = (r, None).
Proof. intros Hok. rewrite <-(app_nil_r (AppendRequest [] r)). apply (request_decoded r []); [done|constructor]. Qed.

Lemma event_decoded (e : Event) (ext : list (Z * bytes)) :
  event_ok e = true -> extension 3 ext ->
  DecodeEvent (AppendEvent [] e ++ encode_ext ext) = (e, None).
Proof.
  intros Hok Hext. unfold event_ok in Hok. wire_ok. unfold DecodeEvent, AppendEvent.
  rewrite appendBytes_field, !appendString_field. simpl. rewrite <-!app_assoc.
  do 3 wire_round. rewrite walk_extension by (lia || done). by destruct e.
Qed.

Lemma event_encoded (e : Event) : event_ok e = true -> DecodeEvent (AppendEvent [] e) = (e, None).
Proof. intros Hok. rewrite <-(app_nil_r (AppendEvent [] e)). apply (event_decoded e []); [done|constructor]. Qed.

(** ** Properties *)

(** When a peer sends both members, the error wins in either order. *)
Lemma error_wins (res : Result) (e : Error) :
  result_ok res = true -> error_ok e = true ->
  let rb := encoded_member {| ResponseResult := Some res; ResponseError := None |} in
  let eb := encoded_member {| ResponseResult := None; ResponseError := Some e |} in
  DecodeResponse (rb ++ eb) = ({| ResponseResult := None; ResponseError := Some e |}, None) /\
  DecodeResponse (eb ++ rb) = ({| ResponseResult := None; ResponseError := Some e |}, None).
Proof.
  intros Hr He. simpl. unfold DecodeResponse, encoded_member. simpl.
  pose proof (result_member_len res Hr). pose proof (error_member_len e He).
  pose proof (decodeResult_encoded res zeroResult [] Hr (Forall_nil_2 _)) as Dr.
  pose proof (decodeError_encoded e zeroError [] He (Forall_nil_2 _)) as De.
  unfold encode_ext in Dr, De. simpl in Dr, De. rewrite app_nil_r in Dr, De.
  split.
  - rewrite walk_known by wire_side. unfold response_field at 1. simpl. rewrite Dr.
    rewrite <-(app_nil_r (field 2 _)), walk_known by wire_side.
    unfold response_field at 1. simpl. by rewrite De.
  - rewrite walk_known by wire_side. unfold response_field at 1. simpl. rewrite De.
    rewrite <-(app_nil_r (field 1 _)), walk_known by wire_side.
    unfold response_field at 1. simpl. by rewrite Dr.
Qed.


Lemma str_no_oof num v : snd (str num v) <> Some OutOfFuel.
Proof. unfold str. by destruct (utf8_valid v). Qed.

Ltac no_oof :=
  intros; repeat match goal with
  | |- context [str ?n ?v] =>
      let H := fresh in pose proof (str_no_oof n v) as H; destruct (str n v) as [? ?]
  | |- context [if ?c then _ else _] => destruct c
  end; simpl in *; done.

Lemma decodeResult_no_oof v r : snd (decodeResult v r) <> Some OutOfFuel.
Proof. apply walk_fuel_no_oof; [|lia]. unfold result_field. no_oof. Qed.

Lemma decodeError_no_oof v e : snd (decodeError v e) <> Some OutOfFuel.
Proof. apply walk_fuel_no_oof; [|lia]. unfold error_field. no_oof. Qed.

(** Decoding terminates on every input: the fuel of the walk, the input's
    length, is enough for arbitrary (also malformed) bytes, so the decoders
    always return a value or an error of the code. *)
Lemma decoders_terminate (b : bytes) :
  snd (DecodeRequest b) <> Some OutOfFuel /\
  snd (DecodeResponse b) <> Some OutOfFuel /\
  snd (DecodeEvent b) <> Some OutOfFuel.
Proof.
  split; [|split].
  - apply walk_fuel_no_oof; [|lia]. unfold request_field. no_oof.
  - unfold DecodeResponse.
    match goal with |- context [walk b ?k ?f ?s] =>
      assert (snd (walk b k f s) <> Some OutOfFuel) as H; [|destruct (walk b k f s) as [a [e|]]] end.
    + apply walk_fuel_no_oof; [|lia]. intros num v a. unfold response_field.
      destruct (num =? 1).
      * pose proof (decodeResult_no_oof v (acc_res a)). by destruct (decodeResult v _).
      * pose proof (decodeError_no_oof v (acc_er a)). by destruct (decodeError v _).
    + done.
    + simpl. destruct (hasErr a); [done|]. by destruct (hasRes a).
  - apply walk_fuel_no_oof; [|lia]. unfold event_field. no_oof.
Qed.

(** The size functions are exact: what an append writes is exactly what
    [grow] reserved, so the encoding never outgrows the grown buffer (one
    allocation at most). *)
Lemma append_sizes_exact (b : bytes) (cap : Z) (r : Request) (e : Event) :
  request_ok r = true -> event_ok e = true ->
  len (AppendRequest (fst (grow cap b (SizeRequest r))) r) = len b + SizeRequest r /\
  len (AppendRequest b r) <= snd (grow cap b (SizeRequest r)) /\
  len (AppendEvent (fst (grow cap b (SizeEvent e))) e) = len b + SizeEvent e /\
  len (AppendEvent b e) <= snd (grow cap b (SizeEvent e)).
Proof.
  intros Hr He.
  assert (forall n, fst (grow cap b n) = b) as Hg by (intros n; unfold grow; by destruct (_ <=? _)).
  assert (forall n, len b + n <= snd (grow cap b n)) as Hc.
  { intros n. unfold grow. destruct (Z.leb_spec n (cap - len b)); simpl; lia. }
  assert (len (AppendRequest b r) = len b + SizeRequest r) as Sr.
  { unfold request_ok in Hr. wire_ok. unfold AppendRequest, SizeRequest.
    rewrite appendBytes_field. destruct (decide (Actor r = ""));
    rewrite !appendString_field, !len_app, !len_field, ?len_to_bytes by wire_side; lia. }
  assert (len (AppendEvent b e) = len b + SizeEvent e) as Se.
  { unfold event_ok in He. wire_ok. unfold AppendEvent, SizeEvent.
    rewrite appendBytes_field, !appendString_field, !len_app, !len_field, !len_to_bytes by wire_side. lia. }
  rewrite !Hg, Sr, Se. auto.
Qed.

End RoundTrip.

(** ** A base-128 implementation of the interface *)

Module Varint.

Definition byte_of_Z (z : Z) : byte :=
  match Byte.of_N (Z.to_N z) with Some b => b | None => x00 end.

Lemma byteZ_of_Z z : 0 <= z < 256 -> byteZ (byte_of_Z z) = z.
Proof.
  intros Hz. unfold byteZ, byte_of_Z.
  destruct (Byte.of_N (Z.to_N z)) as [b|] eqn:E.
  - apply Byte.to_of_N in E. rewrite E. lia.
  - apply Byte.of_N_None_iff in E. lia.
Qed.

Fixpoint varint (fuel : nat) (v : Z) : bytes :=
  match fuel with
  | O => []
  | S f => if v <? 128 then [byte_of_Z v] else byte_of_Z (128 + v mod 128) :: varint f (v / 128)
  end.

Fixpoint unvarint (fuel : nat) (b : bytes) : option (Z * Z) :=
  match fuel, b with
  | S f, x :: b' =>
      if byteZ x <? 128 then Some (byteZ x, 1)
      else match unvarint f b' with
           | Some (v, n) => Some (byteZ x - 128 + 128 * v, n + 1)
           | None => None
           end
  | _, _ => None
  end.

Lemma unvarint_varint f v rest :
  0 <= v < 128 ^ Z.of_nat (S f) ->
  unvarint (S f) (varint (S f) v ++ rest) = Some (v, len (varint (S f) v)).
Proof.
  revert v. induction f as [|f IH]; intros v Hv; cbn [varint unvarint].
  - change (128 ^ Z.of_nat 1) with 128 in Hv. destruct (Z.ltb_spec v 128); [|lia].
    cbn [app]. rewrite byteZ_of_Z by lia. destruct (Z.ltb_spec v 128); [done|lia].
  - rewrite Nat2Z.inj_succ, Z.pow_succ_r in Hv by lia.
    pose proof (Z.mod_pos_bound v 128 ltac:(lia)).
    destruct (Z.ltb_spec v 128) as [Hl|Hl]; cbn [app].
    + rewrite byteZ_of_Z by lia. destruct (Z.ltb_spec v 128); [done|lia].
    + rewrite byteZ_of_Z by lia. destruct (Z.ltb_spec (128 + v mod 128) 128); [lia|].
      cbn [varint unvarint] in IH. rewrite IH.
      2:{ split; [apply Z.div_pos; lia | apply Z.div_lt_upper_bound; lia]. }
      pose proof (Z.div_mod v 128 ltac:(lia)). unfold len. cbn [length].
      f_equal. f_equal; lia.
Qed.

Lemma unvarint_bound f b v n : unvarint f b = Some (v, n) -> 0 <= v /\ 1 <= n <= len b.
Proof.
  revert b v n. induction f as [|f IH]; intros [|x b] v n; cbn [unvarint]; try done.
  assert (0 <= byteZ x) by (unfold byteZ; lia).
  unfold len. cbn [length]. destruct (Z.ltb_spec (byteZ x) 128).
  - intros [= <- <-]. lia.
  - destruct (unvarint f b) as [[w m]|] eqn:E; [|done]. intros [= <- <-].
    apply IH in E as [? ?]. unfold len in *. lia.
Qed.

(** Ten base-128 digits hold any 64-bit value. *)
Definition put (v : Z) : bytes := varint 10 v.

Definition get_bytes (b : bytes) : bytes * Z :=
  match unvarint 10 b with
  | None => ([], -1)
  | Some (m, n) =>
      if len b <? n + m then ([], -1)
      else (take (Z.to_nat m) (drop (Z.to_nat n) b), n + m)
  end.

Definition get_tag (b : bytes) : Z * Z * Z :=
  match unvarint 10 b with
  | None => (0, 0, -1)
  | Some (v, n) => if v / 8 <? 1 then (0, 0, -2) else (v / 8, v mod 8, n)
  end.

(** The length of a value: varint, fixed64, length-delimited and fixed32;
    groups are refused. *)
Definition get_value (num typ : Z) (b : bytes) : Z :=
  if typ =? 2 then snd (get_bytes b)
  else if typ =? 0 then match unvarint 10 b with Some (_, n) => n | None => -1 end
  else let w := if typ =? 1 then 8 else if typ =? 5 then 4 else -1 in
       if len b <? w then -1 else w.

#[export] Instance wire : Protowire := {|
  AppendTag b num typ := b ++ put (num * 8 + typ);
  AppendVarint b v := b ++ put v;
  AppendBytes b v := (b ++ put (len v)) ++ v;
  SizeTag num := len (put (num * 8 + BytesType));
  SizeBytes n := len (put n) + n;
  ConsumeTag := get_tag;
  ConsumeBytes := get_bytes;
  ConsumeFieldValue := get_value
|}.

Lemma unvarint_put v rest : 0 <= v <= MaxInt64 -> unvarint 10 (put v ++ rest) = Some (v, len (put v)).
Proof. intros Hv. apply unvarint_varint. unfold MaxInt64 in Hv. simpl. lia. Qed.

Lemma get_bytes_bound b v n : get_bytes b = (v, n) -> n <= len b.
Proof.
  unfold get_bytes. destruct (unvarint 10 b) as [[m k]|] eqn:E.
  - destruct (Z.ltb_spec (len b) (k + m)); intros [= _ <-]; [pose proof (len_nonneg b)|]; lia.
  - intros [= _ <-]. pose proof (len_nonneg b). lia.
Qed.

#[export] Instance wire_laws : ProtowireLaws wire.
Proof.
  split; cbn -[put get_tag get_bytes get_value].
  - done.
  - done.
  - done.
  - done.
  - done.
  - intros num rest Hn. unfold get_tag.
    rewrite unvarint_put by (unfold valid_number, BytesType, MaxInt64 in *; lia).
    unfold BytesType. rewrite Z.div_add_l, Z.add_0_r by lia.
    destruct (Z.ltb_spec num 1); [unfold valid_number in Hn; lia|].
    by rewrite Z.add_comm, Z.mod_add by lia.
  - intros v rest Hv. unfold get_bytes.
    rewrite unvarint_put by (pose proof (len_nonneg v); lia).
    rewrite !len_app. pose proof (len_nonneg rest).
    destruct (Z.ltb_spec (len (put (len v)) + (len v + len rest)) (len (put (len v)) + len v)); [lia|].
    replace (Z.to_nat (len (put (len v)))) with (length (put (len v))) by (unfold len; lia).
    replace (Z.to_nat (len v)) with (length v) by (unfold len; lia).
    by rewrite drop_app_length, take_app_length.
  - intros b num typ n. unfold get_tag. destruct (unvarint 10 b) as [[v m]|] eqn:E.
    + apply unvarint_bound in E as [_ ?]. destruct (_ <? 1); intros [= <- <- <-] ?; lia.
    + intros [= <- <- <-]. lia.
  - apply get_bytes_bound.
  - intros num typ b. unfold get_value. pose proof (len_nonneg b).
    destruct (typ =? 2); [by eapply get_bytes_bound, surjective_pairing|].
    destruct (typ =? 0).
    + destruct (unvarint 10 b) as [[v n]|] eqn:E; [apply unvarint_bound in E|]; lia.
    + destruct (Z.ltb_spec (len b) (if typ =? 1 then 8 else if typ =? 5 then 4 else -1)); lia.
  - done.
Qed.

End Varint.

(** ** Witnesses: the theorems at concrete envelopes over [Varint.wire] *)

#[local] Existing Instances Varint.wire Varint.wire_laws.

Definition sample_request : Request :=
  {| ReqMethod := "Calc.Service.add"; Actor := "cli"; ReqData := [x08; x01] |}.
Definition sample_result : Result := {| ResMethod := "Calc.Service.add"; ResData := [x08; x03] |}.
Definition sample_error : Error :=
  {| ErrMethod := "Calc.Service.add"; ErrMessage := "no"; ErrCode := "HANDLED_ERROR" |}.
Definition sample_event : Event :=
  {| EvType := "Shop.Order"; EvTopic := "EVENT.Shop.Order"; EvData := [x0a] |}.

Lemma sample_extension (max : Z) : max < 9 -> extension max [(9, [xff])].
Proof. intros H. repeat constructor; done. Qed.


Lemma decoders_terminate_witness :
  snd (DecodeRequest (P := Varint.wire) [xff; xff]) <> Some OutOfFuel.
Proof. apply (proj1 (decoders_terminate (P := Varint.wire) [xff; xff])). Defined.

Lemma append_sizes_witness :
  len (AppendRequest (P := Varint.wire) (fst (grow 4 [] (SizeRequest sample_request))) sample_request)
  = len (A := byte) [] + SizeRequest sample_request.
Proof.
  destruct (append_sizes_exact (P := Varint.wire) [] 4 sample_request sample_event) as [H _];
    [vm_compute; reflexivity | vm_compute; reflexivity | exact H].
Defined.
