(* ===== verification/Topic.v ===== *)
(** * Topic: AMQP topic matching (internal/topic/trie.go)

    The subscriber's trie from topic patterns to handlers: [Add], [child],
    [collect] and [Match]. The reference is the matching rule a broker applies
    to one binding, [topicMatch] of internal/fakebroker/broker.go, itself
    related to the declarative relation [amqp_match].

    A node owns its children (every pointer of the Go trie has one owner, and
    [Add] is the only writer, under the trie's lock), so nodes are an inductive
    tree; [children] is an association list, looked up by key. The values are
    compared with [EqDecision] ([T comparable]). *)
From S2P Require Import Prelude GoStrings.

Local Open Scope Z_scope.

(** ** The broker's rule *)

(** '*' is one word, '#' zero or more, any other word itself. *)
Inductive amqp_match : list string -> list string -> Prop :=
| match_nil : amqp_match [] []
| match_hash_zero p t : amqp_match p t -> amqp_match ("#" :: p) t
| match_hash_more p w t : amqp_match ("#" :: p) t -> amqp_match ("#" :: p) (w :: t)
| match_star p w t : amqp_match p t -> amqp_match ("*" :: p) (w :: t)
| match_word p w t : w <> "#" -> amqp_match p t -> amqp_match (w :: p) (w :: t).

(** [topicMatch]: the recursion on '#' goes down the topic with the same
    pattern, so the topic is the inner recursion. *)
Fixpoint topicMatch (p : list string) : list string -> bool :=
  match p with
  | [] => fun t => match t with [] => true | _ => false end
  | w :: p' =>
      if decide (w = "#") then
        fix go (t : list string) : bool :=
          topicMatch p' t || match t with [] => false | _ :: t' => go t' end
      else fun t =>
        match t with
        | [] => false
        | v :: t' => if decide (w = "*" \/ w = v) then topicMatch p' t' else false
        end
  end.

(** ** The trie *)

Record entry (T : Type) := Entry { entry_v : T; entry_seq : Z }.
Arguments Entry {T}.
Arguments entry_v {T}.
Arguments entry_seq {T}.

#[export] Instance entry_eq_dec {T} `{EqDecision T} : EqDecision (entry T).
Proof. solve_decision. Defined.

#[warnings="-register-all"]
Inductive node (T : Type) : Type :=
  Node (children : list (string * node T)) (star hash : option (node T)) (values : list (entry T)).
Arguments Node {T}.

Record Trie (T : Type) := { root : node T; trie_seq : Z }.
Arguments root {T}.
Arguments trie_seq {T}.

Section Trie.
Context {T : Type} `{EqDecision T}.

Definition emptyNode : node T := Node [] None None [].

Definition New : Trie T := {| root := emptyNode; trie_seq := 0 |}.

(** [n.children[word]] *)
Fixpoint lookup_child (word : string) (cs : list (string * node T)) : option (node T) :=
  match cs with
  | [] => None
  | (k, c) :: cs' => if decide (k = word) then Some c else lookup_child word cs'
  end.

(** [n.children[word] = c] *)
Fixpoint set_child (word : string) (c : node T) (cs : list (string * node T)) : list (string * node T) :=
  match cs with
  | [] => [(word, c)]
  | (k, c') :: cs' => if decide (k = word) then (k, c) :: cs' else (k, c') :: set_child word c cs'
  end.

(** [n.child(word)] returns the child, creating it when it is missing; what is
    then done to it is done in place. [update_child word f n] is [n] with [f]
    applied to that child. *)
Definition update_child (word : string) (f : node T -> node T) (n : node T) : node T :=
  let '(Node cs st ha vs) := n in
  if decide (word = "*") then Node cs (Some (f (default emptyNode st))) ha vs
  else if decide (word = "#") then Node cs st (Some (f (default emptyNode ha))) vs
  else Node (set_child word (f (default emptyNode (lookup_child word cs))) cs) st ha vs.

Definition append_value (e : entry T) (n : node T) : node T :=
  let '(Node cs st ha vs) := n in Node cs st ha (vs ++ [e]).

(** The loop of [Add]: walk the words, then append the value. *)
Fixpoint add_path (words : list string) (e : entry T) (n : node T) : node T :=
  match words with
  | [] => append_value e n
  | w :: ws => update_child w (add_path ws e) n
  end.

Definition Add (t : Trie T) (pattern : string) (x : T) : Trie T :=
  let s := uint64_wrap (trie_seq t + 1) in
  {| root := add_path (Split pattern) (Entry x s) (root t); trie_seq := s |}.

(** [words[i:]] for [i] from 0 to [len(words)]. *)
Fixpoint suffixes (ws : list string) : list (list string) :=
  ws :: match ws with [] => [] | _ :: ws' => suffixes ws' end.

(** [collect]: the found entries, in the order they are appended. *)
Fixpoint collect (n : node T) (words : list string) : list (entry T) :=
  let '(Node cs st ha vs) := n in
  match words with
  | [] => vs ++ match ha with Some h => collect h [] | None => [] end
  | w :: ws =>
      (fix child (cs : list (string * node T)) : list (entry T) :=
         match cs with
         | [] => []
         | (k, c) :: cs' => if decide (k = w) then collect c ws else child cs'
         end) cs
      ++ match st with Some s => collect s ws | None => [] end
      ++ match ha with Some h => concat (map (collect h) (suffixes words)) | None => [] end
  end.

(** [slices.SortFunc] by [seq]. Entries with the same [seq] are one entry found
    along several paths, so every correct sort gives this list. *)
Fixpoint insert_entry (e : entry T) (l : list (entry T)) : list (entry T) :=
  match l with
  | [] => [e]
  | x :: l' => if entry_seq e <=? entry_seq x then e :: l else x :: insert_entry e l'
  end.

Fixpoint SortFunc (l : list (entry T)) : list (entry T) :=
  match l with [] => [] | e :: l' => insert_entry e (SortFunc l') end.

(** The final loop: append each value not yet in [dst[start:]]; [out] is
    [dst[start:]]. *)
Fixpoint append_new (out : list T) (found : list (entry T)) : list T :=
  match found with
  | [] => out
  | e :: found' => append_new (if decide (entry_v e ∈ out) then out else out ++ [entry_v e]) found'
  end.

Definition Match (t : Trie T) (topic : string) (dst : list T) : list T :=
  let found := collect (root t) (Split topic) in
  match found with
  | [] => dst
  | _ => dst ++ append_new [] (SortFunc found)
  end.

(** ** Specification

    The subscriptions in the order they were added; a topic selects those
    whose pattern matches, each value once, at its first occurrence. *)
Definition build (adds : list (string * T)) : Trie T :=
  fold_left (fun t '(p, x) => Add t p x) adds New.

Definition matching (topic : string) (adds : list (string * T)) : list T :=
  map snd (List.filter (fun px => topicMatch (Split (fst px)) (Split topic)) adds).

Fixpoint dedup_into (out : list T) (l : list T) : list T :=
  match l with
  | [] => out
  | x :: l' => dedup_into (if decide (x ∈ out) then out else out ++ [x]) l'
  end.

Definition Match_spec (adds : list (string * T)) (topic : string) (dst : list T) : list T :=
  dst ++ dedup_into [] (matching topic adds).

End Trie.
Arguments emptyNode {T}.
Arguments New {T}.

(** ** Lemmas: the broker's rule *)

Lemma topicMatch_hash p t :
  topicMatch ("#" :: p) t = existsb (topicMatch p) (suffixes t).
Proof.
  simpl. induction t as [|w t IH]; simpl; [done|]. by rewrite IH.
Qed.

Lemma topicMatch_word w p t :
  w <> "#" ->
  topicMatch (w :: p) t =
    match t with [] => false | v :: t' => bool_decide (w = "*" \/ w = v) && topicMatch p t' end.
Proof.
  intros Hw. cbn [topicMatch]. rewrite decide_False by done. destruct t as [|v' t]; [done|].
  case_decide; [rewrite bool_decide_true by done | rewrite bool_decide_false by done]; done.
Qed.

Lemma amqp_match_topicMatch p t : amqp_match p t <-> topicMatch p t = true.
Proof.
  split.
  - induction 1 as [|p t _ IH|p w t _ IH|p w t _ IH|p w t Hw _ IH].
    + done.
    + rewrite topicMatch_hash. destruct t; simpl; by rewrite IH.
    + rewrite topicMatch_hash in *. simpl. by rewrite IH, orb_true_r.
    + by rewrite topicMatch_word, IH, bool_decide_true by auto.
    + rewrite topicMatch_word, IH, bool_decide_true by auto. done.
  - revert t. induction p as [|w p IH]; intros t Ht; [destruct t; [constructor|done]|].
    destruct (decide (w = "#")) as [->|Hw].
    + rewrite topicMatch_hash in Ht. induction t as [|x t IHt]; simpl in Ht.
      * rewrite orb_false_r in Ht. constructor. by apply IH.
      * apply orb_prop in Ht as [Ht|Ht]; [constructor; by apply IH | apply match_hash_more; auto].
    + rewrite topicMatch_word in Ht by done. destruct t as [|x t]; [done|].
      apply andb_prop in Ht as [Hd Ht]. apply bool_decide_eq_true in Hd.
      apply IH in Ht. destruct Hd as [->| ->]; by constructor.
Qed.

(** ** Lemmas: the trie *)

Section TrieLemmas.
Context {T : Type} `{EqDecision T}.
Implicit Types (n : node T) (e : entry T).

Definition ocollect (o : option (node T)) (ws : list string) : list (entry T) :=
  match o with Some c => collect c ws | None => [] end.

Lemma collect_unfold cs st ha vs ws :
  collect (T:=T) (Node cs st ha vs) ws =
  match ws with
  | [] => vs ++ ocollect ha []
  | w :: ws' =>
      ocollect (lookup_child w cs) ws' ++ ocollect st ws'
      ++ concat (map (ocollect ha) (suffixes ws))
  end.
Proof.
  destruct ws as [|w ws]; [done|]. cbn [collect]. f_equal.
  - induction cs as [|[k c] cs IH]; [done|]. simpl. by case_decide.
  - f_equal. destruct ha; [done|]. simpl ocollect.
    generalize (suffixes (w :: ws)). induction l; [done|]. by simpl.
Qed.

Lemma collect_empty ws : collect (T:=T) emptyNode ws = [].
Proof. by destruct ws. Qed.

Lemma collect_default o ws : collect (default emptyNode o) ws = ocollect o ws.
Proof. destruct o; [done|apply collect_empty]. Qed.

Lemma lookup_set_child w c cs k :
  lookup_child (T:=T) k (set_child w c cs) = if decide (w = k) then Some c else lookup_child k cs.
Proof.
  induction cs as [|[x d] cs IH]; simpl; [done|].
  repeat (case_decide || simpl); simplify_eq; try done; by rewrite ?IH, ?decide_False.
Qed.

Lemma elem_of_concat_map {A B} (f : A -> list B) l y :
  y ∈ concat (map f l) <-> exists x, x ∈ l /\ y ∈ f x.
Proof.
  induction l as [|a l IH]; simpl.
  - split; [by intros ?%elem_of_nil|]. intros (x & Hx & _). by apply elem_of_nil in Hx.
  - rewrite elem_of_app, IH. split.
    + intros [?|(x & ? & ?)]; [exists a|exists x]; split; try done; by constructor.
    + intros (x & [->|Hx]%elem_of_cons & ?); [by left|right; eauto].
Qed.

Lemma topicMatch_hash_suffix p t :
  topicMatch ("#" :: p) t = true <-> exists s, s ∈ suffixes t /\ topicMatch p s = true.
Proof.
  rewrite topicMatch_hash, existsb_exists.
  split; intros (s & Hs & ?); exists s; split; try done; by apply list_elem_of_In.
Qed.

(** Adding a pattern adds its entry to exactly the topics it matches. *)
Lemma elem_of_collect_add p e n ws x :
  x ∈ collect (add_path p e n) ws <->
  x ∈ collect n ws \/ (x = e /\ topicMatch p ws = true).
Proof.
  revert n ws. induction p as [|w p IH]; intros [cs st ha vs] ws.
  { simpl add_path. rewrite !collect_unfold. destruct ws as [|w ws].
    - rewrite !elem_of_app, list_elem_of_singleton. simpl. naive_solver.
    - simpl. naive_solver. }
  cbn [add_path update_child].
  destruct (decide (w = "*")) as [->|Hs]; [|destruct (decide (w = "#")) as [->|Hh]].
  - rewrite topicMatch_word by done. rewrite !collect_unfold. destruct ws as [|w ws]; [naive_solver|].
    rewrite !elem_of_app. simpl ocollect at 2. rewrite IH, collect_default.
    rewrite bool_decide_true by auto. simpl. naive_solver.
  - assert (forall s, x ∈ ocollect (Some (add_path p e (default emptyNode ha))) s <->
        x ∈ ocollect ha s \/ x = e /\ topicMatch p s = true) as IH'.
    { intros s. simpl. by rewrite IH, collect_default. }
    rewrite topicMatch_hash_suffix, !collect_unfold. destruct ws as [|w ws].
    + rewrite !elem_of_app, IH'. split.
      * intros [?|[?|[-> ?]]]; [naive_solver|naive_solver|]. right. split; [done|].
        exists []. split; [by left|done].
      * intros [?|[-> (s & [->|Hsn%elem_of_nil]%elem_of_cons & ?)]]; naive_solver.
    + rewrite !elem_of_app, !elem_of_concat_map. setoid_rewrite IH'. naive_solver.
  - rewrite topicMatch_word by done. rewrite !collect_unfold. destruct ws as [|k ws]; [naive_solver|].
    rewrite !elem_of_app, lookup_set_child. case_decide as Hk.
    + subst k. simpl ocollect at 1. rewrite IH, collect_default.
      rewrite bool_decide_true by auto. simpl. naive_solver.
    + rewrite bool_decide_false by naive_solver. naive_solver.
Qed.

(** *** Sorting and deduplication *)

Lemma elem_of_insert_entry e l x : x ∈ insert_entry e l <-> x = e \/ x ∈ l.
Proof.
  induction l as [|y l IH]; simpl; [by rewrite list_elem_of_singleton, elem_of_nil; naive_solver|].
  destruct (_ <=? _); rewrite !elem_of_cons, ?IH; naive_solver.
Qed.

Lemma elem_of_SortFunc l x : x ∈ SortFunc (T:=T) l <-> x ∈ l.
Proof. induction l; simpl; [done|]. by rewrite elem_of_insert_entry, elem_of_cons, IHl. Qed.

Definition seq_le (a b : entry T) : Prop := entry_seq a <= entry_seq b.
Definition seq_lt (a b : entry T) : Prop := entry_seq a < entry_seq b.

Lemma insert_entry_sorted e l : StronglySorted seq_le l -> StronglySorted seq_le (insert_entry e l).
Proof.
  induction 1 as [|y l Hl IH Hy]; simpl; [repeat constructor|].
  destruct (Z.leb_spec (entry_seq e) (entry_seq y)).
  - constructor; [by constructor|]. constructor; [done|].
    eapply Forall_impl; [done|]. unfold seq_le. simpl. lia.
  - constructor; [done|]. apply Forall_forall. intros x Hx%elem_of_insert_entry.
    rewrite Forall_forall in Hy. unfold seq_le in *. destruct Hx as [->|Hx]; [lia|]. by apply Hy.
Qed.

Lemma SortFunc_sorted l : StronglySorted seq_le (SortFunc (T:=T) l).
Proof. induction l; simpl; [constructor|]. by apply insert_entry_sorted. Qed.

Lemma append_new_dedup out l : append_new out l = dedup_into (T:=T) out (map entry_v l).
Proof. revert out. induction l; intros; simpl; [done|]. by rewrite IHl. Qed.

(** A weakly sorted list with repetitions and a strictly sorted list with the
    same entries have the same values at first occurrence. *)
Lemma dedup_sorted l k out :
  StronglySorted seq_le l -> StronglySorted seq_lt k ->
  (forall x, x ∈ l <-> x ∈ k) ->
  (forall x y, x ∈ l -> y ∈ l -> entry_seq x = entry_seq y -> x = y) ->
  dedup_into out (map entry_v l) = dedup_into out (map entry_v k).
Proof.
  intros Hl. revert k out. induction Hl as [|a l Hl IH Ha]; intros k out Hk Hlk Hinj.
  { destruct k as [|b k]; [done|]. exfalso. eapply (elem_of_nil b), Hlk. by left. }
  rewrite Forall_forall in Ha. destruct Hk as [|b k Hk Hb].
  { exfalso. eapply (elem_of_nil a), Hlk. by left. }
  rewrite Forall_forall in Hb.
  assert (a = b) as <-.
  { assert (b ∈ a :: l) as Hbl by (apply Hlk; by left).
    assert (a ∈ b :: k) as Hak by (apply Hlk; by left).
    apply Hinj; [by left|done|]. unfold seq_le, seq_lt in *.
    apply elem_of_cons in Hbl as [->|Hbl]; [done|]. apply elem_of_cons in Hak as [->|Hak]; [done|].
    specialize (Ha _ Hbl). specialize (Hb _ Hak). lia. }
  assert (a ∉ k) as Hnk. { intros H%Hb. unfold seq_lt in H. lia. }
  simpl. set (out' := if decide (entry_v a ∈ out) then out else out ++ [entry_v a]).
  assert (entry_v a ∈ out') as Hin.
  { unfold out'. case_decide; [done|]. apply elem_of_app. right. by left. }
  destruct (decide (a ∈ l)) as [Hal|Hal].
  - (* the same entry found again: its value is already out *)
    rewrite (IH (a :: k) out'); [|by constructor; [|apply Forall_forall]| |].
    + simpl. by rewrite decide_True by done.
    + intros x. rewrite <-Hlk, elem_of_cons. naive_solver.
    + intros x y Hx Hy. apply Hinj; by right.
  - apply IH; [done| |].
    + intros x. specialize (Hlk x). rewrite !elem_of_cons in Hlk.
      split; intros Hx.
      * destruct (proj1 Hlk) as [->|?]; [by right|done|done].
      * destruct (proj2 Hlk) as [->|?]; [by right|done|done].
    + intros x y Hx Hy. apply Hinj; by right.
Qed.

(** *** Tries built by [Add] *)

(** The entry of the [i]-th addition. *)
Definition entry_of (i : nat) (x : T) : entry T := Entry x (Z.of_nat i + 1).

Fixpoint entries (i : nat) (topic : string) (adds : list (string * T)) : list (entry T) :=
  match adds with
  | [] => []
  | (p, x) :: adds' =>
      (if topicMatch (Split p) (Split topic) then [entry_of i x] else [])
      ++ entries (S i) topic adds'
  end.

Lemma entries_app i topic a b :
  entries i topic (a ++ b) = entries i topic a ++ entries (i + length a) topic b.
Proof.
  revert i. induction a as [|[p x] a IH]; intros i; simpl; [by rewrite Nat.add_0_r|].
  rewrite IH, <-app_assoc. do 3 f_equal. lia.
Qed.

Lemma entries_values i topic adds : map entry_v (entries i topic adds) = matching topic adds.
Proof.
  revert i. induction adds as [|[p x] adds IH]; intros i; [done|].
  unfold matching in *. simpl. rewrite map_app, IH. by destruct (topicMatch _ _).
Qed.

Lemma entries_lower i topic adds e : e ∈ entries i topic adds -> Z.of_nat i < entry_seq e.
Proof.
  revert i. induction adds as [|[p x] adds IH]; intros i; simpl; [by intros ?%elem_of_nil|].
  rewrite elem_of_app. intros [He|He].
  - destruct (topicMatch _ _); [|by apply elem_of_nil in He].
    apply list_elem_of_singleton in He as ->. simpl. lia.
  - apply IH in He. lia.
Qed.

Lemma entries_sorted i topic adds : StronglySorted seq_lt (entries i topic adds).
Proof.
  revert i. induction adds as [|[p x] adds IH]; intros i; simpl; [constructor|].
  destruct (topicMatch _ _); simpl; [|apply IH]. constructor; [apply IH|].
  apply Forall_forall. intros e He%entries_lower. unfold seq_lt. simpl. lia.
Qed.

Lemma strict_seq_inj (k : list (entry T)) x y :
  StronglySorted seq_lt k -> x ∈ k -> y ∈ k -> entry_seq x = entry_seq y -> x = y.
Proof.
  unfold seq_lt. induction 1 as [|a k _ IH Ha]; [by intros ?%elem_of_nil|].
  rewrite Forall_forall in Ha.
  intros [->|Hx]%elem_of_cons [->|Hy]%elem_of_cons E; auto.
  - apply Ha in Hy. lia.
  - apply Ha in Hx. lia.
Qed.

Lemma build_snoc (adds : list (string * T)) p x : build (adds ++ [(p, x)]) = Add (build adds) p x.
Proof. unfold build. by rewrite fold_left_app. Qed.

Lemma build_seq (adds : list (string * T)) :
  len adds <= MaxUint64 -> trie_seq (build adds) = len adds.
Proof.
  induction adds as [|[p x] adds IH] using rev_ind; [done|].
  rewrite build_snoc, len_app. change (len [(p, x)]) with 1. unfold MaxUint64 in *. intros Hl.
  simpl. rewrite IH by lia. apply Z.mod_small. pose proof (len_nonneg adds). lia.
Qed.

Lemma elem_of_collect_build (adds : list (string * T)) topic e :
  len adds <= MaxUint64 ->
  e ∈ collect (root (build adds)) (Split topic) <-> e ∈ entries 0 topic adds.
Proof.
  induction adds as [|[p x] adds IH] using rev_ind; intros Hl.
  { change (root (build [])) with (@emptyNode T). by rewrite collect_empty. }
  rewrite len_app in Hl. change (len [(p, x)]) with 1 in Hl.
  rewrite build_snoc, entries_app. simpl root. rewrite elem_of_collect_add, IH by lia.
  rewrite elem_of_app, build_seq by lia. simpl. rewrite app_nil_r.
  replace (uint64_wrap (len adds + 1)) with (len adds + 1).
  2:{ symmetry. apply Z.mod_small. unfold MaxUint64 in Hl. pose proof (len_nonneg adds). lia. }
  destruct (topicMatch (Split p) (Split topic)).
  - rewrite list_elem_of_singleton. unfold entry_of, len. naive_solver.
  - rewrite elem_of_nil. naive_solver.
Qed.

Lemma Match_is_spec (adds : list (string * T)) (topic : string) (dst : list T) :
  len adds <= MaxUint64 ->
  Match (build adds) topic dst = Match_spec adds topic dst.
Proof.
  intros Hl. unfold Match, Match_spec.
  assert (dedup_into [] (map entry_v (SortFunc (collect (root (build adds)) (Split topic))))
          = dedup_into [] (matching topic adds)) as E.
  { rewrite <-(entries_values 0).
    assert (forall x, x ∈ SortFunc (collect (root (build adds)) (Split topic)) <->
                      x ∈ entries 0 topic adds) as Hx.
    { intros x. by rewrite elem_of_SortFunc, elem_of_collect_build. }
    apply dedup_sorted; [apply SortFunc_sorted|apply entries_sorted|done|].
    intros x y ?%Hx ?%Hx. eapply strict_seq_inj; eauto using entries_sorted. }
  rewrite <-E, <-append_new_dedup.
  destruct (collect _ _); [by rewrite app_nil_r | done].
Qed.

(** C2: the trie is a faithful index of its subscriptions: matching a topic
    appends to [dst] exactly the values whose pattern the broker's rule matches
    with the topic, each once, in the order they were added; and that rule, a
    recursive function, decides AMQP's declarative matching relation. (The bound
    is that of the 64-bit insertion counter.) *)
Theorem Match_correct (adds : list (string * T)) (topic : string) (dst : list T) :
  len adds <= MaxUint64 ->
  Match (build adds) topic dst = Match_spec adds topic dst /\
  forall p t, topicMatch p t = true <-> amqp_match p t.
Proof. intros H. split; [by apply Match_is_spec|]. intros p t. symmetry. apply amqp_match_topicMatch. Qed.

End TrieLemmas.

(** A subscriber with overlapping patterns. *)
Definition sample_adds : list (string * nat) :=
  [("EVENT.#", 1%nat); ("EVENT.*.created", 2%nat); ("#.created", 1%nat); ("EVENT.order.created", 3%nat)].

Example sample_match : Match (build sample_adds) "EVENT.order.created" [9%nat] = [9; 1; 2; 3]%nat.
Proof. vm_compute. reflexivity. Qed.

Lemma Match_correct_witness :
  Match (build sample_adds) "EVENT.order.created" [9%nat]
  = Match_spec sample_adds "EVENT.order.created" [9%nat].
Proof. apply Match_correct. vm_compute. discriminate. Defined.
