(* ===== verification/Headers.v ===== *)
(** * Headers: AMQP messages and the header readers (headers.go)

    The message types of the AMQP client as the sources use them ([Delivery],
    [Publishing], header tables), and the tolerant readers and writers of
    protocol headers. A header table is a [gmap]: a nil map reads as an empty
    one. A header value is a Go [any]: one constructor per dynamic type
    [headerInt] distinguishes, and [VOther] for the rest. *)
From S2P Require Import Prelude GoStrings.
From Stdlib Require Import SpecFloat.

Local Open Scope Z_scope.

(** ** AMQP data *)

Inductive hval :=
| VNil
| VBool (b : bool)
| VInt (n : Z) | VInt8 (n : Z) | VInt16 (n : Z) | VInt32 (n : Z) | VInt64 (n : Z)
| VUint8 (n : Z) | VUint16 (n : Z) | VUint32 (n : Z) | VUint64 (n : Z)
| VFloat32 (f : spec_float) | VFloat64 (f : spec_float)
| VString (s : string)
| VBytes (b : bytes)
| VOther (kind : string).

Abbreviation Table := (gmap string hval).

(** [h[k]]: a missing key reads as nil. *)
Definition hget (h : Table) (k : string) : hval := default VNil (h !! k).

Record Delivery := {
  Headers : Table;
  ContentType : string;
  ContentEncoding : string;
  Priority : Z;
  CorrelationId : string;
  ReplyTo : string;
  MessageId : string;
  Timestamp : Z;
  DType : string;
  AppId : string;
  DeliveryTag : Z;
  Redelivered : bool;
  Exchange : string;
  RoutingKey : string;
  Body : bytes
}.

Record Publishing := {
  PHeaders : Table;
  PContentType : string;
  PContentEncoding : string;
  PDeliveryMode : Z;
  PPriority : Z;
  PCorrelationId : string;
  PReplyTo : string;
  PMessageId : string;
  PTimestamp : Z;
  PType : string;
  PAppId : string;
  PBody : bytes
}.

(** [amqp.Persistent] *)
Definition Persistent : Z := 2.

Definition headerRetryCount : string := "x-retry-count".
Definition headerOriginalKey : string := "x-original-routing-key".
Definition headerOriginalQueue : string := "x-original-queue".
Definition headerFirstFailure : string := "x-first-failure-time".
Definition headerDeadLetterTime : string := "x-dlq-time".
Definition headerLastError : string := "x-last-error".
Definition headerFinal : string := "x-protobus-final".
Definition headerSeq : string := "x-protobus-seq".
Definition contentTypeOctetStream : string := "application/octet-stream".

(** ** Numbers *)

(** The conversion [int64(f)] of a float whose value is not an [int64] is
    implementation-dependent in Go; the only promise is the type of the
    result. *)
Class GoArch := {
  int64_of_float : Z -> Z;
  int64_of_float_range z : MinInt64 <= int64_of_float z <= MaxInt64
}.

(** The integer a float denotes, when it denotes one ([f == math.Trunc(f)]);
    an infinity truncates to itself. *)
Inductive float_value := FNotIntegral | FInfinite | FInteger (z : Z).

Definition float_integral (f : spec_float) : float_value :=
  match f with
  | S754_zero _ => FInteger 0
  | S754_infinity _ => FInfinite
  | S754_nan => FNotIntegral
  | S754_finite s m e =>
      let z := if s then Z.neg m else Z.pos m in
      if 0 <=? e then FInteger (z * 2 ^ e)
      else if z mod 2 ^ (- e) =? 0 then FInteger (z / 2 ^ (- e)) else FNotIntegral
  end.

Section Readers.
Context {A : GoArch}.

(** [f < math.MinInt64 || f > math.MaxInt64] compares with the constants
    converted to float64: [-2^63] and [2^63]. *)
Definition floatInt (f : spec_float) : option Z :=
  match float_integral f with
  | FNotIntegral | FInfinite => None
  | FInteger z =>
      if (z <? - 2 ^ 63) || (2 ^ 63 <? z) then None
      else Some (if z <=? MaxInt64 then z else int64_of_float z)
  end.

(** [headerInt]: [None] is [ok == false]. *)
Definition headerInt (x : hval) : option Z :=
  match x with
  | VInt n | VInt8 n | VInt16 n | VInt32 n | VInt64 n => Some n
  | VUint8 n | VUint16 n | VUint32 n => Some n
  | VUint64 n => if MaxInt64 <? n then None else Some n
  | VFloat32 f => floatInt f
  | VFloat64 f => floatInt f
  | VString s => ParseInt64 (TrimSpace s)
  | VBytes b => ParseInt64 (TrimSpace (of_bytes b))
  | VNil | VBool _ | VOther _ => None
  end.

Definition intHeader (n : Z) : hval :=
  if (MinInt32 <=? n) && (n <=? MaxInt32) then VInt32 n else VInt64 n.

Definition final_text (s : string) : bool := EqualFold s "true" || bool_decide (s = "1").

Definition streamFinal (h : Table) : bool :=
  match hget h headerFinal with
  | VNil => false
  | VBool b => b
  | VString s => final_text s
  | VBytes b => final_text (of_bytes b)
  | x => match headerInt x with Some n => negb (n =? 0) | None => false end
  end.

(** [streamSeq]: [None] when the header is absent or not a non-negative
    integer. *)
Definition streamSeq (h : Table) : option Z :=
  match h !! headerSeq with
  | None => None
  | Some x => match headerInt x with
              | Some n => if n <? 0 then None else Some n
              | None => None
              end
  end.

Definition retryCount (h : Table) : Z :=
  match headerInt (hget h headerRetryCount) with
  | None => 0
  | Some n => if n <? 0 then 0 else if MaxInt32 <? n then MaxInt32 else n
  end.

(** The properties a retry or dead-letter republish preserves; everything else
    is the zero value. *)
Definition carriedProperties (d : Delivery) : Publishing := {|
  PHeaders := ∅;
  PContentType := ContentType d;
  PContentEncoding := ContentEncoding d;
  PDeliveryMode := 0;
  PPriority := Priority d;
  PCorrelationId := "";
  PReplyTo := "";
  PMessageId := "";
  PTimestamp := Timestamp d;
  PType := DType d;
  PAppId := AppId d;
  PBody := []
|}.

(** [copyHeaders]: the copy has the same entries. *)
Definition copyHeaders (h : Table) : gmap string hval := h.

(** ** Properties *)

(** Header values as the client library delivers them: integers within their
    declared width. *)
Definition hval_ok (x : hval) : Prop :=
  match x with
  | VInt n | VInt64 n => MinInt64 <= n <= MaxInt64
  | VInt8 n => -128 <= n <= 127
  | VInt16 n => -32768 <= n <= 32767
  | VInt32 n => MinInt32 <= n <= MaxInt32
  | VUint8 n => 0 <= n <= 255
  | VUint16 n => 0 <= n <= 65535
  | VUint32 n => 0 <= n <= 4294967295
  | VUint64 n => 0 <= n <= MaxUint64
  | _ => True
  end.

Lemma headerInt_intHeader n : headerInt (intHeader n) = Some n.
Proof. unfold intHeader. by destruct (_ && _). Qed.

Lemma retryCount_insert h n :
  0 <= n <= MaxInt32 -> retryCount (<[headerRetryCount := intHeader n]> h) = n.
Proof.
  intros Hn. unfold retryCount, hget. rewrite lookup_insert_eq. simpl.
  rewrite headerInt_intHeader.
  destruct (Z.ltb_spec n 0); [lia|]. destruct (Z.ltb_spec MaxInt32 n); lia.
Qed.

Lemma retryCount_range h : 0 <= retryCount h <= MaxInt32.
Proof.
  unfold retryCount. destruct (headerInt _) as [n|]; [|unfold MaxInt32; lia].
  destruct (Z.ltb_spec n 0); [unfold MaxInt32; lia|].
  destruct (Z.ltb_spec MaxInt32 n); unfold MaxInt32 in *; lia.
Qed.

Lemma ParseInt64_range l n : ParseInt64 l = Some n -> MinInt64 <= n <= MaxInt64.
Proof.
  unfold ParseInt64. destruct (split_sign l) as [neg [|c ds]]; [done|].
  cbn [signed_digits]. destruct (digits_value 0 (c :: ds)) as [w|] eqn:E; [|done].
  apply digits_value_nonneg in E; [|lia]. unfold MinInt64, MaxInt64.
  destruct neg; [destruct (Z.leb_spec w (9223372036854775807 + 1))
                |destruct (Z.leb_spec w 9223372036854775807)]; intros [= <-]; lia.
Qed.

Lemma floatInt_range f n : floatInt f = Some n -> MinInt64 <= n <= MaxInt64.
Proof.
  unfold floatInt. destruct (float_integral f) as [| |z]; try done.
  destruct (Z.ltb_spec z (- 2 ^ 63)); [done|]. destruct (Z.ltb_spec (2 ^ 63) z); [done|]. simpl.
  destruct (Z.leb_spec z MaxInt64); intros [= <-]; [|apply int64_of_float_range].
  unfold MinInt64. lia.
Qed.

Lemma headerInt_range x n : hval_ok x -> headerInt x = Some n -> is_int64 n.
Proof.
  intros Hok Hn. unfold is_int64.
  destruct x; simpl in *; simplify_eq; unfold MinInt32, MaxInt32 in *;
    eauto using floatInt_range, ParseInt64_range; try (unfold MinInt64, MaxInt64 in *; lia).
  destruct (Z.ltb_spec MaxInt64 n0); simplify_eq. unfold MinInt64 in *. lia.
Qed.

Lemma floatInt_exact f z :
  float_integral f = FInteger z ->
  floatInt f = if decide (z = 2 ^ 63) then Some (int64_of_float (2 ^ 63))
               else if decide (is_int64 z) then Some z else None.
Proof.
  intros Hz. unfold floatInt. rewrite Hz. unfold is_int64, MinInt64, MaxInt64.
  destruct (Z.ltb_spec z (- 2 ^ 63)); [rewrite !decide_False by lia; done|].
  destruct (Z.ltb_spec (2 ^ 63) z); [rewrite !decide_False by lia; done|]. simpl orb.
  case_decide; [subst; done|]. rewrite decide_True by lia.
  by destruct (Z.leb_spec z 9223372036854775807); [|lia].
Qed.

(** C6: whatever type a peer chose for a header number, a value read from it is
    an [int64]; an integer this library writes reads back; the retry count read
    from any headers, also hostile ones, is between 0 and 2^31-1; and the range
    check on floats is exact on every integral float except [2^63]: the code
    compares with the constant [MaxInt64] rounded to float64, so [2^63] passes
    and its conversion is the platform's overflow value. *)
Theorem header_numbers (x : hval) (n k : Z) (h : Table) (f : spec_float) (z : Z) :
  hval_ok x -> headerInt x = Some n -> float_integral f = FInteger z ->
  is_int64 n /\ headerInt (intHeader k) = Some k /\ 0 <= retryCount h <= MaxInt32 /\
  floatInt f = if decide (z = 2 ^ 63) then Some (int64_of_float (2 ^ 63))
               else if decide (is_int64 z) then Some z else None.
Proof.
  intros Hok Hn Hz. split_and!; [by apply headerInt_range with x|apply headerInt_intHeader|..];
    [apply retryCount_range..|by apply floatInt_exact].
Qed.

End Readers.

(** The gc compiler on amd64 answers an out-of-range conversion with the
    smallest [int64]. *)
Definition amd64 : GoArch.
Proof. refine {| int64_of_float := fun _ => MinInt64 |}. intros z. done. Defined.

(** [2^63] as a float64. *)
Definition float_2_63 : spec_float := S754_finite false (2 ^ 52) 11.

Lemma header_numbers_witness :
  is_int64 255 /\ headerInt (A := amd64) (intHeader (2 ^ 40)) = Some (2 ^ 40) /\
  0 <= retryCount (A := amd64) {[headerRetryCount := VString " 7 "]} <= MaxInt32 /\
  floatInt (A := amd64) float_2_63
  = if decide (2 ^ 63 = 2 ^ 63) then Some (int64_of_float (GoArch := amd64) (2 ^ 63))
    else if decide (is_int64 (2 ^ 63)) then Some (2 ^ 63) else None.
Proof.
  apply (header_numbers (A := amd64) (VUint8 255) 255 (2 ^ 40) {[headerRetryCount := VString " 7 "]} float_2_63 (2 ^ 63));
    [simpl; lia | reflexivity | reflexivity].
Defined.
