(* ===== verification/Errors.v ===== *)
(** * Errors: the error model and its classification (errors.go)

    A Go error is a tree: leaves and wrappers, each with a dynamic type. The
    type [err] has one constructor per dynamic type the classification
    distinguishes; [EForeign] is any type of another package (its reflect name,
    its text, its [Code()] if it has one and what it unwraps to). Errors with
    their own [Is] or [As] methods are not modelled. [errors.Is] against a
    package-level sentinel is identity; [errors.As] is the first error of the
    type in depth-first order. A nil error is [None] of [option err]. *)
From S2P Require Import Prelude GoStrings.

Local Open Scope Z_scope.

(** ** Codes *)

Definition CodeHandled : string := "HANDLED_ERROR".
Definition CodeProtocol : string := "PROTOCOL_ERROR".
Definition CodeInternal : string := "INTERNAL_ERROR".
Definition CodeProcessingTimeout : string := "PROCESSING_TIMEOUT".
Definition CodeRPCTimeout : string := "RPC_TIMEOUT".
Definition CodeNotReady : string := "NOT_READY".
Definition CodePublishNacked : string := "PUBLISH_NACKED".
Definition CodeUnroutable : string := "UNROUTABLE".
Definition CodePublishConfirmTimeout : string := "PUBLISH_CONFIRM_TIMEOUT".
Definition CodeChannelClosed : string := "CHANNEL_CLOSED".

(** ** Errors *)

(** Package-level error variables, of protobus and of the packages it uses. *)
Inductive sentinel :=
| ErrClosed | ErrNotReady | ErrDisconnected | ErrRPCTimeout
| ErrPublishNacked | ErrUnroutable | ErrPublishConfirmTimeout | ErrChannelClosed
| ErrStreamTimeout | ErrStreamBackpressure | ErrStreamSequence
| ErrInvalidPriority | ErrInvalidMessageID | ErrRetryQueueMismatch | ErrUnimplemented
| ErrCancelled | ErrStreamFinished | ErrUnknownService
| ErrInvalidRequest | ErrInvalidResponse | ErrUnknownEventType | ErrMalformed
| ErrChannelGone | ErrPublishStalled | ErrStreamReleased | ErrConnectionGone
| AmqpErrClosed | CtxCanceled | CtxDeadlineExceeded.

#[export] Instance sentinel_eq_dec : EqDecision sentinel.
Proof. solve_decision. Defined.

Definition sentinel_text (s : sentinel) : string :=
  match s with
  | ErrClosed => "protobus: closed"
  | ErrNotReady => "protobus: connection not ready"
  | ErrDisconnected => "protobus: connection lost during call"
  | ErrRPCTimeout => "protobus: rpc timed out"
  | ErrPublishNacked => "protobus: broker nacked the publish"
  | ErrUnroutable => "protobus: message was unroutable"
  | ErrPublishConfirmTimeout => "protobus: no broker confirm in time"
  | ErrChannelClosed => "protobus: channel closed before the broker confirmed"
  | ErrStreamTimeout => "protobus: no stream chunk within the idle timeout"
  | ErrStreamBackpressure => "protobus: stream buffer limit exceeded"
  | ErrStreamSequence => "protobus: stream lost a chunk"
  | ErrInvalidPriority => "protobus: invalid priority"
  | ErrInvalidMessageID => "protobus: invalid message id"
  | ErrRetryQueueMismatch => "protobus: retry queue exists with different arguments"
  | ErrUnimplemented => "protobus: method not implemented"
  | ErrCancelled => "protobus: cancelled by the caller"
  | ErrStreamFinished => "protobus: Send after the stream handler returned"
  | ErrUnknownService => "protobus: unknown service"
  | ErrInvalidRequest => "protobus: invalid request"
  | ErrInvalidResponse => "protobus: invalid response"
  | ErrUnknownEventType => "protobus: unknown event type"
  | ErrMalformed => "protobus: malformed envelope"
  | ErrChannelGone => "protobus: channel unavailable: " +:+ "Exception (504) Reason: channel/connection is not open"
  | ErrPublishStalled => "protobus: publish not sent: the channel had no capacity in time"
  | ErrStreamReleased => "protobus: stream released"
  | ErrConnectionGone => "protobus: connection gone"
  | AmqpErrClosed => "Exception (504) Reason: channel/connection is not open"
  | CtxCanceled => "context canceled"
  | CtxDeadlineExceeded => "context deadline exceeded"
  end.

(** How a foreign error exposes a code: [ErrorCode()], [Code()] or not at
    all. *)
Inductive code_method := HasErrorCode (code : string) | HasCode (code : string) | NoCode.

(** What a foreign error unwraps to: [Unwrap() error] or [Unwrap() []error]. *)
#[warnings="-register-all"]
Inductive err :=
| ESentinel (s : sentinel)
| EText (text : string)
| EHandled (code message : string)
| ERemote (method code message : string)
| EPublish (inner : err) (messageID exchange routingKey detail : string)
| EProcessingTimeout (correlationID : string) (limit : Z)
| EPayload (inner : err)
| EWrap (text : string) (inner : err)
| EWraps (text : string) (inners : list err)
| EForeign (name text : string) (code : code_method) (inner : option err)
| EForeigns (name text : string) (code : code_method) (inners : list err).

(** [fmt.Errorf] with several [%w] is [*fmt.wrapErrors], [errors.Join] is
    [*errors.joinError]: both are [EWraps]. *)

(** ** Text: [err.Error()] *)

Fixpoint error_text (e : err) : string :=
  match e with
  | ESentinel s => sentinel_text s
  | EText t => t
  | EHandled _ m => m
  | ERemote method code m =>
      if decide (code = "") then "protobus: " +:+ method +:+ ": " +:+ m
      else "protobus: " +:+ method +:+ ": " +:+ code +:+ ": " +:+ m
  | EPublish inner mid ex rk detail =>
      let dest := if decide (ex = "") then rk else ex +:+ " -> " +:+ rk in
      let msg := error_text inner +:+ " (" +:+ dest +:+ ", messageId " +:+ mid +:+ ")" in
      if decide (detail = "") then msg else msg +:+ ": " +:+ detail
  | EProcessingTimeout cid limit =>
      "message " +:+ cid +:+ " exceeded the " +:+ duration_string limit +:+ " processing timeout"
  | EPayload inner => "payload did not decode: " +:+ error_text inner
  | EWrap t _ => t
  | EWraps t _ => t
  | EForeign _ t _ _ => t
  | EForeigns _ t _ _ => t
  end.

(** ** errors.Is and errors.As *)

(** [errors.Is(e, s)] for a sentinel [s]. *)
Fixpoint is_sentinel (s : sentinel) (e : err) : bool :=
  match e with
  | ESentinel s' => bool_decide (s' = s) || (bool_decide (s' = ErrChannelGone) && bool_decide (s = AmqpErrClosed))
  | EPublish inner _ _ _ _ | EPayload inner | EWrap _ inner => is_sentinel s inner
  | EForeign _ _ _ (Some inner) => is_sentinel s inner
  | EWraps _ inners | EForeigns _ _ _ inners => existsb (is_sentinel s) inners
  | _ => false
  end.

(** [errors.As]: the first error, depth first, that [pick] accepts. *)
Fixpoint as_error {A : Type} (pick : err -> option A) (e : err) : option A :=
  match pick e with
  | Some x => Some x
  | None =>
      match e with
      | EPublish inner _ _ _ _ | EPayload inner | EWrap _ inner => as_error pick inner
      | EForeign _ _ _ (Some inner) => as_error pick inner
      | EWraps _ inners | EForeigns _ _ _ inners =>
          (fix first (l : list err) : option A :=
             match l with
             | [] => None
             | x :: l' => match as_error pick x with Some r => Some r | None => first l' end
             end) inners
      | _ => None
      end
  end.

Definition pick_handled (e : err) : option (string * string) :=
  match e with EHandled c m => Some (c, m) | _ => None end.
Definition pick_remote (e : err) : option (string * string * string) :=
  match e with ERemote method c m => Some (method, c, m) | _ => None end.
Definition pick_timeout (e : err) : option (string * Z) :=
  match e with EProcessingTimeout cid l => Some (cid, l) | _ => None end.
Definition pick_payload (e : err) : option err :=
  match e with EPayload inner => Some inner | _ => None end.

(** ** Classification *)

Definition sentinelCode (e : err) : option string :=
  match e with
  | ESentinel ErrRPCTimeout => Some CodeRPCTimeout
  | ESentinel ErrNotReady => Some CodeNotReady
  | ESentinel ErrPublishNacked => Some CodePublishNacked
  | ESentinel ErrUnroutable => Some CodeUnroutable
  | ESentinel ErrPublishConfirmTimeout => Some CodePublishConfirmTimeout
  | ESentinel ErrChannelClosed => Some CodeChannelClosed
  | _ => None
  end.

Definition NewHandledError (code message : string) : err :=
  EHandled (if decide (code = "") then CodeHandled else code) message.

Definition newProtocolError (message : string) : err := EHandled CodeProtocol message.

(** [AsHandled] *)
Definition AsHandled (e : err) : option (string * string) := as_error pick_handled e.

(** [asAnswerable]: the code and message to answer the caller with. *)
Definition asAnswerable (e : err) : option (string * string) :=
  match AsHandled e with
  | Some h => Some h
  | None =>
      match as_error pick_remote e with
      | Some (_, code, msg) =>
          if decide (code = "" \/ code = CodeInternal \/ code = CodeProcessingTimeout) then None
          else Some (code, msg)
      | None => None
      end
  end.

(** [PublishError.Ambiguous], on the error a PublishError carries. *)
Definition Ambiguous (inner : err) : bool :=
  is_sentinel ErrPublishConfirmTimeout inner || is_sentinel ErrChannelClosed inner
  || is_sentinel CtxCanceled inner || is_sentinel CtxDeadlineExceeded inner.

(** The code an error's own method reports: [ErrorCode()], else [Code()]. *)
Definition own_code (e : err) : string :=
  match e with
  | EHandled c _ => c
  | ERemote _ c _ => c
  | EPublish inner _ _ _ _ => default "" (sentinelCode inner)
  | EProcessingTimeout _ _ => CodeProcessingTimeout
  | EForeign _ _ (HasErrorCode c) _ | EForeign _ _ (HasCode c) _
  | EForeigns _ _ (HasErrorCode c) _ | EForeigns _ _ (HasCode c) _ => c
  | _ => ""
  end.

(** [ErrorCode]: down the chain; several wrapped errors are tried in order and
    end the search. *)
Fixpoint ErrorCode (e : err) : string :=
  if decide (own_code e <> "") then own_code e
  else match sentinelCode e with
  | Some c => c
  | None =>
      match e with
      | EPublish inner _ _ _ _ | EPayload inner | EWrap _ inner => ErrorCode inner
      | EForeign _ _ _ (Some inner) => ErrorCode inner
      | EWraps _ inners | EForeigns _ _ _ inners =>
          (fix first (l : list err) : string :=
             match l with
             | [] => ""
             | x :: l' => if decide (ErrorCode x <> "") then ErrorCode x else first l'
             end) inners
      | _ => ""
      end
  end.

Definition IsCode (e : err) (code : string) : bool :=
  bool_decide (code <> "") && bool_decide (ErrorCode e = code).

Definition publish_error_name (inner : err) : string :=
  match inner with
  | ESentinel ErrPublishNacked => "PublishNackedError"
  | ESentinel ErrUnroutable => "UnroutableError"
  | ESentinel ErrPublishConfirmTimeout => "PublishConfirmTimeoutError"
  | ESentinel ErrChannelClosed => "ChannelClosedError"
  | _ => "PublishError"
  end.

(** The [named] errors of the package. *)
Definition own_name (e : err) : option string :=
  match e with
  | EHandled _ _ => Some "HandledError"
  | EPublish inner _ _ _ _ => Some (publish_error_name inner)
  | EProcessingTimeout _ _ => Some "TimeoutError"
  | _ => None
  end.

(** The reflect name of the other dynamic types. *)
Definition type_name (e : err) : string :=
  match e with
  | ESentinel CtxDeadlineExceeded => "deadlineExceededError"
  | ESentinel AmqpErrClosed => "Error"
  | ESentinel ErrChannelGone => "wrapError"
  | ESentinel _ => "errorString"
  | EText _ => "errorString"
  | ERemote _ _ _ => "RemoteError"
  | EPayload _ => "payloadError"
  | EWrap _ _ => "wrapError"
  | EWraps _ _ => "wrapErrors"
  | EForeign n _ _ _ | EForeigns n _ _ _ => n
  | EHandled _ _ => "HandledError"
  | EPublish _ _ _ _ _ => "PublishError"
  | EProcessingTimeout _ _ => "processingTimeoutError"
  end.

Definition anonymous_names : list string :=
  [""; "errorString"; "wrapError"; "wrapErrors"; "joinError"].

Definition errorName (e : err) : string :=
  match own_name e with
  | Some n => n
  | None => if decide (type_name e ∈ anonymous_names) then "Error" else type_name e
  end.

(** [innermostNamed]: the first error of the single-unwrap chain that has a
    name of its own. *)
Fixpoint innermostNamed (e : err) : err :=
  match own_name e with
  | Some _ => e
  | None =>
      if decide (errorName e <> "Error") then e
      else match e with
           | EPayload inner | EWrap _ inner => innermostNamed inner
           | EForeign _ _ _ (Some inner) => innermostNamed inner
           | ESentinel ErrChannelGone => ESentinel AmqpErrClosed
           | _ => e
           end
  end.

Definition safeErrorSummary (e : option err) : string :=
  match e with
  | None => "UnknownError"
  | Some e =>
      match AsHandled e with
      | Some (code, msg) => "HandledError[" +:+ code +:+ "]: " +:+ msg
      | None =>
          let name := errorName (innermostNamed e) in
          if decide (ErrorCode e <> "") then name +:+ "[" +:+ ErrorCode e +:+ "]" else name
      end
  end.

Record callerError := { ceCode : string; ceMessage : string }.

Definition sanitizeForCaller (e : err) (expose : bool) : callerError :=
  match asAnswerable e with
  | Some (code, msg) => {| ceCode := code; ceMessage := msg |}
  | None =>
      match as_error pick_timeout e with
      | Some (cid, limit) =>
          {| ceCode := CodeProcessingTimeout; ceMessage := error_text (EProcessingTimeout cid limit) |}
      | None =>
          if negb expose then {| ceCode := CodeInternal; ceMessage := "internal service error" |}
          else {| ceCode := ErrorCode e; ceMessage := error_text e |}
      end
  end.

(** [rpcTimeoutError] *)
Definition rpcTimeoutError (routingKey correlationID : string) (cause : err) : err :=
  EWraps (sentinel_text ErrRPCTimeout +:+ ": no reply for " +:+ routingKey +:+ " (correlationId "
          +:+ correlationID +:+ "): " +:+ error_text cause)
    [ESentinel ErrRPCTimeout; cause].

(** ** Erasing private text

    [erase keep e] blanks the text of every error of the tree except handled
    errors (whose text is meant for others) and, with [keep], the answers of
    downstream services and processing timeouts, which [sanitizeForCaller]
    relays on purpose. Types, codes and the shape of the tree stay. *)
Fixpoint erase (keep : bool) (e : err) : err :=
  match e with
  | ESentinel s => ESentinel s
  | EText _ => EText ""
  | EHandled c m => EHandled c m
  | ERemote method c m => if keep then ERemote method c m else ERemote "" c ""
  | EPublish inner _ _ _ _ => EPublish (erase keep inner) "" "" "" ""
  | EProcessingTimeout cid l => if keep then EProcessingTimeout cid l else EProcessingTimeout "" 0
  | EPayload inner => EPayload (erase keep inner)
  | EWrap _ inner => EWrap "" (erase keep inner)
  | EWraps _ inners => EWraps "" (map (erase keep) inners)
  | EForeign n _ c inner =>
      EForeign n "" c (match inner with Some i => Some (erase keep i) | None => None end)
  | EForeigns n _ c inners => EForeigns n "" c (map (erase keep) inners)
  end.

(** Induction over the tree, with the hypothesis for every wrapped error. *)
Section ErrInd.
Context (Q : err -> Prop).
Context (HSentinel : forall s, Q (ESentinel s)) (HText : forall t, Q (EText t))
  (HHandled : forall c m, Q (EHandled c m)) (HRemote : forall a b c, Q (ERemote a b c))
  (HPublish : forall i a b c d, Q i -> Q (EPublish i a b c d))
  (HTimeout : forall c l, Q (EProcessingTimeout c l))
  (HPayload : forall i, Q i -> Q (EPayload i))
  (HWrap : forall t i, Q i -> Q (EWrap t i))
  (HWraps : forall t l, Forall Q l -> Q (EWraps t l))
  (HForeign0 : forall n t c, Q (EForeign n t c None))
  (HForeign1 : forall n t c i, Q i -> Q (EForeign n t c (Some i)))
  (HForeigns : forall n t c l, Forall Q l -> Q (EForeigns n t c l)).

Fixpoint err_tree_ind (e : err) : Q e :=
  let list_ind := fix go (l : list err) : Forall Q l :=
    match l with
    | [] => Forall_nil_2 Q
    | x :: l' => Forall_cons_2 Q x l' (err_tree_ind x) (go l')
    end in
  match e with
  | ESentinel s => HSentinel s
  | EText t => HText t
  | EHandled c m => HHandled c m
  | ERemote a b c => HRemote a b c
  | EPublish i a b c d => HPublish i a b c d (err_tree_ind i)
  | EProcessingTimeout c l => HTimeout c l
  | EPayload i => HPayload i (err_tree_ind i)
  | EWrap t i => HWrap t i (err_tree_ind i)
  | EWraps t l => HWraps t l (list_ind l)
  | EForeign n t c None => HForeign0 n t c
  | EForeign n t c (Some i) => HForeign1 n t c i (err_tree_ind i)
  | EForeigns n t c l => HForeigns n t c l (list_ind l)
  end.
End ErrInd.

Lemma sentinelCode_erase k e : sentinelCode (erase k e) = sentinelCode e.
Proof. destruct e; try done; simpl; by destruct k. Qed.

Lemma own_code_erase k e : own_code (erase k e) = own_code e.
Proof.
  destruct e as [| | | |inner| | | | | |]; try done; simpl; try by destruct k.
  by rewrite sentinelCode_erase.
Qed.

Lemma publish_error_name_erase k e : publish_error_name (erase k e) = publish_error_name e.
Proof. destruct e; try done; simpl; by destruct k. Qed.

Lemma own_name_erase k e : own_name (erase k e) = own_name e.
Proof.
  destruct e; try done; simpl; try by destruct k. by rewrite publish_error_name_erase.
Qed.

Lemma type_name_erase k e : type_name (erase k e) = type_name e.
Proof. destruct e; try done; simpl; by destruct k. Qed.

Lemma errorName_erase k e : errorName (erase k e) = errorName e.
Proof. unfold errorName. by rewrite own_name_erase, type_name_erase. Qed.

Lemma as_error_erase {A} (pick : err -> option A) k e :
  (forall x, pick (erase k x) = pick x) -> as_error pick (erase k e) = as_error pick e.
Proof.
  intros Hp.
  assert (forall e', as_error pick e' = match pick e' with Some x => Some x | None =>
      match e' with
      | EPublish inner _ _ _ _ | EPayload inner | EWrap _ inner => as_error pick inner
      | EForeign _ _ _ (Some inner) => as_error pick inner
      | EWraps _ inners | EForeigns _ _ _ inners =>
          head (omap (as_error pick) inners)
      | _ => None
      end end) as Hunf.
  { intros [| | | | | | | |t l| |n t c l]; try done; simpl; destruct (pick _); try done;
      (induction l as [|x l IH]; [done|]; simpl; destruct (as_error pick x); [done|apply IH]). }
  assert (forall l, Forall (fun x => as_error pick (erase k x) = as_error pick x) l ->
      omap (as_error pick) (map (erase k) l) = omap (as_error pick) l) as Hl.
  { induction 1 as [|x l Hx _ IH]; [done|]. cbn [map omap list_omap]. by rewrite Hx, IH. }
  induction e using err_tree_ind;
    match goal with |- as_error pick (erase k ?x) = _ =>
      rewrite (Hunf (erase k x)), (Hunf x), Hp; destruct (pick x); [done|] end;
    cbn [erase]; try done; try (by destruct k); by rewrite Hl.
Qed.

(** [ErrorCode] one level down. *)
Lemma ErrorCode_unfold e :
  ErrorCode e =
  if decide (own_code e <> "") then own_code e
  else match sentinelCode e with
  | Some c => c
  | None =>
      match e with
      | EPublish inner _ _ _ _ | EPayload inner | EWrap _ inner => ErrorCode inner
      | EForeign _ _ _ (Some inner) => ErrorCode inner
      | EWraps _ inners | EForeigns _ _ _ inners =>
          default "" (head (List.filter (fun c => bool_decide (c <> "")) (map ErrorCode inners)))
      | _ => ""
      end
  end.
Proof.
  assert (forall l, (fix first (l : list err) : string :=
             match l with
             | [] => ""
             | x :: l' => if decide (ErrorCode x <> "") then ErrorCode x else first l'
             end) l = default "" (head (List.filter (fun c => bool_decide (c <> "")) (map ErrorCode l)))) as Hf.
  { induction l as [|x l IH]; [done|]. cbn [map List.filter]. rewrite IH.
    destruct (decide (ErrorCode x = "")) as [Hx|Hx].
    - by rewrite Hx.
    - by rewrite decide_True, bool_decide_true. }
  destruct e; cbn [ErrorCode]; rewrite ?Hf; done.
Qed.

Lemma ErrorCode_erase k e : ErrorCode (erase k e) = ErrorCode e.
Proof.
  assert (forall l, Forall (fun x => ErrorCode (erase k x) = ErrorCode x) l ->
      map ErrorCode (map (erase k) l) = map ErrorCode l) as Hl.
  { induction 1 as [|x l Hx _ IH]; [done|]. cbn [map]. by rewrite Hx, IH. }
  induction e using err_tree_ind;
    match goal with |- ErrorCode (erase k ?x) = _ =>
      rewrite (ErrorCode_unfold (erase k x)), (ErrorCode_unfold x), own_code_erase, sentinelCode_erase end;
    (case_decide; [done|]); (destruct (sentinelCode _); [done|]);
    cbn [erase]; try done; try (by destruct k); by rewrite Hl.
Qed.

Lemma innermostNamed_erase k e : innermostNamed (erase k e) = erase k (innermostNamed e).
Proof.
  assert (forall e', innermostNamed e' = match own_name e' with Some _ => e' | None =>
      if decide (errorName e' <> "Error") then e'
      else match e' with
           | EPayload inner | EWrap _ inner => innermostNamed inner
           | EForeign _ _ _ (Some inner) => innermostNamed inner
           | ESentinel ErrChannelGone => ESentinel AmqpErrClosed
           | _ => e'
           end end) as Hunf by (intros []; done).
  induction e using err_tree_ind;
    match goal with |- innermostNamed (erase k ?x) = _ =>
      rewrite (Hunf (erase k x)), (Hunf x), own_name_erase, errorName_erase;
      destruct (own_name x); [done|] end;
    (case_decide; [done|]); cbn [erase]; try done; try (by destruct k).
  by destruct s.
Qed.

Lemma AsHandled_erase k e : AsHandled (erase k e) = AsHandled e.
Proof. apply as_error_erase. intros []; try done; by destruct k. Qed.

(** ** Properties *)

(** C8: texts meant for nobody stay private. The summary of an error that
    travels in headers and logs depends only on error types, codes and handled
    errors: erasing every other text (of unhandled errors, of remote answers, of
    wrappers) leaves it unchanged, so it cannot leak the data such a text
    quotes. With exposure off, what a caller is told does not depend on the text
    of unhandled errors: only handled errors, relayed remote answers and the
    framework's own timeout text reach it. *)
Theorem errors_private (e : err) :
  safeErrorSummary (Some (erase false e)) = safeErrorSummary (Some e) /\
  sanitizeForCaller (erase true e) false = sanitizeForCaller e false.
Proof.
  split.
  - unfold safeErrorSummary.
    by rewrite AsHandled_erase, innermostNamed_erase, errorName_erase, ErrorCode_erase.
  - unfold sanitizeForCaller, asAnswerable.
    rewrite AsHandled_erase, !(as_error_erase _ true) by (by intros []). done.
Qed.

(** Which failures are answers: an error is answerable exactly when it wraps a
    handled error, or wraps a remote error whose code is none of empty,
    INTERNAL_ERROR and PROCESSING_TIMEOUT; the caller is then told that code and
    message, whatever the exposure setting. *)
Lemma asAnswerable_classifies (e : err) (expose : bool) :
  match asAnswerable e with
  | Some (code, msg) =>
      (AsHandled e = Some (code, msg) \/
       exists method, AsHandled e = None /\ as_error pick_remote e = Some (method, code, msg) /\
         code <> "" /\ code <> CodeInternal /\ code <> CodeProcessingTimeout) /\
      sanitizeForCaller e expose = {| ceCode := code; ceMessage := msg |}
  | None =>
      AsHandled e = None /\
      forall method code msg, as_error pick_remote e = Some (method, code, msg) ->
        code = "" \/ code = CodeInternal \/ code = CodeProcessingTimeout
  end.
Proof.
  unfold sanitizeForCaller, asAnswerable.
  destruct (AsHandled e) as [[c m]|]; [by split; [left|]|].
  destruct (as_error pick_remote e) as [[[me c] m]|]; [|split; [done|]; intros; done].
  case_decide as Hc.
  - split; [done|]. by intros ? ? ? [= <- <- <-].
  - split; [|done]. right. exists me. naive_solver.
Qed.
