(* ===== verification/Stream.v ===== *)
(** * Stream: server-streaming replies, both ends

    [ServerStream] is the producer's side (serverStream of stream.go): frames
    numbered from 0, the last marked final, each held until the next arrives.
    [ClientStream] is the caller's buffer (clientStream of dispatcher.go): it
    accepts the frames the reply queue delivers, in whatever order and however
    often, bounds what it holds and yields the chunks.

    Each operation runs under the stream's mutex and is one atomic step on the
    stream. The process-wide allowance [bufferedBytes] is an atomic counter
    threaded through the client operations; [Buffers] lets other streams see it
    in the middle of one. *)
From S2P Require Import Prelude GoStrings Wire Headers Errors.

Local Open Scope Z_scope.

(** A reply frame as published: the body and its two protocol headers. *)
Record frame := Frame { fbody : bytes; fseq : Z; ffinal : bool }.

Definition frame_headers (f : frame) : Table :=
  <[headerFinal := VBool (ffinal f)]> (<[headerSeq := intHeader (fseq f)]> ∅).

(** ** The producer *)

Module ServerStream.

(** What the calls of a stream see of the outside: whether the handler's
    context has ended ([ctx.Err() != nil]) and its cause, the request's ReplyTo,
    and the broker's answer to the [n]-th publish attempt. *)
Record env := {
  ctxErr : bool;
  ctxCause : option err;
  replyTo : string;
  publishReply : nat -> frame -> option err
}.

Record serverStream := {
  method : string;
  ss_seq : Z;
  pending : option bytes;
  ss_err : option err;
  done_ : bool;
  (* what was published, and how many publishes were attempted *)
  sent : list frame;
  attempts : nat
}.

Definition newStream (m : string) : serverStream :=
  {| method := m; ss_seq := 0; pending := None; ss_err := None; done_ := false; sent := []; attempts := 0 |}.

Definition cancelled (E : env) : bool :=
  match ctxCause E with Some c => is_sentinel ErrCancelled c | None => false end.

(** [publish]: the sequence number advances when the broker took the frame, or
    when nobody asked for it. *)
Definition publish (E : env) (s : serverStream) (body : bytes) (final : bool)
    : serverStream * option err :=
  if decide (replyTo E = "") then
    ({| method := method s; ss_seq := int64_wrap (ss_seq s + 1); pending := pending s;
        ss_err := ss_err s; done_ := done_ s; sent := sent s; attempts := attempts s |}, None)
  else if cancelled E then
    (s, Some (EWrap ("protobus: stream ended: " +:+ sentinel_text ErrCancelled) (ESentinel ErrCancelled)))
  else
    let f := Frame body (ss_seq s) final in
    match publishReply E (attempts s) f with
    | None =>
        ({| method := method s; ss_seq := int64_wrap (ss_seq s + 1); pending := pending s;
            ss_err := ss_err s; done_ := done_ s; sent := sent s ++ [f]; attempts := S (attempts s) |}, None)
    | Some e =>
        ({| method := method s; ss_seq := ss_seq s; pending := pending s;
            ss_err := ss_err s; done_ := done_ s; sent := sent s; attempts := S (attempts s) |}, Some e)
    end.

Definition set_err (s : serverStream) (e : option err) : serverStream :=
  {| method := method s; ss_seq := ss_seq s; pending := pending s; ss_err := e; done_ := done_ s;
     sent := sent s; attempts := attempts s |}.
Definition set_pending (s : serverStream) (b : bytes) : serverStream :=
  {| method := method s; ss_seq := ss_seq s; pending := Some b; ss_err := ss_err s; done_ := done_ s;
     sent := sent s; attempts := attempts s |}.
Definition set_done (s : serverStream) : serverStream :=
  {| method := method s; ss_seq := ss_seq s; pending := pending s; ss_err := ss_err s; done_ := true;
     sent := sent s; attempts := attempts s |}.

Section Send.
Context {P : Protowire}.

Definition result_body (m : string) (data : bytes) : bytes :=
  fst (AppendResponse [] {| ResponseResult := Some {| ResMethod := m; ResData := data |};
                            ResponseError := None |}).

Definition error_body (m : string) (ce : callerError) : bytes :=
  fst (AppendResponse [] {| ResponseResult := None;
                            ResponseError := Some {| ErrMethod := m; ErrMessage := ceMessage ce;
                                                     ErrCode := ceCode ce |} |}).

(** [SendMsg]: [marshalled] is the result of encoding the message. *)
Definition SendMsg (E : env) (s : serverStream) (marshalled : bytes + err)
    : serverStream * option err :=
  if ctxErr E then
    let cause := default (ESentinel CtxCanceled) (ctxCause E) in
    (s, Some (EWrap ("protobus: stream ended: " +:+ error_text cause) cause))
  else match marshalled with
  | inr e => (s, Some (EWrap ("protobus: encoding a stream response of " +:+ method s +:+ ": " +:+ error_text e) e))
  | inl data =>
      let body := result_body (method s) data in
      if done_ s then (s, Some (ESentinel ErrStreamFinished))
      else match ss_err s with
      | Some e => (s, Some e)
      | None =>
          match pending s with
          | Some p =>
              match publish E s p false with
              | (s', Some e) => (set_err s' (Some e), Some e)
              | (s', None) => (set_pending s' body, None)
              end
          | None => (set_pending s body, None)
          end
      end
  end.

(** [serviceErrorBody] *)
Definition serviceErrorBody (s : serverStream) (expose : bool) (e : err) : bytes :=
  error_body (method s) (sanitizeForCaller e expose).

Definition finish (E : env) (expose : bool) (s : serverStream) (handlerErr : option err)
    : serverStream * option err :=
  let s := set_done s in
  if cancelled E then (s, None)
  else match ss_err s with
  | Some e => (s, Some e)
  | None =>
      match handlerErr with
      | None => publish E s (default [] (pending s)) true
      | Some he =>
          let '(s, perr) :=
            match pending s with
            | Some p => publish E s p false
            | None => (s, None)
            end in
          match perr with
          | Some e => (s, Some e)
          | None => publish E s (serviceErrorBody s expose he) true
          end
      end
  end.

End Send.
End ServerStream.

(** ** The caller's buffer *)

Module ClientStream.
Section Client.
Context {A : GoArch}.

Record limits := { lchunks : Z; lbytes : Z; ltotal : Z }.

Record clientStream := {
  id : string;
  lim : limits;
  chunks : list bytes;
  cbytes : Z;
  lastSeq : Z;
  ended : bool;
  cerr : option err;
  notify : bool
}.

Definition newStream (id : string) (l : limits) : clientStream :=
  {| id := id; lim := l; chunks := []; cbytes := 0; lastSeq := -1; ended := false; cerr := None;
     notify := false |}.

(** [wake]: the notification channel has room for one signal. *)
Definition wake (s : clientStream) : clientStream :=
  {| id := id s; lim := lim s; chunks := chunks s; cbytes := cbytes s; lastSeq := lastSeq s;
     ended := ended s; cerr := cerr s; notify := true |}.

(** [dropBufferLocked]: the buffered bytes go back to the allowance. *)
Definition dropBuffer (s : clientStream) (total : Z) : clientStream * Z :=
  ({| id := id s; lim := lim s; chunks := []; cbytes := 0; lastSeq := lastSeq s;
      ended := ended s; cerr := cerr s; notify := notify s |}, int64_wrap (total - cbytes s)).

Definition set_end (s : clientStream) (b : bool) (e : option err) : clientStream :=
  {| id := id s; lim := lim s; chunks := chunks s; cbytes := cbytes s; lastSeq := lastSeq s;
     ended := b; cerr := e; notify := notify s |}.

Definition set_seq (s : clientStream) (n : Z) : clientStream :=
  {| id := id s; lim := lim s; chunks := chunks s; cbytes := cbytes s; lastSeq := n;
     ended := ended s; cerr := cerr s; notify := notify s |}.

Definition set_chunks (s : clientStream) (c : list bytes) (n : Z) : clientStream :=
  {| id := id s; lim := lim s; chunks := c; cbytes := n; lastSeq := lastSeq s;
     ended := ended s; cerr := cerr s; notify := notify s |}.

Definition sequence_error (s : clientStream) (seq expected : Z) : err :=
  EWrap (sentinel_text ErrStreamSequence +:+ ": got seq " +:+ pretty seq +:+ ", expected "
         +:+ pretty expected +:+ " (stream " +:+ id s +:+ ")") (ESentinel ErrStreamSequence).

Definition backpressure_error (s : clientStream) (n total : Z) : err :=
  EWrap (sentinel_text ErrStreamBackpressure +:+ ": " +:+ pretty (len (chunks s) + 1) +:+ " chunks / "
         +:+ pretty (cbytes s + n) +:+ " bytes buffered for this call, " +:+ pretty total
         +:+ " across all calls (limits " +:+ pretty (lchunks (lim s)) +:+ " / " +:+ pretty (lbytes (lim s))
         +:+ " / " +:+ pretty (ltotal (lim s)) +:+ "); the caller is not keeping up with the producer")
    (ESentinel ErrStreamBackpressure).

(** The second half of [push]: buffer the body, if the limits allow, and note
    the final frame. *)
Definition push_body (s : clientStream) (total : Z) (body : bytes) (final : bool) : clientStream * Z :=
  let n := len body in
  let fin (s : clientStream) := if final then set_end s true (cerr s) else s in
  if 0 <? n then
    let total' := int64_wrap (total + n) in
    if (lchunks (lim s) <? len (chunks s) + 1) || (lbytes (lim s) <? int64_wrap (cbytes s + n))
       || (ltotal (lim s) <? total')
    then dropBuffer (set_end s true (Some (backpressure_error s n total'))) (int64_wrap (total' - n))
    else (fin (set_chunks s (chunks s ++ [body]) (int64_wrap (cbytes s + n))), total')
  else (fin s, total).

Definition push (s : clientStream) (total : Z) (headers : Table) (body : bytes) : clientStream * Z :=
  let final := streamFinal headers in
  let '(s', total') :=
    if ended s then (s, total)
    else match streamSeq headers with
    | Some seq =>
        let expected := int64_wrap (lastSeq s + 1) in
        if seq <? expected then (set_end s (ended s || final) (cerr s), total)
        else if expected <? seq then
          dropBuffer (set_end s true (Some (sequence_error s seq expected))) total
        else push_body (set_seq s seq) total body final
    | None => push_body s total body final
    end in
  (wake s', total').

Definition fail (s : clientStream) (total : Z) (e : err) : clientStream * Z :=
  let '(s', total') :=
    if ended s then (s, total) else dropBuffer (set_end s true (Some e)) total in
  (wake s', total').

(** [next]: the chunk, if one is buffered, or whether the stream is over and
    its terminal error. *)
Definition next (s : clientStream) (total : Z) : clientStream * Z * (option bytes * bool * option err) :=
  match cerr s with
  | Some e => (s, total, (None, true, Some e))
  | None =>
      match chunks s with
      | c :: cs =>
          (set_chunks s cs (int64_wrap (cbytes s - len c)), int64_wrap (total - len c), (Some c, false, None))
      | [] => (s, total, (None, ended s, None))
      end
  end.

Definition finished (s : clientStream) : bool :=
  ended s && match cerr s with None => true | Some _ => false end.

(** [release], on the stream itself (the dispatcher forgets it too). *)
Definition release (s : clientStream) (total : Z) : clientStream * Z :=
  let e := match cerr s with Some e => Some e | None => Some (ESentinel ErrStreamReleased) end in
  dropBuffer (set_end s true e) total.

End Client.
End ClientStream.

(** ** Reading a published frame's headers *)

Lemma streamFinal_frame {A : GoArch} f : streamFinal (frame_headers f) = ffinal f.
Proof. unfold streamFinal, hget, frame_headers. by rewrite lookup_insert_eq. Qed.

Lemma streamSeq_frame {A : GoArch} f : 0 <= fseq f -> streamSeq (frame_headers f) = Some (fseq f).
Proof.
  intros Hf. unfold streamSeq, frame_headers.
  rewrite lookup_insert_ne by done. rewrite lookup_insert_eq, headerInt_intHeader.
  destruct (Z.ltb_spec (fseq f) 0); [lia|done].
Qed.

(** ** Integrity of a stream

    The producer's frames: one per body, numbered from 0, the last one final.
    An empty body carries no chunk (it only marks the end). *)
Definition frames_of (bodies : list bytes) : list frame :=
  imap (fun i b => Frame b (Z.of_nat i) (bool_decide (S i = length bodies))) bodies.

Definition nonempty (b : bytes) : bool := match b with [] => false | _ => true end.
Definition chunks_of (bodies : list bytes) : list bytes := List.filter nonempty bodies.

Lemma chunks_of_app l k : chunks_of (l ++ k) = chunks_of l ++ chunks_of k.
Proof. apply List.filter_app. Qed.

Lemma frames_of_spec bodies f :
  f ∈ frames_of bodies ->
  exists i b, bodies !! i = Some b /\ fbody f = b /\ fseq f = Z.of_nat i /\
    ffinal f = bool_decide (S i = length bodies).
Proof.
  intros [i Hi]%list_elem_of_lookup. unfold frames_of in Hi.
  rewrite list_lookup_imap in Hi. destruct (bodies !! i) as [b|] eqn:E; [|done].
  simpl in Hi. simplify_eq. by exists i, b.
Qed.

Module StreamRun.
Import ClientStream.

Section Run.
Context {A : GoArch} (bodies : list bytes).

(** A caller and its buffer: the stream, the process-wide counter and the
    chunks yielded so far. *)
Definition state : Type := clientStream * Z * list bytes.

(** What can happen to a stream: the reply queue delivers any of the producer's
    frames (late, again or never), the caller asks for the next chunk, the
    connection fails it, the caller releases it, and other streams move the
    shared counter. *)
Inductive step : state -> state -> Prop :=
| step_push s t y f :
    f ∈ frames_of bodies ->
    step (s, t, y) (push s t (frame_headers f) (fbody f), y)
| step_next s t y s' t' c d e :
    next s t = (s', t', (c, d, e)) ->
    step (s, t, y) (s', t', y ++ option_list c)
| step_fail s t y e : step (s, t, y) (fail s t e, y)
| step_release s t y : step (s, t, y) (release s t, y)
| step_others s t y t' : step (s, t, y) (s, t', y).

(** While the stream has not failed, it holds the chunks of the first [k]
    frames not yet yielded, and a stream that has ended has seen them all. *)
Definition intact (s : clientStream) (y : list bytes) : Prop :=
  exists k, (k <= length bodies)%nat /\ lastSeq s = Z.of_nat k - 1 /\
    y ++ chunks s = chunks_of (take k bodies) /\
    (ended s = true -> k = length bodies).

Definition inv (st : state) : Prop :=
  let '(s, _, y) := st in
  y `prefix_of` chunks_of bodies /\ (ended s = false -> cerr s = None) /\ (cerr s = None -> intact s y).

Lemma chunks_take_prefix k : chunks_of (take k bodies) `prefix_of` chunks_of bodies.
Proof.
  exists (chunks_of (drop k bodies)). by rewrite <-chunks_of_app, take_drop.
Qed.

Lemma intact_prefix s y : intact s y -> y `prefix_of` chunks_of bodies.
Proof.
  intros (k & _ & _ & E & _). etrans; [|apply chunks_take_prefix]. rewrite <-E.
  by apply prefix_app_r.
Qed.

Lemma inv_step_next s t y s' t' c d e :
  next s t = (s', t', (c, d, e)) -> inv (s, t, y) -> inv (s', t', y ++ option_list c).
Proof.
  unfold next, inv. intros Hn (Hp & Hend & Hi).
  destruct (cerr s) as [e'|] eqn:Ee.
  { simplify_eq. simpl. rewrite app_nil_r, Ee. done. }
  specialize (Hi eq_refl).
  destruct (chunks s) as [|c' cs] eqn:Ec; simplify_eq; simpl.
  { rewrite app_nil_r. done. }
  destruct Hi as (k & Hk & Hl & Hy & He). rewrite Ec in Hy.
  assert (intact (set_chunks s cs (int64_wrap (cbytes s - len c'))) (y ++ [c'])) as Hi'.
  { exists k. simpl. by rewrite <-app_assoc. }
  split; [by eapply intact_prefix | done].
Qed.

Lemma intact_push_body s t y i b :
  bodies !! i = Some b -> ended s = false -> cerr s = None ->
  y ++ chunks s = chunks_of (take i bodies) -> lastSeq s = Z.of_nat i ->
  let '(s', _) := push_body s t b (bool_decide (S i = length bodies)) in
  cerr s' = None -> intact s' y.
Proof.
  intros Hb He Hc Hy Hl. unfold push_body.
  pose proof (lookup_lt_Some _ _ _ Hb) as Hlt.
  assert (take (S i) bodies = take i bodies ++ [b]) as Ht by (by apply take_S_r).
  assert (forall s', lastSeq s' = Z.of_nat i -> ended s' = false -> cerr s' = None ->
      y ++ chunks s' = chunks_of (take (S i) bodies) ->
      cerr (if bool_decide (S i = length bodies) then set_end s' true (cerr s') else s') = None ->
      intact (if bool_decide (S i = length bodies) then set_end s' true (cerr s') else s') y) as Hfin.
  { intros s' Hl' He' Hc' Hy' _. exists (S i).
    case_bool_decide; simpl; (split; [lia|]; split; [lia|]; split; [done|]); [done|]. by rewrite He'. }
  assert (len b = 0 \/ 0 < len b) as [H0|H0] by (pose proof (len_nonneg b); lia).
  - apply len_nil_iff in H0 as ->. simpl. apply Hfin; try done.
    rewrite Ht, chunks_of_app. simpl. by rewrite app_nil_r.
  - destruct (Z.ltb_spec 0 (len b)); [|lia]. destruct (_ || _); [done|].
    apply Hfin; try done. simpl. rewrite Ht, chunks_of_app, app_assoc, Hy.
    by destruct b.
Qed.

Lemma push_body_end s t b f :
  cerr s = None -> ended (fst (push_body s t b f)) = false -> cerr (fst (push_body s t b f)) = None.
Proof. unfold push_body. intros Hc. by repeat case_match. Qed.

Lemma inv_step_push s t y f :
  Z.of_nat (length bodies) <= MaxInt64 ->
  f ∈ frames_of bodies -> inv (s, t, y) -> inv (push s t (frame_headers f) (fbody f), y).
Proof.
  intros Hn (i & b & Hb & Hfb & Hfs & Hff)%frames_of_spec (Hp & Hend & Hi).
  unfold push. rewrite streamFinal_frame, streamSeq_frame by lia. rewrite Hfb, Hfs, Hff.
  destruct (ended s) eqn:He; [split_and!; simpl; [done|congruence|done]|].
  pose proof (lookup_lt_Some _ _ _ Hb) as Hlt.
  pose proof (Hend eq_refl) as Ec. specialize (Hi Ec).
  destruct Hi as (k & Hk & Hl & Hy & _). rewrite Hl.
  rewrite int64_wrap_small by (unfold MinInt64, MaxInt64 in *; lia).
  replace (Z.of_nat k - 1 + 1) with (Z.of_nat k) by lia.
  destruct (Z.ltb_spec (Z.of_nat i) (Z.of_nat k)); [|destruct (Z.ltb_spec (Z.of_nat k) (Z.of_nat i))].
  - split_and!; [done|simpl; by destruct (bool_decide _)|]. intros _. exists k. simpl.
    repeat (split; [done|]). intros Hf%bool_decide_eq_true. lia.
  - done.
  - assert (i = k) as -> by lia.
    pose proof (intact_push_body (set_seq s (Z.of_nat k)) t y k b Hb He Ec Hy eq_refl) as Hpb.
    pose proof (push_body_end (set_seq s (Z.of_nat k)) t b (bool_decide (S k = length bodies)) Ec) as Hpe.
    destruct (push_body _ _ _ _) as [s' t']. done.
Qed.

Lemma run_inv_step st st' :
  Z.of_nat (length bodies) <= MaxInt64 -> step st st' -> inv st -> inv st'.
Proof.
  intros Hn [s t y f Hf|s t y s' t' c d e Hx|s t y e|s t y|s t y t'] HI.
  - by apply inv_step_push.
  - by eapply inv_step_next.
  - unfold fail, inv in *. destruct HI as (Hp & He & Hi). destruct (ended s) eqn:E; [|done].
    split_and!; simpl; [done|congruence|done].
  - unfold release, inv in *. destruct HI as [Hp _]. split; [done|]. simpl. by destruct (cerr s).
  - done.
Qed.

Lemma inv_initial i l t : inv (newStream i l, t, []).
Proof.
  split; [apply prefix_nil|]. split; [done|]. intros _. exists 0%nat. simpl. split; [lia|]. done.
Qed.

Lemma run_inv_reachable i l t st :
  Z.of_nat (length bodies) <= MaxInt64 -> rtc step (newStream i l, t, []) st -> inv st.
Proof.
  intros Hn. apply rtc_invariant; [|apply inv_initial]. intros ? ? ?. by apply run_inv_step.
Qed.

Lemma run_integrity (i : string) (l : limits) (t0 : Z) (s : clientStream) (t : Z) (y : list bytes) :
  Z.of_nat (length bodies) <= MaxInt64 ->
  rtc step (newStream i l, t0, []) (s, t, y) ->
  y `prefix_of` chunks_of bodies /\
  (snd (next s t) = (None, true, None) -> y = chunks_of bodies).
Proof.
  intros Hn H. apply run_inv_reachable in H as (Hp & _ & Hi); [|done]. split; [done|].
  unfold next. destruct (cerr s); [done|]. destruct (chunks s) as [|c cs] eqn:Ec; [|done].
  intros [= He]. destruct (Hi eq_refl) as (k & _ & _ & Hy & Hk).
  rewrite Ec, app_nil_r in Hy. by rewrite Hy, (Hk He), firstn_all.
Qed.

(** A streaming caller never gets a short stream that looks complete.
    However the reply queue reorders, repeats or loses the producer's frames,
    and whatever else happens meanwhile, the chunks yielded are a prefix of the
    producer's chunks in order, and when the stream reports its clean end they
    are all of them. *)
Lemma stream_integrity (i : string) (l : limits) (t0 : Z) (s : clientStream) (t : Z) (y : list bytes) :
  Z.of_nat (length bodies) <= MaxInt64 ->
  rtc step (newStream i l, t0, []) (s, t, y) ->
  y `prefix_of` chunks_of bodies /\
  (snd (next s t) = (None, true, None) -> y = chunks_of bodies).
Proof. apply run_integrity. Qed.

End Run.
End StreamRun.

(** A stream of three frames delivered with a repetition and read to its end. *)
Lemma stream_integrity_witness :
  [[x01]; [x02]] `prefix_of` chunks_of [[x01]; [x02]; []] /\
  (snd (ClientStream.next
     {| ClientStream.id := "s"; ClientStream.lim := ClientStream.Build_limits 4 100 100;
        ClientStream.chunks := []; ClientStream.cbytes := 0; ClientStream.lastSeq := 2;
        ClientStream.ended := true; ClientStream.cerr := None; ClientStream.notify := true |} 0)
   = (None, true, None) -> [[x01]; [x02]] = chunks_of [[x01]; [x02]; []]).
Proof.
  apply (StreamRun.stream_integrity (A := amd64) [[x01]; [x02]; []] "s" (ClientStream.Build_limits 4 100 100) 0);
    [done|].
  assert (forall i f, frames_of [[x01]; [x02]; []] !! i = Some f -> f ∈ frames_of [[x01]; [x02]; []]) as Hin
    by (intros i f; apply list_elem_of_lookup_2).
  eapply rtc_l; [apply (StreamRun.step_push _ _ _ _ (Frame [x01] 0 false)), (Hin 0%nat); reflexivity|].
  eapply rtc_l; [apply (StreamRun.step_push _ _ _ _ (Frame [x02] 1 false)), (Hin 1%nat); reflexivity|].
  eapply rtc_l; [apply (StreamRun.step_push _ _ _ _ (Frame [x01] 0 false)), (Hin 0%nat); reflexivity|].
  eapply rtc_l; [eapply StreamRun.step_next; reflexivity|].
  eapply rtc_l; [eapply StreamRun.step_next; reflexivity|].
  eapply rtc_l; [apply (StreamRun.step_push _ _ _ _ (Frame [] 2 true)), (Hin 2%nat); reflexivity|].
  apply rtc_refl.
Defined.

(** ** The producer's frames *)

Module Producer.
Import ServerStream.
Section Producer.
Context {P : Protowire}.

(** A handler's use of its stream: any number of sends, each under the context
    and broker of that moment, and one finish when the handler returns (it may
    still send afterwards, from a goroutine it left behind). *)
Inductive step (replyTo_ : string) (expose : bool) : serverStream -> serverStream -> Prop :=
| step_send E s m : replyTo E = replyTo_ -> step replyTo_ expose s (fst (SendMsg E s m))
| step_finish E s he : replyTo E = replyTo_ -> done_ s = false ->
    step replyTo_ expose s (fst (finish E expose s he)).

Definition numbered (l : list frame) : Prop :=
  forall i f, l !! i = Some f -> fseq f = Z.of_nat i.

(** A final frame is the last one, and comes only from [finish]. *)
Definition inv (s : serverStream) : Prop :=
  numbered (sent s) /\
  ss_seq s = Z.of_nat (length (sent s)) /\
  (forall i f, sent s !! i = Some f -> ffinal f = true -> S i = length (sent s) /\ done_ s = true) /\
  (done_ s = false -> forall f, f ∈ sent s -> ffinal f = false).

Definition open_ (s : serverStream) : Prop :=
  numbered (sent s) /\ ss_seq s = Z.of_nat (length (sent s)) /\ forall f, f ∈ sent s -> ffinal f = false.

Lemma inv_open s : inv s -> done_ s = false -> open_ s.
Proof. intros (Hn & Hq & _ & Hd) H. split_and!; auto. Qed.

Lemma open_inv s : open_ s -> inv s.
Proof.
  intros (Hn & Hq & Hf). split_and!; [done|done| |done].
  intros i f Hi Ht. apply list_elem_of_lookup_2, Hf in Hi. congruence.
Qed.

Lemma numbered_snoc l f : numbered l -> fseq f = Z.of_nat (length l) -> numbered (l ++ [f]).
Proof.
  intros Hl Hf i g [Hi|[? Hi]]%lookup_app_Some; [by apply Hl|].
  apply list_lookup_singleton_Some in Hi as [? <-]. rewrite Hf. f_equal. lia.
Qed.

(** What one publish does to the frames sent. *)
Lemma publish_sent E s body final :
  replyTo E <> "" -> Z.of_nat (length (sent s)) < MaxInt64 -> open_ s ->
  let '(s', e) := publish E s body final in
  done_ s' = done_ s /\
  (e = None -> sent s' = sent s ++ [Frame body (ss_seq s) final] /\ ss_seq s' = ss_seq s + 1) /\
  (e <> None -> sent s' = sent s /\ ss_seq s' = ss_seq s).
Proof.
  intros Hr Hlen (Hn & Hq & Hf). unfold publish.
  rewrite decide_False by done. destruct (cancelled E); [done|].
  destruct (publishReply E (attempts s) _); simpl; [done|].
  rewrite int64_wrap_small; [done|]. unfold MinInt64, MaxInt64 in *. lia.
Qed.

Lemma publish_open E s body :
  replyTo E <> "" -> Z.of_nat (length (sent s)) < MaxInt64 -> open_ s -> open_ (fst (publish E s body false)).
Proof.
  intros Hr Hlen Ho. pose proof (publish_sent E s body false Hr Hlen Ho) as H.
  destruct Ho as (Hn & Hq & Hf), (publish E s body false) as [s' [e|]]; simpl.
  { destruct H as (_ & _ & [Hs Hs']); [done|]. unfold open_. by rewrite Hs, Hs'. }
  destruct H as (_ & [Hs Hs'] & _); [done|]. unfold open_. rewrite Hs, Hs', Hq, length_app. simpl.
  split_and!; [by apply numbered_snoc; [|simpl; lia]|lia|].
  intros f [?|Hx]%elem_of_app; [by apply Hf|]. by apply list_elem_of_singleton in Hx as ->.
Qed.

Lemma publish_inv E s body final :
  replyTo E <> "" -> Z.of_nat (length (sent s)) < MaxInt64 -> open_ s -> done_ s = true ->
  inv (fst (publish E s body final)).
Proof.
  intros Hr Hlen Ho Hd. pose proof (publish_sent E s body final Hr Hlen Ho) as H.
  destruct Ho as (Hn & Hq & Hf), (publish E s body final) as [s' [e|]]; simpl.
  { destruct H as (Hd' & _ & [Hs Hs']); [done|]. apply open_inv. unfold open_. by rewrite Hs, Hs'. }
  destruct H as (Hd' & [Hs Hs'] & _); [done|]. unfold inv. rewrite Hs, Hs', Hd', Hd, Hq, length_app. simpl.
  split_and!; [by apply numbered_snoc; [|simpl; lia]|lia| |done].
  intros i f [Hi|[? Hi]]%lookup_app_Some Ht.
  - apply list_elem_of_lookup_2, Hf in Hi. congruence.
  - apply list_lookup_singleton_Some in Hi as [? _]. split; [lia|done].
Qed.

Lemma SendMsg_inv E s m :
  replyTo E <> "" -> Z.of_nat (length (sent s)) < MaxInt64 -> inv s -> inv (fst (SendMsg E s m)).
Proof.
  intros Hr Hlen Hi. unfold SendMsg. destruct (ctxErr E); [done|]. destruct m as [data|e]; [|done].
  destruct (done_ s) eqn:Hd; [done|]. destruct (ss_err s); [done|]. destruct (pending s) as [p|]; [|done].
  pose proof (publish_open E s p Hr Hlen (inv_open _ Hi Hd)) as Ho.
  destruct (publish E s p false) as [s' [e|]]; apply open_inv, Ho.
Qed.

Lemma finish_inv E expose s he :
  replyTo E <> "" -> Z.of_nat (length (sent s)) + 1 < MaxInt64 -> inv s -> done_ s = false ->
  inv (fst (finish E expose s he)).
Proof.
  intros Hr Hlen Hi Hd. pose proof (inv_open _ Hi Hd) as Ho.
  assert (open_ (set_done s)) as Ho' by exact Ho.
  unfold finish. destruct (cancelled E); [by apply open_inv|]. simpl.
  destruct (ss_err s); [by apply open_inv|].
  destruct he as [he|]; [|apply publish_inv; [done|simpl; lia|done|done]].
  destruct (pending s) as [p|]; [|apply publish_inv; [done|simpl; lia|done|done]].
  pose proof (publish_open E (set_done s) p Hr ltac:(simpl; lia) Ho') as Hp.
  pose proof (publish_sent E (set_done s) p false Hr ltac:(simpl; lia) Ho') as Hs.
  destruct (publish E (set_done s) p false) as [s' [e|]]; [by apply open_inv|].
  destruct Hs as (Hd' & [Hs _] & _); [done|].
  apply publish_inv; [done| |done|done]. rewrite Hs, length_app. simpl. lia.
Qed.

Lemma publish_grows E s body final : sent s `prefix_of` sent (fst (publish E s body final)).
Proof.
  unfold publish. case_decide; [done|]. destruct (cancelled E); [done|].
  destruct (publishReply _ _ _); simpl; [done|]. by apply prefix_app_r.
Qed.

Lemma step_grows r x s s' : step r x s s' -> sent s `prefix_of` sent s'.
Proof.
  intros [E s0 m _|E s0 he _ _].
  - unfold SendMsg. repeat case_match; simpl; try done;
      match goal with H : publish ?E ?s ?b ?f = _ |- _ => pose proof (publish_grows E s b f) as Hg; rewrite H in Hg end;
      done.
  - unfold finish. destruct (cancelled E); [done|]. simpl. destruct (ss_err _); [done|].
    destruct he as [h|]; [|by apply (publish_grows E (set_done _))].
    destruct (pending _) as [p|]; [|by apply (publish_grows E (set_done _))].
    pose proof (publish_grows E (set_done s0) p false) as Hg.
    destruct (publish E (set_done s0) p false) as [s1 [e|]]; [done|].
    etrans; [exact Hg|apply publish_grows].
Qed.

(** Whatever the handler, the caller's cancellation and the broker do, the
    frames published for one request are numbered 0, 1, 2, ... without a gap,
    at most the last one is final, and a final frame is published only once the
    handler has returned. *)
Lemma producer_numbering (m r : string) (x : bool) (s : serverStream) :
  r <> "" -> Z.of_nat (length (sent s)) + 1 < MaxInt64 -> rtc (step r x) (newStream m) s ->
  forall i f, sent s !! i = Some f ->
    fseq f = Z.of_nat i /\ (ffinal f = true -> S i = length (sent s) /\ done_ s = true).
Proof.
  intros Hr Hlen Hs.
  assert (Z.of_nat (length (sent s)) + 1 < MaxInt64 -> inv s) as Hi.
  { clear Hlen. revert Hs. apply (rtc_invariant _ (fun s => Z.of_nat (length (sent s)) + 1 < MaxInt64 -> inv s)).
    - intros a b Hab IH Hb. pose proof (prefix_length _ _ (step_grows _ _ _ _ Hab)).
      destruct Hab as [E s0 d HE|E s0 he HE Hd]; subst r.
      + apply SendMsg_inv; [done|lia|]. apply IH. lia.
      + apply finish_inv; [done|lia| |done]. apply IH. lia.
    - intros _. split_and!; [by intros i f ?|done|by intros i f ?|]. intros _ f Hf. by apply elem_of_nil in Hf. }
  destruct (Hi Hlen) as (Hn & _ & Hf & _). intros i f Hif. split; [by apply Hn|]. by apply Hf.
Qed.

End Producer.
End Producer.

(** A handler that sends one message whose final frame is published when it
    returns. *)
Definition sample_env : ServerStream.env :=
  {| ServerStream.ctxErr := false; ServerStream.ctxCause := None; ServerStream.replyTo := "caller";
     ServerStream.publishReply := fun _ _ => None |}.

Definition sample_stream : ServerStream.serverStream :=
  fst (ServerStream.finish (P := Varint.wire) sample_env false
    (fst (ServerStream.SendMsg (P := Varint.wire) sample_env (ServerStream.newStream "M") (inl [x01]))) None).

Lemma producer_numbering_witness :
  exists f, ServerStream.sent sample_stream !! 0%nat = Some f /\ fseq f = Z.of_nat 0 /\
    (ffinal f = true -> 1%nat = length (ServerStream.sent sample_stream) /\ ServerStream.done_ sample_stream = true).
Proof.
  eexists. split; [vm_compute; reflexivity|].
  apply (Producer.producer_numbering (P := Varint.wire) "M" "caller" false sample_stream);
    [done|vm_compute; reflexivity| |vm_compute; reflexivity].
  eapply rtc_l; [apply (Producer.step_send _ _ sample_env _ (inl [x01])); reflexivity|].
  eapply rtc_once, (Producer.step_finish _ _ sample_env _ None); reflexivity.
Defined.

(** ** End to end *)

Section EndToEnd.
Import ServerStream.
Context {P : Protowire} {L : ProtowireLaws P} {A : GoArch}.

(** A handler that sends the messages [datas] and returns without error. *)
Fixpoint send_all (E : env) (s : serverStream) (datas : list bytes) : serverStream * option err :=
  match datas with
  | [] => (s, None)
  | d :: ds =>
      match SendMsg E s (inl d) with
      | (s', None) => send_all E s' ds
      | (s', Some e) => (s', Some e)
      end
  end.

(** The bodies on the wire: one per message, or a lone empty end marker. *)
Definition bodies_of (m : string) (datas : list bytes) : list bytes :=
  match datas with [] => [[]] | _ => map (result_body m) datas end.

Definition healthy (E : env) : Prop :=
  ctxErr E = false /\ ctxCause E = None /\ replyTo E <> "" /\ forall n f, publishReply E n f = None.

(** The bodies published or held back. *)
Definition queued (s : serverStream) : list bytes := map fbody (sent s) ++ option_list (pending s).

Definition flowing (s : serverStream) : Prop :=
  Producer.open_ s /\ done_ s = false /\ ss_err s = None.

Lemma publish_healthy E s body final :
  healthy E -> Z.of_nat (length (sent s)) < MaxInt64 -> Producer.open_ s ->
  publish E s body final
  = ({| method := method s; ss_seq := ss_seq s + 1; pending := pending s; ss_err := ss_err s;
        done_ := done_ s; sent := sent s ++ [Frame body (ss_seq s) final]; attempts := S (attempts s) |}, None).
Proof.
  intros (_ & Hc & Hr & Hp) Hlen (_ & Hq & _). unfold publish, cancelled.
  rewrite decide_False, Hc, Hp by done. rewrite int64_wrap_small; [done|].
  unfold MinInt64, MaxInt64 in *. lia.
Qed.

Lemma SendMsg_healthy E s d :
  healthy E -> Z.of_nat (length (sent s)) < MaxInt64 -> flowing s ->
  exists s', SendMsg E s (inl d) = (s', None) /\ flowing s' /\ method s' = method s /\
    queued s' = queued s ++ [result_body (method s) d] /\ (length (sent s') <= S (length (sent s)))%nat /\
    is_Some (pending s').
Proof.
  intros HE Hlen (Ho & Hd & He). unfold SendMsg. rewrite (proj1 HE), Hd, He.
  destruct (pending s) as [p|] eqn:Ep.
  - pose proof (Producer.publish_open E s p (proj1 (proj2 (proj2 HE))) Hlen Ho) as Ho'.
    rewrite publish_healthy in * by done. eexists. split; [done|]. split_and!; try done; simpl.
    + unfold queued. simpl. rewrite Ep, map_app. done.
    + rewrite length_app. simpl. lia.
  - eexists. split; [done|]. split_and!; try done; simpl; [|lia].
    unfold queued. simpl. by rewrite Ep, app_nil_r.
Qed.

Lemma send_all_healthy E s datas :
  healthy E -> Z.of_nat (length (sent s) + length datas) < MaxInt64 -> flowing s ->
  exists s', send_all E s datas = (s', None) /\ flowing s' /\
    queued s' = queued s ++ map (result_body (method s)) datas /\
    (length (sent s') <= length (sent s) + length datas)%nat /\
    (datas <> [] -> is_Some (pending s')) /\ (datas = [] -> s' = s).
Proof.
  intros HE. revert s. induction datas as [|d ds IH]; intros s Hlen Hf; simpl in *.
  { exists s. rewrite app_nil_r. split_and!; done || lia. }
  destruct (SendMsg_healthy E s d HE ltac:(lia) Hf) as (s1 & -> & Hf1 & Hm & Hq & Hl & Hp).
  destruct (IH s1 ltac:(lia) Hf1) as (s2 & -> & Hf2 & Hq2 & Hl2 & Hp2 & Hn2).
  exists s2. rewrite Hq2, Hq, Hm, <-app_assoc. split_and!; try done; [lia|].
  intros _. destruct ds; [rewrite (Hn2 eq_refl); done|by apply Hp2].
Qed.

(** Consecutively numbered frames, the last of them final, are determined by
    their bodies. *)
Lemma frames_of_numbered l body :
  Producer.numbered l -> (forall f, f ∈ l -> ffinal f = false) ->
  l ++ [Frame body (Z.of_nat (length l)) true] = frames_of (map fbody l ++ [body]).
Proof.
  intros Hn Hf. apply list_eq. intros i. unfold frames_of. rewrite list_lookup_imap.
  rewrite length_app, length_map. simpl. destruct (decide (i < length l)%nat) as [Hi|Hi].
  - destruct (lookup_lt_is_Some_2 l i Hi) as [f E].
    rewrite lookup_app_l, lookup_app_l by (rewrite ?length_map; lia).
    rewrite list_lookup_fmap, E. simpl. rewrite bool_decide_false by lia.
    pose proof (Hn _ _ E) as Hs. apply list_elem_of_lookup_2, Hf in E.
    destruct f as [b q fin]. simpl in *. by subst.
  - rewrite lookup_app_r, lookup_app_r by (rewrite ?length_map; lia). rewrite length_map.
    destruct (i - length l)%nat as [|k] eqn:Ei; simpl; [|done].
    assert (i = length l) as -> by lia. rewrite bool_decide_true by lia. done.
Qed.

Lemma produce_healthy E m datas x :
  healthy E -> Z.of_nat (length datas) + 1 < MaxInt64 ->
  exists s s', send_all E (newStream m) datas = (s, None) /\ finish E x s None = (s', None) /\
    sent s' = frames_of (bodies_of m datas).
Proof.
  intros HE Hlen.
  assert (flowing (newStream m)) as Hf0.
  { split; [|done]. split; [by intros i f ?|]. split; [done|]. intros f Hf. by apply elem_of_nil in Hf. }
  destruct (send_all_healthy E (newStream m) datas HE ltac:(simpl; lia) Hf0)
    as (s & Hs & (Ho & Hd & He) & Hq & Hl & Hp & Hz).
  exists s. unfold finish. rewrite publish_healthy; [|done|simpl in *; lia|done].
  unfold cancelled. rewrite (proj1 (proj2 HE)). simpl. rewrite He.
  eexists. split; [done|]. split; [done|]. simpl.
  destruct Ho as (Hn & -> & Hf). rewrite frames_of_numbered by done. f_equal.
  unfold queued in Hq. simpl in Hq. destruct datas as [|d ds]; [by rewrite (Hz eq_refl)|].
  destruct Hp as [p Ep]; [done|]. rewrite Ep in *. exact Hq.
Qed.

Lemma result_body_spec m d :
  result_ok {| ResMethod := m; ResData := d |} = true ->
  result_body m d <> [] /\
  DecodeResponse (result_body m d)
  = ({| ResponseResult := Some {| ResMethod := m; ResData := d |}; ResponseError := None |}, None).
Proof.
  intros Hok. unfold result_body.
  set (r := {| ResponseResult := Some {| ResMethod := m; ResData := d |}; ResponseError := None |}).
  split.
  - rewrite AppendResponse_member by done. apply field_ne. done.
  - destruct (response_encoded r [] Hok) as (b & -> & Hb); [constructor|].
    by rewrite app_nil_r in Hb.
Qed.

Lemma chunks_of_bodies m datas :
  Forall (fun d => result_ok {| ResMethod := m; ResData := d |} = true) datas ->
  chunks_of (bodies_of m datas) = map (result_body m) datas.
Proof.
  intros H. assert (chunks_of (map (result_body m) datas) = map (result_body m) datas) as E.
  { induction H as [|d ds Hd _ IH]; [done|]. unfold chunks_of in *. simpl.
    destruct (result_body_spec m d Hd) as [Hne _]. destruct (result_body m d) eqn:Eb; [done|]. simpl.
    by rewrite IH. }
  by destruct datas.
Qed.

(** C10: a streaming call end to end. A handler sends messages and returns; its
    frames go through a reply queue that may reorder, repeat or lose them; the
    caller's chunks are always a prefix of the messages sent, and once the
    caller sees the stream's clean end it has received exactly those messages,
    in order, each decoding to the payload the handler sent. *)
Theorem stream_end_to_end (E : env) (m : string) (datas : list bytes) (x : bool)
    (i : string) (l : ClientStream.limits) (t0 : Z) (c : ClientStream.clientStream) (t : Z) (y : list bytes) :
  healthy E -> Z.of_nat (length datas) + 1 < MaxInt64 ->
  Forall (fun d => result_ok {| ResMethod := m; ResData := d |} = true) datas ->
  (exists s s', send_all E (newStream m) datas = (s, None) /\ finish E x s None = (s', None) /\
    sent s' = frames_of (bodies_of m datas)) /\
  (rtc (StreamRun.step (bodies_of m datas)) (ClientStream.newStream i l, t0, []) (c, t, y) ->
   y `prefix_of` map (result_body m) datas /\
   (snd (ClientStream.next c t) = (None, true, None) ->
    map DecodeResponse y
    = map (fun d => ({| ResponseResult := Some {| ResMethod := m; ResData := d |}; ResponseError := None |}, None))
        datas)).
Proof.
  intros HE Hlen Hok. split; [by apply produce_healthy|]. intros Hrun.
  rewrite <-(chunks_of_bodies _ _ Hok).
  destruct (StreamRun.run_integrity (bodies_of m datas) i l t0 c t y) as [Hp Hend]; [|done|].
  { destruct datas; simpl; [done|]. rewrite length_map. simpl in Hlen. lia. }
  split; [done|]. intros ->%Hend. rewrite (chunks_of_bodies _ _ Hok), map_map.
  apply map_ext_Forall. eapply Forall_impl; [exact Hok|]. intros d Hd. by apply result_body_spec.
Qed.

End EndToEnd.

Lemma stream_end_to_end_witness :
  (exists s s', send_all (P := Varint.wire) sample_env (ServerStream.newStream "M") [[x01]; []] = (s, None) /\
    ServerStream.finish (P := Varint.wire) sample_env false s None = (s', None) /\
    ServerStream.sent s' = frames_of (bodies_of (P := Varint.wire) "M" [[x01]; []])).
Proof.
  destruct (stream_end_to_end (P := Varint.wire) (L := Varint.wire_laws) (A := amd64) sample_env "M" [[x01]; []] false "s"
    (ClientStream.Build_limits 4 100 100) 0
    (ClientStream.newStream "s" (ClientStream.Build_limits 4 100 100)) 0 []) as [H _].
  - split_and!; done.
  - done.
  - repeat constructor; vm_compute; reflexivity.
  - exact H.
Defined.

(** ** The buffer allowances *)

Module Buffers.
Import ClientStream.
Section Buffers.
Context {A : GoArch} (l : limits).

(** The configured limits are positive (Config.Validate). *)
Context (Hpos : 0 < lchunks l /\ 0 < lbytes l /\ 0 < ltotal l).

(** Every streaming call of a process, the shared counter, and what operations
    under way have added to it and not yet given back: the counter is atomic,
    but an operation that refuses a frame or drops a buffer adds and subtracts
    in separate instructions, which other streams' operations may see between. *)
Definition state : Type := list clientStream * Z * Z.

(** One stream's operation on itself and the shared counter. A body is an
    in-memory slice, so adding its length to the counter stays in range. *)
Inductive op : clientStream * Z -> clientStream * Z -> Prop :=
| op_push s t h b : t + len b <= MaxInt64 -> lbytes l + len b <= MaxInt64 ->
    op (s, t) (push s t h b)
| op_next s t : op (s, t) (fst (next s t))
| op_fail s t e : op (s, t) (fail s t e)
| op_release s t : op (s, t) (release s t).

(** An operation's effect on its stream, with [x] bytes of its changes to the
    counter still to come; and such a change arriving. *)
Inductive step : state -> state -> Prop :=
| step_open ss t w id : step (ss, t, w) (ss ++ [newStream id l], t, w)
| step_op ss t w i s s' t' x :
    ss !! i = Some s -> op (s, t) (s', t') -> 0 <= x -> t' + x <= MaxInt64 ->
    step (ss, t, w) (<[i := s']> ss, t' + x, w + x)
| step_give_back ss t w x : 0 <= x <= w -> step (ss, t, w) (ss, t - x, w - x).

Definition sum_len (cs : list bytes) : Z := foldr (fun c n => len c + n) 0 cs.
Definition held (ss : list clientStream) : Z := foldr (fun s n => cbytes s + n) 0 ss.

Definition stream_ok (s : clientStream) : Prop :=
  lim s = l /\ cbytes s = sum_len (chunks s) /\ cbytes s <= lbytes l /\
  len (chunks s) <= lchunks l.

Definition inv (st : state) : Prop :=
  let '(ss, t, w) := st in
  Forall stream_ok ss /\ t = held ss + w /\ 0 <= w /\ held ss <= ltotal l /\ t <= MaxInt64.

Lemma sum_len_nonneg cs : 0 <= sum_len cs.
Proof. induction cs as [|c cs IH]; simpl; [done|]. pose proof (len_nonneg c). lia. Qed.

Lemma sum_len_app a b : sum_len (a ++ b) = sum_len a + sum_len b.
Proof. induction a as [|c a IH]; simpl; [done|]. lia. Qed.

Lemma held_app a b : held (a ++ b) = held a + held b.
Proof. induction a as [|c a IH]; simpl; [done|]. lia. Qed.

Lemma held_insert ss i s s' :
  ss !! i = Some s -> held (<[i := s']> ss) = held ss - cbytes s + cbytes s'.
Proof.
  revert i. induction ss as [|x ss IH]; intros [|i] H; simplify_eq/=; [lia|].
  rewrite (IH _ H). lia.
Qed.

Lemma held_ge ss i s : Forall stream_ok ss -> ss !! i = Some s -> 0 <= cbytes s <= held ss.
Proof.
  intros H. revert i. induction H as [|x ss Hx Hss IH]; intros i Hi; [done|].
  assert (0 <= held ss) as H0.
  { clear -Hss. induction Hss as [|y ss (_ & Hy & _) _ IH]; simpl; [done|].
    pose proof (sum_len_nonneg (chunks y)). lia. }
  destruct Hx as (_ & Hx & _). pose proof (sum_len_nonneg (chunks x)).
  destruct i as [|i]; simplify_eq/=; [lia|]. specialize (IH _ Hi). lia.
Qed.

(** What an operation owes: the counter moves by exactly what the buffer does,
    and a growing buffer stays within every limit. *)
Definition accounted (s : clientStream) (t : Z) (r : clientStream * Z) : Prop :=
  stream_ok (fst r) /\ snd r = t - cbytes s + cbytes (fst r) /\ (cbytes (fst r) <= cbytes s \/ snd r <= ltotal l).

Lemma accounted_drop s s0 t :
  stream_ok s -> chunks s0 = chunks s -> cbytes s0 = cbytes s -> lim s0 = lim s ->
  0 <= cbytes s <= t -> is_int64 t -> accounted s t (dropBuffer s0 t).
Proof.
  intros (Hl & Hb & Hm & Hc) Ec Eb El Hs Hi. unfold accounted, dropBuffer, stream_ok, is_int64, MinInt64 in *.
  simpl. rewrite Eb, El. rewrite int64_wrap_small by (unfold MinInt64 in *; lia).
  unfold len. simpl. split_and!; done || lia.
Qed.

Lemma accounted_push_body s t b f :
  t + len b <= MaxInt64 -> lbytes l + len b <= MaxInt64 -> stream_ok s ->
  0 <= cbytes s <= t -> is_int64 t -> accounted s t (push_body s t b f).
Proof.
  intros Hb1 Hb2 Hok Hs Hi. unfold push_body. pose proof (len_nonneg b) as Hb.
  assert (forall s' t', stream_ok s' -> t' = t - cbytes s + cbytes s' ->
    cbytes s' <= cbytes s \/ t' <= ltotal l ->
    accounted s t ((if f then set_end s' true (cerr s') else s'), t')) as Hfin.
  { intros s' t' Hs' Ht' Hm. by destruct f. }
  destruct (Z.ltb_spec 0 (len b)) as [Hp|]; [|apply Hfin; done || lia].
  destruct Hok as (Hl & Hcb & Hm & Hc). unfold is_int64, MinInt64, MaxInt64 in *. rewrite Hl.
  rewrite (int64_wrap_small (t + len b)) by (unfold MinInt64, MaxInt64; lia).
  rewrite (int64_wrap_small (cbytes s + len b)) by (unfold MinInt64, MaxInt64; lia).
  destruct (Z.ltb_spec (lchunks l) (len (chunks s) + 1)); simpl;
    [|destruct (Z.ltb_spec (lbytes l) (cbytes s + len b)); simpl;
      [|destruct (Z.ltb_spec (ltotal l) (t + len b)); simpl]].
  4: { apply (Hfin (set_chunks s (chunks s ++ [b]) (cbytes s + len b)) (t + len b)); simpl; [|lia|lia]. unfold stream_ok. simpl.
       rewrite sum_len_app, len_app. simpl. change (len [b]) with 1. split_and!; done || lia. }
  all: rewrite int64_wrap_small by (unfold MinInt64, MaxInt64; lia);
    replace (t + len b - len b) with t by lia; apply accounted_drop; done || lia.
Qed.

Lemma op_accounted s t r :
  op (s, t) r -> stream_ok s -> 0 <= cbytes s <= t -> is_int64 t -> accounted s t r.
Proof.
  intros Hop Hok Hs Hi. inversion Hop as [? ? h b Hb1 Hb2|?|? ? e|?]; subst.
  - unfold push. destruct (ended s); [split_and!; simpl; done || lia|].
    destruct (streamSeq h) as [q|].
    2: { pose proof (accounted_push_body s t b (streamFinal h) Hb1 Hb2 Hok Hs Hi) as H.
         by destruct (push_body _ _ _ _). }
    destruct (q <? _); [split_and!; simpl; done || lia|]. destruct (_ <? q).
    { by apply accounted_drop. }
    pose proof (accounted_push_body (set_seq s q) t b (streamFinal h) Hb1 Hb2 Hok Hs Hi) as H.
    by destruct (push_body _ _ _ _).
  - unfold next. destruct (cerr s); [split_and!; simpl; done || lia|].
    destruct Hok as (Hl & Hb & Hm & Hc). destruct (chunks s) as [|c cs] eqn:Ec; simpl.
    { split_and!; simpl; [|lia|lia]. unfold stream_ok. by rewrite Ec. }
    simpl in Hb. pose proof (sum_len_nonneg cs). pose proof (len_nonneg c).
    unfold accounted, stream_ok, is_int64 in *. simpl.
    rewrite !int64_wrap_small by (unfold MinInt64, MaxInt64 in *; lia).
    assert (len (c :: cs) = len cs + 1) by (unfold len; simpl; lia). split_and!; done || lia.
  - unfold fail. destruct (ended s); [split_and!; simpl; done || lia|]. by apply accounted_drop.
  - by apply accounted_drop.
Qed.

Lemma held_nonneg ss : Forall stream_ok ss -> 0 <= held ss.
Proof.
  destruct ss as [|s ss]; [done|]. intros Hss. pose proof (held_ge _ 0%nat s Hss eq_refl). lia.
Qed.

Lemma buffers_inv_step st st' : step st st' -> inv st -> inv st'.
Proof.
  intros [ss t w id|ss t w i s s' t' x Hi Hop Hx Hmax|ss t w x Hx] (Hss & Ht & Hw & Hm & Hb); simpl in *.
  - rewrite held_app. simpl. split_and!; try done; try lia.
    apply Forall_app. split; [done|]. constructor; [|done].
    unfold stream_ok, len. simpl. split_and!; done || lia.
  - pose proof (held_ge _ _ _ Hss Hi). pose proof (Forall_lookup_1 _ _ _ _ Hss Hi) as Hok.
    destruct (op_accounted _ _ _ Hop Hok) as (Hok' & Ht' & Hm'); simpl in *.
    { lia. }
    { unfold is_int64, MinInt64 in *. lia. }
    rewrite (held_insert _ _ _ _ Hi). split_and!; [by apply Forall_insert|lia|lia|lia|lia].
  - split_and!; done || lia.
Qed.

(** C11: the limits on buffered stream chunks hold for any number of concurrent
    streams and any frames a peer sends. The shared counter is exactly the bytes
    the streams hold plus what operations under way are about to give back, so
    nothing leaks from the allowance; together the streams never hold more than
    the total limit, and no stream holds more chunks or bytes than its own
    limits. *)
Theorem buffers_bounded (ss : list clientStream) (t w : Z) :
  rtc step ([], 0, 0) (ss, t, w) ->
  t = held ss + w /\ 0 <= w /\ 0 <= held ss <= ltotal l /\
  forall s, s ∈ ss -> cbytes s = sum_len (chunks s) /\ cbytes s <= lbytes l /\ len (chunks s) <= lchunks l.
Proof.
  intros Hr. assert (inv (ss, t, w)) as (Hss & Ht & Hw & Hm & _).
  { revert Hr. apply rtc_invariant; [intros ? ? ?; by apply buffers_inv_step|]. split_and!; simpl; done || lia. }
  pose proof (held_nonneg ss Hss). split_and!; try done.
  intros s Hs. rewrite Forall_forall in Hss. by destruct (Hss s Hs) as (_ & ? & ? & ?).
Qed.

End Buffers.
End Buffers.

Definition sample_limits : ClientStream.limits :=
  {| ClientStream.lchunks := 4; ClientStream.lbytes := 100; ClientStream.ltotal := 200 |}.

Definition sample_push : ClientStream.clientStream * Z :=
  ClientStream.push (A := amd64) (ClientStream.newStream "s" sample_limits) 0 ∅ [x01].

(** A frame taken, and a second one refused for its size: its bytes are on the
    counter until the operation gives them back. *)
Definition sample_refused : ClientStream.clientStream * Z :=
  ClientStream.push (A := amd64) (fst sample_push) 1 ∅ (replicate 100 x02).

Lemma buffers_bounded_witness : 101 = Buffers.held [fst sample_refused] + 101 /\ snd sample_refused = 0.
Proof.
  split; [|by vm_compute].
  apply (Buffers.buffers_bounded (A := amd64) sample_limits ltac:(simpl; lia) [fst sample_refused] 101 101).
  eapply rtc_l; [apply (Buffers.step_open _ [] 0 0 "s")|].
  eapply rtc_l; [apply (Buffers.step_op (A := amd64) sample_limits
    [ClientStream.newStream "s" sample_limits] 0 0 0%nat (ClientStream.newStream "s" sample_limits)
    (fst sample_push) 1 0); [reflexivity| |done|done]|].
  { replace (fst sample_push, 1) with sample_push by (vm_compute; reflexivity).
    apply (Buffers.op_push sample_limits _ 0 ∅ [x01]); vm_compute; discriminate. }
  apply rtc_once. apply (Buffers.step_op (A := amd64) sample_limits [fst sample_push] 1 0 0%nat
    (fst sample_push) (fst sample_refused) 0 101); [reflexivity| |done|done].
  replace (fst sample_refused, 0) with sample_refused by (vm_compute; reflexivity).
  apply (Buffers.op_push sample_limits (fst sample_push) 1 ∅ (replicate 100 x02)); vm_compute; discriminate.
Defined.
