(* ===== verification/PubChannel.v ===== *)
(** * PubChannel: confirmed publishing on one channel (pubchan.go)

    The goroutines that share a [pubChannel] - any number of callers of
    [publish], the [writer], the [loop] that consumes confirms and returns - as
    one step relation. A step is one atomic action of the code: a channel
    operation, a critical section of [p.mu], or a call into the transport. A
    publication is named by its index in [pubs], which plays the role of the
    [*pendingPublish] pointer.

    The transport ([transport.Channel], amqp091) is the environment. Of it the
    steps assume its documented behaviour: publications get the delivery tags
    1, 2, ... in the order their writes succeed, a failed write sends nothing
    and leaves its tag to the next one, no write succeeds on a closed channel,
    and the broker confirms only what was written. *)
From S2P Require Import Prelude GoStrings Headers Errors.

Local Open Scope Z_scope.

(** ** State *)

(** Where a call of [publish] stands: waiting for a confirm slot, for the
    writer to take the publication, for the writer's decision, for the confirm,
    or returned. *)
Inductive phase :=
| PSlot
| PSend
| PHanded
| PConfirm
| PDone (r : option err).

Record pendingPublish := {
  exchange : string;
  key : string;
  mandatory : bool;
  messageId : string;
  phase_of : phase;
  admitted : bool;
  committed : bool;
  returned : bool;
  sentAt : option Z;
  (* settleOnce has run, with these [err] and [sendErr] *)
  settled : option (option err * option err)
}.

(** The writer goroutine inside [send]: it has received the publication,
    checked its context, checked the channel, registered it under its tag,
    is writing it, has written it. *)
Inductive writer_pc :=
| WIdle
| WGot (i : nat)
| WChecked (i : nat)
| WOpen (i : nat)
| WRegistered (i : nat) (tag : nat)
| WWriting (i : nat) (tag : nat)
| WWritten (i : nat)
| WExited.

(** What the loop has taken off the confirm and return channels. *)
Inductive broker_event :=
| BConfirm (tag : nat) (ack : bool)
| BReturn (ex rk mid : string).

Record pubChannel := {
  maxSlots : nat;
  timeout : Z;
  pubs : list pendingPublish;
  slots : nat;
  pending : gmap nat nat;
  writer : writer_pc;
  closed : bool;
  closeErr : option string;
  retired : bool;
  (* the environment: the publications written, in order; the events handled;
     whether the transport channel is closed; the clock *)
  wire : list nat;
  events : list broker_event;
  tclosed : bool;
  now : Z
}.

(** [newPubChannel], once confirm mode is on. *)
Definition newPubChannel (n : nat) (d : Z) : pubChannel := {|
  maxSlots := n; timeout := d; pubs := []; slots := 0; pending := ∅; writer := WIdle;
  closed := false; closeErr := None; retired := false; wire := []; events := [];
  tclosed := false; now := 0 |}.

(** *** Field updates *)

Definition with_phase (f : phase) (p : pendingPublish) : pendingPublish :=
  {| exchange := exchange p; key := key p; mandatory := mandatory p; messageId := messageId p;
     phase_of := f; admitted := admitted p; committed := committed p; returned := returned p;
     sentAt := sentAt p; settled := settled p |}.
Definition with_admitted (p : pendingPublish) : pendingPublish :=
  {| exchange := exchange p; key := key p; mandatory := mandatory p; messageId := messageId p;
     phase_of := PSend; admitted := true; committed := committed p; returned := returned p;
     sentAt := sentAt p; settled := settled p |}.
Definition with_committed (p : pendingPublish) : pendingPublish :=
  {| exchange := exchange p; key := key p; mandatory := mandatory p; messageId := messageId p;
     phase_of := phase_of p; admitted := admitted p; committed := true; returned := returned p;
     sentAt := sentAt p; settled := settled p |}.
Definition with_returned (p : pendingPublish) : pendingPublish :=
  {| exchange := exchange p; key := key p; mandatory := mandatory p; messageId := messageId p;
     phase_of := phase_of p; admitted := admitted p; committed := committed p; returned := true;
     sentAt := sentAt p; settled := settled p |}.
Definition with_sentAt (t : Z) (p : pendingPublish) : pendingPublish :=
  {| exchange := exchange p; key := key p; mandatory := mandatory p; messageId := messageId p;
     phase_of := phase_of p; admitted := admitted p; committed := committed p; returned := returned p;
     sentAt := Some t; settled := settled p |}.
Definition with_settled (v se : option err) (p : pendingPublish) : pendingPublish :=
  {| exchange := exchange p; key := key p; mandatory := mandatory p; messageId := messageId p;
     phase_of := phase_of p; admitted := admitted p; committed := committed p; returned := returned p;
     sentAt := sentAt p; settled := Some (v, se) |}.

Definition set_pubs (l : list pendingPublish) (s : pubChannel) : pubChannel :=
  {| maxSlots := maxSlots s; timeout := timeout s; pubs := l; slots := slots s; pending := pending s;
     writer := writer s; closed := closed s; closeErr := closeErr s; retired := retired s;
     wire := wire s; events := events s; tclosed := tclosed s; now := now s |}.
Definition set_slots (n : nat) (s : pubChannel) : pubChannel :=
  {| maxSlots := maxSlots s; timeout := timeout s; pubs := pubs s; slots := n; pending := pending s;
     writer := writer s; closed := closed s; closeErr := closeErr s; retired := retired s;
     wire := wire s; events := events s; tclosed := tclosed s; now := now s |}.
Definition set_pending (m : gmap nat nat) (s : pubChannel) : pubChannel :=
  {| maxSlots := maxSlots s; timeout := timeout s; pubs := pubs s; slots := slots s; pending := m;
     writer := writer s; closed := closed s; closeErr := closeErr s; retired := retired s;
     wire := wire s; events := events s; tclosed := tclosed s; now := now s |}.
Definition set_writer (w : writer_pc) (s : pubChannel) : pubChannel :=
  {| maxSlots := maxSlots s; timeout := timeout s; pubs := pubs s; slots := slots s; pending := pending s;
     writer := w; closed := closed s; closeErr := closeErr s; retired := retired s;
     wire := wire s; events := events s; tclosed := tclosed s; now := now s |}.
Definition set_closed (reason : string) (s : pubChannel) : pubChannel :=
  {| maxSlots := maxSlots s; timeout := timeout s; pubs := pubs s; slots := slots s; pending := pending s;
     writer := writer s; closed := true; closeErr := Some reason; retired := retired s;
     wire := wire s; events := events s; tclosed := tclosed s; now := now s |}.
Definition set_wire (w : list nat) (s : pubChannel) : pubChannel :=
  {| maxSlots := maxSlots s; timeout := timeout s; pubs := pubs s; slots := slots s; pending := pending s;
     writer := writer s; closed := closed s; closeErr := closeErr s; retired := retired s;
     wire := w; events := events s; tclosed := tclosed s; now := now s |}.
Definition log_event (e : broker_event) (s : pubChannel) : pubChannel :=
  {| maxSlots := maxSlots s; timeout := timeout s; pubs := pubs s; slots := slots s; pending := pending s;
     writer := writer s; closed := closed s; closeErr := closeErr s; retired := retired s;
     wire := wire s; events := events s ++ [e]; tclosed := tclosed s; now := now s |}.
Definition set_tclosed (s : pubChannel) : pubChannel :=
  {| maxSlots := maxSlots s; timeout := timeout s; pubs := pubs s; slots := slots s; pending := pending s;
     writer := writer s; closed := closed s; closeErr := closeErr s; retired := retired s;
     wire := wire s; events := events s; tclosed := true; now := now s |}.
Definition set_retired (s : pubChannel) : pubChannel :=
  {| maxSlots := maxSlots s; timeout := timeout s; pubs := pubs s; slots := slots s; pending := pending s;
     writer := writer s; closed := closed s; closeErr := closeErr s; retired := true;
     wire := wire s; events := events s; tclosed := tclosed s; now := now s |}.
Definition set_now (t : Z) (s : pubChannel) : pubChannel :=
  {| maxSlots := maxSlots s; timeout := timeout s; pubs := pubs s; slots := slots s; pending := pending s;
     writer := writer s; closed := closed s; closeErr := closeErr s; retired := retired s;
     wire := wire s; events := events s; tclosed := tclosed s; now := t |}.

(** Apply [f] to publication [i]. *)
Definition upd (i : nat) (f : pendingPublish -> pendingPublish) (s : pubChannel) : pubChannel :=
  set_pubs (alter f i (pubs s)) s.

(** ** Operations *)

(** [settle]: only the first call counts, and gives the slot back. *)
Definition settle (i : nat) (verdict sendErr : option err) (s : pubChannel) : pubChannel :=
  match pubs s !! i with
  | Some p =>
      match settled p with
      | Some _ => s
      | None => set_slots (pred (slots s)) (upd i (with_settled verdict sendErr) s)
      end
  | None => s
  end.

Definition return_matches (s : pubChannel) (ex rk mid : string) (i : nat) : bool :=
  match pubs s !! i with
  | Some p => mandatory p && negb (returned p) && bool_decide (messageId p = mid)
              && bool_decide (exchange p = ex) && bool_decide (key p = rk)
  | None => false
  end.

(** One iteration of [markReturned]'s loop over the pending map: [acc] is
    [match] with its tag. *)
Definition mark_iter (s : pubChannel) (ex rk mid : string) (kv : nat * nat) (acc : option (nat * nat))
    : option (nat * nat) :=
  let '(tag, i) := kv in
  if return_matches s ex rk mid i && match acc with None => true | Some (t, _) => (tag <? t)%nat end
  then Some (tag, i) else acc.

Definition markReturned (ex rk mid : string) (s : pubChannel) : pubChannel :=
  match foldr (mark_iter s ex rk mid) None (map_to_list (pending s)) with
  | Some (_, i) => upd i with_returned s
  | None => s
  end.

Definition resolve (tag : nat) (ack : bool) (s : pubChannel) : pubChannel :=
  match pending s !! tag with
  | None => s
  | Some i =>
      let s := set_pending (delete tag (pending s)) s in
      let was_returned := match pubs s !! i with Some p => returned p | None => false end in
      let verdict := if negb ack then Some (ESentinel ErrPublishNacked)
                     else if was_returned then Some (ESentinel ErrUnroutable) else None in
      settle i verdict None s
  end.

Definition shutdown (reason : string) (s : pubChannel) : pubChannel :=
  foldr (fun i s => settle i (Some (ESentinel ErrChannelClosed)) None s)
    (set_closed reason (set_pending ∅ s)) (map snd (map_to_list (pending s))).

(** The write failed: forget the tag, which the next publication reuses. *)
Definition send_failed (i tag : nat) (e : err) (s : pubChannel) : pubChannel :=
  let s := if decide (pending s !! tag = Some i) then set_pending (delete tag (pending s)) s else s in
  let sendErr :=
    if is_sentinel AmqpErrClosed e then ESentinel ErrChannelGone
    else match pubs s !! i with
         | Some p => EWrap ("protobus: publish to " +:+ exchange p +:+ " -> " +:+ key p +:+ ": " +:+ error_text e) e
         | None => e
         end in
  settle i None (Some sendErr) s.

Definition fail (p : pendingPublish) (e : err) (detail : string) : err :=
  EPublish e (messageId p) (exchange p) (key p) detail.

(** The closure [outcome] of [publish], once settled. *)
Definition outcome (s : pubChannel) (p : pendingPublish) (verdict sendErr : option err) : option err :=
  match sendErr, verdict with
  | Some e, _ => Some e
  | None, Some e =>
      Some (fail p e (if is_sentinel ErrChannelClosed e then default "" (closeErr s) else ""))
  | None, None => None
  end.

Definition oldest_sent (s : pubChannel) : option Z :=
  foldr (fun i acc =>
    match pubs s !! i with
    | Some p => match sentAt p, acc with
                | None, _ => acc
                | Some t, None => Some t
                | Some t, Some o => if t <? o then Some t else acc
                end
    | None => acc
    end) None (map snd (map_to_list (pending s))).

(** [retireIfWedged]: [retired] starts the goroutine that closes the
    transport channel. *)
Definition retireIfWedged (s : pubChannel) : pubChannel :=
  match oldest_sent s with
  | None => s
  | Some o => if now s - o <? timeout s then s else set_retired s
  end.

Definition stalled_error (s : pubChannel) : err :=
  EWrap (sentinel_text ErrPublishStalled +:+ " (" +:+ duration_string (timeout s) +:+ ")")
    (ESentinel ErrPublishStalled).

(** The errors of a context. *)
Definition ctx_error (e : err) : Prop := e = ESentinel CtxCanceled \/ e = ESentinel CtxDeadlineExceeded.

(** [publish] before its first wait: the message gets an id. *)
Definition new_publication (ex rk : string) (m : bool) (mid uuid : string) : pendingPublish := {|
  exchange := ex; key := rk; mandatory := m; messageId := if decide (mid = "") then uuid else mid;
  phase_of := PSlot; admitted := false; committed := false; returned := false;
  sentAt := None; settled := None |}.

Definition phase_at (s : pubChannel) (i : nat) : option phase := phase_of <$> pubs s !! i.

(** Return [r] from the call. *)
Definition returns (i : nat) (r : option err) : pubChannel -> pubChannel := upd i (with_phase (PDone r)).

(** ** Steps *)

Inductive step : pubChannel -> pubChannel -> Prop :=
(* callers of publish *)
| call s ex rk m mid uuid :
    step s (set_pubs (pubs s ++ [new_publication ex rk m mid uuid]) s)
| slot_taken s i :
    phase_at s i = Some PSlot -> (slots s < maxSlots s)%nat ->
    step s (set_slots (S (slots s)) (upd i with_admitted s))
| slot_closed s i :
    phase_at s i = Some PSlot -> closed s = true ->
    step s (returns i (Some (ESentinel ErrChannelGone)) s)
| slot_ctx s i e :
    phase_at s i = Some PSlot -> ctx_error e -> step s (returns i (Some e) s)
| slot_stalled s i :
    phase_at s i = Some PSlot -> step s (returns i (Some (stalled_error s)) (retireIfWedged s))
| handed s i :
    phase_at s i = Some PSend -> writer s = WIdle ->
    step s (set_writer (WGot i) (upd i (with_phase PHanded) s))
| send_closed s i :
    phase_at s i = Some PSend -> closed s = true ->
    step s (returns i (Some (ESentinel ErrChannelGone)) (settle i None (Some (ESentinel ErrChannelGone)) s))
| send_ctx s i e :
    phase_at s i = Some PSend -> ctx_error e ->
    step s (returns i (Some e) (settle i None (Some e) s))
| send_stalled s i :
    phase_at s i = Some PSend ->
    step s (returns i (Some (stalled_error s)) (retireIfWedged (settle i None None s)))
| see_committed s i p :
    pubs s !! i = Some p -> phase_of p = PHanded -> committed p = true ->
    step s (upd i (with_phase PConfirm) s)
| see_done s i p v se :
    pubs s !! i = Some p -> phase_of p = PHanded \/ phase_of p = PConfirm -> settled p = Some (v, se) ->
    step s (returns i (outcome s p v se) s)
| confirm_timeout s i p :
    pubs s !! i = Some p -> phase_of p = PConfirm ->
    step s (returns i (Some (fail p (ESentinel ErrPublishConfirmTimeout)
      ("no confirm within " +:+ duration_string (timeout s)))) s)
| confirm_ctx s i p e :
    pubs s !! i = Some p -> phase_of p = PConfirm -> ctx_error e ->
    step s (returns i (Some (fail p e "gave up waiting for the confirm")) s)
(* the writer *)
| writer_ctx s i e :
    writer s = WGot i -> ctx_error e -> step s (set_writer WIdle (settle i None (Some e) s))
| writer_checked s i : writer s = WGot i -> step s (set_writer (WChecked i) s)
| writer_gone s i :
    writer s = WChecked i -> closed s = true ->
    step s (set_writer WIdle (settle i None (Some (ESentinel ErrChannelGone)) s))
| writer_open s i :
    writer s = WChecked i -> closed s = false -> step s (set_writer (WOpen i) s)
| writer_register s i :
    writer s = WOpen i ->
    step s (set_writer (WRegistered i (S (length (wire s))))
              (set_pending (<[S (length (wire s)) := i]> (pending s)) s))
| writer_commit s i tag :
    writer s = WRegistered i tag -> step s (set_writer (WWriting i tag) (upd i with_committed s))
| writer_transmit s i tag :
    writer s = WWriting i tag -> tclosed s = false ->
    step s (set_writer (WWritten i) (set_wire (wire s ++ [i]) s))
| writer_sent s i :
    writer s = WWritten i -> step s (set_writer WIdle (upd i (with_sentAt (now s)) s))
| writer_failed s i tag e :
    writer s = WWriting i tag -> (forall a b c d x, e <> EPublish a b c d x) ->
    step s (set_writer WIdle (send_failed i tag e s))
| writer_exit s : writer s = WIdle -> closed s = true -> step s (set_writer WExited s)
(* the loop *)
| loop_returned s ex rk mid :
    closed s = false -> step s (log_event (BReturn ex rk mid) (markReturned ex rk mid s))
| loop_confirm s tag ack :
    closed s = false -> (1 <= tag <= length (wire s))%nat ->
    step s (log_event (BConfirm tag ack) (resolve tag ack s))
| loop_closed s reason :
    closed s = false -> tclosed s = true -> step s (shutdown reason s)
(* the transport and the clock *)
| transport_closed s : step s (set_tclosed s)
| clock s t : now s <= t -> step s (set_now t s).

(** ** The stages of a publication

    Where a publication is, over all goroutines, with the evidence each stage
    owes. [definite] errors promise that nothing was sent. *)

Definition definite (e : err) : Prop := forall a b c d x, e <> EPublish a b c d x.

(** The writer's program counter, as far as publication [i] is concerned. Once
    written it is the broker's. *)
Definition wview (i : nat) (w : writer_pc) : option writer_pc :=
  match w with
  | WGot j | WChecked j | WOpen j | WRegistered j _ | WWriting j _ => if decide (i = j) then Some w else None
  | WIdle | WWritten _ | WExited => None
  end.

Definition early (w : writer_pc) : bool :=
  match w with WGot _ | WChecked _ | WOpen _ => true | _ => false end.

Definition pends (s : pubChannel) (i : nat) (o : option nat) : Prop :=
  forall t, pending s !! t = Some i <-> o = Some t.

Definition fresh (s : pubChannel) (i : nat) : Prop :=
  i ∉ wire s /\ wview i (writer s) = None /\ pends s i None.

(** The caller waits, or stopped waiting with an ambiguous error. *)
Definition waiting (p : pendingPublish) : Prop :=
  phase_of p = PHanded \/ phase_of p = PConfirm \/
  exists e a b c d, phase_of p = PDone (Some (EPublish e a b c d)) /\ Ambiguous e = true.

Definition channel_closed : err := ESentinel ErrChannelClosed.

(** What a verdict says about the publication written under tag [t]. *)
Definition verdict_ok (s : pubChannel) (t : nat) (p : pendingPublish) (v : option err) : Prop :=
  (v = None /\ BConfirm t true ∈ events s /\ returned p = false) \/
  v = Some channel_closed \/
  (v = Some (ESentinel ErrPublishNacked) /\ BConfirm t false ∈ events s) \/
  (v = Some (ESentinel ErrUnroutable) /\ BConfirm t true ∈ events s /\ returned p = true).

Definition answers (v r : option err) : Prop :=
  match v with
  | None => r = None
  | Some e => exists a b c d, r = Some (EPublish e a b c d)
  end.

Inductive stage (s : pubChannel) (i : nat) (p : pendingPublish) : Prop :=
| St_slot : fresh s i -> phase_of p = PSlot -> admitted p = false -> settled p = None -> committed p = false ->
    stage s i p
| St_send : fresh s i -> phase_of p = PSend -> admitted p = true -> settled p = None -> committed p = false ->
    stage s i p
| St_refused e : fresh s i -> phase_of p = PDone (Some e) -> definite e ->
    (admitted p = false \/ settled p <> None) -> stage s i p
| St_early w : wview i (writer s) = Some w -> early w = true -> i ∉ wire s -> pends s i None ->
    phase_of p = PHanded -> admitted p = true -> settled p = None -> committed p = false -> stage s i p
| St_writing t : wview i (writer s) = Some (WRegistered i t) \/ wview i (writer s) = Some (WWriting i t) ->
    t = S (length (wire s)) -> i ∉ wire s -> admitted p = true -> waiting p ->
    (settled p = None /\ pends s i (Some t) \/
     settled p = Some (Some channel_closed, None) /\ pends s i None) -> stage s i p
| St_unsent v se : fresh s i -> admitted p = true -> settled p = Some (v, se) ->
    (v = Some channel_closed /\ se = None /\ waiting p \/
     v = None /\ exists e, se = Some e /\ definite e /\ (waiting p \/ phase_of p = PDone (Some e))) ->
    stage s i p
| St_wire t : (1 <= t)%nat -> wire s !! pred t = Some i -> wview i (writer s) = None -> admitted p = true ->
    waiting p -> settled p = None -> pends s i (Some t) -> stage s i p
| St_confirmed t v : (1 <= t)%nat -> wire s !! pred t = Some i -> wview i (writer s) = None ->
    admitted p = true -> settled p = Some (v, None) -> pends s i None -> verdict_ok s t p v ->
    (waiting p \/ exists r, phase_of p = PDone r /\ answers v r) -> stage s i p.

(** Steps that leave a publication, its writer, its tag and its place on the
    wire alone leave its stage alone. *)
Lemma stage_frame s s' i p :
  stage s i p -> wview i (writer s') = wview i (writer s) ->
  (forall t, pending s' !! t = Some i <-> pending s !! t = Some i) ->
  (wire s' = wire s \/ wview i (writer s) = None /\ exists j, j <> i /\ wire s' = wire s ++ [j]) ->
  (forall e, e ∈ events s -> e ∈ events s') ->
  stage s' i p.
Proof.
  intros Hst Hw Hp Hwire He.
  assert (forall o, pends s i o -> pends s' i o) as Hps by (intros o H t; rewrite Hp; apply H).
  assert (i ∉ wire s -> i ∉ wire s') as Hnw.
  { intros Hn. destruct Hwire as [->|(_ & j & Hj & ->)]; [done|].
    rewrite elem_of_app, list_elem_of_singleton. intros [?|?]; [done|congruence]. }
  assert (forall n, wire s !! n = Some i -> wire s' !! n = Some i) as Hlw.
  { intros n Hn. destruct Hwire as [->|(_ & j & _ & ->)]; [done|]. by apply lookup_app_l_Some. }
  assert (forall t v, verdict_ok s t p v -> verdict_ok s' t p v) as Hv
    by (unfold verdict_ok; intros t v; naive_solver).
  assert (fresh s i -> fresh s' i) as Hf by (intros (? & ? & ?); split_and!; eauto; congruence).
  destruct Hst as [| |e|w Hw0|t Hw0 Ht|v se|t|t v].
  - by apply St_slot; auto.
  - by apply St_send; auto.
  - by eapply St_refused; eauto.
  - eapply St_early; eauto; congruence.
  - assert (wire s' = wire s) as Ew.
    { destruct Hwire as [?|[Hn _]]; [done|]. destruct Hw0; congruence. }
    eapply (St_writing _ _ _ t); rewrite ?Ew, ?Hw; eauto. naive_solver.
  - by eapply St_unsent; eauto.
  - eapply St_wire; eauto; congruence.
  - eapply St_confirmed; eauto; congruence.
Qed.

(** ** The invariant *)

(** A publication holds a slot from admission until it is settled. *)
Definition holds (p : pendingPublish) : bool :=
  admitted p && match settled p with None => true | Some _ => false end.

Definition held (l : list pendingPublish) : nat := countb holds l.

Record inv (s : pubChannel) : Prop := {
  inv_stage : forall i p, pubs s !! i = Some p -> stage s i p;
  inv_slots : slots s = held (pubs s);
  inv_max : (slots s <= maxSlots s)%nat;
  inv_wire : NoDup (wire s);
  inv_known : forall i, i ∈ wire s \/ wview i (writer s) <> None \/ (exists t, pending s !! t = Some i) ->
    is_Some (pubs s !! i);
  inv_tclosed : closed s = true -> tclosed s = true;
  inv_closed : closed s = true -> forall t i, pending s !! t = Some i ->
    writer s = WRegistered i t \/ writer s = WWriting i t
}.

(** *** Preservation *)

(** A step confined to publication [i] (and to the writer's business with it). *)
Lemma inv_local s s' i f p :
  inv s -> pubs s !! i = Some p -> pubs s' = alter f i (pubs s) -> maxSlots s' = maxSlots s ->
  (slots s' + Nat.b2n (holds p) = slots s + Nat.b2n (holds (f p)))%nat -> (slots s' <= maxSlots s)%nat ->
  stage s' i (f p) ->
  (forall j, j <> i -> wview j (writer s') = wview j (writer s)) ->
  (forall j t, j <> i -> pending s' !! t = Some j <-> pending s !! t = Some j) ->
  (wire s' = wire s \/ wire s' = wire s ++ [i] /\ i ∉ wire s /\ wview i (writer s) <> None) ->
  (forall e, e ∈ events s -> e ∈ events s') -> tclosed s' = tclosed s -> closed s' = closed s ->
  (closed s = true -> forall t j, pending s' !! t = Some j ->
    writer s' = WRegistered j t \/ writer s' = WWriting j t) ->
  inv s'.
Proof.
  intros [Hst Hsl Hmax Hnd Hkn Htc Hcl] Hi Hpubs Hms Hslots Hle Hsi Hw Hpe Hwire Hev Ht Hc Hcl'.
  assert (forall j, is_Some (pubs s !! j) -> is_Some (pubs s' !! j)) as Hex.
  { intros j. rewrite Hpubs, !lookup_lt_is_Some, length_alter. done. }
  split.
  - intros j q Hj. rewrite Hpubs in Hj. destruct (decide (j = i)) as [->|Hne].
    { rewrite list_lookup_alter_eq, Hi in Hj. by simplify_eq/=. }
    rewrite list_lookup_alter_ne in Hj by done. eapply stage_frame; [by apply Hst|auto|auto| |done].
    destruct Hwire as [?|(? & ? & Hwi)]; [by left|right]. split; [|by exists i].
    destruct (writer s); simpl in *; try done; repeat case_decide; congruence.
  - rewrite Hpubs. unfold held in *. pose proof (countb_alter holds f i _ _ Hi). lia.
  - lia.
  - destruct Hwire as [->|(-> & Hn & _)]; [done|]. apply NoDup_app. split_and!; [done| |apply NoDup_singleton].
    intros j Hj Hx%list_elem_of_singleton. congruence.
  - intros j Hj. apply Hex. destruct (decide (j = i)) as [->|Hne]; [by eexists|]. apply Hkn.
    destruct Hj as [Hj|[Hj|[t Hj]]].
    + left. destruct Hwire as [Ew|(Ew & _)]; rewrite Ew in Hj; [done|]. apply elem_of_app in Hj as [?|?%list_elem_of_singleton]; done.
    + right; left. by rewrite <-Hw.
    + right; right. exists t. by apply Hpe.
  - by rewrite Hc, Ht.
  - by rewrite Hc.
Qed.

(** A step that touches no publication. *)
Lemma inv_frame s s' :
  inv s -> pubs s' = pubs s -> maxSlots s' = maxSlots s -> slots s' = slots s -> wire s' = wire s ->
  pending s' = pending s -> (forall j, wview j (writer s') = wview j (writer s)) ->
  (forall e, e ∈ events s -> e ∈ events s') -> (tclosed s = true -> tclosed s' = true) -> closed s' = closed s ->
  inv s'.
Proof.
  intros [Hst Hsl Hmax Hnd Hkn Htc Hcl] Ep Em Es Ew Epe Hw Hev Ht Hc. split; rewrite ?Ep, ?Em, ?Es, ?Ew, ?Epe, ?Hc; auto.
  - intros i p Hi. eapply stage_frame; [by apply Hst|auto| |by left|done]. by rewrite Epe.
  - intros i Hi. apply Hkn. by rewrite <-Hw.
  - intros Hcc t i Hp. specialize (Hcl Hcc t i Hp). specialize (Hw i).
    destruct Hcl as [Hcl|Hcl]; rewrite Hcl in Hw; simpl in Hw; rewrite decide_True in Hw by done;
      destruct (writer s'); simpl in Hw; repeat case_decide; naive_solver.
Qed.

Lemma inv_phase s i p : inv s -> pubs s !! i = Some p -> stage s i p.
Proof. intros H. apply (inv_stage s H). Qed.

(** The caller's own step: its phase, and perhaps [committed]. *)
Lemma inv_caller s i f p :
  inv s -> pubs s !! i = Some p -> admitted (f p) = admitted p -> settled (f p) = settled p ->
  stage s i (f p) -> inv (upd i f s).
Proof.
  intros H Hi Ha Hse Hst. eapply (inv_local s _ i f p); try done.
  - simpl. unfold holds. rewrite Ha, Hse. lia.
  - apply H.
  - eapply stage_frame; [done..| |done]. by left.
  - by left.
  - apply H.
Qed.

Lemma phase_at_inv s i f : phase_at s i = Some f -> exists p, pubs s !! i = Some p /\ phase_of p = f.
Proof. unfold phase_at. intros (p & Hp & Hi)%fmap_Some. by exists p. Qed.

Lemma settle_open i v se s p :
  pubs s !! i = Some p -> settled p = None ->
  settle i v se s = set_slots (pred (slots s)) (upd i (with_settled v se) s).
Proof. unfold settle. by intros -> ->. Qed.

Lemma settle_again i v se s p : pubs s !! i = Some p -> settled p <> None -> settle i v se s = s.
Proof. unfold settle. intros -> H. by destruct (settled p). Qed.

(** A publication with a tag: it is on the wire under it, or being written. *)
Lemma pending_stage s t i :
  inv s -> pending s !! t = Some i ->
  exists p, pubs s !! i = Some p /\ settled p = None /\ admitted p = true /\ waiting p /\ pends s i (Some t) /\
    ((1 <= t)%nat /\ wire s !! pred t = Some i /\ wview i (writer s) = None \/
     t = S (length (wire s)) /\ i ∉ wire s /\
     (wview i (writer s) = Some (WRegistered i t) \/ wview i (writer s) = Some (WWriting i t))).
Proof.
  intros H Ht. destruct (inv_known s H i) as [p Hp]; [naive_solver|].
  exists p. split; [done|]. pose proof (inv_phase s i p H Hp) as Hst.
  assert (forall o, pends s i o -> o = Some t) as Hpe by (intros o Ho; by apply Ho).
  destruct Hst as [(_ & _ & Hn)|(_ & _ & Hn)|e (_ & _ & Hn)|w ? ? ? Hn|t' Hw -> Hnw Ha Hwa Hs|v se (_ & _ & Hn)
                  |t' ? ? ? ? ? ? Hn|t' v ? ? ? ? ? Hn]; try (by apply Hpe in Hn).
  - destruct Hs as [[Hs Hn]|[_ Hn]]; [|by apply Hpe in Hn]. pose proof (Hpe _ Hn). simplify_eq.
    split_and!; try done. by right.
  - pose proof (Hpe _ Hn). simplify_eq. split_and!; try done. by left.
Qed.

(** The next tag can only belong to the publication the writer holds. *)
Lemma pending_next s i :
  inv s -> pending s !! S (length (wire s)) = Some i ->
  wview i (writer s) = Some (WRegistered i (S (length (wire s)))) \/
  wview i (writer s) = Some (WWriting i (S (length (wire s)))).
Proof.
  intros H Hi. destruct (pending_stage s _ i H Hi) as (p & _ & _ & _ & _ & _ & [(_ & Hl & _)|(_ & _ & Hx)]); [|done].
  apply lookup_lt_Some in Hl. simpl in Hl. lia.
Qed.

Lemma fresh_frame s s' i :
  fresh s i -> wire s' = wire s -> writer s' = writer s -> pending s' = pending s -> fresh s' i.
Proof. unfold fresh, pends. by intros H -> -> ->. Qed.

Lemma holds_open p : admitted p = true -> settled p = None -> holds p = true.
Proof. unfold holds. by intros -> ->. Qed.

Lemma slots_pos s i p : inv s -> pubs s !! i = Some p -> holds p = true -> (0 < slots s)%nat.
Proof. intros H Hi Hh. rewrite (inv_slots s H). by eapply countb_pos. Qed.

(** A publication that holds a slot gives it back when it is settled. *)
Lemma release_count s i p f v se :
  inv s -> pubs s !! i = Some p -> admitted p = true -> settled p = None -> settled (f p) = Some (v, se) ->
  (pred (slots s) + Nat.b2n (holds p) = slots s + Nat.b2n (holds (f p)))%nat.
Proof.
  intros H Hi Ha Hs Hf. pose proof (holds_open p Ha Hs) as Hh. pose proof (slots_pos s i p H Hi Hh).
  rewrite Hh. unfold holds. rewrite Hf, andb_false_r. simpl. lia.
Qed.

Lemma waiting_late p : waiting p -> phase_of p <> PSlot /\ phase_of p <> PSend.
Proof. intros [->|[->|(e & a & b & c & d & -> & _)]]; done. Qed.

(** Case analysis on the stage of a publication, the impossible ones gone. *)
Ltac stage_cases H :=
  destruct H;
  repeat match goal with
  | H : waiting _ |- _ => apply waiting_late in H
  | H : fresh _ _ |- _ => destruct H as (? & ? & ?)
  | H : _ /\ _ |- _ => destruct H
  | H : _ \/ _ |- _ => destruct H
  | H : exists _, _ |- _ => destruct H
  end; try congruence.

Lemma stage_slot s i p :
  stage s i p -> phase_of p = PSlot ->
  fresh s i /\ admitted p = false /\ settled p = None /\ committed p = false.
Proof. intros H Hp. stage_cases H. done. Qed.

Lemma stage_send s i p :
  stage s i p -> phase_of p = PSend ->
  fresh s i /\ admitted p = true /\ settled p = None /\ committed p = false.
Proof. intros H Hp. stage_cases H. done. Qed.

Lemma stage_early s i p w :
  stage s i p -> wview i (writer s) = Some w -> early w = true ->
  i ∉ wire s /\ pends s i None /\ phase_of p = PHanded /\ admitted p = true /\ settled p = None /\
  committed p = false.
Proof.
  intros H Hw He. stage_cases H; try done; simplify_eq/=.
Qed.

(** The call returns before the writer took its publication. *)
Lemma inv_refused s i e se :
  inv s -> phase_at s i = Some PSend -> definite e -> inv (returns i (Some e) (settle i None se s)).
Proof.
  intros H (p & Hp & Hph)%phase_at_inv He.
  destruct (stage_send s i p (inv_phase s i p H Hp) Hph) as (Hf & Ha & Hs & Hco).
  rewrite (settle_open _ _ _ _ _ Hp Hs).
  eapply (inv_local s _ i (with_phase (PDone (Some e)) ∘ with_settled None se) p); try done.
  - simpl. by rewrite list_alter_alter_eq.
  - by eapply (release_count s i p).
  - simpl. pose proof (inv_max s H). lia.
  - eapply St_refused; [by eapply fresh_frame|done|done|]. by right.
  - by left.
  - apply H.
Qed.

(** The writer settles the publication it holds, unsent. *)
Lemma inv_writer_unsent s i w e :
  inv s -> wview i (writer s) = Some w -> early w = true -> definite e ->
  inv (set_writer WIdle (settle i None (Some e) s)).
Proof.
  intros H Hw Hearly He. destruct (inv_known s H i) as [p Hp]; [right; left; congruence|].
  destruct (stage_early s i p w (inv_phase s i p H Hp) Hw Hearly) as (Hnw & Hpe & Hph & Ha & Hs & Hco).
  rewrite (settle_open _ _ _ _ _ Hp Hs).
  eapply (inv_local s _ i (with_settled None (Some e)) p); try done.
  - by eapply (release_count s i p).
  - simpl. pose proof (inv_max s H). lia.
  - eapply St_unsent; [done|done|done|]. right. split; [done|]. exists e. split_and!; try done. left. by left.
  - intros j Hj. simpl. destruct (writer s); simpl in *; repeat case_decide; congruence.
  - by left.
  - simpl. intros Hc t j Hj. pose proof (inv_closed s H Hc t j Hj) as [Hwr|Hwr]; rewrite Hwr in Hw;
      simpl in Hw; case_decide; naive_solver.
Qed.

(** The publication with tag [t] is settled and leaves the pending map. *)
Lemma inv_settle_pending s t i v :
  inv s -> pending s !! t = Some i ->
  (forall p, pubs s !! i = Some p -> v = Some channel_closed \/ (t <= length (wire s))%nat /\ verdict_ok s t p v) ->
  inv (settle i v None (set_pending (delete t (pending s)) s)).
Proof.
  intros H Ht Hv. destruct (pending_stage s t i H Ht) as (p & Hp & Hs & Ha & Hwa & Hpe & Hw).
  specialize (Hv p Hp). rewrite (settle_open _ _ _ _ p) by done.
  assert (pends (set_slots (pred (slots s)) (upd i (with_settled v None) (set_pending (delete t (pending s)) s))) i None)
    as Hnone.
  { intros t'. simpl. rewrite lookup_delete_Some. split; [|done]. intros [Hne ?%Hpe]. congruence. }
  eapply (inv_local s _ i (with_settled v None) p); try done.
  - by eapply (release_count s i p).
  - simpl. pose proof (inv_max s H). lia.
  - destruct Hw as [(H1 & H2 & H3)|(H1 & H2 & H3)].
    + eapply (St_confirmed _ _ _ t v); try done; [|by left].
      destruct Hv as [->|[_ Hv]]; [by right; left|exact Hv].
    + destruct Hv as [->|[Hv _]]; [|lia]. eapply (St_writing _ _ _ t); try done. by right.
  - intros j t' Hj. simpl. rewrite lookup_delete_Some. naive_solver.
  - by left.
  - intros Hc t' j. simpl. intros [_ Hj]%lookup_delete_Some. by apply (inv_closed s H).
Qed.

(** *** Shutdown: the pending publications are settled one by one *)

Definition settle_closed (i : nat) (s : pubChannel) : pubChannel := settle i (Some channel_closed) None s.

Definition close_tag (kv : nat * nat) (s : pubChannel) : pubChannel :=
  settle_closed kv.2 (set_pending (delete kv.1 (pending s)) s).

Lemma settle_set_pending i v se m s : settle i v se (set_pending m s) = set_pending m (settle i v se s).
Proof. unfold settle. simpl. by destruct (pubs s !! i) as [p|]; [destruct (settled p)|]. Qed.

Lemma settle_set_closed i v se r s : settle i v se (set_closed r s) = set_closed r (settle i v se s).
Proof. unfold settle. simpl. by destruct (pubs s !! i) as [p|]; [destruct (settled p)|]. Qed.

Lemma settle_pending i v se s : pending (settle i v se s) = pending s.
Proof. unfold settle. by destruct (pubs s !! i) as [p|]; [destruct (settled p)|]. Qed.

Lemma settle_tclosed i v se s : tclosed (settle i v se s) = tclosed s.
Proof. unfold settle. by destruct (pubs s !! i) as [p|]; [destruct (settled p)|]. Qed.

Lemma close_tags_spec l s :
  foldr close_tag s l
  = set_pending (foldr (fun kv m => delete kv.1 m) (pending s) l) (foldr settle_closed s (map snd l)).
Proof.
  induction l as [|[t i] l IH]; [by destruct s|]. simpl.
  rewrite IH. unfold close_tag, settle_closed. simpl. by rewrite !settle_set_pending.
Qed.

Lemma close_tag_pending kv s : pending (close_tag kv s) = delete kv.1 (pending s).
Proof. unfold close_tag, settle_closed. by rewrite settle_pending. Qed.

Lemma close_tags_pending l s t :
  pending (foldr close_tag s l) !! t = if decide (t ∈ l.*1) then None else pending s !! t.
Proof.
  induction l as [|[t' i] l IH]; simpl; [done|]. rewrite close_tag_pending. simpl.
  destruct (decide (t = t')) as [->|Hne].
  - rewrite lookup_delete_eq, decide_True; [done|]. by left.
  - rewrite lookup_delete_ne, IH by done. destruct (decide (t ∈ l.*1)) as [Hi|Hi].
    + rewrite decide_True; [done|]. by right.
    + rewrite decide_False; [done|]. by intros [?|?]%elem_of_cons.
Qed.

Lemma inv_close_tags l s :
  inv s -> NoDup l.*1 -> (forall t i, (t, i) ∈ l -> pending s !! t = Some i) -> inv (foldr close_tag s l).
Proof.
  induction l as [|[t i] l IH]; simpl; intros H Hnd Hl; [done|].
  apply NoDup_cons in Hnd as [Hn Hnd]. apply inv_settle_pending.
  - apply IH; [done|done|]. intros t' i' Hi. apply Hl. by right.
  - simpl. rewrite close_tags_pending, decide_False by done. apply Hl. by left.
  - by left.
Qed.

Lemma inv_set_closed s r : inv s -> tclosed s = true -> pending s = ∅ -> inv (set_closed r s).
Proof.
  intros [Hst Hsl Hmax Hnd Hkn Htc Hcl] Ht Hp. split; simpl; try done.
  - intros i p Hi. eapply stage_frame; [by apply Hst|done|done|by left|done].
  - intros _ t i. by rewrite Hp.
Qed.

Lemma inv_shutdown s r : inv s -> tclosed s = true -> inv (shutdown r s).
Proof.
  intros H Ht. set (l := map_to_list (pending s)).
  assert (foldr (fun kv m => delete kv.1 m) (pending s) l = ∅) as Hempty.
  { apply map_eq. intros t. rewrite lookup_empty.
    pose proof (close_tags_pending l s t) as E. rewrite close_tags_spec in E. simpl in E. rewrite E.
    case_decide as Hin; [done|]. apply eq_None_not_Some. intros [i Hi]. apply Hin.
    apply list_elem_of_fmap. exists (t, i). split; [done|]. by apply elem_of_map_to_list. }
  assert (shutdown r s = set_closed r (foldr close_tag s l)) as ->.
  { rewrite close_tags_spec, Hempty. unfold shutdown. fold l. clear -l.
    generalize (map snd l). intros k. induction k as [|i k IH]; simpl; [done|].
    rewrite IH, settle_set_closed, settle_set_pending. done. }
  apply inv_set_closed.
  - apply inv_close_tags; [done|apply NoDup_fst_map_to_list|]. intros t i. apply elem_of_map_to_list.
  - rewrite <-Ht. clear Hempty. generalize l. intros k. induction k as [|kv k IH]; simpl; [done|].
    unfold close_tag, settle_closed. by rewrite settle_tclosed.
  - by rewrite close_tags_spec, Hempty.
Qed.

(** *** The other steps *)

Lemma inv_resolve s tag ack :
  inv s -> (1 <= tag <= length (wire s))%nat -> inv (log_event (BConfirm tag ack) (resolve tag ack s)).
Proof.
  intros H Htag. set (s1 := log_event (BConfirm tag ack) s).
  assert (inv s1) as H1.
  { eapply inv_frame; try done. intros e He. simpl. apply elem_of_app. by left. }
  assert (log_event (BConfirm tag ack) (resolve tag ack s) = resolve tag ack s1) as ->.
  { unfold resolve, settle. simpl. destruct (pending s !! tag) as [i|]; [|done]. simpl.
    by destruct (pubs s !! i) as [p|]; [destruct (settled p)|]. }
  unfold resolve. destruct (pending s1 !! tag) as [i|] eqn:Ei; [|done].
  apply inv_settle_pending; [done|done|]. intros p Hp. simpl in *. rewrite Hp. right. split; [lia|].
  unfold verdict_ok. simpl.
  assert (BConfirm tag ack ∈ events s ++ [BConfirm tag ack]) as Hin by (apply elem_of_app; right; by left).
  destruct ack; simpl; [|naive_solver]. destruct (returned p) eqn:Er; naive_solver.
Qed.

Lemma mark_iter_pending s ex rk mid l t i :
  foldr (mark_iter s ex rk mid) None l = Some (t, i) -> (t, i) ∈ l.
Proof.
  revert t i. induction l as [|[t' i'] l IH]; simpl; intros t i; [done|].
  unfold mark_iter at 1. destruct (_ && _); [intros [= -> ->]; by left|]. intros Hm. right. by apply IH.
Qed.

Lemma stage_returned s i p t :
  stage s i p -> pending s !! t = Some i -> stage s i (with_returned p).
Proof.
  intros H Ht.
  assert (forall o, pends s i o -> o = Some t) as Hpe by (intros o Ho; by apply Ho).
  destruct H as [(_ & _ & Hn)|(_ & _ & Hn)|e (_ & _ & Hn)|w ? ? ? Hn|t' Hw Hl Hnw Ha Hwa Hs|v se (_ & _ & Hn)
                |t' ? ? ? ? ? ? Hn|t' v ? ? ? ? ? Hn]; try (by apply Hpe in Hn).
  - by eapply St_writing.
  - by eapply St_wire.
Qed.

Lemma inv_markReturned s ex rk mid : inv s -> inv (markReturned ex rk mid s).
Proof.
  intros H. unfold markReturned. destruct (foldr _ _ _) as [[t i]|] eqn:E; [|done].
  apply mark_iter_pending, elem_of_map_to_list in E.
  destruct (inv_known s H i) as [p Hp]; [naive_solver|].
  eapply inv_caller; try done. eapply stage_returned; [|done]. by apply inv_phase.
Qed.

(** The writer moves on with its publication, nothing else changes. *)
Lemma inv_writer s i w w' f p :
  inv s -> pubs s !! i = Some p -> wview i (writer s) = Some w -> wview i w' = Some w' ->
  (forall t, w <> WRegistered i t) \/ (forall t, w = WRegistered i t -> w' = WWriting i t) ->
  (forall t, w <> WWriting i t) ->
  admitted (f p) = admitted p -> settled (f p) = settled p ->
  stage (set_writer w' (upd i f s)) i (f p) -> inv (set_writer w' (upd i f s)).
Proof.
  intros H Hi Hw Hw' Hreg Hwr Ha Hs Hst. eapply (inv_local s _ i f p); try done.
  - simpl. unfold holds. rewrite Ha, Hs. lia.
  - apply H.
  - intros j Hj. simpl. destruct (writer s), w'; simpl in *; repeat case_decide; congruence.
  - by left.
  - simpl. intros Hc t j Hj. pose proof (inv_closed s H Hc t j Hj) as [E|E]; rewrite E in Hw; simpl in Hw;
      case_decide; simplify_eq.
    + right. destruct Hreg as [Hreg|Hreg]; [by destruct (Hreg t)|by apply Hreg].
    + by destruct (Hwr t).
Qed.

Lemma stage_writing s i p w t :
  stage s i p -> wview i (writer s) = Some w -> w = WRegistered i t \/ w = WWriting i t ->
  t = S (length (wire s)) /\ i ∉ wire s /\ admitted p = true /\ waiting p /\
  (settled p = None /\ pends s i (Some t) \/ settled p = Some (Some channel_closed, None) /\ pends s i None).
Proof.
  intros H Hw Hwt. destruct H as [(_ & Hn & _)|(_ & Hn & _)|e (_ & Hn & _)|w' Hn He|t' Hn|v se (_ & Hn & _)
                |t' _ _ Hn|t' v _ _ Hn]; try congruence.
  - destruct Hwt; simplify_eq; done.
  - assert (t' = t) as -> by (destruct Hn, Hwt; simplify_eq; done). done.
Qed.

Lemma inv_register s i :
  inv s -> writer s = WOpen i ->
  inv (set_writer (WRegistered i (S (length (wire s)))) (set_pending (<[S (length (wire s)) := i]> (pending s)) s)).
Proof.
  intros H Hw. assert (wview i (writer s) = Some (WOpen i)) as Hv by (by rewrite Hw; simpl; rewrite decide_True).
  destruct (inv_known s H i) as [p Hp]; [right; left; congruence|].
  destruct (stage_early s i p _ (inv_phase s i p H Hp) Hv eq_refl) as (Hnw & Hpe & Hph & Ha & Hs & Hco).
  assert (pending s !! S (length (wire s)) = None) as Hfree.
  { destruct (pending s !! _) as [j|] eqn:Ej; [|done]. exfalso.
    destruct (pending_next s j H Ej) as [Hx|Hx]; rewrite Hw in Hx; simpl in Hx; by repeat case_decide. }
  eapply (inv_local s _ i id p); try done.
  - simpl. by rewrite list_alter_id.
  - apply H.
  - eapply (St_writing _ _ _ (S (length (wire s)))); try done; simpl.
    + left. by rewrite decide_True.
    + by left.
    + left. split; [done|]. intros t. simpl. rewrite lookup_insert_Some. split; [|naive_solver].
      intros [[-> _]|[_ Hx]]; [done|]. by apply Hpe in Hx.
  - intros j Hj. rewrite Hw. simpl. by rewrite !decide_False.
  - intros j t Hj. simpl. rewrite lookup_insert_Some. split; [naive_solver|]. intros Hx.
    right. split; [|done]. congruence.
  - by left.
  - simpl. intros Hc t j [[<- <-]|[_ Hx]]%lookup_insert_Some; [by left|].
    destruct (inv_closed s H Hc t j Hx); congruence.
Qed.

Lemma inv_transmit s i tag :
  inv s -> writer s = WWriting i tag -> tclosed s = false ->
  inv (set_writer (WWritten i) (set_wire (wire s ++ [i]) s)).
Proof.
  intros H Hw Ht. assert (wview i (writer s) = Some (WWriting i tag)) as Hv by (by rewrite Hw; simpl; rewrite decide_True).
  destruct (inv_known s H i) as [p Hp]; [right; left; congruence|].
  destruct (stage_writing s i p _ tag (inv_phase s i p H Hp) Hv) as (Htag & Hnw & Ha & Hwa & Hs); [by right|].
  assert ((wire s ++ [i]) !! pred tag = Some i) as Hl by (subst tag; simpl; by apply list_lookup_middle).
  eapply (inv_local s _ i id p); try done.
  - simpl. by rewrite list_alter_id.
  - apply H.
  - destruct Hs as [[Hs Hpe]|[Hs Hpe]].
    + eapply (St_wire _ _ _ tag); try done. lia.
    + eapply (St_confirmed _ _ _ tag); try done; [lia| |by left]. by right; left.
  - intros j Hj. rewrite Hw. simpl. by rewrite decide_False.
  - right. split_and!; [done|done|congruence].
  - simpl. intros Hc. pose proof (inv_tclosed s H Hc). congruence.
Qed.

(** The failed write's tag is free again. *)
Definition forget_tag (i tag : nat) (s : pubChannel) : pubChannel :=
  if decide (pending s !! tag = Some i) then set_pending (delete tag (pending s)) s else s.

Lemma forget_tag_spec s i tag :
  inv s -> writer s = WWriting i tag -> tag = S (length (wire s)) ->
  (pends s i (Some tag) \/ pends s i None) ->
  forget_tag i tag s = set_pending (delete tag (pending s)) s /\
  (forall j t, delete tag (pending s) !! t = Some j <-> j <> i /\ pending s !! t = Some j).
Proof.
  intros H Hw Htag Hpe.
  assert (forall j, pending s !! tag = Some j -> j = i) as Hown.
  { intros j Hj. rewrite Htag in Hj. destruct (pending_next s j H Hj) as [Hx|Hx]; rewrite Hw in Hx; simpl in Hx;
      by case_decide. }
  split.
  - unfold forget_tag. case_decide as Hd; [done|]. rewrite delete_id; [by destruct s|].
    destruct (pending s !! tag) as [j|] eqn:Ej; [|done]. by rewrite (Hown j eq_refl) in Hd.
  - intros j t. rewrite lookup_delete_Some. split.
    + intros [Ht Hj]. split; [|done]. intros ->. destruct Hpe as [Hpe|Hpe]; apply Hpe in Hj; congruence.
    + intros [Hji Hj]. split; [|done]. intros <-. by apply Hji, Hown.
Qed.

Lemma inv_failed s i tag e :
  inv s -> writer s = WWriting i tag -> definite e -> inv (set_writer WIdle (send_failed i tag e s)).
Proof.
  intros H Hw He. assert (wview i (writer s) = Some (WWriting i tag)) as Hv by (by rewrite Hw; simpl; rewrite decide_True).
  destruct (inv_known s H i) as [p Hp]; [right; left; congruence|].
  destruct (stage_writing s i p _ tag (inv_phase s i p H Hp) Hv) as (Htag & Hnw & Ha & Hwa & Hs); [by right|].
  destruct (forget_tag_spec s i tag H Hw Htag) as [Efg Hdel]; [naive_solver|].
  unfold send_failed. fold (forget_tag i tag s). rewrite Efg. simpl. rewrite Hp.
  set (e' := if is_sentinel _ _ then _ else _).
  assert (definite e') as He' by (unfold e'; by destruct (is_sentinel _ _)).
  assert (forall j, j <> i -> None = wview j (writer s)) as Hwj by (intros j Hj; rewrite Hw; simpl; by rewrite decide_False).
  assert (closed s = true -> forall t j, delete tag (pending s) !! t = Some j -> False) as Hcl.
  { intros Hc t j [Hji Hx]%Hdel. destruct (inv_closed s H Hc t j Hx); congruence. }
  assert (forall v se, settled p = None /\ v = None /\ se = Some e' \/
      settled p = Some (Some channel_closed, None) /\ v = Some channel_closed /\ se = None ->
    stage (set_writer WIdle (settle i None (Some e') (set_pending (delete tag (pending s)) s))) i
      (if settled p then p else with_settled v se p)) as Hstage.
  { intros v se Hvs.
    assert (fresh (set_writer WIdle (settle i None (Some e') (set_pending (delete tag (pending s)) s))) i) as Hf.
    { unfold settle. simpl. rewrite Hp. destruct (settled p); (split_and!; [done|done|]);
        intros t; (split; [by intros [? _]%Hdel|done]). }
    destruct Hvs as [(Hse & -> & ->)|(Hse & -> & ->)]; rewrite Hse; (eapply St_unsent; [exact Hf|done|done|]).
    - right. split; [done|]. exists e'. split_and!; try done. by left.
    - by left. }
  destruct Hs as [[Hs _]|[Hs _]]; rewrite Hs in Hstage.
  - specialize (Hstage None (Some e')). rewrite (settle_open _ _ _ _ p) in * by done.
    eapply (inv_local s _ i (with_settled None (Some e')) p); try done.
    + by eapply (release_count s i p).
    + simpl. pose proof (inv_max s H). lia.
    + apply Hstage. by left.
    + intros j t Hj. simpl. rewrite Hdel. naive_solver.
    + by left.
    + intros Hc t j Hx. by destruct (Hcl Hc t j).
  - specialize (Hstage (Some channel_closed) None).
    rewrite (settle_again _ _ _ _ p) in * by (simpl; congruence || done).
    eapply (inv_local s _ i id p); try done.
    + simpl. by rewrite list_alter_id.
    + apply H.
    + apply Hstage. by right.
    + intros j t Hj. simpl. rewrite Hdel. naive_solver.
    + by left.
    + intros Hc t j Hx. by destruct (Hcl Hc t j).
Qed.

Lemma definite_ctx e : ctx_error e -> definite e.
Proof. intros [->| ->]; done. Qed.

Lemma ambiguous_ctx e : ctx_error e -> Ambiguous e = true.
Proof. intros [->| ->]; done. Qed.

Lemma retire_frame s : inv s -> inv (retireIfWedged s).
Proof.
  intros H. unfold retireIfWedged. destruct (oldest_sent s); [|done]. destruct (_ <? _); [done|].
  by eapply inv_frame.
Qed.

Lemma retire_settle s i v se : pubs (retireIfWedged (settle i v se s)) = pubs (settle i v se s).
Proof. unfold retireIfWedged. destruct (oldest_sent _); [|done]. by destruct (_ <? _). Qed.

Lemma retire_phase s i : phase_at (retireIfWedged s) i = phase_at s i.
Proof.
  unfold retireIfWedged. destruct (oldest_sent s); [|done]. by destruct (_ <? _).
Qed.

(** A caller waiting for a slot gives up. *)
Lemma inv_slot_refused s i e :
  inv s -> phase_at s i = Some PSlot -> definite e -> inv (returns i (Some e) s).
Proof.
  intros H (p & Hp & Hph)%phase_at_inv He.
  destruct (stage_slot s i p (inv_phase s i p H Hp) Hph) as (Hf & Ha & Hs & Hco).
  eapply inv_caller; try done. eapply St_refused; try done. by left.
Qed.

Lemma inv_call s p :
  phase_of p = PSlot -> admitted p = false -> settled p = None -> committed p = false -> inv s ->
  inv (set_pubs (pubs s ++ [p]) s).
Proof.
  intros Hph Ha Hs Hco H. pose proof H as [Hst Hsl Hmax Hnd Hkn Htc Hcl]. split; simpl; try done.
  - intros i q [Hi|[Hlen Hi]]%lookup_app_Some.
    { eapply stage_frame; [by apply Hst|done|done|by left|done]. }
    apply list_lookup_singleton_Some in Hi as [Hi <-].
    assert (pubs s !! i = None) as Hnone by (apply lookup_ge_None; lia).
    assert (forall Q, (Q -> is_Some (pubs s !! i)) -> ~ Q) as Hno
      by (intros Q HQ HQ'; apply HQ in HQ' as [? ?]; congruence).
    apply St_slot; try done. split_and!.
    + apply Hno. intros ?. apply Hkn. by left.
    + simpl. destruct (wview i (writer s)) eqn:E; [|done]. exfalso. revert E. apply Hno.
      intros E. apply Hkn. right; left. congruence.
    + intros t. split; [|done]. simpl. intros E. exfalso. revert E. apply Hno. intros E. apply Hkn. naive_solver.
  - unfold held in *. rewrite countb_app. simpl.
    assert (holds p = false) as -> by (unfold holds; by rewrite Ha). simpl. lia.
  - intros i Hi. apply Hkn in Hi. rewrite lookup_app. by destruct Hi as [q ->].
Qed.

Lemma inv_admit s i :
  inv s -> phase_at s i = Some PSlot -> (slots s < maxSlots s)%nat ->
  inv (set_slots (S (slots s)) (upd i with_admitted s)).
Proof.
  intros H (p & Hp & Hph)%phase_at_inv Hlt.
  destruct (stage_slot s i p (inv_phase s i p H Hp) Hph) as (Hf & Ha & Hs & Hco).
  eapply (inv_local s _ i with_admitted p); try done.
  - simpl. unfold holds. simpl. rewrite Ha, Hs. simpl. lia.
  - by apply St_send.
  - by left.
  - apply H.
Qed.

Lemma inv_handed s i :
  inv s -> phase_at s i = Some PSend -> writer s = WIdle ->
  inv (set_writer (WGot i) (upd i (with_phase PHanded) s)).
Proof.
  intros H (p & Hp & Hph)%phase_at_inv Hw.
  destruct (stage_send s i p (inv_phase s i p H Hp) Hph) as ((Hnw & _ & Hpe) & Ha & Hs & Hco).
  eapply (inv_local s _ i (with_phase PHanded) p); try done.
  - apply H.
  - eapply (St_early _ _ _ (WGot i)); try done. simpl. by rewrite decide_True.
  - intros j Hj. rewrite Hw. simpl. by rewrite decide_False.
  - by left.
  - simpl. intros Hc t j Hj. destruct (inv_closed s H Hc t j Hj); congruence.
Qed.

(** A caller that waits keeps its publication's stage, whatever it does. *)
Lemma stage_rephase s i p f :
  stage s i p -> phase_of p = PConfirm \/ phase_of p = PHanded /\ committed p = true ->
  waiting (with_phase f p) -> stage s i (with_phase f p).
Proof.
  intros H Hph Hwa.
  assert (waiting p) as Hw0 by (unfold waiting; naive_solver).
  destruct H as [? Hx|? Hx|? ? Hx|? ? ? ? ? ? ? ? ?|t|v se ? ? ? Hv|t|t v ? ? ? ? ? ? ? Hv];
    try (destruct Hph as [?|[? ?]]; congruence).
  - by eapply St_writing.
  - eapply St_unsent; try done. destruct Hv as [(? & ? & _)|(? & e & ? & ? & _)]; [by left|right].
    split; [done|]. exists e. split_and!; try done. by left.
  - by eapply St_wire.
  - eapply St_confirmed; try done. by left.
Qed.

Lemma stage_done s i p v se :
  stage s i p -> phase_of p = PHanded \/ phase_of p = PConfirm -> settled p = Some (v, se) ->
  stage s i (with_phase (PDone (outcome s p v se)) p).
Proof.
  intros H Hph Hs.
  destruct H as [? Hx|? Hx|? ? Hx|? ? ? ? ? ? ? ? ?|t ? ? ? ? ? Hv|v' se' ? ? Hs' Hv|t|t v' ? ? ? ? Hs' ? Hvo Hv];
    try (destruct Hph; congruence); simplify_eq.
  - destruct Hv as [[Hv _]|[Hv Hpe]]; [congruence|]. simplify_eq.
    eapply St_writing; try done; [|by right]. right; right. by eexists _, _, _, _, _.
  - eapply St_unsent; try done. destruct Hv as [(-> & -> & _)|(-> & e & -> & He & _)].
    + left. split_and!; try done. right; right. by eexists _, _, _, _, _.
    + right. split; [done|]. exists e. split_and!; try done. by right.
  - eapply St_confirmed; try done. right. eexists. split; [done|].
    destruct v' as [e|]; simpl; [|done]. by eexists _, _, _, _.
Qed.

Lemma upd_id i s : upd i id s = s.
Proof. unfold upd. rewrite list_alter_id by done. by destruct s. Qed.

Lemma inv_early s i w w' :
  inv s -> writer s = w -> wview i w = Some w -> early w = true -> wview i w' = Some w' -> early w' = true ->
  inv (set_writer w' s).
Proof.
  intros H Hw Hv He Hv' He'. assert (wview i (writer s) = Some w) as Hvs by (by rewrite Hw).
  destruct (inv_known s H i) as [p Hp]; [right; left; congruence|].
  destruct (stage_early s i p _ (inv_phase s i p H Hp) Hvs He) as (Hnw & Hpe & Hph & Ha & Hs & Hco).
  rewrite <-(upd_id i s). eapply (inv_writer s i w); try done.
  - left. by intros t ->.
  - by intros t ->.
  - eapply (St_early _ _ _ w'); done.
Qed.

Lemma inv_commit s i tag :
  inv s -> writer s = WRegistered i tag -> inv (set_writer (WWriting i tag) (upd i with_committed s)).
Proof.
  intros H Hw. assert (wview i (writer s) = Some (WRegistered i tag)) as Hv by (by rewrite Hw; simpl; rewrite decide_True).
  destruct (inv_known s H i) as [p Hp]; [right; left; congruence|].
  destruct (stage_writing s i p _ tag (inv_phase s i p H Hp) Hv) as (Htag & Hnw & Ha & Hwa & Hs); [by left|].
  eapply (inv_writer s i (WRegistered i tag)); try done; [simpl; by rewrite decide_True|right; naive_solver|].
  eapply (St_writing _ _ _ tag); try done. right. simpl. by rewrite decide_True.
Qed.

Lemma stage_sentAt s i p t : stage s i p -> stage s i (with_sentAt t p).
Proof.
  intros []; [by apply St_slot|by apply St_send|by eapply St_refused|by eapply St_early|by eapply St_writing
    |by eapply St_unsent|by eapply St_wire|by eapply St_confirmed].
Qed.

Lemma inv_sent s i : inv s -> writer s = WWritten i -> inv (set_writer WIdle (upd i (with_sentAt (now s)) s)).
Proof.
  intros H Hw. apply (inv_frame (upd i (with_sentAt (now s)) s)); try done; [|intros j; by simpl; rewrite Hw].
  destruct (pubs s !! i) as [p|] eqn:Hp; [eapply inv_caller; try done; by apply stage_sentAt, inv_phase|].
  eapply inv_frame; try done. simpl. apply list_eq. intros j. destruct (decide (j = i)) as [->|Hj].
  - by rewrite list_lookup_alter_eq, Hp.
  - by rewrite list_lookup_alter_ne.
Qed.

Lemma inv_step_pub s s' : step s s' -> inv s -> inv s'.
Proof.
  intros Hstep H.
  destruct Hstep as [s ex rk m mid uuid|s i Hph Hlt|s i Hph Hc|s i e Hph He|s i Hph|s i Hph Hw|s i Hph Hc
    |s i e Hph He|s i Hph|s i p Hp Hph Hco|s i p v se Hp Hph Hs|s i p Hp Hph|s i p e Hp Hph He
    |s i e Hw He|s i Hw|s i Hw Hc|s i Hw Hc|s i Hw|s i tag Hw|s i tag Hw Ht|s i Hw|s i tag e Hw He|s Hw Hc
    |s ex rk mid Hc|s tag ack Hc Htag|s r Hc Ht|s|s t Ht].
  - by apply inv_call.
  - by apply inv_admit.
  - by apply inv_slot_refused.
  - by apply inv_slot_refused, definite_ctx.
  - apply inv_slot_refused; [by apply retire_frame|by rewrite retire_phase|done].
  - by apply inv_handed.
  - by apply inv_refused.
  - by apply inv_refused, definite_ctx.
  - pose proof (inv_refused s i (stalled_error s) None H Hph ltac:(done)) as Hr.
    eapply inv_frame; [exact Hr| | | | | |..]; unfold retireIfWedged;
      destruct (oldest_sent _); simpl; try done; destruct (_ <? _); done.
  - eapply inv_caller; try done. apply stage_rephase; [by apply inv_phase|by right|]. by right; left.
  - eapply inv_caller; try done. apply stage_done; [by apply inv_phase|done|done].
  - eapply inv_caller; try done. apply stage_rephase; [by apply inv_phase|by left|].
    right; right. by eexists _, _, _, _, _.
  - eapply inv_caller; try done. apply stage_rephase; [by apply inv_phase|by left|].
    right; right. eexists _, _, _, _, _. split; [done|]. by apply ambiguous_ctx.
  - eapply inv_writer_unsent; [done|by rewrite Hw; simpl; rewrite decide_True|done|by apply definite_ctx].
  - eapply (inv_early s i); [done|done|simpl; by rewrite decide_True|done|simpl; by rewrite decide_True|done].
  - eapply inv_writer_unsent; [done|by rewrite Hw; simpl; rewrite decide_True|done|done].
  - eapply (inv_early s i); [done|done|simpl; by rewrite decide_True|done|simpl; by rewrite decide_True|done].
  - by apply inv_register.
  - by apply inv_commit.
  - by eapply inv_transmit.
  - by apply inv_sent.
  - by eapply inv_failed.
  - eapply inv_frame; try done. intros j. by rewrite Hw.
  - eapply inv_frame; [by apply (inv_markReturned s ex rk mid)|..]; try done.
    intros e He. apply elem_of_app. by left.
  - by apply inv_resolve.
  - by apply inv_shutdown.
  - by eapply inv_frame.
  - by eapply inv_frame.
Qed.

Lemma inv_reachable_pub n d s : rtc step (newPubChannel n d) s -> inv s.
Proof.
  apply rtc_invariant; [apply inv_step_pub|]. split; simpl; try done.
  - lia.
  - apply NoDup_nil_2.
  - intros i [Hi|[?|[t Ht]]]; [by apply elem_of_nil in Hi|done|by rewrite lookup_empty in Ht].
Qed.

(** *** A call that has returned stays returned *)

Lemma phase_upd i f s j :
  phase_at (upd i f s) j = if decide (j = i) then phase_of ∘ f <$> pubs s !! i else phase_at s j.
Proof.
  unfold phase_at, upd. simpl. case_decide as Hj.
  - subst. rewrite list_lookup_alter_eq. by destruct (pubs s !! i).
  - by rewrite list_lookup_alter_ne.
Qed.

Lemma phase_upd_same i f s j : (forall p, phase_of (f p) = phase_of p) -> phase_at (upd i f s) j = phase_at s j.
Proof.
  intros Hf. rewrite phase_upd. case_decide as Hj; [|done]. subst. unfold phase_at.
  destruct (pubs s !! i); simpl; [|done]. by rewrite Hf.
Qed.

Lemma phase_settle i v se s j : phase_at (settle i v se s) j = phase_at s j.
Proof.
  unfold settle. destruct (pubs s !! i) as [p|]; [|done]. destruct (settled p); [done|].
  by apply (phase_upd_same i (with_settled v se)).
Qed.

Lemma phase_shutdown r s j : phase_at (shutdown r s) j = phase_at s j.
Proof.
  unfold shutdown. generalize (map snd (map_to_list (pending s))). intros l.
  induction l as [|i l IH]; simpl; [done|]. by rewrite phase_settle.
Qed.

(** A step of publication [i]'s own caller does not concern a call that has
    returned. *)
Lemma phase_other i f s j r :
  phase_at s j = Some (PDone r) -> (phase_at s i = Some (PDone r) -> False) ->
  phase_at (upd i f s) j = Some (PDone r).
Proof. intros Hj Hi. rewrite phase_upd, decide_False; [done|]. intros ->. done. Qed.

Lemma phase_of_at s i p : pubs s !! i = Some p -> phase_at s i = Some (phase_of p).
Proof. unfold phase_at. by intros ->. Qed.

Lemma done_stable s s' j r : step s s' -> phase_at s j = Some (PDone r) -> phase_at s' j = Some (PDone r).
Proof.
  intros Hstep Hj.
  destruct Hstep as [s ex rk m mid uuid|s i Hph Hlt|s i Hph Hc|s i e Hph He|s i Hph|s i Hph Hw|s i Hph Hc
    |s i e Hph He|s i Hph|s i p Hp Hph Hco|s i p v se Hp Hph Hs|s i p Hp Hph|s i p e Hp Hph He
    |s i e Hw He|s i Hw|s i Hw Hc|s i Hw Hc|s i Hw|s i tag Hw|s i tag Hw Ht|s i Hw|s i tag e Hw He|s Hw Hc
    |s ex rk mid Hc|s tag ack Hc Htag|s rr Hc Ht|s|s t Ht]; try done;
    try (apply phase_of_at in Hp).
  - unfold phase_at in *. simpl. destruct (pubs s !! j) eqn:E; [|done]. by rewrite (lookup_app_l_Some _ _ _ _ E).
  - apply (phase_other i with_admitted s j r); congruence.
  - apply phase_other; congruence.
  - apply phase_other; congruence.
  - apply phase_other; rewrite retire_phase; congruence.
  - apply (phase_other i (with_phase PHanded) s j r); congruence.
  - apply phase_other; rewrite phase_settle; congruence.
  - apply phase_other; rewrite phase_settle; congruence.
  - apply phase_other; rewrite retire_phase, phase_settle; congruence.
  - apply phase_other; congruence.
  - apply phase_other; [done|]. destruct Hph; congruence.
  - apply phase_other; congruence.
  - apply phase_other; congruence.
  - by change (phase_at (settle i None (Some e) s) j = Some (PDone r)); rewrite phase_settle.
  - by change (phase_at (settle i None (Some (ESentinel ErrChannelGone)) s) j = Some (PDone r)); rewrite phase_settle.
  - by change (phase_at (upd i with_committed s) j = Some (PDone r)); rewrite phase_upd_same.
  - by change (phase_at (upd i (with_sentAt (now s)) s) j = Some (PDone r)); rewrite phase_upd_same.
  - change (phase_at (send_failed i tag e s) j = Some (PDone r)). unfold send_failed.
    rewrite phase_settle. by case_decide.
  - change (phase_at (markReturned ex rk mid s) j = Some (PDone r)). unfold markReturned.
    destruct (foldr _ _ _) as [[t i]|]; [|done]. by rewrite phase_upd_same.
  - change (phase_at (resolve tag ack s) j = Some (PDone r)). unfold resolve.
    destruct (pending s !! tag) as [i|]; [|done]. by rewrite phase_settle.
  - by rewrite phase_shutdown.
Qed.

Lemma stage_definite s i p e :
  stage s i p -> phase_of p = PDone (Some e) -> definite e -> i ∉ wire s.
Proof.
  intros H Hp He.
  assert (~ waiting p) as Hnw.
  { intros [?|[?|(e' & a & b & c & d & ? & _)]]; [congruence|congruence|].
    apply (He e' a b c d). congruence. }
  destruct H as [? Hx|? Hx|? [? _]|? ? ? ? ? Hx|t|v se [? _]|t|t v ? ? ? ? ? ? ? [Hx|(r & Hr & Hv)]]; try done;
    try congruence.
  rewrite Hp in Hr. simplify_eq. destruct v as [e'|]; [|done]. destruct Hv as (a & b & c & d & Hv). simplify_eq.
  by destruct (He e' a b c d).
Qed.

Lemma definite_never_sent s i e :
  inv s -> phase_at s i = Some (PDone (Some e)) -> definite e -> forall s', rtc step s s' -> i ∉ wire s'.
Proof.
  intros H Hi He s' Hr.
  assert (inv s' /\ phase_at s' i = Some (PDone (Some e))) as [H' (p & Hp & Hph)%phase_at_inv].
  { revert Hr. apply (rtc_invariant step (fun s => inv s /\ phase_at s i = Some (PDone (Some e)))); [|done].
    intros a b Hab [Ha Hpa]. split; [by eapply inv_step_pub|by eapply done_stable]. }
  eapply stage_definite; [by apply inv_phase|done|done].
Qed.

(** ** Properties *)

(** C12: what a result of [publish] means, under every interleaving of callers,
    writer, broker and connection loss. Success: the publication was written,
    under its own delivery tag, the broker positively confirmed that tag, and no
    return was attributed to it. A definite failure that is not a
    [PublishError]: it was never written and never will be. A [PublishError] is
    either marked ambiguous, or the broker refused exactly this publication:
    it nacked the tag, or confirmed it after returning it as unroutable. *)
Theorem publish_result (n : nat) (d : Z) (s : pubChannel) (i : nat) (p : pendingPublish) (r : option err) :
  rtc step (newPubChannel n d) s -> pubs s !! i = Some p -> phase_of p = PDone r ->
  match r with
  | None =>
      exists t, (1 <= t)%nat /\ wire s !! pred t = Some i /\ BConfirm t true ∈ events s /\ returned p = false
  | Some (EPublish inner _ _ _ _) =>
      Ambiguous inner = true \/
      exists t, (1 <= t)%nat /\ wire s !! pred t = Some i /\
        (inner = ESentinel ErrPublishNacked /\ BConfirm t false ∈ events s \/
         inner = ESentinel ErrUnroutable /\ BConfirm t true ∈ events s /\ returned p = true)
  | Some _ => i ∉ wire s /\ forall s', rtc step s s' -> i ∉ wire s'
  end.
Proof.
  intros Hr Hp Hph. apply inv_reachable_pub in Hr as H. pose proof (inv_phase s i p H Hp) as Hst.
  assert (forall e, r = Some e -> definite e -> i ∉ wire s /\ forall s', rtc step s s' -> i ∉ wire s') as Hdef.
  { intros e -> He. split; [by eapply stage_definite|].
    eapply definite_never_sent; [done| |exact He]. by rewrite (phase_of_at _ _ _ Hp), Hph. }
  destruct r as [e|].
  - destruct e; try (by apply (Hdef _ eq_refl)).
    destruct Hst as [? Hx|? Hx|e' ? Hx He'|? ? ? ? ? Hx|t ? ? ? ? [Hx|[Hx|Hx]]
      |v se ? ? ? [(? & ? & [Hx|[Hx|Hx]])|(? & e' & ? & He' & [[Hx|[Hx|Hx]]|Hx])]
      |t ? ? ? ? [Hx|[Hx|Hx]]|t v ? ? ? ? ? ? Hv [[Hx|[Hx|Hx]]|(r & Hx & Ha)]];
      try congruence; try (destruct Hx as (? & ? & ? & ? & ? & Hx & ?); left; congruence);
      try (rewrite Hph in Hx; simplify_eq; by edestruct He').
    rewrite Hph in Hx. simplify_eq. destruct v as [e'|]; [|done]. destruct Ha as (? & ? & ? & ? & Ha). simplify_eq.
    destruct Hv as [[? _]|[?|[[? ?]|[? ?]]]]; simplify_eq; [by left|right|right]; exists t; naive_solver.
  - destruct Hst as [? Hx|? Hx|e' ? Hx He'|? ? ? ? ? Hx|t ? ? ? ? [Hx|[Hx|Hx]]
      |v se ? ? ? [(? & ? & [Hx|[Hx|Hx]])|(? & e' & ? & He' & [[Hx|[Hx|Hx]]|Hx])]
      |t ? ? ? ? [Hx|[Hx|Hx]]|t v ? ? ? ? ? ? Hv [[Hx|[Hx|Hx]]|(r & Hx & Ha)]];
      try congruence; try (destruct Hx as (? & ? & ? & ? & ? & Hx & ?); congruence).
    rewrite Hph in Hx. simplify_eq. destruct v as [e'|]; [by destruct Ha as (? & ? & ? & ? & ?)|].
    exists t. destruct Hv as [(_ & ? & ?)|[?|[[? ?]|[? ?]]]]; done.
Qed.

(** *** Slots *)

Lemma held_indices l ks :
  NoDup ks -> (forall i, i ∈ ks -> exists p, l !! i = Some p /\ holds p = true) -> (length ks <= countb holds l)%nat.
Proof.
  revert ks. induction l as [|p l IH] using rev_ind; intros ks Hnd Hks.
  { destruct ks as [|i ks]; [done|]. destruct (Hks i) as (p & Hp & _); [by left|done]. }
  rewrite countb_app. simpl.
  assert (forall ks, NoDup ks -> length l ∉ ks -> (forall i, i ∈ ks -> i ∈ ks /\ exists q, (l ++ [p]) !! i = Some q /\ holds q = true) ->
    (length ks <= countb holds l)%nat) as Hold.
  { intros ks' Hnd' Hn Hks'. apply IH; [done|]. intros i Hi. destruct (Hks' i Hi) as (_ & q & Hq & Hh).
    exists q. split; [|done]. apply lookup_app_Some in Hq as [?|[? Hq]]; [done|].
    apply list_lookup_singleton_Some in Hq as [? _]. destruct Hn. by replace (length l) with i by lia. }
  destruct (decide (length l ∈ ks)) as [Hin|Hnin].
  - destruct (Hks _ Hin) as (q & Hq & Hh). rewrite list_lookup_middle in Hq by done. simplify_eq. rewrite Hh. simpl.
    apply elem_of_Permutation in Hin as [ks' Hperm]. pose proof (Permutation_length Hperm) as ->. simpl.
    rewrite Hperm in Hnd. apply NoDup_cons in Hnd as [Hn Hnd].
    enough (length ks' <= countb holds l)%nat by lia. apply Hold; [done|done|]. intros i Hi. split; [done|].
    apply Hks. rewrite Hperm. by right.
  - enough (length ks <= countb holds l)%nat by lia. apply Hold; auto.
Qed.

Lemma pending_held s : inv s -> (size (pending s) <= held (pubs s))%nat.
Proof.
  intros H. rewrite <-length_map_to_list. rewrite <-(length_fmap snd). apply held_indices.
  - apply NoDup_fmap_2_strong; [|apply NoDup_map_to_list].
    intros [t i] [t' i'] Hi%elem_of_map_to_list Hi'%elem_of_map_to_list E. simpl in E. subst i'.
    destruct (pending_stage s t i H Hi) as (p & _ & _ & _ & _ & Hpe & _). apply Hpe in Hi'. congruence.
  - intros i ([t i'] & -> & Hi%elem_of_map_to_list)%list_elem_of_fmap.
    destruct (pending_stage s t i' H Hi) as (p & Hp & Hs & Ha & _). exists p. split; [done|]. by apply holds_open.
Qed.

Lemma maxSlots_step s s' : step s s' -> maxSlots s' = maxSlots s.
Proof.
  assert (forall i v se s, maxSlots (settle i v se s) = maxSlots s) as Hse.
  { intros i v se s0. unfold settle. destruct (pubs s0 !! i) as [p|]; [|done]. by destruct (settled p). }
  assert (forall s, maxSlots (retireIfWedged s) = maxSlots s) as Hre.
  { intros s0. unfold retireIfWedged. destruct (oldest_sent s0); [|done]. by destruct (_ <? _). }
  intros [| | | | | | | | | | | | | | | | | | | | |? i tag e| |? ex rk mid|? tag| | |]; simpl; rewrite ?Hre, ?Hse; try done.
  - unfold send_failed. rewrite Hse. by case_decide.
  - unfold markReturned. by destruct (foldr _ _ _) as [[? ?]|].
  - unfold resolve. destruct (pending _ !! tag); [|done]. by rewrite Hse.
  - unfold shutdown. generalize (map snd (map_to_list (pending s0))). intros l.
    induction l as [|i l IH]; simpl; [done|]. by rewrite Hse.
Qed.

(** C13: a confirm slot is held by exactly the publications admitted and not yet
    settled, also those whose caller stopped waiting, so there are never more
    than [MaxOutstandingConfirms] of them, and never more than that many confirms
    outstanding. No two publications share a place on the wire. *)
Theorem slots_account (n : nat) (d : Z) (s : pubChannel) :
  rtc step (newPubChannel n d) s ->
  slots s = held (pubs s) /\ (slots s <= n)%nat /\ (size (pending s) <= n)%nat /\ NoDup (wire s).
Proof.
  intros Hr. pose proof (inv_reachable_pub n d s Hr) as H.
  assert (maxSlots s = n) as Hn.
  { revert Hr. apply (rtc_invariant step (fun s => maxSlots s = n)); [|done].
    intros a b Hab <-. by apply maxSlots_step. }
  pose proof (pending_held s H). pose proof (inv_slots s H). pose proof (inv_max s H).
  split_and!; [done|lia|lia|apply H].
Qed.


(** *** Attribution of returns *)

Lemma mark_iter_none s ex rk mid l t i :
  foldr (mark_iter s ex rk mid) None l = None -> (t, i) ∈ l -> return_matches s ex rk mid i = false.
Proof.
  induction l as [|[t1 i1] l IH]; simpl; [by intros _ ?%elem_of_nil|].
  unfold mark_iter at 1. destruct (foldr _ None l) as [[t0 i0]|] eqn:E; [by destruct (_ && _)|].
  rewrite andb_true_r. destruct (return_matches s ex rk mid i1) eqn:Em; [done|].
  intros _ [[= -> ->]|Hin]%elem_of_cons; [done|]. by apply IH.
Qed.

Lemma mark_iter_min s ex rk mid l t i :
  foldr (mark_iter s ex rk mid) None l = Some (t, i) ->
  return_matches s ex rk mid i = true /\
  forall t' i', (t', i') ∈ l -> return_matches s ex rk mid i' = true -> (t <= t')%nat.
Proof.
  revert t i. induction l as [|[t1 i1] l IH]; simpl; intros t i; [done|].
  unfold mark_iter at 1. destruct (foldr _ None l) as [[t0 i0]|] eqn:E.
  - destruct (IH t0 i0 eq_refl) as [Hm Hmin].
    destruct (return_matches s ex rk mid i1) eqn:Em; simpl; [destruct (Nat.ltb_spec t1 t0)|];
      intros [= <- <-]; (split; [done|]); intros t' i' [[= -> ->]|Hin]%elem_of_cons Hm'; try lia; try congruence;
      specialize (Hmin _ _ Hin Hm'); lia.
  - destruct (return_matches s ex rk mid i1) eqn:Em; simpl; [|done]. intros [= <- <-]. split; [done|].
    intros t' i' [[= -> ->]|Hin]%elem_of_cons Hm'; [lia|].
    rewrite (mark_iter_none _ _ _ _ _ _ _ E Hin) in Hm'. done.
Qed.

(** A basic.return marks one publication, the one with the smallest tag
    among the mandatory publications still awaiting their confirm that carry
    the returned message id, exchange and routing key and are not marked yet;
    with none such, nothing changes. *)
Lemma return_attribution (s : pubChannel) (ex rk mid : string) :
  (exists t i, pending s !! t = Some i /\ return_matches s ex rk mid i = true /\
     (forall t' i', pending s !! t' = Some i' -> return_matches s ex rk mid i' = true -> (t <= t')%nat) /\
     markReturned ex rk mid s = upd i with_returned s) \/
  ((forall t i, pending s !! t = Some i -> return_matches s ex rk mid i = false) /\
   markReturned ex rk mid s = s).
Proof.
  unfold markReturned. destruct (foldr _ _ _) as [[t i]|] eqn:E.
  - left. exists t, i. pose proof (mark_iter_pending _ _ _ _ _ _ _ E) as Hin%elem_of_map_to_list.
    destruct (mark_iter_min _ _ _ _ _ _ _ E) as [Hm Hmin]. split_and!; try done.
    intros t' i' Hi'%elem_of_map_to_list. by apply Hmin.
  - right. split; [|done]. intros t i Hi%elem_of_map_to_list. by eapply mark_iter_none.
Qed.

(** ** A sample run: one publication, written, confirmed and returned, and then
    the channel closes. *)
Module Sample.

Definition s0 := newPubChannel 1 (5 * Second).
Definition s1 := set_pubs (pubs s0 ++ [new_publication "bus" "k" true "id" "u"]) s0.
Definition s2 := set_slots (S (slots s1)) (upd 0 with_admitted s1).
Definition s3 := set_writer (WGot 0) (upd 0 (with_phase PHanded) s2).
Definition s4 := set_writer (WChecked 0) s3.
Definition s5 := set_writer (WOpen 0) s4.
Definition s6 := set_writer (WRegistered 0 1) (set_pending (<[1%nat := 0%nat]> (pending s5)) s5).
Definition s7 := set_writer (WWriting 0 1) (upd 0 with_committed s6).
Definition s8 := set_writer (WWritten 0) (set_wire (wire s7 ++ [0%nat]) s7).
Definition s9 := set_writer WIdle (upd 0 (with_sentAt (now s8)) s8).
Definition s10 := log_event (BConfirm 1 true) (resolve 1 true s9).
Definition s11 := returns 0 None s10.
Definition s12 := set_tclosed s11.
Definition s13 := shutdown "gone" s12.

Definition p11 : pendingPublish := {|
  exchange := "bus"; key := "k"; mandatory := true; messageId := "id"; phase_of := PDone None; admitted := true;
  committed := true; returned := false; sentAt := Some 0; settled := Some (None, None) |}.

Lemma run11 : rtc step s0 s11.
Proof.
  eapply rtc_l; [apply (call s0 "bus" "k" true "id" "u")|]. fold s1.
  eapply rtc_l; [apply (slot_taken s1 0); [done|simpl; lia]|]. fold s2.
  eapply rtc_l; [by apply (handed s2 0)|]. fold s3.
  eapply rtc_l; [by apply (writer_checked s3 0)|]. fold s4.
  eapply rtc_l; [by apply (writer_open s4 0)|]. fold s5.
  eapply rtc_l; [by apply (writer_register s5 0)|]. change (rtc step s6 s11).
  eapply rtc_l; [by apply (writer_commit s6 0 1)|]. fold s7.
  eapply rtc_l; [by apply (writer_transmit s7 0 1)|]. fold s8.
  eapply rtc_l; [by apply (writer_sent s8 0)|]. fold s9.
  eapply rtc_l; [by apply (loop_confirm s9 1 true); [done|simpl; lia]|]. fold s10.
  apply rtc_once.
  apply (see_done s10 0 (with_phase PHanded p11) None None); [reflexivity|by left|reflexivity].
Qed.

Lemma run13 : rtc step s0 s13.
Proof.
  transitivity s11; [apply run11|].
  eapply rtc_l; [apply (transport_closed s11)|]. fold s12. apply rtc_once. by apply (loop_closed s12).
Qed.

End Sample.

Lemma publish_result_witness :
  exists t, (1 <= t)%nat /\ wire Sample.s11 !! pred t = Some 0%nat /\ BConfirm t true ∈ events Sample.s11 /\
    returned Sample.p11 = false.
Proof.
  apply (publish_result 1 (5 * Second) Sample.s11 0 Sample.p11 None); [apply Sample.run11|reflexivity|reflexivity].
Defined.

Lemma slots_account_witness :
  slots Sample.s11 = held (pubs Sample.s11) /\ (slots Sample.s11 <= 1)%nat /\ (size (pending Sample.s11) <= 1)%nat /\
  NoDup (wire Sample.s11).
Proof. apply (slots_account 1 (5 * Second)). apply Sample.run11. Defined.

