(* ===== verification/Names.v ===== *)
(** * Names: service, method and routing-key names (client.go, options.go)

    The splitting of qualified names at their last dot, the routing keys and
    queue names built from them, and the search for the contract an instance
    name serves. *)
From S2P Require Import Prelude GoStrings Errors.

Local Open Scope Z_scope.

Definition dot : ascii := "."%char.

(** [splitMethodName]: [None] is [ok == false]. *)
Definition splitMethodName (full : string) : option (string * string) :=
  let i := LastIndexByte full dot in
  if (i <=? 0) || (i =? slen full - 1) then None
  else Some (slice_to full i, slice_from full (i + 1)).

Definition lastSegment (s : string) : string := slice_from s (LastIndexByte s dot + 1).

(** [validInstance]: an instance name is one routing-key word. *)
Definition instance_forbidden : string :=
  ".*# " +:+ String "009" (String "013" (String "010" "")).
Definition validInstance (name : string) : option err :=
  if bool_decide (name <> "") && ContainsAny name instance_forbidden
  then Some (EText ("protobus: instance name " +:+ Quote name +:+ " must be a single routing-key word"))
  else None.

(** The name a service or client runs under: [NewClient] and [Register]. *)
Definition runtimeName (contract instance : string) : string :=
  if decide (instance = "") then contract else contract +:+ "." +:+ instance.

Definition routingKey (runtime method : string) : string := "REQUEST." +:+ runtime +:+ "." +:+ method.

(** [resolveContract]: [services] says whether a name is a service of the
    schema. The loop drops the last segment each round, so the length of the
    name is enough fuel. *)
Fixpoint resolve_fuel (fuel : nat) (services : string -> bool) (name : string) : option string :=
  match fuel with
  | O => None
  | S fuel' =>
      if services name then Some name
      else let i := LastIndexByte name dot in
           if i <=? 0 then None else resolve_fuel fuel' services (slice_to name i)
  end.
Definition resolveContract (services : string -> bool) (runtime : string) : option string :=
  resolve_fuel (S (String.length runtime)) services runtime.

(** ** Lemmas *)

Lemma slen_nonneg s : 0 <= slen s.
Proof. unfold slen. lia. Qed.

Lemma string_app_cons c a b : String c a +:+ b = String c (a +:+ b).
Proof. reflexivity. Qed.

Lemma slen_app a b : slen (a +:+ b) = slen a + slen b.
Proof.
  unfold slen. rewrite <-Nat2Z.inj_add. f_equal. induction a as [|c a IH]; [done|].
  rewrite string_app_cons. simpl. by rewrite IH.
Qed.

Lemma string_app_assoc a b c : (a +:+ b) +:+ c = a +:+ b +:+ c.
Proof. induction a as [|x a IH]; [done|]. rewrite !string_app_cons. by f_equal. Qed.

Lemma LastIndexByte_absent c s : contains_char c s = false -> LastIndexByte s c = -1.
Proof.
  induction s as [|x s IH]; simpl; [done|]. intros [Hx Hs]%orb_false_elim. rewrite (IH Hs). simpl. by rewrite Hx.
Qed.

Lemma LastIndexByte_app c s m : contains_char c m = false -> LastIndexByte (s +:+ String c m) c = slen s.
Proof.
  intros Hm. induction s as [|x s IH]; [change ("" +:+ String c m) with (String c m)|rewrite string_app_cons]; simpl.
  - rewrite (LastIndexByte_absent c m Hm). simpl. by rewrite Ascii.eqb_refl.
  - rewrite IH.
    pose proof (slen_nonneg s). destruct (Z.leb_spec 0 (slen s)); [|lia]. unfold slen. simpl. lia.
Qed.

Lemma substring_all s : String.substring 0 (String.length s) s = s.
Proof. induction s as [|c s IH]; simpl; [done|]. by rewrite IH. Qed.

Lemma slice_to_app a b : slice_to (a +:+ b) (slen a) = a.
Proof.
  unfold slice_to, slen. rewrite Nat2Z.id. induction a as [|c a IH]; [by destruct b|].
  rewrite string_app_cons. simpl. f_equal. exact IH.
Qed.

Lemma slice_from_app a b : slice_from (a +:+ b) (slen a) = b.
Proof.
  unfold slice_from, slen. rewrite Nat2Z.id. induction a as [|c a IH].
  - simpl. change ("" +:+ b) with b. rewrite Nat.sub_0_r. apply substring_all.
  - rewrite string_app_cons. exact IH.
Qed.

Lemma lastSegment_app s m : contains_char dot m = false -> lastSegment (s +:+ "." +:+ m) = m.
Proof.
  intros Hm. unfold lastSegment. change ("." +:+ m) with (String dot m).
  rewrite (LastIndexByte_app dot s m Hm).
  replace (s +:+ String dot m) with ((s +:+ ".") +:+ m) by (by rewrite string_app_assoc).
  replace (slen s + 1) with (slen (s +:+ ".")) by (by rewrite slen_app).
  apply slice_from_app.
Qed.

Lemma splitMethodName_app s m :
  s <> "" -> m <> "" -> contains_char dot m = false -> splitMethodName (s +:+ "." +:+ m) = Some (s, m).
Proof.
  intros Hs Hne Hm. pose proof (lastSegment_app s m Hm) as Hl. unfold lastSegment in Hl.
  unfold splitMethodName. change ("." +:+ m) with (String dot m) in *.
  rewrite (LastIndexByte_app dot s m Hm) in *.
  assert (0 < slen s) by (unfold slen; destruct s; [done|simpl; lia]).
  assert (0 < slen m) by (unfold slen; destruct m; [done|simpl; lia]).
  assert (slen (s +:+ String dot m) = slen s + slen m + 1) as Hlen by (rewrite slen_app; unfold slen; simpl; lia).
  destruct (Z.leb_spec (slen s) 0); [lia|]. rewrite Hlen.
  destruct (Z.eqb_spec (slen s) (slen s + slen m + 1 - 1)); [lia|]. simpl.
  by rewrite Hl, slice_to_app.
Qed.

Lemma LastIndexByte_bound c s : -1 <= LastIndexByte s c < slen s.
Proof.
  induction s as [|x s IH]; simpl; [done|]. unfold slen in *. simpl.
  destruct (Z.leb_spec 0 (LastIndexByte s c)); [lia|]. destruct (Ascii.eqb x c); lia.
Qed.

Lemma LastIndexByte_spec c s i :
  LastIndexByte s c = i -> 0 <= i ->
  s = slice_to s i +:+ String c (slice_from s (i + 1)) /\ contains_char c (slice_from s (i + 1)) = false.
Proof.
  revert i. induction s as [|x s IH]; intros i; simpl; [lia|].
  pose proof (LastIndexByte_bound c s) as Hb. unfold slice_to, slice_from, slen in *.
  destruct (Z.leb_spec 0 (LastIndexByte s c)).
  - intros <- _. destruct (IH _ eq_refl ltac:(lia)) as [E1 E2].
    replace (Z.to_nat (LastIndexByte s c + 1)) with (S (Z.to_nat (LastIndexByte s c))) in * by lia.
    replace (Z.to_nat (LastIndexByte s c + 1 + 1)) with (S (S (Z.to_nat (LastIndexByte s c)))) by lia.
    cbn [String.substring String.length Nat.sub] in *. split; [|exact E2]. rewrite string_app_cons. f_equal. exact E1.
  - destruct (Ascii.eqb_spec x c) as [->|]; [|lia]. intros <- _.
    change (Z.to_nat (0 + 1)) with 1%nat. cbn [String.substring String.length Nat.sub]. rewrite Nat.sub_0_r.
    rewrite substring_all. simpl Z.to_nat. destruct s as [|y s]; cbn [String.substring String.append].
    + done.
    + split; [done|]. destruct (contains_char c (String y s)) eqn:Ec; [|done]. exfalso.
      clear IH Hb. assert (forall s, contains_char c s = true -> 0 <= LastIndexByte s c) as Hin.
      { intros s'. induction s' as [|z s' IH]; simpl; [done|]. intros [Hz|Hz]%orb_true_iff.
        - destruct (Z.leb_spec 0 (LastIndexByte s' c)); [lia|]. by rewrite Hz.
        - specialize (IH Hz). destruct (Z.leb_spec 0 (LastIndexByte s' c)); lia. }
      specialize (Hin _ Ec). lia.
Qed.

(** A split name is its two parts again. *)
Lemma splitMethodName_spec full s m :
  splitMethodName full = Some (s, m) ->
  full = s +:+ "." +:+ m /\ s <> "" /\ m <> "" /\ contains_char dot m = false.
Proof.
  unfold splitMethodName. destruct (Z.leb_spec (LastIndexByte full dot) 0) as [|Hi]; [done|].
  destruct (Z.eqb_spec (LastIndexByte full dot) (slen full - 1)) as [|Hne]; [done|]. intros [= <- <-].
  destruct (LastIndexByte_spec dot full _ eq_refl ltac:(lia)) as [E1 E2].
  set (a := slice_to full _) in *. set (b := slice_from full _) in *.
  split; [exact E1|]. pose proof (LastIndexByte_app dot a b E2) as Hl. rewrite <-E1 in Hl.
  split_and!; [| |done].
  - intros Ea. rewrite Ea in Hl. change (slen "") with 0 in Hl. lia.
  - intros Eb. pose proof (f_equal slen E1) as Hlen. rewrite slen_app, Eb in Hlen. unfold slen at 3 in Hlen.
    simpl in Hlen. lia.
Qed.

Lemma length_slice_to s i : 0 <= i < slen s -> String.length (slice_to s i) = Z.to_nat i.
Proof.
  intros Hi. unfold slice_to, slen in *.
  assert (forall n t, (n <= String.length t)%nat -> String.length (String.substring 0 n t) = n) as H.
  { clear. induction n as [|n IH]; intros [|c t] Hn; simpl in *; try lia. f_equal. apply IH. lia. }
  apply H. lia.
Qed.

(** More fuel than the name has bytes changes nothing. *)
Lemma resolve_fuel_enough services n k name :
  (String.length name < n)%nat -> (n <= k)%nat -> resolve_fuel k services name = resolve_fuel n services name.
Proof.
  revert k name. induction n as [|n IH]; intros [|k] name Hl Hk; try lia. simpl.
  destruct (services name); [done|]. destruct (Z.leb_spec (LastIndexByte name dot) 0); [done|].
  pose proof (LastIndexByte_bound dot name) as Hb. apply IH; [|lia].
  rewrite length_slice_to by lia. unfold slen in Hb. lia.
Qed.

(** [resolveContract] is the source's loop: its fuel never runs out. *)
Lemma resolveContract_loop services name :
  resolveContract services name =
    if services name then Some name
    else let i := LastIndexByte name dot in
         if i <=? 0 then None else resolveContract services (slice_to name i).
Proof.
  unfold resolveContract at 1. change (resolve_fuel (S ?n) services name) with
    (if services name then Some name
     else let i := LastIndexByte name dot in
          if i <=? 0 then None else resolve_fuel n services (slice_to name i)). cbv beta.
  destruct (services name); [done|]. cbv zeta. unfold resolveContract.
  destruct (Z.leb_spec (LastIndexByte name dot) 0); [done|].
  pose proof (LastIndexByte_bound dot name) as Hb.
  apply resolve_fuel_enough; rewrite length_slice_to by lia; unfold slen in Hb; lia.
Qed.

(** An instance resolves to the contract it serves. *)
Lemma resolveContract_instance services contract inst :
  services contract = true -> services (contract +:+ "." +:+ inst) = false ->
  contract <> "" -> contains_char dot inst = false ->
  resolveContract services (contract +:+ "." +:+ inst) = Some contract.
Proof.
  intros Hc Hi Hne Hd. rewrite resolveContract_loop, Hi.
  change (contract +:+ "." +:+ inst) with (contract +:+ String dot inst). cbv zeta.
  rewrite LastIndexByte_app, slice_to_app by done.
  destruct (Z.leb_spec (slen contract) 0) as [Hz|]; [|by rewrite resolveContract_loop, Hc].
  destruct contract; [done|]. unfold slen in Hz. simpl in Hz. lia.
Qed.
