(* ===== verification/Consumer.v ===== *)
(** * Consumer: settlement of deliveries and the consume loop (consumer.go)

    [Settlement] is the per-delivery half of the file: [process], [run],
    [settle] and everything they publish. A run is a trace of the actions the
    code takes towards the broker, in order, each with its outcome; the broker's
    answers are an oracle, so every failure at every point is covered.
    Logging is left out.

    [Slots] is the consume loop: deliveries, handler slots and handlers that
    outlive their delivery, as a step relation. *)
From S2P Require Import Prelude GoStrings Headers Errors.

Local Open Scope Z_scope.

(** ** Data *)

(** [reply] and [errReply]: [None] is nil. *)
Record handlerResult := {
  reply : option bytes;
  herr : option err;
  errReply : option bytes;
  handled : bool
}.

Record retrySpec := {
  maxRetries : Z;
  rexchange : string;
  rqueue : string;
  dlq : string
}.

Record consumerSpec := {
  (* the queue consumed: queueName() *)
  squeue : string;
  lateAck : bool;
  prefetch : Z;
  concurrency : Z;
  stimeout : Z;
  retry : option retrySpec;
  dlqHandled : bool;
  (* nil, or the caller-facing error for a delivery *)
  timeoutReply : option (Delivery -> err -> bytes);
  callbacksExchange : string
}.

(** ** Settlement *)

(** How a delivery is settled. *)
Inductive settlement := Ack | Requeue | Reject.

#[export] Instance settlement_eq_dec : EqDecision settlement.
Proof. solve_decision. Defined.

(** What the consumer does towards the broker, with the outcome. *)
Inductive action :=
| Publish (exchange key : string) (mandatory : bool) (msg : Publishing) (r : option err)
| Settle (how : settlement) (r : option err).

(** The broker's answers: to the publishes and to the settlements, by their
    position in the trace, and the clock. *)
Record oracle := {
  publish_answer : nat -> option err;
  settle_answer : nat -> option err;
  now_millis : Z
}.

Section Settlement.
Context {A : GoArch} (O : oracle) (spec : consumerSpec).

(** Code that acts on the broker extends the trace. *)
Definition M (X : Type) : Type := list action -> list action * X.

#[local] Instance M_ret : MRet M := fun X x t => (t, x).
#[local] Instance M_bind : MBind M := fun X Y f m t => let '(t', x) := m t in f x t'.

Definition pub_publish (ex key : string) (mandatory : bool) (msg : Publishing) : M (option err) :=
  fun t => let r := publish_answer O (length t) in (t ++ [Publish ex key mandatory msg r], r).

Definition settle_as (how : settlement) : M (option err) :=
  fun t => let r := settle_answer O (length t) in (t ++ [Settle how r], r).

(** *** Publishing *)

Definition publishReply (d : Delivery) (body : bytes) (headers : Table) : M (option err) :=
  pub_publish (callbacksExchange spec) (ReplyTo d) false {|
    PHeaders := headers; PContentType := contentTypeOctetStream; PContentEncoding := "";
    PDeliveryMode := 0; PPriority := 0; PCorrelationId := CorrelationId d; PReplyTo := "";
    PMessageId := ""; PTimestamp := 0; PType := ""; PAppId := ""; PBody := body |}.

(** [replyError]: best effort. *)
Definition replyError (d : Delivery) (body : option bytes) : M unit :=
  match body with
  | None => mret tt
  | Some b => if decide (ReplyTo d = "") then mret tt else (_ ← publishReply d b ∅; mret tt)
  end.

Definition originalRoutingKey (d : Delivery) : string := RoutingKey d.

Definition republishedHeaders (d : Delivery) : Table := delete "BCC" (delete "CC" (Headers d)).

Definition firstFailure (d : Delivery) : hval :=
  match Headers d !! headerFirstFailure with
  | Some v => match headerInt v with
              | Some n => if n =? 0 then VInt64 (now_millis O) else v
              | None => VInt64 (now_millis O)
              end
  | None => VInt64 (now_millis O)
  end.

Definition retry_headers (d : Delivery) (attempt : Z) (cause : option err) : Table :=
  <[headerLastError := VString (safeErrorSummary cause)]>
  (<[headerFirstFailure := firstFailure d]>
  (<[headerOriginalKey := VString (originalRoutingKey d)]>
  (<[headerRetryCount := intHeader (attempt + 1)]> (republishedHeaders d)))).

(** [carriedProperties] with the fields a copy sets. *)
Definition copy_of (d : Delivery) (headers : Table) (replyTo : string) : Publishing :=
  let m := carriedProperties d in {|
    PHeaders := headers; PContentType := PContentType m; PContentEncoding := PContentEncoding m;
    PDeliveryMode := Persistent; PPriority := PPriority m; PCorrelationId := CorrelationId d;
    PReplyTo := replyTo; PMessageId := MessageId d; PTimestamp := PTimestamp m; PType := PType m;
    PAppId := PAppId m; PBody := Body d |}.

Definition publishRetry (rs : retrySpec) (d : Delivery) (attempt : Z) (cause : option err) : M (option err) :=
  pub_publish (rexchange rs) (originalRoutingKey d) true
    (copy_of d (retry_headers d attempt cause) (ReplyTo d)).

Definition dead_letter_headers (d : Delivery) (queue : string) (attempt : Z) (cause : option err) : Table :=
  <[headerLastError := VString (safeErrorSummary cause)]>
  (<[headerDeadLetterTime := VInt64 (now_millis O)]>
  (<[headerFirstFailure := firstFailure d]>
  (<[headerOriginalQueue := VString queue]>
  (<[headerOriginalKey := VString (originalRoutingKey d)]>
  (<[headerRetryCount := intHeader attempt]> (republishedHeaders d)))))).

Definition publishDeadLetter (rs : retrySpec) (d : Delivery) (attempt : Z) (cause : option err) : M (option err) :=
  pub_publish "" (dlq rs) true (copy_of d (dead_letter_headers d (squeue spec) attempt cause) "").

(** *** Settling *)

Definition ack : M unit := _ ← settle_as Ack; mret tt.

Definition requeueLater : M unit :=
  if lateAck spec then (_ ← settle_as Requeue; mret tt) else mret tt.

Definition deadLetter (rs : retrySpec) (d : Delivery) (attempt : Z) (res : handlerResult) : M unit :=
  _ ← replyError d (errReply res);
  r ← publishDeadLetter rs d attempt (herr res);
  match r with Some _ => requeueLater | None => ack end.

Definition reject (d : Delivery) (res : handlerResult) : M unit :=
  _ ← replyError d (errReply res);
  _ ← settle_as Reject;
  mret tt.

Definition settle (d : Delivery) (res : handlerResult) : M unit :=
  match herr res with
  | None =>
      r ← match reply res with
          | Some b => if decide (ReplyTo d = "") then mret None else publishReply d b ∅
          | None => mret None
          end;
      match r with
      | Some _ => requeueLater
      | None => if lateAck spec then ack else mret tt
      end
  | Some _ =>
      if negb (lateAck spec) then replyError d (errReply res)
      else match retry spec with
      | Some rs =>
          if negb (handled res) then
            let attempt := retryCount (Headers d) in
            if attempt <? maxRetries rs then
              r ← publishRetry rs d attempt (herr res);
              match r with Some _ => requeueLater | None => ack end
            else deadLetter rs d attempt res
          else if dlqHandled spec then deadLetter rs d (retryCount (Headers d)) res
          else reject d res
      | None => reject d res
      end
  end.

(** *** Running the handler *)

(** How a handler goroutine ends. *)
Inductive handler_exit := Returned (r : handlerResult) | Panicked (value : string).

(** Which case of [run]'s select fired. *)
Inductive select_case := CaseDone | CaseDisarmed | CaseTimer.

(** One run: how its handler ends (at once, or long after it was abandoned) and
    the case that fires. *)
Record run_event := { exit_of : handler_exit; fired : select_case }.

Definition failed_with (d : Delivery) (e : err) : handlerResult :=
  {| reply := None; herr := Some e; errReply := (fun f => f d e) <$> timeoutReply spec; handled := false |}.

Definition processingTimeoutError (d : Delivery) : err := EProcessingTimeout (CorrelationId d) (stimeout spec).

(** What the handler's goroutine puts on [done]. *)
Definition exit_result (d : Delivery) (x : handler_exit) : handlerResult :=
  match x with
  | Returned r => r
  | Panicked v => failed_with d (EText ("protobus: handler panicked: " +:+ v))
  end.

(** Whether the processing timeout ended the attempt: there is one, and its
    timer fired first. *)
Definition timed_out (ev : run_event) : bool :=
  (0 <? stimeout spec) && match fired ev with CaseTimer => true | _ => false end.

Definition run (d : Delivery) (ev : run_event) : handlerResult :=
  if timed_out ev then failed_with d (processingTimeoutError d) else exit_result d (exit_of ev).

(** [context.Cause(ctx)] when [run] has returned: the first cancellation wins,
    be it the caller's, the connection's or the timeout's own. *)
Definition cause_of (cancelled : option err) (d : Delivery) (ev : run_event) : option err :=
  match cancelled with
  | Some c => Some c
  | None => if timed_out ev then Some (processingTimeoutError d) else None
  end.

Definition cause_is (s : sentinel) (c : option err) : bool :=
  match c with Some e => is_sentinel s e | None => false end.

(** The handler runs after the early ack, and only when it succeeded; [act] is
    what it published itself (the frames of a stream). *)
Definition process (d : Delivery) (act : list action) (ev : run_event) (cancelled : option err) : M bool :=
  r ← (if lateAck spec then mret None else settle_as Ack);
  match r with
  | Some _ => mret false
  | None =>
      _ ← ((fun t => (t ++ act, tt)) : M unit);
      let res := run d ev in
      let cause := cause_of cancelled d ev in
      if cause_is ErrCancelled cause then
        (_ ← (if lateAck spec then ack else mret tt); mret true)
      else if cause_is ErrDisconnected cause || cause_is ErrClosed cause then mret true
      else (_ ← settle d res; mret true)
  end.

End Settlement.

(** ** Properties of settlement *)

(** A copy of the delivery as a retry or dead-letter publish carries it. *)
Definition is_copy (d : Delivery) (m : Publishing) : Prop :=
  PBody m = Body d /\ PMessageId m = MessageId d /\ PCorrelationId m = CorrelationId d /\
  PDeliveryMode m = Persistent.

Definition is_publish (a : action) : bool := match a with Publish _ _ _ _ _ => true | Settle _ _ => false end.

Definition reply_due (d : Delivery) (res : handlerResult) : bool :=
  match reply res with Some _ => bool_decide (ReplyTo d <> "") | None => false end.

(** What justifies settling a delivery of a late-ack consumer as [how], given
    what was published before. *)
Definition justified (spec : consumerSpec) (d : Delivery) (res : handlerResult) (pubs : list action)
    (how : settlement) : Prop :=
  match how with
  | Ack =>
      (herr res = None /\
       (reply_due d res = true -> exists m b, reply res = Some b /\ PBody m = b /\ PCorrelationId m = CorrelationId d /\
          pubs = [Publish (callbacksExchange spec) (ReplyTo d) false m None])) \/
      (herr res <> None /\ exists rs m, retry spec = Some rs /\ is_copy d m /\
         (last pubs = Some (Publish (rexchange rs) (RoutingKey d) true m None) \/
          last pubs = Some (Publish "" (dlq rs) true m None)))
  | Requeue => exists ex key man m e, last pubs = Some (Publish ex key man m (Some e))
  | Reject => herr res <> None /\ (retry spec = None \/ handled res = true /\ dlqHandled spec = false)
  end.

(** Run the monadic code on the trace. *)
Ltac run_trace :=
  unfold replyError, ack, requeueLater, deadLetter, reject, publishReply, publishRetry, publishDeadLetter,
    pub_publish, settle_as, mbind, M_bind, mret, M_ret in *; cbn beta iota zeta in *.

Section SettlementProps.
Context {A : GoArch} (O : oracle) (spec : consumerSpec).

Lemma replyError_spec d b t :
  replyError O spec d b t = (t, tt) \/
  exists m r, replyError O spec d b t
    = (t ++ [Publish (callbacksExchange spec) (ReplyTo d) false m r], tt) /\ PHeaders m = ∅.
Proof.
  unfold replyError. destruct b as [b|]; [|by left]. case_decide; [by left|]. right. run_trace.
  eexists _, _. split; [done|]. done.
Qed.

Lemma deadLetter_spec rs d n res t :
  lateAck spec = true -> retry spec = Some rs -> herr res <> None ->
  exists pubs how r, deadLetter O spec rs d n res t = (t ++ pubs ++ [Settle how r], tt) /\
    forallb is_publish pubs = true /\ justified spec d res pubs how.
Proof.
  intros Hl Hr He. unfold deadLetter, mbind, M_bind.
  assert (forall t1 pre, t1 = t ++ pre -> forallb is_publish pre = true ->
    exists pubs how r,
     (let '(t', x) := publishDeadLetter O spec rs d n (herr res) t1 in
      match x with Some _ => requeueLater O spec | None => ack O end t') = (t ++ pubs ++ [Settle how r], tt) /\
     forallb is_publish pubs = true /\ justified spec d res pubs how) as H.
  { intros t1 pre -> Hpre. run_trace. rewrite Hl.
    destruct (publish_answer O (length (t ++ pre))) as [e|]; cbn beta iota zeta.
    - eexists (pre ++ [_]), Requeue, _. split; [by rewrite <-!app_assoc|].
      rewrite forallb_app, Hpre. split; [done|]. simpl. rewrite last_snoc. by eexists _, _, _, _, _.
    - eexists (pre ++ [_]), Ack, _. split; [by rewrite <-!app_assoc|].
      rewrite forallb_app, Hpre. split; [done|]. right. split; [done|]. eexists rs, _. split; [done|].
      rewrite last_snoc. split; [|by right]. done. }
  destruct (replyError_spec d (errReply res) t) as [E|(m & r & E & _)]; rewrite E; cbn beta iota zeta.
  - apply (H _ []); [by rewrite app_nil_r|done].
  - by apply (H _ [Publish (callbacksExchange spec) (ReplyTo d) false m r]).
Qed.

Lemma reject_spec d res t :
  herr res <> None -> (retry spec = None \/ handled res = true /\ dlqHandled spec = false) ->
  exists pubs how r, reject O spec d res t = (t ++ pubs ++ [Settle how r], tt) /\
    forallb is_publish pubs = true /\ justified spec d res pubs how.
Proof.
  intros He Hr. unfold reject, mbind, M_bind.
  destruct (replyError_spec d (errReply res) t) as [E|(m & r & E & _)]; rewrite E; run_trace.
  - by eexists [], Reject, _.
  - eexists [_], Reject, _. split; [by rewrite <-app_assoc|]. done.
Qed.

Lemma settle_late d res t :
  lateAck spec = true ->
  exists pubs how r, settle O spec d res t = (t ++ pubs ++ [Settle how r], tt) /\
    forallb is_publish pubs = true /\ justified spec d res pubs how.
Proof.
  intros Hl. unfold settle. destruct (herr res) as [e|] eqn:He.
  - rewrite Hl. cbn [negb]; cbn iota.
    destruct (retry spec) as [rs|] eqn:Hr; [|apply reject_spec; naive_solver].
    destruct (handled res) eqn:Hh; cbn [negb]; cbn iota.
    { destruct (dlqHandled spec) eqn:Hd; [apply deadLetter_spec|apply reject_spec]; naive_solver. }
    destruct (_ <? _); [|apply deadLetter_spec; naive_solver].
    run_trace. rewrite Hl. destruct (publish_answer O (length t)) as [e'|]; cbn beta iota zeta.
    + eexists [_], Requeue, _. split; [by rewrite <-app_assoc|]. split; [done|]. by eexists _, _, _, _, _.
    + eexists [_], Ack, _. split; [by rewrite <-app_assoc|]. split; [done|]. right. split; [congruence|].
      eexists rs, _. split; [done|]. split; [|by left]. done.
  - assert (reply_due d res = false -> exists pubs how r, (t ++ [Settle Ack (settle_answer O (length t))], tt)
      = (t ++ pubs ++ [Settle how r], tt) /\ forallb is_publish pubs = true /\ justified spec d res pubs how) as Hno.
    { intros Hd. eexists [], Ack, _. split; [done|]. split; [done|]. left. split; [done|]. congruence. }
    rewrite Hl. destruct (reply res) as [b|] eqn:Eb.
    + case_decide as Hrt; run_trace.
      { apply Hno. unfold reply_due. rewrite Eb. by rewrite bool_decide_false by naive_solver. }
      rewrite Hl. destruct (publish_answer O (length t)) as [e'|]; cbn beta iota zeta.
      * eexists [_], Requeue, _. split; [by rewrite <-app_assoc|]. split; [done|]. by eexists _, _, _, _, _.
      * eexists [_], Ack, _. split; [by rewrite <-app_assoc|]. split; [done|]. left. split; [done|].
        intros _. eexists _, b. split; [done|]. split; [|split; [|reflexivity]]; done.
    + run_trace. apply Hno. unfold reply_due. by rewrite Eb.
Qed.

(** Late ack. *)
Lemma process_late (d : Delivery) (act : list action) (ev : run_event) (cancelled : option err) :
  lateAck spec = true ->
  let cause := cause_of spec cancelled d ev in
  let t := fst (process O spec d act ev cancelled []) in
  (cause_is ErrCancelled cause = true /\ exists r, t = act ++ [Settle Ack r]) \/
  (cause_is ErrDisconnected cause || cause_is ErrClosed cause = true /\ t = act) \/
  exists pubs how r, t = act ++ pubs ++ [Settle how r] /\ forallb is_publish pubs = true /\
    justified spec d (run spec d ev) pubs how.
Proof.
  intros Hl cause t. subst t. unfold process, mbind, M_bind, mret, M_ret. rewrite Hl. cbn beta iota zeta.
  fold cause. rewrite app_nil_l.
  destruct (cause_is ErrCancelled cause) eqn:E1; [left; split; [done|]; by eexists|].
  destruct (cause_is ErrDisconnected cause || cause_is ErrClosed cause) eqn:E2; [by right; left|].
  right; right. destruct (settle_late d (run spec d ev) act Hl) as (pubs & how & r & -> & Hp & Hj).
  by exists pubs, how, r.
Qed.

Lemma settle_early d res t :
  lateAck spec = false -> exists pubs, fst (settle O spec d res t) = t ++ pubs /\ forallb is_publish pubs = true.
Proof.
  intros Hl. unfold settle. rewrite Hl. cbn [negb]; cbn iota. destruct (herr res).
  - destruct (replyError_spec d (errReply res) t) as [->|(m & r & -> & _)]; [exists []; by rewrite app_nil_r|].
    by eexists.
  - run_trace. rewrite Hl. destruct (reply res) as [b|]; [case_decide|]; cbn beta iota zeta;
      [exists []; by rewrite app_nil_r| |exists []; by rewrite app_nil_r].
    destruct (publish_answer O (length t)); by eexists [_].
Qed.

(** Early ack. *)
Lemma process_early (d : Delivery) (act : list action) (ev : run_event) (cancelled : option err) :
  lateAck spec = false ->
  exists r pubs, fst (process O spec d act ev cancelled []) = Settle Ack r :: pubs /\
    snd (process O spec d act ev cancelled []) = bool_decide (r = None) /\
    (r <> None -> pubs = []) /\
    (r = None -> exists own, pubs = act ++ own /\ forallb is_publish own = true).
Proof.
  intros Hl. unfold process, mbind, M_bind, mret, M_ret. rewrite Hl. unfold settle_as.
  destruct (settle_answer O (length (@nil action))) as [e|] eqn:E; cbn beta iota zeta; rewrite ?E; cbn.
  { by exists (Some e), []. }
  repeat case_match; simplify_eq/=.
  - exists None, act. split_and!; [done|done|done|]. intros _. exists []. by rewrite app_nil_r.
  - exists None, act. split_and!; [done|done|done|]. intros _. exists []. by rewrite app_nil_r.
  - match goal with H : settle ?o ?s ?d ?r ?t = _ |- _ =>
      destruct (settle_early d r t Hl) as (own & Hs & Hp); rewrite H in Hs end.
    simpl in Hs. subst. exists None, (act ++ own). split_and!; [done|done|done|]. intros _. by exists own.
Qed.

(** C17: a late-ack consumer settles every delivery exactly once, after
    everything it published for it, and never loses a message. Whatever the
    handler and the broker do, the trace is the handler's own publishes, then
    the consumer's, then one settlement: an ack only after a success whose reply
    (if one is due) the broker confirmed, or after the broker confirmed a copy on
    the retry exchange or the dead-letter queue; a requeue only after a failed
    publish; a reject only for an error the configuration does not keep. The
    exceptions: the caller cancelled (acked, nothing published), or the
    connection or the bus is gone (not settled: the broker redelivers). Early ack
    is at most once: the delivery is acknowledged first and never settled again,
    and if that ack fails the handler does not run and nothing is published. *)
Theorem process_settles (d : Delivery) (act : list action) (ev : run_event) (cancelled : option err) :
  let cause := cause_of spec cancelled d ev in
  let t := fst (process O spec d act ev cancelled []) in
  (lateAck spec = true ->
     (cause_is ErrCancelled cause = true /\ exists r, t = act ++ [Settle Ack r]) \/
     (cause_is ErrDisconnected cause || cause_is ErrClosed cause = true /\ t = act) \/
     exists pubs how r, t = act ++ pubs ++ [Settle how r] /\ forallb is_publish pubs = true /\
       justified spec d (run spec d ev) pubs how) /\
  (lateAck spec = false ->
     exists r pubs, t = Settle Ack r :: pubs /\
       snd (process O spec d act ev cancelled []) = bool_decide (r = None) /\
       (r <> None -> pubs = []) /\
       (r = None -> exists own, pubs = act ++ own /\ forallb is_publish own = true)).
Proof. split; [by apply process_late|by apply process_early]. Qed.

End SettlementProps.

(** *** Where copies go *)

(** The routes a consumer may publish a delivery to. *)
Definition own_route (spec : consumerSpec) (d : Delivery) (a : action) : Prop :=
  match a with
  | Settle _ _ => True
  | Publish ex key _ m _ =>
      PHeaders m !! "CC" = None /\ PHeaders m !! "BCC" = None /\
      ((ex = callbacksExchange spec /\ key = ReplyTo d) \/
       exists rs, retry spec = Some rs /\
         ((ex = rexchange rs /\ key = RoutingKey d) \/ (ex = "" /\ key = dlq rs /\ PReplyTo m = "")))
  end.

Section Routes.
Context {A : GoArch} (O : oracle) (spec : consumerSpec).

Lemma copy_headers_clean d (h : Table) :
  (forall k, k = "CC" \/ k = "BCC" -> h !! k = republishedHeaders d !! k) -> h !! "CC" = None /\ h !! "BCC" = None.
Proof.
  intros H. unfold republishedHeaders in H. split; rewrite H by auto.
  - by rewrite lookup_delete_ne, lookup_delete_eq.
  - by rewrite lookup_delete_eq.
Qed.

Lemma retry_headers_clean d n c : let h := retry_headers O d n c in h !! "CC" = None /\ h !! "BCC" = None.
Proof.
  simpl. apply (copy_headers_clean d). intros k Hk. unfold retry_headers.
  rewrite !lookup_insert_ne by (destruct Hk; subst; done). done.
Qed.

Lemma dead_letter_headers_clean d q n c :
  let h := dead_letter_headers O d q n c in h !! "CC" = None /\ h !! "BCC" = None.
Proof.
  simpl. apply (copy_headers_clean d). intros k Hk. unfold dead_letter_headers.
  rewrite !lookup_insert_ne by (destruct Hk; subst; done). done.
Qed.

Lemma replyError_routes d b t :
  Forall (own_route spec d) t -> Forall (own_route spec d) (fst (replyError O spec d b t)).
Proof.
  intros Ht. destruct (replyError_spec O spec d b t) as [->|(m & r & -> & Hm)]; [done|].
  simpl. apply Forall_app. split; [done|]. constructor; [|done]. simpl. rewrite Hm. split_and!; [done|done|by left].
Qed.

Lemma deadLetter_routes rs d n res t :
  retry spec = Some rs -> Forall (own_route spec d) t ->
  Forall (own_route spec d) (fst (deadLetter O spec rs d n res t)).
Proof.
  intros Hr Ht. pose proof (replyError_routes d (errReply res) t Ht) as H.
  unfold deadLetter, mbind, M_bind. destruct (replyError O spec d (errReply res) t) as [t1 []]. simpl in H.
  pose proof (dead_letter_headers_clean d (squeue spec) n (herr res)) as [Hc Hb].
  run_trace.
  assert (Forall (own_route spec d) (t1 ++ [Publish "" (dlq rs) true
    (copy_of d (dead_letter_headers O d (squeue spec) n (herr res)) "") (publish_answer O (length t1))])) as H1.
  { apply Forall_snoc_2; [done|]. split_and!; [done|done|]. right. exists rs. split; [done|]. by right. }
  destruct (publish_answer O (length t1)); [destruct (lateAck spec)|]; simpl;
    first [exact H1 | apply Forall_snoc_2; [exact H1|exact I]].
Qed.

(** A message cannot steer its own copies. Whatever headers a publisher
    set, everything the consumer publishes when settling goes to the request's
    reply address, to the retry exchange under the key the broker delivered the
    message on, or to the service's dead-letter queue; and no copy carries the
    sender-selected distribution headers CC and BCC. *)
Lemma settle_routes (d : Delivery) (res : handlerResult) :
  Forall (own_route spec d) (fst (settle O spec d res [])).
Proof.
  assert (Forall (own_route spec d) []) as H0 by constructor.
  unfold settle. destruct (herr res) as [e|] eqn:He.
  - destruct (negb (lateAck spec)); [by apply replyError_routes|].
    assert (Forall (own_route spec d) (fst (reject O spec d res []))) as Hrej.
    { pose proof (replyError_routes d (errReply res) [] H0) as H. unfold reject, mbind, M_bind.
      destruct (replyError O spec d (errReply res) []) as [t1 []]. run_trace. by apply Forall_snoc_2. }
    destruct (retry spec) as [rs|] eqn:Hr; [|done].
    destruct (negb (handled res)); [|destruct (dlqHandled spec); [by apply deadLetter_routes|done]].
    destruct (_ <? _); [|by apply deadLetter_routes].
    pose proof (retry_headers_clean d (retryCount (Headers d)) (Some e)) as [Hc Hb].
    run_trace. destruct (publish_answer O (length [])); [destruct (lateAck spec)|]; simpl;
      repeat apply Forall_cons_2; try (apply Forall_nil_2 || exact I); (split_and!; [done|done|]);
      right; exists rs; (split; [done|]); by left.
  - run_trace. destruct (reply res) as [b|]; [case_decide|]; cbn beta iota zeta;
      [destruct (lateAck spec); simpl; by repeat constructor| |destruct (lateAck spec); simpl; by repeat constructor].
    destruct (publish_answer O (length [])); destruct (lateAck spec); simpl;
      repeat apply Forall_cons_2; try (apply Forall_nil_2 || exact I); split_and!; try done; by left.
Qed.

End Routes.

(** *** The retry ladder *)

(** The way back from the retry queue: what the broker delivers to the service
    queue when a retry copy's TTL expires. It keeps the message and the key it
    was published under, and may add headers of its own. *)
Class RetryPath := {
  redeliver : Publishing -> string -> Delivery;
  redeliver_key m k : RoutingKey (redeliver m k) = k;
  redeliver_body m k : Body (redeliver m k) = PBody m;
  redeliver_id m k : MessageId (redeliver m k) = PMessageId m;
  redeliver_count m k : Headers (redeliver m k) !! headerRetryCount = PHeaders m !! headerRetryCount
}.

Section Ladder.
Context {A : GoArch} {R : RetryPath} (O : oracle) (spec : consumerSpec) (rs : retrySpec).
Context (fails : Delivery -> handlerResult).

(** Attempt after attempt of a message whose handler keeps failing, the trace of
    each; the ladder goes on while an attempt ends by parking a retry copy. *)
Fixpoint ladder (n : nat) (d : Delivery) : list (list action) :=
  match n with
  | 0%nat => []
  | S n' =>
      let t := fst (settle O spec d (fails d) []) in
      t :: match t with
           | [Publish ex key _ m None; Settle Ack _] =>
               if decide (ex = rexchange rs) then ladder n' (redeliver m key) else []
           | _ => []
           end
  end.

Context (Hspec : lateAck spec = true /\ retry spec = Some rs /\ rexchange rs <> "" /\ maxRetries rs <= MaxInt32).
Context (Hbroker : forall n, publish_answer O n = None).
Context (Hfails : forall d, herr (fails d) <> None /\ handled (fails d) = false).

Lemma settle_retry d :
  retryCount (Headers d) < maxRetries rs ->
  exists r, fst (settle O spec d (fails d) [])
    = [Publish (rexchange rs) (RoutingKey d) true
         (copy_of d (retry_headers O d (retryCount (Headers d)) (herr (fails d))) (ReplyTo d)) None; Settle Ack r].
Proof.
  destruct Hspec as (Hl & Hr & _ & _), (Hfails d) as [He Hh]. intros Hlt. unfold settle.
  destruct (herr (fails d)) eqn:E; [|done]. rewrite Hl, Hr, Hh. cbn [negb]. cbn iota.
  destruct (Z.ltb_spec (retryCount (Headers d)) (maxRetries rs)); [|lia].
  run_trace. rewrite Hbroker. by eexists.
Qed.

Lemma settle_last d :
  maxRetries rs <= retryCount (Headers d) ->
  exists pre m r, fst (settle O spec d (fails d) []) = pre ++ [Publish "" (dlq rs) true m None; Settle Ack r] /\
    (length pre <= 1)%nat /\
    PBody m = Body d /\ PMessageId m = MessageId d /\ PHeaders m !! headerOriginalKey = Some (VString (RoutingKey d)) /\
    retryCount (PHeaders m) = retryCount (Headers d).
Proof.
  destruct Hspec as (Hl & Hr & _ & _), (Hfails d) as [He Hh]. intros Hle. unfold settle.
  destruct (herr (fails d)) eqn:E; [|done]. rewrite Hl, Hr, Hh. cbn [negb]. cbn iota.
  destruct (Z.ltb_spec (retryCount (Headers d)) (maxRetries rs)); [lia|].
  set (m := copy_of d (dead_letter_headers O d (squeue spec) (retryCount (Headers d)) (herr (fails d))) "").
  assert (PHeaders m !! headerOriginalKey = Some (VString (RoutingKey d))) as Hk.
  { simpl. unfold dead_letter_headers. do 4 (rewrite lookup_insert_ne by done). by rewrite lookup_insert_eq. }
  assert (retryCount (PHeaders m) = retryCount (Headers d)) as Hc.
  { simpl. unfold dead_letter_headers, retryCount at 1, hget.
    do 5 (rewrite lookup_insert_ne by done). rewrite lookup_insert_eq. simpl. rewrite headerInt_intHeader.
    pose proof (retryCount_range (Headers d)).
    destruct (Z.ltb_spec (retryCount (Headers d)) 0); [lia|]. destruct (Z.ltb_spec MaxInt32 (retryCount (Headers d))); lia. }
  unfold deadLetter, mbind, M_bind.
  destruct (replyError_spec O spec d (errReply (fails d)) []) as [Er|(m' & r & Er & _)]; rewrite Er; run_trace;
    rewrite !Hbroker; cbn beta iota zeta; [exists [], m|eexists [_], m]; eexists; (split; [reflexivity|]);
    split_and!; done || (simpl; lia).
Qed.

(** C18: the retry ladder ends. A message whose handler keeps failing is
    attempted [MaxRetries - x-retry-count] more times and then dead-lettered:
    the last attempt parks the message, with its body, id and original routing
    key, in the dead-letter queue and acknowledges it; the attempt count the
    dead letter records is where the ladder stopped. *)
Theorem retry_ladder (d : Delivery) (n : nat) :
  let left := Z.to_nat (maxRetries rs - retryCount (Headers d)) in
  (left < n)%nat ->
  length (ladder n d) = S left /\
  exists pre m r, last (ladder n d) = Some (pre ++ [Publish "" (dlq rs) true m None; Settle Ack r]) /\
    PBody m = Body d /\ PMessageId m = MessageId d /\ PHeaders m !! headerOriginalKey = Some (VString (RoutingKey d)) /\
    retryCount (PHeaders m) = Z.max (maxRetries rs) (retryCount (Headers d)).
Proof.
  simpl. revert d. induction n as [|n IH]; intros d Hn; [lia|].
  pose proof (retryCount_range (Headers d)) as Hrange. destruct Hspec as (Hl & Hr & Hne & Hmax).
  destruct (Z.lt_ge_cases (retryCount (Headers d)) (maxRetries rs)) as [Hlt|Hge].
  - destruct (settle_retry d Hlt) as [r Hs]. cbn [ladder]. rewrite Hs. rewrite decide_True by done.
    set (d' := redeliver _ _).
    assert (retryCount (Headers d') = retryCount (Headers d) + 1) as Hc.
    { unfold d', retryCount at 1, hget. rewrite redeliver_count. simpl. unfold retry_headers.
      do 3 (rewrite lookup_insert_ne by done). rewrite lookup_insert_eq. simpl. rewrite headerInt_intHeader.
      destruct (Z.ltb_spec (retryCount (Headers d) + 1) 0); [lia|].
      destruct (Z.ltb_spec MaxInt32 (retryCount (Headers d) + 1)); lia. }
    destruct (IH d') as (Hlen & pre & m & r' & Hlast & Hb & Hi & Hk & Hcm); [rewrite Hc; lia|].
    split; [simpl; rewrite Hlen, Hc; lia|]. exists pre, m, r'.
    split; [by rewrite last_cons, Hlast|]. rewrite Hb, Hi, Hk, Hcm, Hc. unfold d'.
    rewrite redeliver_body, redeliver_id, redeliver_key. split_and!; [done|done|done|lia].
  - destruct (settle_last d Hge) as (pre & m & r & Hs & Hpre & Hb & Hi & Hk & Hc). cbn [ladder]. rewrite Hs.
    replace (Z.to_nat (maxRetries rs - retryCount (Headers d))) with 0%nat by lia.
    destruct pre as [|a pre]; [|destruct pre as [|]; [|simpl in Hpre; lia]]; simpl.
    + rewrite decide_False by done. split; [done|]. exists [], m, r. split_and!; try done. lia.
    + split; [by destruct a as [? ? ? ? []|]|]. exists [a], m, r.
      split_and!; try done; [by destruct a as [? ? ? ? []|]|lia].
Qed.

End Ladder.

(** *** Samples *)

Definition sample_spec (late : bool) : consumerSpec := {|
  squeue := "Combat.Service"; lateAck := late; prefetch := 1; concurrency := 1; stimeout := 600 * Second;
  retry := Some {| maxRetries := 3; rexchange := "Combat.Service.Retry.Exchange"; rqueue := "Combat.Service.Retry";
                   dlq := "Combat.Service.DLQ" |};
  dlqHandled := false; timeoutReply := None; callbacksExchange := "proto.bus.callback" |}.

Definition sample_retry : retrySpec := {|
  maxRetries := 3; rexchange := "Combat.Service.Retry.Exchange"; rqueue := "Combat.Service.Retry";
  dlq := "Combat.Service.DLQ" |}.

Definition sample_delivery : Delivery := {|
  Headers := {[ "CC" := VString "elsewhere" ]}; ContentType := contentTypeOctetStream; ContentEncoding := "";
  Priority := 0; CorrelationId := "c1"; ReplyTo := "cb"; MessageId := "m1"; Timestamp := 0; DType := ""; AppId := "";
  DeliveryTag := 7; Redelivered := false; Exchange := "proto.bus"; RoutingKey := "REQUEST.Combat.Service.Attack";
  Body := [x01; x02] |}.

Definition sample_oracle : oracle :=
  {| publish_answer := fun _ => None; settle_answer := fun _ => None; now_millis := 1700000000000 |}.

Definition sample_failure : handlerResult :=
  {| reply := None; herr := Some (EText "boom"); errReply := None; handled := false |}.

(** A broker that adds no headers of its own. *)
#[export] Instance plain_retry_path : RetryPath.
Proof.
  refine {| redeliver := fun m k => {|
    Headers := PHeaders m; ContentType := PContentType m; ContentEncoding := PContentEncoding m;
    Priority := PPriority m; CorrelationId := PCorrelationId m; ReplyTo := PReplyTo m; MessageId := PMessageId m;
    Timestamp := PTimestamp m; DType := PType m; AppId := PAppId m; DeliveryTag := 1; Redelivered := false;
    Exchange := "proto.bus"; RoutingKey := k; Body := PBody m |} |}; done.
Defined.

Lemma process_settles_witness :
  (exists pubs how r, fst (process (A := amd64) sample_oracle (sample_spec true) sample_delivery []
      {| exit_of := Returned sample_failure; fired := CaseDone |} None [])
    = pubs ++ [Settle how r] /\ forallb is_publish pubs = true /\
    justified (sample_spec true) sample_delivery sample_failure pubs how) /\
  exists r pubs, fst (process (A := amd64) sample_oracle (sample_spec false) sample_delivery []
      {| exit_of := Returned sample_failure; fired := CaseDone |} None []) = Settle Ack r :: pubs.
Proof.
  split.
  - destruct (proj1 (process_settles (A := amd64) sample_oracle (sample_spec true) sample_delivery []
      {| exit_of := Returned sample_failure; fired := CaseDone |} None) eq_refl) as [[H _]|[[H _]|H]];
      [vm_compute in H; discriminate H|vm_compute in H; discriminate H|exact H].
  - destruct (proj2 (process_settles (A := amd64) sample_oracle (sample_spec false) sample_delivery []
      {| exit_of := Returned sample_failure; fired := CaseDone |} None) eq_refl) as (r & pubs & H & _). exists r, pubs. exact H.
Defined.

Lemma retry_ladder_witness :
  length (ladder (A := amd64) sample_oracle (sample_spec true) sample_retry (fun _ => sample_failure) 10 sample_delivery)
  = 4%nat.
Proof.
  destruct (retry_ladder (A := amd64) sample_oracle (sample_spec true) sample_retry (fun _ => sample_failure)
    ltac:(split_and!; done) ltac:(done) ltac:(done) sample_delivery 10) as [H _];
    [vm_compute; lia|exact H].
Defined.

(** ** The consume loop and the handler slots *)

Module Slots.

(** The handler goroutine of a delivery: not started, running user code, or
    returned. *)
Inductive handler := HNone | HRunning | HExited.

(** A delivery the loop has taken: whether it still counts in
    [bus.deliveries], whether its goroutine holds a handler slot, and its
    handler. *)
Record delivery := { open : bool; slot : bool; hstate : handler; spawned : bool }.

Record loop := {
  cap : nat;
  sem : nat;
  ds : list delivery;
  deliveries : nat;
  handlers : nat;
  stopped : bool
}.

Definition newConsumer (concurrency : nat) : loop :=
  {| cap := concurrency; sem := 0; ds := []; deliveries := 0; handlers := 0; stopped := false |}.

(** The loop blocks on the semaphore, so at most its last delivery waits for a
    slot. *)
Definition parked (l : loop) : bool := existsb (fun d => open d && negb (spawned d)) (ds l).

Definition running (d : delivery) : bool := match hstate d with HRunning => true | _ => false end.

Definition put (i : nat) (d : delivery) (s dv h : nat) (l : loop) : loop :=
  {| cap := cap l; sem := s; ds := alter (fun _ => d) i (ds l); deliveries := dv; handlers := h;
     stopped := stopped l |}.

Inductive step : loop -> loop -> Prop :=
| receive l :
    parked l = false ->
    step l {| cap := cap l; sem := sem l;
              ds := ds l ++ [{| open := true; slot := false; hstate := HNone; spawned := false |}];
              deliveries := S (deliveries l); handlers := handlers l; stopped := stopped l |}
| acquire l i :
    ds l !! i = Some {| open := true; slot := false; hstate := HNone; spawned := false |} ->
    (sem l < cap l)%nat ->
    step l (put i {| open := true; slot := true; hstate := HNone; spawned := true |} (S (sem l)) (deliveries l)
              (handlers l) l)
| unbounded l i :
    ds l !! i = Some {| open := true; slot := false; hstate := HNone; spawned := false |} -> cap l = 0%nat ->
    step l (put i {| open := true; slot := false; hstate := HNone; spawned := true |} (sem l) (deliveries l)
              (handlers l) l)
| let_go l i :
    ds l !! i = Some {| open := true; slot := false; hstate := HNone; spawned := false |} -> stopped l = true ->
    step l (put i {| open := false; slot := false; hstate := HNone; spawned := false |} (sem l) (pred (deliveries l))
              (handlers l) l)
| start l i b :
    ds l !! i = Some {| open := true; slot := b; hstate := HNone; spawned := true |} ->
    step l (put i {| open := true; slot := b; hstate := HRunning; spawned := true |} (sem l) (deliveries l)
              (S (handlers l)) l)
(* the early ack failed: no handler runs *)
| not_started l i b :
    ds l !! i = Some {| open := true; slot := b; hstate := HNone; spawned := true |} ->
    step l (put i {| open := false; slot := b; hstate := HNone; spawned := true |} (sem l) (pred (deliveries l))
              (handlers l) l)
| exit l i o b :
    ds l !! i = Some {| open := o; slot := b; hstate := HRunning; spawned := true |} ->
    step l (put i {| open := o; slot := b; hstate := HExited; spawned := true |} (sem l) (deliveries l)
              (pred (handlers l)) l)
(* settled, by the handler's return or at the processing timeout *)
| settled l i b h :
    ds l !! i = Some {| open := true; slot := b; hstate := h; spawned := true |} -> h <> HNone ->
    step l (put i {| open := false; slot := b; hstate := h; spawned := true |} (sem l) (pred (deliveries l))
              (handlers l) l)
(* the delivery's goroutine ends: settled and its handler back *)
| release l i h :
    ds l !! i = Some {| open := false; slot := true; hstate := h; spawned := true |} -> h <> HRunning ->
    step l (put i {| open := false; slot := false; hstate := h; spawned := true |} (pred (sem l)) (deliveries l)
              (handlers l) l)
| stop l :
    step l {| cap := cap l; sem := sem l; ds := ds l; deliveries := deliveries l; handlers := handlers l;
              stopped := true |}.

Record inv (n : nat) (l : loop) : Prop := {
  inv_cap : cap l = n;
  inv_sem : sem l = countb slot (ds l);
  inv_le : (0 < n -> sem l <= n)%nat;
  inv_deliveries : deliveries l = countb open (ds l);
  inv_handlers : handlers l = countb running (ds l);
  (* with a bound, a running handler's goroutine holds a slot *)
  inv_slot : forall d, d ∈ ds l -> (0 < n)%nat -> spawned d = true -> open d = true \/ running d = true -> slot d = true;
  inv_run : forall d, d ∈ ds l -> running d = true -> spawned d = true
}.

(** A step of one delivery keeps the counters exact. *)
Lemma inv_put n l i d d' s dv h :
  inv n l -> ds l !! i = Some d ->
  (s + Nat.b2n (slot d) = sem l + Nat.b2n (slot d'))%nat ->
  (dv + Nat.b2n (open d) = deliveries l + Nat.b2n (open d'))%nat ->
  (h + Nat.b2n (running d) = handlers l + Nat.b2n (running d'))%nat ->
  ((0 < n)%nat -> s <= n)%nat ->
  ((0 < n)%nat -> spawned d' = true -> open d' = true \/ running d' = true -> slot d' = true) ->
  (running d' = true -> spawned d' = true) ->
  inv n (put i d' s dv h l).
Proof.
  intros [Hc Hs Hle Hd Hh Hsl Hr] Hi Es Ed Eh Hle' Hsl' Hr'.
  assert (forall f : delivery -> bool, (countb f (alter (fun _ => d') i (ds l)) + Nat.b2n (f d)
    = countb f (ds l) + Nat.b2n (f d'))%nat) as Hcount by (intros f; by apply (countb_alter f (fun _ => d'))).
  assert (forall x, x ∈ alter (fun _ => d') i (ds l) -> x = d' \/ x ∈ ds l) as Hin.
  { intros x [j Hj]%list_elem_of_lookup. destruct (decide (j = i)) as [->|Hne].
    - rewrite list_lookup_alter_eq, Hi in Hj. simplify_eq/=. by left.
    - rewrite list_lookup_alter_ne in Hj by done. right. by eapply list_elem_of_lookup_2. }
  split; simpl; auto.
  - specialize (Hcount slot). lia.
  - specialize (Hcount open). lia.
  - specialize (Hcount running). lia.
  - intros x [->|Hx]%Hin; [done|]. by apply Hsl.
  - intros x [->|Hx]%Hin; [done|]. by apply Hr.
Qed.

Lemma count_open n l i d : inv n l -> ds l !! i = Some d -> open d = true -> (0 < deliveries l)%nat.
Proof. intros H Hi Ho. rewrite (inv_deliveries n l H). by eapply countb_pos. Qed.
Lemma count_running n l i d : inv n l -> ds l !! i = Some d -> running d = true -> (0 < handlers l)%nat.
Proof. intros H Hi Ho. rewrite (inv_handlers n l H). by eapply countb_pos. Qed.
Lemma count_slot n l i d : inv n l -> ds l !! i = Some d -> slot d = true -> (0 < sem l)%nat.
Proof. intros H Hi Ho. rewrite (inv_sem n l H). by eapply countb_pos. Qed.

(** A step of the delivery [Hi] names: the counters by arithmetic, the slot rule
    by cases. *)
Ltac slot_step H Hi :=
  eapply inv_put; [exact H|exact Hi|..]; simpl; unfold running in *; simpl in *; try done; try lia; naive_solver lia.

Lemma slots_inv_step n l l' : step l l' -> inv n l -> inv n l'.
Proof.
  intros Hstep H. pose proof (inv_le n l H) as Hle.
  pose proof (inv_cap n l H) as Hcap.
  destruct Hstep as [l Hp|l i Hi Hs|l i Hi Hc|l i Hi Hst|l i b Hi|l i b Hi|l i o b Hi|l i b h Hi Hh|l i h Hi Hh|l];
    try (pose proof (list_elem_of_lookup_2 _ _ _ Hi) as Hin;
         pose proof (inv_slot n l H _ Hin) as Hslot; simpl in Hslot).
  - destruct H as [Hc Hs Hle' Hd Hh Hsl Hr]. split; simpl; rewrite ?countb_app; simpl; try lia; try done.
    + intros d [?|Hd']%elem_of_app; [by apply Hsl|]. by apply list_elem_of_singleton in Hd' as ->.
    + intros d [?|Hd']%elem_of_app; [by apply Hr|]. by apply list_elem_of_singleton in Hd' as ->.
  - slot_step H Hi.
  - slot_step H Hi.
  - pose proof (count_open n l i _ H Hi eq_refl). slot_step H Hi.
  - slot_step H Hi.
  - pose proof (count_open n l i _ H Hi eq_refl). slot_step H Hi.
  - pose proof (count_running n l i _ H Hi eq_refl). slot_step H Hi.
  - pose proof (count_open n l i _ H Hi eq_refl). destruct h; slot_step H Hi.
  - pose proof (count_slot n l i _ H Hi eq_refl). destruct h; slot_step H Hi.
  - destruct H as [Hc Hs Hle' Hd Hh Hsl Hr]. by split.
Qed.

(** C19: the concurrency bound holds over user code, not only over deliveries:
    with a bound of [n], never more than [n] handlers run at once, those the
    processing timeout has abandoned included; and when both in-flight counters
    read zero, no delivery is unsettled and no handler is running. *)
Theorem handler_bound (n : nat) (l : loop) :
  rtc step (newConsumer n) l ->
  ((0 < n -> countb running (ds l) <= n)%nat) /\
  (deliveries l = 0%nat -> handlers l = 0%nat ->
   forall d, d ∈ ds l -> open d = false /\ running d = false).
Proof.
  intros Hr. assert (inv n l) as H.
  { revert Hr. apply rtc_invariant; [apply slots_inv_step|]. split; simpl; try done; try lia.
    - by intros d ?%elem_of_nil.
    - by intros d ?%elem_of_nil. }
  split.
  - intros Hn. etrans; [|by apply (inv_le n l H)]. rewrite (inv_sem n l H). apply countb_le.
    intros d Hd Hrun. apply (inv_slot n l H d Hd Hn); [by apply (inv_run n l H)|by right].
  - intros Hd Hh d [i Hi]%list_elem_of_lookup. split.
    + destruct (open d) eqn:E; [|done]. pose proof (count_open n l i d H Hi E). lia.
    + destruct (running d) eqn:E; [|done]. pose proof (count_running n l i d H Hi E). lia.
Qed.

End Slots.

(** One delivery taken, its handler started and abandoned at the timeout. *)
Definition sample_loop : Slots.loop :=
  {| Slots.cap := 1; Slots.sem := 1;
     Slots.ds := [{| Slots.open := false; Slots.slot := true; Slots.hstate := Slots.HRunning; Slots.spawned := true |}];
     Slots.deliveries := 0; Slots.handlers := 1; Slots.stopped := false |}.

Lemma handler_bound_witness : (countb Slots.running (Slots.ds sample_loop) <= 1)%nat.
Proof.
  destruct (Slots.handler_bound 1 sample_loop) as [H _]; [|apply H; lia].
  eapply rtc_l; [by apply Slots.receive|]. eapply rtc_l; [eapply (Slots.acquire _ 0); [reflexivity|simpl; lia]|].
  eapply rtc_l; [eapply (Slots.start _ 0); reflexivity|].
  eapply rtc_l; [eapply (Slots.settled _ 0); [reflexivity|done]|]. apply rtc_refl.
Defined.
