(* ===== verification/Cancel.v ===== *)
(** * Cancel: stream cancellation (cancel.go, deliveryControl of consumer.go)

    The registry of cancellable deliveries, and the life of one delivery's
    registration. The handler registers and the delivery releases from different
    goroutines and in either order, so the operations of [deliveryControl] and of
    the registry are separate steps. An entry pointer is a number; a cancel
    function is the delivery it cancels. *)
From S2P Require Import Prelude GoStrings Headers Errors.

(** ** The registry *)

Record cancelRegistry := {
  m : gmap string (gset nat);
  (* the next entry to be allocated *)
  next_entry : nat
}.

Definition newCancelRegistry : cancelRegistry := {| m := ∅; next_entry := 0 |}.

(** [add]: the entry its [remove] will take out, or none for an empty id. *)
Definition add (id : string) (r : cancelRegistry) : cancelRegistry * option nat :=
  if decide (id = "") then (r, None)
  else let e := next_entry r in
       ({| m := <[id := {[e]} ∪ default ∅ (m r !! id)]> (m r); next_entry := S e |}, Some e).

(** The function [add] returns. *)
Definition remove (id : string) (o : option nat) (r : cancelRegistry) : cancelRegistry :=
  match o with
  | None => r
  | Some e =>
      match m r !! id with
      | None => r
      | Some set =>
          let set' := set ∖ {[e]} in
          {| m := if decide (set' = ∅) then delete id (m r) else <[id := set']> (m r);
             next_entry := next_entry r |}
      end
  end.

(** [cancel]: the entries whose deliveries are cancelled, and whether there was
    any. *)
Definition cancel (id : string) (r : cancelRegistry) : list nat * bool :=
  let entries := elements (default ∅ (m r !! id)) in
  (entries, bool_decide (entries <> [])).

Definition size (r : cancelRegistry) : nat := base.size (m r).

(** ** One delivery's registration *)

Record deliveryControl := {
  id : string;
  released : bool;
  unlisten : option (option nat);
  (* taken by [release], not yet called *)
  removing : option (option nat);
  (* the causes its context was cancelled with *)
  cancelled : bool
}.

Definition new_control (id : string) : deliveryControl :=
  {| id := id; released := false; unlisten := None; removing := None; cancelled := false |}.

Definition cancellable (c : deliveryControl) (r : cancelRegistry) : deliveryControl * cancelRegistry :=
  match released c, unlisten c with
  | false, None =>
      let '(r', e) := add (id c) r in
      ({| id := id c; released := released c; unlisten := Some e; removing := removing c;
          cancelled := cancelled c |}, r')
  | _, _ => (c, r)
  end.

(** [release], under its lock: the removal is taken, and called after. *)
Definition release_take (c : deliveryControl) : deliveryControl :=
  {| id := id c; released := true; unlisten := None;
     removing := match unlisten c with Some u => Some u | None => removing c end;
     cancelled := cancelled c |}.

Definition release_call (c : deliveryControl) (r : cancelRegistry) : deliveryControl * cancelRegistry :=
  match removing c with
  | None => (c, r)
  | Some u => ({| id := id c; released := released c; unlisten := unlisten c; removing := None;
                  cancelled := cancelled c |}, remove (id c) u r)
  end.

Definition mark_cancelled (c : deliveryControl) : deliveryControl :=
  {| id := id c; released := released c; unlisten := unlisten c; removing := removing c; cancelled := true |}.

(** The entry a delivery has in the registry. *)
Definition entry_of (c : deliveryControl) : option nat :=
  match unlisten c with
  | Some u => u
  | None => default None (removing c)
  end.

(** [cancelListener.handle]: a notice without an id is ignored. *)
Definition handle (cid : string) (cs : list deliveryControl) (r : cancelRegistry) : list deliveryControl :=
  if decide (cid = "") then cs
  else map (fun c => match entry_of c with
                     | Some e => if decide (e ∈ fst (cancel cid r)) then mark_cancelled c else c
                     | None => c
                     end) cs.

(** ** Steps *)

Record state := { ctls : list deliveryControl; registry : cancelRegistry }.

Inductive step : state -> state -> Prop :=
| new_delivery s i : step s {| ctls := ctls s ++ [new_control i]; registry := registry s |}
| do_cancellable s i c c' r' :
    ctls s !! i = Some c -> cancellable c (registry s) = (c', r') ->
    step s {| ctls := <[i := c']> (ctls s); registry := r' |}
| do_release_take s i c :
    ctls s !! i = Some c -> step s {| ctls := <[i := release_take c]> (ctls s); registry := registry s |}
| do_release_call s i c c' r' :
    ctls s !! i = Some c -> release_call c (registry s) = (c', r') ->
    step s {| ctls := <[i := c']> (ctls s); registry := r' |}
| notice s cid : step s {| ctls := handle cid (ctls s) (registry s); registry := registry s |}.

(** ** Invariant: the registry is exactly the entries deliveries own *)

Definition owns (s : state) (cid : string) (e : nat) : Prop :=
  exists i c, ctls s !! i = Some c /\ id c = cid /\ entry_of c = Some e.

Record inv (s : state) : Prop := {
  inv_exact : forall cid e, (exists set, m (registry s) !! cid = Some set /\ e ∈ set) <-> owns s cid e;
  inv_nonempty : forall cid set, m (registry s) !! cid = Some set -> set <> ∅;
  inv_fresh : forall i c e, ctls s !! i = Some c -> entry_of c = Some e -> (e < next_entry (registry s))%nat;
  inv_inj : forall i j c d e, ctls s !! i = Some c -> ctls s !! j = Some d ->
    entry_of c = Some e -> entry_of d = Some e -> i = j;
  inv_id : forall i c e, ctls s !! i = Some c -> entry_of c = Some e -> id c <> "";
  inv_phase : forall i c, ctls s !! i = Some c ->
    (released c = false -> removing c = None) /\ (released c = true -> unlisten c = None)
}.

(** Steps that leave every delivery's id and entry alone. *)
Lemma inv_same s cs :
  inv s -> length cs = length (ctls s) ->
  (forall i c c', ctls s !! i = Some c -> cs !! i = Some c' ->
     id c' = id c /\ entry_of c' = entry_of c /\
     (released c' = false -> removing c' = None) /\ (released c' = true -> unlisten c' = None)) ->
  inv {| ctls := cs; registry := registry s |}.
Proof.
  intros [He Hn Hf Hj Hi Hp] Hlen Hcs.
  assert (forall i c', cs !! i = Some c' -> exists c, ctls s !! i = Some c) as Hback.
  { intros i c' Hc'%lookup_lt_Some. rewrite Hlen in Hc'. by apply lookup_lt_is_Some_2 in Hc' as [c ?]; eauto. }
  assert (forall i c, ctls s !! i = Some c -> exists c', cs !! i = Some c') as Hforth.
  { intros i c Hc%lookup_lt_Some. rewrite <-Hlen in Hc. by apply lookup_lt_is_Some_2 in Hc as [c' ?]; eauto. }
  split; simpl.
  - intros cid e. rewrite He. unfold owns; simpl. split; intros (i & c & Hc & Hid & Hen).
    + destruct (Hforth i c Hc) as [c' Hc']. destruct (Hcs i c c' Hc Hc') as (E1 & E2 & _).
      exists i, c'. split_and!; congruence.
    + destruct (Hback i c Hc) as [c0 Hc0]. destruct (Hcs i c0 c Hc0 Hc) as (E1 & E2 & _).
      exists i, c0. split_and!; congruence.
  - done.
  - intros i c' e Hc' Hen. destruct (Hback i c' Hc') as [c Hc]. destruct (Hcs i c c' Hc Hc') as (_ & E2 & _).
    apply (Hf i c); congruence.
  - intros i j c d e Hc Hd Hec Hed. destruct (Hback i c Hc) as [c0 Hc0], (Hback j d Hd) as [d0 Hd0].
    destruct (Hcs i c0 c Hc0 Hc) as (_ & E2 & _), (Hcs j d0 d Hd0 Hd) as (_ & E3 & _).
    apply (Hj i j c0 d0 e); congruence.
  - intros i c' e Hc' Hen. destruct (Hback i c' Hc') as [c Hc]. destruct (Hcs i c c' Hc Hc') as (E1 & E2 & _).
    rewrite E1. apply (Hi i c e); congruence.
  - intros i c' Hc'. destruct (Hback i c' Hc') as [c Hc]. by destruct (Hcs i c c' Hc Hc') as (_ & _ & ?).
Qed.

(** A step of one delivery, which changes its entry. *)
Lemma cancel_inv_update s i c c' r' :
  inv s -> ctls s !! i = Some c -> id c' = id c ->
  (released c' = false -> removing c' = None) /\ (released c' = true -> unlisten c' = None) ->
  (forall cid e, (exists set, m r' !! cid = Some set /\ e ∈ set) <->
     (cid = id c /\ entry_of c' = Some e) \/
     (exists set, m (registry s) !! cid = Some set /\ e ∈ set) /\ ~ (cid = id c /\ entry_of c = Some e)) ->
  (forall cid set, m r' !! cid = Some set -> set <> ∅) ->
  (next_entry (registry s) <= next_entry r')%nat ->
  (forall e, entry_of c' = Some e ->
     (e < next_entry r')%nat /\ id c <> "" /\ (entry_of c = Some e \/ (next_entry (registry s) <= e)%nat)) ->
  inv {| ctls := <[i := c']> (ctls s); registry := r' |}.
Proof.
  intros [He Hn Hf Hj Hi Hp] Hc Hid Hph Hm Hne Hnext Hnew.
  pose proof (lookup_lt_Some _ _ _ Hc) as Hlt.
  assert (forall j d, <[i := c']> (ctls s) !! j = Some d <->
    (j = i /\ d = c') \/ (j <> i /\ ctls s !! j = Some d)) as Hl.
  { intros j d. rewrite list_lookup_insert_Some. naive_solver. }
  split; simpl.
  - intros cid e. rewrite Hm. rewrite He. unfold owns; simpl. split.
    + intros [[-> Hen]|[(j & d & Hd & Hid' & Hen) Hno]].
      * exists i, c'. rewrite Hl. naive_solver.
      * exists j, d. rewrite Hl. split_and!; try done. right. split; [|done]. intros ->. naive_solver.
    + intros (j & d & [[-> ->]|[Hji Hd]]%Hl & Hid' & Hen); [left; split; congruence|].
      right. split; [by exists j, d|]. intros [-> Hen']. by apply Hji, (Hj j i d c e).
  - done.
  - intros j d e [[-> ->]|[Hji Hd]]%Hl Hen; [by apply Hnew|]. specialize (Hf j d e Hd Hen). lia.
  - intros j k d d' e [[-> ->]|[Hji Hd]]%Hl [[-> ->]|[Hki Hd']]%Hl Hen Hen'; [done| | |by eapply Hj].
    + destruct (Hnew e Hen) as (_ & _ & [Ho|Ho]); [by eapply (Hj i k c d')|].
      specialize (Hf k d' e Hd' Hen'). lia.
    + destruct (Hnew e Hen') as (_ & _ & [Ho|Ho]); [by eapply (Hj j i d c)|].
      specialize (Hf j d e Hd Hen). lia.
  - intros j d e [[-> ->]|[Hji Hd]]%Hl Hen; [rewrite Hid; by apply (Hnew e)|by eapply Hi].
  - intros j d [[-> ->]|[Hji Hd]]%Hl; [done|by eapply Hp].
Qed.

Lemma inv_cancellable s i c c' r' :
  inv s -> ctls s !! i = Some c -> cancellable c (registry s) = (c', r') ->
  inv {| ctls := <[i := c']> (ctls s); registry := r' |}.
Proof.
  intros H Hc Hca. unfold cancellable in Hca. destruct (inv_phase s H i c Hc) as [Hrem Hrel].
  destruct (released c) eqn:Er; [simplify_eq; rewrite list_insert_id by done; by destruct s|].
  destruct (unlisten c) eqn:Eu; [simplify_eq; rewrite list_insert_id by done; by destruct s|].
  assert (entry_of c = None) as Hen by (unfold entry_of; rewrite Eu, Hrem; done).
  unfold add in Hca. case_decide as Hid; simplify_eq.
  - apply inv_same; [done|by rewrite length_insert|].
    intros j d d' Hd [(-> & <- & _)|[_ Hd']]%list_lookup_insert_Some; simplify_eq; simpl.
    + split_and!; [done|done|by intros; apply Hrem|done].
    + split_and!; [done|done|by eapply (inv_phase s H j)..].
  - eapply cancel_inv_update; try done; simpl.
    + intros cid e. rewrite Hen. destruct (decide (cid = id c)) as [->|Hne].
      * rewrite lookup_insert_eq. split.
        -- intros (set & [= <-] & [->%elem_of_singleton|Hin]%elem_of_union); [by left|right].
           destruct (m (registry s) !! id c) as [set|] eqn:Es; simpl in Hin; [|by apply elem_of_empty in Hin].
           split; [by exists set|naive_solver].
        -- intros [[_ [= <-]]|[(set & Hs & Hin) _]]; (eexists; split; [done|]); [set_solver|rewrite Hs; set_solver].
      * rewrite lookup_insert_ne by done. naive_solver.
    + intros cid set [[<- <-]|[_ Hs]]%lookup_insert_Some; [set_solver|by eapply (inv_nonempty s H)].
    + lia.
    + intros e [= <-]. split_and!; [lia|done|right; lia].
Qed.

Lemma inv_release_call s i c c' r' :
  inv s -> ctls s !! i = Some c -> release_call c (registry s) = (c', r') ->
  inv {| ctls := <[i := c']> (ctls s); registry := r' |}.
Proof.
  intros H Hc Hca. unfold release_call in Hca. destruct (inv_phase s H i c Hc) as [Hrem Hrel].
  destruct (removing c) as [u|] eqn:Erm; simplify_eq; [|rewrite list_insert_id by done; by destruct s].
  destruct (released c) eqn:Er; [|by specialize (Hrem eq_refl)]. specialize (Hrel eq_refl).
  assert (entry_of c = u) as Hen by (unfold entry_of; by rewrite Hrel, Erm).
  destruct u as [e|]; simpl.
  2: { apply inv_same; [done|by rewrite length_insert|].
       intros j d d' Hd [(-> & <- & _)|[_ Hd']]%list_lookup_insert_Some; simplify_eq; simpl.
       - split_and!; [done|by rewrite Hen; unfold entry_of; simpl; rewrite Hrel|done|done].
       - split_and!; [done|done|by eapply (inv_phase s H j)..]. }
  destruct (proj2 (inv_exact s H (id c) e)) as (set & Hset & Hin); [by exists i, c|]. rewrite Hset.
  assert (forall cid e', (exists set', (if decide (set ∖ {[e]} = ∅) then delete (id c) (m (registry s))
      else <[id c := set ∖ {[e]}]> (m (registry s))) !! cid = Some set' /\ e' ∈ set') <->
    (exists set', m (registry s) !! cid = Some set' /\ e' ∈ set') /\ ~ (cid = id c /\ e = e')) as Hm.
  { intros cid e'. destruct (decide (cid = id c)) as [->|Hne].
    - rewrite Hset. case_decide as Hd.
      + rewrite lookup_delete_eq. split; [naive_solver|]. intros [(set' & [= <-] & Hin') Hn].
        assert (e' ∈ set ∖ {[e]}) as Hx by set_solver. rewrite Hd in Hx. by apply elem_of_empty in Hx.
      + rewrite lookup_insert_eq. split.
        * intros (set' & [= <-] & Hin'). split; [exists set; set_solver|set_solver].
        * intros [(set' & [= <-] & Hin') Hn]. eexists. split; [done|]. set_solver.
    - case_decide; [rewrite lookup_delete_ne by done|rewrite lookup_insert_ne by done]; naive_solver. }
  eapply cancel_inv_update; try done; simpl.
  - intros cid e'. rewrite Hm, Hen. unfold entry_of; simpl. rewrite Hrel. simpl. naive_solver.
  - intros cid set'. case_decide.
    + intros [_ Hs]%lookup_delete_Some. by eapply (inv_nonempty s H).
    + intros [[<- <-]|[_ Hs]]%lookup_insert_Some; [done|by eapply (inv_nonempty s H)].
  - unfold entry_of; simpl. by rewrite Hrel.
Qed.

Lemma cancel_inv_step s s' : step s s' -> inv s -> inv s'.
Proof.
  intros Hstep H. destruct Hstep as [s i|s i c c' r' Hc Hca|s i c Hc|s i c c' r' Hc Hca|s cid].
  - destruct H as [He Hn Hf Hj Hi Hp].
    assert (forall j d, (ctls s ++ [new_control i]) !! j = Some d ->
      ctls s !! j = Some d \/ d = new_control i) as Hl.
    { intros j d [?|[_ Hd]]%lookup_app_Some; [by left|]. apply list_lookup_singleton_Some in Hd as [_ <-]. by right. }
    split; simpl; try done.
    + intros cid e. rewrite He. split; intros (j & d & Hd & ? & ?).
      * exists j, d. split; [by apply lookup_app_l_Some|done].
      * destruct (Hl j d Hd) as [?| ->]; [by exists j, d|done].
    + intros j d e [?| ->]%Hl Hen; [by eapply Hf|done].
    + intros j k d d' e [?| ->]%Hl [?| ->]%Hl Hen Hen'; try done. by eapply Hj.
    + intros j d e [?| ->]%Hl Hen; [by eapply Hi|done].
    + intros j d [?| ->]%Hl; [by eapply Hp|done].
  - by eapply inv_cancellable.
  - apply inv_same; [done|by rewrite length_insert|].
    intros j d d' Hd [(-> & <- & _)|[_ Hd']]%list_lookup_insert_Some.
    + assert (d = c) as -> by congruence. destruct (inv_phase s H _ c Hc) as [Hr Hu].
      split_and!; [done| |done|done]. unfold entry_of, release_take. simpl. by destruct (unlisten c).
    + assert (d' = d) as -> by congruence. split_and!; [done|done|by eapply (inv_phase s H j)..].
  - by eapply inv_release_call.
  - apply inv_same; [done| |].
    + unfold handle. case_decide; [done|]. by rewrite length_map.
    + intros j d d' Hd Hd'. unfold handle in Hd'. case_decide; [simplify_eq|].
      { split_and!; [done|done|by eapply (inv_phase s H j)..]. }
      rewrite list_lookup_fmap, Hd in Hd'. simpl in Hd'. injection Hd' as <-.
      destruct (inv_phase s H j d Hd) as [Hr Hu].
      destruct (entry_of d) eqn:Een; [case_decide|]; split_and!; try done.
Qed.

(** ** Properties *)

(** C20: however handlers registering and deliveries ending interleave, a cancel
    notice reaches exactly the deliveries of that correlation id that are
    registered and not yet removed, every copy of a redelivered message
    included; and a delivery that has been released leaves nothing behind: when
    all are, the registry is empty. *)
Theorem cancel_reaches (s : state) (cid : string) :
  rtc step {| ctls := []; registry := newCancelRegistry |} s -> cid <> "" ->
  (forall i c c', ctls s !! i = Some c -> handle cid (ctls s) (registry s) !! i = Some c' -> cancelled c = false ->
     cancelled c' = true <-> id c = cid /\ is_Some (entry_of c)) /\
  ((forall i c, ctls s !! i = Some c -> released c = true /\ removing c = None) -> size (registry s) = 0%nat).
Proof.
  intros Hr Hcid. assert (inv s) as H.
  { revert Hr. apply rtc_invariant; [apply cancel_inv_step|]. split; simpl; try done.
    intros cid' e. split; [intros (? & ? & _); done|intros (i & c & ? & _); done]. }
  split.
  - intros i c c' Hc Hc' Hno. unfold handle in Hc'. rewrite decide_False in Hc' by done.
    rewrite list_lookup_fmap, Hc in Hc'. simpl in Hc'. injection Hc' as <-.
    destruct (entry_of c) as [e|] eqn:Een; [|split; [congruence|by intros [_ [? ?]]]].
    assert (e ∈ elements (default ∅ (m (registry s) !! cid)) <-> id c = cid) as Hiff.
    { rewrite elem_of_elements. split.
      - intros Hin. destruct (m (registry s) !! cid) as [set|] eqn:Es; simpl in Hin; [|by apply elem_of_empty in Hin].
        destruct (proj1 (inv_exact s H cid e)) as (j & d & Hd & Hid & Hed); [by exists set|].
        assert (j = i) as -> by (by eapply (inv_inj s H j i d c e)). congruence.
      - intros <-. destruct (proj2 (inv_exact s H (id c) e)) as (set & -> & Hin); [by exists i, c|]. done. }
    case_decide as Hd.
    + simpl. split; [|done]. intros _. split; [by apply Hiff|by eexists].
    + split; [congruence|]. intros [Hid _]. by destruct Hd; apply Hiff.
  - intros Hall. unfold size. apply map_size_empty_iff. apply map_empty. intros cid'.
    destruct (m (registry s) !! cid') as [set|] eqn:Es; [|done]. exfalso.
    destruct (set_choose_L set (inv_nonempty s H _ _ Es)) as [e Hin].
    destruct (proj1 (inv_exact s H cid' e)) as (i & c & Hc & _ & Hen); [by exists set|].
    destruct (Hall i c Hc) as [Hrel Hrm]. destruct (inv_phase s H i c Hc) as [_ Hu].
    unfold entry_of in Hen. by rewrite (Hu Hrel), Hrm in Hen.
Qed.

(** A delivery that registered is reached by its caller's cancel. *)
Definition sample_state : state :=
  {| ctls := [fst (cancellable (new_control "c") newCancelRegistry)];
     registry := snd (cancellable (new_control "c") newCancelRegistry) |}.

Lemma cancel_reaches_witness :
  cancelled <$> (handle "c" (ctls sample_state) (registry sample_state) !! 0%nat) = Some true.
Proof.
  destruct (cancel_reaches sample_state "c") as [H _]; [|done|].
  { eapply rtc_l; [apply (new_delivery _ "c")|]. apply rtc_once.
    exact (do_cancellable {| ctls := [new_control "c"]; registry := newCancelRegistry |} 0 (new_control "c")
      _ _ eq_refl eq_refl). }
  destruct (handle "c" (ctls sample_state) (registry sample_state) !! 0%nat) as [c'|] eqn:E; [|by vm_compute in E].
  simpl. f_equal. eapply (H 0%nat _ c'); [reflexivity|exact E|reflexivity|]. vm_compute. eauto.
Defined.
