(* ===== verification/Service.v ===== *)
(** * Service: serving and calling methods (service.go, client.go, stream.go)

    The request path end to end: the client's envelope and its reading of the
    reply, and the service's checks, dispatch and classification of failures.
    The schema is a list of methods with their kinds; generated handlers and the
    protobuf codec are arguments of the definitions that use them. The result of
    [handle] carries the call it made, if any, so that theorems can say which
    user code runs. *)
From S2P Require Import Prelude GoStrings Wire Headers Errors Stream Names Consumer.

Local Open Scope Z_scope.

(** ** Contracts and options *)

Record methodDesc := { mname : string; streamingServer : bool; streamingClient : bool }.

Record contract := { fullName : string; methods : list methodDesc }.

(** [Methods().ByName] *)
Definition ByName (c : contract) (n : string) : option methodDesc :=
  List.find (fun m => bool_decide (mname m = n)) (methods c).

Record RetryPolicy := { MaxRetries : Z; Delay : Z; MessageTTL : Z }.
Record EventRetryPolicy := { EMaxRetries : Z; EDelay : Z }.

Definition DefaultRetryPolicy : RetryPolicy := {| MaxRetries := 3; Delay := 5 * Second; MessageTTL := 0 |}.

Record serviceOptions := {
  instance : string;
  maxConcurrent : Z;
  oretry : RetryPolicy;
  earlyAck : bool;
  processingTimeout : Z;
  maxPriority : option Z;
  eventRetry : EventRetryPolicy;
  eventConcurrency : Z
}.

Definition invalid (what : string) : option err := Some (EText ("protobus: " +:+ what)).

(** [serviceOptions.validate] *)
Definition validate (o : serviceOptions) : option err :=
  if (maxConcurrent o <? 1) || (65535 <? maxConcurrent o) then
    invalid ("WithMaxConcurrent must be within 1..65535, got " +:+ pretty (maxConcurrent o))
  else if (eventConcurrency o <? 1) || (65535 <? eventConcurrency o) then
    invalid ("WithEventConcurrency must be within 1..65535, got " +:+ pretty (eventConcurrency o))
  else if (MaxRetries (oretry o) <? 0) || ((0 <? MaxRetries (oretry o)) && (Delay (oretry o) <=? 0))
          || (MessageTTL (oretry o) <? 0) then
    invalid ("invalid RetryPolicy {MaxRetries:" +:+ pretty (MaxRetries (oretry o)) +:+ " Delay:"
             +:+ duration_string (Delay (oretry o)) +:+ " MessageTTL:" +:+ duration_string (MessageTTL (oretry o)) +:+ "}")
  else if (EMaxRetries (eventRetry o) <? 0) || ((0 <? EMaxRetries (eventRetry o)) && (EDelay (eventRetry o) <=? 0)) then
    invalid ("invalid EventRetryPolicy {MaxRetries:" +:+ pretty (EMaxRetries (eventRetry o)) +:+ " Delay:"
             +:+ duration_string (EDelay (eventRetry o)) +:+ "}")
  else if processingTimeout o <? 0 then
    invalid ("negative processing timeout " +:+ duration_string (processingTimeout o))
  else match validInstance (instance o) with
  | Some e => Some e
  | None =>
      match maxPriority o with
      | None => None
      | Some p =>
          if p <? 1 then
            Some (EWrap (sentinel_text ErrInvalidPriority +:+ ": WithMaxPriority must be within 1..255, got 0; 2 is recommended")
                    (ESentinel ErrInvalidPriority))
          else if earlyAck o then
            Some (EWrap (sentinel_text ErrInvalidPriority +:+ ": WithMaxPriority requires late ack: early ack takes requests off the queue "
                     +:+ "before a higher-priority arrival can overtake them")
                    (ESentinel ErrInvalidPriority))
          else None
      end
  end.

(** ** Registration *)

Record ServiceDesc := { ServiceName : string; Methods : list string; Streams : list string }.

Record Service := {
  scontract : contract;
  name : string;
  opts : serviceOptions;
  unary : list string;
  streams : list string;
  ExposeInternalErrors : bool
}.

(** The two loops of [Register]: every unary entry must name a method that
    streams neither way, every stream entry a server-streaming one. *)
Definition check_unary (svc : string) (c : contract) (n : string) : option err :=
  match ByName c n with
  | None => invalid ("Register: " +:+ svc +:+ " declares no method " +:+ Quote n)
  | Some md => if streamingServer md || streamingClient md
               then invalid ("Register: " +:+ svc +:+ "." +:+ n +:+ " is streaming but registered as unary")
               else None
  end.

Definition check_stream (svc : string) (c : contract) (n : string) : option err :=
  match ByName c n with
  | None => invalid ("Register: " +:+ svc +:+ " declares no method " +:+ Quote n)
  | Some md => if negb (streamingServer md) || streamingClient md
               then invalid ("Register: " +:+ svc +:+ "." +:+ n +:+ " is not server-streaming")
               else None
  end.

Fixpoint check_all (check : string -> option err) (ns : list string) : option err :=
  match ns with
  | [] => None
  | n :: ns' => match check n with Some e => Some e | None => check_all check ns' end
  end.

(** What the file registry has under a name. *)
Inductive found := FoundService (c : contract) | NotFound (e : err) | NotAService (kind : string).

(** [Register]: [impl] is the outcome of the reflection checks on the descriptor
    and the implementation, [find] looks a name up in the file registry. *)
Definition Register (find : string -> found) (o : serviceOptions) (impl : option err) (desc : ServiceDesc) (expose : bool)
    : Service + err :=
  let svc := ServiceName desc in
  match validate o, impl with
  | Some e, _ => inr e
  | None, Some e => inr e
  | None, None =>
      match find svc with
      | NotFound e => inr (EWraps (sentinel_text ErrUnknownService +:+ " " +:+ Quote svc +:+ ": " +:+ error_text e)
                             [ESentinel ErrUnknownService; e])
      | NotAService kind => inr (EWrap (sentinel_text ErrUnknownService +:+ ": " +:+ Quote svc +:+ " is a " +:+ kind
                                        +:+ ", not a service") (ESentinel ErrUnknownService))
      | FoundService c =>
          match check_all (check_unary svc c) (Methods desc) with
          | Some e => inr e
          | None =>
              match check_all (check_stream svc c) (Streams desc) with
              | Some e => inr e
              | None => inl {| scontract := c; name := runtimeName svc (instance o); opts := o;
                               unary := Methods desc; streams := Streams desc; ExposeInternalErrors := expose |}
              end
          end
      end
  end.

(** ** Request handling *)

Section Handling.
Context {P : Protowire} {A : GoArch}.

(** [encodeError] *)
Definition encodeError (s : Service) (method : string) (e : err) : bytes :=
  ServerStream.error_body method (sanitizeForCaller e (ExposeInternalErrors s)).

Definition replied (b : bytes) : handlerResult :=
  {| reply := Some b; herr := None; errReply := None; handled := false |}.

Definition rejection (s : Service) (label reason : string) : handlerResult :=
  replied (encodeError s label (newProtocolError reason)).

(** [Service.timeoutReply] *)
Definition timeoutReply (s : Service) (d : Delivery) (e : err) : bytes :=
  encodeError s (fullName (scontract s) +:+ "." +:+ lastSegment (RoutingKey d)) e.

Definition is_payload_error (e : err) : bool := match as_error pick_payload e with Some _ => true | None => false end.

Definition failure (s : Service) (method : string) (e : err) : handlerResult :=
  if is_payload_error e then rejection s method ("payload did not decode as the request type of " +:+ method)
  else if is_sentinel ErrUnimplemented e then rejection s method ("invalid service method " +:+ lastSegment method)
  else match asAnswerable e with
  | Some _ => replied (encodeError s method e)
  | None => {| reply := None; herr := Some e; errReply := Some (encodeError s method e); handled := false |}
  end.

Record CallInfo := {
  CMethod : string; CActor : string; CCorrelationID : string; CMessageID : string; CRoutingKey : string;
  CRedelivered : bool; CAttempt : Z; CHeaders : Table
}.

Definition call_info (env : Request) (d : Delivery) : CallInfo := {|
  CMethod := ReqMethod env; CActor := Actor env; CCorrelationID := CorrelationId d; CMessageID := MessageId d;
  CRoutingKey := RoutingKey d; CRedelivered := Redelivered d; CAttempt := retryCount (Headers d);
  CHeaders := copyHeaders (Headers d) |}.

(** What user code answers: a unary handler returns an error or a message,
    which is nil, encodes or does not encode. *)
Inductive unary_answer := UErr (e : err) | UNil | UResp (encoded : bytes + err).

(** A streaming handler: the frames it sent through its stream, and its error. *)
Record stream_answer := { after : ServerStream.serverStream; serr : option err; senv : ServerStream.env }.

(** User code, by method name. *)
Record handlers := {
  on_unary : string -> CallInfo -> bytes -> unary_answer;
  on_stream : string -> CallInfo -> bytes -> ServerStream.serverStream -> stream_answer
}.

(** The call [handle] made. *)
Inductive invocation := CallUnary (method : string) (info : CallInfo) | CallStream (method : string) (info : CallInfo).

(** [serveStream]: the handler's error becomes the final frame; a publish
    failure fails the attempt. *)
Definition stream_error (m : string) (a : stream_answer) : option err :=
  match serr a with
  | None => None
  | Some e =>
      if is_payload_error e then
        Some (newProtocolError ("payload did not decode as the request type of " +:+ m))
      else if is_sentinel ErrUnimplemented e then
        Some (newProtocolError ("invalid service method " +:+ lastSegment m))
      else Some e
  end.

Definition serveStream (s : Service) (m : string) (a : stream_answer) : handlerResult :=
  match snd (ServerStream.finish (senv a) (ExposeInternalErrors s) (after a) (stream_error m a)) with
  | Some e => {| reply := None; herr := Some e; errReply := None; handled := false |}
  | None => {| reply := None; herr := None; errReply := None; handled := false |}
  end.

Definition serveUnary (s : Service) (m : string) (r : unary_answer) : handlerResult :=
  match r with
  | UErr e => failure s m e
  | UNil => replied (ServerStream.result_body m [])
  | UResp (inl data) => replied (ServerStream.result_body m data)
  | UResp (inr e) => failure s m (EWrap ("encoding the response of " +:+ m +:+ ": " +:+ error_text e) e)
  end.

(** [handle] *)
Definition handle (s : Service) (H : handlers) (d : Delivery) : option invocation * handlerResult :=
  let ctr := fullName (scontract s) in
  match DecodeRequest (Body d) with
  | (_, Some _) =>
      let label := if decide (RoutingKey d = "") then "unknown" else RoutingKey d in
      (None, rejection s label "request envelope did not decode")
  | (env, None) =>
      let keyMethod := if decide (RoutingKey d = "") then lastSegment (ReqMethod env) else lastSegment (RoutingKey d) in
      let label := ctr +:+ "." +:+ keyMethod in
      if bool_decide (RoutingKey d <> "") && negb (HasPrefix (RoutingKey d) ("REQUEST." +:+ name s +:+ ".")) then
        (None, rejection s label ("routing key " +:+ RoutingKey d +:+ " does not belong to service " +:+ name s))
      else if bool_decide (RoutingKey d <> "") && bool_decide (keyMethod <> lastSegment (ReqMethod env)) then
        (None, rejection s label ("request method " +:+ ReqMethod env +:+ " contradicts routing key " +:+ RoutingKey d))
      else match splitMethodName (ReqMethod env) with
      | None => (None, rejection s label ("request method " +:+ ReqMethod env +:+ " is not a qualified method name"))
      | Some (service, method) =>
          if decide (service <> ctr) then
            (None, rejection s label ("request method " +:+ ReqMethod env +:+ " is not a method of " +:+ ctr))
          else match ByName (scontract s) method with
          | None => (None, rejection s label (ctr +:+ " declares no method " +:+ method))
          | Some md =>
              let info := call_info env d in
              if streamingServer md then
                if decide (method ∈ streams s) then
                  (Some (CallStream method info),
                   serveStream s (ReqMethod env)
                     (on_stream H method info (ReqData env) (ServerStream.newStream (ReqMethod env))))
                else (None, rejection s (ReqMethod env) ("invalid service method " +:+ method))
              else if decide (method ∈ unary s) then
                (Some (CallUnary method info), serveUnary s (ReqMethod env) (on_unary H method info (ReqData env)))
              else (None, rejection s (ReqMethod env) ("invalid service method " +:+ method))
          end
      end
  end.

(** ** The client *)

Record Client := { ccontract : string; runtime : string; cliErr : option err }.

Definition NewClient (service inst : string) : Client :=
  {| ccontract := service; runtime := runtimeName service inst; cliErr := validInstance inst |}.

(** [envelope]: [marshalled] is the encoded request message. *)
Definition envelope (c : Client) (method : string) (marshalled : bytes + err) (actor : string) : bytes + err :=
  match cliErr c with
  | Some e => inr e
  | None =>
      match marshalled with
      | inr e => inr (EWraps (sentinel_text ErrInvalidRequest +:+ " for " +:+ ccontract c +:+ "." +:+ method
                              +:+ ": " +:+ error_text e) [ESentinel ErrInvalidRequest; e])
      | inl data => inl (AppendRequest [] {| ReqMethod := ccontract c +:+ "." +:+ method; Actor := actor; ReqData := data |})
      end
  end.

(** A decoded response has a member. *)
Lemma DecodeResponse_member b r :
  DecodeResponse b = (r, None) -> is_Some (ResponseError r) \/ is_Some (ResponseResult r).
Proof.
  unfold DecodeResponse. destruct (walk b _ _ _) as [a [e|]]; [done|].
  destruct (hasErr a); [intros [= <-]; left; by eexists|].
  destruct (hasRes a); [intros [= <-]; right; by eexists|done].
Qed.

(** [decodeReply]: the result's data once [unmarshal] accepts it. [wire_text] is
    the text of a decoding error. *)
Definition decodeReply (wire_text : wire_error -> string) (unmarshal : bytes -> option err) (b : bytes) (method : string)
    : bytes + err :=
  match DecodeResponse b with
  | (_, Some e) => inr (EWraps (sentinel_text ErrInvalidResponse +:+ " for " +:+ method +:+ ": " +:+ wire_text e)
                          [ESentinel ErrInvalidResponse; ESentinel ErrMalformed])
  | (resp, None) =>
      match ResponseError resp, ResponseResult resp with
      | Some e, _ => inr (ERemote (ErrMethod e) (ErrCode e) (ErrMessage e))
      | None, Some res =>
          if decide (ResMethod res <> method) then
            inr (EWrap (sentinel_text ErrInvalidResponse +:+ ": reply for " +:+ method +:+ " answers " +:+ Quote (ResMethod res))
                   (ESentinel ErrInvalidResponse))
          else match unmarshal (ResData res) with
          | Some e => inr (EWraps (sentinel_text ErrInvalidResponse +:+ " for " +:+ method +:+ ": " +:+ error_text e)
                             [ESentinel ErrInvalidResponse; e])
          | None => inl (ResData res)
          end
      (* a nil dereference, never reached: see [DecodeResponse_member] *)
      | None, None => inr (EText "nil dereference")
      end
  end.

End Handling.

(** ** Properties *)

Section ServiceProps.
Context {P : Protowire} {A : GoArch}.

(** Which requests reach user code. *)
Lemma handle_dispatched (s : Service) (H : handlers) (d : Delivery) :
  match fst (handle s H d) with
  | None => exists label reason, snd (handle s H d) = rejection s label reason
  | Some call =>
      let '(m, info, kind) := match call with CallUnary m i => (m, i, false) | CallStream m i => (m, i, true) end in
      exists env md, DecodeRequest (Body d) = (env, None) /\
        ReqMethod env = fullName (scontract s) +:+ "." +:+ m /\ contains_char dot m = false /\
        ByName (scontract s) m = Some md /\ streamingServer md = kind /\
        (if kind then m ∈ streams s else m ∈ unary s) /\ info = call_info env d /\
        (RoutingKey d <> "" ->
         HasPrefix (RoutingKey d) ("REQUEST." +:+ name s +:+ ".") = true /\ lastSegment (RoutingKey d) = m) /\
        snd (handle s H d) =
          if kind then serveStream s (ReqMethod env) (on_stream H m info (ReqData env) (ServerStream.newStream (ReqMethod env)))
          else serveUnary s (ReqMethod env) (on_unary H m info (ReqData env))
  end.
Proof.
  unfold handle. destruct (DecodeRequest (Body d)) as [env [e|]]; [by eexists _, _|].
  destruct (bool_decide (RoutingKey d <> "") && negb _) eqn:E1; [by eexists _, _|].
  destruct (bool_decide (RoutingKey d <> "") && bool_decide _) eqn:E2; [by eexists _, _|].
  destruct (splitMethodName (ReqMethod env)) as [[sv m]|] eqn:Es; [|by eexists _, _].
  destruct (decide (sv <> fullName (scontract s))) as [Hsv|Hsv]; [by eexists _, _|]. apply dec_stable in Hsv as ->.
  destruct (ByName (scontract s) m) as [md|] eqn:Eb; [|by eexists _, _].
  apply splitMethodName_spec in Es as (Hm & _ & Hne & Hdot).
  assert (RoutingKey d <> "" ->
    HasPrefix (RoutingKey d) ("REQUEST." +:+ name s +:+ ".") = true /\ lastSegment (RoutingKey d) = m) as Hkey.
  { intros Hk. rewrite (bool_decide_true (RoutingKey d <> "")) in E1, E2 by done. simpl in E1, E2.
    rewrite decide_False in E2 by done. apply negb_false_iff in E1. apply bool_decide_eq_false, dec_stable in E2.
    split; [done|]. by rewrite E2, Hm, lastSegment_app. }
  destruct (streamingServer md) eqn:Ek; [destruct (decide (m ∈ streams s))|destruct (decide (m ∈ unary s))];
    try (by eexists _, _); exists env, md; split_and!; done.
Qed.

(** C21: dispatch is bound to the key the broker delivered on, not to the
    publisher's bytes. User code runs only for a request that decodes, whose
    envelope names, in full, a method of this contract registered with the kind
    its schema declares, and whose routing key (when there is one) belongs to
    this service and ends in that same method; it then runs on the request's
    payload, and its answer is the reply. Every other request is answered with a
    protocol error and not retried. *)
Theorem handle_dispatch (s : Service) (H : handlers) (d : Delivery) :
  match fst (handle s H d) with
  | None => exists label reason, snd (handle s H d) = rejection s label reason
  | Some call =>
      let '(m, info, kind) := match call with CallUnary m i => (m, i, false) | CallStream m i => (m, i, true) end in
      exists env md, DecodeRequest (Body d) = (env, None) /\
        ReqMethod env = fullName (scontract s) +:+ "." +:+ m /\ contains_char dot m = false /\
        ByName (scontract s) m = Some md /\ streamingServer md = kind /\
        (if kind then m ∈ streams s else m ∈ unary s) /\ info = call_info env d /\
        (RoutingKey d <> "" ->
         HasPrefix (RoutingKey d) ("REQUEST." +:+ name s +:+ ".") = true /\ lastSegment (RoutingKey d) = m) /\
        snd (handle s H d) =
          if kind then serveStream s (ReqMethod env) (on_stream H m info (ReqData env) (ServerStream.newStream (ReqMethod env)))
          else serveUnary s (ReqMethod env) (on_unary H m info (ReqData env))
  end.
Proof. exact (handle_dispatched s H d). Qed.


Context {L : ProtowireLaws P}.

Lemma error_body_spec m ce :
  error_ok {| ErrMethod := m; ErrMessage := ceMessage ce; ErrCode := ceCode ce |} = true ->
  DecodeResponse (ServerStream.error_body m ce)
  = ({| ResponseResult := None;
        ResponseError := Some {| ErrMethod := m; ErrMessage := ceMessage ce; ErrCode := ceCode ce |} |}, None).
Proof.
  intros Hok. unfold ServerStream.error_body.
  set (r := {| ResponseResult := None; ResponseError := Some _ |}).
  destruct (response_encoded r [] Hok) as (b & -> & Hb); [constructor|]. by rewrite app_nil_r in Hb.
Qed.

Lemma HasPrefix_app a b : HasPrefix (a +:+ b) a = true.
Proof.
  unfold HasPrefix. induction a as [|c a IH]; [by destruct b|]. rewrite string_app_cons. simpl.
  destruct (ascii_dec c c); [exact IH|done].
Qed.

Lemma check_all_in check ns n : check_all check ns = None -> n ∈ ns -> check n = None.
Proof.
  induction ns as [|x ns IH]; simpl; [by intros _ ?%elem_of_nil|].
  destruct (check x) eqn:E; [done|]. intros Hc [->|Hin]%elem_of_cons; [done|]. by apply IH.
Qed.

Lemma Register_unary find o impl desc x s m :
  Register find o impl desc x = inl s -> m ∈ Methods desc ->
  name s = runtimeName (ServiceName desc) (instance o) /\ find (ServiceName desc) = FoundService (scontract s) /\
  m ∈ unary s /\ ExposeInternalErrors s = x /\
  exists md, ByName (scontract s) m = Some md /\ streamingServer md = false.
Proof.
  unfold Register. destruct (validate o); [done|]. destruct impl; [done|].
  destruct (find (ServiceName desc)) as [c| |]; [|done|done].
  destruct (check_all (check_unary _ c) (Methods desc)) eqn:E1; [done|].
  destruct (check_all (check_stream _ c) (Streams desc)); [done|]. intros [= <-] Hm. simpl. split_and!; try done.
  pose proof (check_all_in _ _ _ E1 Hm) as Hc. unfold check_unary in Hc.
  destruct (ByName c m) as [md|]; [|done]. exists md. split; [done|].
  destruct (streamingServer md); [done|]. by destruct (streamingClient md).
Qed.

(** A request for a registered unary method, delivered on the service's key,
    runs its handler. *)
Lemma unary_delivered s H d m env md :
  DecodeRequest (Body d) = (env, None) -> ReqMethod env = fullName (scontract s) +:+ "." +:+ m ->
  RoutingKey d = routingKey (name s) m -> fullName (scontract s) <> "" -> m <> "" -> contains_char dot m = false ->
  ByName (scontract s) m = Some md -> streamingServer md = false -> m ∈ unary s ->
  handle s H d = (Some (CallUnary m (call_info env d)),
    serveUnary s (ReqMethod env) (on_unary H m (call_info env d) (ReqData env))).
Proof.
  intros Hdec Hmeth Hkey Hsn Hmne Hdot Hmd Hkind Hun.
  assert (RoutingKey d <> "") as Hkne by (by rewrite Hkey).
  assert (HasPrefix (RoutingKey d) ("REQUEST." +:+ name s +:+ ".") = true) as Hpre.
  { rewrite Hkey. unfold routingKey. rewrite <-!string_app_assoc.
    rewrite (string_app_assoc _ "." m), <-string_app_assoc. apply HasPrefix_app. }
  assert (lastSegment (RoutingKey d) = m) as Hseg.
  { rewrite Hkey. unfold routingKey. rewrite <-string_app_assoc. by apply lastSegment_app. }
  unfold handle. rewrite Hdec, Hpre, !(bool_decide_true (RoutingKey d <> "")) by done. simpl.
  rewrite decide_False, Hseg, Hmeth, lastSegment_app, bool_decide_false by (done || naive_solver).
  rewrite splitMethodName_app by done. rewrite decide_False by (intros ?; done).
  rewrite Hmd, Hkind, decide_True by done. done.
Qed.

(** What user code made of a request, as an error: its own, or that its answer
    does not encode. *)
Definition user_error (m : string) (a : unary_answer) : option err :=
  match a with
  | UErr e => Some e
  | UResp (inr e) => Some (EWrap ("encoding the response of " +:+ m +:+ ": " +:+ error_text e) e)
  | _ => None
  end.

Definition payload (a : unary_answer) : bytes := match a with UResp (inl data) => data | _ => [] end.

(** The error a failure is answered with at once. *)
Definition told (m : string) (e : err) : err :=
  if is_payload_error e then newProtocolError ("payload did not decode as the request type of " +:+ m)
  else if is_sentinel ErrUnimplemented e then newProtocolError ("invalid service method " +:+ lastSegment m)
  else e.

Lemma serveUnary_answer s m a :
  serveUnary s m a = match user_error m a with
                     | None => replied (ServerStream.result_body m (payload a))
                     | Some e => failure s m e
                     end.
Proof. by destruct a as [| |[|]]. Qed.

Lemma failure_told s m e : herr (failure s m e) = None -> failure s m e = replied (encodeError s m (told m e)).
Proof.
  unfold failure, told. destruct (is_payload_error e); [done|]. destruct (is_sentinel ErrUnimplemented e); [done|].
  by destruct (asAnswerable e).
Qed.

(** What a caller makes of an answer. *)
Definition caller_sees (expose : bool) (m : string) (a : unary_answer) : bytes + err :=
  match user_error m a with
  | None => inl (payload a)
  | Some e => let ce := sanitizeForCaller (told m e) expose in inr (ERemote m (ceCode ce) (ceMessage ce))
  end.

(** An answer made at once, within what an envelope holds and the caller's
    message type accepts. *)
Definition prompt (s : Service) (unmarshal : bytes -> option err) (m : string) (a : unary_answer) : Prop :=
  match user_error m a with
  | None => result_ok {| ResMethod := m; ResData := payload a |} = true /\ unmarshal (payload a) = None
  | Some e => let ce := sanitizeForCaller (told m e) (ExposeInternalErrors s) in
      herr (failure s m e) = None /\ error_ok {| ErrMethod := m; ErrMessage := ceMessage ce; ErrCode := ceCode ce |} = true
  end.

(** A unary call between envelopes: a client and a service registered for the
    same contract under the same instance agree on the route and the envelope.
    The request reaches the registered handler with the payload and actor the
    client sent, and the reply decodes to what the caller is to see. *)
Lemma unary_call (find : string -> found) (o : serviceOptions) (impl : option err) (desc : ServiceDesc) (x : bool)
    (s : Service) (H : handlers) (m actor : string) (data : bytes) (d : Delivery) (body : bytes)
    (wire_text : wire_error -> string) (unmarshal : bytes -> option err) :
  let c := NewClient (ServiceName desc) (instance o) in
  let full := ServiceName desc +:+ "." +:+ m in
  let info := call_info {| ReqMethod := full; Actor := actor; ReqData := data |} d in
  Register find o impl desc x = inl s -> fullName (scontract s) = ServiceName desc ->
  m ∈ Methods desc -> ServiceName desc <> "" -> m <> "" -> contains_char dot m = false ->
  request_ok {| ReqMethod := full; Actor := actor; ReqData := data |} = true ->
  envelope c m (inl data) actor = inl body -> Body d = body -> RoutingKey d = routingKey (runtime c) m ->
  handle s H d = (Some (CallUnary m info), serveUnary s full (on_unary H m info data)) /\
  (prompt s unmarshal full (on_unary H m info data) ->
     herr (snd (handle s H d)) = None /\
     exists b, reply (snd (handle s H d)) = Some b /\
       decodeReply wire_text unmarshal b full = caller_sees x full (on_unary H m info data)).
Proof.
  simpl. intros Hreg Hfull Hm Hsn Hmne Hdot Hreq Henv Hbody Hkey.
  destruct (Register_unary _ _ _ _ _ _ _ Hreg Hm) as (Hname & _ & Hun & Hx & md & Hmd & Hkind).
  set (env := {| ReqMethod := ServiceName desc +:+ "." +:+ m; Actor := actor; ReqData := data |}) in *.
  assert (DecodeRequest (Body d) = (env, None)) as Hdec.
  { unfold envelope in Henv. simpl in Henv. destruct (validInstance (instance o)); [done|].
    injection Henv as <-. rewrite Hbody. by apply request_encoded. }
  assert (handle s H d = (Some (CallUnary m (call_info env d)),
    serveUnary s (ReqMethod env) (on_unary H m (call_info env d) data))) as Hh.
  { eapply unary_delivered; try done; simpl; rewrite ?Hfull, ?Hname; done. }
  split; [done|]. rewrite Hh. cbn [snd]. set (a := on_unary H m (call_info env d) data).
  unfold prompt, caller_sees. rewrite serveUnary_answer. cbn [ReqMethod env]. destruct (user_error _ a) as [e|].
  - intros [Hp Hok]. split; [done|]. rewrite (failure_told _ _ _ Hp). simpl. eexists. split; [done|].
    unfold decodeReply, encodeError. rewrite (error_body_spec _ _ Hok). simpl. by rewrite Hx.
  - intros [Hok Hum]. split; [done|]. simpl. eexists. split; [done|]. unfold decodeReply. destruct (result_body_spec _ _ Hok) as [_ ->].
    simpl. rewrite decide_False by (intros ?; done). by rewrite Hum.
Qed.

Lemma Register_valid find o impl desc x s :
  Register find o impl desc x = inl s ->
  validate o = None /\ opts s = o /\ name s = runtimeName (ServiceName desc) (instance o) /\ ExposeInternalErrors s = x.
Proof.
  unfold Register. destruct (validate o); [done|]. destruct impl; [done|]. destruct (find (ServiceName desc)) as [c| |]; [|done|done].
  destruct (check_all _ (Methods desc)); [done|]. destruct (check_all _ (Streams desc)); [done|]. by intros [= <-].
Qed.

Lemma validate_bounds o : validate o = None -> 1 <= maxConcurrent o <= 65535 /\ validInstance (instance o) = None.
Proof.
  unfold validate. destruct (_ || _) eqn:E1; [done|]. apply orb_false_iff in E1 as [?%Z.ltb_ge ?%Z.ltb_ge].
  destruct (_ || _); [done|]. destruct (_ || _ || _); [done|]. destruct (_ || _); [done|]. destruct (processingTimeout o <? 0); [done|].
  destruct (validInstance (instance o)); [done|]. done.
Qed.

End ServiceProps.

(** ** A sample service *)

Definition calc : contract :=
  {| fullName := "Calc.Service"; methods := [{| mname := "add"; streamingServer := false; streamingClient := false |}] |}.

Definition calc_options : serviceOptions := {|
  instance := "blue"; maxConcurrent := 1; oretry := DefaultRetryPolicy; earlyAck := false; processingTimeout := 0;
  maxPriority := None; eventRetry := {| EMaxRetries := 0; EDelay := 0 |}; eventConcurrency := 1 |}.

Definition calc_desc : ServiceDesc := {| ServiceName := "Calc.Service"; Methods := ["add"]; Streams := [] |}.

Definition calc_service : Service := {|
  scontract := calc; name := "Calc.Service.blue"; opts := calc_options; unary := ["add"]; streams := [];
  ExposeInternalErrors := false |}.

Definition calc_handlers : handlers := {|
  on_unary := fun _ _ data => UResp (inl (data ++ data));
  on_stream := fun _ _ _ ss => {| after := ss; serr := None; senv := sample_env |} |}.
