(* ===== verification/Dispatcher.v ===== *)
(** * Dispatcher: the caller side of RPC (dispatcher.go)

    [Calls] is the table of calls awaiting replies, as a step relation over any
    number of callers, the goroutine that reads replies and the supervisor that
    fails calls when the connection is lost. A [*pendingCall] is a number; its
    one-place channel [done] is the entry of [results] under it.

    [StreamLoop] is one turn of the loop that yields a stream's chunks. The
    buffer it reads is [ClientStream] of Stream.v. *)
From S2P Require Import Prelude GoStrings Headers Errors Stream.

Local Open Scope Z_scope.

(** ** Unary calls *)

(** The reply body, or the error. *)
Abbreviation callResult := (bytes + err)%type.

Record callOptions := {
  actor : string; priority : option Z; messageID : option string; noReply : bool; ctimeout : Z
}.

(** [validateMessageID] and [callOptions.validate] (options.go) *)
Definition maxMessageIDBytes : Z := 255.

Definition validateMessageID (id : option string) : option err :=
  match id with
  | None => None
  | Some s =>
      if negb (utf8_valid (to_bytes s)) || bool_decide (TrimSpace s = []) then
        Some (EWrap (sentinel_text ErrInvalidMessageID
          +:+ ": must be a non-blank string; leave it unset to have one generated") (ESentinel ErrInvalidMessageID))
      else if maxMessageIDBytes <? slen s then
        Some (EWrap (sentinel_text ErrInvalidMessageID +:+ ": " +:+ pretty (slen s)
          +:+ " bytes, AMQP allows at most 255; hash a long key rather than concatenating it")
          (ESentinel ErrInvalidMessageID))
      else None
  end.

Definition validate_call (o : callOptions) : option err :=
  match validateMessageID (messageID o) with
  | Some e => Some e
  | None => if ctimeout o <? 0
            then Some (EText ("protobus: negative call timeout " +:+ duration_string (ctimeout o)))
            else None
  end.

(** The timeout a call adds to its context, 0 for none. *)
Definition call_limit (o : callOptions) (hasDeadline : bool) (rpcTimeout : Z) : Z :=
  if negb hasDeadline && (ctimeout o =? 0) then rpcTimeout else ctimeout o.

(** The request message, before ReplyTo is filled in. *)
Definition call_message (o : callOptions) (uuid : string) (body : bytes) : Publishing := {|
  PHeaders := ∅; PContentType := contentTypeOctetStream; PContentEncoding := ""; PDeliveryMode := Persistent;
  PPriority := default 0 (priority o); PCorrelationId := uuid; PReplyTo := ""; PMessageId := default "" (messageID o);
  PTimestamp := 0; PType := ""; PAppId := ""; PBody := body |}.

(** [timeout] in [call]: a deadline is reported as the call's timeout. *)
Definition call_error (key cid : string) (e : err) : err :=
  if is_sentinel CtxDeadlineExceeded e then rpcTimeoutError key cid e else e.

(** Where a call stands. *)
Inductive cphase :=
| CChannel
| CPublishing (ptr : option nat)
| CWaiting (ptr : nat)
| CDone (r : option callResult).

Record caller := { cid : string; ckey : string; cnoReply : bool; cphase_of : cphase }.

Record dispatcher := {
  callers : list caller;
  calls : gmap string nat;
  (* by pendingCall: the outcome taken for it by whoever removed it from the
     table, and whether it is in its channel yet: the send follows the removal,
     outside the lock *)
  results : gmap nat callResult;
  next_ptr : nat;
  (* the replies the broker delivered, in order *)
  replies : list (string * bytes);
  arrived : gset nat
}.

Definition newDispatcher : dispatcher :=
  {| callers := []; calls := ∅; results := ∅; next_ptr := 0; replies := []; arrived := ∅ |}.

Definition with_cphase (f : cphase) (c : caller) : caller :=
  {| cid := cid c; ckey := ckey c; cnoReply := cnoReply c; cphase_of := f |}.

Definition set_caller (k : nat) (f : cphase) (d : dispatcher) : dispatcher :=
  {| callers := alter (with_cphase f) k (callers d); calls := calls d; results := results d;
     next_ptr := next_ptr d; replies := replies d; arrived := arrived d |}.

(** [resolve]: the first outcome wins, and it never blocks. *)
Definition resolve (ptr : nat) (r : callResult) (rs : gmap nat callResult) : gmap nat callResult :=
  match rs !! ptr with Some _ => rs | None => <[ptr := r]> rs end.

(** [route], for a reply no stream claims. *)
Definition route (id : string) (body : bytes) (d : dispatcher) : dispatcher :=
  let log := replies d ++ [(id, body)] in
  match calls d !! id with
  | None => {| callers := callers d; calls := calls d; results := results d; next_ptr := next_ptr d; replies := log; arrived := arrived d |}
  | Some ptr =>
      {| callers := callers d; calls := delete id (calls d); results := resolve ptr (inl body) (results d);
         next_ptr := next_ptr d; replies := log; arrived := arrived d |}
  end.

(** [failPending], on the calls. *)
Definition failPending (e : err) (d : dispatcher) : dispatcher :=
  {| callers := callers d; calls := ∅;
     results := foldr (fun p rs => resolve p (inr e) rs) (results d) (map snd (map_to_list (calls d)));
     next_ptr := next_ptr d; replies := replies d; arrived := arrived d |}.

(** [forget]: only the pendingCall still registered under the id. *)
Definition forget (id : string) (ptr : nat) (d : dispatcher) : dispatcher :=
  if decide (calls d !! id = Some ptr) then
    {| callers := callers d; calls := delete id (calls d); results := results d; next_ptr := next_ptr d;
          replies := replies d; arrived := arrived d |}
  else d.

Definition forget_opt (id : string) (ptr : option nat) (d : dispatcher) : dispatcher :=
  match ptr with Some p => forget id p d | None => d end.

(** Register a fresh pendingCall under the call's id. *)
Definition registered (k : nat) (c : caller) (d : dispatcher) : dispatcher :=
  if cnoReply c then set_caller k (CPublishing None) d
  else {| callers := alter (with_cphase (CPublishing (Some (next_ptr d)))) k (callers d);
          calls := <[cid c := next_ptr d]> (calls d); results := results d; next_ptr := S (next_ptr d);
          replies := replies d; arrived := arrived d |}.

Inductive cstep : dispatcher -> dispatcher -> Prop :=
(* a call begins under a correlation id nobody uses *)
| call_begin d id key nr :
    (forall k c, callers d !! k = Some c -> cid c <> id) ->
    cstep d {| callers := callers d ++ [{| cid := id; ckey := key; cnoReply := nr; cphase_of := CChannel |}];
               calls := calls d; results := results d; next_ptr := next_ptr d; replies := replies d; arrived := arrived d |}
| channel_failed d k c e :
    callers d !! k = Some c -> cphase_of c = CChannel ->
    cstep d (set_caller k (CDone (Some (inr (call_error (ckey c) (cid c) e)))) d)
| channel_ok d k c :
    callers d !! k = Some c -> cphase_of c = CChannel -> cstep d (registered k c d)
| publish_ok d k c ptr :
    callers d !! k = Some c -> cphase_of c = CPublishing ptr ->
    cstep d (set_caller k (match ptr with Some p => CWaiting p | None => CDone None end) d)
(* errChannelGone: never sent; wait for a channel and send again *)
| publish_gone d k c ptr :
    callers d !! k = Some c -> cphase_of c = CPublishing ptr ->
    cstep d (set_caller k CChannel (forget_opt (cid c) ptr d))
| publish_failed d k c ptr e :
    callers d !! k = Some c -> cphase_of c = CPublishing ptr ->
    cstep d (set_caller k (CDone (Some (inr (call_error (ckey c) (cid c) e)))) (forget_opt (cid c) ptr d))
| wait_result d k c ptr r :
    callers d !! k = Some c -> cphase_of c = CWaiting ptr -> results d !! ptr = Some r -> ptr ∈ arrived d ->
    cstep d (set_caller k (CDone (Some r)) d)
| wait_ctx d k c ptr e :
    callers d !! k = Some c -> cphase_of c = CWaiting ptr ->
    cstep d (set_caller k (CDone (Some (inr (call_error (ckey c) (cid c) e)))) (forget (cid c) ptr d))
| reply_arrives d id body : cstep d (route id body d)
| outcome_sent d p r :
    results d !! p = Some r ->
    cstep d {| callers := callers d; calls := calls d; results := results d; next_ptr := next_ptr d;
               replies := replies d; arrived := {[p]} ∪ arrived d |}
| connection_lost d e : cstep d (failPending e d).

(** *** Invariant *)

(** The pendingCall of an active call. *)
Definition ptr_of (c : caller) : option nat :=
  match cphase_of c with CPublishing p => p | CWaiting p => Some p | _ => None end.

Record cinv (d : dispatcher) : Prop := {
  (* an entry belongs to an active call, unresolved *)
  cinv_calls : forall id p, calls d !! id = Some p ->
    exists k c, callers d !! k = Some c /\ cid c = id /\ ptr_of c = Some p /\ results d !! p = None;
  (* an active call is registered, or has its outcome *)
  cinv_active : forall k c p, callers d !! k = Some c -> ptr_of c = Some p ->
    calls d !! cid c = Some p \/ is_Some (results d !! p);
  (* a reply in a call's channel came in under the call's own id *)
  cinv_own : forall k c p b, callers d !! k = Some c -> ptr_of c = Some p -> results d !! p = Some (inl b) ->
    (cid c, b) ∈ replies d;
  cinv_done : forall k c b, callers d !! k = Some c -> cphase_of c = CDone (Some (inl b)) -> (cid c, b) ∈ replies d;
  cinv_fresh : forall p, is_Some (results d !! p) \/ (exists k c, callers d !! k = Some c /\ ptr_of c = Some p) ->
    (p < next_ptr d)%nat;
  cinv_ids : forall k k' c c', callers d !! k = Some c -> callers d !! k' = Some c' -> cid c = cid c' -> k = k';
  cinv_ptrs : forall k k' c c' p, callers d !! k = Some c -> callers d !! k' = Some c' ->
    ptr_of c = Some p -> ptr_of c' = Some p -> k = k'
}.

(** A step that changes one caller's phase, and perhaps drops its entry. *)
Lemma cinv_rephase d k c f m :
  cinv d -> callers d !! k = Some c -> (ptr_of (with_cphase f c) = None \/ ptr_of (with_cphase f c) = ptr_of c) ->
  (forall b, f = CDone (Some (inl b)) -> (cid c, b) ∈ replies d) ->
  (m = calls d /\ (ptr_of (with_cphase f c) = ptr_of c \/ forall p, ptr_of c = Some p -> is_Some (results d !! p)) \/
   m = delete (cid c) (calls d) /\ ptr_of (with_cphase f c) = None) ->
  cinv {| callers := alter (with_cphase f) k (callers d); calls := m; results := results d; next_ptr := next_ptr d;
          replies := replies d; arrived := arrived d |}.
Proof.
  intros H Hk Hptr Hdone Hm.
  assert (forall j x, alter (with_cphase f) k (callers d) !! j = Some x <->
    (j = k /\ x = with_cphase f c) \/ (j <> k /\ callers d !! j = Some x)) as Hl.
  { intros j x. destruct (decide (j = k)) as [->|Hj].
    - rewrite list_lookup_alter_eq, Hk. naive_solver.
    - rewrite list_lookup_alter_ne by done. naive_solver. }
  destruct H as [Hca Hac Hown Hdo Hfr Hid Hpt]. split; simpl.
  - intros id p Hp. assert (calls d !! id = Some p) as Hp'.
    { destruct Hm as [[-> _]|[-> _]]; [done|]. by apply lookup_delete_Some in Hp as [_ ?]. }
    destruct (Hca id p Hp') as (j & x & Hj & Hid' & Hpx & Hr). destruct (decide (j = k)) as [->|Hne].
    + assert (x = c) as -> by congruence. exists k, (with_cphase f c). rewrite Hl. split; [by left|].
      split; [done|]. split; [|done].
      destruct Hm as [(_ & [E|E])|[-> E]].
      * by rewrite E.
      * destruct (E p Hpx) as [? ?]; congruence.
      * subst id. by rewrite lookup_delete_eq in Hp.
    + exists j, x. rewrite Hl. naive_solver.
  - intros j x p [[-> ->]|[Hne Hj]]%Hl Hpx.
    + destruct Hptr as [E|E]; [congruence|]. rewrite E in Hpx. destruct (Hac k c p Hk Hpx) as [Hc|?]; [|by right].
      destruct Hm as [[-> _]|[_ E']]; [by left|]. rewrite E' in E. congruence.
    + destruct (Hac j x p Hj Hpx) as [Hc|?]; [|by right]. left. destruct Hm as [[-> _]|[-> _]]; [done|].
      rewrite lookup_delete_ne; [done|]. intros E. by apply Hne, (Hid j k x c).
  - intros j x p b [[-> ->]|[Hne Hj]]%Hl Hpx Hr; [|by eapply Hown].
    destruct Hptr as [E|E]; [congruence|]. rewrite E in Hpx. by eapply (Hown k c).
  - intros j x b [[-> ->]|[Hne Hj]]%Hl Hph; [by apply Hdone|by eapply Hdo].
  - intros p [Hp|(j & x & [[-> ->]|[Hne Hj]]%Hl & Hpx)]; apply Hfr; [by left| |right; by exists j, x].
    destruct Hptr as [E|E]; [congruence|]. right. exists k, c. by rewrite <-E.
  - intros j j' x x' [[-> ->]|[Hne Hj]]%Hl [[-> ->]|[Hne' Hj']]%Hl E; try done; by eapply Hid.
  - assert (forall p, ptr_of (with_cphase f c) = Some p -> ptr_of c = Some p) as Hp'.
    { intros p E'. destruct Hptr as [E|E]; congruence. }
    intros j j' x x' p [[-> ->]|[Hne Hj]]%Hl [[-> ->]|[Hne' Hj']]%Hl E E'; try done; eapply Hpt; eauto.
Qed.

Lemma cinv_register d k c :
  cinv d -> callers d !! k = Some c -> cphase_of c = CChannel -> cnoReply c = false -> cinv (registered k c d).
Proof.
  intros H Hk Hph Hnr. unfold registered. rewrite Hnr. destruct H as [Hca Hac Hown Hdo Hfr Hid Hpt].
  set (f := CPublishing (Some (next_ptr d))).
  assert (forall j x, alter (with_cphase f) k (callers d) !! j = Some x <->
    (j = k /\ x = with_cphase f c) \/ (j <> k /\ callers d !! j = Some x)) as Hl.
  { intros j x. destruct (decide (j = k)) as [->|Hj].
    - rewrite list_lookup_alter_eq, Hk. naive_solver.
    - rewrite list_lookup_alter_ne by done. naive_solver. }
  assert (ptr_of c = None) as Hpc by (unfold ptr_of; by rewrite Hph).
  assert (results d !! next_ptr d = None) as Hnew.
  { destruct (results d !! next_ptr d) eqn:E; [|done]. pose proof (Hfr (next_ptr d) (or_introl (mk_is_Some _ _ E))). lia. }
  assert (forall j x, callers d !! j = Some x -> ptr_of x = Some (next_ptr d) -> False) as Hnp.
  { intros j x Hj Hx. pose proof (Hfr (next_ptr d) (or_intror (ex_intro _ j (ex_intro _ x (conj Hj Hx))))). lia. }
  split; simpl.
  - intros id p [[<- <-]|[Hne Hp]]%lookup_insert_Some.
    + exists k, (with_cphase f c). rewrite Hl. naive_solver.
    + destruct (Hca id p Hp) as (j & x & Hj & Hid' & Hpx & Hr). exists j, x. rewrite Hl.
      assert (j <> k) by (intros ->; rewrite Hk in Hj; injection Hj as ->; congruence). naive_solver.
  - intros j x p [[-> ->]|[Hne Hj]]%Hl Hpx.
    + injection Hpx as <-. left. by rewrite lookup_insert_eq.
    + destruct (Hac j x p Hj Hpx) as [Hc|?]; [|by right]. left. rewrite lookup_insert_ne; [done|].
      intros E. by apply Hne, (Hid j k x c).
  - intros j x p b [[-> ->]|[Hne Hj]]%Hl Hpx Hr; [|by eapply Hown]. injection Hpx as <-. congruence.
  - intros j x b [[-> ->]|[Hne Hj]]%Hl Hph'; [done|by eapply Hdo].
  - intros p [Hp|(j & x & [[-> ->]|[Hne Hj]]%Hl & Hpx)].
    + pose proof (Hfr p (or_introl Hp)). lia.
    + injection Hpx as <-. lia.
    + pose proof (Hfr p (or_intror (ex_intro _ j (ex_intro _ x (conj Hj Hpx))))). lia.
  - intros j j' x x' [[-> ->]|[Hne Hj]]%Hl [[-> ->]|[Hne' Hj']]%Hl E; try done; by eapply Hid.
  - intros j j' x x' p [[-> ->]|[Hne Hj]]%Hl [[-> ->]|[Hne' Hj']]%Hl E E'; try done.
    + injection E as <-. by destruct (Hnp j' x').
    + injection E' as <-. by destruct (Hnp j x).
    + by eapply Hpt.
Qed.

Lemma resolve_lookup p r rs q :
  resolve p r rs !! q = match rs !! q with Some x => Some x | None => if decide (q = p) then Some r else None end.
Proof.
  unfold resolve. destruct (rs !! p) eqn:E.
  - destruct (rs !! q) eqn:Eq; [done|]. case_decide; [congruence|done].
  - destruct (decide (q = p)) as [->|Hne]; [by rewrite lookup_insert_eq, E|].
    rewrite lookup_insert_ne by done. by destruct (rs !! q).
Qed.

Lemma resolve_all_lookup e ps rs q :
  foldr (fun p m => resolve p (inr e) m) rs ps !! q
  = match rs !! q with Some x => Some x | None => if decide (q ∈ ps) then Some (inr e) else None end.
Proof.
  induction ps as [|p ps IH]; simpl; [by destruct (rs !! q)|]. rewrite resolve_lookup, IH.
  destruct (rs !! q); [done|]. destruct (decide (q ∈ ps)) as [Hin|Hin].
  - rewrite decide_True; [done|]. by right.
  - destruct (decide (q = p)) as [->|Hne].
    + rewrite decide_True; [done|]. by left.
    + rewrite decide_False; [done|]. by intros [?|?]%elem_of_cons.
Qed.

(** Outcomes arrive: registered calls leave the table with one. *)
Lemma cinv_outcomes d m rs log :
  cinv d -> (forall x, x ∈ replies d -> x ∈ log) ->
  (forall p r, results d !! p = Some r -> rs !! p = Some r) ->
  (forall p, is_Some (rs !! p) -> is_Some (results d !! p) \/ exists id, calls d !! id = Some p) ->
  (forall id p, m !! id = Some p -> calls d !! id = Some p /\ rs !! p = None) ->
  (forall id p, calls d !! id = Some p -> m !! id = Some p \/ is_Some (rs !! p)) ->
  (forall id p b, calls d !! id = Some p -> rs !! p = Some (inl b) -> (id, b) ∈ log) ->
  cinv {| callers := callers d; calls := m; results := rs; next_ptr := next_ptr d; replies := log; arrived := arrived d |}.
Proof.
  intros H Hlog Hold Hnew Hm Hm' Hb. pose proof H as [Hca Hac Hown Hdo Hfr Hid Hpt]. split; simpl.
  - intros id p [Hp Hr]%Hm. destruct (Hca id p Hp) as (k & c & ? & ? & ? & _). by exists k, c.
  - intros k c p Hk Hp. destruct (Hac k c p Hk Hp) as [Hc|[r Hr]]; [|right; eauto]. by apply Hm'.
  - intros k c p b Hk Hp Hr. destruct (Hac k c p Hk Hp) as [Hc|[r Hr']]; [by eapply Hb|].
    apply Hlog. eapply (Hown k c p); [done|done|]. rewrite (Hold p r Hr') in Hr. congruence.
  - intros k c b Hk Hph. apply Hlog. by eapply Hdo.
  - intros p [Hp|Hp]; [|apply Hfr; by right]. destruct (Hnew p Hp) as [Hp'|[id Hc]]; apply Hfr; [by left|].
    destruct (Hca id p Hc) as (k & c & ? & ? & ? & _). right. by exists k, c.
  - done.
  - done.
Qed.

Lemma cinv_calls_inj d id id' p : cinv d -> calls d !! id = Some p -> calls d !! id' = Some p -> id = id'.
Proof.
  intros H Hp Hp'. destruct (cinv_calls d H _ _ Hp) as (k & c & Hk & <- & Hc & _).
  destruct (cinv_calls d H _ _ Hp') as (k' & c' & Hk' & <- & Hc' & _).
  assert (k = k') as -> by (by eapply (cinv_ptrs d H)). congruence.
Qed.

Lemma cinv_route d id body : cinv d -> cinv (route id body d).
Proof.
  intros H. unfold route.
  assert (forall x, x ∈ replies d -> x ∈ replies d ++ [(id, body)]) as Hlog by (intros x ?; apply elem_of_app; by left).
  destruct (calls d !! id) as [p|] eqn:Ep; (apply cinv_outcomes; [done|done|..]).
  - intros q r Hr. by rewrite resolve_lookup, Hr.
  - intros q [r Hr]. rewrite resolve_lookup in Hr. destruct (results d !! q); [by left; eexists|].
    case_decide; [subst; right; by exists id|done].
  - intros i q [Hne Hq]%lookup_delete_Some. split; [done|]. rewrite resolve_lookup.
    destruct (cinv_calls d H i q Hq) as (_ & _ & _ & _ & _ & ->). rewrite decide_False; [done|].
    intros ->. by apply Hne, (cinv_calls_inj d id i p).
  - intros i q Hq. destruct (decide (i = id)) as [->|Hne].
    + right. assert (q = p) as -> by congruence. rewrite resolve_lookup.
      destruct (results d !! p); [by eexists|]. rewrite decide_True by done. by eexists.
    + left. by rewrite lookup_delete_ne.
  - intros i q b Hq Hr. rewrite resolve_lookup in Hr.
    destruct (cinv_calls d H i q Hq) as (_ & _ & _ & _ & _ & Hn). rewrite Hn in Hr.
    case_decide; [|done]. simplify_eq. assert (i = id) as -> by (by eapply (cinv_calls_inj d)).
    apply elem_of_app. right. by left.
  - done.
  - intros p ?. by left.
  - intros i p Hp. by destruct (cinv_calls d H i p Hp) as (_ & _ & _ & _ & _ & ?).
  - intros i p Hp. by left.
  - intros i p b Hp Hr. destruct (cinv_calls d H i p Hp) as (_ & _ & _ & _ & _ & ?). congruence.
Qed.

Lemma cinv_fail d e : cinv d -> cinv (failPending e d).
Proof.
  intros H. unfold failPending.
  assert (forall q, q ∈ map snd (map_to_list (calls d)) <-> exists id, calls d !! id = Some q) as Hin.
  { intros q. rewrite list_elem_of_fmap. split.
    - intros ([id p] & -> & Hp%elem_of_map_to_list). by exists id.
    - intros [id Hp]. exists (id, q). split; [done|]. by apply elem_of_map_to_list. }
  apply cinv_outcomes; try done.
  - intros p r Hr. by rewrite resolve_all_lookup, Hr.
  - intros p [r Hr]. rewrite resolve_all_lookup in Hr. destruct (results d !! p); [by left; eexists|].
    case_decide as Hd; [|done]. right. by apply Hin.
  - intros id p Hp. right. rewrite resolve_all_lookup. destruct (results d !! p); [by eexists|].
    rewrite decide_True; [by eexists|]. apply Hin. by exists id.
  - intros id p b Hp Hr. rewrite resolve_all_lookup in Hr.
    destruct (cinv_calls d H id p Hp) as (_ & _ & _ & _ & _ & Hn). rewrite Hn in Hr. by case_decide.
Qed.

Lemma cinv_begin d id key nr :
  cinv d -> (forall k c, callers d !! k = Some c -> cid c <> id) ->
  cinv {| callers := callers d ++ [{| cid := id; ckey := key; cnoReply := nr; cphase_of := CChannel |}];
          calls := calls d; results := results d; next_ptr := next_ptr d; replies := replies d; arrived := arrived d |}.
Proof.
  intros [Hca Hac Hown Hdo Hfr Hid Hpt] Hnew.
  assert (forall k c, (callers d ++ [{| cid := id; ckey := key; cnoReply := nr; cphase_of := CChannel |}]) !! k = Some c ->
    callers d !! k = Some c \/
    k = length (callers d) /\ c = {| cid := id; ckey := key; cnoReply := nr; cphase_of := CChannel |}) as Hl.
  { intros k c [?|[Hk Hc]]%lookup_app_Some; [by left|right].
    apply list_lookup_singleton_Some in Hc as [? <-]. split; [lia|done]. }
  split; simpl.
  - intros i p Hp. destruct (Hca i p Hp) as (k & c & Hk & ?). exists k, c. split; [by apply lookup_app_l_Some|done].
  - intros k c p [Hk|[-> ->]]%Hl Hp; [by eapply Hac|done].
  - intros k c p b [Hk|[-> ->]]%Hl Hp; [by eapply Hown|done].
  - intros k c b [Hk|[-> ->]]%Hl Hp; [by eapply Hdo|done].
  - intros p [Hp|(k & c & [Hk|[-> ->]]%Hl & Hp)]; [apply Hfr; by left|apply Hfr; right; by exists k, c|done].
  - intros k k' c c' [Hk|[-> ->]]%Hl [Hk'|[-> ->]]%Hl E; [by eapply Hid| | |done]; simpl in E.
    + by destruct (Hnew k c).
    + by destruct (Hnew k' c').
  - intros k k' c c' p [Hk|[-> ->]]%Hl [Hk'|[-> ->]]%Hl E E'; try done. by eapply Hpt.
Qed.

(** The caller gives up its pendingCall. *)
Lemma cinv_forget d k c f p :
  cinv d -> callers d !! k = Some c -> ptr_of c = p -> ptr_of (with_cphase f c) = None ->
  (forall b, f <> CDone (Some (inl b))) ->
  cinv (set_caller k f (forget_opt (cid c) p d)).
Proof.
  intros H Hk Hp Hf Hb. unfold forget_opt, forget, set_caller. destruct p as [p|]; [case_decide as Hd|]; simpl.
  - apply cinv_rephase with (c := c); try done; [by left|intros b ?; by destruct (Hb b)|by right].
  - apply cinv_rephase with (c := c); try done; [by left|intros b ?; by destruct (Hb b)|left].
    split; [done|]. right. intros q Hq. destruct (cinv_active d H k c q Hk Hq) as [?|?]; [congruence|done].
  - apply cinv_rephase with (c := c); try done; [by left|intros b ?; by destruct (Hb b)|left].
    split; [done|]. left. congruence.
Qed.

Lemma cinv_step d d' : cstep d d' -> cinv d -> cinv d'.
Proof.
  intros Hstep H. destruct Hstep as [d id key nr Hnew|d k c e Hk Hph|d k c Hk Hph|d k c ptr Hk Hph|d k c ptr Hk Hph
    |d k c ptr e Hk Hph|d k c ptr r Hk Hph Hr Ha|d k c ptr e Hk Hph|d id body|d p r Hr|d e];
    try (assert (ptr_of c = match cphase_of c with CPublishing p => p | CWaiting p => Some p | _ => None end) as Hpc
           by done; rewrite Hph in Hpc).
  - by apply cinv_begin.
  - by apply (cinv_forget d k c _ None).
  - destruct (cnoReply c) eqn:Hn; [|by apply cinv_register].
    unfold registered. rewrite Hn. by apply (cinv_forget d k c _ None).
  - destruct ptr as [p|]; [|by apply (cinv_forget d k c _ None)].
    apply cinv_rephase with (c := c); try done; [right; by rewrite Hpc|left]. split; [done|]. left. by rewrite Hpc.
  - by apply cinv_forget.
  - by apply cinv_forget.
  - apply cinv_rephase with (c := c); try done; [by left| |left].
    + intros b [= ->]. by eapply (cinv_own d H k c ptr).
    + split; [done|]. right. intros q. rewrite Hpc. intros [= <-]. by eexists.
  - by apply (cinv_forget d k c _ (Some ptr)).
  - by apply cinv_route.
  - by destruct H.
  - by apply cinv_fail.
Qed.

Lemma cinv_new : cinv newDispatcher.
Proof. split; simpl; try done. intros p [[? ?]|(k & c & ? & _)]; done. Qed.

(** C26: a call gets its own answer or an error, and nothing is left behind.
    Under any interleaving of calls, retries after a lost channel, replies (late,
    repeated or unknown) and connection losses: a body a call returns was
    delivered under that call's correlation id; the table holds exactly the
    active calls for which no outcome has been taken, each under its own id; and once no
    call is active the table is empty. *)
Theorem call_answers (d : dispatcher) :
  rtc cstep newDispatcher d ->
  (forall k c b, callers d !! k = Some c -> cphase_of c = CDone (Some (inl b)) -> (cid c, b) ∈ replies d) /\
  (forall k c p, callers d !! k = Some c -> ptr_of c = Some p ->
     calls d !! cid c = Some p <-> results d !! p = None) /\
  ((forall k c, callers d !! k = Some c -> ptr_of c = None) -> calls d = ∅).
Proof.
  intros Hr. assert (cinv d) as H by (revert Hr; apply rtc_invariant; [apply cinv_step|apply cinv_new]).
  split; [apply H|]. split.
  - intros k c p Hk Hp. split.
    + intros Hc. by destruct (cinv_calls d H _ _ Hc) as (_ & _ & _ & _ & _ & ?).
    + intros Hn. destruct (cinv_active d H k c p Hk Hp) as [?|[? ?]]; [done|congruence].
  - intros Hnone. apply map_empty. intros id. destruct (calls d !! id) as [p|] eqn:E; [|done].
    destruct (cinv_calls d H id p E) as (k & c & Hk & _ & Hp & _). by rewrite (Hnone k c Hk) in Hp.
Qed.

(** One call, answered. *)
Definition sample_calls : dispatcher :=
  set_caller 0 (CWaiting 0)
    (registered 0 {| cid := "c"; ckey := "k"; cnoReply := false; cphase_of := CChannel |}
      {| callers := [{| cid := "c"; ckey := "k"; cnoReply := false; cphase_of := CChannel |}]; calls := ∅; results := ∅;
         next_ptr := 0; replies := []; arrived := ∅ |}).

Definition sample_answered : dispatcher :=
  let d := route "c" [x07] sample_calls in
  set_caller 0 (CDone (Some (inl [x07])))
    {| callers := callers d; calls := calls d; results := results d; next_ptr := next_ptr d; replies := replies d;
       arrived := {[0%nat]} ∪ arrived d |}.

Lemma call_answers_witness : ("c", [x07]) ∈ replies sample_answered.
Proof.
  destruct (call_answers sample_answered) as [H _].
  - eapply rtc_l; [apply (call_begin _ "c" "k" false); done|].
    eapply rtc_l; [eapply (channel_ok _ 0); reflexivity|].
    eapply rtc_l; [eapply (publish_ok _ 0); reflexivity|].
    eapply rtc_l; [apply (reply_arrives _ "c" [x07])|].
    eapply rtc_l; [by apply (outcome_sent _ 0%nat (inl [x07]))|].
    eapply rtc_l; [eapply (wait_result _ 0 _ 0%nat); [reflexivity|reflexivity|reflexivity|]|].
    { simpl. set_solver. }
    apply rtc_refl.
  - eapply (H 0%nat {| cid := "c"; ckey := "k"; cnoReply := false; cphase_of := CDone (Some (inl [x07])) |} [x07]);
      reflexivity.
Defined.

(** ** The loop that yields a stream's chunks *)

Module StreamLoop.
Import ClientStream.

(** What ended the wait for the next frame. *)
Inductive wait_event := Notified | IdleTimeout | CtxEnded (e : err).

(** What one turn of the loop meets: the context's error when a chunk is about
    to be yielded, whether the caller takes it and goes on, and the outcome of
    the wait when there is nothing to yield. *)
Record turn_env := { ctx_err : option err; accepts : bool; waits : wait_event; idle : Z }.

(** How a turn ends: the loop goes on, or stops with [completed] and the last
    error yielded. The producer gets a cancel notice when it was not
    completed. *)
Inductive turn := Continue | Stop (completed : bool) (last : option err).

Definition idle_error (E : turn_env) (s : clientStream) : err :=
  EWrap (sentinel_text ErrStreamTimeout +:+ ": nothing for " +:+ duration_string (idle E) +:+ " (stream " +:+ id s +:+ ")")
    (ESentinel ErrStreamTimeout).

Definition connection_error (e : err) : bool := is_sentinel ErrDisconnected e || is_sentinel ErrClosed e.

(** The buffer after the turn, the chunk yielded and how the turn ends. *)
Definition loop_turn (E : turn_env) (s : clientStream) (t : Z) : clientStream * Z * option bytes * turn :=
  let '(s', t', (chunk, done, e)) := next s t in
  match e, chunk with
  | Some e, _ => (s', t', None, Stop (connection_error e) (Some e))
  | None, Some c =>
      match ctx_err E with
      | Some ce => (s', t', None, Stop (finished s') (Some ce))
      | None => (s', t', Some c, if accepts E then Continue else Stop false None)
      end
  | None, None =>
      if done then (s', t', None, Stop true None)
      else match waits E with
           | Notified => (s', t', None, Continue)
           | IdleTimeout => (s', t', None, Stop false (Some (idle_error E s')))
           | CtxEnded ce => (s', t', None, Stop (finished s') (Some ce))
           end
  end.

(** Cancellation wins over buffered chunks, and an abandoned producer is
    told. Once the context has ended no turn yields a chunk; a turn that ends
    the loop quietly does so on a drained, ended and unfailed stream, or because
    the caller broke out; and a stop sends the producer a cancel notice except
    when the stream ended cleanly, the connection is gone, or the context ended
    after the final frame had arrived. *)
Lemma stream_turn (E : turn_env) (s : clientStream) (t : Z) :
  let '(_, _, y, r) := loop_turn E s t in
  (ctx_err E <> None -> y = None) /\
  (forall c, r = Stop c None ->
     (c = true /\ y = None /\ chunks s = [] /\ ended s = true /\ cerr s = None) \/
     (c = false /\ accepts E = false /\ is_Some y)) /\
  (forall e, r = Stop true (Some e) ->
     (cerr s = Some e /\ connection_error e = true) \/
     (cerr s = None /\ ended s = true /\ (ctx_err E = Some e \/ waits E = CtxEnded e))).
Proof.
  unfold loop_turn, next. destruct (cerr s) as [e|] eqn:Ee; simpl.
  { split_and!; [done|by intros|]. intros e' [= Hc <-]. by left. }
  destruct (chunks s) as [|c cs] eqn:Ec; simpl.
  - destruct (ended s) eqn:En; [split_and!; [done| |by intros]; intros c [= <-]; left; split_and!; done|].
    destruct (waits E) as [| |ce] eqn:Ew; split_and!; try done; try (by intros).
    intros e [= Hf <-]. unfold finished in Hf. by rewrite En in Hf.
  - destruct (ctx_err E) as [ce|] eqn:Ex.
    + split_and!; [done|by intros|]. intros e [= Hf <-]. right. unfold finished in Hf. simpl in Hf.
      rewrite Ee in Hf. destruct (ended s); [|done]. split_and!; [done|done|by left].
    + destruct (accepts E) eqn:Ea; split_and!; try done; intros c' [= <-]; right; split_and!; [done|done|by eexists].
Qed.

(** A caller that breaks out of the loop sends a cancel notice even when the
    producer's final frame has already arrived. *)
Lemma break_notifies_finished :
  exists E s t, finished s = true /\ snd (loop_turn E s t) = Stop false None.
Proof.
  exists {| ctx_err := None; accepts := false; waits := Notified; idle := 0 |},
    {| id := "s"; lim := Build_limits 4 100 100; chunks := [[x01]]; cbytes := 1; lastSeq := 0; ended := true;
       cerr := None; notify := true |}, 1. split; reflexivity.
Qed.

End StreamLoop.
