(* ===== verification/Session.v ===== *)
(** * Session: the broker connection (session.go)

    The state of the session and its operations, and the reconnection loop as a
    function of what each attempt meets; the goroutines around them are
    [SessionLife]'s. Go panics when a channel is closed twice: the channels closed so
    far are part of the state, and [panicked] records a second close.

    Attempts are numbered here, not timed: the wait before one is [Backoff]'s. *)
From S2P Require Import Prelude GoStrings Headers Errors.

Local Open Scope Z_scope.

(** ** State *)

Record session := {
  conn : option nat;
  gen : Z;
  (* [ready] is a channel: its identity, and which channels are closed *)
  ready : nat;
  closed_chs : gset nat;
  next_ch : nat;
  isReady : bool;
  comps : list nat;
  next_reg : nat;
  doneErr : option err;
  ctxEnded : bool;
  panicked : bool
}.

Definition newSession : session := {|
  conn := None; gen := 0; ready := 0; closed_chs := ∅; next_ch := 1; isReady := false; comps := []; next_reg := 0;
  doneErr := None; ctxEnded := false; panicked := false |}.

(** [close(ch)]: a second close panics. *)
Definition close_ch (ch : nat) (s : session) : session := {|
  conn := conn s; gen := gen s; ready := ready s; closed_chs := {[ch]} ∪ closed_chs s; next_ch := next_ch s;
  isReady := isReady s; comps := comps s; next_reg := next_reg s; doneErr := doneErr s; ctxEnded := ctxEnded s;
  panicked := panicked s || bool_decide (ch ∈ closed_chs s) |}.

Definition set_ready (b : bool) (ch : nat) (n : nat) (s : session) : session := {|
  conn := conn s; gen := gen s; ready := ch; closed_chs := closed_chs s; next_ch := n; isReady := b; comps := comps s;
  next_reg := next_reg s; doneErr := doneErr s; ctxEnded := ctxEnded s; panicked := panicked s |}.

Definition set_conn (c : nat) (s : session) : session := {|
  conn := Some c; gen := gen s + 1; ready := ready s; closed_chs := closed_chs s; next_ch := next_ch s;
  isReady := isReady s; comps := comps s; next_reg := next_reg s; doneErr := doneErr s; ctxEnded := ctxEnded s;
  panicked := panicked s |}.

Definition set_comps (l : list nat) (n : nat) (s : session) : session := {|
  conn := conn s; gen := gen s; ready := ready s; closed_chs := closed_chs s; next_ch := next_ch s;
  isReady := isReady s; comps := l; next_reg := n; doneErr := doneErr s; ctxEnded := ctxEnded s;
  panicked := panicked s |}.

(** ** Operations *)

Definition markReady (s : session) : session :=
  match doneErr s with
  | Some _ => s
  | None => if isReady s then s else close_ch (ready s) (set_ready true (ready s) (next_ch s) s)
  end.

Definition markNotReady (s : session) : session :=
  if isReady s then set_ready false (next_ch s) (S (next_ch s)) s else s.

(** [finish], through its once: the first reason stays. *)
Definition finish (e : err) (s : session) : session :=
  match doneErr s with
  | Some _ => s
  | None => {|
      conn := conn s; gen := gen s; ready := ready s; closed_chs := closed_chs s; next_ch := next_ch s;
      isReady := isReady s; comps := comps s; next_reg := next_reg s; doneErr := Some e; ctxEnded := ctxEnded s;
      panicked := panicked s |}
  end.

Definition register (s : session) : session * nat := (set_comps (comps s ++ [next_reg s]) (S (next_reg s)) s, next_reg s).

(** The function [register] returns. *)
Fixpoint remove_first (r : nat) (l : list nat) : list nat :=
  match l with
  | [] => []
  | x :: l' => if decide (x = r) then l' else x :: remove_first r l'
  end.
Definition unregister (r : nat) (s : session) : session := set_comps (remove_first r (comps s)) (next_reg s) s.

(** [current]: the connection, its generation and whether it carries traffic. *)
Definition current (s : session) : option nat * Z * bool :=
  (conn s, gen s, isReady s && match doneErr s with None => true | Some _ => false end).

(** ** Reconnection *)

Inductive connection_event :=
| EventDisconnected (e : err)
| EventReconnecting (attempt : nat)
| EventReconnected (attempt : nat)
| EventGaveUp (attempts : nat) (last : option err).

(** What the world does to attempt [n]. The session's context may end while
    sleeping, before a component is restored, after a failed restore, or once
    all are restored. *)
Record world := {
  sleep_ended : nat -> bool;
  dial : nat -> nat + err;
  ctx_before : nat -> nat -> bool;
  restore : nat -> nat -> option err;
  ended_after_failure : nat -> bool;
  ended_after_restore : nat -> bool;
  socket_died : nat -> bool
}.

(** [runRestorers]: the components restored, in order, and the first failure. *)
Fixpoint runRestorers (W : world) (n : nat) (cs : list nat) : list nat * option err :=
  match cs with
  | [] => ([], None)
  | c :: cs' =>
      if ctx_before W n c then ([], Some (ESentinel CtxCanceled))
      else match restore W n c with
      | Some e => ([], Some (EWrap ("restoring component: " +:+ error_text e) e))
      | None => let '(done, e) := runRestorers W n cs' in (c :: done, e)
      end
  end.

(** How [reconnect] ends: the connection is up, the session is closed, it gave
    up. *)
Inductive reconnected := Up | SessionClosed | GaveUp.

Definition giveUp_error (attempts : nat) : err :=
  EWrap (sentinel_text ErrNotReady +:+ ": gave up reconnecting after " +:+ pretty attempts +:+ " attempts")
    (ESentinel ErrNotReady).

(** One attempt: the session after it, what it restored, and whether the loop
    ends or goes on with this failure as the last. *)
Definition attempt (W : world) (n : nat) (s : session) : session * list nat * (reconnected + option err) :=
  if sleep_ended W n then (s, [], inl SessionClosed)
  else match dial W n with
  | inr e => (s, [], inr (Some e))
  | inl c =>
      let s := set_conn c s in
      let '(done, e) := runRestorers W n (comps s) in
      match e with
      | Some e => if ended_after_failure W n then (s, done, inl SessionClosed) else (s, done, inr (Some e))
      | None =>
          if ended_after_restore W n then (s, done, inl SessionClosed)
          else if socket_died W n then (s, done, inr (Some (ESentinel AmqpErrClosed)))
          else (markReady s, done, inl Up)
      end
  end.

(** The loop from attempt [n] on; [max] is MaxRetries, 0 for no limit. *)
Fixpoint reconnect (fuel : nat) (max : nat) (W : world) (n : nat) (lastErr : option err) (s : session)
    : option (session * list connection_event * reconnected) :=
  match fuel with
  | O => None
  | S fuel' =>
      if (0 <? max)%nat && (max <? n)%nat then
        Some (finish (giveUp_error (n - 1)) s, [EventGaveUp (n - 1) lastErr], GaveUp)
      else
        let '(s', _, r) := attempt W n s in
        match r with
        | inl Up => Some (s', [EventReconnecting n; EventReconnected n], Up)
        | inl r => Some (s', [EventReconnecting n], r)
        | inr e =>
            match reconnect fuel' max W (S n) e s' with
            | Some (s'', evs, r) => Some (s'', EventReconnecting n :: evs, r)
            | None => None
            end
        end
  end.

(** [lost]: the components are told, then the observer. *)
Definition lost (cause : err) (s : session) : session * list nat * list connection_event :=
  let s' := markNotReady s in (s', comps s', [EventDisconnected cause]).

(** ** Properties *)

Record inv (s : session) : Prop := {
  inv_panicked : panicked s = false;
  inv_ready : doneErr s = None -> isReady s = bool_decide (ready s ∈ closed_chs s);
  inv_fresh : forall ch, ch ∈ closed_chs s \/ ch = ready s -> (ch < next_ch s)%nat
}.

Lemma inv_markReady s : inv s -> inv (markReady s).
Proof.
  intros [Hp Hr Hf]. unfold markReady. destruct (doneErr s) eqn:Ed; [by split; rewrite ?Ed|].
  destruct (isReady s) eqn:Er; [split; [done|intros _; rewrite Er; auto|done]|]. specialize (Hr eq_refl). symmetry in Hr. apply bool_decide_eq_false in Hr.
  split; simpl.
  - rewrite Hp. simpl. by apply bool_decide_eq_false.
  - intros _. symmetry. apply bool_decide_eq_true. set_solver.
  - intros ch Hch. apply Hf. set_solver.
Qed.

Lemma inv_markNotReady s : inv s -> inv (markNotReady s).
Proof.
  intros [Hp Hr Hf]. unfold markNotReady. destruct (isReady s) eqn:Er; [|by split; rewrite ?Er].
  split; simpl; [done| |].
  - intros _. symmetry. apply bool_decide_eq_false. intros Hin. specialize (Hf (next_ch s) (or_introl Hin)). lia.
  - intros ch [Hch| ->]; [|lia]. specialize (Hf ch (or_introl Hch)). lia.
Qed.

Lemma inv_set_conn c s : inv s -> inv (set_conn c s).
Proof. by intros [Hp Hr Hf]. Qed.

Lemma inv_finish e s : inv s -> inv (finish e s).
Proof. intros [Hp Hr Hf]. unfold finish. destruct (doneErr s) eqn:Ed; by split; rewrite ?Ed. Qed.

Lemma inv_attempt W n s : inv s -> inv (fst (fst (attempt W n s))).
Proof.
  intros H. unfold attempt. destruct (sleep_ended W n); [done|]. destruct (dial W n) as [c|e]; [|done].
  pose proof (inv_set_conn c s H) as H'. destruct (runRestorers W n (comps (set_conn c s))) as [done [e|]].
  - by destruct (ended_after_failure W n).
  - destruct (ended_after_restore W n); [done|]. destruct (socket_died W n); [done|]. by apply inv_markReady.
Qed.

Lemma inv_reconnect fuel max W n e s s' evs r :
  inv s -> reconnect fuel max W n e s = Some (s', evs, r) -> inv s'.
Proof.
  revert n e s s' evs. induction fuel as [|fuel IH]; intros n e s s' evs H; simpl; [done|].
  destruct ((0 <? max)%nat && (max <? n)%nat); [intros [= <- _ _]; by apply inv_finish|].
  pose proof (inv_attempt W n s H) as Ha. destruct (attempt W n s) as [[s1 dn] [[| |]|e1]]; simpl in *;
    [intros [= -> _ _]; exact Ha..|].
  destruct (reconnect fuel max W (S n) e1 s1) as [[[s2 evs2] r2]|] eqn:E; [|done]. intros ?; simplify_eq. by eapply IH.
Qed.

(** *** The reconnection loop *)

Lemma runRestorers_all W n cs done :
  runRestorers W n cs = (done, None) -> done = cs /\ forall c, c ∈ cs -> restore W n c = None.
Proof.
  revert done. induction cs as [|c cs IH]; simpl; intros done.
  { intros [= <-]. split; [done|]. by intros c ?%elem_of_nil. }
  destruct (ctx_before W n c); [done|]. destruct (restore W n c) eqn:Er; [done|].
  destruct (runRestorers W n cs) as [d e]. intros [= <- ->]. destruct (IH d eq_refl) as [-> Hall].
  split; [done|]. intros x [->|Hx]%elem_of_cons; [done|by apply Hall].
Qed.

Definition fails (W : world) (n : nat) (s : session) : Prop := exists e, snd (attempt W n s) = inr e.

Lemma attempt_failed W n s : fails W n s ->
  comps (fst (fst (attempt W n s))) = comps s /\ isReady (fst (fst (attempt W n s))) = isReady s /\
  doneErr (fst (fst (attempt W n s))) = doneErr s.
Proof.
  intros [e He]. unfold attempt in *. destruct (sleep_ended W n); [done|]. destruct (dial W n) as [c|e']; [|done].
  destruct (runRestorers W n (comps (set_conn c s))) as [dn [e'|]].
  - by destruct (ended_after_failure W n).
  - destruct (ended_after_restore W n); [done|]. by destruct (socket_died W n).
Qed.

(** The states the failed attempts [1..n] lead through. *)
Fixpoint after_failures (W : world) (n k : nat) (s : session) : session :=
  match k with
  | O => s
  | S k' => after_failures W (S n) k' (fst (fst (attempt W n s)))
  end.

Definition all_fail (W : world) (n k : nat) (s : session) : Prop :=
  forall i, (i < k)%nat -> fails W (n + i) (after_failures W n i s).

Lemma all_fail_S W n k s :
  all_fail W n (S k) s -> fails W n s /\ all_fail W (S n) k (fst (fst (attempt W n s))).
Proof.
  intros H. split; [by replace n with (n + 0)%nat at 1 by lia; apply (H 0%nat); lia|].
  intros i Hi. replace (S n + i)%nat with (n + S i)%nat by lia. apply (H (S i)). lia.
Qed.

(** [k] failed attempts, then the rest of the loop. *)
Lemma reconnect_failures fuel max W n k e s :
  all_fail W n k s -> (max = 0 \/ n + k <= S max)%nat ->
  exists e', reconnect (k + fuel) max W n e s
    = match reconnect fuel max W (n + k) e' (after_failures W n k s) with
      | Some (s', evs, r) => Some (s', map EventReconnecting (seq n k) ++ evs, r)
      | None => None
      end.
Proof.
  revert n e s. induction k as [|k IH]; intros n e s Hall Hmax.
  { exists e. rewrite Nat.add_0_r. simpl. by destruct (reconnect fuel max W n e s) as [[[? ?] ?]|]. }
  apply all_fail_S in Hall as [[e1 H1] Hall]. simpl.
  destruct (Nat.ltb_spec 0 max); [destruct (Nat.ltb_spec max n); [lia|]|]; simpl;
    (destruct (attempt W n s) as [[s1 done] r1]; simpl in *; subst r1;
     destruct (IH (S n) e1 s1 Hall ltac:(lia)) as [e' ->]; exists e';
     replace (n + S k)%nat with (S n + k)%nat by lia;
     by destruct (reconnect fuel max W (S n + k) e' _) as [[[? ?] ?]|]).
Qed.

(** C29: reconnection is bounded and announces itself truthfully. With a limit
    of [max] attempts, if they all fail the session gives up after exactly
    [max], is finished and not ready; if attempt [k+1] is the first to succeed,
    every registered component was restored, in registration order, on that
    connection before the session became ready, and the observer saw the
    attempts 1..k+1 and then the reconnection. *)
Theorem reconnect_spec (max k : nat) (W : world) (s : session) :
  (0 < max)%nat -> all_fail W 1 k s -> isReady s = false -> doneErr s = None ->
  (k = max -> exists s' e, reconnect (S max) max W 1 None s
      = Some (s', map EventReconnecting (seq 1 max) ++ [EventGaveUp max e], GaveUp) /\
      doneErr s' = Some (giveUp_error max) /\ isReady s' = false) /\
  ((k < max)%nat -> snd (attempt W (S k) (after_failures W 1 k s)) = inl Up ->
     exists s', reconnect (S max) max W 1 None s
       = Some (s', map EventReconnecting (seq 1 (S k)) ++ [EventReconnected (S k)], Up) /\
       isReady s' = true /\ comps s' = comps s /\
       fst (runRestorers W (S k) (comps s)) = comps s /\ forall c, c ∈ comps s -> restore W (S k) c = None).
Proof.
  intros Hmax Hall Hready Hdone.
  assert (comps (after_failures W 1 k s) = comps s /\ isReady (after_failures W 1 k s) = false /\
    doneErr (after_failures W 1 k s) = None) as (Hc & Hr & Hd).
  { clear Hmax. revert Hall Hready Hdone. generalize 1%nat. generalize s. clear s.
    induction k as [|k IH]; intros s n Hall Hr Hd; [done|].
    apply all_fail_S in Hall as [Hf Hall]. destruct (attempt_failed W n s Hf) as (E1 & E2 & E3).
    simpl. destruct (IH _ _ Hall) as (? & ? & ?); [congruence|congruence|]. split_and!; congruence. }
  split.
  - intros ->. destruct (reconnect_failures 1 max W 1 max None s Hall ltac:(lia)) as [e He].
    replace (max + 1)%nat with (S max) in He by lia. rewrite He. simpl.
    destruct (Nat.ltb_spec 0 max); [|lia]. destruct (Nat.ltb_spec max (S max)); [|lia]. simpl.
    rewrite Nat.sub_0_r. eexists _, e. split; [done|]. unfold finish. rewrite Hd. done.
  - intros Hk Hup. destruct (reconnect_failures (S max - k) max W 1 k None s Hall ltac:(lia)) as [e He].
    replace (k + (S max - k))%nat with (S max) in He by lia. rewrite He.
    replace (S max - k)%nat with (S (max - k)) by lia. replace (1 + k)%nat with (S k) by lia. cbn [reconnect].
    destruct (Nat.ltb_spec max (S k)); [lia|]. rewrite andb_false_r.
    set (sk := after_failures W 1 k s) in *. destruct (attempt W (S k) sk) as [[s1 done] r1] eqn:Ea.
    simpl in Hup. subst r1. exists s1.
    split; [by replace (seq 1 (S k)) with (seq 1 k ++ [S k]) by (by rewrite seq_S); rewrite map_app, <-app_assoc|].
    unfold attempt in Ea. destruct (sleep_ended W (S k)); [done|]. destruct (dial W (S k)) as [c|]; [|done].
    simpl comps in Ea. rewrite Hc in Ea. destruct (runRestorers W (S k) (comps s)) as [dn [er|]] eqn:Ers.
    { by destruct (ended_after_failure W (S k)). }
    destruct (ended_after_restore W (S k)); [done|]. destruct (socket_died W (S k)); [done|]. injection Ea as <- <-.
    destruct (runRestorers_all W (S k) (comps s) dn Ers) as [-> Hall'].
    unfold markReady. simpl. rewrite Hd, Hr. simpl. split_and!; done.
Qed.

(** ** Samples: a session that connects, loses the broker and comes back at the
    second attempt; and one that never does. *)
Definition sample_world (up : nat) : world := {|
  sleep_ended := fun _ => false; dial := fun n => if (n <? up)%nat then inr (EText "refused") else inl n;
  ctx_before := fun _ _ => false; restore := fun _ _ => None; ended_after_failure := fun _ => false;
  ended_after_restore := fun _ => false; socket_died := fun _ => false |}.

Definition sample_session : session := fst (register (markNotReady (markReady (set_conn 7 newSession)))).

Lemma reconnect_spec_witness :
  exists s', reconnect 4 3 (sample_world 2) 1 None sample_session
    = Some (s', [EventReconnecting 1; EventReconnecting 2; EventReconnected 2], Up).
Proof.
  destruct (reconnect_spec 3 1 (sample_world 2) sample_session) as [_ H].
  - lia.
  - intros i Hi. assert (i = 0%nat) as -> by lia. eexists. reflexivity.
  - reflexivity.
  - reflexivity.
  - destruct H as (s' & H & _); [lia|reflexivity|]. exists s'. exact H.
Defined.
