(* ===== verification/SessionLife.v ===== *)
(** * SessionLife: the session's goroutines (session.go)

    The caller of [connect], the supervisor it starts and any number of calls of
    [close], interleaved with components registering and connections dying. Each
    critical section, each look at the context and each call on a connection is
    one step. A connection is open from its dial until it is closed or dies; the
    close notice of a connection that is gone may be late. The operations on the
    session's state are those of [Session]. *)
From S2P Require Import Prelude GoStrings Headers Errors Session.

Local Open Scope nat_scope.

(** ** State *)

(** Where the caller of [connect], and then the supervisor, is. *)
Inductive spc :=
(* connect *)
| Idle | Connecting (c : nat) | Refusing (c : nat) | Connected (c : nat)
(* supervise and lost *)
| Watching (c : nat) | Noticed (e : err) | Losing (e : err) | Marked (e : err) | Telling (e : err) (cs : list nat)
(* reconnect: attempt [n] *)
| Trying (n : nat) (last : option err) | Sleeping (n : nat) (last : option err) | Dialled (n c : nat)
| Installed (n c : nat) | Restoring (n c : nat) (cs : list nat) | Dropping (n c : nat) (e : err) | Dropped (n : nat) (e : err)
| Restored (n c : nat) | Abandoning (c : nat) | Probing (n c : nat) | Raising (n c : nat) | Announcing (n c : nat)
(* giveUp *)
| GivingUp (n : nat) (last : option err) | Finishing (n : nat) (last : option err) | Conceding (n : nat) (last : option err)
| Exited.

(** Where a call of [close] is. *)
Inductive cpc := CStart | CFinishing | CCancel | CRead | CClose (o : option nat) | CWait | CRead2 | CClose2 (o : option nat) | CReturned.

Record life := {
  st : session;
  pc : spc;
  closers : gmap nat cpc;
  doneCh : bool;         (* closed *)
  twice : bool;          (* [doneCh] was closed a second time *)
  open : gset nat;
  next_conn : nat;
  events : list connection_event;
  told : list nat        (* the components told of a loss, in order *)
}.

Definition init : life := {|
  st := newSession; pc := Idle; closers := ∅; doneCh := false; twice := false; open := ∅; next_conn := 0; events := [];
  told := [] |}.

Definition go (p : spc) (l : life) : life := {|
  st := st l; pc := p; closers := closers l; doneCh := doneCh l; twice := twice l; open := open l;
  next_conn := next_conn l; events := events l; told := told l |}.
Definition upd (f : session -> session) (l : life) : life := {|
  st := f (st l); pc := pc l; closers := closers l; doneCh := doneCh l; twice := twice l; open := open l;
  next_conn := next_conn l; events := events l; told := told l |}.
Definition closer (i : nat) (p : cpc) (l : life) : life := {|
  st := st l; pc := pc l; closers := <[i := p]> (closers l); doneCh := doneCh l; twice := twice l; open := open l;
  next_conn := next_conn l; events := events l; told := told l |}.
Definition tell (c : nat) (l : life) : life := {|
  st := st l; pc := pc l; closers := closers l; doneCh := doneCh l; twice := twice l; open := open l;
  next_conn := next_conn l; events := events l; told := told l ++ [c] |}.
Definition emit (e : connection_event) (l : life) : life := {|
  st := st l; pc := pc l; closers := closers l; doneCh := doneCh l; twice := twice l; open := open l;
  next_conn := next_conn l; events := events l ++ [e]; told := told l |}.

(** [close(s.doneCh)]. *)
Definition close_done (l : life) : life := {|
  st := st l; pc := pc l; closers := closers l; doneCh := true; twice := twice l || doneCh l; open := open l;
  next_conn := next_conn l; events := events l; told := told l |}.

(** [dialOnce], when the dial succeeds: a connection of its own. *)
Definition dialOnce (l : life) : life := {|
  st := st l; pc := pc l; closers := closers l; doneCh := doneCh l; twice := twice l; open := {[next_conn l]} ∪ open l;
  next_conn := S (next_conn l); events := events l; told := told l |}.

(** [conn.Close()], or the connection's death. *)
Definition shut (c : nat) (l : life) : life := {|
  st := st l; pc := pc l; closers := closers l; doneCh := doneCh l; twice := twice l; open := open l ∖ {[c]};
  next_conn := next_conn l; events := events l; told := told l |}.

(** [close]: the context cancelled; no longer ready; the connection it read
    closed, when there is one and it is open. *)
Definition cancel_ctx (s : session) : session := {|
  conn := conn s; gen := gen s; ready := ready s; closed_chs := closed_chs s; next_ch := next_ch s;
  isReady := isReady s; comps := comps s; next_reg := next_reg s; doneErr := doneErr s; ctxEnded := true;
  panicked := panicked s |}.
Definition not_ready (s : session) : session := set_ready false (ready s) (next_ch s) s.
Definition shut_read (o : option nat) (l : life) : life :=
  match o with Some c => shut c l | None => l end.

(** [whenReady], for a [ready] channel read earlier: which cases of its selects
    can fire in this state, but for the caller's context and the timer. *)
Inductive ready_answer := IsReady | NotReady (e : option err) | Blocked.

Definition whenReady (ch : nat) (l : life) : ready_answer :=
  if doneCh l then NotReady (doneErr (st l))
  else if decide (ch ∈ closed_chs (st l)) then IsReady else Blocked.

(** ** Steps *)

Inductive connect_step (l : life) : life -> Prop :=
| connect_failed : pc l = Idle -> connect_step l (go Exited l)
| connect_dialled : pc l = Idle -> connect_step l (go (Connecting (next_conn l)) (dialOnce l))
| connect_closed c : pc l = Connecting c -> ctxEnded (st l) = true -> connect_step l (go (Refusing c) l)
| connect_refuse c : pc l = Refusing c -> connect_step l (go Exited (shut c l))
| connect_install c : pc l = Connecting c -> ctxEnded (st l) = false ->
    connect_step l (go (Connected c) (upd (set_conn c) l))
| connect_ready c : pc l = Connected c -> connect_step l (go (Watching c) (upd markReady l)).

Inductive supervise_step (l : life) : life -> Prop :=
| supervise_notice c e : pc l = Watching c -> c ∉ open l -> supervise_step l (go (Noticed e) l)
| supervise_ended c : pc l = Watching c -> ctxEnded (st l) = true -> supervise_step l (go Exited l)
| supervise_deliberate e : pc l = Noticed e -> ctxEnded (st l) = true -> supervise_step l (go Exited l)
| supervise_failure e : pc l = Noticed e -> ctxEnded (st l) = false -> supervise_step l (go (Losing e) l).

(** [lost]. *)
Inductive lost_step (l : life) : life -> Prop :=
| lost_mark e : pc l = Losing e -> lost_step l (go (Marked e) (upd markNotReady l))
| lost_registrations e : pc l = Marked e -> lost_step l (go (Telling e (comps (st l))) l)
| lost_tell e c cs : pc l = Telling e (c :: cs) -> lost_step l (go (Telling e cs) (tell c l))
| lost_emit e : pc l = Telling e [] -> lost_step l (go (Trying 1 None) (emit (EventDisconnected e) l)).

(** [reconnect], with [max] the limit of attempts, 0 for none. *)
Inductive reconnect_step (max : nat) (l : life) : life -> Prop :=
| reconnect_limit n last : pc l = Trying n last -> 0 < max -> max < n ->
    reconnect_step max l (go (GivingUp (n - 1) last) l)
| reconnect_schedule n last : pc l = Trying n last -> max = 0 \/ n <= max ->
    reconnect_step max l (go (Sleeping n last) (emit (EventReconnecting n) l))
| reconnect_woken n last : pc l = Sleeping n last -> ctxEnded (st l) = true -> reconnect_step max l (go Exited l)
| reconnect_refused n last e : pc l = Sleeping n last -> reconnect_step max l (go (Trying (S n) (Some e)) l)
| reconnect_dialled n last : pc l = Sleeping n last ->
    reconnect_step max l (go (Dialled n (next_conn l)) (dialOnce l))
| reconnect_install n c : pc l = Dialled n c -> reconnect_step max l (go (Installed n c) (upd (set_conn c) l))
| reconnect_dropped n c e : pc l = Dropping n c e -> reconnect_step max l (go (Dropped n e) (shut c l))
| reconnect_over n e : pc l = Dropped n e -> ctxEnded (st l) = true -> reconnect_step max l (go Exited l)
| reconnect_again n e : pc l = Dropped n e -> ctxEnded (st l) = false -> reconnect_step max l (go (Trying (S n) (Some e)) l)
| reconnect_late n c : pc l = Restored n c -> ctxEnded (st l) = true -> reconnect_step max l (go (Abandoning c) l)
| reconnect_abandon c : pc l = Abandoning c -> reconnect_step max l (go Exited (shut c l))
| reconnect_restored n c : pc l = Restored n c -> ctxEnded (st l) = false -> reconnect_step max l (go (Probing n c) l)
| reconnect_died n c : pc l = Probing n c -> c ∉ open l ->
    reconnect_step max l (go (Trying (S n) (Some (ESentinel AmqpErrClosed))) l)
| reconnect_alive n c : pc l = Probing n c -> reconnect_step max l (go (Raising n c) l)
| reconnect_ready n c : pc l = Raising n c -> reconnect_step max l (go (Announcing n c) (upd markReady l))
| reconnect_emit n c : pc l = Announcing n c -> reconnect_step max l (go (Watching c) (emit (EventReconnected n) l)).

(** [runRestorers]: the context is looked at before each component. *)
Inductive restore_step (l : life) : life -> Prop :=
| restore_registrations n c : pc l = Installed n c -> restore_step l (go (Restoring n c (comps (st l))) l)
| restore_ended n c x cs : pc l = Restoring n c (x :: cs) -> ctxEnded (st l) = true ->
    restore_step l (go (Dropping n c (ESentinel CtxCanceled)) l)
| restore_failed n c x cs e : pc l = Restoring n c (x :: cs) -> ctxEnded (st l) = false ->
    restore_step l (go (Dropping n c (EWrap ("restoring component: " +:+ error_text e) e)) l)
| restore_ok n c x cs : pc l = Restoring n c (x :: cs) -> ctxEnded (st l) = false ->
    restore_step l (go (Restoring n c cs) l)
| restore_done n c : pc l = Restoring n c [] -> restore_step l (go (Restored n c) l).

(** [giveUp], and [finish] through its once: the first caller sets the reason
    and then closes [doneCh], a later one waits for it. *)
Inductive giveUp_step (l : life) : life -> Prop :=
| giveUp_finish n last : pc l = GivingUp n last -> doneErr (st l) = None ->
    giveUp_step l (go (Finishing n last) (upd (finish (giveUp_error n)) l))
| giveUp_done n last : pc l = Finishing n last -> giveUp_step l (go (Conceding n last) (close_done l))
| giveUp_late n last : pc l = GivingUp n last -> doneErr (st l) <> None -> doneCh l = true ->
    giveUp_step l (go (Conceding n last) l)
| giveUp_emit n last : pc l = Conceding n last -> giveUp_step l (go Exited (emit (EventGaveUp n last) l)).

(** Whether [s.wg] counts the supervisor. *)
Definition running (p : spc) : bool :=
  match p with
  | Idle | Connecting _ | Refusing _ | Connected _ | Exited => false
  | _ => true
  end.

(** [close], call [i]. *)
Inductive close_step (i : nat) (l : life) : life -> Prop :=
| close_call : closers l !! i = None -> close_step i l (closer i CStart l)
| close_finish : closers l !! i = Some CStart -> doneErr (st l) = None ->
    close_step i l (closer i CFinishing (upd (finish (ESentinel ErrClosed)) l))
| close_finished : closers l !! i = Some CFinishing -> close_step i l (closer i CCancel (close_done l))
| close_late : closers l !! i = Some CStart -> doneErr (st l) <> None -> doneCh l = true ->
    close_step i l (closer i CCancel l)
| close_cancel : closers l !! i = Some CCancel -> close_step i l (closer i CRead (upd cancel_ctx l))
| close_read : closers l !! i = Some CRead -> close_step i l (closer i (CClose (conn (st l))) (upd not_ready l))
| close_conn o : closers l !! i = Some (CClose o) -> close_step i l (closer i CWait (shut_read o l))
| close_waited : closers l !! i = Some CWait -> running (pc l) = false -> close_step i l (closer i CRead2 l)
| close_read_again : closers l !! i = Some CRead2 -> close_step i l (closer i (CClose2 (conn (st l))) l)
| close_conn_again o : closers l !! i = Some (CClose2 o) -> close_step i l (closer i CReturned (shut_read o l)).

(** Components register and unregister, connections die. *)
Inductive env_step (l : life) : life -> Prop :=
| env_register : env_step l (upd (fun s => fst (register s)) l)
| env_unregister r : env_step l (upd (unregister r) l)
| env_dies c : env_step l (shut c l).

Inductive step (max : nat) (l l' : life) : Prop :=
| step_connect : connect_step l l' -> step max l l'
| step_supervise : supervise_step l l' -> step max l l'
| step_lost : lost_step l l' -> step max l l'
| step_reconnect : reconnect_step max l l' -> step max l l'
| step_restore : restore_step l l' -> step max l l'
| step_giveUp : giveUp_step l l' -> step max l l'
| step_close i : close_step i l l' -> step max l l'
| step_env : env_step l l' -> step max l l'.

#[export] Hint Constructors connect_step supervise_step lost_step reconnect_step restore_step giveUp_step close_step
  env_step step : session.

(** ** Invariants *)

(** The step taken, with the state after it written out. *)
Ltac step_cases Hs :=
  destruct Hs as [Hs|Hs|Hs|Hs|Hs|Hs|i Hs|Hs]; destruct Hs; simpl in *.

(** What each operation leaves alone. *)
Create Rewrite HintDb frame.

Lemma conn_markReady s : conn (markReady s) = conn s.
Proof. unfold markReady. destruct (doneErr s) eqn:E; [done|]. by destruct (isReady s). Qed.

Lemma doneErr_markReady s : doneErr (markReady s) = doneErr s.
Proof. unfold markReady. destruct (doneErr s) eqn:E; [done|]. by destruct (isReady s). Qed.

Lemma ctxEnded_markReady s : ctxEnded (markReady s) = ctxEnded s.
Proof. unfold markReady. destruct (doneErr s) eqn:E; [done|]. by destruct (isReady s). Qed.

Lemma comps_markReady s : comps (markReady s) = comps s.
Proof. unfold markReady. destruct (doneErr s) eqn:E; [done|]. by destruct (isReady s). Qed.

Lemma conn_markNotReady s : conn (markNotReady s) = conn s.
Proof. unfold markNotReady. by destruct (isReady s). Qed.

Lemma doneErr_markNotReady s : doneErr (markNotReady s) = doneErr s.
Proof. unfold markNotReady. by destruct (isReady s). Qed.

Lemma ctxEnded_markNotReady s : ctxEnded (markNotReady s) = ctxEnded s.
Proof. unfold markNotReady. by destruct (isReady s). Qed.

Lemma comps_markNotReady s : comps (markNotReady s) = comps s.
Proof. unfold markNotReady. by destruct (isReady s). Qed.

Lemma conn_finish e s : conn (finish e s) = conn s.
Proof. unfold finish. by destruct (doneErr s). Qed.

Lemma ctxEnded_finish e s : ctxEnded (finish e s) = ctxEnded s.
Proof. unfold finish. by destruct (doneErr s). Qed.

Lemma comps_finish e s : comps (finish e s) = comps s.
Proof. unfold finish. by destruct (doneErr s). Qed.

Lemma doneErr_finish e s : doneErr (finish e s) = Some (default e (doneErr s)).
Proof. unfold finish. by destruct (doneErr s) eqn:E; simpl. Qed.

Lemma st_shut_read o l : st (shut_read o l) = st l.
Proof. by destruct o. Qed.

Lemma pc_shut_read o l : pc (shut_read o l) = pc l.
Proof. by destruct o. Qed.

Lemma closers_shut_read o l : closers (shut_read o l) = closers l.
Proof. by destruct o. Qed.

Lemma doneCh_shut_read o l : doneCh (shut_read o l) = doneCh l.
Proof. by destruct o. Qed.

Lemma twice_shut_read o l : twice (shut_read o l) = twice l.
Proof. by destruct o. Qed.

Lemma next_conn_shut_read o l : next_conn (shut_read o l) = next_conn l.
Proof. by destruct o. Qed.

Lemma events_shut_read o l : events (shut_read o l) = events l.
Proof. by destruct o. Qed.

#[export] Hint Rewrite conn_markReady doneErr_markReady ctxEnded_markReady comps_markReady conn_markNotReady doneErr_markNotReady ctxEnded_markNotReady comps_markNotReady conn_finish ctxEnded_finish comps_finish doneErr_finish st_shut_read pc_shut_read closers_shut_read doneCh_shut_read twice_shut_read next_conn_shut_read events_shut_read : frame.


Lemma open_shut_read o l c : c ∈ open (shut_read o l) <-> c ∈ open l /\ o <> Some c.
Proof. destruct o; simpl; set_solver. Qed.

(** The first reason stays, and so does the end of the context. *)
Lemma doneErr_step max l l' e : step max l l' -> doneErr (st l) = Some e -> doneErr (st l') = Some e.
Proof. intros Hs He. step_cases Hs; autorewrite with frame; rewrite ?He; done. Qed.

Lemma doneErr_steps max l l' e : rtc (step max) l l' -> doneErr (st l) = Some e -> doneErr (st l') = Some e.
Proof. intros Hs He. revert Hs. apply (rtc_invariant _ (fun l => doneErr (st l) = Some e)); [|done].
  intros a b Hs. by eapply doneErr_step. Qed.

Lemma ctxEnded_step max l l' : step max l l' -> ctxEnded (st l) = true -> ctxEnded (st l') = true.
Proof. intros Hs He. step_cases Hs; autorewrite with frame; rewrite ?He; done. Qed.

(** *** The once of [finish] *)

Definition finishing (p : spc) : bool := match p with Finishing _ _ => true | _ => false end.

(** What is known of a call of [close] from where it is. *)
Definition past_finish (p : cpc) : bool := match p with CStart | CFinishing => false | _ => true end.
Definition past_cancel (p : cpc) : bool := match p with CStart | CFinishing | CCancel => false | _ => true end.

Record once_ok (l : life) : Prop := {
  once_twice : twice l = false;
  once_done : doneCh l = true -> doneErr (st l) <> None;
  once_supervisor : finishing (pc l) = true -> doneErr (st l) <> None /\ doneCh l = false;
  once_closer i : closers l !! i = Some CFinishing ->
    doneErr (st l) <> None /\ doneCh l = false /\ finishing (pc l) = false /\
    forall j, closers l !! j = Some CFinishing -> j = i;
  once_past i p : closers l !! i = Some p -> past_finish p = true -> doneCh l = true;
  once_ctx : ctxEnded (st l) = true -> doneCh l = true
}.

Lemma once_init : once_ok init.
Proof. by split. Qed.

(** Steps that leave the once and the calls of [close] alone. *)
Lemma once_frame l l' :
  once_ok l -> twice l' = twice l -> doneCh l' = doneCh l -> closers l' = closers l ->
  ctxEnded (st l') = ctxEnded (st l) -> doneErr (st l') = doneErr (st l) ->
  finishing (pc l') = false \/ pc l' = pc l -> once_ok l'.
Proof.
  intros [H1 H2 H3 H4 H5 H6] E1 E2 E3 E4 E5 E6.
  split; rewrite ?E1, ?E2, ?E3, ?E4, ?E5; try done.
  - destruct E6 as [->| ->]; [done|]. exact H3.
  - intros i Hi. destruct (H4 i Hi) as (? & ? & ? & ?). destruct E6 as [->| ->]; done.
Qed.

(** A call of [close] that moves on without touching the once. *)
Lemma once_closer_frame i p l l' :
  once_ok l -> twice l' = twice l -> doneCh l' = doneCh l -> closers l' = <[i := p]> (closers l) ->
  doneErr (st l') = doneErr (st l) -> pc l' = pc l -> p <> CFinishing ->
  (past_finish p = true -> doneCh l = true) -> (ctxEnded (st l') = true -> doneCh l = true) -> once_ok l'.
Proof.
  intros [H1 H2 H3 H4 H5 H6] E1 E2 E3 E4 E5 Hp Hpast Hctx.
  split; rewrite ?E1, ?E2, ?E3, ?E4, ?E5; try done.
  - intros j Hj. apply lookup_insert_Some in Hj as [[_ ?]|[Hij Hj]]; [done|].
    destruct (H4 j Hj) as (? & ? & ? & Hu). split_and!; [done..|].
    intros k Hk. apply lookup_insert_Some in Hk as [[_ ?]|[_ Hk]]; [done|by apply Hu].
  - intros j q Hj. apply lookup_insert_Some in Hj as [[_ <-]|[_ Hj]]; [done|by eapply H5].
Qed.

(** [doneCh] closed by the caller that set the reason. *)
Lemma once_closed l l' :
  once_ok l -> doneErr (st l) <> None -> doneCh l = false -> doneCh l' = true -> twice l' = twice l || doneCh l ->
  doneErr (st l') = doneErr (st l) -> ctxEnded (st l') = ctxEnded (st l) -> finishing (pc l') = false ->
  (forall j, closers l' !! j = Some CFinishing -> False) -> once_ok l'.
Proof.
  intros [H1 H2 H3 H4 H5 H6] He Hc E1 E2 E3 E4 E5 Hf. split; rewrite ?E1, ?E2, ?E3, ?E4, ?E5, ?H1, ?Hc; try done.
  intros i Hi. by destruct (Hf i).
Qed.

Lemma once_close_step i l l' : close_step i l l' -> once_ok l -> once_ok l'.
Proof.
  intros Hs Hok. pose proof Hok as [H1 H2 H3 H4 H5 H6].
  assert (forall p, closers l !! i = Some p -> past_finish p = true -> doneCh l = true) as Hpast by (intros p; apply H5).
  destruct Hs as [Hi|Hi He|Hi|Hi He Hc|Hi|Hi|o Hi|Hi Hr|Hi|o Hi].
  2: { assert (doneCh l = false) as Hc by (destruct (doneCh l) eqn:E; [by destruct (H2 eq_refl)|done]).
    assert (finishing (pc l) = false) as Hf by (destruct (finishing (pc l)) eqn:E; [by destruct (H3 eq_refl)|done]).
    split; simpl; autorewrite with frame; rewrite ?Hc, ?Hf; try done.
    - intros j Hj. split_and!; try done. intros k Hk.
      assert (forall x, <[i:=CFinishing]> (closers l) !! x = Some CFinishing -> x = i) as Hx.
      { intros x [[? _]|[_ Hx]]%lookup_insert_Some; [done|]. by destruct (H4 x Hx). }
      rewrite (Hx j Hj), (Hx k Hk). done.
    - intros j p [[_ <-]|[_ Hj]]%lookup_insert_Some; [done|]. intros Hp. rewrite <-Hc. by eapply H5.
    - rewrite <-Hc. exact H6. }
  2: { destruct (H4 i Hi) as (He & Hc & Hf & Hu). eapply once_closed; simpl; try done.
    intros j [[_ ?]|[Hij Hj]]%lookup_insert_Some; [done|]. by destruct Hij; symmetry; apply Hu. }
  all: eapply once_closer_frame; simpl; autorewrite with frame; try done.
  all: intros _; by eapply Hpast.
Qed.

Lemma once_giveUp_step l l' : giveUp_step l l' -> once_ok l -> once_ok l'.
Proof.
  intros Hs Hok. pose proof Hok as [H1 H2 H3 H4 H5 H6]. destruct Hs as [n last Hp He|n last Hp|n last Hp He Hc|n last Hp].
  - assert (doneCh l = false) as Hc by (destruct (doneCh l) eqn:E; [by destruct (H2 eq_refl)|done]).
    split; simpl; autorewrite with frame; rewrite ?Hc; try done.
    + intros i Hi. by destruct (H4 i Hi).
    + rewrite <-Hc. exact H5.
    + rewrite <-Hc. exact H6.
  - rewrite Hp in H3. destruct (H3 eq_refl) as [He Hc]. eapply once_closed; simpl; try done.
    intros j Hj. destruct (H4 j Hj) as (_ & _ & Hf & _). by rewrite Hp in Hf.
  - eapply once_frame; [done..|]. by left.
  - eapply once_frame; [done..|]. by left.
Qed.

Lemma once_step max l l' : step max l l' -> once_ok l -> once_ok l'.
Proof.
  intros [Hs|Hs|Hs|Hs|Hs|Hs|i Hs|Hs] Hok; [..|by eapply once_giveUp_step|by eapply once_close_step|];
    destruct Hs; eapply once_frame; simpl; autorewrite with frame; try done; auto.
Qed.

(** *** The readiness channel *)

Lemma inv_not_ready s : doneErr s <> None -> inv s -> inv (not_ready s).
Proof. by intros Hd [Hp Hr Hf]. Qed.

Lemma ready_step max l l' : step max l l' -> once_ok l -> inv (st l) -> inv (st l').
Proof.
  intros Hs Hok Hinv.
  step_cases Hs; autorewrite with frame; try done;
    auto using inv_markReady, inv_markNotReady, inv_set_conn, inv_finish; try by destruct Hinv.
  apply inv_not_ready; [|done]. apply (once_done l Hok). by eapply (once_past l Hok).
Qed.

(** *** Connections *)

(** A connection dialled and not yet the session's; the session's connection
    while the supervisor serves it. *)
Definition dialling (p : spc) : option nat :=
  match p with Connecting c | Refusing c | Dialled _ c => Some c | _ => None end.
Definition serving (p : spc) : option nat :=
  match p with
  | Connected c | Watching c | Installed _ c | Restoring _ c _ | Dropping _ c _ | Restored _ c | Abandoning c
  | Probing _ c | Raising _ c | Announcing _ c => Some c
  | _ => None
  end.

(** Where the session's connection cannot be open. *)
Definition disconnected (p : spc) : bool :=
  match p with
  | Exited => false
  | _ => match serving p with None => true | Some _ => false end
  end.

Definition dead_conn (l : life) : Prop := forall c, conn (st l) = Some c -> c ∉ open l.

Record conn_ok (l : life) : Prop := {
  conn_open c : c ∈ open l -> conn (st l) = Some c \/ dialling (pc l) = Some c;
  conn_old c : conn (st l) = Some c \/ dialling (pc l) = Some c -> c < next_conn l;
  conn_serving c : serving (pc l) = Some c -> conn (st l) = Some c;
  conn_dead : disconnected (pc l) = true -> dead_conn l;
  conn_exited : pc l = Exited -> ctxEnded (st l) = false -> dead_conn l
}.

Lemma conn_init : conn_ok init.
Proof. split; simpl; try done. by intros c [?|?]. Qed.

(** A connection is closed or dies. *)
Lemma conn_shut c l : conn_ok l -> conn_ok (shut c l).
Proof.
  intros [H1 H2 H3 H4 H5]. unfold dead_conn in *. split; simpl; auto; unfold dead_conn; simpl; set_solver.
Qed.

(** The supervisor moves on with the same connections. *)
Lemma conn_go p l :
  conn_ok l -> dialling p = dialling (pc l) -> serving p = serving (pc l) \/ serving p = None ->
  (disconnected p = true -> disconnected (pc l) = true \/ dead_conn l) ->
  (p = Exited -> ctxEnded (st l) = false -> dead_conn l) -> conn_ok (go p l).
Proof.
  intros [H1 H2 H3 H4 H5] Ed Es Hd Hx. split; simpl; rewrite ?Ed; auto.
  - intros c Hc. destruct Es as [Es|Es]; [apply H3; congruence|congruence].
  - intros Hp. destruct (Hd Hp); auto.
Qed.

(** It closes the connection it serves or has dialled. *)
Lemma conn_close p c l :
  conn_ok l -> serving (pc l) = Some c \/ dialling (pc l) = Some c -> dialling p = None -> serving p = None ->
  conn_ok (go p (shut c l)).
Proof.
  intros Hok Hc Hp Hs. assert (dead_conn (shut c l)) as Hd.
  { intros x Hx. simpl in *. destruct Hc as [Hc|Hc]; [apply (conn_serving l Hok) in Hc; set_solver|].
    destruct (pc l) eqn:E; simplify_eq/=; intros Ho; apply elem_of_difference in Ho as [Ho _];
      eapply (conn_dead l Hok); eauto; by rewrite E. }
  destruct Hok as [H1 H2 H3 H4 H5]. split; simpl; rewrite ?Hp, ?Hs; try done.
  - intros x [Hx Hn]%elem_of_difference. destruct (H1 x Hx) as [?|Hd']; [by left|].
    destruct Hc as [Hc|Hc]; [|set_solver]. by destruct (pc l).
  - intros x [Hx|?]; [|done]. auto.
Qed.

Lemma conn_dial p l :
  conn_ok l -> disconnected (pc l) = true -> dialling (pc l) = None -> dialling p = Some (next_conn l) -> serving p = None ->
  conn_ok (go p (dialOnce l)).
Proof.
  intros [H1 H2 H3 H4 H5] Hd Hn Hp Hs. split; simpl; rewrite ?Hp, ?Hs; try done.
  - intros c [->%elem_of_singleton|Hc]%elem_of_union; [by right|]. destruct (H1 c Hc) as [?|?]; [by left|congruence].
  - intros c [Hc|[= <-]]; [|lia]. specialize (H2 c (or_introl Hc)). lia.
  - intros _ c Hc Ho. simpl in *. specialize (H2 c (or_introl Hc)).
    apply elem_of_union in Ho as [->%elem_of_singleton|Ho]; [lia|]. by eapply H4.
  - by intros ->.
Qed.

Lemma conn_install p c l :
  conn_ok l -> dialling (pc l) = Some c -> dialling p = None -> serving p = Some c -> conn_ok (go p (upd (set_conn c) l)).
Proof.
  intros [H1 H2 H3 H4 H5] Hc Hp Hs.
  assert (disconnected (pc l) = true) as Hd by (by destruct (pc l)).
  split; simpl; rewrite ?Hp, ?Hs; try done.
  - intros x Hx. left. destruct (H1 x Hx) as [Hx'|Hx']; [by destruct (H4 Hd x)|congruence].
  - intros x [[= <-]|?]; [|done]. apply H2. by right.
  - destruct p; try done; simpl; by rewrite Hs.
  - by destruct p.
Qed.

(** Operations on the session that keep its connection and its context. *)
Lemma conn_upd f l :
  conn_ok l -> conn (f (st l)) = conn (st l) -> ctxEnded (f (st l)) = ctxEnded (st l) \/ ctxEnded (f (st l)) = true ->
  conn_ok (upd f l).
Proof.
  intros [H1 H2 H3 H4 H5] Ec Ex. unfold dead_conn in *. split; simpl; unfold dead_conn; simpl; rewrite ?Ec; auto.
  intros Hp Hx. apply H5; [done|]. destruct Ex; congruence.
Qed.

(** What the calls of [close] and the observer do not change. *)
Lemma conn_same l l' :
  conn_ok l -> st l' = st l -> pc l' = pc l -> open l' = open l -> next_conn l' = next_conn l -> conn_ok l'.
Proof.
  intros [H1 H2 H3 H4 H5] E1 E2 E3 E4. unfold dead_conn in *.
  split; unfold dead_conn; rewrite ?E1, ?E2, ?E3, ?E4; auto.
Qed.

Lemma conn_shut_read o l : conn_ok l -> conn_ok (shut_read o l).
Proof. destruct o; [apply conn_shut|done]. Qed.

#[export] Hint Resolve conn_shut conn_shut_read : session.

Lemma conn_gone c l : conn_ok l -> serving (pc l) = Some c -> c ∉ open l -> dead_conn l.
Proof. intros Hok Hc Ho x Hx. apply (conn_serving l Hok) in Hc. congruence. Qed.

(** The lemma that fits the shape of the state after a step. *)
Ltac conn_shape Hok :=
  match goal with
  | |- conn_ok (go _ (dialOnce _)) => apply conn_dial
  | |- conn_ok (go _ (upd (set_conn _) _)) => apply conn_install
  | |- conn_ok (go _ (shut _ _)) => apply conn_close
  | |- conn_ok (go _ (upd _ _)) => apply conn_go; [apply conn_upd|..]
  | |- conn_ok (go _ ?x) => apply conn_go; [apply (conn_same _ x Hok)|..]
  | |- conn_ok (closer _ _ (upd ?f ?x)) => apply (conn_same (upd f x)); [apply conn_upd|..]
  | |- conn_ok (closer _ _ (close_done ?x)) => apply (conn_same x)
  | |- conn_ok (closer _ _ ?x) => apply (conn_same x)
  | |- conn_ok (upd _ _) => apply conn_upd
  | |- conn_ok (shut _ _) => apply conn_shut
  end.

Lemma conn_step max l l' : step max l l' -> conn_ok l -> conn_ok l'.
Proof.
  intros Hs Hok. step_cases Hs; conn_shape Hok; simpl; autorewrite with frame; try done; auto with session.
  all: match goal with H : pc _ = _ |- _ => rewrite ?H; auto end.
  all: try (intros _; right; eapply conn_gone; [done| |done]; match goal with H : pc _ = _ |- _ => by rewrite H end).
  all: try (intros _ ?; congruence).
  all: intros _ _; apply (conn_dead _ Hok); match goal with H : pc _ = _ |- _ => by rewrite H end.
Qed.

(** *** Calls of [close] *)

(** Where the supervisor can be once a closing session has waited for it. *)
Definition calm (p : spc) : bool :=
  match p with Idle | Connecting _ | Refusing _ | Connected _ | Watching _ | Noticed _ | Exited => true | _ => false end.

Definition closer_at (l : life) (p : cpc) : Prop :=
  (past_cancel p = true -> ctxEnded (st l) = true) /\
  match p with
  | CRead2 => calm (pc l) = true
  | CClose2 o => calm (pc l) = true /\ conn (st l) = o
  | CReturned => calm (pc l) = true /\ dead_conn l
  | _ => True
  end.

Definition closer_ok (l : life) : Prop := forall i p, closers l !! i = Some p -> closer_at l p.

(** A closing session gets no other connection. *)
Lemma calm_step max l l' :
  step max l l' -> conn_ok l -> ctxEnded (st l) = true -> calm (pc l) = true ->
  calm (pc l') = true /\ conn (st l') = conn (st l) /\ (dead_conn l -> dead_conn l').
Proof.
  intros Hs Hok Hctx Hcalm. unfold dead_conn.
  assert (forall c, conn (st l) = Some c -> c <> next_conn l) as Hne.
  { intros c Hc ->. pose proof (conn_old l Hok _ (or_introl Hc)). lia. }
  step_cases Hs; autorewrite with frame; try congruence;
    try match goal with H : pc _ = _ |- _ => rewrite H in *; try done end;
    split_and!; auto; try set_solver.
  all: intros Hd c Hc; rewrite open_shut_read; naive_solver.
Qed.

Lemma closer_at_step max l l' p : step max l l' -> conn_ok l -> closer_at l p -> closer_at l' p.
Proof.
  intros Hs Hok [H1 H2]. split; [intros Hp; eapply ctxEnded_step; eauto|].
  destruct p; try done; simpl in H1; specialize (H1 eq_refl).
  - by destruct (calm_step max l l' Hs Hok H1 H2).
  - destruct H2 as [Hc <-]. by destruct (calm_step max l l' Hs Hok H1 Hc) as (? & ? & _).
  - destruct H2 as [Hc Hd]. destruct (calm_step max l l' Hs Hok H1 Hc) as (? & _ & ?). auto.
Qed.

(** What the call that moves knows after its step. *)
Lemma closer_moves i l l' p :
  close_step i l l' -> closer_ok l -> closers l' !! i = Some p -> closer_at l' p.
Proof.
  intros Hs Hok. destruct Hs as [Hi|Hi He|Hi|Hi He Hc|Hi|Hi|o Hi|Hi Hr|Hi|o Hi]; simpl; autorewrite with frame;
    rewrite lookup_insert; rewrite decide_True by done; intros [= <-]; try (by split);
    destruct (Hok i _ Hi) as [H1 H2]; split; simpl in *; autorewrite with frame; auto.
  - by destruct (pc l).
  - destruct H2 as [Hc <-]. split; [done|]. unfold dead_conn. simpl. autorewrite with frame.
    intros c Hc'. rewrite open_shut_read. naive_solver.
Qed.

Lemma closers_others max l l' i :
  step max l l' -> closers l' !! i = closers l !! i \/ close_step i l l'.
Proof.
  intros Hs. destruct Hs as [Hs|Hs|Hs|Hs|Hs|Hs|j Hs|Hs]; [by left; destruct Hs..| |by left; destruct Hs].
  destruct (decide (j = i)) as [->|Hij]; [by right|left].
  destruct Hs; simpl; autorewrite with frame; by rewrite lookup_insert_ne.
Qed.

Lemma closer_step max l l' : step max l l' -> conn_ok l -> closer_ok l -> closer_ok l'.
Proof.
  intros Hs Hok Hcl i p Hi. destruct (closers_others max l l' i Hs) as [E|Hc].
  - rewrite E in Hi. eapply closer_at_step; eauto.
  - by eapply closer_moves.
Qed.

(** *** What the observer sees *)

(** Up; down, after [n] attempts; finished. *)
Inductive phase := PUp | PDown (n : nat) | POver.

Definition observe (max : nat) (p : phase) (e : connection_event) : option phase :=
  match p, e with
  | PUp, EventDisconnected _ => Some (PDown 0)
  | PDown n, EventReconnecting m =>
      if bool_decide (m = S n /\ (max = 0 \/ m <= max)) then Some (PDown m) else None
  | PDown n, EventReconnected m => if bool_decide (m = n /\ 0 < n) then Some PUp else None
  | PDown n, EventGaveUp m _ => if bool_decide (m = n /\ n = max /\ 0 < max) then Some POver else None
  | _, _ => None
  end.

Fixpoint observed (max : nat) (p : phase) (l : list connection_event) : option phase :=
  match l with
  | [] => Some p
  | e :: l' => match observe max p e with Some p' => observed max p' l' | None => None end
  end.

Lemma observed_app max p l e :
  observed max p (l ++ [e]) = match observed max p l with Some p' => observe max p' e | None => None end.
Proof.
  revert p. induction l as [|x l IH]; intros p; simpl; [by destruct (observe max p e)|]. by destruct (observe max p x).
Qed.

(** The phase the supervisor is in; where an attempt is, its number is that of
    the last one announced. *)
Definition phase_ok (max : nat) (p : spc) (o : option phase) : Prop :=
  match p with
  | Exited => o <> None
  | Telling _ _ | Idle | Connecting _ | Refusing _ | Connected _ | Watching _ | Noticed _ | Losing _ | Marked _ => o = Some PUp
  | Trying n _ => exists k, n = S k /\ o = Some (PDown k) /\ (max = 0 \/ k <= max)
  | GivingUp n _ | Finishing n _ | Conceding n _ => o = Some (PDown n) /\ n = max /\ 0 < max
  | Sleeping n _ | Dialled n _ | Installed n _ | Restoring n _ _ | Dropping n _ _ | Dropped n _ | Restored n _
  | Probing n _ | Raising n _ | Announcing n _ => o = Some (PDown n) /\ 0 < n /\ (max = 0 \/ n <= max)
  | Abandoning _ => o <> None
  end.

Lemma phase_step max l l' :
  step max l l' -> phase_ok max (pc l) (observed max PUp (events l)) -> phase_ok max (pc l') (observed max PUp (events l')).
Proof.
  intros Hs Ho. step_cases Hs; autorewrite with frame; try done;
    match goal with H : pc _ = _ |- _ => rewrite H in Ho; simpl in Ho end; rewrite ?observed_app; try done.
  all: repeat match goal with H : exists _, _ |- _ => destruct H | H : _ /\ _ |- _ => destruct H end; subst; try congruence.
  all: try match goal with H : observed _ _ _ = Some _ |- _ => rewrite H end; try done; simpl.
  all: rewrite ?Nat.sub_0_r, ?(bool_decide_true _) by lia; simpl; try done; eauto with lia.
Qed.

(** *** Closing ends *)

(** Someone is to close [doneCh] once the reason is set. *)
Definition owned (l : life) : Prop :=
  doneErr (st l) <> None -> doneCh l = true \/ finishing (pc l) = true \/ exists j, closers l !! j = Some CFinishing.

Lemma finish_owned max l l' : step max l l' -> owned l -> owned l'.
Proof.
  intros Hs Ho. unfold owned in *.
  step_cases Hs; autorewrite with frame; try done;
    try match goal with H : pc _ = _ |- _ => rewrite H in Ho; simpl in Ho end; auto.
  all: intros He; try (right; right; eexists; by rewrite lookup_insert, decide_True).
  all: destruct (Ho He) as [?|[?|(j & Hj)]]; auto; right; right; exists j; rewrite lookup_insert_ne; congruence.
Qed.

(** How far the supervisor is from its end, once the context has ended. *)
Definition rank (l : life) : nat :=
  match pc l with
  | Exited => 0
  | Idle | Refusing _ | Watching _ | Noticed _ | Sleeping _ _ | Dropped _ _ | Abandoning _ | Conceding _ _ => 1
  | Connecting _ | Connected _ | Announcing _ _ | Finishing _ _ | Dropping _ _ _ | Restored _ _ => 2
  | Raising _ _ | Restoring _ _ _ | GivingUp _ _ => 3
  | Probing _ _ | Installed _ _ | Trying _ _ => 4
  | Dialled _ _ => 5
  | Telling _ cs => 5 + length cs
  | Marked _ => 6 + length (comps (st l))
  | Losing _ => 7 + length (comps (st l))
  end.

(** One step towards the end. *)
Ltac wind a b :=
  eexists; split; [by eapply a, b|]; split; [done|]; simpl; autorewrite with frame; lia.

Lemma winds max l :
  ctxEnded (st l) = true -> doneCh l = true -> running (pc l) = true ->
  exists l', step max l l' /\ closers l' = closers l /\ rank l' < rank l.
Proof.
  intros Hx Hd Hr. unfold rank.
  destruct (pc l) as [|c|c|c|c|e|e|e|e [|x cs]|n e|n e|n c|n c|n c [|x cs]|n c e|n e|n c|c|n c|n c|n c|n e|n e|n e|] eqn:Hp;
    try done.
  - wind step_supervise supervise_ended.
  - wind step_supervise supervise_deliberate.
  - wind step_lost lost_mark.
  - wind step_lost lost_registrations.
  - wind step_lost lost_emit.
  - wind step_lost lost_tell.
  - destruct (decide (0 < max /\ max < n)) as [[? ?]|Hn].
    + wind step_reconnect reconnect_limit.
    + assert (max = 0 \/ n <= max) by lia. wind step_reconnect reconnect_schedule.
  - wind step_reconnect reconnect_woken.
  - wind step_reconnect reconnect_install.
  - wind step_restore restore_registrations.
  - wind step_restore restore_done.
  - wind step_restore restore_ended.
  - wind step_reconnect reconnect_dropped.
  - wind step_reconnect reconnect_over.
  - wind step_reconnect reconnect_late.
  - wind step_reconnect reconnect_abandon.
  - wind step_reconnect reconnect_alive.
  - wind step_reconnect reconnect_ready.
  - wind step_reconnect reconnect_emit.
  - destruct (decide (doneErr (st l) = None)).
    + wind step_giveUp giveUp_finish.
    + wind step_giveUp giveUp_late.
  - wind step_giveUp giveUp_done.
  - wind step_giveUp giveUp_emit.
Qed.

Lemma winds_down max l :
  once_ok l -> ctxEnded (st l) = true -> exists l', rtc (step max) l l' /\ running (pc l') = false /\ closers l' = closers l.
Proof.
  remember (rank l) as k eqn:Hk. revert l Hk. induction (lt_wf k) as [k _ IH]. intros l -> Hok Hx.
  destruct (running (pc l)) eqn:Hr; [|by exists l; split; [apply rtc_refl|]].
  destruct (winds max l Hx (once_ctx l Hok Hx) Hr) as (l1 & Hs & Hc & Hlt).
  destruct (IH _ Hlt l1 eq_refl) as (l2 & Hs2 & Hr2 & Hc2);
    [by eapply once_step|by eapply ctxEnded_step|]. exists l2. split_and!; [by eapply rtc_l|done|congruence].
Qed.

(** A call of [close] under way can return, wherever the others are. *)
Definition can_return (max i : nat) (l : life) : Prop :=
  exists l', rtc (step max) l l' /\ closers l' !! i = Some CReturned.

Lemma can_return_l max i l l' : step max l l' -> can_return max i l' -> can_return max i l.
Proof. intros Hs (l2 & Hs2 & Hi). exists l2. split; [by eapply rtc_l|done]. Qed.

Lemma closers_closer i p l : closers (closer i p l) !! i = Some p.
Proof. simpl. by rewrite lookup_insert, decide_True. Qed.

(** Call [i] takes its next step. *)
Ltac closing c := eapply can_return_l; [by eapply step_close, c; try apply closers_closer|].

Lemma returns_waiting max i l :
  once_ok l -> ctxEnded (st l) = true -> closers l !! i = Some CWait -> can_return max i l.
Proof.
  intros Hok Hx Hi. destruct (winds_down max l Hok Hx) as (l1 & Hs & Hr & Hc).
  assert (can_return max i l1) as (l2 & Hs2 & Hi2); [|exists l2; split; [by etrans|done]].
  rewrite <-Hc in Hi. closing close_waited. closing close_read_again. closing close_conn_again.
  eexists. split; [apply rtc_refl|apply closers_closer].
Qed.

Lemma returns_cancelling max i l : once_ok l -> closers l !! i = Some CCancel -> can_return max i l.
Proof.
  intros Hok Hi. closing close_cancel. closing close_read. closing close_conn.
  apply returns_waiting; [|simpl; by autorewrite with frame|apply closers_closer].
  eapply (once_step max), (once_step max), (once_step max), Hok; eapply step_close;
    [eapply close_conn|eapply close_read|by apply close_cancel]; apply closers_closer.
Qed.

Lemma returns_finishing max i l : once_ok l -> closers l !! i = Some CFinishing -> can_return max i l.
Proof.
  intros Hok Hi. closing close_finished. apply returns_cancelling; [|apply closers_closer].
  eapply (once_step max), Hok. by eapply step_close, close_finished.
Qed.

(** The once is free, or passed, or can be passed by its owner. *)
Lemma returns_starting max i l : once_ok l -> owned l -> closers l !! i = Some CStart -> can_return max i l.
Proof.
  intros Hok Ho Hi. destruct (decide (doneErr (st l) = None)) as [He|He].
  { closing close_finish. apply returns_finishing; [|apply closers_closer]. eapply (once_step max), Hok.
    by eapply step_close, close_finish. }
  assert (forall l', once_ok l' -> doneErr (st l') <> None -> doneCh l' = true -> closers l' !! i = Some CStart -> can_return max i l')
    as K.
  { intros l' Hok' He' Hc Hi'. closing close_late. apply returns_cancelling; [|apply closers_closer].
    eapply (once_step max), Hok'. by eapply step_close, close_late. }
  destruct (Ho He) as [Hc|[Hf|(j & Hj)]]; [by apply K|..].
  - destruct (pc l) eqn:Hp; try done. eapply can_return_l; [by eapply step_giveUp, giveUp_done|].
    apply K; [|done..]. eapply (once_step max), Hok. by eapply step_giveUp, giveUp_done.
  - eapply can_return_l; [by eapply step_close, close_finished, Hj|].
    apply K; [eapply (once_step max), Hok; by eapply step_close, close_finished, Hj|done..|].
    simpl. rewrite lookup_insert_ne; [done|congruence].
Qed.

Lemma close_returns max i p l :
  once_ok l -> owned l -> closer_ok l -> closers l !! i = Some p -> can_return max i l.
Proof.
  intros Hok Ho Hcl Hi. destruct (Hcl i p Hi) as [Hx _]. destruct p.
  - by apply returns_starting.
  - by apply returns_finishing.
  - by apply returns_cancelling.
  - closing close_read. closing close_conn. apply returns_waiting; [|simpl; by autorewrite with frame; apply Hx|apply closers_closer].
    eapply (once_step max), (once_step max), Hok; eapply step_close; [eapply close_conn, closers_closer|by eapply close_read].
  - closing close_conn. apply returns_waiting; [|simpl; by autorewrite with frame; apply Hx|apply closers_closer].
    eapply (once_step max), Hok; by eapply step_close, close_conn.
  - apply returns_waiting; auto.
  - closing close_read_again. closing close_conn_again. eexists. split; [apply rtc_refl|apply closers_closer].
  - closing close_conn_again. eexists. split; [apply rtc_refl|apply closers_closer].
  - by exists l; split; [apply rtc_refl|].
Qed.

(** ** Properties *)

Record life_ok (max : nat) (l : life) : Prop := {
  life_once : once_ok l;
  life_owned : owned l;
  life_inv : inv (st l);
  life_conn : conn_ok l;
  life_closer : closer_ok l;
  life_phase : phase_ok max (pc l) (observed max PUp (events l))
}.

Lemma inv_newSession : inv newSession.
Proof.
  split; simpl; [done|by intros _; rewrite bool_decide_false by set_solver|]. intros c [Hc| ->]; [set_solver|lia].
Qed.

Lemma session_life_ok max l : rtc (step max) init l -> life_ok max l.
Proof.
  apply (rtc_invariant _ (life_ok max)).
  - intros a b Hs [H1 H2 H3 H4 H5 H6]. split; [by eapply once_step|by eapply finish_owned|by eapply ready_step|
      by eapply conn_step|by eapply closer_step|by eapply phase_step].
  - split; [apply once_init|by intros ?|apply inv_newSession|apply conn_init|by intros i p ?|done].
Qed.

(** Where the supervisor's last connection is known to be gone, none is open. *)
Lemma none_open l : conn_ok l -> dead_conn l -> dialling (pc l) = None -> open l = ∅.
Proof.
  intros Hok Hd Hn. apply set_eq. intros c. split; [|set_solver]. intros Hc.
  destruct (conn_open l Hok c Hc) as [Hc'|Hc']; [by destruct (Hd c Hc')|congruence].
Qed.

(** C28: a session's life, however connecting, losing connections, reconnecting,
    giving up and any number of calls of [close] interleave. No channel is closed
    a second time (which would crash the process). While the session runs,
    waiters on the current readiness channel are released exactly when the
    connection is ready. The first reason it finished for stays, and once it is
    announced every waiter gets it, whatever channel it waited on. No connection
    leaks: when a call of [close] has returned and no dial is under way, or when
    the session has given up, none is open; and a call of [close] can always
    return. The observer sees a loss, then attempts numbered from one, at most
    the limit, then the reconnection or, after exactly the limit, the end. *)
Theorem session_life (max : nat) (l : life) :
  rtc (step max) init l ->
  panicked (st l) = false /\ twice l = false /\
  (doneErr (st l) = None -> whenReady (ready (st l)) l = if isReady (st l) then IsReady else Blocked) /\
  (forall e l', doneErr (st l) = Some e -> rtc (step max) l l' -> doneErr (st l') = Some e) /\
  (doneCh l = true -> exists e, doneErr (st l) = Some e /\ snd (current (st l)) = false /\
     forall ch, whenReady ch l = NotReady (Some e)) /\
  (forall i, closers l !! i = Some CReturned -> dialling (pc l) = None -> open l = ∅) /\
  (pc l = Exited -> ctxEnded (st l) = false -> open l = ∅) /\
  (forall i p, closers l !! i = Some p -> exists l', rtc (step max) l l' /\ closers l' !! i = Some CReturned) /\
  observed max PUp (events l) <> None.
Proof.
  intros [Honce Howned Hinv Hconn Hcl Hph]%session_life_ok. split_and!.
  - apply Hinv.
  - apply Honce.
  - intros Hd. unfold whenReady. destruct (doneCh l) eqn:Hc; [by destruct (once_done l Honce Hc)|].
    rewrite (inv_ready _ Hinv Hd). by case_decide; case_bool_decide.
  - intros e l' He Hs. by eapply doneErr_steps.
  - intros Hc. pose proof (once_done l Honce Hc). unfold whenReady, current. rewrite Hc.
    destruct (doneErr (st l)) as [e|]; [|done]. exists e. simpl. by rewrite andb_false_r.
  - intros i Hi Hn. destruct (Hcl i _ Hi) as [_ [_ Hd]]. by apply none_open.
  - intros Hp Hx. apply none_open; [done|by apply (conn_exited l Hconn)|by rewrite Hp].
  - intros i p Hi. by eapply close_returns.
  - unfold phase_ok in Hph. destruct (pc l); naive_solver.
Qed.

(** ** Sample: the broker goes away after the first connection and comes back at
    the second attempt; the session is closed while it restores the second
    connection, which nobody else knows of. *)
Tactic Notation "take" uconstr(a) uconstr(b) :=
  eapply rtc_l; [eapply a, b; first [reflexivity|vm_compute; lia|by vm_compute]|].

Definition ended_life (l : life) : Prop :=
  rtc (step 3) init l /\ closers l !! 0 = Some CReturned /\ dialling (pc l) = None /\ length (events l) = 3 /\ gen (st l) = 2%Z.

Lemma sample_life : exists l, ended_life l.
Proof.
  eexists. split; [|split_and!].
  - take step_connect connect_dialled.
    take step_connect connect_install.
    take step_connect connect_ready.
    take step_env (env_dies _ 0).
    take step_supervise (supervise_notice _ 0 (EText "reset")).
    take step_supervise supervise_failure.
    take step_lost lost_mark.
    take step_lost lost_registrations.
    take step_lost lost_emit.
    take step_reconnect reconnect_schedule.
    take step_reconnect (reconnect_refused _ _ 1 None (EText "refused")).
    take step_reconnect reconnect_schedule.
    take step_reconnect reconnect_dialled.
    take step_reconnect reconnect_install.
    take step_restore restore_registrations.
    take step_restore restore_done.
    take (step_close 3 _ _ 0) close_call.
    take (step_close 3 _ _ 0) close_finish.
    take (step_close 3 _ _ 0) close_finished.
    take (step_close 3 _ _ 0) close_cancel.
    take step_reconnect reconnect_late.
    take (step_close 3 _ _ 0) close_read.
    take (step_close 3 _ _ 0) close_conn.
    take step_reconnect reconnect_abandon.
    take (step_close 3 _ _ 0) close_waited.
    take (step_close 3 _ _ 0) close_read_again.
    take (step_close 3 _ _ 0) close_conn_again.
    apply rtc_refl.
  - reflexivity.
  - reflexivity.
  - reflexivity.
  - reflexivity.
Qed.

Lemma session_life_witness : exists l, ended_life l /\ open l = ∅.
Proof.
  destruct sample_life as (l & Hs & Hi & Hd & H). exists l. split; [done|].
  destruct (session_life 3 l Hs) as (_ & _ & _ & _ & _ & Hopen & _). by apply (Hopen 0).
Defined.
