(* ===== verification/Backoff.v ===== *)
(** * Backoff: the wait between reconnection attempts (session.go)

    [ReconnectPolicy.backoff] in the binary64 arithmetic of the code, of the
    random number it drew; the wait [sleepCtx] makes of it; what a connection
    event is called and what the session tells the broker of itself. *)
From S2P Require Import Prelude GoStrings Config Headers.
From Stdlib Require Import SpecFloat.

Local Open Scope Z_scope.

(** ** float64 *)

Definition f64_add := SFadd 53 1024.
Definition f64_mul := SFmul 53 1024.

(** [float64(n)] *)
Definition f64_of_int (n : Z) : spec_float := binary_normalize 53 1024 n 0 false.

Definition is_nan (x : spec_float) : bool := match x with S754_nan => true | _ => false end.

Definition is_neg (x : spec_float) : bool :=
  match x with S754_zero s | S754_infinity s => s | S754_finite s _ _ => s | S754_nan => false end.

(** The built-in [min]: a NaN wins, and a negative zero is below a positive one. *)
Definition f64_min (x y : spec_float) : spec_float :=
  if is_nan x || is_nan y then S754_nan
  else if SFltb x y then x
  else if SFltb y x then y
  else if is_neg x then x else y.

(** The conversion of a float to an int64 drops the fraction; a value outside of
    int64 is converted as the machine does. *)
Definition int_of_f64 `{GoArch} (x : spec_float) : Z :=
  let conv z := if (MinInt64 <=? z) && (z <=? MaxInt64) then z else int64_of_float z in
  match x with
  | S754_zero _ => 0
  | S754_finite s m e => let z := if s then Z.neg m else Z.pos m in conv (if 0 <=? e then z * 2 ^ e else Z.quot z (2 ^ (- e)))
  | S754_infinity s => int64_of_float (if s then - 2 ^ 1024 else 2 ^ 1024)
  | S754_nan => int64_of_float 0
  end.

(** The constant 0.3 *)
Definition f64_0_3 : spec_float := S754_finite false 5404319552844595 (-54).

(** ** The wait *)

(** The loop: [n] rounds are left. *)
Fixpoint grow (n : nat) (max mult base : spec_float) : spec_float :=
  match n with
  | O => base
  | S n' => if SFltb base max then grow n' max mult (f64_mul base mult) else base
  end.

(** The wait before jitter. *)
Definition backoff_base (p : ReconnectPolicy) (attempt : nat) : spec_float :=
  let max := f64_of_int (MaxDelay p) in
  f64_min (grow (attempt - 1) max (Multiplier p) (f64_of_int (InitialDelay p))) max.

(** [backoff]; [rand] is what [rand.Float64] answered. *)
Definition backoff `{GoArch} (p : ReconnectPolicy) (rand : spec_float) (attempt : nat) : Z :=
  let base := backoff_base p attempt in
  int_of_f64 (f64_add base (f64_mul (f64_mul rand f64_0_3) base)).

(** [sleepCtx]: whether the timer fired first; the context ends [ctx_after], and
    [pick] is the choice of the select when both are there. *)
Definition sleepCtx (pick : bool) (d : Z) (ctx_after : option Z) : bool :=
  match ctx_after with
  | None => true
  | Some t => if d <? t then true else if t <? d then false else pick
  end.

(** *** Properties *)

Lemma SFcompare_swap x y : SFcompare y x = CompOpp <$> SFcompare x y.
Proof.
  destruct x as [|[]| |[] m e], y as [|[]| |[] m' e']; try done; simpl; f_equal; rewrite (Z.compare_antisym e e');
    destruct (e ?= e'); try done; simpl; rewrite (Pos.compare_cont_antisym m m' Eq); simpl; by destruct (Pos.compare_cont Eq m m').
Qed.

Lemma SFltb_asym x y : SFltb x y = true -> SFltb y x = false.
Proof. unfold SFltb. rewrite (SFcompare_swap x y). by destruct (SFcompare x y) as [[]|]. Qed.

(** Without its jitter a wait is never longer than the policy's longest, and the
    loop grows it no further than it has to. *)
Lemma backoff_capped p attempt : SFltb (f64_of_int (MaxDelay p)) (backoff_base p attempt) = false.
Proof.
  unfold backoff_base. set (x := grow _ _ _ _). set (y := f64_of_int _). unfold f64_min.
  destruct (is_nan x || is_nan y) eqn:En; [unfold SFltb; by destruct y as [|[]| |]|].
  destruct (SFltb x y) eqn:E1; [by apply SFltb_asym|]. destruct (SFltb y x) eqn:E2.
  - destruct (SFltb y y) eqn:E; [|done]. rewrite (SFltb_asym _ _ E) in E. done.
  - destruct (is_neg x); [done|]. destruct (SFltb y y) eqn:E; [|done]. rewrite (SFltb_asym _ _ E) in E. done.
Qed.

Lemma grow_stops n max mult base : SFltb base max = false -> grow n max mult base = base.
Proof. destruct n; simpl; [done|]. by intros ->. Qed.

(** Once one more round changes nothing, none does: the wait has reached its
    longest. *)
Lemma grow_settles n k max mult base : SFltb (grow n max mult base) max = false -> grow (n + k) max mult base = grow n max mult base.
Proof.
  revert base. induction n as [|n IH]; intros base; simpl.
  - apply grow_stops.
  - destruct (SFltb base max) eqn:E; [apply IH|]. done.
Qed.

(** The default policy waits 1, 2, 4, 8, 16 seconds and 30 from then on; the
    jitter adds less than three tenths. *)
Definition f64_below_1 : spec_float := S754_finite false 9007199254740991 (-53).

Example default_waits :
  let p := Reconnect DefaultConfig in
  backoff (H := amd64) p (S754_zero false) <$> seq 1 8 = (fun s => s * Second) <$> [1; 2; 4; 8; 16; 30; 30; 30] /\
  Forall (fun a => 10 * backoff (H := amd64) p f64_below_1 a <= 13 * backoff (H := amd64) p (S754_zero false) a) (seq 1 8).
Proof. split; [vm_compute; reflexivity|]. repeat constructor; vm_compute; discriminate. Qed.

(** ** What others see of a session *)

(** [ConnectionEventKind.String]; kinds count from one. *)
Definition ConnectionEventKind_String (k : Z) : string :=
  if k =? 1 then "disconnected"
  else if k =? 2 then "reconnecting"
  else if k =? 3 then "reconnected"
  else if k =? 4 then "gave-up"
  else "ConnectionEventKind(" +:+ pretty k +:+ ")".

Lemma ConnectionEventKind_String_inj k k' : 1 <= k <= 4 -> 1 <= k' <= 4 ->
  ConnectionEventKind_String k = ConnectionEventKind_String k' -> k = k'.
Proof.
  intros H H'. assert (k = 1 \/ k = 2 \/ k = 3 \/ k = 4) as Hk by lia. assert (k' = 1 \/ k' = 2 \/ k' = 3 \/ k' = 4) as Hk' by lia.
  naive_solver.
Qed.

(** [amqpConfig] *)
Record amqpSettings := { aHeartbeat : Z; aLocale : string; aProperties : gmap string string }.

Definition amqpConfig (version : string) (cfg : Config) (name : string) : amqpSettings := {|
  aHeartbeat := Heartbeat cfg; aLocale := "en_US";
  aProperties := {["connection_name" := name; "product" := "protobus-go"; "version" := version; "platform" := "Go"]} |}.
