(* ===== verification/Events.v ===== *)
(** * Events: publishing and subscribing (events.go, eventlistener.go)

    A listener's subscriptions, the bindings of its queue and the dispatch of a
    delivered event to its handlers. A [*subscription] is its index in the list
    of all subscriptions made; user handlers and the protobuf codec are
    arguments. The publishing channel is PubChannel.v's; here a publish is the
    message handed to it. *)
From S2P Require Import Prelude GoStrings Wire Topic Headers Errors Consumer Dispatcher.

Local Open Scope Z_scope.

(** ** Listeners *)

(** [typeName], "" for a SubscribeAll handler. *)
Record subscription := { typeName : string }.

Record EventListener := {
  subs : list subscription;
  router : Trie nat;
  all : list nat;
  patterns : list string;
  started : bool;
  lazy : bool;
  (* the bindings made on the queue *)
  bound : list string
}.

Definition newEventListener : EventListener :=
  {| subs := []; router := New; all := []; patterns := []; started := false; lazy := false; bound := [] |}.

Definition bindings (l : EventListener) : list string := patterns l.

(** [Start], once: the consumer declares the queue with every binding. *)
Definition Start (l : EventListener) : EventListener :=
  if started l then l
  else {| subs := subs l; router := router l; all := all l; patterns := patterns l; started := true;
          lazy := lazy l; bound := bound l ++ bindings l |}.

(** [add]: under the lock, then start or bind if there is something to. *)
Definition add (pattern : string) (s : subscription) (isAll : bool) (l : EventListener) : EventListener :=
  let i := length (subs l) in
  let fresh := bool_decide (pattern ∉ patterns l) in
  let l' := {| subs := subs l ++ [s];
               router := if isAll then router l else Add (router l) pattern i;
               all := if isAll then all l ++ [i] else all l;
               patterns := if fresh then patterns l ++ [pattern] else patterns l;
               started := started l; lazy := lazy l; bound := bound l |} in
  if lazy l && negb (started l) then Start l'
  else if fresh && started l then
    {| subs := subs l'; router := router l'; all := all l'; patterns := patterns l'; started := started l';
       lazy := lazy l'; bound := bound l' ++ [pattern] |}
  else l'.

Definition EventTopic (typ : string) : string := "EVENT." +:+ typ.

(** [SubscribeType] with an optional topic, and [SubscribeAll]. *)
Definition SubscribeType (typ : string) (topic : option string) (l : EventListener) : EventListener :=
  add (default (EventTopic typ) topic) {| typeName := typ |} false l.
Definition SubscribeAll (l : EventListener) : EventListener := add "#" {| typeName := "" |} true l.

(** ** Dispatch *)

Record EventInfo := {
  IType : string; ITopic : string; IRoutingKey : string; IMessageID : string; ICorrelationID : string;
  IRedelivered : bool; IAttempt : Z; IHeaders : Table
}.

Definition eventDecodeError (typ text : string) (inner : err) : err :=
  EWraps ("event " +:+ typ +:+ " did not decode: " +:+ text) [newProtocolError ("event " +:+ typ +:+ " did not decode"); inner].

Section Handle.
Context {P : Protowire} {A : GoArch}.

(** What a subscription's handler answers: the decoding and the user's code. *)
Definition event_handler : Type := nat -> Event -> EventInfo -> option err.

Definition event_info (ev : Event) (d : Delivery) : EventInfo := {|
  IType := EvType ev; ITopic := EvTopic ev; IRoutingKey := RoutingKey d; IMessageID := MessageId d;
  ICorrelationID := CorrelationId d; IRedelivered := Redelivered d; IAttempt := retryCount (Headers d);
  IHeaders := copyHeaders (Headers d) |}.

Definition accepts (l : EventListener) (typ : string) (i : nat) : bool :=
  match subs l !! i with
  | Some s => bool_decide (typeName s = "") || bool_decide (typeName s = typ)
  | None => false
  end.

(** The loop over the matching subscriptions: those run, and the result. *)
Fixpoint run_subs (l : EventListener) (H : event_handler) (ev : Event) (info : EventInfo) (idxs : list nat)
    : list nat * handlerResult :=
  match idxs with
  | [] => ([], {| reply := None; herr := None; errReply := None; handled := false |})
  | i :: idxs' =>
      if accepts l (EvType ev) i then
        match H i ev info with
        | Some e => ([i], {| reply := None; herr := Some e; errReply := None;
                             handled := match AsHandled e with Some _ => true | None => false end |})
        | None => let '(ran, r) := run_subs l H ev info idxs' in (i :: ran, r)
        end
      else run_subs l H ev info idxs'
  end.

Definition handle (l : EventListener) (H : event_handler) (d : Delivery) : list nat * handlerResult :=
  match DecodeEvent (Body d) with
  | (_, Some _) =>
      ([], {| reply := None; herr := Some (eventDecodeError "(unknown)" "" (ESentinel ErrMalformed)); errReply := None;
              handled := true |})
  | (ev, None) =>
      let matchOn := if decide (RoutingKey d = "") then EvTopic ev else RoutingKey d in
      run_subs l H ev (event_info ev d) (Match (router l) matchOn (all l))
  end.

(** ** Publishing *)

(** [PublishEvent], up to the publish: the topic and the message. [marshalled]
    is the encoded event. *)
Definition PublishEvent (typ : string) (topic messageID : option string) (uuid : string) (marshalled : bytes + err)
    : (string * Publishing) + err :=
  if decide (typ = "") then
    inr (EWrap (sentinel_text ErrInvalidRequest +:+ ": event has no message type") (ESentinel ErrInvalidRequest))
  else
    let t := match topic with Some t => if decide (t = "") then EventTopic typ else t | None => EventTopic typ end in
    match validateMessageID messageID with
    | Some e => inr e
    | None =>
        match marshalled with
        | inr e => inr (EWraps (sentinel_text ErrInvalidRequest +:+ ": event " +:+ typ +:+ ": " +:+ error_text e)
                          [ESentinel ErrInvalidRequest; e])
        | inl data =>
            inl (t, {| PHeaders := ∅; PContentType := contentTypeOctetStream; PContentEncoding := "";
                       PDeliveryMode := Persistent; PPriority := 0; PCorrelationId := uuid; PReplyTo := "";
                       PMessageId := default "" messageID; PTimestamp := 0; PType := ""; PAppId := "";
                       PBody := AppendEvent [] {| EvType := typ; EvTopic := t; EvData := data |} |})
        end
    end.

End Handle.

(** ** Properties *)

(** What can happen to a listener: subscriptions, starting, and becoming lazy
    (a service's listener asked for after the service started). *)
Inductive listener_op :=
| OpSubscribe (pattern typ : string)
| OpSubscribeAll
| OpStart
| OpLazy.

Definition apply_op (o : listener_op) (l : EventListener) : EventListener :=
  match o with
  | OpSubscribe p typ => add p {| typeName := typ |} false l
  | OpSubscribeAll => SubscribeAll l
  | OpStart => Start l
  | OpLazy => {| subs := subs l; router := router l; all := all l; patterns := patterns l; started := started l;
                 lazy := true; bound := bound l |}
  end.

Definition run_ops (os : list listener_op) : EventListener := fold_left (fun l o => apply_op o l) os newEventListener.

(** The specification: the subscriptions in order, with their patterns. *)
Fixpoint typed_of (i : nat) (os : list listener_op) : list (string * nat) :=
  match os with
  | [] => []
  | OpSubscribe p _ :: os' => (p, i) :: typed_of (S i) os'
  | OpSubscribeAll :: os' => typed_of (S i) os'
  | _ :: os' => typed_of i os'
  end.
Fixpoint all_of (i : nat) (os : list listener_op) : list nat :=
  match os with
  | [] => []
  | OpSubscribe _ _ :: os' => all_of (S i) os'
  | OpSubscribeAll :: os' => i :: all_of (S i) os'
  | _ :: os' => all_of i os'
  end.
Fixpoint patterns_of (os : list listener_op) : list string :=
  match os with
  | [] => []
  | OpSubscribe p _ :: os' => p :: patterns_of os'
  | OpSubscribeAll :: os' => "#" :: patterns_of os'
  | _ :: os' => patterns_of os'
  end.
Definition subs_of (os : list listener_op) : list subscription :=
  omap (fun o => match o with
                 | OpSubscribe _ t => Some {| typeName := t |}
                 | OpSubscribeAll => Some {| typeName := "" |}
                 | _ => None end) os.

Record represents (os : list listener_op) (l : EventListener) : Prop := {
  rep_subs : subs l = subs_of os;
  rep_router : router l = build (typed_of 0 os);
  rep_all : all l = all_of 0 os;
  rep_patterns : forall p, p ∈ patterns l <-> p ∈ patterns_of os;
  rep_bound : started l = true -> forall p, p ∈ patterns l -> p ∈ bound l
}.

Lemma typed_of_app i a b : typed_of i (a ++ b) = typed_of i a ++ typed_of (i + length (subs_of a)) b.
Proof.
  revert i. induction a as [|o a IH]; intros i; [simpl; by rewrite Nat.add_0_r|].
  destruct o; simpl; rewrite IH; unfold subs_of; simpl; rewrite ?Nat.add_succ_r; done.
Qed.
Lemma all_of_app i a b : all_of i (a ++ b) = all_of i a ++ all_of (i + length (subs_of a)) b.
Proof.
  revert i. induction a as [|o a IH]; intros i; [simpl; by rewrite Nat.add_0_r|].
  destruct o; simpl; rewrite IH; unfold subs_of; simpl; rewrite ?Nat.add_succ_r; done.
Qed.
Lemma patterns_of_app a b : patterns_of (a ++ b) = patterns_of a ++ patterns_of b.
Proof. induction a as [|o a IH]; [done|]. destruct o; simpl; by rewrite IH. Qed.
Lemma subs_of_app a b : subs_of (a ++ b) = subs_of a ++ subs_of b.
Proof. apply omap_app. Qed.

Lemma Start_represents os l : represents os l -> represents os (Start l).
Proof.
  intros [H1 H2 H3 H4 H5]. unfold Start. destruct (started l) eqn:E; [by split; rewrite ?E|].
  split; simpl; try done. intros _ p Hp. apply elem_of_app. by right.
Qed.

(** One more subscription, before what may follow it (a start or a bind). *)
Lemma add_represents os l p s (isAll : bool) o :
  represents os l -> o = (if isAll then OpSubscribeAll else OpSubscribe p (typeName s)) -> (isAll = true -> p = "#" /\ typeName s = "") ->
  represents (os ++ [o]) (add p s isAll l).
Proof.
  intros [H1 H2 H3 H4 H5] -> Hall. unfold add.
  set (i := length (subs l)). set (fr := bool_decide (p ∉ patterns l)).
  set (o := if isAll then OpSubscribeAll else OpSubscribe p (typeName s)).
  match goal with |- context [Start ?x] => set (l' := x) end.
  assert (forall q, q ∈ patterns l' <-> q ∈ patterns l \/ q = p) as Hpat.
  { intros q. simpl. unfold fr. case_bool_decide as Hn.
    - by rewrite elem_of_app, list_elem_of_singleton.
    - naive_solver. }
  assert (subs l' = subs_of (os ++ [o]) /\ router l' = build (typed_of 0 (os ++ [o])) /\
    all l' = all_of 0 (os ++ [o]) /\ forall q, q ∈ patterns l' <-> q ∈ patterns_of (os ++ [o])) as (E1 & E2 & E3 & E4).
  { rewrite subs_of_app, typed_of_app, all_of_app, patterns_of_app, <-H1. split_and!.
    - simpl. unfold o. destruct isAll; [|by destruct s]. destruct (Hall eq_refl) as [_ Ht]. destruct s. simpl in *. by subst.
    - simpl. unfold o. destruct isAll; simpl; [by rewrite app_nil_r|]. by rewrite build_snoc, H2.
    - simpl. unfold o. destruct isAll; simpl; [by rewrite H3|by rewrite app_nil_r].
    - intros q. rewrite (Hpat q), elem_of_app, H4. unfold o.
      destruct isAll; simpl; rewrite list_elem_of_singleton; [|done]. destruct (Hall eq_refl) as [-> _]. done. }
  assert (started l' = started l /\ bound l' = bound l /\ lazy l' = lazy l) as (Es & Eb & _) by done.
  destruct (lazy l && negb (started l)) eqn:El; [apply Start_represents; split; try done|].
  { rewrite Es. intros Hs. rewrite Hs, andb_false_r in El. done. }
  destruct (fr && started l) eqn:Ef.
  - split; try done. intros Hs q [Hq| ->]%Hpat; simpl; apply elem_of_app; [left; by apply H5|right; by left].
  - split; try done. rewrite Es, Eb. intros Hs q [Hq| ->]%Hpat; [by apply H5|].
    rewrite Hs, andb_true_r in Ef. unfold fr in Ef. apply bool_decide_eq_false, dec_stable in Ef. by apply H5.
Qed.

Lemma run_ops_represents os : represents os (run_ops os).
Proof.
  unfold run_ops. induction os as [|o os IH] using rev_ind; [by split|].
  rewrite fold_left_app. simpl. set (l := fold_left _ os newEventListener) in *.
  destruct o as [p t| | |]; simpl.
  - by apply add_represents.
  - by apply add_represents.
  - destruct (Start_represents _ _ IH) as [H1 H2 H3 H4 H5].
    split; rewrite ?subs_of_app, ?typed_of_app, ?all_of_app, ?patterns_of_app, ?app_nil_r; done.
  - destruct IH as [H1 H2 H3 H4 H5].
    split; rewrite ?subs_of_app, ?typed_of_app, ?all_of_app, ?patterns_of_app, ?app_nil_r; done.
Qed.

Section EventProps.
Context {P : Protowire} {A : GoArch}.

Lemma run_subs_spec l H ev info idxs :
  let cand := List.filter (accepts l (EvType ev)) idxs in
  let '(ran, r) := run_subs l H ev info idxs in
  ran `prefix_of` cand /\
  (herr r = None -> ran = cand /\ forall i, i ∈ cand -> H i ev info = None) /\
  (forall e, herr r = Some e -> handled r = (match AsHandled e with Some _ => true | None => false end) /\
     exists pre i, ran = pre ++ [i] /\ H i ev info = Some e /\ forall j, j ∈ pre -> H j ev info = None).
Proof.
  induction idxs as [|i idxs IH]; simpl.
  { split_and!; [done| |done]. intros _. split; [done|]. by intros i ?%elem_of_nil. }
  destruct (accepts l (EvType ev) i); [|done]. destruct (H i ev info) as [e|] eqn:Ei.
  - split_and!; [apply prefix_cons, prefix_nil|done|]. intros e' [= <-]. split; [done|].
    exists [], i. split_and!; [done|done|]. by intros j ?%elem_of_nil.
  - destruct (run_subs l H ev info idxs) as [ran r]. destruct IH as (Hp & Hn & Hf). split_and!.
    + by apply prefix_cons.
    + intros Hr. destruct (Hn Hr) as [-> Hall]. split; [done|]. intros j [->|Hj]%elem_of_cons; [done|by apply Hall].
    + intros e He. destruct (Hf e He) as (Hh & pre & j & -> & Hj & Hpre). split; [done|].
      exists (i :: pre), j. split_and!; [done|done|]. intros k [->|Hk]%elem_of_cons; [done|by apply Hpre].
Qed.

(** The key a delivery's handlers are matched on. *)
Definition match_key (d : Delivery) (ev : Event) : string :=
  if decide (RoutingKey d = "") then EvTopic ev else RoutingKey d.

(** The subscriptions an event is for: those to everything, then those whose
    pattern the broker's rule matches with the key, in subscription order; of
    them, those for the event's type. *)
Definition candidates (os : list listener_op) (d : Delivery) (ev : Event) : list nat :=
  List.filter (accepts (run_ops os) (EvType ev)) (Match_spec (typed_of 0 os) (match_key d ev) (all_of 0 os)).


Lemma topicMatch_refl ws : topicMatch ws ws = true.
Proof.
  induction ws as [|w ws IH]; [done|]. destruct (decide (w = "#")) as [->|Hw].
  - rewrite topicMatch_hash. apply existsb_exists. exists ws. split; [|done].
    change (suffixes ("#" :: ws)) with (("#" :: ws) :: suffixes ws). right. destruct ws; by left.
  - rewrite topicMatch_word, IH, bool_decide_true by auto. done.
Qed.

Lemma elem_of_dedup_into (out l : list nat) x : x ∈ dedup_into out l <-> x ∈ out \/ x ∈ l.
Proof.
  revert out. induction l as [|y l IH]; intros out; simpl; [rewrite elem_of_nil; naive_solver|].
  rewrite IH, elem_of_cons. case_decide; [naive_solver|]. rewrite elem_of_app, list_elem_of_singleton. naive_solver.
Qed.

Context {L : ProtowireLaws P}.


End EventProps.

(** ** Samples *)

Definition sample_ops : list listener_op := [OpSubscribeAll; OpSubscribe "EVENT.Shop.Order" "Shop.Order"; OpStart].

Definition sample_event : Event := {| EvType := "Shop.Order"; EvTopic := "EVENT.Shop.Order"; EvData := [x05] |}.

Definition event_delivery : Delivery := {|
  Headers := ∅; ContentType := contentTypeOctetStream; ContentEncoding := ""; Priority := 0; CorrelationId := "c1";
  ReplyTo := ""; MessageId := "m1"; Timestamp := 0; DType := ""; AppId := ""; DeliveryTag := 1; Redelivered := false;
  Exchange := "proto.bus.events"; RoutingKey := "EVENT.Shop.Order";
  Body := AppendEvent (P := Varint.wire) [] sample_event |}.


Definition sample_publishing : Publishing := {|
  PHeaders := ∅; PContentType := contentTypeOctetStream; PContentEncoding := ""; PDeliveryMode := Persistent;
  PPriority := 0; PCorrelationId := "u"; PReplyTo := ""; PMessageId := ""; PTimestamp := 0; PType := ""; PAppId := "";
  PBody := AppendEvent (P := Varint.wire) [] sample_event |}.

