(* ===== verification/Bus.v ===== *)
(** * Bus: in-flight accounting, attaching components, closing (bus.go)

    [Inflight] is the counter deliveries and handlers are counted in, with the
    channel its waiters block on. [Attach] is the life of the bus's components:
    attaching, which may race closing, and closing. *)
From S2P Require Import Prelude GoStrings Headers Errors.

Local Open Scope Z_scope.

(** ** In-flight accounting *)

Module Inflight.

(** [zero] is a channel, made when work begins and closed when the count is
    back at zero; [None] is nil. A second close panics. *)
Record inflight := {
  n : Z;
  zero : option nat;
  closed : gset nat;
  next : nat;
  panicked : bool
}.

Definition new : inflight := {| n := 0; zero := None; closed := ∅; next := 0; panicked := false |}.

Definition add (f : inflight) : inflight :=
  let z := if n f =? 0 then Some (next f) else zero f in
  {| n := n f + 1; zero := z; closed := closed f; next := if n f =? 0 then S (next f) else next f;
     panicked := panicked f |}.

(** [close] of a nil or closed channel panics. *)
Definition close_zero (f : inflight) : inflight :=
  match zero f with
  | None => {| n := n f; zero := zero f; closed := closed f; next := next f; panicked := true |}
  | Some c => {| n := n f; zero := zero f; closed := {[c]} ∪ closed f; next := next f;
                 panicked := panicked f || bool_decide (c ∈ closed f) |}
  end.

Definition done_ (f : inflight) : inflight :=
  let f := {| n := n f - 1; zero := zero f; closed := closed f; next := next f; panicked := panicked f |} in
  if n f =? 0 then close_zero f else f.

Definition count (f : inflight) : Z := n f.

(** [wait]: returns at once, or the channel to wait on ([None] blocks
    forever). *)
Definition wait (f : inflight) : option (option nat) := if n f =? 0 then None else Some (zero f).

(** Every [done] follows its own [add]. *)
Inductive step : inflight -> inflight -> Prop :=
| step_add f : step f (add f)
| step_done f : 0 < n f -> step f (done_ f).

Record inv (f : inflight) : Prop := {
  inv_n : 0 <= n f;
  inv_panicked : panicked f = false;
  inv_open : 0 < n f -> exists c, zero f = Some c /\ c ∉ closed f;
  inv_zero : n f = 0 -> forall c, zero f = Some c -> c ∈ closed f;
  inv_fresh : forall c, c ∈ closed f \/ zero f = Some c -> (c < next f)%nat
}.

Lemma inflight_inv_step f f' : step f f' -> inv f -> inv f'.
Proof.
  intros Hstep [Hn Hp Ho Hz Hf]. destruct Hstep as [f|f Hpos].
  - unfold add. destruct (Z.eqb_spec (n f) 0) as [E|E]; split; simpl; try done; try lia.
    + intros _. exists (next f). split; [done|]. intros Hin. specialize (Hf _ (or_introl Hin)). lia.
    + intros c [Hc|[= <-]]; [|lia]. specialize (Hf c (or_introl Hc)). lia.
    + intros _. apply Ho. lia.
  - unfold done_. simpl. destruct (Ho Hpos) as (c & Hc & Hnc).
    destruct (Z.eqb_spec (n f - 1) 0) as [E|E].
    + unfold close_zero. simpl. rewrite Hc. split; simpl; try done; try lia.
      * rewrite Hp. simpl. by apply bool_decide_eq_false.
      * intros _ c' [= <-]. set_solver.
      * intros c' [Hin|[= <-]]; apply Hf; [|by right]. apply elem_of_union in Hin as [->%elem_of_singleton|?]; auto.
    + split; simpl; try done; try lia. intros _. by exists c.
Qed.

Lemma inflight_inv_reachable f : rtc step new f -> inv f.
Proof.
  apply rtc_invariant; [apply inflight_inv_step|]. split; simpl; try done; try lia. intros c [?|?]; [set_solver|done].
Qed.


End Inflight.


(** ** Attaching and closing *)

Module Attach.

(** A component in [attachOnce]: its topology is built (under restoreMu), it is
    enrolled in restoration, it is among the bus's closers, or it was turned
    away because the bus closed meanwhile. *)
Inductive phase := Restored | Registered | Enrolled | TurnedAway.

#[export] Instance phase_eq_dec : EqDecision phase.
Proof. solve_decision. Defined.

Record comp := { cphase : phase; closes : nat }.

(** Where [Close] is: not called, running the closers left, or done. *)
Inductive close_pc := NotClosing | Closing (left : list nat) | Closed.

Record bus := {
  comps : list comp;
  (* restoreMu: the component whose attachOnce holds it *)
  restoring : option nat;
  (* the session's registrations *)
  registered : list nat;
  closers : list nat;
  closed : bool;
  closing : close_pc;
  (* the order components were closed in *)
  closed_order : list nat
}.

Definition new : bus :=
  {| comps := []; restoring := None; registered := []; closers := []; closed := false; closing := NotClosing;
     closed_order := [] |}.

Definition set_phase (f : phase) (c : comp) : comp := {| cphase := f; closes := closes c |}.
Definition close_comp (c : comp) : comp := {| cphase := cphase c; closes := S (closes c) |}.

(** The registration's removal. *)
Definition unreg (i : nat) (l : list nat) : list nat := List.filter (fun j => negb (j =? i)%nat) l.

Inductive step : bus -> bus -> Prop :=
(* attachOnce, its first check passed and its topology restored *)
| attach_restore b :
    restoring b = None -> closed b = false ->
    step b {| comps := comps b ++ [{| cphase := Restored; closes := 0 |}]; restoring := Some (length (comps b));
              registered := registered b; closers := closers b; closed := closed b; closing := closing b;
              closed_order := closed_order b |}
| attach_register b i c :
    comps b !! i = Some c -> cphase c = Restored ->
    step b {| comps := alter (set_phase Registered) i (comps b); restoring := restoring b;
              registered := registered b ++ [i]; closers := closers b; closed := closed b; closing := closing b;
              closed_order := closed_order b |}
(* the last critical section of attachOnce *)
| attach_enrol b i c :
    comps b !! i = Some c -> cphase c = Registered -> closed b = false ->
    step b {| comps := alter (set_phase Enrolled) i (comps b); restoring := None; registered := registered b;
              closers := closers b ++ [i]; closed := closed b; closing := closing b; closed_order := closed_order b |}
| attach_too_late b i c :
    comps b !! i = Some c -> cphase c = Registered -> closed b = true ->
    step b {| comps := alter (set_phase TurnedAway ∘ close_comp) i (comps b); restoring := None;
              registered := unreg i (registered b); closers := closers b; closed := closed b; closing := closing b;
              closed_order := closed_order b |}
(* Close *)
| close_begin b :
    closed b = false ->
    step b {| comps := comps b; restoring := restoring b; registered := registered b; closers := [];
              closed := true; closing := Closing (rev (closers b)); closed_order := closed_order b |}
| close_one b i left :
    closing b = Closing (i :: left) ->
    step b {| comps := alter close_comp i (comps b); restoring := restoring b; registered := unreg i (registered b);
              closers := closers b; closed := closed b; closing := Closing left; closed_order := closed_order b ++ [i] |}
| close_end b :
    closing b = Closing [] ->
    step b {| comps := comps b; restoring := restoring b; registered := registered b; closers := closers b;
              closed := closed b; closing := Closed; closed_order := closed_order b |}.

(** The closers still to run, in the order [Close] runs them. *)
Definition to_close (b : bus) : list nat :=
  match closing b with NotClosing => rev (closers b) | Closing l => l | Closed => [] end.

Definition open_phase (f : phase) : bool := match f with Restored | Registered => true | _ => false end.

Record inv (b : bus) : Prop := {
  inv_nodup : NoDup (to_close b);
  inv_closed : closed b = false <-> closing b = NotClosing;
  inv_empty : closed b = true -> closers b = [];
  (* an enrolled component is still to be closed, or was closed once; one being
     attached is neither; one turned away was closed once *)
  inv_comp : forall i c, comps b !! i = Some c ->
    match cphase c with
    | Restored | Registered => closes c = 0%nat /\ i ∉ to_close b
    | Enrolled => (closes c = 0%nat /\ i ∈ to_close b) \/ (closes c = 1%nat /\ i ∉ to_close b)
    | TurnedAway => closes c = 1%nat /\ i ∉ to_close b
    end;
  inv_reg : forall i, i ∈ registered b ->
    exists c, comps b !! i = Some c /\ (cphase c = Registered \/ cphase c = Enrolled) /\ closes c = 0%nat;
  inv_known : forall i, i ∈ to_close b -> exists c, comps b !! i = Some c /\ cphase c = Enrolled;
  inv_restoring : forall i c, comps b !! i = Some c -> open_phase (cphase c) = true -> restoring b = Some i
}.

Lemma elem_of_unreg i j l : j ∈ unreg i l <-> j ∈ l /\ j <> i.
Proof.
  unfold unreg. rewrite list_elem_of_In, filter_In, <-list_elem_of_In.
  destruct (Nat.eqb_spec j i); simpl; naive_solver.
Qed.

(** One component moves on; the closers and registrations follow. *)
Lemma attach_inv_update b b' i c f :
  inv b -> comps b !! i = Some c -> comps b' = alter f i (comps b) ->
  (closed b' = false <-> closing b' = NotClosing) -> (closed b' = true -> closers b' = []) -> NoDup (to_close b') ->
  (forall j, j <> i -> j ∈ to_close b' <-> j ∈ to_close b) ->
  (match cphase (f c) with
   | Restored | Registered => closes (f c) = 0%nat /\ i ∉ to_close b'
   | Enrolled => (closes (f c) = 0%nat /\ i ∈ to_close b') \/ (closes (f c) = 1%nat /\ i ∉ to_close b')
   | TurnedAway => closes (f c) = 1%nat /\ i ∉ to_close b'
   end) ->
  (forall j, j ∈ registered b' -> (j <> i /\ j ∈ registered b) \/
     (j = i /\ (cphase (f c) = Registered \/ cphase (f c) = Enrolled) /\ closes (f c) = 0%nat)) ->
  (i ∈ to_close b' -> cphase (f c) = Enrolled) ->
  ((open_phase (cphase (f c)) = true -> restoring b' = Some i) /\
   (restoring b' = restoring b \/ forall j d, comps b !! j = Some d -> j <> i -> open_phase (cphase d) = false)) ->
  inv b'.
Proof.
  intros [Hnd Hc He Hco Hre Hkn Hrs] Hi Hcs Hc' He' Hnd' Hto Hfi Hreg Hki [Hri Hro].
  split; try done.
  - intros j d. rewrite Hcs. intros [[-> (y & Hy & ->)]|[Hj Hd]]%alter_lookup_Some; [by simplify_eq|].
    specialize (Hco j d Hd). pose proof (Hto j Hj). destruct (cphase d); naive_solver.
  - intros j Hj. rewrite Hcs. destruct (Hreg j Hj) as [[Hne Hj']|[-> Hx]].
    + destruct (Hre j Hj') as (d & Hd & ?). exists d. split; [|done]. apply alter_lookup_Some. by right.
    + exists (f c). split; [|done]. apply alter_lookup_Some. left. naive_solver.
  - intros j Hj. rewrite Hcs. destruct (decide (j = i)) as [->|Hne].
    + exists (f c). split; [|by apply Hki]. apply alter_lookup_Some. left. naive_solver.
    + destruct (Hkn j) as (d & Hd & ?); [by apply Hto|]. exists d. split; [|done]. apply alter_lookup_Some. by right.
  - intros j d. rewrite Hcs. intros [[-> (y & Hy & ->)]|[Hj Hd]]%alter_lookup_Some Hop.
    { simplify_eq. by apply Hri. }
    destruct Hro as [->|Hno]; [by eapply Hrs|]. by rewrite (Hno j d Hd Hj) in Hop.
Qed.

(** A component whose topology was just built. *)
Lemma attach_inv_restore b :
  inv b -> restoring b = None ->
  inv {| comps := comps b ++ [{| cphase := Restored; closes := 0 |}]; restoring := Some (length (comps b));
         registered := registered b; closers := closers b; closed := closed b; closing := closing b;
         closed_order := closed_order b |}.
Proof.
  intros H Hr. destruct H as [Hnd Hc He Hco Hre Hkn Hrs].
  assert (forall j d, (comps b ++ [{| cphase := Restored; closes := 0 |}]) !! j = Some d ->
    comps b !! j = Some d \/ (j = length (comps b) /\ d = {| cphase := Restored; closes := 0 |})) as Hl.
  { intros j d [?|[Hj Hd]]%lookup_app_Some; [by left|right].
    apply list_lookup_singleton_Some in Hd as [? <-]. split; [lia|done]. }
  split; try done.
  - intros j d [Hd|[-> ->]]%Hl; [by apply Hco|]. simpl. split; [done|]. intros Hin.
    destruct (Hkn _ Hin) as (d & Hd%lookup_lt_Some & _). lia.
  - intros j Hj. destruct (Hre j Hj) as (d & Hd & ?). exists d. split; [by apply lookup_app_l_Some|done].
  - intros j Hj. destruct (Hkn j Hj) as (d & Hd & ?). exists d. split; [by apply lookup_app_l_Some|done].
  - intros j d [Hd|[-> ->]]%Hl Hop; [|done]. by rewrite (Hrs j d Hd Hop) in Hr.
Qed.

(** A component taken over by the bus. *)
Lemma attach_inv_enrol b i c :
  inv b -> comps b !! i = Some c -> cphase c = Registered -> closed b = false ->
  (forall j d, comps b !! j = Some d -> j <> i -> open_phase (cphase d) = false) ->
  inv {| comps := alter (set_phase Enrolled) i (comps b); restoring := None; registered := registered b;
         closers := closers b ++ [i]; closed := closed b; closing := closing b; closed_order := closed_order b |}.
Proof.
  intros H Hi Hph Hcl Honly. pose proof H as [Hnd Hc He Hco Hre Hkn Hrs].
  pose proof (Hco i c Hi) as Hci. rewrite Hph in Hci. destruct Hci as [Hz Hn]. assert (closing b = NotClosing) as Hpc by (apply Hc; congruence).
  unfold to_close in Hn, Hnd. rewrite Hpc in Hn, Hnd.
  eapply (attach_inv_update b _ i c (set_phase Enrolled)); try done; unfold to_close; simpl; rewrite ?Hpc.
  - congruence.
  - rewrite rev_app_distr. simpl. by constructor.
  - intros j Hj. rewrite rev_app_distr. simpl. rewrite elem_of_cons. naive_solver.
  - left. split; [done|]. rewrite rev_app_distr. by left.
  - intros j Hj. destruct (decide (j = i)) as [->|Hne]; [right|by left]. naive_solver.
  - split; [done|]. by right.
Qed.

Lemma attach_inv_step b b' : step b b' -> inv b -> inv b'.
Proof.
  intros Hstep H. pose proof H as [Hnd Hc He Hco Hre Hkn Hrs].
  assert (forall i c, comps b !! i = Some c -> open_phase (cphase c) = true ->
    forall j d, comps b !! j = Some d -> j <> i -> open_phase (cphase d) = false) as Honly.
  { intros i c Hi Hoi j d Hd Hj. destruct (open_phase (cphase d)) eqn:E; [|done].
    pose proof (Hrs i c Hi Hoi). pose proof (Hrs j d Hd E). congruence. }
  destruct Hstep as [b Hr Hcl|b i c Hi Hph|b i c Hi Hph Hcl|b i c Hi Hph Hcl|b Hcl|b i left Hp|b Hp].
  - by apply attach_inv_restore.
  - pose proof (Hco i c Hi) as Hci. rewrite Hph in Hci.
    eapply (attach_inv_update b _ i c (set_phase Registered)); try done; simpl.
    + intros j [Hj|Hj%list_elem_of_singleton]%elem_of_app; [|right; subst; naive_solver].
      destruct (decide (j = i)) as [->|Hne]; [|by left]. destruct (Hre i Hj) as (d & Hd & Hp & _). naive_solver congruence.
    + naive_solver.
    + split; [|by left]. intros _. apply (Hrs i c Hi). by rewrite Hph.
  - apply (attach_inv_enrol b i c); try done. eapply Honly; [done|]. by rewrite Hph.
  - pose proof (Hco i c Hi) as Hci. rewrite Hph in Hci. destruct Hci as [Hz Hn].
    eapply (attach_inv_update b _ i c (set_phase TurnedAway ∘ close_comp)); try done; simpl.
    + by rewrite Hz.
    + intros j [Hj Hne]%elem_of_unreg. by left.
    + split; [done|]. right. eapply Honly; [done|]. by rewrite Hph.
  - assert (closing b = NotClosing) as Hpc by (apply Hc; congruence). unfold to_close in *. rewrite Hpc in *. by split.
  - assert (closed b = true) as Hcl by (apply not_false_iff_true; intros E%Hc; congruence).
    unfold to_close in *. rewrite Hp in *. apply NoDup_cons in Hnd as [Hin Hnd].
    destruct (Hkn i) as (c & Hi & Hph); [by left|]. pose proof (Hco i c Hi) as Hci. rewrite Hph in Hci.
    assert (closes c = 0%nat) as Hz by (destruct Hci as [[? _]|[_ Hx]]; [done|by destruct Hx; left]).
    eapply (attach_inv_update b _ i c close_comp); try done; unfold to_close; simpl; rewrite ?Hp.
    + split; [congruence|done].
    + intros j Hj. rewrite elem_of_cons. naive_solver.
    + rewrite Hph, Hz. by right.
    + intros j [Hj Hne]%elem_of_unreg. by left.
    + split; [by rewrite Hph|by left].
  - assert (closed b = true) as Hcl by (apply not_false_iff_true; intros E%Hc; congruence).
    unfold to_close in *. rewrite Hp in *. split; try done. simpl. split; [congruence|done].
Qed.


End Attach.

(** A component attached and the bus closed. *)
Definition sample_bus : Attach.bus := {|
  Attach.comps := [{| Attach.cphase := Attach.Enrolled; Attach.closes := 1 |}]; Attach.restoring := None;
  Attach.registered := []; Attach.closers := []; Attach.closed := true; Attach.closing := Attach.Closed;
  Attach.closed_order := [0%nat] |}.


(** ** Draining and shutting down *)

(** [InFlight] *)
Definition InFlight (deliveries handlers : Inflight.inflight) : Z :=
  Z.max (Inflight.count deliveries) (Inflight.count handlers).

(** What [Shutdown] does, in order. *)
Inductive shutdown_action :=
| StopService (i : nat)
| StopListener (i : nat)
| DrainDeliveries (r : option err)
| DrainHandlers (r : option err)
| CloseBus.

(** [Drain]: the deliveries first, then the handlers; [d] and [h] are the
    outcomes of the waits. *)
Definition Drain (d h : option err) : list shutdown_action * option err :=
  match d with
  | Some e => ([DrainDeliveries d], Some e)
  | None => ([DrainDeliveries d; DrainHandlers h], h)
  end.

(** [Shutdown]; [cl] is the outcome of closing the connection, which is reported
    before the drain's. *)
Definition Shutdown (services listeners : list nat) (d h cl : option err) : list shutdown_action * option err :=
  let '(acts, r) := Drain d h in
  (map StopService services ++ map StopListener listeners ++ acts ++ [CloseBus],
   match cl with
   | Some e => Some e
   | None => (fun e => EWrap ("protobus: shutdown drain incomplete: " +:+ error_text e) e) <$> r
   end).

(** ** Dialling *)

(** What [Dial] does once its settings are valid, in order: the first connection,
    and the bus's own two components. *)
Inductive dial_action :=
| Connect (r : option err)
| CloseSession
| AttachComponent (which : string) (r : option err)
| CloseDialled.

Fixpoint attach_each (l : list (string * option err)) : list dial_action * option err :=
  match l with
  | [] => ([], None)
  | (which, None) :: l' => let '(acts, r) := attach_each l' in (AttachComponent which None :: acts, r)
  | (which, Some e) :: _ => ([AttachComponent which (Some e); CloseDialled], Some e)
  end.

Definition Dial (connect dispatcher events : option err) : list dial_action * option err :=
  match connect with
  | Some e => ([Connect (Some e); CloseSession], Some e)
  | None => let '(acts, r) := attach_each [("dispatcher", dispatcher); ("events", events)] in (Connect None :: acts, r)
  end.

(** A failed [Dial] returns the first failure and leaves nothing open behind it;
    a successful one has attached both components and closed nothing. *)
Lemma Dial_cleans connect dispatcher events :
  let '(acts, r) := Dial connect dispatcher events in
  match r with
  | Some _ => last acts = Some (match connect with Some _ => CloseSession | None => CloseDialled end) /\
      r = match connect, dispatcher with Some e, _ => Some e | None, Some e => Some e | None, None => events end
  | None => acts = [Connect None; AttachComponent "dispatcher" None; AttachComponent "events" None]
  end.
Proof. by destruct connect, dispatcher, events. Qed.
