(* ===== verification/Pbtypes.v ===== *)
(** * Pbtypes: the built-in custom types (pbtypes/pbtypes.go)

    [bigint], an unsigned 256-bit integer carried as 32 big-endian bytes, and
    [timestamp], an instant carried as int64 milliseconds. A [*big.Int] is
    [option Z] (nil is [None]), a generated message is an [option] of its
    field, and a [time.Time] is its Unix second and nanosecond. *)
From S2P Require Import Prelude GoStrings.

Local Open Scope Z_scope.

(** ** bigint *)

Inductive bigint_error :=
| NilValue
| Negative (v : Z)
| Exceeds (v : Z)
| TooWide (n : Z)
| NotAnInteger (s : string).

Definition BigintBytes : Z := 32.

Definition bigintMax : Z := Z.shiftl 1 (8 * BigintBytes) - 1.

Definition byte_of (z : Z) : byte := default x00 (Byte.of_N (Z.to_N (z mod 256))).

(** [v.FillBytes(buf)]: [n] bytes, the most significant first. *)
Fixpoint FillBytes (n : nat) (v : Z) : bytes :=
  match n with
  | O => []
  | S n' => FillBytes n' (v / 256) ++ [byte_of v]
  end.

(** [new(big.Int).SetBytes(b)] *)
Definition SetBytes (b : bytes) : Z := fold_left (fun acc x => acc * 256 + byteZ x) b 0.

Definition NewBigint (v : option Z) : bytes + bigint_error :=
  match v with
  | None => inr NilValue
  | Some v =>
      if v <? 0 then inr (Negative v)
      else if bigintMax <? v then inr (Exceeds v)
      else inl (FillBytes (Z.to_nat BigintBytes) v)
  end.

(** [MustBigint]; [None] is its panic. *)
Definition MustBigint (v : option Z) : option bytes :=
  match NewBigint v with inl b => Some b | inr _ => None end.

Definition BigintFromUint64 (u : Z) : option bytes := MustBigint (Some u).

(** [x.BigInt()]; [x] is the message, if any, and its field, if set. *)
Definition BigInt (x : option (option bytes)) : Z + bigint_error :=
  let b := default [] (mjoin x) in
  if BigintBytes <? len b then inr (TooWide (len b)) else inl (SetBytes b).

Definition hex_digit (c : Z) : option Z :=
  if is_digit c then Some (c - 48)
  else if (97 <=? c) && (c <=? 102) then Some (c - 87)
  else if (65 <=? c) && (c <=? 70) then Some (c - 55)
  else None.

(** A digit [ParseBigint] lets through. *)
Definition digit_ok (base c : Z) : bool :=
  is_digit c || ((base =? 16) && (((97 <=? c) && (c <=? 102)) || ((65 <=? c) && (c <=? 70)))).

(** [new(big.Int).SetString(digits, base)] on such digits: at least one. *)
Definition SetString (base : Z) (l : list Z) : option Z :=
  match l with
  | [] => None
  | _ => Some (fold_left (fun acc c => acc * base + default 0 (hex_digit c)) l 0)
  end.

Definition ParseBigint (s : string) : bytes + bigint_error :=
  let hex := (2 <? slen s) && (HasPrefix s "0x" || HasPrefix s "0X") in
  let digits := codes (if hex then slice_from s 2 else s) in
  let base := if hex then 16 else 10 in
  if negb (forallb (digit_ok base) digits) then inr (NotAnInteger s)
  else match SetString base digits with
       | None => inr (NotAnInteger s)
       | Some v => NewBigint (Some v)
       end.

(** ** timestamp *)

Record Time := { sec : Z; nsec : Z }.

(** [t.UnixMilli()] *)
Definition UnixMilli (t : Time) : Z := int64_wrap (int64_wrap (sec t * 1000) + nsec t / 1000000).

(** [time.Unix(s, n)] *)
Definition Unix (s n : Z) : Time :=
  if (n <? 0) || (1000000000 <=? n) then
    let q := Z.quot n 1000000000 in
    let s1 := s + q in
    let n1 := n - q * 1000000000 in
    if n1 <? 0 then {| sec := s1 - 1; nsec := n1 + 1000000000 |} else {| sec := s1; nsec := n1 |}
  else {| sec := s; nsec := n |}.

(** [time.UnixMilli(ms)] *)
Definition of_UnixMilli (ms : Z) : Time := Unix (Z.quot ms 1000) (Z.rem ms 1000 * 1000000).

Definition NewTimestamp (t : Time) : option (option Z) := Some (Some (UnixMilli t)).

Definition AsTime (x : option (option Z)) : Time := of_UnixMilli (default 0 (mjoin x)).

(** ** Lemmas *)

Lemma byteZ_byte_of z : byteZ (byte_of z) = z mod 256.
Proof.
  pose proof (Z.mod_pos_bound z 256 eq_refl) as Hz. unfold byteZ, byte_of.
  destruct (Byte.of_N (Z.to_N (z mod 256))) as [b|] eqn:E; simpl.
  - apply Byte.to_of_N in E. rewrite E. lia.
  - apply Byte.of_N_None_iff in E. lia.
Qed.

Lemma byteZ_range b : 0 <= byteZ b < 256.
Proof. unfold byteZ. pose proof (Byte.to_N_bounded b). lia. Qed.

Lemma SetBytes_app b x : SetBytes (b ++ [x]) = SetBytes b * 256 + byteZ x.
Proof. unfold SetBytes. by rewrite fold_left_app. Qed.

Lemma SetBytes_range b : 0 <= SetBytes b < 256 ^ len b.
Proof.
  induction b as [|x b IH] using rev_ind; [by vm_compute|].
  rewrite SetBytes_app, len_app. pose proof (byteZ_range x). change (len [x]) with 1.
  rewrite Z.pow_add_r by (pose proof (len_nonneg b); lia). lia.
Qed.

Lemma length_FillBytes n v : length (FillBytes n v) = n.
Proof. revert v. induction n as [|n IH]; intros v; [done|]. simpl. rewrite length_app, IH. simpl. lia. Qed.

Lemma SetBytes_FillBytes n v : 0 <= v < 256 ^ Z.of_nat n -> SetBytes (FillBytes n v) = v.
Proof.
  revert v. induction n as [|n IH]; intros v Hv; [simpl in *; vm_compute; lia|].
  cbn [FillBytes]. rewrite SetBytes_app, byteZ_byte_of, IH.
  - pose proof (Z.div_mod v 256). lia.
  - rewrite Nat2Z.inj_succ, Z.pow_succ_r in Hv by lia.
    split; [apply Z.div_pos; lia|]. apply Z.div_lt_upper_bound; lia.
Qed.

Lemma byte_of_byteZ b : byte_of (byteZ b) = b.
Proof.
  unfold byte_of. rewrite Z.mod_small by apply byteZ_range. unfold byteZ. rewrite N2Z.id, Byte.of_to_N. done.
Qed.

Lemma FillBytes_app n v x : FillBytes (S n) (v * 256 + byteZ x) = FillBytes n v ++ [x].
Proof.
  cbn [FillBytes]. pose proof (byteZ_range x). f_equal.
  - f_equal. rewrite Z.add_comm, Z.div_add by lia. rewrite Z.div_small by lia. lia.
  - f_equal. rewrite <-(byte_of_byteZ x) at 2. unfold byte_of.
    by rewrite Z.add_comm, Z.mod_add by lia.
Qed.

(** Widening a wire value only adds leading zeros. *)
Lemma FillBytes_SetBytes k b : FillBytes (k + length b) (SetBytes b) = replicate k x00 ++ b.
Proof.
  induction b as [|x b IH] using rev_ind.
  - rewrite app_nil_r, Nat.add_0_r. induction k as [|k IH]; [done|].
    cbn [FillBytes]. change (SetBytes [] / 256) with (SetBytes []). rewrite IH.
    by rewrite <-replicate_cons_app.
  - rewrite SetBytes_app, length_app. simpl. rewrite Nat.add_1_r, Nat.add_succ_r, FillBytes_app, IH.
    by rewrite app_assoc.
Qed.

Lemma bigintMax_pow : bigintMax + 1 = 256 ^ Z.of_nat (Z.to_nat BigintBytes).
Proof. by vm_compute. Qed.

Lemma NewBigint_ok v : 0 <= v <= bigintMax -> NewBigint (Some v) = inl (FillBytes (Z.to_nat BigintBytes) v).
Proof.
  intros Hv. unfold NewBigint. destruct (Z.ltb_spec v 0); [lia|]. by destruct (Z.ltb_spec bigintMax v); [lia|].
Qed.

Lemma BigInt_ok b : len b <= 32 -> BigInt (Some (Some b)) = inl (SetBytes b).
Proof.
  intros Hb. unfold BigInt. cbn [mjoin option_join default from_option id].
  destruct (Z.ltb_spec BigintBytes (len b)) as [Hx|_]; [unfold BigintBytes in Hx; lia|done].
Qed.

(** Bigint values survive the wire. [NewBigint] accepts exactly the
    integers from 0 to 2^256-1 and writes 32 bytes that [BigInt] reads back;
    [BigInt] accepts exactly the wire values of at most 32 bytes, and re-encoding
    what it read gives the same value left-padded with zeros. *)
Lemma bigint_roundtrip (v : Z) (b : bytes) :
  (is_Some (MustBigint (Some v)) <-> 0 <= v < 2 ^ 256) /\
  (forall w, NewBigint (Some v) = inl w -> len w = 32 /\ BigInt (Some (Some w)) = inl v) /\
  (len b <= 32 -> exists u, BigInt (Some (Some b)) = inl u /\
     NewBigint (Some u) = inl (replicate (32 - length b) x00 ++ b)) /\
  (32 < len b -> BigInt (Some (Some b)) = inr (TooWide (len b))).
Proof.
  assert (bigintMax = 2 ^ 256 - 1) as Hmax by done. split_and!.
  - unfold MustBigint, NewBigint. destruct (Z.ltb_spec v 0); [|destruct (Z.ltb_spec bigintMax v)].
    + split; [intros [? ?]; done|lia].
    + split; [intros [? ?]; done|lia].
    + split; [lia|eauto].
  - intros w Hw. unfold NewBigint in Hw.
    destruct (Z.ltb_spec v 0); [done|]. destruct (Z.ltb_spec bigintMax v); [done|].
    assert (w = FillBytes (Z.to_nat BigintBytes) v) as -> by congruence.
    assert (len (FillBytes (Z.to_nat BigintBytes) v) = 32) as Hl by (unfold len; by rewrite length_FillBytes).
    split; [done|]. rewrite BigInt_ok by (rewrite Hl; done). f_equal.
    apply SetBytes_FillBytes. pose proof bigintMax_pow. lia.
  - intros Hb. exists (SetBytes b). split; [by apply BigInt_ok|].
    pose proof (SetBytes_range b) as [Hp Hlt].
    assert (256 ^ len b <= 256 ^ 32) as Hle by (apply Z.pow_le_mono_r; lia).
    rewrite NewBigint_ok by (change (256 ^ 32) with (2 ^ 256) in Hle; lia). f_equal.
    rewrite <-FillBytes_SetBytes. f_equal. unfold len in Hb. change (Z.to_nat BigintBytes) with 32%nat. lia.
  - intros Hb. unfold BigInt. cbn [mjoin option_join default from_option id].
    destruct (Z.ltb_spec BigintBytes (len b)) as [_|Hx]; [done|unfold BigintBytes in Hx; lia].
Qed.

Lemma bigint_roundtrip_witness : exists u, BigInt (Some (Some [x01; x00])) = inl u /\ u = 256.
Proof.
  destruct (bigint_roundtrip 256 [x01; x00]) as (_ & _ & H & _).
  destruct H as (u & Hu & _); [vm_compute; discriminate|]. exists u. split; [exact Hu|].
  vm_compute in Hu. by injection Hu as <-.
Defined.

(** A timestamp comes back truncated to the millisecond, for every instant
    whose milliseconds fit in an int64. *)
Lemma timestamp_roundtrip t :
  0 <= nsec t < 1000000000 -> is_int64 (sec t * 1000) -> is_int64 (sec t * 1000 + nsec t / 1000000) ->
  AsTime (NewTimestamp t) = {| sec := sec t; nsec := nsec t / 1000000 * 1000000 |}.
Proof.
  destruct t as [s n]. simpl. unfold is_int64. intros Hn Hs Hsum.
  unfold AsTime, NewTimestamp. cbn [mjoin option_join default from_option id]. unfold UnixMilli. simpl.
  rewrite (int64_wrap_small (s * 1000)) by done. rewrite int64_wrap_small by done.
  pose proof (Z.div_mod n 1000000 ltac:(lia)) as Hd. pose proof (Z.mod_pos_bound n 1000000 eq_refl) as Hm.
  set (q := n / 1000000) in *. assert (0 <= q < 1000) as Hq by lia. clear Hd Hm Hs Hsum.
  unfold of_UnixMilli. destruct (Z.le_gt_cases 0 s) as [Hp|Hneg].
  - rewrite (Z.quot_div_nonneg (s * 1000 + q)), (Z.rem_mod_nonneg (s * 1000 + q)) by lia.
    rewrite Z.add_comm, Z.div_add, Z.mod_add by lia. rewrite Z.div_small, Z.mod_small by lia.
    unfold Unix. destruct (Z.ltb_spec (q * 1000000) 0); [lia|].
    destruct (Z.leb_spec 1000000000 (q * 1000000)); [lia|]. done.
  - destruct (decide (q = 0)) as [->|Hq0].
    + rewrite Z.add_0_r, Z.quot_mul, Z.rem_mul by lia. done.
    + assert (Z.quot (s * 1000 + q) 1000 = s + 1) as Hquot.
      { transitivity (- Z.quot (- (s * 1000 + q)) 1000); [rewrite Z.quot_opp_l; lia|].
        rewrite Z.quot_div_nonneg by lia.
        rewrite <-(Z.div_unique (- (s * 1000 + q)) 1000 (- s - 1) (1000 - q)); lia. }
      assert (Z.rem (s * 1000 + q) 1000 = q - 1000) as Hrem by (pose proof (Z.quot_rem' (s * 1000 + q) 1000); lia).
      rewrite Hquot, Hrem. unfold Unix.
      destruct (Z.ltb_spec ((q - 1000) * 1000000) 0); [|lia]. cbn [orb].
      assert (Z.quot ((q - 1000) * 1000000) 1000000000 = 0) as -> by (apply Z.quot_small_iff; lia).
      rewrite Z.mul_0_l, Z.sub_0_r, Z.add_0_r.
      destruct (Z.ltb_spec ((q - 1000) * 1000000) 0); [|lia]. f_equal; lia.
Qed.
