(* ===== verification/CustomTypes.v ===== *)
(** * CustomTypes: the check of built-in types in messages (customtypes.go)

    Every message is searched for bigint values wider than 32 bytes, before it
    is sent and after it is decoded. Message types without a bigint are skipped:
    [reachesBigintWalk] searches the graph of message descriptors, which may be
    cyclic, and [reachesBigint] caches its answers.

    A schema maps a message type to its fields, as protobuf's reflection gives
    them. A message is its type, the bytes of field 1 (read only for a bigint)
    and its populated fields, in the order [Range] visits them. *)
From S2P Require Import Prelude GoStrings Errors Pbtypes.

Local Open Scope Z_scope.

(** ** Descriptors *)

Inductive card := Singular | List_ | Map_.

#[export] Instance card_eq_dec : EqDecision card.
Proof. solve_decision. Defined.

(** A field: its cardinality and the message type of its values (of the map's
    values for a map), if they are messages. *)
Record fieldDesc := { fcard : card; fmessage : option string }.

Abbreviation schema := (gmap string (list fieldDesc)).

Definition Fields (sch : schema) (md : string) : list fieldDesc := default [] (sch !! md).

Definition bigintName : string := "bigint".

(** The loop over a descriptor's fields; [walk] is the recursive call. *)
Definition walk_fields (walk : string -> gset string -> option (bool * gset string)) :
    list fieldDesc -> gset string -> option (bool * gset string) :=
  fix loop fs visiting :=
    match fs with
    | [] => Some (false, visiting)
    | fd :: fs' =>
        match fmessage fd with
        | None => loop fs' visiting
        | Some m =>
            match walk m visiting with
            | None => None
            | Some (true, v) => Some (true, v)
            | Some (false, v) => loop fs' v
            end
        end
    end.

(** [reachesBigintWalk]: the answer and the types visited. The walk enters each
    type of the schema once, so one more than their number is enough fuel;
    [None] is a walk that ran out of it. *)
Fixpoint reachesBigintWalk (fuel : nat) (sch : schema) (md : string) (visiting : gset string)
    : option (bool * gset string) :=
  match fuel with
  | O => None
  | S fuel' =>
      if decide (md = bigintName) then Some (true, visiting)
      else if decide (md ∈ visiting) then Some (false, visiting)
      else walk_fields (reachesBigintWalk fuel' sch) (Fields sch md) ({[md]} ∪ visiting)
  end.

Definition types_fuel (sch : schema) : nat := S (size sch).

(** [reachesBigint]: the cache of earlier answers is threaded. *)
Definition reachesBigint (sch : schema) (md : string) (hasBigint : gmap string bool) : bool * gmap string bool :=
  match hasBigint !! md with
  | Some v => (v, hasBigint)
  | None =>
      let found := match reachesBigintWalk (types_fuel sch) sch md ∅ with Some (b, _) => b | None => false end in
      (found, <[md := found]> hasBigint)
  end.

(** ** Messages *)

Inductive message :=
| Message (type : string) (value : bytes) (fields : list fieldValue)
with fieldValue :=
| FieldValue (fd : fieldDesc) (values : list message).

Definition msg_type (m : message) : string := let '(Message t _ _) := m in t.

Definition msg_values (fv : fieldValue) : list message := let '(FieldValue _ vs) := fv in vs.

(** What a check answers: an error, if any, and the cache it filled. *)
Definition checked : Type := option bigint_error * gmap string bool.

(** The values of one field, until one is refused. *)
Definition check_values (check : message -> gmap string bool -> checked) :
    list message -> gmap string bool -> checked :=
  fix each vs cache :=
    match vs with
    | [] => (None, cache)
    | x :: vs' =>
        match check x cache with
        | (Some e, c) => (Some e, c)
        | (None, c) => each vs' c
        end
    end.

(** [r.Range]: the fields, until one is refused. *)
Definition check_range (sch : schema) (check : message -> gmap string bool -> checked) :
    list fieldValue -> gmap string bool -> checked :=
  fix range fs cache :=
    match fs with
    | [] => (None, cache)
    | FieldValue fd vs :: fs' =>
        match fmessage fd with
        | None => range fs' cache
        | Some m =>
            let '(reaches, cache) := reachesBigint sch m cache in
            if negb reaches then range fs' cache
            else match check_values check vs cache with
                 | (Some e, c) => (Some e, c)
                 | (None, c) => range fs' c
                 end
        end
    end.

Fixpoint checkMessage (sch : schema) (r : message) (cache : gmap string bool) : checked :=
  let '(Message t v fs) := r in
  if decide (t = bigintName) then
    ((if BigintBytes <? len v then Some (TooWide (len v)) else None), cache)
  else check_range sch (checkMessage sch) fs cache.

Definition checkCustomTypes (sch : schema) (m : message) (cache : gmap string bool)
    : checked :=
  let '(reaches, cache) := reachesBigint sch (msg_type m) cache in
  if reaches then checkMessage sch m cache else (None, cache).

Section Codec.
(** [proto.Marshal] and [proto.Unmarshal] of the protobuf library. *)
Variable proto_Marshal : message -> bytes + err.
Variable proto_Unmarshal : bytes -> message + err.

Definition unmarshal (sch : schema) (b : bytes) (cache : gmap string bool)
    : (message + (err + bigint_error)) * gmap string bool :=
  match proto_Unmarshal b with
  | inr e => (inr (inl e), cache)
  | inl m =>
      match checkCustomTypes sch m cache with
      | (Some e, c) => (inr (inr e), c)
      | (None, c) => (inl m, c)
      end
  end.

Definition marshal (sch : schema) (m : message) (cache : gmap string bool)
    : (bytes + (err + bigint_error)) * gmap string bool :=
  match checkCustomTypes sch m cache with
  | (Some e, c) => (inr (inr e), c)
  | (None, c) => (match proto_Marshal m with inl b => inl b | inr e => inr (inl e) end, c)
  end.
End Codec.

(** ** What the check must find *)

(** [m] is the type of a field of [n]. *)
Definition succ (sch : schema) (n m : string) : Prop :=
  exists fd, fd ∈ Fields sch n /\ fmessage fd = Some m.

Definition reaches (sch : schema) (n : string) : Prop := rtc (succ sch) n bigintName.

(** Every bigint value of a message, at any depth. *)
Fixpoint bigints (r : message) : list bytes :=
  let '(Message t v fs) := r in
  if decide (t = bigintName) then [v]
  else concat (map (fun fv => concat (map bigints (msg_values fv))) fs).

(** The message has the fields its schema declares, with values of the declared
    types: what the reflection API guarantees. *)
Fixpoint typed (sch : schema) (r : message) : Prop :=
  let '(Message t v fs) := r in
  (fix all_fields (fs : list fieldValue) : Prop :=
     match fs with
     | [] => True
     | FieldValue fd vs :: fs' =>
         fd ∈ Fields sch t /\
         (fix all (vs : list message) : Prop :=
            match vs with
            | [] => True
            | x :: vs' => fmessage fd = Some (msg_type x) /\ typed sch x /\ all vs'
            end) vs /\
         all_fields fs'
     end) fs.

Lemma typed_inv sch t v fs :
  typed sch (Message t v fs) ->
  Forall (fun fv => let '(FieldValue fd vs) := fv in
    fd ∈ Fields sch t /\ Forall (fun x => fmessage fd = Some (msg_type x) /\ typed sch x) vs) fs.
Proof.
  simpl. induction fs as [|[fd vs] fs IH]; [by constructor|]. intros (Hfd & Hvs & Hfs).
  constructor; [|by apply IH]. split; [done|]. clear -Hvs.
  induction vs as [|x vs IH]; constructor; [naive_solver|]. apply IH. naive_solver.
Qed.

Section MessageInd.
Context (Q : message -> Prop).
Context (HQ : forall t v fs, Forall (fun fv => Forall Q (msg_values fv)) fs -> Q (Message t v fs)).

Fixpoint message_tree_ind (m : message) : Q m :=
  let '(Message t v fs) := m in
  HQ t v fs
    ((fix all_fields (fs : list fieldValue) : Forall (fun fv => Forall Q (msg_values fv)) fs :=
        match fs with
        | [] => Forall_nil_2 _
        | FieldValue fd vs :: fs' =>
            Forall_cons_2 _ (FieldValue fd vs) _
              ((fix all (vs : list message) : Forall Q vs :=
                  match vs with
                  | [] => Forall_nil_2 _
                  | x :: vs' => Forall_cons_2 _ _ _ (message_tree_ind x) (all vs')
                  end) vs)
              (all_fields fs')
        end) fs).
End MessageInd.

(** ** The walk *)

(** Everything visited since [old] is settled: not a bigint, and all its
    successors visited. *)
Definition settled (sch : schema) (old new : gset string) : Prop :=
  forall x, x ∈ new -> x ∉ old -> x <> bigintName /\ forall m, succ sch x m -> m ∈ new.

Lemma walk_fields_spec sch fuel walk fs vis :
  (forall m v, (size (dom sch ∖ v) < fuel)%nat -> exists b v', walk m v = Some (b, v') /\ v ⊆ v' /\
     if b : bool then reaches sch m else m ∈ v' /\ settled sch v v') ->
  (size (dom sch ∖ vis) < fuel)%nat ->
  exists b vis', walk_fields walk fs vis = Some (b, vis') /\ vis ⊆ vis' /\
    if b : bool then exists fd m, fd ∈ fs /\ fmessage fd = Some m /\ reaches sch m
    else (forall fd m, fd ∈ fs -> fmessage fd = Some m -> m ∈ vis') /\ settled sch vis vis'.
Proof.
  intros Hw. revert vis. induction fs as [|fd fs IH]; intros vis Hf; simpl.
  { exists false, vis. split_and!; [done|done| |by intros x ? ?]. intros fd m Hin. by apply elem_of_nil in Hin. }
  destruct (fmessage fd) as [m|] eqn:Em.
  - destruct (Hw m vis Hf) as ([|] & v & -> & Hsub & Hb).
    { exists true, v. split_and!; [done|done|]. exists fd, m. split_and!; [by left|done|done]. }
    destruct Hb as [Hm Hset].
    assert (size (dom sch ∖ v) < fuel)%nat as Hf'.
    { eapply Nat.le_lt_trans; [|exact Hf]. apply subseteq_size. set_solver. }
    destruct (IH v Hf') as (b & v' & -> & Hsub' & Hb). exists b, v'. split_and!; [done|set_solver|].
    destruct b; [destruct Hb as (fd' & m' & ? & ?); exists fd', m'; split; [by right|done]|].
    destruct Hb as [Hall Hset']. split.
    + intros fd' m' [->|Hin]%elem_of_cons Hm'; [|by eapply Hall]. simplify_eq. by apply Hsub'.
    + intros x Hx Hn. destruct (decide (x ∈ v)) as [Hv|Hv]; [|by apply Hset'].
      destruct (Hset x Hv Hn) as [? Hs]. split; [done|].
      intros k Hk. by apply Hsub', Hs.
  - destruct (IH vis Hf) as (b & v' & -> & Hsub' & Hb). exists b, v'. split_and!; [done|done|].
    destruct b; [destruct Hb as (fd' & m' & ? & ?); exists fd', m'; split; [by right|done]|].
    destruct Hb as [Hall Hset']. split; [|done].
    intros fd' m' [->|Hin]%elem_of_cons Hm'; [congruence|by eapply Hall].
Qed.

Lemma walk_spec sch fuel md vis :
  (size (dom sch ∖ vis) < fuel)%nat ->
  exists b vis', reachesBigintWalk fuel sch md vis = Some (b, vis') /\ vis ⊆ vis' /\
    if b : bool then reaches sch md else md ∈ vis' /\ settled sch vis vis'.
Proof.
  revert md vis. induction fuel as [|fuel IH]; intros md vis Hf; [lia|]. simpl.
  destruct (decide (md = bigintName)) as [->|Hne]; [exists true, vis; split_and!; [done|done|apply rtc_refl]|].
  destruct (decide (md ∈ vis)) as [Hin|Hin]; [exists false, vis; split_and!; [done|done|done|by intros x ? ?]|].
  assert (forall fs : list fieldDesc, fs = Fields sch md -> exists b vis',
    walk_fields (reachesBigintWalk fuel sch) fs ({[md]} ∪ vis) = Some (b, vis') /\ {[md]} ∪ vis ⊆ vis' /\
    if b : bool then exists fd m, fd ∈ fs /\ fmessage fd = Some m /\ reaches sch m
    else (forall fd m, fd ∈ fs -> fmessage fd = Some m -> m ∈ vis') /\ settled sch ({[md]} ∪ vis) vis') as Hfs.
  { intros [|fd fs] Hfs.
    - exists false, ({[md]} ∪ vis). split_and!; [done|done| |by intros x ? ?]. intros fd m Hx. by apply elem_of_nil in Hx.
    - apply walk_fields_spec with fuel; [intros; by apply IH|]. assert (md ∈ dom sch) as Hd.
      { unfold Fields in Hfs. destruct (sch !! md) eqn:E; [by eapply elem_of_dom_2|done]. }
      enough (size (dom sch ∖ ({[md]} ∪ vis)) < size (dom sch ∖ vis))%nat by lia.
      apply subset_size. split; [set_solver|]. intros Hx. assert (md ∈ dom sch ∖ vis) as Hy by set_solver.
      specialize (Hx md Hy). set_solver. }
  destruct (Hfs _ eq_refl) as (b & vis' & Hw & Hsub & Hb). exists b, vis'. split; [exact Hw|]. split; [set_solver|].
  destruct b.
  - destruct Hb as (fd & m & Hfd & Hm & Hr). eapply rtc_l; [by exists fd|done].
  - destruct Hb as [Hall Hset]. split; [set_solver|]. intros x Hx Hn.
    destruct (decide (x = md)) as [->|Hxm]; [|apply Hset; set_solver].
    split; [done|]. intros m (fd & Hfd & Hm). by eapply Hall.
Qed.

(** The search decides reachability, also in a cyclic schema, and its fuel is
    enough. *)
Lemma reachesBigintWalk_correct sch md :
  exists b vis, reachesBigintWalk (types_fuel sch) sch md ∅ = Some (b, vis) /\ (b = true <-> reaches sch md).
Proof.
  destruct (walk_spec sch (types_fuel sch) md ∅) as (b & vis & Hw & _ & Hb).
  { unfold types_fuel. rewrite <-size_dom. apply Nat.lt_succ_r, subseteq_size. set_solver. }
  exists b, vis. split; [done|]. destruct b; [done|]. split; [done|]. intros Hr. destruct Hb as [Hin Hset].
  assert (forall x y, rtc (succ sch) x y -> x ∈ vis -> y ∈ vis) as Hclosed.
  { intros x y Hxy. induction Hxy as [|x z y Hxz _ IH]; [done|]. intros Hx. apply IH.
    destruct (Hset x Hx) as [_ Hs]; [set_solver|]. by apply Hs. }
  destruct (Hset bigintName) as [Hx _]; [by eapply Hclosed|set_solver|done].
Qed.

Definition cache_ok (sch : schema) (c : gmap string bool) : Prop :=
  forall n b, c !! n = Some b -> (b = true <-> reaches sch n).

Lemma reachesBigint_correct sch md c b c' :
  cache_ok sch c -> reachesBigint sch md c = (b, c') -> (b = true <-> reaches sch md) /\ cache_ok sch c'.
Proof.
  intros Hc. unfold reachesBigint. destruct (c !! md) as [v|] eqn:E; [intros [= <- <-]; auto|].
  destruct (reachesBigintWalk_correct sch md) as (x & vis & -> & Hx). intros [= <- <-]. split; [done|].
  intros n y. destruct (decide (n = md)) as [->|Hn].
  - rewrite lookup_insert_eq. by intros [= <-].
  - rewrite lookup_insert_ne by done. apply Hc.
Qed.

(** ** The check *)

(** A message whose type cannot hold a bigint holds none. *)
Lemma unreachable_none sch m : typed sch m -> ~ reaches sch (msg_type m) -> bigints m = [].
Proof.
  induction m as [t v fs IH] using message_tree_ind. intros Ht Hn. apply typed_inv in Ht. cbn [msg_type bigints] in *.
  destruct (decide (t = bigintName)) as [->|_]; [destruct Hn; apply rtc_refl|].
  induction fs as [|[fd vs] fs IHfs]; [done|].
  apply Forall_cons in IH as [IHv IH]. apply Forall_cons in Ht as [[Hfd Hvs] Ht]. cbn [map concat msg_values] in *.
  rewrite IHfs, app_nil_r by done. clear IHfs IH Ht.
  induction vs as [|x vs IHvs]; [done|]. apply Forall_cons in IHv as [Hx IHv]. apply Forall_cons in Hvs as [[Hm Hty] Hvs].
  cbn [map concat]. rewrite IHvs, app_nil_r by done. apply Hx; [done|]. intros Hr. apply Hn.
  eapply rtc_l; [by exists fd|done].
Qed.

(** What an outcome of a check says of the bigint values [bs]. *)
Definition verdict (e : option bigint_error) (bs : list bytes) : Prop :=
  match e with
  | None => Forall (fun b => len b <= BigintBytes) bs
  | Some e => exists b, b ∈ bs /\ BigintBytes < len b /\ e = TooWide (len b)
  end.

Lemma verdict_app_Some e bs ks : verdict (Some e) bs \/ verdict (Some e) ks -> verdict (Some e) (bs ++ ks).
Proof. intros [(b & Hb & H)|(b & Hb & H)]; exists b; split; [apply elem_of_app; auto|done|apply elem_of_app; auto|done]. Qed.

Lemma verdict_app_None bs ks : verdict None bs -> verdict None ks -> verdict None (bs ++ ks).
Proof. apply Forall_app_2. Qed.

Section Check.
Context (sch : schema).

(** The check of one value is right. *)
Definition check_ok (m : message) : Prop :=
  forall c e c', typed sch m -> cache_ok sch c -> checkMessage sch m c = (e, c') ->
    cache_ok sch c' /\ verdict e (bigints m).

Lemma check_values_ok vs c e c' :
  Forall check_ok vs -> Forall (typed sch) vs -> cache_ok sch c -> check_values (checkMessage sch) vs c = (e, c') ->
  cache_ok sch c' /\ verdict e (concat (map bigints vs)).
Proof.
  intros Hok. revert c. induction Hok as [|x vs Hx _ IH]; intros c Ht Hc; simpl; [intros [= <- <-]; split; [done|constructor]|].
  apply Forall_cons in Ht as [Htx Ht]. destruct (checkMessage sch x c) as [[e1|] c1] eqn:E1.
  - intros [= <- <-]. destruct (Hx c _ _ Htx Hc E1) as [? ?]. split; [done|]. apply verdict_app_Some. by left.
  - intros H. destruct (Hx c _ _ Htx Hc E1) as [Hc1 Hv1]. destruct (IH c1 Ht Hc1 H) as [? Hv]. split; [done|].
    destruct e; [apply verdict_app_Some; by right|by apply verdict_app_None].
Qed.

Lemma checkMessage_ok m : check_ok m.
Proof.
  induction m as [t v fs IH] using message_tree_ind. intros c e c' Ht Hc. apply typed_inv in Ht.
  cbn [checkMessage bigints]. destruct (decide (t = bigintName)) as [->|Hne].
  { intros [= <- <-]. split; [done|]. destruct (Z.ltb_spec BigintBytes (len v)).
    - exists v. split_and!; [by left|done|done].
    - constructor; [done|constructor]. }
  revert c Hc. induction fs as [|[fd vs] fs IHfs]; intros c Hc; simpl; [intros [= <- <-]; split; [done|constructor]|].
  apply Forall_cons in IH as [IHv IH]. apply Forall_cons in Ht as [[Hfd Hvs] Ht]. simpl in IHv.
  specialize (IHfs IH Ht).
  assert (forall c1, cache_ok sch c1 -> concat (map bigints vs) = [] -> check_range sch (checkMessage sch) fs c1 = (e, c') ->
    cache_ok sch c' /\ verdict e (concat (map bigints vs)
      ++ concat (map (fun fv => concat (map bigints (msg_values fv))) fs))) as Hskip.
  { intros c1 Hc1 -> H. by apply IHfs in H. }
  destruct (fmessage fd) as [m|] eqn:Em.
  2: { apply Hskip; [done|]. destruct vs as [|x vs]; [done|]. apply Forall_cons in Hvs as [[? _] _]. done. }
  destruct (reachesBigint sch m c) as [b c1] eqn:Er. apply reachesBigint_correct in Er as [Hb Hc1]; [|done].
  destruct b; cbn [negb].
  - destruct (check_values (checkMessage sch) vs c1) as [[e1|] c2] eqn:Ev;
      apply check_values_ok in Ev as [Hc2 Hv2]; try done; try (eapply Forall_impl; [exact Hvs|]; naive_solver).
    + intros [= <- <-]. split; [done|]. apply verdict_app_Some. by left.
    + intros H. destruct (IHfs c2 Hc2 H) as [? Hv]. split; [done|].
      destruct e; [apply verdict_app_Some; by right|by apply verdict_app_None].
  - apply Hskip; [done|]. assert (~ reaches sch m) as Hn by (intros Hr; apply Hb in Hr; done). clear -Hvs Hn.
    induction Hvs as [|x vs [Hm Hty] _ IH]; [done|]. simpl. rewrite IH, app_nil_r. apply unreachable_none with sch; [done|].
    by simplify_eq.
Qed.

Lemma checkCustomTypes_ok m c e c' :
  typed sch m -> cache_ok sch c -> checkCustomTypes sch m c = (e, c') -> cache_ok sch c' /\ verdict e (bigints m).
Proof.
  intros Ht Hc. unfold checkCustomTypes. destruct (reachesBigint sch (msg_type m) c) as [b c1] eqn:Er.
  apply reachesBigint_correct in Er as [Hb Hc1]; [|done]. destruct b; [by apply checkMessage_ok|].
  intros [= <- <-]. split; [done|]. rewrite (unreachable_none sch m Ht); [constructor|].
  intros Hr. apply Hb in Hr. done.
Qed.
End Check.


(** A cyclic schema, and a message with a bigint two levels down. *)
Definition sample_schema : schema :=
  {["A" := [{| fcard := Map_; fmessage := Some "B" |}; {| fcard := Singular; fmessage := None |}];
    "B" := [{| fcard := Singular; fmessage := Some "A" |}; {| fcard := List_; fmessage := Some "bigint" |}]]}.

Definition sample_message (w : bytes) : message :=
  Message "A" [] [FieldValue {| fcard := Map_; fmessage := Some "B" |}
    [Message "B" [] [FieldValue {| fcard := List_; fmessage := Some "bigint" |} [Message "bigint" w []]]]].

