(* ===== verification/Broker.v ===== *)
(** * Broker: the in-memory broker (internal/fakebroker)

    The broker the tests run against, written to RabbitMQ's semantics: exchanges,
    queues, bindings and their declaration rules, routing, message TTL and
    dead-lettering, delivery under prefetch, settlement, and channel and
    connection loss. Pointers are numbers: queues, messages, consumers, channels
    and connections live in tables of the broker. Every operation runs under the
    broker's lock and is one function on its state. Of the notifications an
    operation posts, the returns and confirms a channel's pump emits are here, in
    order ([chevents]); who sends to the listeners and closes them is
    [Listeners]'s. The log of operations tests read is not modelled. *)
From S2P Require Import Prelude GoStrings Topic Headers.
From Stdlib Require Import SpecFloat.

Local Open Scope Z_scope.

(** ** State *)

Record binding := { bqueue : string; bkey : string }.

#[export] Instance binding_eq_dec : EqDecision binding.
Proof. solve_decision. Defined.

#[export] Instance spec_float_eq_dec : EqDecision spec_float.
Proof. solve_decision. Defined.

#[export] Instance hval_eq_dec : EqDecision hval.
Proof. solve_decision. Defined.

Record exchange := {
  ekind : string; edurable : bool; eautoDelete : bool; eintern : bool; ebindings : list binding
}.

Record message := {
  mptr : nat; mpub : Publishing; mexchange : string; mkey : string; mredelivered : bool;
  (* a TTL timer is running *)
  mtimer : bool
}.

Record queue := {
  qname : string; qdurable : bool; qautoDelete : bool; qexclusv : bool;
  qowner : option nat;
  qargs : Table; qttl : Z; qdlx : option string; qdlxKey : option string; qmaxPriority : Z;
  qmsgs : list message; qconsumers : list nat; qrr : nat; qhadConsumer : bool; qdeleted : bool
}.

Record inflight := { ifmsg : message; ifq : nat; ifcons : nat }.

Record consumer := {
  ctag : string; cch : nat; cq : nat; cautoAck : bool; cexclusive : bool; cprefetch : Z; cunacked : Z;
  (* the deliveries handed to it, in order *)
  cout : list Delivery
}.

Inductive event := EReturn (exchange key messageID : string) | EConfirm (tag : Z) (ack : bool).

Record channel := {
  chconn : nat; chid : Z; chclosed : bool; chconfirm : bool; chpublishSeq : Z; chprefetch : Z; chnextTag : nat;
  chconsumers : gmap string nat; chunacked : gmap nat inflight; chctagSeq : Z; chevents : list event
}.

Record Broker := {
  exchanges : gmap string exchange;
  queues : gmap string nat;
  qheap : gmap nat queue;
  channels : gmap nat channel;
  consumers : gmap nat consumer;
  (* the open connections, each with the number of channels it opened *)
  conns : gmap nat Z;
  nameSeq : Z;
  (* the next pointer to be allocated *)
  next_ptr : nat
}.

(** [New] *)
Definition New : Broker := {|
  exchanges := {["" := {| ekind := "direct"; edurable := true; eautoDelete := false; eintern := false; ebindings := [] |}]};
  queues := ∅; qheap := ∅; channels := ∅; consumers := ∅; conns := ∅; nameSeq := 0; next_ptr := 0 |}.

(** Errors: [amqp.ErrClosed], or a channel exception. *)
Inductive amqp_error := AErrClosed | AChannel (code : Z) (reason : string).

Definition PreconditionFailed : Z := 406.
Definition NotFound : Z := 404.
Definition ResourceLocked : Z := 405.
Definition AccessRefused : Z := 403.
Definition NotAllowed : Z := 530.
Definition CommandInvalid : Z := 503.

(** *** Updates *)

Definition set_exchanges (m : gmap string exchange) (b : Broker) : Broker := {|
  exchanges := m; queues := queues b; qheap := qheap b; channels := channels b; consumers := consumers b;
  conns := conns b; nameSeq := nameSeq b; next_ptr := next_ptr b |}.
Definition set_queues (m : gmap string nat) (b : Broker) : Broker := {|
  exchanges := exchanges b; queues := m; qheap := qheap b; channels := channels b; consumers := consumers b;
  conns := conns b; nameSeq := nameSeq b; next_ptr := next_ptr b |}.
Definition set_qheap (m : gmap nat queue) (b : Broker) : Broker := {|
  exchanges := exchanges b; queues := queues b; qheap := m; channels := channels b; consumers := consumers b;
  conns := conns b; nameSeq := nameSeq b; next_ptr := next_ptr b |}.
Definition set_channels (m : gmap nat channel) (b : Broker) : Broker := {|
  exchanges := exchanges b; queues := queues b; qheap := qheap b; channels := m; consumers := consumers b;
  conns := conns b; nameSeq := nameSeq b; next_ptr := next_ptr b |}.
Definition set_consumers (m : gmap nat consumer) (b : Broker) : Broker := {|
  exchanges := exchanges b; queues := queues b; qheap := qheap b; channels := channels b; consumers := m;
  conns := conns b; nameSeq := nameSeq b; next_ptr := next_ptr b |}.
Definition set_conns (s : gmap nat Z) (b : Broker) : Broker := {|
  exchanges := exchanges b; queues := queues b; qheap := qheap b; channels := channels b; consumers := consumers b;
  conns := s; nameSeq := nameSeq b; next_ptr := next_ptr b |}.
Definition alloc (b : Broker) : nat * Broker := (next_ptr b, {|
  exchanges := exchanges b; queues := queues b; qheap := qheap b; channels := channels b; consumers := consumers b;
  conns := conns b; nameSeq := nameSeq b; next_ptr := S (next_ptr b) |}).
Definition bump_name (b : Broker) : Broker := {|
  exchanges := exchanges b; queues := queues b; qheap := qheap b; channels := channels b; consumers := consumers b;
  conns := conns b; nameSeq := nameSeq b + 1; next_ptr := next_ptr b |}.

Definition upd_queue (q : nat) (f : queue -> queue) (b : Broker) : Broker := set_qheap (alter f q (qheap b)) b.
Definition upd_channel (ch : nat) (f : channel -> channel) (b : Broker) : Broker :=
  set_channels (alter f ch (channels b)) b.
Definition upd_consumer (c : nat) (f : consumer -> consumer) (b : Broker) : Broker :=
  set_consumers (alter f c (consumers b)) b.

Definition with_msgs (l : list message) (q : queue) : queue := {|
  qname := qname q; qdurable := qdurable q; qautoDelete := qautoDelete q; qexclusv := qexclusv q; qowner := qowner q;
  qargs := qargs q; qttl := qttl q; qdlx := qdlx q; qdlxKey := qdlxKey q; qmaxPriority := qmaxPriority q;
  qmsgs := l; qconsumers := qconsumers q; qrr := qrr q; qhadConsumer := qhadConsumer q; qdeleted := qdeleted q |}.
Definition with_rr (l : list message) (rr : nat) (q : queue) : queue := {|
  qname := qname q; qdurable := qdurable q; qautoDelete := qautoDelete q; qexclusv := qexclusv q; qowner := qowner q;
  qargs := qargs q; qttl := qttl q; qdlx := qdlx q; qdlxKey := qdlxKey q; qmaxPriority := qmaxPriority q;
  qmsgs := l; qconsumers := qconsumers q; qrr := rr; qhadConsumer := qhadConsumer q; qdeleted := qdeleted q |}.
Definition with_consumers (l : list nat) (had : bool) (q : queue) : queue := {|
  qname := qname q; qdurable := qdurable q; qautoDelete := qautoDelete q; qexclusv := qexclusv q; qowner := qowner q;
  qargs := qargs q; qttl := qttl q; qdlx := qdlx q; qdlxKey := qdlxKey q; qmaxPriority := qmaxPriority q;
  qmsgs := qmsgs q; qconsumers := l; qrr := qrr q; qhadConsumer := had; qdeleted := qdeleted q |}.
Definition mark_deleted (q : queue) : queue := {|
  qname := qname q; qdurable := qdurable q; qautoDelete := qautoDelete q; qexclusv := qexclusv q; qowner := qowner q;
  qargs := qargs q; qttl := qttl q; qdlx := qdlx q; qdlxKey := qdlxKey q; qmaxPriority := qmaxPriority q;
  qmsgs := []; qconsumers := qconsumers q; qrr := qrr q; qhadConsumer := qhadConsumer q; qdeleted := true |}.

Definition with_timer (t : bool) (m : message) : message := {|
  mptr := mptr m; mpub := mpub m; mexchange := mexchange m; mkey := mkey m; mredelivered := mredelivered m; mtimer := t |}.
Definition as_redelivered (m : message) : message := {|
  mptr := mptr m; mpub := mpub m; mexchange := mexchange m; mkey := mkey m; mredelivered := true; mtimer := mtimer m |}.

(** ** Delivery *)

(** [hasCapacity] *)
Definition hasCapacity (c : consumer) : bool := cautoAck c || (cprefetch c =? 0) || (cunacked c <? cprefetch c).

Definition delivery_of (tag : nat) (m : message) : Delivery :=
  let p := mpub m in {|
  Headers := PHeaders p; ContentType := PContentType p; ContentEncoding := PContentEncoding p; Priority := PPriority p;
  CorrelationId := PCorrelationId p; ReplyTo := PReplyTo p; MessageId := PMessageId p; Timestamp := PTimestamp p;
  DType := PType p; AppId := PAppId p; DeliveryTag := Z.of_nat tag; Redelivered := mredelivered m;
  Exchange := mexchange m; RoutingKey := mkey m; Body := PBody p |}.

(** [deliver] *)
Definition deliver (cp : nat) (q : nat) (m : message) (b : Broker) : Broker :=
  match consumers b !! cp with
  | None => b
  | Some c =>
      match channels b !! cch c with
      | None => b
      | Some ch =>
          let tag := S (chnextTag ch) in
          let ch' := {| chconn := chconn ch; chid := chid ch; chclosed := chclosed ch; chconfirm := chconfirm ch;
                        chpublishSeq := chpublishSeq ch; chprefetch := chprefetch ch; chnextTag := tag;
                        chconsumers := chconsumers ch;
                        chunacked := if cautoAck c then chunacked ch
                                     else <[tag := {| ifmsg := m; ifq := q; ifcons := cp |}]> (chunacked ch);
                        chctagSeq := chctagSeq ch; chevents := chevents ch |} in
          let c' := {| ctag := ctag c; cch := cch c; cq := cq c; cautoAck := cautoAck c; cexclusive := cexclusive c;
                       cprefetch := cprefetch c; cunacked := if cautoAck c then cunacked c else cunacked c + 1;
                       cout := cout c ++ [delivery_of tag m] |} in
          set_channels (<[cch c := ch']> (channels b)) (set_consumers (<[cp := c']> (consumers b)) b)
      end
  end.

(** [queue.next]: the index of the highest priority, the first within one. *)
Fixpoint best_priority (maxP : Z) (i : nat) (best : nat) (bestP : Z) (l : list message) : nat :=
  match l with
  | [] => best
  | m :: l' =>
      let p := Z.min (PPriority (mpub m)) maxP in
      if bestP <? p then best_priority maxP (S i) i p l' else best_priority maxP (S i) best bestP l'
  end.

Definition next (q : queue) : nat :=
  if qmaxPriority q =? 0 then 0%nat else best_priority (qmaxPriority q) 0 0 (-1) (qmsgs q).

(** The consumer [dispatch] picks: the first with capacity, round-robin from
    [qrr]; its offset and pointer. *)
Definition pick (b : Broker) (q : queue) : option (nat * nat) :=
  let n := length (qconsumers q) in
  head (omap (fun i => match qconsumers q !! ((qrr q + i) mod n)%nat with
                       | Some c => match consumers b !! c with
                                   | Some x => if hasCapacity x then Some (i, c) else None
                                   | None => None
                                   end
                       | None => None
                       end) (seq 0 n)).

(** [dispatch]: each round takes a message off the queue, so its length is
    enough fuel. *)
Fixpoint dispatch_fuel (fuel : nat) (qp : nat) (b : Broker) : Broker :=
  match fuel with
  | O => b
  | S fuel' =>
      match qheap b !! qp with
      | None => b
      | Some q =>
          match pick b q, qmsgs q !! next q with
          | Some (i, c), Some m =>
              let q' := with_rr (delete (next q) (qmsgs q)) ((qrr q + i + 1) mod length (qconsumers q))%nat q in
              dispatch_fuel fuel' qp
                (deliver c qp (with_timer false m) (set_qheap (<[qp := q']> (qheap b)) b))
          | _, _ => b
          end
      end
  end.

Definition dispatch (qp : nat) (b : Broker) : Broker :=
  match qheap b !! qp with
  | None => b
  | Some q => dispatch_fuel (length (qmsgs q)) qp b
  end.

(** ** Routing *)

Definition enqueue (qp : nat) (m : message) (front : bool) (b : Broker) : Broker :=
  match qheap b !! qp with
  | None => b
  | Some q =>
      if qdeleted q then b
      else
        let m' := if 0 <? qttl q then with_timer true m else m in
        let l := if front then m' :: qmsgs q else qmsgs q ++ [m'] in
        dispatch qp (set_qheap (<[qp := with_msgs l q]> (qheap b)) b)
  end.

(** Whether a binding takes a key, by the exchange's kind. *)
Definition hit (kind : string) (bd : binding) (key : string) : bool :=
  if decide (kind = "fanout") then true
  else if decide (kind = "direct") then bool_decide (bkey bd = key)
  else if decide (kind = "topic") then topicMatch (Split (bkey bd)) (Split key)
  else false.

(** The loop over the bindings: the queues hit, once each. *)
Fixpoint hits (b : Broker) (kind key : string) (bds : list binding) (seen : list nat) : list nat :=
  match bds with
  | [] => seen
  | bd :: bds' =>
      match queues b !! bqueue bd with
      | Some q => if negb (bool_decide (q ∈ seen)) && hit kind bd key
                  then hits b kind key bds' (seen ++ [q]) else hits b kind key bds' seen
      | None => hits b kind key bds' seen
      end
  end.

(** The queues [route] finds. Its callers check that the exchange exists. *)
Definition targets (b : Broker) (ex key : string) : list nat :=
  if decide (ex = "") then option_list (queues b !! key)
  else match exchanges b !! ex with
       | Some e => hits b (ekind e) key (ebindings e) []
       | None => []
       end.

Definition enqueue_new (ex key : string) (p : Publishing) (b : Broker) (q : nat) : Broker :=
  let '(ptr, b) := alloc b in
  enqueue q {| mptr := ptr; mpub := p; mexchange := ex; mkey := key; mredelivered := false; mtimer := false |} false b.

Definition route (ex key : string) (p : Publishing) (b : Broker) : Broker * bool :=
  let ts := targets b ex key in
  (fold_left (enqueue_new ex key p) ts b, match ts with [] => false | _ => true end).

(** The copy [deadLetter] publishes. The contents of the x-death record are not
    modelled: a header value of another type. *)
Definition with_death (p : Publishing) : Publishing := {|
  PHeaders := <["x-death" := VOther "[]interface {}"]> (PHeaders p); PContentType := PContentType p;
  PContentEncoding := PContentEncoding p; PDeliveryMode := PDeliveryMode p; PPriority := PPriority p;
  PCorrelationId := PCorrelationId p; PReplyTo := PReplyTo p; PMessageId := PMessageId p; PTimestamp := PTimestamp p;
  PType := PType p; PAppId := PAppId p; PBody := PBody p |}.

Definition deadLetter (q : queue) (m : message) (b : Broker) : Broker :=
  match qdlx q with
  | None => b
  | Some ex =>
      match exchanges b !! ex with
      | None => b
      | Some _ => fst (route ex (default (mkey m) (qdlxKey q)) (with_death (mpub m)) b)
      end
  end.

(** [expire]: the timer of the message [ptr] of queue [qp] fires. *)
Definition expire (qp ptr : nat) (b : Broker) : Broker :=
  match qheap b !! qp with
  | None => b
  | Some q =>
      match list_find (fun m => mptr m = ptr) (qmsgs q) with
      | Some (i, m) =>
          if qdeleted q then b
          else deadLetter q (with_timer false m) (set_qheap (<[qp := with_msgs (delete i (qmsgs q)) q]> (qheap b)) b)
      | None => b
      end
  end.

(** ** Channels *)

Definition remove_bindings (name : string) (e : exchange) : exchange := {|
  ekind := ekind e; edurable := edurable e; eautoDelete := eautoDelete e; eintern := eintern e;
  ebindings := List.filter (fun bd => negb (bool_decide (bqueue bd = name))) (ebindings e) |}.

(** A consumer leaves its channel and its queue. *)
Definition detach (cp : nat) (b : Broker) : Broker :=
  match consumers b !! cp with
  | None => b
  | Some c =>
      upd_queue (cq c) (fun q => with_consumers (List.filter (fun x => negb (x =? cp)%nat) (qconsumers q)) (qhadConsumer q) q)
        (upd_channel (cch c) (fun ch => {|
           chconn := chconn ch; chid := chid ch; chclosed := chclosed ch; chconfirm := chconfirm ch; chpublishSeq := chpublishSeq ch;
           chprefetch := chprefetch ch; chnextTag := chnextTag ch; chconsumers := delete (ctag c) (chconsumers ch);
           chunacked := chunacked ch; chctagSeq := chctagSeq ch; chevents := chevents ch |}) b)
  end.

(** [deleteQueue]: its consumers are detached; being deleted, it is not deleted
    again when the last one goes. *)
Definition deleteQueue (qp : nat) (b : Broker) : Broker :=
  match qheap b !! qp with
  | None => b
  | Some q =>
      let b := upd_queue qp mark_deleted b in
      let b := set_exchanges (remove_bindings (qname q) <$> exchanges b) b in
      let b := fold_left (fun b c => detach c b) (qconsumers q) b in
      set_queues (delete (qname q) (queues b)) b
  end.

(** [removeConsumer]: an auto-delete queue goes with its last consumer. *)
Definition removeConsumer (cp : nat) (b : Broker) : Broker :=
  match consumers b !! cp with
  | None => b
  | Some c =>
      let b := detach cp b in
      match qheap b !! cq c with
      | None => b
      | Some q => if qautoDelete q && qhadConsumer q && bool_decide (qconsumers q = []) && negb (qdeleted q)
                  then deleteQueue (cq c) b else b
      end
  end.

Definition close_channel (ch : channel) : channel := {|
  chconn := chconn ch; chid := chid ch; chclosed := true; chconfirm := chconfirm ch; chpublishSeq := chpublishSeq ch;
  chprefetch := chprefetch ch; chnextTag := chnextTag ch; chconsumers := chconsumers ch; chunacked := chunacked ch;
  chctagSeq := chctagSeq ch; chevents := chevents ch |}.

Definition drop_unacked (ch : channel) : channel := {|
  chconn := chconn ch; chid := chid ch; chclosed := chclosed ch; chconfirm := chconfirm ch; chpublishSeq := chpublishSeq ch;
  chprefetch := chprefetch ch; chnextTag := chnextTag ch; chconsumers := chconsumers ch; chunacked := ∅;
  chctagSeq := chctagSeq ch; chevents := chevents ch |}.

(** The tags of unacknowledged deliveries, in ascending order. *)
Definition sorted_tags (m : gmap nat inflight) : list nat := merge_sort le (map fst (map_to_list m)).

(** [channel.shutdown]: the consumers go first, then the unacknowledged messages
    go back to the head of their queues, the last delivered first. *)
Definition shutdown_channel (ch : nat) (b : Broker) : Broker :=
  match channels b !! ch with
  | None => b
  | Some c =>
      if chclosed c then b
      else
        let b := upd_channel ch close_channel b in
        let b := fold_left (fun b cp => removeConsumer cp b) (map snd (map_to_list (chconsumers c))) b in
        let b := fold_left (fun b t => match chunacked c !! t with
                                       | Some i => enqueue (ifq i) (as_redelivered (ifmsg i)) true b
                                       | None => b
                                       end) (rev (sorted_tags (chunacked c))) b in
        upd_channel ch drop_unacked b
  end.

(** [fail]: a channel exception. *)
Definition fail_channel (ch : nat) (code : Z) (reason : string) (b : Broker) : Broker * option amqp_error :=
  (shutdown_channel ch b, Some (AChannel code reason)).

(** Every channel method refuses a closed channel. *)
Definition on_open {X : Type} (ch : nat) (b : Broker) (dflt : X) (k : channel -> Broker * X) : Broker * X :=
  match channels b !! ch with
  | None => (b, dflt)
  | Some c => if chclosed c then (b, dflt) else k c
  end.

(** [Dial] and [conn.Channel] *)
Definition Dial (b : Broker) : Broker * nat :=
  let '(p, b) := alloc b in (set_conns (<[p := 0]> (conns b)) b, p).

Definition open_channel (conn : nat) (b : Broker) : Broker * option nat :=
  match conns b !! conn with
  | Some n =>
    let '(p, b) := alloc b in
    let b := set_conns (<[conn := n + 1]> (conns b)) b in
    (set_channels (<[p := {| chconn := conn; chid := n + 1; chclosed := false; chconfirm := false; chpublishSeq := 0; chprefetch := 0;
                             chnextTag := 0; chconsumers := ∅; chunacked := ∅; chctagSeq := 0; chevents := [] |}]>
                    (channels b)) b, Some p)
  | None => (b, None)
  end.

(** [conn.shutdown]: its channels close and its exclusive queues disappear. *)
Definition shutdown_conn (conn : nat) (b : Broker) : Broker :=
  match conns b !! conn with
  | Some _ =>
    let mine := List.filter (fun kv => (chconn (snd kv) =? conn)%nat) (map_to_list (channels b)) in
    let b := fold_left (fun b kv => shutdown_channel (fst kv) b) mine b in
    let owned := List.filter (fun kv => match qheap b !! snd kv with
                                        | Some q => qexclusv q && bool_decide (qowner q = Some conn)
                                        | None => false
                                        end) (map_to_list (queues b)) in
    let b := fold_left (fun b kv => deleteQueue (snd kv) b) owned b in
    set_conns (delete conn (conns b)) b
  | None => b
  end.

Definition Qos (ch : nat) (n : Z) (b : Broker) : Broker * option amqp_error :=
  on_open ch b (Some AErrClosed) (fun c =>
    (upd_channel ch (fun c => {|
       chconn := chconn c; chid := chid c; chclosed := chclosed c; chconfirm := chconfirm c; chpublishSeq := chpublishSeq c;
       chprefetch := n; chnextTag := chnextTag c; chconsumers := chconsumers c; chunacked := chunacked c;
       chctagSeq := chctagSeq c; chevents := chevents c |}) b, None)).

Definition Confirm (ch : nat) (b : Broker) : Broker * option amqp_error :=
  on_open ch b (Some AErrClosed) (fun c =>
    (upd_channel ch (fun c => {|
       chconn := chconn c; chid := chid c; chclosed := chclosed c; chconfirm := true; chpublishSeq := chpublishSeq c;
       chprefetch := chprefetch c; chnextTag := chnextTag c; chconsumers := chconsumers c; chunacked := chunacked c;
       chctagSeq := chctagSeq c; chevents := chevents c |}) b, None)).

(** ** Declarations *)

Definition ExchangeDeclare (ch : nat) (name kind : string) (durable autoDelete internal : bool) (b : Broker)
    : Broker * option amqp_error :=
  on_open ch b (Some AErrClosed) (fun _ =>
    match exchanges b !! name with
    | Some e =>
        if bool_decide (ekind e <> kind) || negb (Bool.eqb (edurable e) durable) || negb (Bool.eqb (eautoDelete e) autoDelete)
           || negb (Bool.eqb (eintern e) internal)
        then fail_channel ch PreconditionFailed
               ("PRECONDITION_FAILED - inequivalent arg for exchange '" +:+ name +:+ "'") b
        else (b, None)
    | None =>
        if bool_decide (kind ∈ ["direct"; "topic"; "fanout"])
        then (set_exchanges (<[name := {| ekind := kind; edurable := durable; eautoDelete := autoDelete;
                                          eintern := internal; ebindings := [] |}]> (exchanges b)) b, None)
        else fail_channel ch CommandInvalid ("COMMAND_INVALID - unknown exchange type '" +:+ kind +:+ "'") b
    end).

(** [intArg] *)
Definition intArg (v : hval) : option Z :=
  match v with
  | VInt n | VInt8 n | VInt16 n | VInt32 n | VInt64 n | VUint8 n | VUint16 n | VUint32 n => Some n
  | _ => None
  end.

(** [argsEquivalent]: integer widths form one class. *)
Definition norm_arg (v : hval) : hval := match intArg v with Some n => VInt64 n | None => v end.

Definition argsEquivalent (a b : Table) : bool := bool_decide (norm_arg <$> a = norm_arg <$> b).

Definition string_arg (args : Table) (k : string) : option string :=
  match args !! k with Some (VString s) => Some s | _ => None end.

(** The server's name for an unnamed queue. *)
Definition gen_name (n : Z) : string :=
  let s := pretty n in "amq.gen-" +:+ String.concat "" (repeat "0" (6 - String.length s)) +:+ s.

(** An integer argument within bounds, absent, or refused. *)
Definition bounded_arg (args : Table) (k : string) (max : option Z) : option (option Z) :=
  match args !! k with
  | None => Some None
  | Some v =>
      match intArg v with
      | None => None
      | Some n => if (n <? 0) || match max with Some x => x <? n | None => false end then None else Some (Some n)
      end
  end.

Definition msDuration (ms : Z) : Z := int64_wrap (ms * Millisecond).

Definition QueueDeclare (ch : nat) (name : string) (durable autoDelete exclusive : bool) (args : Table) (b : Broker)
    : Broker * (string + amqp_error) :=
  on_open ch b (inr AErrClosed) (fun c =>
    let '(name, b) := if decide (name = "") then (gen_name (nameSeq b + 1), bump_name b) else (name, b) in
    let refuse code text := let '(b, e) := fail_channel ch code text b in
                            (b, match e with Some e => inr e | None => inl name end) in
    match queues b !! name ≫= fun q => qheap b !! q with
    | Some q =>
        if qexclusv q && negb (bool_decide (qowner q = Some (chconn c))) then
          refuse ResourceLocked ("RESOURCE_LOCKED - cannot obtain exclusive access to locked queue '" +:+ name +:+ "'")
        else if negb (Bool.eqb (qdurable q) durable) || negb (Bool.eqb (qautoDelete q) autoDelete)
                || negb (Bool.eqb (qexclusv q) exclusive) || negb (argsEquivalent (qargs q) args) then
          refuse PreconditionFailed ("PRECONDITION_FAILED - inequivalent arg for queue '" +:+ name +:+ "'")
        else (b, inl name)
    | None =>
        match bounded_arg args "x-message-ttl" None with
        | None => refuse PreconditionFailed
                    ("PRECONDITION_FAILED - invalid arg 'x-message-ttl' for queue '" +:+ name +:+ "'")
        | Some ttl =>
            match bounded_arg args "x-max-priority" (Some 255) with
            | None => refuse PreconditionFailed
                        ("PRECONDITION_FAILED - invalid arg 'x-max-priority' for queue '" +:+ name +:+ "'")
            | Some maxP =>
                let '(p, b) := alloc b in
                let q := {| qname := name; qdurable := durable; qautoDelete := autoDelete; qexclusv := exclusive;
                            qowner := if exclusive then Some (chconn c) else None; qargs := args;
                            qttl := default 0 (msDuration <$> ttl); qdlx := string_arg args "x-dead-letter-exchange";
                            qdlxKey := string_arg args "x-dead-letter-routing-key"; qmaxPriority := default 0 maxP;
                            qmsgs := []; qconsumers := []; qrr := 0; qhadConsumer := false; qdeleted := false |} in
                (set_queues (<[name := p]> (queues b)) (set_qheap (<[p := q]> (qheap b)) b), inl name)
            end
        end
    end).

Definition QueueBind (ch : nat) (name key ex : string) (b : Broker) : Broker * option amqp_error :=
  on_open ch b (Some AErrClosed) (fun _ =>
    match exchanges b !! ex with
    | Some e =>
        if decide (ex = "") then fail_channel ch NotFound ("NOT_FOUND - no exchange '" +:+ ex +:+ "'") b
        else match queues b !! name with
        | None => fail_channel ch NotFound ("NOT_FOUND - no queue '" +:+ name +:+ "'") b
        | Some _ =>
            let bd := {| bqueue := name; bkey := key |} in
            if decide (bd ∈ ebindings e) then (b, None)
            else (set_exchanges (<[ex := {| ekind := ekind e; edurable := edurable e; eautoDelete := eautoDelete e;
                                            eintern := eintern e; ebindings := ebindings e ++ [bd] |}]> (exchanges b)) b, None)
        end
    | None => fail_channel ch NotFound ("NOT_FOUND - no exchange '" +:+ ex +:+ "'") b
    end).

(** ** Consuming, publishing and settling *)

Definition ConsumeWithContext (ch : nat) (queue tag : string) (autoAck exclusive : bool) (b : Broker)
    : Broker * (nat + amqp_error) :=
  on_open ch b (inr AErrClosed) (fun c =>
    let refuse code text := let '(b, e) := fail_channel ch code text b in
                            (b, match e with Some e => inr e | None => inr AErrClosed end) in
    match queues b !! queue with
    | None => refuse NotFound ("NOT_FOUND - no queue '" +:+ queue +:+ "'")
    | Some qp =>
        match qheap b !! qp with
        | None => refuse NotFound ("NOT_FOUND - no queue '" +:+ queue +:+ "'")
        | Some q =>
            if qexclusv q && negb (bool_decide (qowner q = Some (chconn c))) then
              refuse ResourceLocked
                ("RESOURCE_LOCKED - cannot obtain exclusive access to locked queue '" +:+ queue +:+ "'")
            else if existsb (fun x => match consumers b !! x with
                                      | Some y => exclusive || cexclusive y
                                      | None => false
                                      end) (qconsumers q) then
              refuse AccessRefused ("ACCESS_REFUSED - queue '" +:+ queue +:+ "' in exclusive use")
            else
              let seq := if decide (tag = "") then chctagSeq c + 1 else chctagSeq c in
              let tag := if decide (tag = "")
                         then "amq.ctag-" +:+ pretty (chid c) +:+ "-" +:+ pretty seq else tag in
              match chconsumers c !! tag with
              | Some _ => refuse NotAllowed ("NOT_ALLOWED - attempt to reuse consumer tag '" +:+ tag +:+ "'")
              | None =>
                  let '(p, b) := alloc b in
                  let cons := {| ctag := tag; cch := ch; cq := qp; cautoAck := autoAck; cexclusive := exclusive;
                                 cprefetch := chprefetch c; cunacked := 0; cout := [] |} in
                  let c' := {| chconn := chconn c; chid := chid c; chclosed := chclosed c; chconfirm := chconfirm c;
                               chpublishSeq := chpublishSeq c; chprefetch := chprefetch c; chnextTag := chnextTag c;
                               chconsumers := <[tag := p]> (chconsumers c); chunacked := chunacked c; chctagSeq := seq;
                               chevents := chevents c |} in
                  let b := set_consumers (<[p := cons]> (consumers b)) (set_channels (<[ch := c']> (channels b)) b) in
                  let b := set_qheap (<[qp := with_consumers (qconsumers q ++ [p]) true q]> (qheap b)) b in
                  (dispatch qp b, inl p)
              end
        end
    end).

Definition Cancel (ch : nat) (tag : string) (b : Broker) : Broker * option amqp_error :=
  on_open ch b (Some AErrClosed) (fun c =>
    match chconsumers c !! tag with
    | Some cp => (removeConsumer cp b, None)
    | None => (b, None)
    end).

(** The broker's answer to a publish, as the confirm policy decides. *)
Inductive ConfirmAction := PolicyAck | PolicyNack | PolicyDrop.

Definition emit (ch : nat) (es : list event) (b : Broker) : Broker :=
  upd_channel ch (fun c => {|
    chconn := chconn c; chid := chid c; chclosed := chclosed c; chconfirm := chconfirm c; chpublishSeq := chpublishSeq c;
    chprefetch := chprefetch c; chnextTag := chnextTag c; chconsumers := chconsumers c; chunacked := chunacked c;
    chctagSeq := chctagSeq c; chevents := chevents c ++ es |}) b.

Definition bump_seq (c : channel) : channel := {|
  chconn := chconn c; chid := chid c; chclosed := chclosed c; chconfirm := chconfirm c; chpublishSeq := chpublishSeq c + 1;
  chprefetch := chprefetch c; chnextTag := chnextTag c; chconsumers := chconsumers c; chunacked := chunacked c;
  chctagSeq := chctagSeq c; chevents := chevents c |}.

(** [PublishWithContext], on a live context and without delayed or withheld
    confirms: a return goes out before the confirm that follows it. *)
Definition PublishWithContext (ch : nat) (ex key : string) (mandatory : bool) (action : ConfirmAction) (p : Publishing)
    (b : Broker) : Broker * option amqp_error :=
  on_open ch b (Some AErrClosed) (fun c =>
    let tag := if chconfirm c then chpublishSeq c + 1 else 0 in
    let b := if chconfirm c then upd_channel ch bump_seq b else b in
    let confirm ack := if chconfirm c then [EConfirm tag ack] else [] in
    match exchanges b !! ex with
    (* the channel closes, asynchronously: the publish itself succeeds *)
    | None => (shutdown_channel ch b, None)
    | Some _ =>
        match action with
        | PolicyNack => (emit ch (confirm false) b, None)
        | PolicyDrop => (b, None)
        | PolicyAck =>
            let '(b, routed) := route ex key p b in
            let ret := if negb routed && mandatory then [EReturn ex key (PMessageId p)] else [] in
            (emit ch (ret ++ confirm true) b, None)
        end
    end).

(** How a delivery is settled at the broker. *)
Inductive settle_kind := SAck | SRequeue | SDiscard.

(** [acker.settle] of a single tag. *)
Definition settle (ch : nat) (kind : settle_kind) (tag : nat) (b : Broker) : Broker * option amqp_error :=
  on_open ch b (Some AErrClosed) (fun c =>
    match chunacked c !! tag with
    | None => (shutdown_channel ch b, None)
    | Some i =>
        let b := upd_channel ch (fun c => {|
          chconn := chconn c; chid := chid c; chclosed := chclosed c; chconfirm := chconfirm c; chpublishSeq := chpublishSeq c;
          chprefetch := chprefetch c; chnextTag := chnextTag c; chconsumers := chconsumers c;
          chunacked := delete tag (chunacked c); chctagSeq := chctagSeq c; chevents := chevents c |}) b in
        let b := upd_consumer (ifcons i) (fun x => {|
          ctag := ctag x; cch := cch x; cq := cq x; cautoAck := cautoAck x; cexclusive := cexclusive x;
          cprefetch := cprefetch x; cunacked := cunacked x - 1; cout := cout x |}) b in
        let b := match kind with
                 | SAck => b
                 | SRequeue => enqueue (ifq i) (as_redelivered (ifmsg i)) true b
                 | SDiscard => match qheap b !! ifq i with
                               | Some q => deadLetter q (ifmsg i) b
                               | None => b
                               end
                 end in
        (dispatch (ifq i) b, None)
    end).

(** ** Well-formed brokers *)

(** A queue is what its declaration says. *)
Record queue_ok (n : string) (q : queue) : Prop := {
  qok_name : qname q = n;
  qok_live : qdeleted q = false;
  qok_dlx : qdlx q = string_arg (qargs q) "x-dead-letter-exchange";
  qok_dlxKey : qdlxKey q = string_arg (qargs q) "x-dead-letter-routing-key";
  qok_ttl : exists ttl, bounded_arg (qargs q) "x-message-ttl" None = Some ttl /\ qttl q = default 0 (msDuration <$> ttl)
}.

Record wf (b : Broker) : Prop := {
  wf_queue : forall n p, queues b !! n = Some p -> exists q, qheap b !! p = Some q /\ queue_ok n q;
  wf_fresh : forall p q, qheap b !! p = Some q -> (p < next_ptr b)%nat;
  wf_msgs : forall p q m, qheap b !! p = Some q -> m ∈ qmsgs q -> (mptr m < next_ptr b)%nat
}.

(** What declarations do: nothing declared before is lost or changed, and the
    only bindings that appear are [adds]. *)
Record declares (b b' : Broker) (adds : list (string * binding)) : Prop := {
  dec_wf : wf b -> wf b';
  dec_exchange : forall n e, exchanges b !! n = Some e ->
    exists e', exchanges b' !! n = Some e' /\ ekind e' = ekind e /\ ebindings e ⊆ ebindings e';
  dec_queue : wf b -> forall n p, queues b !! n = Some p -> queues b' !! n = Some p;
  dec_heap : wf b -> forall p q, qheap b !! p = Some q -> qheap b' !! p = Some q;
  dec_adds : forall n e' bd, exchanges b' !! n = Some e' -> bd ∈ ebindings e' ->
    (exists e, exchanges b !! n = Some e /\ bd ∈ ebindings e) \/ (n, bd) ∈ adds;
  (* a queue that appears is empty and unconsumed *)
  dec_new : wf b -> forall n p q, queues b' !! n = Some p -> qheap b' !! p = Some q ->
    queues b !! n = Some p \/ qmsgs q = [] /\ qconsumers q = []
}.

Lemma declares_refl b : declares b b [].
Proof. split; eauto. Qed.

Lemma declares_trans b b1 b2 a1 a2 : declares b b1 a1 -> declares b1 b2 a2 -> declares b b2 (a1 ++ a2).
Proof.
  intros [W1 E1 Q1 H1 A1 N1] [W2 E2 Q2 H2 A2 N2]. split; eauto.
  - intros n e He. destruct (E1 n e He) as (e1 & He1 & K1 & S1). destruct (E2 n e1 He1) as (e2 & He2 & K2 & S2).
    exists e2. split_and!; [done|congruence|set_solver].
  - intros n e bd He Hbd. destruct (A2 n e bd He Hbd) as [(e1 & He1 & Hb1)|Hin]; [|right; set_solver].
    destruct (A1 n e1 bd He1 Hb1) as [?|Hin]; [by left|right; set_solver].
  - intros W n p q Hq Hp. destruct (N2 (W1 W) n p q Hq Hp) as [Hq1|?]; [|by right].
    destruct (wf_queue b1 (W1 W) n p Hq1) as (q1 & Hp1 & _).
    assert (q1 = q) as -> by (specialize (H2 (W1 W) p q1 Hp1); congruence). by eapply N1.
Qed.

(** A change of a channel's fields declares nothing. *)
Lemma declares_same b b' :
  exchanges b' = exchanges b -> queues b' = queues b -> qheap b' = qheap b -> next_ptr b' = next_ptr b -> declares b b' [].
Proof.
  intros He Hq Hh Hn. split; rewrite ?He, ?Hq, ?Hh; eauto.
  intros [W1 W2 W3]. split; rewrite ?Hq, ?Hh, ?Hn; eauto.
Qed.

Lemma Qos_ok ch n b b' : Qos ch n b = (b', None) -> declares b b' [].
Proof.
  unfold Qos, on_open. destruct (channels b !! ch) as [c|]; [|done]. destruct (chclosed c); [done|].
  intros [= <-]. by apply declares_same.
Qed.

Lemma ExchangeDeclare_ok ch n kind d a i b b' :
  ExchangeDeclare ch n kind d a i b = (b', None) ->
  declares b b' [] /\ exists e, exchanges b' !! n = Some e /\ ekind e = kind.
Proof.
  unfold ExchangeDeclare, on_open, fail_channel. destruct (channels b !! ch) as [c|]; [|done].
  destruct (chclosed c); [done|]. destruct (exchanges b !! n) as [e|] eqn:E.
  - destruct (bool_decide_reflect (ekind e <> kind)) as [|Hk]; [done|]. cbn [orb]. destruct (_ || _ || _); [done|].
    intros [= <-]. split; [apply declares_refl|]. exists e. split; [done|]. by apply dec_stable in Hk.
  - destruct (bool_decide _); [|done]. intros [= <-]. simpl. split; [|rewrite lookup_insert_eq; eauto].
    split; simpl; eauto.
    + intros [W1 W2 W3]. by split.
    + intros m e He. exists e. rewrite lookup_insert_ne by congruence. done.
    + intros m e bd [[<- <-]|[Hne He]]%lookup_insert_Some Hbd; [by apply elem_of_nil in Hbd|eauto].
Qed.

Lemma QueueBind_ok ch n key ex b b' :
  QueueBind ch n key ex b = (b', None) ->
  ex <> "" /\ declares b b' [(ex, {| bqueue := n; bkey := key |})] /\
  exists e e', exchanges b !! ex = Some e /\ exchanges b' !! ex = Some e' /\ ekind e' = ekind e /\
    {| bqueue := n; bkey := key |} ∈ ebindings e'.
Proof.
  unfold QueueBind, on_open, fail_channel. destruct (channels b !! ch) as [c|]; [|done]. destruct (chclosed c); [done|].
  destruct (exchanges b !! ex) as [e|] eqn:E; [|done]. destruct (decide (ex = "")) as [|Hex]; [done|].
  destruct (queues b !! n); [|done]. case_decide as Hin; intros [= <-]; (split; [exact Hex|]).
  - split; [|by exists e, e]. split; eauto using declares_refl.
  - simpl. split.
    2: { eexists e, _. split; [done|]. rewrite lookup_insert_eq. split; [done|]. simpl. split; [done|].
         apply elem_of_app. right. by left. }
    split; simpl; eauto.
    + intros [W1 W2 W3]. by split.
    + intros m x Hx. destruct (decide (m = ex)) as [->|Hm].
      * rewrite lookup_insert_eq. eexists. split; [done|]. simplify_eq. simpl. split; [done|set_solver].
      * rewrite lookup_insert_ne by done. eauto.
    + intros m x bd [[<- <-]|[Hne Hx]]%lookup_insert_Some Hbd; [|eauto]. simpl in Hbd.
      apply elem_of_app in Hbd as [?| ->%list_elem_of_singleton]; [eauto|]. right. by left.
Qed.

Lemma argsEquivalent_refl a : argsEquivalent a a = true.
Proof. by apply bool_decide_true. Qed.

Lemma argsEquivalent_lookup a b k : argsEquivalent a b = true -> norm_arg <$> a !! k = norm_arg <$> b !! k.
Proof. intros H%bool_decide_eq_true. rewrite <-!lookup_fmap. by rewrite H. Qed.

Lemma argsEquivalent_string a b k : argsEquivalent a b = true -> string_arg a k = string_arg b k.
Proof.
  intros H. apply (argsEquivalent_lookup _ _ k) in H. unfold string_arg.
  destruct (a !! k) as [[]|], (b !! k) as [[]|]; simplify_eq/=; done.
Qed.

Lemma argsEquivalent_bounded a b k : argsEquivalent a b = true -> bounded_arg a k None = bounded_arg b k None.
Proof.
  intros H. apply (argsEquivalent_lookup _ _ k) in H. unfold bounded_arg.
  destruct (a !! k) as [[]|], (b !! k) as [[]|]; simplify_eq/=; done.
Qed.

Lemma QueueDeclare_ok ch name d a x args b b' n :
  name <> "" -> QueueDeclare ch name d a x args b = (b', inl n) ->
  n = name /\ declares b b' [] /\
  (wf b -> exists p q, queues b' !! name = Some p /\ qheap b' !! p = Some q /\ queue_ok name q /\
     argsEquivalent (qargs q) args = true).
Proof.
  intros Hne. unfold QueueDeclare, on_open, fail_channel. destruct (channels b !! ch) as [c|]; [|done].
  destruct (chclosed c); [done|]. rewrite decide_False by done.
  destruct (queues b !! name ≫= fun q => qheap b !! q) as [q|] eqn:E.
  - destruct (qexclusv q && _); [done|].
    destruct (argsEquivalent (qargs q) args) eqn:Ea; [|by rewrite orb_true_r].
    cbn [negb]. rewrite orb_false_r. destruct (_ || _); [done|]. intros [= <- <-].
    split; [done|]. split; [apply declares_refl|]. intros W.
    apply bind_Some in E as (p & Hp & Hq). destruct (wf_queue b W name p Hp) as (q' & Hq' & Hok).
    assert (q' = q) as -> by congruence. by exists p, q.
  - destruct (bounded_arg args "x-message-ttl" None) as [ttl|] eqn:Et; [|done].
    destruct (bounded_arg args "x-max-priority" (Some 255)) as [mp|]; [|done]. simpl. intros [= <- <-].
    assert (wf b -> queues b !! name = None) as Hnone.
    { intros W. destruct (queues b !! name) as [p|] eqn:Ep; [|done]. destruct (wf_queue b W name p Ep) as (q & Hq & _).
      simpl in E. congruence. }
    split; [done|]. split.
    2: { intros _. eexists (next_ptr b), _. cbn [queues qheap set_queues set_qheap]. rewrite !lookup_insert_eq.
         split_and!; [done|done| |apply argsEquivalent_refl]. split; simpl; eauto. }
    split; simpl; eauto.
    + intros W. pose proof (wf_fresh b W) as Hf. pose proof (wf_msgs b W) as Hm. split; simpl.
      * intros m p [[<- <-]|[Hm' Hp]]%lookup_insert_Some.
        -- rewrite lookup_insert_eq. eexists. split; [done|]. split; simpl; eauto.
        -- destruct (wf_queue b W m p Hp) as (q & Hq & Hok). exists q. split; [|done].
           rewrite lookup_insert_ne; [done|]. specialize (Hf p q Hq). lia.
      * intros p q [[<- <-]|[_ Hq]]%lookup_insert_Some; [lia|]. specialize (Hf p q Hq). lia.
      * intros p q m [[<- <-]|[_ Hq]]%lookup_insert_Some Hin; [by apply elem_of_nil in Hin|].
        specialize (Hm p q m Hq Hin). lia.
    + intros W m p Hp. rewrite lookup_insert_ne; [done|]. intros <-. specialize (Hnone W). congruence.
    + intros W p q Hq. rewrite lookup_insert_ne; [done|]. pose proof (wf_fresh b W p q Hq). lia.
    + intros W m p q [[<- <-]|[Hm Hp]]%lookup_insert_Some Hq; [|by left].
      rewrite lookup_insert_eq in Hq. right. by simplify_eq.
Qed.

(** ** Routing lemmas *)

Lemma hits_ext b b' kind key bds seen : queues b' = queues b -> hits b' kind key bds seen = hits b kind key bds seen.
Proof.
  intros Hq. revert seen. induction bds as [|bd bds IH]; intros seen; simpl; [done|]. rewrite Hq.
  destruct (queues b !! bqueue bd); [destruct (_ && _)|]; apply IH.
Qed.

Lemma targets_ext b b' ex key : exchanges b' = exchanges b -> queues b' = queues b -> targets b' ex key = targets b ex key.
Proof.
  intros He Hq. unfold targets. rewrite He, Hq. destruct (decide (ex = "")); [done|].
  destruct (exchanges b !! ex); [|done]. by apply hits_ext.
Qed.

Lemma hits_mono b kind key bds seen p : p ∈ seen -> p ∈ hits b kind key bds seen.
Proof.
  revert seen. induction bds as [|bd bds IH]; intros seen Hp; simpl; [done|].
  destruct (queues b !! bqueue bd) as [q|]; [|by apply IH]. destruct (_ && _); [|by apply IH].
  apply IH, elem_of_app. by left.
Qed.

Lemma hits_member b kind key bds seen bd p :
  bd ∈ bds -> queues b !! bqueue bd = Some p -> hit kind bd key = true -> p ∈ hits b kind key bds seen.
Proof.
  intros Hbd Hq Hh. revert seen. induction bds as [|x bds IH]; intros seen; [by apply elem_of_nil in Hbd|].
  apply elem_of_cons in Hbd as [<-|Hbd]; simpl.
  - rewrite Hq, Hh, andb_true_r. destruct (bool_decide_reflect (p ∈ seen)); simpl; apply hits_mono; [done|].
    apply elem_of_app. right. by left.
  - destruct (queues b !! bqueue x); [destruct (_ && _)|]; by apply IH.
Qed.

(** An exchange whose bindings all name one queue routes there only. *)
Lemma hits_only b kind key bds seen qn p :
  Forall (fun bd => bqueue bd = qn) bds -> queues b !! qn = Some p ->
  hits b kind key bds seen = seen \/ (p ∉ seen /\ hits b kind key bds seen = seen ++ [p]).
Proof.
  intros Hall Hq. revert seen. induction Hall as [|bd bds Hbd _ IH]; intros seen; simpl; [by left|].
  rewrite Hbd, Hq. destruct (bool_decide_reflect (p ∈ seen)) as [Hin|Hin]; simpl; [apply IH|].
  destruct (hit kind bd key); [|apply IH]. right. split; [done|].
  destruct (IH (seen ++ [p])) as [->|[Hn _]]; [done|]. destruct Hn. apply elem_of_app. right. by left.
Qed.

(** Everything bound to [ex] goes to the queue [qn]. *)
Definition only (b : Broker) (ex qn : string) : Prop :=
  forall e, exchanges b !! ex = Some e -> Forall (fun bd => bqueue bd = qn) (ebindings e).

Lemma targets_only b ex qn e key p bd :
  ex <> "" -> exchanges b !! ex = Some e -> only b ex qn -> queues b !! qn = Some p -> bd ∈ ebindings e ->
  hit (ekind e) bd key = true -> targets b ex key = [p].
Proof.
  intros Hne He Ho Hq Hbd Hh. unfold targets. rewrite decide_False, He by done. specialize (Ho e He).
  assert (p ∈ hits b (ekind e) key (ebindings e) []) as Hin.
  { eapply hits_member; [done| |done]. rewrite Forall_forall in Ho. by rewrite (Ho bd Hbd). }
  destruct (hits_only b (ekind e) key (ebindings e) [] qn p Ho Hq) as [E|[_ E]]; rewrite E in *; [|done].
  by apply elem_of_nil in Hin.
Qed.

(** Declaring keeps an exchange to its queue, unless another is bound to it. *)
Lemma declares_only b b' adds ex qn :
  declares b b' adds -> only b ex qn -> (forall bd, (ex, bd) ∈ adds -> bqueue bd = qn) -> only b' ex qn.
Proof.
  intros HD Ho Ha e He. apply Forall_forall. intros bd Hbd.
  destruct (dec_adds _ _ _ HD ex e bd He Hbd) as [(e0 & He0 & Hbd0)|Hin]; [|by apply Ha].
  specialize (Ho e0 He0). rewrite Forall_forall in Ho. by apply Ho.
Qed.

Lemma topicMatch_all t : topicMatch ["#"] t = true.
Proof. induction t as [|w t IH]; [done|]. simpl in *. exact IH. Qed.

Lemma hit_hash q key : hit "topic" {| bqueue := q; bkey := "#" |} key = true.
Proof. unfold hit. simpl. apply topicMatch_all. Qed.

(** ** A message parked on a queue nobody consumes *)

Lemma deliver_qheap c qp m b : qheap (deliver c qp m b) = qheap b.
Proof. unfold deliver. by repeat case_match. Qed.

(** Any fuel from the number of waiting messages on runs [dispatch] to its
    end: each round takes one message off the queue. *)
Lemma dispatch_fuel_enough f1 f2 qp q b :
  qheap b !! qp = Some q -> (length (qmsgs q) <= f1)%nat -> (length (qmsgs q) <= f2)%nat ->
  dispatch_fuel f1 qp b = dispatch_fuel f2 qp b.
Proof.
  revert f2 q b. induction f1 as [|f1 IH]; intros [|f2] q b Hq H1 H2; simpl; rewrite ?Hq; [done| | |].
  - assert (qmsgs q = []) as -> by (apply nil_length_inv; lia). by repeat case_match.
  - assert (qmsgs q = []) as -> by (apply nil_length_inv; lia). by repeat case_match.
  - destruct (pick b q) as [[i c]|]; [|done]. destruct (qmsgs q !! next q) as [m|] eqn:Hm; [|done].
    pose proof (lookup_lt_Some _ _ _ Hm) as Hlt.
    assert (length (delete (next q) (qmsgs q)) = length (qmsgs q) - 1)%nat as Hl by by apply length_delete.
    eapply IH; [by rewrite deliver_qheap; apply lookup_insert_eq | simpl; lia | simpl; lia].
Qed.

Lemma dispatch_idle qp q b : qheap b !! qp = Some q -> qconsumers q = [] -> dispatch qp b = b.
Proof.
  intros Hq Hc. unfold dispatch. rewrite Hq. destruct (length (qmsgs q)) as [|n]; [done|]. simpl. rewrite Hq.
  unfold pick. rewrite Hc. done.
Qed.

(** The message a publish of [p] under [key] parks. *)
Definition parked (ptr : nat) (ex key : string) (p : Publishing) : message :=
  {| mptr := ptr; mpub := p; mexchange := ex; mkey := key; mredelivered := false; mtimer := true |}.

(** The message at the tail of a queue. *)
Definition last_message (b : Broker) (qp : nat) : option message := qheap b !! qp ≫= fun q => last (qmsgs q).

Lemma route_parks b ex key p qp q :
  targets b ex key = [qp] -> qheap b !! qp = Some q -> qdeleted q = false -> qconsumers q = [] -> 0 < qttl q ->
  exists b', route ex key p b = (b', true) /\ exchanges b' = exchanges b /\ queues b' = queues b /\
    qheap b' = <[qp := with_msgs (qmsgs q ++ [parked (next_ptr b) ex key p]) q]> (qheap b).
Proof.
  intros Ht Hq Hd Hc Httl. unfold route. rewrite Ht. simpl. unfold enqueue_new. simpl. unfold enqueue. simpl.
  rewrite Hq, Hd. destruct (Z.ltb_spec 0 (qttl q)); [|lia].
  erewrite dispatch_idle; [eexists; split_and!; [reflexivity|done|done|done]| |].
  - simpl. by rewrite lookup_insert_eq.
  - done.
Qed.

(** When its TTL expires, it is published to the dead-letter exchange, under the
    key it was published with. *)
Lemma expire_parked b qp q msgs ptr ex key p dlx e :
  qheap b !! qp = Some (with_msgs (msgs ++ [parked ptr ex key p]) q) -> qdeleted q = false ->
  (forall m, m ∈ msgs -> mptr m <> ptr) -> qdlx q = Some dlx -> qdlxKey q = None -> exchanges b !! dlx = Some e ->
  exists b', expire qp ptr b = fst (route dlx key (with_death p) b') /\ exchanges b' = exchanges b /\ queues b' = queues b /\
    qheap b' = <[qp := with_msgs msgs q]> (qheap b).
Proof.
  intros Hq Hd Hms Hdlx Hkey He. unfold expire. rewrite Hq.
  assert (list_find (fun m => mptr m = ptr) (msgs ++ [parked ptr ex key p]) = Some (length msgs, parked ptr ex key p)) as Hf.
  { apply list_find_Some. split_and!.
    - by rewrite lookup_app_r, Nat.sub_diag.
    - done.
    - intros j y Hj Hlt. apply lookup_app_Some in Hj as [Hj|[Hj _]]; [|lia]. apply Hms. by eapply list_elem_of_lookup_2. }
  cbn [qmsgs with_msgs qdeleted]. rewrite Hf, Hd. unfold deadLetter. cbn [qdlx qdlxKey with_msgs]. rewrite Hdlx, Hkey.
  cbn [exchanges set_qheap]. rewrite He. simpl. eexists. split_and!; [reflexivity|done|done|]. simpl.
  by rewrite delete_middle, app_nil_r.
Qed.
