(* ===== verification/BrokerOps.v ===== *)
(** * BrokerOps: the rest of the in-memory broker (internal/fakebroker)

    Settling several deliveries at once, operator actions (deleting a queue,
    publishing from outside, killing every connection, restarting), closing
    channels and connections, what tests ask the broker, and injected faults:
    refused dials, and confirms that are withheld or late. *)
From S2P Require Import Prelude GoStrings Topic Headers Broker.

Local Open Scope Z_scope.

(** ** Settling *)

Definition remove_tag (t : nat) (c : channel) : channel := {|
  chconn := chconn c; chid := chid c; chclosed := chclosed c; chconfirm := chconfirm c; chpublishSeq := chpublishSeq c;
  chprefetch := chprefetch c; chnextTag := chnextTag c; chconsumers := chconsumers c;
  chunacked := delete t (chunacked c); chctagSeq := chctagSeq c; chevents := chevents c |}.

Definition one_less (x : consumer) : consumer := {|
  ctag := ctag x; cch := cch x; cq := cq x; cautoAck := cautoAck x; cexclusive := cexclusive x;
  cprefetch := cprefetch x; cunacked := cunacked x - 1; cout := cout x |}.

(** One round of the loop of [acker.settle]. *)
Definition settle_one (ch : nat) (kind : settle_kind) (b : Broker) (t : nat) : Broker :=
  match channels b !! ch ≫= fun c => chunacked c !! t with
  | None => b
  | Some i =>
      let b := upd_consumer (ifcons i) one_less (upd_channel ch (remove_tag t) b) in
      match kind with
      | SAck => b
      | SRequeue => enqueue (ifq i) (as_redelivered (ifmsg i)) true b
      | SDiscard => match qheap b !! ifq i with Some q => deadLetter q (ifmsg i) b | None => b end
      end
  end.

(** The tags a settlement names: all up to [tag], or itself. *)
Definition named_tags (multiple : bool) (tag : nat) (c : channel) : list nat :=
  if multiple then List.filter (fun t => (t <=? tag)%nat) (sorted_tags (chunacked c))
  else match chunacked c !! tag with Some _ => [tag] | None => [] end.

(** [acker.settle]; [order] is the order the touched queues are visited in. *)
Definition settle_tags (ch : nat) (kind : settle_kind) (tag : nat) (multiple : bool) (order : list nat) (b : Broker)
    : Broker * option amqp_error :=
  on_open ch b (Some AErrClosed) (fun c =>
    match named_tags multiple tag c with
    | [] => (shutdown_channel ch b, None)
    | tags => (fold_left (fun b q => dispatch q b) order (fold_left (settle_one ch kind) tags b), None)
    end).

(** The queues it touches. *)
Definition touched (tags : list nat) (c : channel) : gset nat :=
  list_to_set (omap (fun t => ifq <$> chunacked c !! t) tags).

(** [Ack], [Nack] and [Reject] *)
Definition Ack (ch tag : nat) (multiple : bool) := settle_tags ch SAck tag multiple.
Definition Nack (ch tag : nat) (multiple requeue : bool) := settle_tags ch (if requeue then SRequeue else SDiscard) tag multiple.
Definition Reject (ch tag : nat) (requeue : bool) := settle_tags ch (if requeue then SRequeue else SDiscard) tag false.

(** ** Closing *)

(** [channel.Close], [conn.Close] *)
Definition Channel_Close (ch : nat) (b : Broker) : Broker * option amqp_error :=
  on_open ch b (Some AErrClosed) (fun _ => (shutdown_channel ch b, None)).

Definition Conn_Close (conn : nat) (b : Broker) : Broker * option amqp_error :=
  match conns b !! conn with
  | None => (b, Some AErrClosed)
  | Some _ => (shutdown_conn conn b, None)
  end.

Definition Channel_IsClosed (ch : nat) (b : Broker) : bool := match channels b !! ch with Some c => chclosed c | None => true end.
Definition Conn_IsClosed (conn : nat) (b : Broker) : bool := match conns b !! conn with Some _ => false | None => true end.

Definition GetNextPublishSeqNo (ch : nat) (b : Broker) : Z := match channels b !! ch with Some c => chpublishSeq c + 1 | None => 1 end.

(** ** Operators *)

(** [DeleteQueue] *)
Definition DeleteQueue (name : string) (b : Broker) : Broker :=
  match queues b !! name with Some q => deleteQueue q b | None => b end.

(** [Publish], from outside any connection: [None] is the missing exchange. *)
Definition Publish (ex key : string) (p : Publishing) (b : Broker) : option Broker :=
  match exchanges b !! ex with None => None | Some _ => Some (fst (route ex key p b)) end.

(** [KillConnections]; [order] is the order the connections are visited in. *)
Definition KillConnections (order : list nat) (b : Broker) : Broker := fold_left (fun b c => shutdown_conn c b) order b.

(** A persistent message survives a restart. *)
Definition is_persistent (m : message) : bool := PDeliveryMode (mpub m) =? Persistent.

(** One queue at a restart. *)
Definition restart_queue (b : Broker) (nq : string * nat) : Broker :=
  match qheap b !! snd nq with
  | None => b
  | Some q =>
      if negb (qdurable q) then deleteQueue (snd nq) b
      else set_qheap (<[snd nq := with_msgs (List.filter is_persistent (qmsgs q)) q]> (qheap b)) b
  end.

(** [Restart] *)
Definition Restart (order : list nat) (b : Broker) : Broker :=
  let b := KillConnections order b in
  let b := fold_left restart_queue (map_to_list (queues b)) b in
  set_exchanges (filter (fun ne => ne.1 = "" \/ edurable ne.2 = true) (exchanges b)) b.

(** ** Questions *)

Definition HasQueue (name : string) (b : Broker) : bool := bool_decide (is_Some (queues b !! name)).
Definition HasExchange (name : string) (b : Broker) : bool := bool_decide (is_Some (exchanges b !! name)).

Record QueueInfo := {
  InfoName : string; InfoDurable : bool; InfoAutoDelete : bool; InfoExclusive : bool; InfoArgs : Table;
  InfoMessages : nat; InfoConsumers : nat
}.

Definition Queue (name : string) (b : Broker) : option QueueInfo :=
  (fun q => {| InfoName := qname q; InfoDurable := qdurable q; InfoAutoDelete := qautoDelete q; InfoExclusive := qexclusv q;
               InfoArgs := qargs q; InfoMessages := length (qmsgs q); InfoConsumers := length (qconsumers q) |})
  <$> (queues b !! name ≫= fun p => qheap b !! p).

Definition QueueDepth (name : string) (b : Broker) : nat := match Queue name b with Some i => InfoMessages i | None => 0 end.

Definition Messages (name : string) (b : Broker) : list Publishing :=
  match queues b !! name ≫= fun p => qheap b !! p with Some q => mpub <$> qmsgs q | None => [] end.

Definition Bindings (ex name : string) (b : Broker) : list string :=
  match exchanges b !! ex with
  | None => []
  | Some e => bkey <$> List.filter (fun bd => bool_decide (bqueue bd = name)) (ebindings e)
  end.

Definition ExchangeKind (name : string) (b : Broker) : string := match exchanges b !! name with Some e => ekind e | None => "" end.

(** ** Faults *)

(** What a confirm policy answers: [Hold] routes the message and withholds the
    answer. *)
Inductive FaultAction := Immediately (a : ConfirmAction) | Hold.

(** The broker with its injected faults: the error dials fail with and how many
    dials there were; per channel what is withheld, each publish with its return
    and its number; and the confirms still to be sent. *)
Record Faulty := {
  broker : Broker; dialFault : option string; dials : Z; held : gmap nat (list (list event * Z)); late : list (nat * Z)
}.

Definition set_broker (b : Broker) (f : Faulty) : Faulty :=
  {| broker := b; dialFault := dialFault f; dials := dials f; held := held f; late := late f |}.

(** [SetDialFault], [Dial] and [DialPeer] *)
Definition SetDialFault (e : option string) (f : Faulty) : Faulty :=
  {| broker := broker f; dialFault := e; dials := dials f; held := held f; late := late f |}.

Definition Faulty_Dial (f : Faulty) : Faulty * (nat + string) :=
  let f := {| broker := broker f; dialFault := dialFault f; dials := dials f + 1; held := held f; late := late f |} in
  match dialFault f with
  | Some e => (f, inr e)
  | None => let '(b, c) := Dial (broker f) in (set_broker b f, inl c)
  end.

Definition DialPeer (f : Faulty) : Faulty * nat := let '(b, c) := Dial (broker f) in (set_broker b f, c).

(** [PublishWithContext] of a broker with faults, [delay] being what the confirm
    delay says of this publish. *)
Definition Faulty_Publish (ch : nat) (ex key : string) (mandatory : bool) (action : FaultAction) (delay : Z) (p : Publishing)
    (f : Faulty) : Faulty * option amqp_error :=
  match channels (broker f) !! ch with
  | None => (f, Some AErrClosed)
  | Some c =>
      if chclosed c then (f, Some AErrClosed)
      else
        let tag := if chconfirm c then chpublishSeq c + 1 else 0 in
        let b := if chconfirm c then upd_channel ch bump_seq (broker f) else broker f in
        match exchanges b !! ex with
        | None => (set_broker (shutdown_channel ch b) f, None)
        | Some _ =>
            match action with
            | Immediately PolicyNack => (set_broker (emit ch (if chconfirm c then [EConfirm tag false] else []) b) f, None)
            | Immediately PolicyDrop => (set_broker b f, None)
            | Immediately PolicyAck | Hold =>
                let '(b, routed) := route ex key p b in
                let ret := if negb routed && mandatory then [EReturn ex key (PMessageId p)] else [] in
                match action with
                | Hold => ({| broker := b; dialFault := dialFault f; dials := dials f;
                              held := <[ch := default [] (held f !! ch) ++ [(ret, tag)]]> (held f); late := late f |}, None)
                | Immediately _ =>
                    if chconfirm c && (0 <? delay)
                    then ({| broker := emit ch ret b; dialFault := dialFault f; dials := dials f; held := held f;
                             late := late f ++ [(ch, tag)] |}, None)
                    else (set_broker (emit ch (ret ++ if chconfirm c then [EConfirm tag true] else []) b) f, None)
                end
            end
        end
  end.

(** The timer of a delayed confirm. *)
Definition late_confirm (ch : nat) (tag : Z) (f : Faulty) : Faulty :=
  if Channel_IsClosed ch (broker f) then f else set_broker (emit ch [EConfirm tag true] (broker f)) f.

(** [ReleaseHeld]: a closed channel has forgotten what it withheld; whether the
    publish is confirmed is asked of the channel now. *)
Definition released_events (c : channel) (h : list event * Z) : list event :=
  fst h ++ if chconfirm c then [EConfirm (snd h) true] else [].

Definition release_one (bn : Broker * Z) (x : nat * list (list event * Z)) : Broker * Z :=
  let '(b, n) := bn in
  match channels b !! fst x with
  | None => (b, n)
  | Some c => if chclosed c then (b, n)
              else (emit (fst x) (snd x ≫= released_events c) b, n + Z.of_nat (length (snd x)))
  end.

Definition ReleaseHeld (f : Faulty) : Faulty * Z :=
  let '(b, n) := fold_left release_one (map_to_list (held f)) (broker f, 0) in
  ({| broker := b; dialFault := dialFault f; dials := dials f; held := ∅; late := late f |}, n).

(** ** How they relate to the operations of [Broker] *)

(** Without an injected fault a publish is the broker's. *)
Lemma Faulty_Publish_plain ch ex key mandatory a delay p f :
  delay <= 0 ->
  Faulty_Publish ch ex key mandatory (Immediately a) delay p f =
  let '(b, e) := PublishWithContext ch ex key mandatory a p (broker f) in (set_broker b f, e).
Proof.
  intros Hd. assert ((0 <? delay) = false) as Hf by (apply Z.ltb_ge; lia).
  unfold Faulty_Publish, PublishWithContext, on_open. destruct (channels (broker f) !! ch) as [c|]; [|by destruct f].
  destruct (chclosed c); [by destruct f|]. destruct (exchanges _ !! ex); [|done]. destruct a; try done.
  destruct (route ex key p _) as [b routed]. by rewrite Hf, andb_false_r.
Qed.

(** Settling one tag is settling it alone, its queue being the one visited. *)
Lemma settle_tags_one ch kind tag b :
  settle ch kind tag b =
  settle_tags ch kind tag false (option_list (channels b !! ch ≫= fun c => ifq <$> chunacked c !! tag)) b.
Proof.
  unfold settle, settle_tags, on_open. destruct (channels b !! ch) as [c|] eqn:E; [|done]. destruct (chclosed c); [done|].
  unfold named_tags. destruct (chunacked c !! tag) as [i|] eqn:Ei; simpl; [|done].
  unfold settle_one. rewrite E. simpl. rewrite Ei. by destruct kind.
Qed.
