(* ===== verification/BrokerStore.v ===== *)
(** * BrokerStore: what the broker promises of a message

    The in-memory broker refines a store of messages: a message that was routed
    to a queue stays in it, waiting there or handed to a consumer that has not
    settled it, until it is acknowledged, discarded or expires; nothing is held
    twice, nothing comes back. Queues, channels and consumers come and go
    meanwhile; every operation of the broker is a step of the store. *)
From S2P Require Import Prelude GoStrings Topic Headers Broker BrokerOps.
From Stdlib Require Import Permutation.

Local Open Scope Z_scope.

(** ** The store *)

(** A message held for a queue. *)
Record entry := { equeue : nat; eptr : nat; epub : Publishing; eexchange : string; ekey : string }.

Definition entry_of (qp : nat) (m : message) : entry :=
  {| equeue := qp; eptr := mptr m; epub := mpub m; eexchange := mexchange m; ekey := mkey m |}.

Definition in_hand (i : inflight) : entry := entry_of (ifq i) (ifmsg i).

(** The messages waiting in a queue, and those handed out on an open channel. *)
Definition queue_entries (x : nat * queue) : list entry := entry_of (fst x) <$> qmsgs (snd x).

Definition channel_entries (x : nat * channel) : list entry :=
  if chclosed (snd x) then [] else (fun ti => in_hand (snd ti)) <$> map_to_list (chunacked (snd x)).

Definition waiting (b : Broker) : list entry := map_to_list (qheap b) ≫= queue_entries.
Definition unsettled (b : Broker) : list entry := map_to_list (channels b) ≫= channel_entries.

(** Everything the broker holds. *)
Definition ledger (b : Broker) : list entry := waiting b ++ unsettled b.

(** The message was delivered to a consumer of its queue that does not
    acknowledge. *)
Definition handed (b : Broker) (e : entry) : Prop :=
  exists cp x m tag, consumers b !! cp = Some x /\ cautoAck x = true /\ cq x = equeue e /\
    entry_of (equeue e) m = e /\ delivery_of tag m ∈ cout x.

(** A message is out of the broker's care once its queue is deleted, or it was
    handed to a consumer that does not acknowledge. *)
Definition excused (b : Broker) (e : entry) : Prop :=
  (exists q, qheap b !! equeue e = Some q /\ qdeleted q = true) \/ handed b e.

(** From [b] to [b'] the entries [out] left and [inn] came; others left only when
    they were excused. *)
Definition moves (b b' : Broker) (out inn : list entry) : Prop :=
  exists lost, ledger b' ++ lost ++ out ≡ₚ ledger b ++ inn /\ Forall (excused b') lost.

(** ** Lists of a map *)

Lemma alter_at {A} (g : A -> A) k (m : gmap nat A) x : m !! k = Some x -> alter g k m = <[k := g x]> m.
Proof.
  intros Hk. apply map_eq. intros j. destruct (decide (k = j)) as [->|Hne].
  - by rewrite lookup_alter_eq, lookup_insert_eq, Hk.
  - by rewrite lookup_alter_ne, lookup_insert_ne.
Qed.

Section focus.
Context {A : Type} (f : nat * A -> list entry).

Lemma bind_focus (m : gmap nat A) k x :
  m !! k = Some x ->
  exists rest, map_to_list m ≫= f ≡ₚ f (k, x) ++ rest /\ forall x', map_to_list (<[k := x']> m) ≫= f ≡ₚ f (k, x') ++ rest.
Proof.
  intros Hk. exists (map_to_list (delete k m) ≫= f). split.
  - rewrite <-(map_to_list_delete m k x Hk). done.
  - intros x'. rewrite <-insert_delete_eq. rewrite map_to_list_insert; [done|]. apply lookup_delete_eq.
Qed.

Lemma bind_insert (m : gmap nat A) k x : m !! k = None -> map_to_list (<[k := x]> m) ≫= f ≡ₚ f (k, x) ++ (map_to_list m ≫= f).
Proof. intros Hk. by rewrite map_to_list_insert. Qed.

Lemma bind_alter (m : gmap nat A) k g : (forall x, f (k, g x) = f (k, x)) -> map_to_list (alter g k m) ≫= f ≡ₚ map_to_list m ≫= f.
Proof.
  intros Hg. destruct (m !! k) as [x|] eqn:E.
  - destruct (bind_focus m k x E) as (rest & H1 & H2). rewrite H1. rewrite <-(Hg x). rewrite <-H2.
    by rewrite (alter_at g k m x E).
  - by rewrite alter_id'.
Qed.
End focus.

(** ** Handing messages out *)

(** What dispatching changes of a queue, a channel and a consumer. *)
Definition same_queue (q q' : queue) : Prop := exists l rr, q' = with_rr l rr q.

Definition tagged (c : channel) : Prop := forall t i, chunacked c !! t = Some i -> (t <= chnextTag c)%nat.

Record same_channel (c c' : channel) : Prop := {
  sc_closed : chclosed c' = chclosed c;
  sc_conn : chconn c' = chconn c;
  sc_consumers : chconsumers c' = chconsumers c;
  sc_next : (chnextTag c <= chnextTag c')%nat;
  sc_old : forall t, (t <= chnextTag c)%nat -> chunacked c' !! t = chunacked c !! t;
  sc_tagged : tagged c -> tagged c'
}.

Record same_consumer (x x' : consumer) : Prop := {
  sx_tag : ctag x' = ctag x; sx_ch : cch x' = cch x; sx_q : cq x' = cq x; sx_auto : cautoAck x' = cautoAck x;
  sx_out : cout x ⊆ cout x'
}.

(** A change that only hands out messages. *)
Record quiet (b b' : Broker) : Prop := {
  qt_queue : forall p, option_Forall2 same_queue (qheap b !! p) (qheap b' !! p);
  qt_channel : forall p, option_Forall2 same_channel (channels b !! p) (channels b' !! p);
  qt_consumer : forall p, option_Forall2 same_consumer (consumers b !! p) (consumers b' !! p);
  qt_names : queues b' = queues b;
  qt_exchanges : exchanges b' = exchanges b;
  qt_conns : conns b' = conns b;
  qt_next : (next_ptr b <= next_ptr b')%nat
}.

#[export] Instance same_queue_preorder : PreOrder same_queue.
Proof.
  split.
  - intros q. exists (qmsgs q), (qrr q). by destruct q.
  - intros q q1 q2 (l & rr & ->) (l' & rr' & ->). by exists l', rr'.
Qed.

#[export] Instance same_channel_preorder : PreOrder same_channel.
Proof.
  split; [by split|]. intros c c1 c2 [] []. split; try congruence; [lia| |auto].
  intros t Ht. rewrite sc_old1 by lia. auto.
Qed.

#[export] Instance same_consumer_preorder : PreOrder same_consumer.
Proof. split; [by split|]. intros x x1 x2 [] []. split; try congruence. by etrans. Qed.

#[export] Instance quiet_preorder : PreOrder quiet.
Proof.
  split; [by split|]. intros b b1 b2 [Q1 C1 X1 N1 E1 K1 P1] [Q2 C2 X2 N2 E2 K2 P2].
  split; try congruence; try lia; intros p; etrans; eauto.
Qed.

(** Looking at one place of quietly related brokers. *)
Lemma quiet_queue b b' p q : quiet b b' -> qheap b !! p = Some q -> exists q', qheap b' !! p = Some q' /\ same_queue q q'.
Proof. intros H Hq. pose proof (qt_queue _ _ H p) as HF. rewrite Hq in HF. inversion HF. eauto. Qed.

Lemma quiet_queue_back b b' p q' : quiet b b' -> qheap b' !! p = Some q' -> exists q, qheap b !! p = Some q /\ same_queue q q'.
Proof. intros H Hq. pose proof (qt_queue _ _ H p) as HF. rewrite Hq in HF. inversion HF. eauto. Qed.

Lemma quiet_channel b b' p c : quiet b b' -> channels b !! p = Some c -> exists c', channels b' !! p = Some c' /\ same_channel c c'.
Proof. intros H Hq. pose proof (qt_channel _ _ H p) as HF. rewrite Hq in HF. inversion HF. eauto. Qed.

Lemma quiet_channel_back b b' p c' : quiet b b' -> channels b' !! p = Some c' -> exists c, channels b !! p = Some c /\ same_channel c c'.
Proof. intros H Hq. pose proof (qt_channel _ _ H p) as HF. rewrite Hq in HF. inversion HF. eauto. Qed.

Lemma quiet_consumer b b' p x : quiet b b' -> consumers b !! p = Some x -> exists x', consumers b' !! p = Some x' /\ same_consumer x x'.
Proof. intros H Hq. pose proof (qt_consumer _ _ H p) as HF. rewrite Hq in HF. inversion HF. eauto. Qed.

Lemma quiet_consumer_back b b' p x' : quiet b b' -> consumers b' !! p = Some x' -> exists x, consumers b !! p = Some x /\ same_consumer x x'.
Proof. intros H Hq. pose proof (qt_consumer _ _ H p) as HF. rewrite Hq in HF. inversion HF. eauto. Qed.

(** Replacing one value at a key. *)
Lemma Forall2_insert {A} (R : A -> A -> Prop) `{!Reflexive R} (m : gmap nat A) k x x' :
  m !! k = Some x -> R x x' -> forall p, option_Forall2 R (m !! p) (<[k := x']> m !! p).
Proof.
  intros Hk HR p. destruct (decide (k = p)) as [->|Hne].
  - rewrite lookup_insert_eq, Hk. by constructor.
  - rewrite lookup_insert_ne by done. reflexivity.
Qed.

Lemma quiet_set_queue b qp q l rr :
  qheap b !! qp = Some q -> quiet b (set_qheap (<[qp := with_rr l rr q]> (qheap b)) b).
Proof. intros Hq. split; simpl; try done. apply (Forall2_insert same_queue _ _ _ _ Hq). by exists l, rr. Qed.

Lemma quiet_deliver cp qp m b : quiet b (deliver cp qp m b).
Proof.
  unfold deliver. destruct (consumers b !! cp) as [c|] eqn:Ec; [|reflexivity].
  destruct (channels b !! cch c) as [ch|] eqn:Eh; [|reflexivity]. split; simpl; try done.
  - eapply Forall2_insert; [apply _|exact Eh|]. split; simpl; try done; [lia| |].
    + intros t Ht. destruct (cautoAck c); [done|]. rewrite lookup_insert_ne by lia. done.
    + intros HT t i. destruct (cautoAck c); simpl.
      * intros Hi. specialize (HT t i Hi). lia.
      * intros [[<- _]|[_ Hi]]%lookup_insert_Some; [lia|]. specialize (HT t i Hi). lia.
  - eapply Forall2_insert; [apply _|exact Ec|]. split; simpl; try done. intros d Hd. apply elem_of_app. by left.
Qed.

Lemma quiet_dispatch_fuel fuel qp b : quiet b (dispatch_fuel fuel qp b).
Proof.
  revert b. induction fuel as [|fuel IH]; intros b; simpl; [reflexivity|].
  destruct (qheap b !! qp) as [q|] eqn:Eq; [|reflexivity]. destruct (pick b q) as [[i c]|]; [|reflexivity].
  destruct (qmsgs q !! next q) as [m|]; [|reflexivity].
  etrans; [|apply IH]. etrans; [|apply quiet_deliver]. by apply quiet_set_queue.
Qed.

Lemma quiet_dispatch qp b : quiet b (dispatch qp b).
Proof. unfold dispatch. destruct (qheap b !! qp); [apply quiet_dispatch_fuel|reflexivity]. Qed.

Lemma quiet_enqueue qp m front b : quiet b (enqueue qp m front b).
Proof.
  unfold enqueue. destruct (qheap b !! qp) as [q|] eqn:Eq; [|reflexivity]. destruct (qdeleted q); [reflexivity|].
  etrans; [|apply quiet_dispatch]. by apply (quiet_set_queue b qp q _ (qrr q)).
Qed.

Lemma quiet_alloc b : quiet b (alloc b).2.
Proof. split; simpl; try done; try lia; intros p; reflexivity. Qed.

Lemma quiet_fold {X} (f : Broker -> X -> Broker) l b : (forall b x, quiet b (f b x)) -> quiet b (fold_left f l b).
Proof. intros Hf. revert b. induction l as [|x l IH]; intros b; simpl; [reflexivity|]. etrans; [apply Hf|apply IH]. Qed.

Lemma quiet_route ex key p b : quiet b (route ex key p b).1.
Proof.
  apply quiet_fold. intros b' q. unfold enqueue_new. simpl. etrans; [apply quiet_alloc|apply quiet_enqueue].
Qed.

Lemma quiet_deadLetter q m b : quiet b (deadLetter q m b).
Proof. unfold deadLetter. destruct (qdlx q); [|reflexivity]. destruct (exchanges b !! _); [apply quiet_route|reflexivity]. Qed.

(** ** The broker's invariant *)

(** The consumers of a queue are on open channels that know them, but for [R],
    which are being removed from a closed one. *)
Definition attached (R : list nat) (b : Broker) : Prop :=
  forall qp q cp, qheap b !! qp = Some q -> cp ∈ qconsumers q ->
    exists x c, consumers b !! cp = Some x /\ cq x = qp /\ channels b !! cch x = Some c /\
      (chclosed c = false /\ chconsumers c !! ctag x = Some cp \/ chclosed c = true /\ cp ∈ R).

(** A consumer a channel knows is its own; delivery tags are issued in order;
    named queues exist; pointers are allocated once. *)
Record inv (R : list nat) (b : Broker) : Prop := {
  inv_attached : attached R b;
  inv_registered : forall ch c t cp, channels b !! ch = Some c -> chconsumers c !! t = Some cp ->
    exists x, consumers b !! cp = Some x /\ ctag x = t /\ cch x = ch;
  inv_tagged : forall ch c, channels b !! ch = Some c -> tagged c;
  inv_named : forall n p, queues b !! n = Some p -> is_Some (qheap b !! p);
  inv_queues : forall p q, qheap b !! p = Some q -> (p < next_ptr b)%nat;
  inv_channels : forall p c, channels b !! p = Some c -> (p < next_ptr b)%nat;
  inv_consumers : forall p x, consumers b !! p = Some x -> (p < next_ptr b)%nat
}.

Lemma inv_quiet R b b' : quiet b b' -> inv R b -> inv R b'.
Proof.
  intros H [A G T N Pq Pc Px]. pose proof (qt_next _ _ H) as Hle. split.
  - intros qp q' cp Hq Hcp. destruct (quiet_queue_back _ _ _ _ H Hq) as (q & Hq0 & l & rr & ->).
    destruct (A qp q cp Hq0 Hcp) as (x & c & Hx & Hxq & Hc & Hcase).
    destruct (quiet_consumer _ _ _ _ H Hx) as (x' & Hx' & [S1 S2 S3 _ _]).
    destruct (quiet_channel _ _ _ _ H Hc) as (c' & Hc' & [S5 _ S6 _ _ _]).
    exists x', c'. rewrite S1, S2, S3, S5, S6. done.
  - intros ch c' t cp Hc Ht. destruct (quiet_channel_back _ _ _ _ H Hc) as (c & Hc0 & [_ _ S6 _ _ _]). rewrite S6 in Ht.
    destruct (G ch c t cp Hc0 Ht) as (x & Hx & <- & <-). destruct (quiet_consumer _ _ _ _ H Hx) as (x' & Hx' & []). eauto.
  - intros ch c' Hc. destruct (quiet_channel_back _ _ _ _ H Hc) as (c & Hc0 & S). eapply sc_tagged; eauto.
  - intros n p. rewrite (qt_names _ _ H). intros [q Hq]%N. destruct (quiet_queue _ _ _ _ H Hq) as (q' & Hq' & _). eauto.
  - intros p q' Hq. destruct (quiet_queue_back _ _ _ _ H Hq) as (q & Hq0%Pq & _). lia.
  - intros p c' Hc. destruct (quiet_channel_back _ _ _ _ H Hc) as (c & Hc0%Pc & _). lia.
  - intros p x' Hx. destruct (quiet_consumer_back _ _ _ _ H Hx) as (x & Hx0%Px & _). lia.
Qed.

(** ** Moves *)

(** Queues are never forgotten, nor their excuses; pointers are not reused. *)
Record lasts (b b' : Broker) : Prop := {
  lasts_excused : forall e, excused b e -> excused b' e;
  lasts_queue : forall qp, is_Some (qheap b !! qp) -> is_Some (qheap b' !! qp);
  lasts_next : (next_ptr b <= next_ptr b')%nat
}.

#[export] Instance lasts_preorder : PreOrder lasts.
Proof. split; [by split|]. intros b b1 b2 [] []. split; [auto|auto|lia]. Qed.

Lemma lasts_quiet b b' : quiet b b' -> lasts b b'.
Proof.
  intros H. split; [|intros qp [q Hq]; destruct (quiet_queue _ _ _ _ H Hq) as (q' & ? & _); eauto|apply H].
  intros e [(q & Hq & Hd)|(cp & x & m & tag & Hx & Ha & Hxq & Hm & Ho)].
  - destruct (quiet_queue _ _ _ _ H Hq) as (q' & Hq' & l & rr & ->). left. eauto.
  - destruct (quiet_consumer _ _ _ _ H Hx) as (x' & Hx' & []). right. exists cp, x', m, tag. split_and!; try congruence. auto.
Qed.

Lemma moves_same b b' : ledger b' ≡ₚ ledger b -> moves b b' [] [].
Proof. intros H. exists []. split; [by rewrite H|constructor]. Qed.

Lemma moves_perm b b' o o' i i' : o ≡ₚ o' -> i ≡ₚ i' -> moves b b' o i -> moves b b' o' i'.
Proof. intros Ho Hi (l & P & F). exists l. split; [|done]. by rewrite <-Ho, <-Hi. Qed.

Lemma moves_trans b b1 b2 o1 i1 o2 i2 :
  moves b b1 o1 i1 -> moves b1 b2 o2 i2 -> lasts b1 b2 -> moves b b2 (o1 ++ o2) (i1 ++ i2).
Proof.
  intros (l1 & P1 & F1) (l2 & P2 & F2) HE. exists (l2 ++ l1). split.
  - rewrite !app_assoc, <-P1. transitivity ((ledger b2 ++ l2 ++ o2) ++ l1 ++ o1); [|rewrite P2]; solve_Permutation.
  - apply Forall_app. split; [done|]. eapply Forall_impl; [exact F1|]. intros e. apply HE.
Qed.

(** An entry that leaves and comes back was never gone. *)
Lemma moves_cancel b b' e o i : moves b b' (e :: o) (e :: i) -> moves b b' o i.
Proof.
  intros (l & P & F). exists l. split; [|done]. apply (Permutation_cons_inv (a := e)).
  transitivity (ledger b' ++ l ++ e :: o); [solve_Permutation|]. rewrite P. solve_Permutation.
Qed.

Lemma moves_cancel_all b b' es o i : moves b b' (es ++ o) (es ++ i) -> moves b b' o i.
Proof. induction es as [|e es IH]; [done|]. intros H. by apply IH, (moves_cancel _ _ e). Qed.

(** ** Delivering keeps every message *)

Lemma pick_member b q i c : pick b q = Some (i, c) -> c ∈ qconsumers q.
Proof.
  unfold pick. intros H%head_Some_elem_of. apply list_elem_of_omap in H as (j & _ & Hj).
  destruct (qconsumers q !! _) as [c'|] eqn:E; [|done]. destruct (consumers b !! c'); [|done]. destruct (hasCapacity _); [|done].
  simplify_eq. by eapply list_elem_of_lookup_2.
Qed.

(** The message at an index of a queue leaves it. *)
Lemma take_ledger b qp q k m rr :
  qheap b !! qp = Some q -> qmsgs q !! k = Some m ->
  ledger b ≡ₚ entry_of qp m :: ledger (set_qheap (<[qp := with_rr (delete k (qmsgs q)) rr q]> (qheap b)) b).
Proof.
  intros Hq Hm. destruct (bind_focus queue_entries _ _ _ Hq) as (rest & H1 & H2). unfold ledger, waiting, unsettled. simpl.
  rewrite H1, H2. unfold queue_entries. simpl. rewrite (delete_Permutation _ _ _ Hm) at 1. simpl. done.
Qed.

(** A message joins a queue. *)
Lemma put_ledger b qp q l m m' rr :
  qheap b !! qp = Some q -> l ≡ₚ m' :: qmsgs q -> entry_of qp m' = entry_of qp m ->
  ledger (set_qheap (<[qp := with_rr l rr q]> (qheap b)) b) ≡ₚ entry_of qp m :: ledger b.
Proof.
  intros Hq Hl Hm. destruct (bind_focus queue_entries _ _ _ Hq) as (rest & H1 & H2). unfold ledger, waiting, unsettled. simpl.
  rewrite H1, H2. unfold queue_entries. simpl. rewrite Hl. simpl. by rewrite Hm.
Qed.

(** A delivery to a consumer of an open channel. *)
Lemma deliver_moves cp qp m b x c :
  consumers b !! cp = Some x -> cq x = qp -> channels b !! cch x = Some c -> chclosed c = false -> tagged c ->
  moves b (deliver cp qp m b) [] [entry_of qp m].
Proof.
  intros Hx Hq Hc Hcl HT. unfold deliver. rewrite Hx, Hc.
  destruct (bind_focus channel_entries _ _ _ Hc) as (rest & H1 & H2).
  destruct (cautoAck x) eqn:Ea.
  - exists [entry_of qp m]. split.
    + unfold ledger, waiting, unsettled. simpl. rewrite H1, H2. unfold channel_entries. simpl. rewrite Hcl. done.
    + apply Forall_singleton. right. eexists cp, _, m, (S (chnextTag c)). simpl. rewrite lookup_insert_eq. split_and!; [done..|].
      apply elem_of_app. right. by left.
  - exists []. split; [|constructor]. unfold ledger, waiting, unsettled. simpl. rewrite H1, H2. unfold channel_entries. simpl.
    rewrite Hcl, map_to_list_insert; [simpl; unfold in_hand; simpl; solve_Permutation|].
    destruct (chunacked c !! S (chnextTag c)) as [i|] eqn:Ei; [|done]. specialize (HT _ _ Ei). lia.
Qed.

Lemma dispatch_fuel_moves fuel qp b : inv [] b -> moves b (dispatch_fuel fuel qp b) [] [].
Proof.
  revert b. induction fuel as [|fuel IH]; intros b HI; simpl; [by apply moves_same|].
  destruct (qheap b !! qp) as [q|] eqn:Eq; [|by apply moves_same].
  destruct (pick b q) as [[i cp]|] eqn:Ep; [|by apply moves_same].
  destruct (qmsgs q !! next q) as [m|] eqn:Em; [|by apply moves_same].
  set (b1 := set_qheap _ b).
  assert (quiet b b1) as Q1 by by apply quiet_set_queue.
  destruct (inv_attached _ _ HI qp q cp Eq (pick_member _ _ _ _ Ep)) as (x & c & Hx & Hxq & Hc & [[Hcl _]|[_ []%elem_of_nil]]).
  assert (moves b1 (deliver cp qp (with_timer false m) b1) [] [entry_of qp m]) as M2
    by by apply (deliver_moves cp qp (with_timer false m) b1 x c); [..|eapply inv_tagged].
  assert (moves b b1 [entry_of qp m] []) as M1.
  { exists []. split; [|constructor]. pose proof (take_ledger b qp q (next q) m ((qrr q + i + 1) mod length (qconsumers q))%nat Eq Em) as HL.
    fold b1 in HL. rewrite HL. solve_Permutation. }
  pose proof (quiet_deliver cp qp (with_timer false m) b1) as Q2.
  eapply (moves_trans _ _ _ [] [] [] []); [| |apply lasts_quiet, quiet_dispatch_fuel].
  - apply (moves_cancel _ _ (entry_of qp m)). exact (moves_trans _ _ _ _ _ _ _ M1 M2 (lasts_quiet _ _ Q2)).
  - apply IH. eapply inv_quiet; [|exact HI]. by etrans.
Qed.

Lemma dispatch_moves qp b : inv [] b -> moves b (dispatch qp b) [] [].
Proof. intros HI. unfold dispatch. destruct (qheap b !! qp); [by apply dispatch_fuel_moves|by apply moves_same]. Qed.

Lemma enqueue_moves qp m front b :
  inv [] b -> is_Some (qheap b !! qp) -> moves b (enqueue qp m front b) [] [entry_of qp m].
Proof.
  intros HI [q Eq]. unfold enqueue. rewrite Eq. destruct (qdeleted q) eqn:Ed.
  { exists [entry_of qp m]. split; [by rewrite app_nil_r|]. apply Forall_singleton. left. eauto. }
  set (m' := if 0 <? qttl q then with_timer true m else m). set (l := if front then m' :: qmsgs q else qmsgs q ++ [m']).
  set (b1 := set_qheap _ b).
  assert (quiet b b1) as Q1 by by apply (quiet_set_queue b qp q l (qrr q)).
  apply (moves_trans _ b1 _ [] [entry_of qp m] [] []); [|by eapply dispatch_moves, inv_quiet|apply lasts_quiet, quiet_dispatch].
  exists []. split; [|constructor]. rewrite !app_nil_r. transitivity (entry_of qp m :: ledger b); [apply (put_ledger b qp q l m m' (qrr q) Eq)|solve_Permutation].
  - subst l. destruct front; [done|]. symmetry. apply Permutation_cons_append.
  - subst m'. by destruct (0 <? qttl q).
Qed.

Lemma deliver_next cp qp m b : next_ptr (deliver cp qp m b) = next_ptr b.
Proof. unfold deliver. by repeat case_match. Qed.

Lemma dispatch_next qp b : next_ptr (dispatch qp b) = next_ptr b.
Proof.
  unfold dispatch. destruct (qheap b !! qp) as [q|]; [|done]. generalize (length (qmsgs q)) as n. clear q.
  intros n. revert b. induction n as [|n IH]; intros b; simpl; [done|]. repeat case_match; try done.
  by rewrite IH, deliver_next.
Qed.

Lemma enqueue_next qp m front b : next_ptr (enqueue qp m front b) = next_ptr b.
Proof. unfold enqueue. repeat case_match; try done; by rewrite dispatch_next. Qed.

(** ** Routing stores one message per queue *)

(** The messages a publish creates for the queues [ts], from pointer [n] on. *)
Fixpoint new_entries (ex key : string) (p : Publishing) (n : nat) (ts : list nat) : list entry :=
  match ts with
  | [] => []
  | qp :: ts' => {| equeue := qp; eptr := n; epub := p; eexchange := ex; ekey := key |} :: new_entries ex key p (S n) ts'
  end.

Lemma enqueue_new_next ex key p b q : next_ptr (enqueue_new ex key p b q) = S (next_ptr b).
Proof. unfold enqueue_new. simpl. by rewrite enqueue_next. Qed.

Lemma alloc_moves b : moves b (alloc b).2 [] [].
Proof. by apply moves_same. Qed.

Lemma enqueue_new_moves ex key p b q :
  inv [] b -> is_Some (qheap b !! q) -> moves b (enqueue_new ex key p b q) [] (new_entries ex key p (next_ptr b) [q]).
Proof.
  intros HI Hq. unfold enqueue_new. simpl. pose proof (quiet_alloc b) as Q.
  apply (moves_trans _ (alloc b).2 _ [] [] [] [_]); [apply alloc_moves| |apply lasts_quiet, quiet_enqueue].
  by apply enqueue_moves; [eapply inv_quiet|].
Qed.

Lemma quiet_enqueue_new ex key p b q : quiet b (enqueue_new ex key p b q).
Proof. unfold enqueue_new. simpl. etrans; [apply quiet_alloc|apply quiet_enqueue]. Qed.

Lemma fold_new_moves ex key p ts b :
  inv [] b -> Forall (fun q => is_Some (qheap b !! q)) ts ->
  moves b (fold_left (enqueue_new ex key p) ts b) [] (new_entries ex key p (next_ptr b) ts) /\
  next_ptr (fold_left (enqueue_new ex key p) ts b) = (next_ptr b + length ts)%nat.
Proof.
  revert b. induction ts as [|q ts IH]; intros b HI HF; simpl; [split; [by apply moves_same|lia]|].
  inversion_clear HF as [|? ? Hq HF']. pose proof (quiet_enqueue_new ex key p b q) as Q.
  destruct (IH (enqueue_new ex key p b q)) as [M N].
  - by eapply inv_quiet.
  - eapply Forall_impl; [exact HF'|]. intros x [y Hy]. destruct (quiet_queue _ _ _ _ Q Hy) as (y' & ? & _). eauto.
  - rewrite enqueue_new_next in M, N. split; [|lia].
    eapply (moves_trans _ _ _ [] (new_entries ex key p (next_ptr b) [q]) [] _); [by apply enqueue_new_moves|exact M|].
    apply lasts_quiet, quiet_fold. intros. apply quiet_enqueue_new.
Qed.

Lemma hits_queues b kind key bds seen q : q ∈ hits b kind key bds seen -> q ∈ seen \/ exists n, queues b !! n = Some q.
Proof.
  revert seen. induction bds as [|bd bds IH]; intros seen; simpl; [by left|].
  destruct (queues b !! bqueue bd) as [p|] eqn:E; [|apply IH]. destruct (_ && _); [|apply IH].
  intros [[?| ->%list_elem_of_singleton]%elem_of_app|?]%IH; eauto.
Qed.

Lemma targets_queues b ex key q : q ∈ targets b ex key -> exists n, queues b !! n = Some q.
Proof.
  unfold targets. destruct (decide (ex = "")) as [->|Hne].
  - destruct (queues b !! key) as [p|] eqn:E; simpl; [intros ->%list_elem_of_singleton; eauto|intros []%elem_of_nil].
  - destruct (exchanges b !! ex); [intros [[]%elem_of_nil|?]%hits_queues; eauto|intros []%elem_of_nil].
Qed.

Lemma route_moves ex key p b :
  inv [] b ->
  moves b (route ex key p b).1 [] (new_entries ex key p (next_ptr b) (targets b ex key)) /\
  next_ptr (route ex key p b).1 = (next_ptr b + length (targets b ex key))%nat.
Proof.
  intros HI. apply fold_new_moves; [done|]. apply Forall_forall. intros q [n Hn]%targets_queues. by eapply inv_named.
Qed.

(** ** Removing consumers, queues and channels *)

(** What leaving does to a channel and a queue. *)
Record shrunk (c c' : channel) : Prop := {
  sh_closed : chclosed c' = chclosed c;
  sh_conn : chconn c' = chconn c;
  sh_unacked : chunacked c' = chunacked c;
  sh_next : chnextTag c' = chnextTag c;
  sh_consumers : chconsumers c' ⊆ chconsumers c
}.

Record wilted (q q' : queue) : Prop := {
  wi_deleted : qdeleted q = true -> qdeleted q' = true;
  wi_consumers : qconsumers q' ⊆ qconsumers q
}.

#[export] Instance shrunk_preorder : PreOrder shrunk.
Proof. split; [by split|]. intros c c1 c2 [] []. split; try congruence. by etrans. Qed.

#[export] Instance wilted_preorder : PreOrder wilted.
Proof. split; [by split|]. intros c c1 c2 [] []. split; [auto|]. by etrans. Qed.

Record fades (b b' : Broker) : Prop := {
  fd_queue : forall p, option_Forall2 wilted (qheap b !! p) (qheap b' !! p);
  fd_channel : forall p, option_Forall2 shrunk (channels b !! p) (channels b' !! p);
  fd_consumers : consumers b' = consumers b;
  fd_names : forall n p, queues b' !! n = Some p -> queues b !! n = Some p;
  fd_next : next_ptr b' = next_ptr b;
  fd_conns : conns b' = conns b;
  fd_moves : moves b b' [] []
}.

Lemma fades_queue b b' p q : fades b b' -> qheap b !! p = Some q -> exists q', qheap b' !! p = Some q' /\ wilted q q'.
Proof. intros H Hq. pose proof (fd_queue _ _ H p) as HF. rewrite Hq in HF. inversion HF. eauto. Qed.

Lemma fades_queue_back b b' p q' : fades b b' -> qheap b' !! p = Some q' -> exists q, qheap b !! p = Some q /\ wilted q q'.
Proof. intros H Hq. pose proof (fd_queue _ _ H p) as HF. rewrite Hq in HF. inversion HF. eauto. Qed.

Lemma fades_channel b b' p c : fades b b' -> channels b !! p = Some c -> exists c', channels b' !! p = Some c' /\ shrunk c c'.
Proof. intros H Hq. pose proof (fd_channel _ _ H p) as HF. rewrite Hq in HF. inversion HF. eauto. Qed.

Lemma fades_channel_back b b' p c' : fades b b' -> channels b' !! p = Some c' -> exists c, channels b !! p = Some c /\ shrunk c c'.
Proof. intros H Hq. pose proof (fd_channel _ _ H p) as HF. rewrite Hq in HF. inversion HF. eauto. Qed.

Lemma lasts_fades b b' : fades b b' -> lasts b b'.
Proof.
  intros H. split.
  - intros e [(q & Hq & Hd)|(cp & x & ?)].
    + destruct (fades_queue _ _ _ _ H Hq) as (q' & Hq' & []). left. eauto.
    + right. exists cp, x. by rewrite (fd_consumers _ _ H).
  - intros qp [q Hq]. destruct (fades_queue _ _ _ _ H Hq) as (q' & ? & _). eauto.
  - rewrite (fd_next _ _ H). lia.
Qed.

#[export] Instance fades_preorder : PreOrder fades.
Proof.
  split; [intros b; split; try done; by apply moves_same|].
  intros b b1 b2 H1 H2. pose proof (lasts_fades _ _ H2) as HL. destruct H1 as [Q1 C1 X1 N1 P1 K1 M1], H2 as [Q2 C2 X2 N2 P2 K2 M2].
  split; try congruence; eauto; try (intros p; etrans; eauto). exact (moves_trans _ _ _ [] [] [] [] M1 M2 HL).
Qed.

Lemma inv_fades R R' b b' : fades b b' -> attached R b' -> inv R' b -> inv R b'.
Proof.
  intros H HA [_ G T N Pq Pc Px]. split; [exact HA|..]; rewrite ?(fd_next _ _ H), ?(fd_consumers _ _ H).
  - intros ch c' t cp Hc Ht. destruct (fades_channel_back _ _ _ _ H Hc) as (c & Hc0 & []).
    eapply G; [exact Hc0|]. by eapply lookup_weaken.
  - intros ch c' Hc t i. destruct (fades_channel_back _ _ _ _ H Hc) as (c & Hc0 & []). rewrite sh_unacked0, sh_next0. exact (T ch c Hc0 t i).
  - intros n p Hn%(fd_names _ _ H). destruct (N n p Hn) as [q Hq]. destruct (fades_queue _ _ _ _ H Hq) as (q' & ? & _). eauto.
  - intros p q' Hq. destruct (fades_queue_back _ _ _ _ H Hq) as (q & Hq0 & _). eauto.
  - intros p c' Hc. destruct (fades_channel_back _ _ _ _ H Hc) as (c & Hc0 & _). eauto.
  - done.
Qed.

(** A consumer can leave when its tag names nobody else on an open channel. *)
Definition detachable (b : Broker) (cp : nat) : Prop :=
  forall x c, consumers b !! cp = Some x -> channels b !! cch x = Some c ->
    chclosed c = true \/ forall cp', chconsumers c !! ctag x = Some cp' -> cp' = cp.

Lemma detachable_fades b b' cp : fades b b' -> detachable b cp -> detachable b' cp.
Proof.
  intros H HD x c' Hx Hc. rewrite (fd_consumers _ _ H) in Hx. destruct (fades_channel_back _ _ _ _ H Hc) as (c & Hc0 & []).
  destruct (HD x c Hx Hc0) as [Hcl|Hu]; [left; congruence|right]. intros cp' Hcp. apply Hu. by eapply lookup_weaken.
Qed.

Lemma Forall2_alter {A} (S : A -> A -> Prop) `{!Reflexive S} (g : A -> A) (m : gmap nat A) k :
  (forall x, S x (g x)) -> forall p, option_Forall2 S (m !! p) (alter g k m !! p).
Proof.
  intros HS p. destruct (decide (k = p)) as [->|Hne].
  - rewrite lookup_alter_eq. destruct (m !! p); constructor. apply HS.
  - rewrite lookup_alter_ne by done. reflexivity.
Qed.

Lemma fades_detach cp b : fades b (detach cp b).
Proof.
  unfold detach. destruct (consumers b !! cp) as [x|] eqn:Ex; [|reflexivity]. split; simpl; try done.
  - apply Forall2_alter; [apply _|]. intros q. split; simpl; [done|]. intros y. rewrite !list_elem_of_In, List.filter_In. tauto.
  - apply Forall2_alter; [apply _|]. intros c. split; simpl; try done. apply delete_subseteq.
  - apply moves_same. unfold ledger, waiting, unsettled. simpl. by rewrite !bind_alter.
Qed.

Lemma detach_attached R R' cp b :
  attached R b -> detachable b cp -> (forall y, y ∈ R -> y = cp \/ y ∈ R') -> attached R' (detach cp b).
Proof.
  intros HA HD HR qp q' y Hq Hy. pose proof (fades_detach cp b) as F.
  destruct (fades_queue_back _ _ _ _ F Hq) as (q & Hq0 & [_ Hsub]).
  destruct (HA qp q y Hq0 (Hsub _ Hy)) as (x & c & Hx & Hxq & Hc & Hcase).
  assert (y <> cp) as Hne.
  { intros ->. revert Hq Hy. unfold detach. rewrite Hx. simpl. rewrite Hxq, lookup_alter_eq, Hq0. simpl. intros [= <-]. simpl.
    rewrite list_elem_of_In, List.filter_In, Nat.eqb_refl. by intros [_ ?]. }
  destruct (fades_channel _ _ _ _ F Hc) as (c' & Hc' & HS). exists x, c'. rewrite (fd_consumers _ _ F).
  split_and!; [done|done|done|]. rewrite (sh_closed _ _ HS). destruct Hcase as [[Hcl Ht]|[Hcl Hin]].
  - left. split; [done|]. revert Hc'. unfold detach. destruct (consumers b !! cp) as [z|] eqn:Ez; [|congruence]. simpl.
    destruct (decide (cch z = cch x)) as [Heq|Hn]; [|rewrite lookup_alter_ne by done; congruence].
    rewrite Heq, lookup_alter_eq, Hc. simpl. intros [= <-]. simpl. rewrite lookup_delete_ne; [done|]. intros Htag.
    rewrite <-Heq in Hc. destruct (HD z c Ez Hc) as [?|Hu]; [congruence|]. rewrite Htag in Hu. by apply Hne, Hu.
  - right. split; [done|]. destruct (HR y Hin) as [?|?]; done.
Qed.

Lemma detach_inv R R' cp b : inv R b -> detachable b cp -> (forall y, y ∈ R -> y = cp \/ y ∈ R') -> inv R' (detach cp b).
Proof.
  intros HI HD HR. eapply inv_fades; [apply fades_detach| |exact HI]. by eapply detach_attached; [apply HI|..].
Qed.

Lemma detach_all_inv R l b : inv R b -> Forall (detachable b) l ->
  inv R (fold_left (fun b c => detach c b) l b) /\ fades b (fold_left (fun b c => detach c b) l b).
Proof.
  revert b. induction l as [|cp l IH]; intros b HI HF; simpl; [by split|]. inversion_clear HF as [|? ? H1 H2].
  pose proof (fades_detach cp b) as F. destruct (IH (detach cp b)) as [HI' F'].
  - eapply detach_inv; eauto.
  - eapply Forall_impl; [exact H2|]. intros y. by apply detachable_fades.
  - split; [done|]. by etrans.
Qed.

Lemma attached_detachable R b qp q cp : attached R b -> qheap b !! qp = Some q -> cp ∈ qconsumers q -> detachable b cp.
Proof.
  intros HA Hq Hcp x c Hx Hc. destruct (HA qp q cp Hq Hcp) as (x' & c' & Hx' & _ & Hc' & Hcase). simplify_eq.
  destruct Hcase as [[_ Ht]|[Hcl _]]; [right|by left]. intros cp' Hcp'. congruence.
Qed.

(** Marking a queue deleted loses what waits in it, which is excused. *)
Lemma fades_mark qp b : fades b (upd_queue qp mark_deleted b).
Proof.
  destruct (qheap b !! qp) as [q|] eqn:Eq.
  - split; simpl; try done.
    + apply Forall2_alter; [apply _|]. intros x. by split.
    + destruct (bind_focus queue_entries _ _ _ Eq) as (rest & H1 & H2). exists (queue_entries (qp, q)). split.
      * unfold ledger, waiting, unsettled, upd_queue. simpl. rewrite (alter_at _ _ _ _ Eq), H1, H2. simpl. rewrite !app_nil_r.
        change (queue_entries (qp, mark_deleted q)) with (@nil entry). solve_Permutation.
      * unfold queue_entries. simpl. apply Forall_fmap, Forall_true. intros m. left. simpl. exists (mark_deleted q).
        by rewrite lookup_alter_eq, Eq.
  - unfold upd_queue. rewrite alter_id' by done. destruct b. reflexivity.
Qed.

Lemma fades_names b m : (forall n p, m !! n = Some p -> queues b !! n = Some p) -> fades b (set_queues m b).
Proof. intros Hm. split; simpl; try done. by apply moves_same. Qed.

Lemma fades_exchanges b m : fades b (set_exchanges m b).
Proof. split; simpl; try done. by apply moves_same. Qed.

Lemma inv_mark R qp b : inv R b -> inv R (upd_queue qp mark_deleted b).
Proof.
  intros HI. pose proof (fades_mark qp b) as F. eapply inv_fades; [exact F| |exact HI].
  intros p q' cp Hq Hcp. destruct (fades_queue_back _ _ _ _ F Hq) as (q & Hq0 & [_ Hs]).
  exact (inv_attached _ _ HI p q cp Hq0 (Hs _ Hcp)).
Qed.

Lemma deleteQueue_fades R qp b : inv R b -> inv R (deleteQueue qp b) /\ fades b (deleteQueue qp b).
Proof.
  intros HI. unfold deleteQueue. destruct (qheap b !! qp) as [q|] eqn:Eq; [|done].
  set (b1 := upd_queue qp mark_deleted b). set (b2 := set_exchanges _ b1).
  assert (inv R b2 /\ fades b b2) as [HI2 F2].
  { split; [|etrans; [apply fades_mark|apply fades_exchanges]].
    eapply inv_fades; [apply fades_exchanges| |by apply inv_mark]. apply (inv_mark R qp b HI). }
  destruct (detach_all_inv R (qconsumers q) b2 HI2) as [HI3 F3].
  { apply Forall_forall. intros cp Hcp. eapply detachable_fades; [exact F2|]. eapply attached_detachable; [apply HI|done|done]. }
  set (b3 := fold_left _ _ b2) in *. set (b4 := set_queues _ b3).
  assert (fades b3 b4) as F4 by (apply fades_names; intros n p; rewrite lookup_delete_Some; tauto).
  split; [|etrans; [exact F2|by etrans]]. eapply inv_fades; [exact F4| |exact HI3]. apply HI3.
Qed.

Lemma removeConsumer_fades R R' cp b :
  inv R b -> detachable b cp -> (forall y, y ∈ R -> y = cp \/ y ∈ R') ->
  inv R' (removeConsumer cp b) /\ fades b (removeConsumer cp b).
Proof.
  intros HI HD HR. unfold removeConsumer. pose proof (detach_inv R R' cp b HI HD HR) as HI1. pose proof (fades_detach cp b) as F1.
  destruct (consumers b !! cp) as [x|] eqn:Ex.
  - destruct (qheap (detach cp b) !! cq x) as [q|]; [|done]. destruct (_ && _); [|done].
    destruct (deleteQueue_fades R' (cq x) _ HI1) as [HI2 F2]. split; [done|]. by etrans.
  - unfold detach in HI1. rewrite Ex in HI1. done.
Qed.

Lemma removeAll_fades l b :
  inv l b -> Forall (detachable b) l ->
  inv [] (fold_left (fun b cp => removeConsumer cp b) l b) /\ fades b (fold_left (fun b cp => removeConsumer cp b) l b).
Proof.
  revert b. induction l as [|cp l IH]; intros b HI HF; simpl; [by split|]. inversion_clear HF as [|? ? H1 H2].
  destruct (removeConsumer_fades (cp :: l) l cp b HI H1) as [HI1 F1]; [by intros y ?%elem_of_cons|].
  destruct (IH _ HI1) as [HI2 F2]; [|by split; [|etrans]].
  eapply Forall_impl; [exact H2|]. intros y. by apply detachable_fades.
Qed.

(** ** Steps *)

(** Every entry belongs to a queue that exists. *)
Definition homed (b : Broker) : Prop := Forall (fun e => is_Some (qheap b !! equeue e)) (ledger b).

Record ok (b : Broker) : Prop := { ok_inv : inv [] b; ok_homed : homed b }.

(** Entries made between [b] and [b']. *)
Definition made (b b' : Broker) (inn : list entry) : Prop :=
  Forall (fun e => (next_ptr b <= eptr e < next_ptr b')%nat /\ is_Some (qheap b' !! equeue e)) inn /\ NoDup (eptr <$> inn).

Record steps (b b' : Broker) (out inn : list entry) : Prop := {
  st_ok : ok b';
  st_moves : moves b b' out inn;
  st_lasts : lasts b b';
  st_made : made b b' inn
}.

Lemma made_nil b b' : made b b' [].
Proof. split; constructor. Qed.

Lemma made_trans b b1 b2 i1 i2 : made b b1 i1 -> made b1 b2 i2 -> lasts b b1 -> lasts b1 b2 -> made b b2 (i1 ++ i2).
Proof.
  intros [F1 D1] [F2 D2] [_ _ L1] [_ Q2 L2]. split.
  - apply Forall_app. split; (eapply Forall_impl; [eassumption|]); intros e [Hb Hq]; (split; [lia|]); auto.
  - rewrite fmap_app. apply NoDup_app. split_and!; [done| |done]. intros n (e1 & -> & H1)%list_elem_of_fmap (e2 & He & H2)%list_elem_of_fmap.
    rewrite Forall_forall in F1, F2. destruct (F1 _ H1), (F2 _ H2). lia.
Qed.

Lemma moves_elem b b' out inn e : moves b b' out inn -> e ∈ ledger b' -> e ∈ ledger b \/ e ∈ inn.
Proof. intros (l & P & _) He. apply elem_of_app. rewrite <-P. apply elem_of_app. by left. Qed.

Lemma steps_intro b b' out inn :
  ok b -> inv [] b' -> moves b b' out inn -> lasts b b' -> made b b' inn -> steps b b' out inn.
Proof.
  intros [_ HH] HI M L H. split; [|done..]. split; [done|]. apply Forall_forall. intros e [He|He]%(moves_elem _ _ _ _ _ M).
  - apply (lasts_queue _ _ L). unfold homed in HH. rewrite Forall_forall in HH. by apply HH.
  - destruct H as [F _]. rewrite Forall_forall in F. by apply F.
Qed.

Lemma steps_trans b b1 b2 o1 i1 o2 i2 : steps b b1 o1 i1 -> steps b1 b2 o2 i2 -> steps b b2 (o1 ++ o2) (i1 ++ i2).
Proof.
  intros [O1 M1 L1 H1] [O2 M2 L2 H2]. split; [done|by eapply moves_trans|by etrans|by eapply made_trans].
Qed.

(** A step, then one that keeps the store. *)
Lemma steps_then b b1 b2 o i : steps b b1 o i -> steps b1 b2 [] [] -> steps b b2 o i.
Proof. intros S1 S2. pose proof (steps_trans _ _ _ _ _ _ _ S1 S2) as S. by rewrite !app_nil_r in S. Qed.

Lemma steps_refl b : ok b -> steps b b [] [].
Proof. intros H. split; [done|by apply moves_same|done|apply made_nil]. Qed.

Lemma steps_quiet b b' : ok b -> quiet b b' -> moves b b' [] [] -> steps b b' [] [].
Proof.
  intros H Q M. apply steps_intro; [done| |done|by apply lasts_quiet|apply made_nil]. eapply inv_quiet; [done|apply H].
Qed.

Lemma steps_fades b b' : ok b -> inv [] b' -> fades b b' -> steps b b' [] [].
Proof. intros H HI F. apply steps_intro; [done..|apply F|by apply lasts_fades|apply made_nil]. Qed.

(** *** Closing a channel *)

Lemma omap_keys {A B} (m : gmap nat A) (g : A -> B) (l : list (nat * A)) :
  (forall k x, (k, x) ∈ l -> m !! k = Some x) -> omap (fun t => g <$> m !! t) (map fst l) = (fun kx => g kx.2) <$> l.
Proof.
  induction l as [|[k x] l IH]; intros Hl; simpl; [done|]. rewrite (Hl k x) by (by left). simpl. f_equal.
  apply IH. intros k' x' H. apply Hl. by right.
Qed.

Lemma sorted_tags_entries (m : gmap nat inflight) :
  omap (fun t => in_hand <$> m !! t) (rev (sorted_tags m)) ≡ₚ (fun ti => in_hand (snd ti)) <$> map_to_list m.
Proof.
  rewrite <-(omap_keys m in_hand (map_to_list m)) by (by intros k x ?%elem_of_map_to_list).
  rewrite <-Permutation_rev. unfold sorted_tags. by rewrite merge_sort_Permutation.
Qed.

Lemma requeue_moves (m : gmap nat inflight) ts b :
  inv [] b -> (forall t i, m !! t = Some i -> is_Some (qheap b !! ifq i)) ->
  let b' := fold_left (fun b t => match m !! t with
                                  | Some i => enqueue (ifq i) (as_redelivered (ifmsg i)) true b
                                  | None => b
                                  end) ts b in
  moves b b' [] (omap (fun t => in_hand <$> m !! t) ts) /\ quiet b b'.
Proof.
  revert b. induction ts as [|t ts IH]; intros b HI Hm; simpl; [split; [by apply moves_same|done]|].
  destruct (m !! t) as [i|] eqn:Ei; simpl; [|by apply IH].
  pose proof (quiet_enqueue (ifq i) (as_redelivered (ifmsg i)) true b) as Q.
  destruct (IH (enqueue (ifq i) (as_redelivered (ifmsg i)) true b)) as [M' Q'].
  - by eapply inv_quiet.
  - intros t' i' Hi. by eapply lasts_queue; [by apply lasts_quiet|eapply Hm].
  - split; [|by etrans]. eapply (moves_trans _ _ _ [] [in_hand i] [] _); [|exact M'|by apply lasts_quiet].
    by apply (enqueue_moves (ifq i) (as_redelivered (ifmsg i))); [|eapply Hm].
Qed.

(** Marking a channel closed puts its unsettled messages in hand; its consumers
    are to be removed. *)
Lemma close_inv ch c b :
  inv [] b -> channels b !! ch = Some c -> inv (map snd (map_to_list (chconsumers c))) (upd_channel ch close_channel b).
Proof.
  intros [A G T N Pq Pc Px] Hc. unfold upd_channel. rewrite (alter_at _ _ _ _ Hc). split; simpl; try done.
  - intros qp q cp Hq Hcp. destruct (A qp q cp Hq Hcp) as (x & c0 & Hx & Hxq & Hc0 & [[Hcl Ht]|[_ []%elem_of_nil]]). simpl.
    destruct (decide (cch x = ch)) as [<-|Hne].
    + exists x, (close_channel c). rewrite lookup_insert_eq. split_and!; try done. right. split; [done|].
      simplify_eq. apply list_elem_of_In, in_map_iff. exists (ctag x, cp). split; [done|]. by apply list_elem_of_In, elem_of_map_to_list.
    + exists x, c0. rewrite lookup_insert_ne by done. split_and!; try done. by left.
  - intros ch' c' t cp [[<- <-]|[_ Hc']]%lookup_insert_Some Ht; simpl in *; eauto.
  - intros ch' c' [[<- <-]|[_ Hc']]%lookup_insert_Some; [exact (T _ _ Hc)|eauto].
  - intros p c' [[<- <-]|[_ Hc']]%lookup_insert_Some; eauto.
Qed.

Lemma close_moves ch c b :
  channels b !! ch = Some c -> chclosed c = false ->
  moves b (upd_channel ch close_channel b) ((fun ti => in_hand (snd ti)) <$> map_to_list (chunacked c)) [].
Proof.
  intros Hc Hcl. destruct (bind_focus channel_entries _ _ _ Hc) as (rest & H1 & H2). exists []. split; [|constructor].
  unfold ledger, waiting, unsettled, upd_channel. simpl. rewrite (alter_at _ _ _ _ Hc), H1, H2. unfold channel_entries. simpl.
  rewrite Hcl. solve_Permutation.
Qed.

Lemma homed_unacked b ch c t i :
  homed b -> channels b !! ch = Some c -> chclosed c = false -> chunacked c !! t = Some i -> is_Some (qheap b !! ifq i).
Proof.
  intros HH Hc Hcl Hi. unfold homed in HH. rewrite Forall_forall in HH. apply (HH (in_hand i)). apply elem_of_app. right.
  apply list_elem_of_bind. exists (ch, c). split; [|by apply elem_of_map_to_list]. unfold channel_entries. simpl. rewrite Hcl.
  apply list_elem_of_fmap. exists (t, i). split; [done|]. by apply elem_of_map_to_list.
Qed.

(** Changes of a channel that keep what it knows. *)
Lemma quiet_upd_channel ch g b :
  (forall c, same_channel c (g c)) -> quiet b (upd_channel ch g b).
Proof. intros Hg. split; simpl; try done. by apply Forall2_alter; [apply _|]. Qed.

Lemma drop_closed ch c b :
  channels b !! ch = Some c -> chclosed c = true -> inv [] b ->
  inv [] (upd_channel ch drop_unacked b) /\ moves b (upd_channel ch drop_unacked b) [] [].
Proof.
  intros Hc Hcl [A G T N Pq Pc Px]. unfold upd_channel. rewrite (alter_at _ _ _ _ Hc). split.
  - split; simpl; try done.
    + intros qp q cp Hq Hcp. destruct (A qp q cp Hq Hcp) as (x & c0 & Hx & Hxq & Hc0 & [[Hcl0 Ht]|[_ []%elem_of_nil]]).
      exists x, c0. simpl. rewrite lookup_insert_ne by congruence. split_and!; try done. by left.
    + intros ch' c' t cp [[<- <-]|[_ Hc']]%lookup_insert_Some Ht; simpl in *; eauto.
    + intros ch' c' [[<- <-]|[_ Hc']]%lookup_insert_Some; [done|eauto].
    + intros p c' [[<- <-]|[_ Hc']]%lookup_insert_Some; eauto.
  - apply moves_same. destruct (bind_focus channel_entries _ _ _ Hc) as (rest & H1 & H2).
    unfold ledger, waiting, unsettled. simpl. rewrite H1, H2. unfold channel_entries. simpl. by rewrite Hcl.
Qed.

Lemma shutdown_channel_steps ch b : ok b -> steps b (shutdown_channel ch b) [] [].
Proof.
  intros [HI HH]. unfold shutdown_channel. destruct (channels b !! ch) as [c|] eqn:Ec; [|by apply steps_refl].
  destruct (chclosed c) eqn:Ecl; [by apply steps_refl|].
  set (b1 := upd_channel ch close_channel b). set (l := map snd (map_to_list (chconsumers c))).
  assert (channels b1 !! ch = Some (close_channel c)) as E1 by by unfold b1; simpl; rewrite lookup_alter_eq, Ec.
  assert (lasts b b1) as L1 by by split.
  pose proof (close_inv ch c b HI Ec) as HI1.
  destruct (removeAll_fades l b1 HI1) as [HI2 F2].
  { apply Forall_forall. intros cp Hcp x c' Hx Hc'. left. unfold l in Hcp.
    apply list_elem_of_In, in_map_iff in Hcp as ([t cp'] & <- & Hin%list_elem_of_In%elem_of_map_to_list).
    destruct (inv_registered _ _ HI ch c t cp' Ec Hin) as (x' & Hx' & _ & <-). simpl in Hx.
    assert (x' = x) as -> by congruence. rewrite E1 in Hc'. by simplify_eq. }
  set (b2 := fold_left _ l b1) in *.
  destruct (fades_channel _ _ _ _ F2 E1) as (c2 & E2 & S2).
  destruct (requeue_moves (chunacked c) (rev (sorted_tags (chunacked c))) b2 HI2) as [M3 Q3].
  { intros t i Hi. apply (lasts_queue _ _ (lasts_fades _ _ F2)), (lasts_queue _ _ L1). by eapply homed_unacked. }
  set (b3 := fold_left _ _ b2) in *.
  destruct (quiet_channel _ _ _ _ Q3 E2) as (c3 & E3 & S3).
  destruct (drop_closed ch c3 b3 E3) as [HI4 M4].
  { by rewrite (sc_closed _ _ S3), (sh_closed _ _ S2). }
  { by eapply inv_quiet. }
  set (b4 := upd_channel ch drop_unacked b3) in *.
  assert (lasts b3 b4) as L4 by by split.
  pose proof (lasts_fades _ _ F2) as L2. pose proof (lasts_quiet _ _ Q3) as L3.
  assert (lasts b b4) as L by (etrans; [exact L1|]; etrans; [exact L2|]; by etrans).
  apply steps_intro; [done|done| |done|apply made_nil].
  pose proof (moves_trans _ _ _ _ _ _ _ (close_moves ch c b Ec Ecl) (fd_moves _ _ F2) L2) as M2.
  pose proof (moves_trans _ _ _ _ _ _ _ (moves_trans _ _ _ _ _ _ _ M2 M3 L3) M4 L4) as M.
  set (es := (fun ti : nat * inflight => in_hand (snd ti)) <$> map_to_list (chunacked c)) in *.
  rewrite !app_nil_r in M. simpl in M. apply (moves_cancel_all _ _ es). rewrite !app_nil_r. revert M.
  apply moves_perm; [done|]. apply sorted_tags_entries.
Qed.

(** *** Connections *)

Lemma steps_fold {X} (f : Broker -> X -> Broker) l b :
  (forall b x, ok b -> steps b (f b x) [] []) -> ok b -> steps b (fold_left f l b) [] [].
Proof.
  intros Hf. revert b. induction l as [|x l IH]; intros b Hb; simpl; [by apply steps_refl|].
  pose proof (Hf b x Hb) as S. apply (steps_trans _ _ _ [] [] [] [] S), IH, S.
Qed.

Lemma deleteQueue_steps qp b : ok b -> steps b (deleteQueue qp b) [] [].
Proof. intros Hb. destruct (deleteQueue_fades [] qp b (ok_inv _ Hb)). by apply steps_fades. Qed.

(** Fields the store does not read. *)
Lemma steps_conns s b : ok b -> steps b (set_conns s b) [] [].
Proof.
  intros Hb. apply steps_intro; [done| |by apply moves_same|by split|apply made_nil]. destruct Hb as [[] _]. by split.
Qed.

Lemma shutdown_conn_steps conn b : ok b -> steps b (shutdown_conn conn b) [] [].
Proof.
  intros Hb. unfold shutdown_conn. destruct (conns b !! conn); [|by apply steps_refl].
  set (b1 := fold_left _ _ b). assert (steps b b1 [] []) as S1 by by apply steps_fold; [intros; apply shutdown_channel_steps|].
  set (b2 := fold_left _ _ b1).
  assert (steps b1 b2 [] []) as S2 by by apply steps_fold; [intros; apply deleteQueue_steps|apply S1].
  apply (steps_trans _ _ _ [] [] [] [] S1), (steps_trans _ _ _ [] [] [] [] S2), steps_conns, S2.
Qed.

(** *** Publishing, expiry and settlement *)

Lemma new_entries_made ex key p n ts e :
  e ∈ new_entries ex key p n ts -> (n <= eptr e < n + length ts)%nat /\ equeue e ∈ ts /\ epub e = p.
Proof.
  revert n. induction ts as [|q ts IH]; intros n; simpl; [intros []%elem_of_nil|].
  intros [->|(? & ? & ?)%IH]%elem_of_cons; simpl; [split; [lia|split; [by left|done]]|]. split_and!; [lia|lia|by right|done].
Qed.

Lemma new_entries_NoDup ex key p n ts : NoDup (eptr <$> new_entries ex key p n ts).
Proof.
  revert n. induction ts as [|q ts IH]; intros n; simpl; constructor; [|apply IH].
  intros (e & He & Hin)%list_elem_of_fmap. apply new_entries_made in Hin. simpl in He. lia.
Qed.

Lemma route_steps ex key p b :
  ok b -> steps b (route ex key p b).1 [] (new_entries ex key p (next_ptr b) (targets b ex key)).
Proof.
  intros Hb. destruct (route_moves ex key p b (ok_inv _ Hb)) as [M N]. pose proof (quiet_route ex key p b) as Q.
  apply steps_intro; [done|by eapply inv_quiet; [|apply Hb]|done|by apply lasts_quiet|]. split; [|apply new_entries_NoDup].
  apply Forall_forall. intros e (Hp & [n Hq]%targets_queues & _)%new_entries_made. rewrite N. split; [lia|].
  apply (lasts_queue _ _ (lasts_quiet _ _ Q)). by eapply inv_named; [apply Hb|].
Qed.

Lemma deadLetter_steps q m b : ok b -> exists inn, steps b (deadLetter q m b) [] inn.
Proof.
  intros Hb. unfold deadLetter. destruct (qdlx q) as [ex|]; [|eexists; by apply steps_refl].
  destruct (exchanges b !! ex); [|eexists; by apply steps_refl]. eexists. by apply route_steps.
Qed.

Lemma dispatch_steps qp b : ok b -> steps b (dispatch qp b) [] [].
Proof. intros Hb. apply steps_quiet; [done|apply quiet_dispatch|apply dispatch_moves, Hb]. Qed.

Lemma expire_steps qp ptr b :
  ok b -> exists out inn, steps b (expire qp ptr b) out inn /\ Forall (fun e => equeue e = qp /\ eptr e = ptr) out.
Proof.
  intros Hb. unfold expire. destruct (qheap b !! qp) as [q|] eqn:Eq; [|exists [], []; split; [by apply steps_refl|constructor]].
  destruct (list_find _ _) as [[i m]|] eqn:Ef; [|exists [], []; split; [by apply steps_refl|constructor]].
  destruct (qdeleted q); [exists [], []; split; [by apply steps_refl|constructor]|].
  apply list_find_Some in Ef as (Hi & Hp & _). set (b1 := set_qheap _ b).
  pose proof (quiet_set_queue b qp q (delete i (qmsgs q)) (qrr q) Eq) as Q. change (quiet b b1) in Q.
  assert (steps b b1 [entry_of qp m] []) as S1.
  { apply steps_intro; [done|by eapply inv_quiet; [|apply Hb]| |by apply lasts_quiet|apply made_nil]. exists []. split; [|constructor].
    pose proof (take_ledger b qp q i m (qrr q) Eq Hi) as HL. change (ledger b ≡ₚ entry_of qp m :: ledger b1) in HL.
    rewrite HL. solve_Permutation. }
  destruct (deadLetter_steps q (with_timer false m) b1 (st_ok _ _ _ _ S1)) as [inn S2].
  exists [entry_of qp m], inn. split; [exact (steps_trans _ _ _ _ _ _ _ S1 S2)|]. by apply Forall_singleton.
Qed.

Lemma inv_upd_channel R ch g b :
  (forall c, chclosed (g c) = chclosed c /\ chconsumers (g c) = chconsumers c /\ (tagged c -> tagged (g c))) ->
  inv R b -> inv R (upd_channel ch g b).
Proof.
  intros Hg [A G T N Pq Pc Px].
  assert (forall p c', alter g ch (channels b) !! p = Some c' -> exists c, channels b !! p = Some c /\
            chclosed c' = chclosed c /\ chconsumers c' = chconsumers c /\ (tagged c -> tagged c')) as Hback.
  { intros p c' [[-> (c & Hc & ->)]|[_ Hc]]%lookup_alter_Some; [exists c; split; [done|apply Hg]|by exists c']. }
  split; simpl; try done.
  - intros qp q cp Hq Hcp. destruct (A qp q cp Hq Hcp) as (x & c & Hx & Hxq & Hc & Hcase). simpl.
    destruct (decide (ch = cch x)) as [->|Hne].
    + exists x, (g c). rewrite lookup_alter_eq, Hc. destruct (Hg c) as (-> & -> & _). done.
    + exists x, c. rewrite lookup_alter_ne by done. done.
  - intros p c' t cp (c & Hc & _ & Hcons & _)%Hback Ht. rewrite Hcons in Ht. eauto.
  - intros p c' (c & Hc & _ & _ & HT)%Hback. eauto.
  - intros p c' (c & Hc & _)%Hback. eauto.
Qed.

Lemma quiet_one_less cp b : quiet b (upd_consumer cp one_less b).
Proof. split; simpl; try done. apply Forall2_alter; [apply _|]. by intros x; split. Qed.

(** Taking a tag off a channel puts its message in hand. *)
Lemma remove_tag_steps ch c t i b :
  ok b -> channels b !! ch = Some c -> chclosed c = false -> chunacked c !! t = Some i ->
  steps b (upd_consumer (ifcons i) one_less (upd_channel ch (remove_tag t) b)) [in_hand i] [].
Proof.
  intros Hb Hc Hcl Hi. set (b1 := upd_channel ch (remove_tag t) b).
  assert (steps b b1 [in_hand i] []) as S1.
  { apply steps_intro; [done| | |by split|apply made_nil].
    - apply inv_upd_channel; [|apply Hb]. intros c0. split_and!; try done. intros HT t' i' H. simpl in H. apply lookup_delete_Some in H as [_ H]. exact (HT t' i' H).
    - destruct (bind_focus channel_entries _ _ _ Hc) as (rest & H1 & H2). exists []. split; [|constructor].
      unfold ledger, waiting, unsettled, b1, upd_channel. simpl. rewrite (alter_at _ _ _ _ Hc), H1, H2. unfold channel_entries. simpl.
      rewrite Hcl. rewrite <-(map_to_list_delete (chunacked c) t i Hi). simpl. solve_Permutation. }
  apply (steps_trans _ _ _ [_] [] [] [] S1). apply steps_quiet; [apply S1|apply quiet_one_less|by apply moves_same].
Qed.

Lemma settle_one_steps ch kind c t i b :
  ok b -> channels b !! ch = Some c -> chclosed c = false -> chunacked c !! t = Some i ->
  exists inn, steps b (settle_one ch kind b t) (match kind with SRequeue => [] | _ => [in_hand i] end) inn /\
    exists c', channels (settle_one ch kind b t) !! ch = Some c' /\ chclosed c' = false /\
      forall t', (t' <= chnextTag c)%nat -> t' <> t -> chunacked c' !! t' = chunacked c !! t'.
Proof.
  intros Hb Hc Hcl Hi. unfold settle_one. rewrite Hc. simpl. rewrite Hi.
  pose proof (remove_tag_steps ch c t i b Hb Hc Hcl Hi) as S1. set (b1 := upd_consumer _ _ _) in *.
  assert (channels b1 !! ch = Some (remove_tag t c)) as E1 by by simpl; rewrite lookup_alter_eq, Hc.
  assert (forall b', quiet b1 b' -> exists c', channels b' !! ch = Some c' /\ chclosed c' = false /\
      forall t', (t' <= chnextTag c)%nat -> t' <> t -> chunacked c' !! t' = chunacked c !! t') as Hch.
  { intros b' Q. destruct (quiet_channel _ _ _ _ Q E1) as (c' & Hc' & S). exists c'. split_and!; [done|by rewrite (sc_closed _ _ S)|].
    intros t' Ht Hne. rewrite (sc_old _ _ S) by done. simpl. by rewrite lookup_delete_ne. }
  destruct kind.
  - exists []. split; [exact S1|by apply Hch].
  - exists []. split; [|apply Hch, quiet_enqueue]. pose proof (quiet_enqueue (ifq i) (as_redelivered (ifmsg i)) true b1) as Q.
    apply steps_intro; [done|eapply inv_quiet; [exact Q|apply S1]| |etrans; [apply S1|by apply lasts_quiet]|apply made_nil].
    apply (moves_cancel _ _ (in_hand i)).
    eapply (moves_trans _ _ _ [_] [] [] [_]); [apply S1| |by apply lasts_quiet].
    apply (enqueue_moves (ifq i) (as_redelivered (ifmsg i)) true b1); [apply S1|].
    by apply (homed_unacked b ch c t i); [apply Hb|..].
  - destruct (qheap b !! ifq i) as [q|]; [|exists []; split; [exact S1|by apply Hch]].
    destruct (deadLetter_steps q (ifmsg i) b1 (st_ok _ _ _ _ S1)) as [inn S2]. exists inn.
    split; [exact (steps_trans _ _ _ [_] [] [] _ S1 S2)|]. apply Hch, quiet_deadLetter.
Qed.

(** The messages settled for good. *)
Definition settled (kind : settle_kind) (m : gmap nat inflight) (tags : list nat) (e : entry) : Prop :=
  kind <> SRequeue /\ exists t i, t ∈ tags /\ m !! t = Some i /\ e = in_hand i.

Lemma settle_all_steps ch kind (m : gmap nat inflight) tags b c :
  ok b -> NoDup tags -> channels b !! ch = Some c -> chclosed c = false ->
  (forall t, t ∈ tags -> chunacked c !! t = m !! t /\ is_Some (m !! t)) ->
  exists out inn, steps b (fold_left (settle_one ch kind) tags b) out inn /\ Forall (settled kind m tags) out.
Proof.
  revert b c. induction tags as [|t tags IH]; intros b c Hb Hnd Hc Hcl Hm; simpl.
  { exists [], []. split; [by apply steps_refl|constructor]. }
  apply NoDup_cons in Hnd as [Hnt Hnd].
  destruct (Hm t) as [Ht [i Hi]]; [by left|]. rewrite Hi in Ht.
  destruct (settle_one_steps ch kind c t i b Hb Hc Hcl Ht) as (inn1 & S1 & c1 & Hc1 & Hcl1 & Hsame).
  destruct (IH (settle_one ch kind b t) c1 (st_ok _ _ _ _ S1) Hnd Hc1 Hcl1) as (out & inn & S2 & F2).
  { intros t' Ht'. destruct (Hm t') as [Hl [i' Hi']]; [by right|]. split; [|by exists i']. rewrite Hsame; [done| |by intros ->].
    rewrite Hi' in Hl. by eapply (inv_tagged _ _ (ok_inv _ Hb)). }
  eexists _, _. split; [exact (steps_trans _ _ _ _ _ _ _ S1 S2)|]. apply Forall_app. split.
  - destruct kind; [| |]; [apply Forall_singleton| |apply Forall_singleton]; [|constructor|];
      (split; [done|]; exists t, i; split_and!; [by left|done|done]).
  - eapply Forall_impl; [exact F2|]. intros e (Hk & t' & i' & Ht' & ?). split; [done|]. exists t', i'. split; [by right|done].
Qed.

Lemma sorted_tags_elem (m : gmap nat inflight) t : t ∈ sorted_tags m <-> is_Some (m !! t).
Proof.
  unfold sorted_tags. rewrite merge_sort_Permutation, list_elem_of_In, in_map_iff. split.
  - intros ([t' i] & <- & H%list_elem_of_In%elem_of_map_to_list). by exists i.
  - intros [i Hi]. exists (t, i). split; [done|]. by apply list_elem_of_In, elem_of_map_to_list.
Qed.

Lemma sorted_tags_NoDup (m : gmap nat inflight) : NoDup (sorted_tags m).
Proof. unfold sorted_tags. rewrite merge_sort_Permutation. apply NoDup_fst_map_to_list. Qed.

Lemma named_tags_ok multiple tag c :
  NoDup (named_tags multiple tag c) /\ forall t, t ∈ named_tags multiple tag c -> is_Some (chunacked c !! t).
Proof.
  unfold named_tags. destruct multiple.
  - split.
    + apply NoDup_ListNoDup, List.NoDup_filter, NoDup_ListNoDup, sorted_tags_NoDup.
    + intros t. rewrite list_elem_of_In, List.filter_In, <-list_elem_of_In. intros [H _]. by apply sorted_tags_elem.
  - destruct (chunacked c !! tag) eqn:E; [|split; [constructor|intros t []%elem_of_nil]].
    split; [apply NoDup_singleton|]. intros t ->%list_elem_of_singleton. eauto.
Qed.

Lemma settle_tags_steps ch kind tag multiple order b :
  ok b -> exists out inn, steps b (settle_tags ch kind tag multiple order b).1 out inn /\
    Forall (fun e => exists c, channels b !! ch = Some c /\ settled kind (chunacked c) (named_tags multiple tag c) e) out.
Proof.
  intros Hb. unfold settle_tags, on_open.
  destruct (channels b !! ch) as [c|] eqn:Ec; [|exists [], []; split; [by apply steps_refl|constructor]].
  destruct (chclosed c) eqn:Ecl; [exists [], []; split; [by apply steps_refl|constructor]|].
  destruct (named_tags_ok multiple tag c) as [Hnd Hin].
  destruct (named_tags multiple tag c) as [|t ts] eqn:En; [exists [], []; split; [by apply shutdown_channel_steps|constructor]|].
  destruct (settle_all_steps ch kind (chunacked c) (t :: ts) b c Hb Hnd Ec Ecl) as (out & inn & S & F); [by auto|].
  exists out, inn. split; [|eapply Forall_impl; [exact F|]; intros e He; exists c; by rewrite En].
  cbn [fst]. set (b1 := fold_left (settle_one ch kind) _ b) in *.
  apply (steps_then _ _ _ _ _ S), steps_fold; [intros; by apply dispatch_steps|apply S].
Qed.

(** *** Everything else keeps the store as it is *)

Lemma alloc_steps b : ok b -> steps b (alloc b).2 [] [].
Proof. intros Hb. apply steps_quiet; [done|apply quiet_alloc|apply alloc_moves]. Qed.

Lemma exchanges_steps m b : ok b -> steps b (set_exchanges m b) [] [].
Proof.
  intros Hb. apply steps_fades; [done| |apply fades_exchanges]. eapply inv_fades; [apply fades_exchanges| |apply Hb]. apply Hb.
Qed.

Lemma fail_steps ch code reason b : ok b -> steps b (fail_channel ch code reason b).1 [] [].
Proof. apply shutdown_channel_steps. Qed.

Lemma upd_channel_steps ch g b :
  ok b -> (forall c, same_channel c (g c) /\ channel_entries (ch, g c) = channel_entries (ch, c)) -> steps b (upd_channel ch g b) [] [].
Proof.
  intros Hb Hg. apply steps_quiet; [done|apply quiet_upd_channel; intros c; apply Hg|]. apply moves_same.
  unfold ledger, waiting, unsettled, upd_channel. simpl. rewrite bind_alter; [done|]. intros c. apply Hg.
Qed.

(** A guarded channel method. *)
Lemma on_open_steps {X} ch b (d : X) k :
  ok b -> (forall c, channels b !! ch = Some c -> chclosed c = false -> steps b (k c).1 [] []) -> steps b (on_open ch b d k).1 [] [].
Proof.
  intros Hb Hk. unfold on_open. destruct (channels b !! ch) as [c|] eqn:E; [|by apply steps_refl].
  destruct (chclosed c) eqn:Ecl; [by apply steps_refl|]. by apply Hk.
Qed.

Lemma Dial_steps b : ok b -> steps b (Dial b).1 [] [].
Proof. intros Hb. pose proof (alloc_steps b Hb) as S. apply (steps_trans _ _ _ [] [] [] [] S), steps_conns, S. Qed.

Lemma new_channel_steps p c b :
  ok b -> channels b !! p = None -> (p < next_ptr b)%nat -> chconsumers c = ∅ -> chunacked c = ∅ ->
  steps b (set_channels (<[p := c]> (channels b)) b) [] [].
Proof.
  intros Hb Hp Hlt H1 H2. apply steps_intro; [done| | |by split|apply made_nil].
  - destruct (ok_inv _ Hb) as [A G T N Pq Pc Px]. split; unfold attached; simpl; try done.
    + intros qp q cp Hq Hcp. destruct (A qp q cp Hq Hcp) as (x & c0 & Hx & Hxq & Hc & Hcase). exists x, c0. simpl.
      rewrite lookup_insert_ne by congruence. done.
    + intros ch' c' t cp [[<- <-]|[_ Hc']]%lookup_insert_Some; [by rewrite H1, lookup_empty|eauto].
    + intros ch' c' [[<- <-]|[_ Hc']]%lookup_insert_Some; [|eauto]. intros t i. by rewrite H2, lookup_empty.
    + intros ch' c' [[<- <-]|[_ Hc']]%lookup_insert_Some; eauto.
  - apply moves_same. unfold ledger, waiting, unsettled. simpl. rewrite bind_insert by done. unfold channel_entries at 1. simpl.
    rewrite H2. by destruct (chclosed c).
Qed.

Lemma open_channel_steps conn b : ok b -> steps b (open_channel conn b).1 [] [].
Proof.
  intros Hb. unfold open_channel. destruct (conns b !! conn) as [n|]; [|by apply steps_refl]. cbn [fst].
  pose proof (alloc_steps b Hb) as S1. set (b1 := (alloc b).2) in *.
  pose proof (steps_conns (<[conn := n + 1]> (conns b1)) b1 (st_ok _ _ _ _ S1)) as S2. set (b2 := set_conns _ b1) in *.
  apply (steps_trans _ _ _ [] [] [] [] S1), (steps_trans _ _ _ [] [] [] [] S2).
  apply (new_channel_steps (next_ptr b) _ b2); [apply S2| |simpl; lia|done|done]. simpl.
  destruct (channels b !! next_ptr b) as [c|] eqn:E; [|done]. apply (inv_channels _ _ (ok_inv _ Hb)) in E. lia.
Qed.

Lemma new_queue_steps p name q b :
  ok b -> qheap b !! p = None -> (p < next_ptr b)%nat -> qmsgs q = [] -> qconsumers q = [] ->
  steps b (set_queues (<[name := p]> (queues b)) (set_qheap (<[p := q]> (qheap b)) b)) [] [].
Proof.
  intros Hb Hp Hlt H1 H2. apply steps_intro; [done| | | |apply made_nil].
  - destruct (ok_inv _ Hb) as [A G T N Pq Pc Px]. split; unfold attached; simpl; try done.
    + intros qp q' cp [[<- <-]|[_ Hq]]%lookup_insert_Some; [rewrite H2; intros []%elem_of_nil|by apply A].
    + intros n p' Hn. destruct (decide (p = p')) as [->|Hne]; [rewrite lookup_insert_eq; eauto|]. rewrite lookup_insert_ne by done.
      apply lookup_insert_Some in Hn as [[_ ?]|[_ Hn]]; [done|eauto].
    + intros p' q' [[<- <-]|[_ Hq]]%lookup_insert_Some; eauto.
  - apply moves_same. unfold ledger, waiting, unsettled. simpl. rewrite bind_insert by done. unfold queue_entries at 1. simpl. by rewrite H1.
  - split; simpl; [|intros qp [q' Hq]; rewrite lookup_insert_ne by congruence; eauto|lia].
    intros e [(q' & Hq & Hd)|?]; [left|by right]. exists q'. simpl. rewrite lookup_insert_ne by congruence. done.
Qed.

Lemma bump_name_steps b : ok b -> steps b (bump_name b) [] [].
Proof. intros Hb. apply steps_quiet; [done| |by apply moves_same]. split; try done; intros p; simpl; reflexivity. Qed.

Lemma QueueDeclare_steps ch name d a x args b : ok b -> steps b (QueueDeclare ch name d a x args b).1 [] [].
Proof.
  intros Hb. apply on_open_steps; [done|]. intros c Hc Hcl.
  destruct (if decide (name = "") then _ else _) as [n b1] eqn:E.
  assert (steps b b1 [] []) as S1 by (destruct (decide (name = "")); simplify_eq; [by apply bump_name_steps|by apply steps_refl]).
  clear E. apply (steps_trans _ _ _ [] [] [] [] S1). pose proof (st_ok _ _ _ _ S1) as Hb1.
  pose proof (fun code text => fail_steps ch code text b1 Hb1) as HF.
  destruct (queues b1 !! n ≫= _) as [q|].
  { destruct (_ && _); [apply (HF 0 "")|]. destruct (_ || _ || _ || _); [apply (HF 0 "")|by apply steps_refl]. }
  destruct (bounded_arg args _ _); [|apply (HF 0 "")]. destruct (bounded_arg args _ _); [|apply (HF 0 "")]. cbn [fst].
  pose proof (alloc_steps b1 Hb1) as S2. apply (steps_trans _ _ _ [] [] [] [] S2).
  apply (new_queue_steps (next_ptr b1) n _ (alloc b1).2); [apply S2| |simpl; lia|done|done]. simpl.
  destruct (qheap b1 !! next_ptr b1) as [q|] eqn:E; [|done]. apply (inv_queues _ _ (ok_inv _ Hb1)) in E. lia.
Qed.

Lemma QueueBind_steps ch name key ex b : ok b -> steps b (QueueBind ch name key ex b).1 [] [].
Proof.
  intros Hb. apply on_open_steps; [done|]. intros c _ _. destruct (exchanges b !! ex); [|by apply fail_steps].
  destruct (decide (ex = "")); [by apply fail_steps|]. destruct (queues b !! name); [|by apply fail_steps].
  simpl. case_decide; [by apply steps_refl|by apply exchanges_steps].
Qed.

Lemma ExchangeDeclare_steps ch name kind d a i b : ok b -> steps b (ExchangeDeclare ch name kind d a i b).1 [] [].
Proof.
  intros Hb. apply on_open_steps; [done|]. intros c _ _. destruct (exchanges b !! name).
  - destruct (_ || _ || _ || _); [by apply fail_steps|by apply steps_refl].
  - destruct (bool_decide _); [by apply exchanges_steps|by apply fail_steps].
Qed.

(** A new consumer joins its queue and its channel. *)
Lemma join_steps p ch c c' x qp q b :
  ok b -> channels b !! ch = Some c -> chclosed c = false -> qheap b !! qp = Some q -> consumers b !! p = None ->
  (p < next_ptr b)%nat -> chconsumers c !! ctag x = None ->
  chclosed c' = chclosed c -> chunacked c' = chunacked c -> chnextTag c' = chnextTag c ->
  chconsumers c' = <[ctag x := p]> (chconsumers c) -> cch x = ch -> cq x = qp ->
  steps b (set_qheap (<[qp := with_consumers (qconsumers q ++ [p]) true q]> (qheap b))
             (set_consumers (<[p := x]> (consumers b)) (set_channels (<[ch := c']> (channels b)) b))) [] [].
Proof.
  intros Hb Hc Hcl Hq Hp Hlt Hnew Hc1 Hc2 Hc3 Hc4 Hx1 Hx2. destruct (ok_inv _ Hb) as [A G T N Pq Pc Px].
  apply steps_intro; [done| | | |apply made_nil].
  - split; unfold attached; simpl; try done.
    + assert (forall qp' q' cp, qheap b !! qp' = Some q' -> cp ∈ qconsumers q' ->
                exists x' c0, <[p := x]> (consumers b) !! cp = Some x' /\ cq x' = qp' /\ <[ch := c']> (channels b) !! cch x' = Some c0 /\
                  chclosed c0 = false /\ chconsumers c0 !! ctag x' = Some cp) as Hold.
      { intros qp' q' cp Hq' Hcp. destruct (A qp' q' cp Hq' Hcp) as (x' & c0 & Hx' & Hxq & Hc0 & [[H0 Ht]|[_ []%elem_of_nil]]).
        destruct (decide (ch = cch x')) as [->|Hne].
        - exists x', c'. rewrite lookup_insert_ne by congruence. rewrite lookup_insert_eq, Hc1, Hc4. simplify_eq.
          split_and!; try done. rewrite lookup_insert_ne by congruence. done.
        - exists x', c0. rewrite !lookup_insert_ne by congruence. done. }
      intros qp' q' cp [[<- <-]|[_ Hq']]%lookup_insert_Some; simpl.
      * intros [Hcp| ->%list_elem_of_singleton]%elem_of_app.
        -- destruct (Hold qp q cp Hq Hcp) as (x' & c0 & ?). exists x', c0. tauto.
        -- exists x, c'. rewrite lookup_insert_eq, Hx1, lookup_insert_eq, Hc4, lookup_insert_eq. rewrite Hc1. tauto.
      * intros Hcp. destruct (Hold qp' q' cp Hq' Hcp) as (x' & c0 & ?). exists x', c0. tauto.
    + intros ch' c0 t cp [[<- <-]|[_ Hc0]]%lookup_insert_Some.
      * rewrite Hc4. intros [[<- <-]|[_ Ht]]%lookup_insert_Some; [exists x; by rewrite lookup_insert_eq|].
        destruct (G ch c t cp Hc Ht) as (x' & Hx' & ?). exists x'. rewrite lookup_insert_ne by congruence. done.
      * intros Ht. destruct (G ch' c0 t cp Hc0 Ht) as (x' & Hx' & ?). exists x'. rewrite lookup_insert_ne by congruence. done.
    + intros ch' c0 [[<- <-]|[_ Hc0]]%lookup_insert_Some; [|eauto]. intros t i. rewrite Hc2, Hc3. exact (T ch c Hc t i).
    + intros n p' [q' Hq']%N. destruct (decide (qp = p')) as [->|Hne]; [rewrite lookup_insert_eq|rewrite lookup_insert_ne by done]; eauto.
    + intros p' q' [[<- <-]|[_ Hq']]%lookup_insert_Some; eauto.
    + intros p' c0 [[<- <-]|[_ Hc0]]%lookup_insert_Some; eauto.
    + intros p' x' [[<- <-]|[_ Hx']]%lookup_insert_Some; eauto.
  - apply moves_same. destruct (bind_focus queue_entries _ _ _ Hq) as (r1 & H1 & H2).
    destruct (bind_focus channel_entries _ _ _ Hc) as (r2 & H3 & H4). unfold ledger, waiting, unsettled. simpl.
    rewrite H1, H2, H3, H4. unfold queue_entries, channel_entries. simpl. by rewrite Hc1, Hc2.
  - split; simpl; [|intros qp' [q' Hq']; destruct (decide (qp = qp')) as [->|Hne];
                     [rewrite lookup_insert_eq|rewrite lookup_insert_ne by done]; eauto|lia].
    intros e [(q' & Hq' & Hd)|(cp & y & m & tag & Hy & ?)]; [left|right]; simpl.
    + destruct (decide (qp = equeue e)) as [->|Hne]; [rewrite lookup_insert_eq|rewrite lookup_insert_ne by done]; [|eauto].
      simplify_eq. eexists. split; [done|]. done.
    + exists cp, y, m, tag. simpl. rewrite lookup_insert_ne by congruence. done.
Qed.

Lemma Consume_steps ch name tag a e b : ok b -> steps b (ConsumeWithContext ch name tag a e b).1 [] [].
Proof.
  intros Hb. apply on_open_steps; [done|]. intros c Hc Hcl. pose proof (fun code text => fail_steps ch code text b Hb) as HF.
  destruct (queues b !! name) as [qp|]; [|apply (HF 0 "")]. destruct (qheap b !! qp) as [q|] eqn:Eq; [|apply (HF 0 "")].
  destruct (_ && _); [apply (HF 0 "")|]. destruct (existsb _ _); [apply (HF 0 "")|].
  cbv zeta. match goal with |- context [chconsumers c !! ?t] => generalize t end. intros tag'.
  destruct (chconsumers c !! tag') eqn:Et; [apply (HF 0 "")|]. cbn [fst].
  pose proof (alloc_steps b Hb) as S1. apply (steps_trans _ _ _ [] [] [] [] S1). simpl. set (b1 := (alloc b).2) in *.
  match goal with |- steps _ (dispatch _ ?x) _ _ => set (b2 := x) end.
  assert (steps b1 b2 [] []) as S2.
  { eapply (join_steps (next_ptr b) ch c _ _ qp q b1); try done; [apply S1| |simpl; lia].
    simpl. destruct (consumers b !! next_ptr b) as [x|] eqn:E; [|done]. apply (inv_consumers _ _ (ok_inv _ Hb)) in E. lia. }
  apply (steps_trans _ _ _ [] [] [] [] S2), dispatch_steps, S2.
Qed.

Lemma Cancel_steps ch tag b : ok b -> steps b (Cancel ch tag b).1 [] [].
Proof.
  intros Hb. apply on_open_steps; [done|]. intros c Hc Hcl. destruct (chconsumers c !! tag) as [cp|] eqn:Et; [|by apply steps_refl].
  destruct (removeConsumer_fades [] [] cp b (ok_inv _ Hb)) as [HI F]; [|by intros y ?; right|by apply steps_fades].
  intros x c' Hx Hc'. destruct (inv_registered _ _ (ok_inv _ Hb) ch c tag cp Hc Et) as (x' & Hx' & <- & <-). simplify_eq.
  right. intros cp' Hcp. congruence.
Qed.

Lemma emit_steps ch es b : ok b -> steps b (emit ch es b) [] [].
Proof. intros Hb. apply upd_channel_steps; [done|]. intros c. split; [by split|done]. Qed.

Lemma bump_seq_steps ch b : ok b -> steps b (upd_channel ch bump_seq b) [] [].
Proof. intros Hb. apply upd_channel_steps; [done|]. intros c. split; [by split|done]. Qed.

Lemma Kill_steps order b : ok b -> steps b (KillConnections order b) [] [].
Proof. apply steps_fold. intros. by apply shutdown_conn_steps. Qed.

(** A restart drops what is not persistent. *)
Definition volatile (e : entry) : Prop := PDeliveryMode (epub e) <> Persistent.

Lemma filter_split {A} (f : A -> bool) l : List.filter f l ++ List.filter (fun x => negb (f x)) l ≡ₚ l.
Proof. induction l as [|x l IH]; simpl; [done|]. destruct (f x); simpl; [by rewrite IH|]. rewrite <-Permutation_middle. by rewrite IH. Qed.

Lemma restart_queue_steps nq b : ok b -> exists out, steps b (restart_queue b nq) out [] /\ Forall volatile out.
Proof.
  intros Hb. unfold restart_queue. destruct (qheap b !! nq.2) as [q|] eqn:Eq; [|exists []; split; [by apply steps_refl|constructor]].
  destruct (qdurable q); simpl; [|exists []; split; [by apply deleteQueue_steps|constructor]].
  exists (entry_of nq.2 <$> List.filter (fun m => negb (is_persistent m)) (qmsgs q)). split.
  - pose proof (quiet_set_queue b nq.2 q (List.filter is_persistent (qmsgs q)) (qrr q) Eq) as Q.
    apply steps_intro; [done|by eapply inv_quiet; [|apply Hb]| |by apply lasts_quiet|apply made_nil]. exists []. split; [|constructor].
    destruct (bind_focus queue_entries _ _ _ Eq) as (rest & H1 & H2). unfold ledger, waiting, unsettled. simpl. rewrite H1, H2.
    unfold queue_entries. simpl. rewrite <-(filter_split is_persistent (qmsgs q)) at 3. rewrite fmap_app. solve_Permutation.
  - apply Forall_fmap, Forall_forall. intros m. rewrite list_elem_of_In, List.filter_In. intros [_ Hm]. unfold volatile. simpl.
    unfold is_persistent in Hm. intros E. by rewrite E in Hm.
Qed.

Lemma restart_queues_steps l b : ok b -> exists out, steps b (fold_left restart_queue l b) out [] /\ Forall volatile out.
Proof.
  revert b. induction l as [|nq l IH]; intros b Hb; simpl; [exists []; split; [by apply steps_refl|constructor]|].
  destruct (restart_queue_steps nq b Hb) as (o1 & S1 & F1). destruct (IH _ (st_ok _ _ _ _ S1)) as (o2 & S2 & F2).
  exists (o1 ++ o2). split; [exact (steps_trans _ _ _ _ _ _ _ S1 S2)|]. by apply Forall_app.
Qed.

Lemma Restart_steps order b : ok b -> exists out, steps b (Restart order b) out [] /\ Forall volatile out.
Proof.
  intros Hb. unfold Restart. pose proof (Kill_steps order b Hb) as S1. set (b1 := KillConnections order b) in *.
  destruct (restart_queues_steps (map_to_list (queues b1)) b1 (st_ok _ _ _ _ S1)) as (out & S2 & F). exists out. split; [|done].
  eapply steps_then; [exact (steps_trans _ _ _ _ _ _ _ S1 S2)|]. apply exchanges_steps, S2.
Qed.

(** ** The operations of the broker *)

Inductive op :=
  | ODial | OChannel (conn : nat) | OConnClose (conn : nat) | OChannelClose (ch : nat)
  | OQos (ch : nat) (n : Z) | OConfirm (ch : nat)
  | OExchangeDeclare (ch : nat) (name kind : string) (durable autoDelete internal : bool)
  | OQueueDeclare (ch : nat) (name : string) (durable autoDelete exclusive : bool) (args : Table)
  | OQueueBind (ch : nat) (name key ex : string)
  | OConsume (ch : nat) (queue tag : string) (autoAck exclusive : bool)
  | OCancel (ch : nat) (tag : string)
  | OPublish (ch : nat) (ex key : string) (mandatory : bool) (action : ConfirmAction) (p : Publishing)
  | OSettle (ch : nat) (kind : settle_kind) (tag : nat) (multiple : bool) (order : list nat)
  | OExpire (qp ptr : nat)
  | ODeleteQueue (name : string)
  | OInject (ex key : string) (p : Publishing)
  | OKill (order : list nat)
  | ORestart (order : list nat).

Definition run_op (o : op) (b : Broker) : Broker :=
  match o with
  | ODial => (Dial b).1
  | OChannel conn => (open_channel conn b).1
  | OConnClose conn => (Conn_Close conn b).1
  | OChannelClose ch => (Channel_Close ch b).1
  | OQos ch n => (Qos ch n b).1
  | OConfirm ch => (Confirm ch b).1
  | OExchangeDeclare ch name kind d a i => (ExchangeDeclare ch name kind d a i b).1
  | OQueueDeclare ch name d a x args => (QueueDeclare ch name d a x args b).1
  | OQueueBind ch name key ex => (QueueBind ch name key ex b).1
  | OConsume ch q tag a x => (ConsumeWithContext ch q tag a x b).1
  | OCancel ch tag => (Cancel ch tag b).1
  | OPublish ch ex key mandatory action p => (PublishWithContext ch ex key mandatory action p b).1
  | OSettle ch kind tag multiple order => (settle_tags ch kind tag multiple order b).1
  | OExpire qp ptr => expire qp ptr b
  | ODeleteQueue name => DeleteQueue name b
  | OInject ex key p => default b (Publish ex key p b)
  | OKill order => KillConnections order b
  | ORestart order => Restart order b
  end.

Definition run_ops (os : list op) (b : Broker) : Broker := fold_left (fun b o => run_op o b) os b.

(** The messages an operation takes out of the store: the ones it settles for
    good, the one that expires, at a restart the ones that are not persistent. *)
Definition released (o : op) (b : Broker) (e : entry) : Prop :=
  match o with
  | OSettle ch kind tag multiple _ =>
      exists c, channels b !! ch = Some c /\ settled kind (chunacked c) (named_tags multiple tag c) e
  | OExpire qp ptr => equeue e = qp /\ eptr e = ptr
  | ORestart _ => volatile e
  | _ => False
  end.

(** The publish an operation makes, when the broker takes it. *)
Definition accepted (o : op) (b : Broker) : option (string * string * Publishing) :=
  match o with
  | OPublish ch ex key _ PolicyAck p =>
      match channels b !! ch, exchanges b !! ex with
      | Some c, Some _ => if chclosed c then None else Some (ex, key, p)
      | _, _ => None
      end
  | OInject ex key p => match exchanges b !! ex with Some _ => Some (ex, key, p) | None => None end
  | _ => None
  end.

(** What an accepted publish stores: a message in each queue it is routed to. *)
Definition stored_by (o : op) (b : Broker) : list entry :=
  match accepted o b with
  | Some (ex, key, p) => new_entries ex key p (next_ptr b) (targets b ex key)
  | None => []
  end.

Lemma seq_steps ch c b : ok b ->
  let b' := if chconfirm c then upd_channel ch bump_seq b else b in
  steps b b' [] [] /\ exchanges b' = exchanges b /\ queues b' = queues b /\ next_ptr b' = next_ptr b.
Proof. intros Hb. simpl. destruct (chconfirm c); (split; [by (apply bump_seq_steps || apply steps_refl)|done]). Qed.

Lemma Publish_steps ch ex key mandatory action p b :
  ok b -> steps b (PublishWithContext ch ex key mandatory action p b).1 [] (stored_by (OPublish ch ex key mandatory action p) b).
Proof.
  intros Hb. unfold stored_by, accepted, PublishWithContext, on_open.
  destruct (channels b !! ch) as [c|]; [|destruct action; by apply steps_refl].
  destruct (chclosed c); [destruct action, (exchanges b !! ex); by apply steps_refl|].
  destruct (seq_steps ch c b Hb) as (S1 & He & Hq & Hn). set (b1 := if chconfirm c then _ else b) in *. rewrite <-He.
  pose proof (st_ok _ _ _ _ S1) as Hb1. destruct (exchanges b1 !! ex).
  2: { destruct action; apply (steps_trans _ _ _ [] [] [] [] S1); by apply shutdown_channel_steps. }
  destruct action; [|by apply (steps_trans _ _ _ [] [] [] [] S1), emit_steps|exact S1].
  pose proof (route_steps ex key p b1 Hb1) as S2. destruct (route ex key p b1) as [b2 routed] eqn:Er. cbn [fst] in *.
  rewrite (targets_ext b b1) in S2 by done. rewrite Hn in S2.
  eapply steps_then; [exact (steps_trans _ _ _ [] [] _ _ S1 S2)|]. apply emit_steps, S2.
Qed.

(** Every operation. *)
Lemma run_op_steps o b : ok b ->
  exists out inn, steps b (run_op o b) out inn /\ Forall (released o b) out /\ (accepted o b <> None -> inn = stored_by o b).
Proof.
  intros Hb.
  assert (forall b', accepted o b = None -> steps b b' [] [] ->
            exists out inn, steps b b' out inn /\ Forall (released o b) out /\ (accepted o b <> None -> inn = stored_by o b)) as Hsame.
  { intros b' Ha S. exists [], []. split; [done|]. by split; [constructor|]. }
  destruct o; cbn [run_op].
  1: apply Hsame; [done|by apply Dial_steps].
  1: apply Hsame; [done|by apply open_channel_steps].
  1: { apply Hsame; [done|]. unfold Conn_Close. destruct (conns b !! conn); [by apply shutdown_conn_steps|by apply steps_refl]. }
  1: { apply Hsame; [done|]. apply on_open_steps; [done|]. intros. by apply shutdown_channel_steps. }
  1: { apply Hsame; [done|]. apply on_open_steps; [done|]. intros. apply upd_channel_steps; [done|]. intros c'. by split; [split|]. }
  1: { apply Hsame; [done|]. apply on_open_steps; [done|]. intros. apply upd_channel_steps; [done|]. intros c'. by split; [split|]. }
  1: apply Hsame; [done|by apply ExchangeDeclare_steps].
  1: apply Hsame; [done|by apply QueueDeclare_steps].
  1: apply Hsame; [done|by apply QueueBind_steps].
  1: apply Hsame; [done|by apply Consume_steps].
  1: apply Hsame; [done|by apply Cancel_steps].
  1: { exists [], (stored_by (OPublish ch ex key mandatory action p) b). split; [by apply Publish_steps|]. by split; [constructor|]. }
  1: { destruct (settle_tags_steps ch kind tag multiple order b Hb) as (out & inn & S & F). by exists out, inn. }
  1: { destruct (expire_steps qp ptr b Hb) as (out & inn & S & F). by exists out, inn. }
  1: { apply Hsame; [done|]. unfold DeleteQueue. destruct (queues b !! name); [by apply deleteQueue_steps|by apply steps_refl]. }
  1: { exists [], (stored_by (OInject ex key p) b). split; [|by split; [constructor|]]. unfold stored_by, accepted, Publish.
       destruct (exchanges b !! ex); [by apply route_steps|by apply steps_refl]. }
  1: apply Hsame; [done|by apply Kill_steps].
  destruct (Restart_steps order b Hb) as (out & S & F). by exists out, [].
Qed.

(** ** The store the broker refines *)

Section store.
(* the entries that may leave, and the first pointer not in use *)
Context (may_leave : entry -> Prop) (next : nat).

(** A store holds each message once. It takes in new ones and gives up those
    that may leave. *)
Inductive store_step : list entry -> list entry -> Prop :=
  | store_put e s s' : (next <= eptr e)%nat -> eptr e ∉ eptr <$> s -> s' ≡ₚ e :: s -> store_step s s'
  | store_drop e s s' : may_leave e -> s ≡ₚ e :: s' -> store_step s s'.

Lemma store_puts inn s :
  Forall (fun e => (next <= eptr e)%nat) inn -> NoDup (eptr <$> s ++ inn) -> rtc store_step s (s ++ inn).
Proof.
  revert s. induction inn as [|e inn IH]; intros s HF HN; [by rewrite app_nil_r|]. inversion_clear HF.
  apply rtc_l with (s ++ [e]).
  - apply (store_put e); [done| |symmetry; apply Permutation_cons_append]. rewrite fmap_app in HN.
    apply NoDup_app in HN as (_ & HN & _). intros Hin. apply (HN _ Hin). by left.
  - assert (s ++ e :: inn = (s ++ [e]) ++ inn) as -> by by rewrite <-app_assoc. apply IH; [done|]. by rewrite <-app_assoc.
Qed.

Lemma store_drops out s s' : Forall may_leave out -> s ≡ₚ s' ++ out -> exists s'', rtc store_step s s'' /\ s'' ≡ₚ s'.
Proof.
  revert s. induction out as [|e out IH]; intros s HF HP; [exists s; split; [done|by rewrite app_nil_r in HP]|].
  inversion_clear HF. destruct (IH (s' ++ out)) as (s'' & HR & HP''); [done|done|]. exists s''. split; [|done].
  eapply rtc_l; [|exact HR]. apply (store_drop e); [done|]. rewrite HP. by rewrite <-Permutation_middle.
Qed.
End store.

(** The store after a step holds each message once, if it did before. *)
Definition unique (b : Broker) : Prop := NoDup (eptr <$> ledger b) /\ Forall (fun e => (eptr e < next_ptr b)%nat) (ledger b).

Lemma steps_joint b b' out inn : steps b b' out inn -> unique b -> NoDup (eptr <$> ledger b ++ inn).
Proof.
  intros [_ _ _ [HM HMd]] [HN HB]. rewrite fmap_app. apply NoDup_app. split_and!; [done| |done].
  intros n (e & -> & He)%list_elem_of_fmap (e' & Heq & He')%list_elem_of_fmap. rewrite Forall_forall in HB, HM.
  specialize (HB _ He). destruct (HM _ He'). lia.
Qed.

Lemma steps_unique b b' out inn : steps b b' out inn -> unique b -> unique b'.
Proof.
  intros S Hu. pose proof (steps_joint _ _ _ _ S Hu) as HJ. destruct Hu as [_ HB]. destruct S as [_ (lost & P & _) L [HM _]]. split.
  - rewrite <-P, fmap_app in HJ. by apply NoDup_app in HJ as [? _].
  - apply Forall_forall. intros e He. pose proof (moves_elem b b' out inn e) as Hin. rewrite Forall_forall in HB, HM.
    destruct (elem_of_app (ledger b) inn e) as [Hto _]. pose proof (lasts_next _ _ L).
    destruct Hto as [Hb|Hi]; [rewrite <-P; apply elem_of_app; by left| |].
    + specialize (HB _ Hb). lia.
    + destruct (HM _ Hi). lia.
Qed.

Lemma New_ok : ok New /\ unique New.
Proof. split; [split; [|constructor]|split; constructor]. split; try done. Qed.

Lemma run_ops_ok os b : ok b -> unique b -> ok (run_ops os b) /\ unique (run_ops os b).
Proof.
  revert b. induction os as [|o os IH]; intros b Hb Hu; simpl; [done|].
  destruct (run_op_steps o b Hb) as (out & inn & S & _). apply IH; [apply S|by eapply steps_unique].
Qed.

Lemma steps_refine b b' out inn (leave : entry -> Prop) :
  steps b b' out inn -> unique b -> Forall leave out -> (forall e, excused b' e -> leave e) ->
  exists s, rtc (store_step leave (next_ptr b)) (ledger b) s /\ s ≡ₚ ledger b'.
Proof.
  intros S Hu HF HE. pose proof (steps_joint _ _ _ _ S Hu) as HJ. destruct S as [_ (lost & P & FL) _ [HM _]].
  destruct (store_drops leave (next_ptr b) (lost ++ out) (ledger b ++ inn) (ledger b')) as (s & HR & HP).
  - apply Forall_app. split; [|done]. eapply Forall_impl; [exact FL|]. auto.
  - by rewrite P.
  - exists s. split; [|done]. etrans; [|exact HR]. apply store_puts; [|done]. eapply Forall_impl; [exact HM|]. intros e [? _]. lia.
Qed.

(** C4: The in-memory broker refines a message store. After any operations,
    the next one, whatever it is, is a run of the store over what the broker
    holds: it takes in new messages, and the only ones that leave are those it
    settles for good, the one whose TTL expires, at a restart the ones that are
    not persistent, those of a deleted queue, and those delivered to a consumer
    that does not acknowledge; closing channels and connections, cancelling
    consumers and killing every connection lose nothing. Each message is held
    once: waiting, or handed to one consumer. An accepted publish is in every
    queue it is routed to, or was delivered from it. *)
Theorem broker_refines_store os o :
  let b := run_ops os New in
  let b' := run_op o b in
  let leave e := released o b e \/ excused b' e in
  (exists s, rtc (store_step leave (next_ptr b)) (ledger b) s /\ s ≡ₚ ledger b') /\
  NoDup (eptr <$> ledger b') /\
  (forall e, e ∈ stored_by o b -> e ∈ ledger b' \/ excused b' e).
Proof.
  intros b b' leave. destruct New_ok as [H0 U0]. destruct (run_ops_ok os New H0 U0) as [Hb Hu]. fold b in Hb, Hu.
  destruct (run_op_steps o b Hb) as (out & inn & S & F & Hinn). fold b' in S. split_and!.
  - eapply steps_refine; [exact S|exact Hu| |by right]. eapply Forall_impl; [exact F|]. by left.
  - by apply (steps_unique _ _ _ _ S Hu).
  - intros e He. assert (accepted o b <> None /\ released o b e = False) as [Ha Hr].
    { unfold stored_by in He. destruct o; simpl in *; try (by apply elem_of_nil in He); repeat case_match; try done; by apply elem_of_nil in He. }
    rewrite <-(Hinn Ha) in He. destruct (st_moves _ _ _ _ S) as (lost & P & FL).
    assert (e ∈ ledger b' ++ lost ++ out) as Hin by (rewrite P; apply elem_of_app; by right). rewrite Forall_forall in F, FL.
    rewrite !elem_of_app in Hin. destruct Hin as [?|[Hl|Ho]]; [by left|right; by apply FL|]. specialize (F _ Ho). by rewrite Hr in F.
Qed.

(** A message, from its publish to its acknowledgement: it waits, is delivered,
    comes back when the consumer's connection is killed, is delivered again and
    is acknowledged. *)
Definition sample_message : Publishing := {|
  PHeaders := ∅; PContentType := ""; PContentEncoding := ""; PDeliveryMode := Persistent; PPriority := 0; PCorrelationId := "";
  PReplyTo := ""; PMessageId := "m1"; PTimestamp := 0; PType := ""; PAppId := ""; PBody := [] |}.

Definition sample_life : list op :=
  [ODial; OChannel 0; OQueueDeclare 1 "q" true false false ∅; OInject "" "q" sample_message; OConsume 1 "q" "" false false;
   OKill [0%nat]; ODial; OChannel 5; OConsume 6 "q" "" false false; OSettle 6 SAck 1 false [2%nat]].

Example sample_life_held :
  (fun n => let b := run_ops (take n sample_life) New in (length (waiting b), length (unsettled b))) <$> seq 3 8 =
  [(0, 0); (1, 0); (0, 1); (1, 0); (1, 0); (1, 0); (0, 1); (0, 0)]%nat.
Proof. vm_compute. reflexivity. Qed.

(** ** Names lead to live queues *)

Definition live_names (b : Broker) : Prop :=
  forall n p, queues b !! n = Some p -> exists q, qheap b !! p = Some q /\ queue_ok n q.

Lemma live_quiet b b' : quiet b b' -> live_names b -> live_names b'.
Proof.
  intros Q HL n p. rewrite (qt_names _ _ Q). intros (q & Hq & Hok)%HL.
  destruct (quiet_queue _ _ _ _ Q Hq) as (q' & Hq' & l & rr & ->). eexists. split; [done|]. by destruct Hok.
Qed.

(** Operations that leave names and queues alone. *)
Lemma live_same b b' : queues b' = queues b -> qheap b' = qheap b -> live_names b -> live_names b'.
Proof. intros Hq Hh HL n p. rewrite Hq, Hh. apply HL. Qed.

Lemma detach_heap cp b :
  queues (detach cp b) = queues b /\
  forall p q, qheap b !! p = Some q -> exists q', qheap (detach cp b) !! p = Some q' /\ forall n, queue_ok n q -> queue_ok n q'.
Proof.
  unfold detach. destruct (consumers b !! cp) as [x|]; [|eauto]. split; [done|]. intros p q Hq. simpl.
  destruct (decide (cq x = p)) as [->|Hne]; [rewrite lookup_alter_eq, Hq|rewrite lookup_alter_ne by done]; (eexists; split; [done|]);
    [by intros n []|done].
Qed.

Lemma detach_all_heap l b :
  let b' := fold_left (fun b c => detach c b) l b in
  queues b' = queues b /\
  forall p q, qheap b !! p = Some q -> exists q', qheap b' !! p = Some q' /\ forall n, queue_ok n q -> queue_ok n q'.
Proof.
  revert b. induction l as [|cp l IH]; intros b; simpl; [eauto|]. destruct (detach_heap cp b) as [Hn Hh].
  destruct (IH (detach cp b)) as [Hn' Hh']. split; [congruence|]. intros p q (q1 & Hq1 & E1)%Hh.
  destruct (Hh' p q1 Hq1) as (q2 & Hq2 & E2). exists q2. auto.
Qed.

Lemma live_deleteQueue qp b : live_names b -> live_names (deleteQueue qp b).
Proof.
  intros HL. unfold deleteQueue. destruct (qheap b !! qp) as [q|] eqn:Eq; [|done].
  set (b1 := set_exchanges _ _). destruct (detach_all_heap (qconsumers q) b1) as [Hn Hh].
  intros n p. simpl. rewrite Hn. intros [Hne Hp]%lookup_delete_Some. simpl in Hp.
  destruct (HL n p Hp) as (q0 & Hq0 & Hok). assert (qp <> p) as Hqp by (intros ->; pose proof (qok_name _ _ Hok); congruence).
  destruct (Hh p q0) as (q' & Hq' & E); [simpl; by rewrite lookup_alter_ne|]. exists q'. auto.
Qed.

Lemma live_removeConsumer cp b : live_names b -> live_names (removeConsumer cp b).
Proof.
  intros HL. unfold removeConsumer. destruct (consumers b !! cp) as [x|]; [|done].
  assert (live_names (detach cp b)) as HL1.
  { destruct (detach_heap cp b) as [Hn Hh]. intros n p. rewrite Hn. intros (q & Hq & Hok)%HL.
    destruct (Hh p q Hq) as (q' & ? & ?). exists q'. auto. }
  destruct (qheap _ !! _); [|done]. destruct (_ && _); [by apply live_deleteQueue|done].
Qed.

Lemma live_fold {X} (f : Broker -> X -> Broker) l b :
  (forall b x, live_names b -> live_names (f b x)) -> live_names b -> live_names (fold_left f l b).
Proof. intros Hf. revert b. induction l as [|x l IH]; intros b Hb; simpl; [done|]. apply IH, Hf, Hb. Qed.

Lemma live_shutdown ch b : live_names b -> live_names (shutdown_channel ch b).
Proof.
  intros HL. unfold shutdown_channel. destruct (channels b !! ch) as [c|]; [|done]. destruct (chclosed c); [done|].
  eapply live_same; [reflexivity|reflexivity|]. apply live_fold.
  - intros b1 t H1. destruct (chunacked c !! t); [|done]. eapply live_quiet; [apply quiet_enqueue|done].
  - apply live_fold; [intros; by apply live_removeConsumer|]. by eapply live_same.
Qed.

Lemma live_shutdown_conn conn b : live_names b -> live_names (shutdown_conn conn b).
Proof.
  intros HL. unfold shutdown_conn. destruct (conns b !! conn); [|done]. eapply live_same; [reflexivity|reflexivity|].
  apply live_fold; [intros; by apply live_deleteQueue|]. apply live_fold; [intros; by apply live_shutdown|done].
Qed.

Lemma live_on_open {X} ch b (d : X) k :
  live_names b -> (forall c, live_names (k c).1) -> live_names (on_open ch b d k).1.
Proof. intros HL Hk. unfold on_open. destruct (channels b !! ch) as [c|]; [|done]. by destruct (chclosed c). Qed.

Lemma live_settle_one ch kind b t : live_names b -> live_names (settle_one ch kind b t).
Proof.
  intros HL. unfold settle_one. destruct (_ ≫= _) as [i|]; [|done].
  assert (live_names (upd_consumer (ifcons i) one_less (upd_channel ch (remove_tag t) b))) as HL1 by by eapply live_same.
  destruct kind; [done|by eapply live_quiet; [apply quiet_enqueue|]|].
  destruct (qheap _ !! _); [|done]. by eapply live_quiet; [apply quiet_deadLetter|].
Qed.

Lemma live_new_queue name p q b :
  (forall n p' q', queues b !! n = Some p' -> qheap b !! p' = Some q' -> p' <> p) -> queue_ok name q ->
  live_names b -> live_names (set_queues (<[name := p]> (queues b)) (set_qheap (<[p := q]> (qheap b)) b)).
Proof.
  intros Hf Hn HL n p' Hp. simpl in Hp |- *. apply lookup_insert_Some in Hp as [[<- <-]|[Hne Hp]].
  - exists q. by rewrite lookup_insert_eq.
  - destruct (HL n p' Hp) as (q' & Hq' & ?). exists q'. rewrite lookup_insert_ne; [done|]. intros E. by eapply Hf.
Qed.

Lemma live_QueueDeclare ch name d a x args b : ok b -> live_names b -> live_names (QueueDeclare ch name d a x args b).1.
Proof.
  intros Hb HL. apply live_on_open; [done|]. intros c.
  destruct (if decide (name = "") then _ else _) as [n b1] eqn:E.
  assert (live_names b1 /\ qheap b1 = qheap b /\ next_ptr b1 = next_ptr b /\ queues b1 = queues b) as (HL1 & Hh & Hp & Hq)
    by (destruct (decide (name = "")); simplify_eq; done).
  pose proof (live_shutdown ch b1 HL1) as HS.
  destruct (queues b1 !! n ≫= _); [destruct (_ && _); [done|]; by destruct (_ || _ || _ || _)|].
  cbv zeta. destruct (bounded_arg args "x-message-ttl" None) as [ttl|] eqn:Ettl; [|done].
  destruct (bounded_arg args "x-max-priority" _) as [maxP|]; [|done]. cbn [fst snd alloc].
  apply (live_new_queue n (next_ptr b1) _ (alloc b1).2); [|by split; eauto|done]. simpl. rewrite Hh, Hp. intros m p' q' _ Hq'.
  apply (inv_queues _ _ (ok_inv _ Hb)) in Hq'. lia.
Qed.

Lemma live_Consume ch name tag a e b : live_names b -> live_names (ConsumeWithContext ch name tag a e b).1.
Proof.
  intros HL. apply live_on_open; [done|]. intros c. pose proof (live_shutdown ch b HL) as HS.
  destruct (queues b !! name) as [qp|]; [|done]. destruct (qheap b !! qp) as [q|] eqn:Eq; [|done].
  destruct (_ && _); [done|]. destruct (existsb _ _); [done|]. cbv zeta. destruct (chconsumers c !! _); [done|].
  cbn [fst]. eapply live_quiet; [apply quiet_dispatch|]. intros n p Hp. simpl in Hp |- *. destruct (HL n p Hp) as (q' & Hq' & ?).
  destruct (decide (qp = p)) as [->|Hne]; [rewrite lookup_insert_eq|rewrite lookup_insert_ne by done; eauto].
  simplify_eq. eexists. split; [done|]. by destruct H.
Qed.

Lemma live_restart_queue b nq : live_names b -> live_names (restart_queue b nq).
Proof.
  intros HL. unfold restart_queue. destruct (qheap b !! nq.2) as [q|] eqn:Eq; [|done]. destruct (qdurable q); simpl.
  - eapply live_quiet; [|done]. by apply (quiet_set_queue b nq.2 q _ (qrr q)).
  - by apply live_deleteQueue.
Qed.

Lemma live_run_op o b : ok b -> live_names b -> live_names (run_op o b).
Proof.
  intros Hb HL. pose proof (fun ch => live_shutdown ch b HL) as HS.
  assert (forall b', queues b' = queues b -> qheap b' = qheap b -> live_names b') as Hsame by (intros; by eapply live_same).
  destruct o; cbn [run_op].
  - by apply Hsame.
  - unfold open_channel. destruct (conns b !! conn); by apply Hsame.
  - unfold Conn_Close. destruct (conns b !! conn); [by apply live_shutdown_conn|done].
  - apply live_on_open; [done|]. intros. apply HS.
  - apply live_on_open; [done|]. intros. by apply Hsame.
  - apply live_on_open; [done|]. intros. by apply Hsame.
  - apply live_on_open; [done|]. intros. unfold fail_channel. repeat case_match; try apply HS; by apply Hsame.
  - by apply live_QueueDeclare.
  - apply live_on_open; [done|]. intros. unfold fail_channel. repeat case_match; try apply HS; by apply Hsame.
  - apply (live_Consume ch queue tag autoAck exclusive b HL).
  - apply live_on_open; [done|]. intros c. destruct (chconsumers c !! tag); [by apply live_removeConsumer|done].
  - apply live_on_open; [done|]. intros c. cbv zeta. set (b1 := if chconfirm c then upd_channel _ _ _ else b).
    assert (live_names b1) as HL1 by (unfold b1; destruct (chconfirm c); by apply Hsame).
    destruct (exchanges b1 !! ex); [|by apply live_shutdown]. destruct action; [|by eapply live_same|exact HL1].
    pose proof (live_quiet _ _ (quiet_route ex key p b1) HL1) as H2. destruct (route ex key p b1) as [b2 r]. by eapply live_same.
  - unfold settle_tags. apply live_on_open; [done|]. intros c. destruct (named_tags multiple tag c); [apply HS|]. cbn [fst].
    apply live_fold; [intros; by eapply live_quiet; [apply quiet_dispatch|]|]. apply live_fold; [intros; by apply live_settle_one|done].
  - unfold expire. destruct (qheap b !! qp) as [q|] eqn:Eq; [|done]. destruct (list_find _ _) as [[i m]|]; [|done].
    destruct (qdeleted q); [done|]. eapply live_quiet; [|exact HL]. etrans; [|apply quiet_deadLetter].
    by apply (quiet_set_queue b qp q _ (qrr q)).
  - unfold DeleteQueue. destruct (queues b !! name); [by apply live_deleteQueue|done].
  - unfold Publish. destruct (exchanges b !! ex); [|done]. by eapply live_quiet; [apply quiet_route|].
  - apply live_fold; [intros; by apply live_shutdown_conn|done].
  - unfold Restart. eapply live_same; [reflexivity|reflexivity|]. apply live_fold; [intros; by apply live_restart_queue|].
    apply live_fold; [intros; by apply live_shutdown_conn|done].
Qed.

(** A broker as any operations leave it. *)
Record sound (b : Broker) : Prop := { sound_ok : ok b; sound_names : live_names b; sound_unique : unique b }.

Lemma sound_New : sound New.
Proof. destruct New_ok. by split. Qed.

Lemma sound_run_op o b : sound b -> sound (run_op o b).
Proof.
  intros [Hb HL Hu]. destruct (run_op_steps o b Hb) as (out & inn & S & _).
  split; [apply S|by apply live_run_op|by eapply steps_unique].
Qed.

(** It is well formed: declarations on it are as [declares] says. *)
Lemma sound_wf b : sound b -> wf b.
Proof.
  intros [Hb HL [_ Hu]]. split; [exact HL|apply (ok_inv _ Hb)|]. intros p q m Hq Hm.
  rewrite Forall_forall in Hu. apply (Hu (entry_of p m)). unfold ledger, waiting. apply elem_of_app. left.
  apply list_elem_of_bind. exists (p, q). split; [|by apply elem_of_map_to_list]. unfold queue_entries. by apply list_elem_of_fmap_2.
Qed.
