(* ===== verification/BrokerPump.v ===== *)
(** * BrokerPump: the goroutines that feed a consumer and a channel's listeners
    (internal/fakebroker/channel.go)

    A pump is an unbounded buffer, a one-place signal and a goroutine that hands
    the buffered items on. [deliveryPump] sends each item on a channel;
    [eventPump] runs each item, a blocking send of its own, after looking whether
    it was stopped. The broker of [Broker] takes what a pump forwards for
    delivered as soon as it is pushed: the lemmas here are what that rests on. *)
From S2P Require Import Prelude.

Section Pump.
Context {X : Type}.

(** An event pump looks at [quit] before each item. *)
Context (looks : bool).

Inductive pos := Looking | Waiting | Sending (x : X) | Running (x : X) | Ended.

Record pump := {
  items : list X;
  signal : bool;
  quit : bool;
  at_ : pos;
  signalling : nat;     (* pushes that have appended and not yet signalled *)
  out : list X;
  pushed : list X
}.

Definition newPump : pump :=
  {| items := []; signal := false; quit := false; at_ := Looking; signalling := 0; out := []; pushed := [] |}.

Definition moved (f : pos) (p : pump) : pump :=
  {| items := items p; signal := signal p; quit := quit p; at_ := f; signalling := signalling p; out := out p; pushed := pushed p |}.
Definition forwarded (x : X) (p : pump) : pump :=
  {| items := items p; signal := signal p; quit := quit p; at_ := Looking; signalling := signalling p; out := out p ++ [x];
     pushed := pushed p |}.

(** [push]: append under the lock, then a signal that does not block. *)
Inductive push_step (p : pump) : pump -> Prop :=
| push_append x : push_step p
    {| items := items p ++ [x]; signal := signal p; quit := quit p; at_ := at_ p; signalling := S (signalling p); out := out p;
       pushed := pushed p ++ [x] |}
| push_signal n : signalling p = S n -> push_step p
    {| items := items p; signal := true; quit := quit p; at_ := at_ p; signalling := n; out := out p; pushed := pushed p |}.

(** [stop], through its once. *)
Definition stop (p : pump) : pump :=
  {| items := items p; signal := signal p; quit := true; at_ := at_ p; signalling := signalling p; out := out p;
     pushed := pushed p |}.

(** [run]. An event stopped halfway is dropped. *)
Inductive run_step (p : pump) : pump -> Prop :=
| run_empty : at_ p = Looking -> items p = [] -> run_step p (moved Waiting p)
| run_take x xs : at_ p = Looking -> items p = x :: xs -> run_step p
    {| items := xs; signal := signal p; quit := quit p; at_ := Sending x; signalling := signalling p; out := out p;
       pushed := pushed p |}
| run_woken : at_ p = Waiting -> signal p = true -> run_step p
    {| items := items p; signal := false; quit := quit p; at_ := Looking; signalling := signalling p; out := out p;
       pushed := pushed p |}
| run_quit : at_ p = Waiting -> quit p = true -> run_step p (moved Ended p)
| run_send x : looks = false -> at_ p = Sending x -> run_step p (forwarded x p)
| run_stopped x : at_ p = Sending x -> quit p = true -> run_step p (moved Ended p)
| run_call x : looks = true -> at_ p = Sending x -> quit p = false -> run_step p (moved (Running x) p)
| run_called x : at_ p = Running x -> run_step p (forwarded x p)
| run_dropped x : at_ p = Running x -> quit p = true -> run_step p (moved Looking p).

Inductive step (p p' : pump) : Prop :=
| step_push : push_step p p' -> step p p'
| step_run : run_step p p' -> step p p'
| step_stop : p' = stop p -> step p p'.

(** ** What a pump promises *)

Definition held (f : pos) : list X := match f with Sending x | Running x => [x] | _ => [] end.

Record pump_ok (p : pump) : Prop := {
  pump_all : quit p = false \/ looks = false -> at_ p <> Ended -> pushed p = out p ++ held (at_ p) ++ items p;
  pump_running x : at_ p = Running x -> looks = true /\ pushed p = out p ++ [x] ++ items p;
  pump_prefix : out p `prefix_of` pushed p;
  pump_alive : quit p = false -> at_ p <> Ended;
  pump_wakes : at_ p = Waiting -> items p <> [] -> signal p = true \/ 0 < signalling p
}.

Lemma pump_step p p' : step p p' -> pump_ok p -> pump_ok p'.
Proof.
  intros Hs [H1 H2 H3 H4 H5].
  assert (forall x, quit p = false \/ looks = false -> at_ p = Sending x -> pushed p = (out p ++ [x]) ++ items p) as Hnext.
  { intros x Hq Hx. rewrite <-app_assoc, (H1 Hq) by congruence. by rewrite Hx. }
  destruct Hs as [Hs|Hs|Hs]; [destruct Hs as [x|n Hn]|destruct Hs as [Hp Hi|x xs Hp Hi|Hp Hsig|Hp Hq|x Hl Hp|x Hp Hq|x Hl Hp Hq|x Hp|x Hp Hq]|
    subst p']; simpl.
  - split; simpl; auto.
    + intros Hq Hp. rewrite (H1 Hq Hp). by rewrite <-!app_assoc.
    + intros y Hy. destruct (H2 y Hy) as [? ->]. by rewrite <-!app_assoc.
    + by apply prefix_app_r.
    + intros _ _. right. lia.
  - split; simpl; auto.
  - split; simpl; auto; [|congruence]. intros Hq _. rewrite (H1 Hq) by congruence. by rewrite Hp, Hi.
  - split; simpl; auto; try congruence. intros Hq _. rewrite (H1 Hq) by congruence. by rewrite Hp, Hi.
  - split; simpl; auto; try congruence. intros Hq _. rewrite (H1 Hq) by congruence. by rewrite Hp.
  - split; simpl; auto; congruence.
  - pose proof (Hnext x (or_intror Hl) Hp) as E. split; simpl; try congruence. rewrite E. by eexists.
  - split; simpl; auto; congruence.
  - pose proof (Hnext x (or_introl Hq) Hp) as E. rewrite <-app_assoc in E. split; simpl; auto; try congruence.
    intros y [= <-]. auto.
  - destruct (H2 x Hp) as [Hl E]. rewrite app_assoc in E. split; simpl; try congruence. rewrite E. by eexists.
  - destruct (H2 x Hp) as [Hl _]. split; simpl; auto; try congruence. intros [?|?]; congruence.
  - split; simpl; auto. intros [?|Hl] Hp; [done|]. auto.
Qed.

Lemma pump_reachable p : rtc step newPump p -> pump_ok p.
Proof. apply (rtc_invariant _ pump_ok); [intros a b; apply pump_step|]. by split. Qed.

(** Everything pushed so far can go out, without another push. *)
Definition drains (p : pump) : Prop := exists p', rtc step p p' /\ out p' = pushed p' /\ pushed p' = pushed p.

Lemma drains_l p p' : pump_ok p -> step p p' -> pushed p' = pushed p -> (pump_ok p' -> drains p') -> drains p.
Proof.
  intros Hok Hs E K. destruct K as (q & Hq & H1 & H2); [by eapply pump_step|]. exists q. split_and!; [by eapply rtc_l|done|congruence].
Qed.

Lemma drains_looking n p :
  length (items p) = n -> pump_ok p -> quit p = false -> at_ p = Looking -> drains p.
Proof.
  revert p. induction n as [|n IH]; intros p Hn Hok Hq Hp.
  - apply nil_length_inv in Hn. exists p. split_and!; [apply rtc_refl| |done].
    rewrite (pump_all p Hok (or_introl Hq)) by congruence. by rewrite Hp, Hn, app_nil_r.
  - destruct (items p) as [|x xs] eqn:Hi; [done|]. injection Hn as Hn.
    eapply drains_l; [done|by eapply step_run, run_take|done|]; clear Hok; intros Hok.
    destruct looks eqn:Hl.
    + eapply drains_l; [done|by eapply step_run, run_call|done|]; clear Hok; intros Hok. eapply drains_l; [done|by eapply step_run, run_called|done|]; clear Hok; intros Hok.
      by apply IH.
    + eapply drains_l; [done|by eapply step_run, run_send|done|]; clear Hok; intros Hok. by apply IH.
Qed.

(** A pump hands on what was pushed, in order; while it has not been stopped
    everything pushed can go out, so no wake-up is lost; and once it has been
    stopped it can end. *)
Lemma pump_forwards p :
  rtc step newPump p ->
  out p `prefix_of` pushed p /\ (quit p = false -> drains p) /\ (quit p = true -> exists p', rtc step p p' /\ at_ p' = Ended).
Proof.
  intros Hok%pump_reachable. split; [apply Hok|]. split.
  - intros Hq. assert (forall p', step p p' -> quit p' = false -> at_ p' = Looking -> pushed p' = pushed p -> drains p) as K.
    { intros p' Hs Hq' Hp' E. eapply drains_l; [done|done|done|]. intros Hok'. by eapply drains_looking. }
    destruct (at_ p) as [| |x|x|] eqn:Hp.
    + by eapply drains_looking.
    + destruct (signal p) eqn:Hsig; [by eapply K; [by apply step_run, run_woken|..]|].
      destruct (items p) as [|x xs] eqn:Hi.
      { exists p. split_and!; [apply rtc_refl| |done]. rewrite (pump_all p Hok (or_introl Hq)) by congruence.
        by rewrite Hp, Hi, app_nil_r. }
      destruct (signalling p) as [|m] eqn:Hm; [destruct (pump_wakes p Hok Hp) as [?|?]; [by rewrite Hi|congruence|lia]|].
      eapply drains_l; [done|by eapply step_push, push_signal|done|]; clear Hok; intros Hok. eapply drains_l; [done|by eapply step_run, run_woken|done|]; clear Hok; intros Hok.
      by eapply drains_looking.
    + destruct looks eqn:Hl; [|by eapply K; [by eapply step_run, run_send|..]].
      eapply drains_l; [done|by eapply step_run, run_call|done|]; clear Hok; intros Hok. eapply drains_l; [done|by eapply step_run, run_called|done|]; clear Hok; intros Hok.
      by eapply drains_looking.
    + by eapply K; [by eapply step_run, run_called|..].
    + by destruct (pump_alive p Hok Hq).
  - intros Hq. assert (forall q, quit q = true -> at_ q = Looking -> exists p', rtc step q p' /\ at_ p' = Ended) as K.
    { intros q Hq' Hp'. destruct (items q) as [|x xs] eqn:Hi.
      - eexists. split; [eapply rtc_l; [by apply step_run, run_empty|]; apply rtc_once, step_run; by apply run_quit|done].
      - eexists. split; [eapply rtc_l; [by eapply step_run, run_take|]; apply rtc_once, step_run; by eapply run_stopped|done]. }
    destruct (at_ p) as [| |x|x|] eqn:Hp; [by apply K|..].
    + eexists. split; [apply rtc_once, step_run; by apply run_quit|done].
    + eexists. split; [apply rtc_once, step_run; by eapply run_stopped|done].
    + destruct (K (moved Looking p) Hq eq_refl) as (p' & Hs & He). exists p'. split; [|done].
      eapply rtc_l; [|done]. by eapply step_run, run_dropped.
    + exists p. split; [apply rtc_refl|done].
Qed.
End Pump.
