(* ===== verification/Listeners.v ===== *)
(** * Listeners: the notification channels of a broker connection and channel
    (internal/fakebroker/channel.go, and the cancels of broker.go)

    A listener is a Go channel the client registers. What the broker does to it
    is send or close, from several goroutines: the event pump of [BrokerPump]
    sends confirms and returns, a goroutine of its own sends the close error, and
    a queue deleted by the broker has its cancels sent after the lock is released.
    Sending on a closed Go channel panics, and so does closing it twice. *)
From S2P Require Import Prelude BrokerPump.

(** What is left to do outside the lock. *)
Inductive task :=
| CloseWith (l : nat)              (* send the error, then close *)
| CloseNow (l : nat)
| CloseAfterWait (ls : list nat)   (* once the event pump has ended, close each *)
| SendCancel (l : nat).

Inductive effect := Send (l : nat) | SendTag (l : nat) | Close (l : nat).

Inductive kind := KClose | KPublish | KReturn | KCancel.

(** A channel, as far as its listeners go. [used] is every listener ever handed
    in, [shut] the ones that were closed, and [left] the listeners the event that
    runs has still to send to. *)
Record chan_ := {
  closed : bool;
  closeL : list nat; publishL : list nat; returnL : list nat; cancelL : list nat;
  events : @pump (list nat); left : list nat;
  tasks : list task;
  used : gset nat; shut : gset nat
}.

Definition new_chan : chan_ := {|
  closed := false; closeL := []; publishL := []; returnL := []; cancelL := []; events := newPump; left := []; tasks := [];
  used := ∅; shut := ∅ |}.

Definition with_pump (p : @pump (list nat)) (ls : list nat) (s : chan_) : chan_ := {|
  closed := closed s; closeL := closeL s; publishL := publishL s; returnL := returnL s; cancelL := cancelL s; events := p;
  left := ls; tasks := tasks s; used := used s; shut := shut s |}.

Definition with_tasks (ts : list task) (s : chan_) : chan_ := {|
  closed := closed s; closeL := closeL s; publishL := publishL s; returnL := returnL s; cancelL := cancelL s; events := events s;
  left := left s; tasks := ts; used := used s; shut := shut s |}.

Definition closing (l : nat) (s : chan_) : chan_ := {|
  closed := closed s; closeL := closeL s; publishL := publishL s; returnL := returnL s; cancelL := cancelL s; events := events s;
  left := left s; tasks := tasks s; used := used s; shut := {[ l ]} ∪ shut s |}.

(** [NotifyClose], [NotifyPublish], [NotifyReturn], [NotifyCancel]: on a closed
    channel the listener is closed at once. *)
Definition registered (k : kind) (l : nat) (s : chan_) : chan_ := {|
  closed := closed s;
  closeL := closeL s ++ match k with KClose => [l] | _ => [] end;
  publishL := publishL s ++ match k with KPublish => [l] | _ => [] end;
  returnL := returnL s ++ match k with KReturn => [l] | _ => [] end;
  cancelL := cancelL s ++ match k with KCancel => [l] | _ => [] end;
  events := events s; left := left s; tasks := tasks s; used := {[ l ]} ∪ used s; shut := shut s |}.

Definition refused (l : nat) (s : chan_) : chan_ := {|
  closed := closed s; closeL := closeL s; publishL := publishL s; returnL := returnL s; cancelL := cancelL s; events := events s;
  left := left s; tasks := tasks s; used := {[ l ]} ∪ used s; shut := {[ l ]} ∪ shut s |}.

(** [notifyClose]: with an error, it is sent first. *)
Definition notifyClose (ls : list nat) (err : bool) : list task := (if err then CloseWith else CloseNow) <$> ls.

(** [shutdown], of what concerns the listeners. *)
Definition shutdown (err : bool) (s : chan_) : chan_ :=
  if closed s then s else {|
    closed := true; closeL := []; publishL := []; returnL := []; cancelL := [];
    events := stop (events s); left := left s;
    tasks := notifyClose (closeL s) err ++ CloseAfterWait (publishL s ++ returnL s ++ cancelL s) :: tasks s;
    used := used s; shut := shut s |}.

(** [emitReturn] and [emitConfirm] push an event for the listeners there are. *)
Definition emit (ls : list nat) (p : @pump (list nat)) : @pump (list nat) := {|
  items := items p ++ [ls]; signal := signal p; quit := quit p; at_ := at_ p; signalling := S (signalling p); out := out p;
  pushed := pushed p ++ [ls] |}.

(** The cancels [deleteQueue] leaves for after the lock, for one consumer. *)
Definition cancelled (s : chan_) : chan_ := with_tasks ((SendCancel <$> cancelL s) ++ tasks s) s.

(** Every listener handed in is a Go channel of its own. *)
Inductive step (s : chan_) : option effect -> chan_ -> Prop :=
| s_notify k l : l ∉ used s -> closed s = false -> step s None (registered k l s)
| s_refused l : l ∉ used s -> closed s = true -> step s (Some (Close l)) (refused l s)
| s_return : step s None (with_pump (emit (returnL s) (events s)) (left s) s)
| s_confirm : step s None (with_pump (emit (publishL s) (events s)) (left s) s)
| s_signal p : push_step (events s) p -> pushed p = pushed (events s) -> step s None (with_pump p (left s) s)
| s_shutdown err : step s None (shutdown err s)
| s_cancelled : step s None (cancelled s)
(* the event pump *)
| s_pump p : run_step true (events s) p -> (forall ls, at_ (events s) <> Running ls) -> (forall ls, at_ p <> Running ls) ->
    step s None (with_pump p (left s) s)
| s_call p ls : run_step true (events s) p -> at_ p = Running ls -> step s None (with_pump p ls s)
| s_send ls l left' : at_ (events s) = Running ls -> left s = l :: left' -> step s (Some (Send l)) (with_pump (events s) left' s)
| s_called ls : at_ (events s) = Running ls -> left s = [] -> step s None (with_pump (forwarded ls (events s)) [] s)
| s_dropped ls : at_ (events s) = Running ls -> quit (events s) = true ->
    step s None (with_pump (moved Looking (events s)) [] s)
(* the goroutines *)
| s_error l ts : tasks s ≡ₚ CloseWith l :: ts -> step s (Some (Send l)) (with_tasks (CloseNow l :: ts) s)
| s_close l ts : tasks s ≡ₚ CloseNow l :: ts -> step s (Some (Close l)) (closing l (with_tasks ts s))
| s_waited l ls ts : tasks s ≡ₚ CloseAfterWait (l :: ls) :: ts -> at_ (events s) = Ended ->
    step s (Some (Close l)) (closing l (with_tasks (CloseAfterWait ls :: ts) s))
| s_wait_done ts : tasks s ≡ₚ CloseAfterWait [] :: ts -> at_ (events s) = Ended -> step s None (with_tasks ts s)
| s_cancel l ts : tasks s ≡ₚ SendCancel l :: ts -> step s (Some (SendTag l)) (with_tasks ts s).

Definition reachable (s : chan_) : Prop := rtc (fun a b => exists e, step a e b) new_chan s.

(** ** Who will close a listener *)

Definition closers (t : task) : list nat := match t with CloseWith l | CloseNow l => [l] | _ => [] end.
Definition waits (t : task) : list nat := match t with CloseAfterWait ls => ls | _ => [] end.

Definition eventful (s : chan_) : list nat := publishL s ++ returnL s ++ cancelL s ++ (tasks s ≫= waits).
Definition owners (s : chan_) : list nat := closeL s ++ (tasks s ≫= closers) ++ eventful s.

(** The listeners events still to come are sent to. *)
Definition targets (s : chan_) : list nat := concat (items (events s)) ++ concat (held (at_ (events s))) ++ left s.

(** Listeners are open, each with one owner, or closed. *)
Definition book (os : list nat) (u c : gset nat) : Prop :=
  NoDup os /\ (forall l, l ∈ os -> l ∉ c) /\ (forall l, l ∈ u <-> l ∈ os \/ l ∈ c).

(** And what the pump has still to send goes to listeners that only close after
    it has ended. *)
Record inv (s : chan_) : Prop := {
  inv_book : book (owners s) (used s) (shut s);
  inv_targets l : at_ (events s) <> Ended -> l ∈ targets s -> l ∈ eventful s;
  inv_closed : closed s = true -> closeL s ++ publishL s ++ returnL s ++ cancelL s = [] /\ quit (events s) = true
}.

#[local] Instance book_proper : Proper ((≡ₚ) ==> (=) ==> (=) ==> iff) book.
Proof.
  intros os os' Ho u ? <- c ? <-. assert (forall l, l ∈ os <-> l ∈ os') as He by (intros l; by rewrite Ho).
  unfold book. rewrite Ho. by setoid_rewrite He.
Qed.

Lemma book_add l os u c : book os u c -> l ∉ u -> book (l :: os) ({[ l ]} ∪ u) c.
Proof.
  intros (H1 & H2 & H3) Hl. split_and!.
  - apply NoDup_cons_2; [rewrite H3 in Hl; tauto|done].
  - intros x [->|Hx]%elem_of_cons; [rewrite H3 in Hl; tauto|auto].
  - intros x. rewrite elem_of_union, elem_of_singleton, elem_of_cons, H3. tauto.
Qed.

Lemma book_refuse l os u c : book os u c -> l ∉ u -> book os ({[ l ]} ∪ u) ({[ l ]} ∪ c).
Proof.
  intros (H1 & H2 & H3) Hl. rewrite H3 in Hl. split_and!; [done|set_solver|]. intros x. rewrite !elem_of_union, H3. tauto.
Qed.

Lemma book_close l os u c : book (l :: os) u c -> book os u ({[ l ]} ∪ c).
Proof.
  intros (H1 & H2 & H3). apply NoDup_cons in H1 as [Hn H1]. split_and!; [done|set_solver|]. intros x. rewrite H3. set_solver.
Qed.

Lemma closers_notify err ls : notifyClose ls err ≫= closers = ls /\ notifyClose ls err ≫= waits = [].
Proof. unfold notifyClose. destruct err; induction ls as [|l ls [IH1 IH2]]; csimpl; rewrite ?IH1, ?IH2; done. Qed.

Lemma cancels_own (ls : list nat) : (SendCancel <$> ls) ≫= closers = [] /\ (SendCancel <$> ls) ≫= waits = [].
Proof. induction ls as [|l ls [IH1 IH2]]; csimpl; rewrite ?IH1, ?IH2; done. Qed.

(** A pump that has not been called into has its events from its items. *)
Lemma pump_targets (p p' : @pump (list nat)) ls :
  run_step true p p' -> (forall x, at_ p <> Running x) ->
  at_ p <> Ended /\ (forall l, l ∈ concat (items p') ++ concat (held (at_ p')) ++ ls -> l ∈ concat (items p) ++ concat (held (at_ p)) ++ ls).
Proof.
  intros Hs Hr. destruct Hs as [Hp Hi|x xs Hp Hi|Hp Hsig|Hp Hq|x Hl Hp|x Hp Hq|x Hl Hp Hq|x Hp|x Hp Hq]; simpl; rewrite ?Hp, ?Hi; simpl;
    try (split; [done|set_solver]); try done; exfalso; by eapply Hr.
Qed.

Lemma pump_quit looks p p' : @run_step (list nat) looks p p' -> quit p' = quit p.
Proof. by destruct 1. Qed.

Lemma signal_targets (p p' : @pump (list nat)) ls :
  push_step p p' -> pushed p' = pushed p ->
  quit p' = quit p /\ at_ p' = at_ p /\ concat (items p') ++ concat (held (at_ p')) ++ ls = concat (items p) ++ concat (held (at_ p)) ++ ls.
Proof.
  destruct 1 as [x|n Hn]; simpl; [|done]. intros E. exfalso. apply (f_equal length) in E. rewrite length_app in E. simpl in E. lia.
Qed.

Ltac owned := unfold owners, eventful, targets in *; csimpl in *.

Lemma inv_emit ls s : inv s -> (forall l, l ∈ ls -> l ∈ eventful s) -> inv (with_pump (emit ls (events s)) (left s) s).
Proof.
  intros [Hb Ht Hc] Hls. split; [done| |done]. intros l Hp Hl. unfold targets in Hl; simpl in Hl. rewrite concat_app in Hl. simpl in Hl.
  rewrite app_nil_r, !elem_of_app in Hl. destruct Hl as [[?|?]|Hl]; [|by apply Hls|]; apply Ht; [done| |done|];
    unfold targets; rewrite !elem_of_app; tauto.
Qed.

Lemma tasks_bind {Y} (f : task -> list Y) (ts : list task) t ts' : ts ≡ₚ t :: ts' -> ts ≫= f ≡ₚ f t ++ (ts' ≫= f).
Proof. intros H. by rewrite H. Qed.


(** A goroutine's step takes the task from [t] to [t'], keeping the listener in
    hand or closing it. *)
Lemma inv_task s t ts t' :
  tasks s ≡ₚ t :: ts -> inv s ->
  (closers t = closers t' /\ waits t = waits t') -> inv (with_tasks (t' :: ts) s).
Proof.
  intros Hts [Hb Ht Hc] [E1 E2].
  assert (tasks s ≫= closers ≡ₚ (t' :: ts) ≫= closers) as Hcl by (rewrite (tasks_bind _ _ _ _ Hts); simpl; by rewrite E1).
  assert (tasks s ≫= waits ≡ₚ (t' :: ts) ≫= waits) as Hw by (rewrite (tasks_bind _ _ _ _ Hts); simpl; by rewrite E2).
  split; [|intros l Hp Hl; specialize (Ht l Hp Hl)|done]; owned; by rewrite <-?Hcl, <-Hw.
Qed.

Lemma inv_drop s t ts : tasks s ≡ₚ t :: ts -> inv s -> closers t = [] /\ waits t = [] -> inv (with_tasks ts s).
Proof.
  intros Hts [Hb Ht Hc] [E1 E2].
  assert (tasks s ≫= closers ≡ₚ ts ≫= closers) as Hcl by (rewrite (tasks_bind _ _ _ _ Hts); by rewrite E1).
  assert (tasks s ≫= waits ≡ₚ ts ≫= waits) as Hw by (rewrite (tasks_bind _ _ _ _ Hts); by rewrite E2).
  split; [|intros l Hp Hl; specialize (Ht l Hp Hl)|done]; owned; by rewrite <-?Hcl, <-Hw.
Qed.

Lemma inv_close s l ts : tasks s ≡ₚ CloseNow l :: ts -> inv s -> inv (closing l (with_tasks ts s)).
Proof.
  intros Hts [Hb Ht Hc]. pose proof (tasks_bind closers _ _ _ Hts) as Hcl. pose proof (tasks_bind waits _ _ _ Hts) as Hw. simpl in Hcl, Hw.
  split; [|intros x Hp Hl; specialize (Ht x Hp Hl); owned; by rewrite <-Hw|done].
  apply book_close. owned. rewrite Hcl, Hw in Hb.
  csimpl in Hb. by rewrite <-Permutation_middle in Hb.
Qed.

Lemma inv_waited s l ls ts :
  tasks s ≡ₚ CloseAfterWait (l :: ls) :: ts -> at_ (events s) = Ended -> inv s -> inv (closing l (with_tasks (CloseAfterWait ls :: ts) s)).
Proof.
  intros Hts He [Hb Ht Hc]. pose proof (tasks_bind closers _ _ _ Hts) as Hcl. pose proof (tasks_bind waits _ _ _ Hts) as Hw. simpl in Hcl, Hw.
  split; [|simpl; by rewrite He|done]. apply book_close. owned. rewrite Hcl, Hw in Hb.
  csimpl in Hb. by rewrite !app_assoc, <-Permutation_middle, <-!app_assoc in Hb.
Qed.

Lemma inv_close_all err s : inv s -> inv (shutdown err s).
Proof.
  intros Hi. unfold shutdown. destruct (closed s) eqn:E; [done|]. destruct Hi as [Hb Ht Hc].
  destruct (closers_notify err (closeL s)) as [E1 E2]. split; [|intros l Hp Hl; specialize (Ht l Hp Hl)|done]; owned;
    rewrite !bind_app, ?E1, E2; simpl.
  - by rewrite <-!app_assoc.
  - rewrite !elem_of_app in *. tauto.
Qed.

Lemma inv_registered k l s : inv s -> l ∉ used s -> closed s = false -> inv (registered k l s).
Proof.
  intros [Hb Ht Hc] Hl E. split; [|intros x Hp Hx; specialize (Ht x Hp Hx)|by simpl; rewrite E].
  - pose proof (book_add l _ _ _ Hb Hl) as Ha. owned. destruct k; rewrite ?app_nil_r in *.
    + rewrite <-app_assoc. simpl. by rewrite <-Permutation_middle.
    + rewrite <-(app_assoc (publishL s)). simpl. by rewrite !app_assoc, <-Permutation_middle, <-!app_assoc.
    + rewrite <-(app_assoc (returnL s)). simpl. by rewrite !app_assoc, <-Permutation_middle, <-!app_assoc.
    + rewrite <-(app_assoc (cancelL s)). simpl. by rewrite !app_assoc, <-Permutation_middle, <-!app_assoc.
  - owned. rewrite !elem_of_app in *. tauto.
Qed.

Lemma inv_step s e s' : step s e s' -> inv s -> inv s'.
Proof.
  intros Hs Hi. destruct Hs as [k l Hl Hc|l Hl Hc| | |p Hp He|err| |p Hr Hn Hn'|p ls Hr Hp|ls l left' Hr Hl|ls Hr Hl|ls Hr Hq|l ts Ht|l ts Ht|l ls ts Ht He|ts Ht He|l ts Ht].
  - by apply inv_registered.
  - destruct Hi as [Hb Ht Hx]. split; [by apply book_refuse|done|done].
  - apply inv_emit; [done|]. intros l Hl. unfold eventful. rewrite !elem_of_app. tauto.
  - apply inv_emit; [done|]. intros l Hl. unfold eventful. rewrite !elem_of_app. tauto.
  - destruct Hi as [Hb Ht Hx]. destruct (signal_targets _ _ (left s) Hp He) as (Eq & Ea & Et).
    split; [done| |simpl; by rewrite Eq]. intros l. unfold targets. simpl. rewrite Et. simpl. rewrite Ea. apply Ht.
  - by apply inv_close_all.
  - destruct Hi as [Hb Ht Hx]. destruct (cancels_own (cancelL s)) as [E1 E2].
    split; [|intros l Hp Hl; specialize (Ht l Hp Hl)|done]; owned; by rewrite !bind_app, ?E1, E2.
  - destruct Hi as [Hb Ht Hx]. destruct (pump_targets _ _ (left s) Hr Hn) as [Ha Hsub].
    split; [done| |simpl; by rewrite (pump_quit _ _ _ Hr)]. intros l _ Hl. apply Ht; [done|]. by apply Hsub.
  - destruct Hi as [Hb Ht Hx]. split; [done| |simpl; by rewrite (pump_quit _ _ _ Hr)]. intros l _ Hl. simpl in Ht.
    destruct Hr as [| | | |x Hl' |x Hp' Hq|x Hl' Hp' Hq|x Hp'|x Hp' Hq]; simpl in *; try done. injection Hp as <-.
    apply Ht; [congruence|]. owned. rewrite Hp'. simpl. rewrite !elem_of_app in *. tauto.
  - destruct Hi as [Hb Ht Hx]. split; [done| |done]. intros x Hp Hl'. apply Ht; [done|]. unfold targets in *. simpl in *. rewrite Hl.
    rewrite !elem_of_app, elem_of_cons in *. tauto.
  - destruct Hi as [Hb Ht Hx]. split; [done| |done]. intros x Hp Hl'. apply Ht; [congruence|]. unfold targets in *. simpl in *.
    rewrite !elem_of_app in *. rewrite elem_of_nil in Hl'. tauto.
  - destruct Hi as [Hb Ht Hx]. split; [done| |done]. intros x Hp Hl'. apply Ht; [congruence|]. unfold targets in *. simpl in *.
    rewrite !elem_of_app in *. rewrite elem_of_nil in Hl'. tauto.
  - by eapply inv_task.
  - by apply inv_close.
  - by apply inv_waited.
  - by eapply inv_drop.
  - by eapply inv_drop.
Qed.

Lemma inv_reachable s : reachable s -> inv s.
Proof.
  apply (rtc_invariant _ inv); [intros a b [e Hs]; by eapply inv_step|].
  split; [|owned; set_solver|done]. split_and!; owned; [constructor|set_solver|set_solver].
Qed.

(** ** What the listeners see *)

(** A confirm, a return or a close error never goes to a closed listener, and no
    listener is closed twice. *)
Lemma notify_safe s e s' :
  reachable s -> step s (Some e) s' -> match e with Send l | Close l => l ∉ shut s | SendTag _ => True end.
Proof.
  intros [(Hn & Ho & Hu) Ht Hc]%inv_reachable Hs.
  assert (forall t ts l, tasks s ≡ₚ t :: ts -> l ∈ closers t ++ waits t -> l ∉ shut s) as K.
  { intros t ts l Hts Hl. apply Ho. unfold owners, eventful. rewrite (tasks_bind closers _ _ _ Hts), (tasks_bind waits _ _ _ Hts).
    rewrite !elem_of_app in *. tauto. }
  inversion Hs as [|l Hl| | | | | | | |ls l left' Hr Hl| | |l ts Hts|l ts Hts|l ls ts Hts| |l ts Hts]; subst; simpl; try done;
    try (eapply K; [done|]; simpl; set_solver).
  - rewrite Hu in Hl. tauto.
  - apply Ho. unfold owners. rewrite !elem_of_app. right. right. apply Ht; [congruence|]. unfold targets. rewrite Hl. set_solver.
Qed.

(** ** A closed channel closes its listeners *)

Definition settled (s : chan_) : Prop :=
  exists s', rtc (fun a b => exists e, step a e b) s s' /\ used s' = used s /\ forall l, l ∈ used s -> l ∈ shut s'.

Lemma settled_l s e s' : step s e s' -> used s' = used s -> settled s' -> settled s.
Proof. intros Hs Hu (q & Hq & E & Hl). exists q. split_and!; [eapply rtc_l; [by eexists|done]|congruence|by rewrite <-Hu]. Qed.

Definition work (t : task) : nat :=
  match t with CloseWith _ => 2 | CloseNow _ | SendCancel _ => 1 | CloseAfterWait ls => S (length ls) end.

Lemma tasks_settle n s :
  list_sum (work <$> tasks s) = n -> inv s -> closed s = true -> at_ (events s) = Ended -> settled s.
Proof.
  revert s. induction n as [n IH] using lt_wf_ind. intros s Hn Hi Hc He.
  assert (forall e s', step s e s' -> used s' = used s -> list_sum (work <$> tasks s') < list_sum (work <$> tasks s) ->
    closed s' = true -> at_ (events s') = Ended -> settled s) as K.
  { intros e s' Hs Hu Hlt Hc' He'. eapply settled_l; [done..|]. eapply IH; [|done|by eapply inv_step|done|done]. lia. }
  destruct (tasks s) as [|[l|l|[|l ls]|l] ts] eqn:Hts.
  - exists s. split_and!; [apply rtc_refl|done|]. destruct Hi as [(_ & _ & Hu) _ Hx]. destruct (Hx Hc) as [Hx0 _].
    intros l [Hl|Hl]%Hu; [exfalso|done]. apply app_nil in Hx0 as [X1 Hx0]. apply app_nil in Hx0 as [X2 Hx0].
    apply app_nil in Hx0 as [X3 X4]. unfold owners, eventful in Hl. rewrite X1, X2, X3, X4, Hts in Hl. by apply elem_of_nil in Hl.
  - eapply K; [by eapply s_error; rewrite Hts|done|csimpl; lia|done|done].
  - eapply K; [by eapply s_close; rewrite Hts|done|csimpl; lia|done|done].
  - eapply K; [eapply s_wait_done; [by rewrite Hts|done]|done|csimpl; lia|done|done].
  - eapply K; [eapply s_waited; [by rewrite Hts|done]|done|csimpl; lia|done|done].
  - eapply K; [by eapply s_cancel; rewrite Hts|done|csimpl; lia|done|done].
Qed.

Definition settles_at (f : @pos (list nat)) : Prop :=
  forall s, inv s -> closed s = true -> at_ (events s) = f -> settled s.

(** The pump's next move, when what it moves to settles. *)
Lemma settle_pump s p :
  inv s -> closed s = true -> run_step true (events s) p -> (forall ls, at_ (events s) <> Running ls) ->
  (forall ls, at_ p <> Running ls) -> settles_at (at_ p) -> settled s.
Proof.
  intros Hi Hc Hr H1 H2 K. pose proof (s_pump s p Hr H1 H2) as Hs. eapply settled_l; [exact Hs|done|].
  apply K; [by eapply inv_step|done|done].
Qed.

Lemma settles_looking : settles_at Looking.
Proof.
  assert (settles_at Ended) as K by (intros s ? ? ?; by eapply tasks_settle).
  intros s Hi Hc Hl. destruct (items (events s)) as [|x xs] eqn:E; (eapply settle_pump; [done..| | | |]);
    [by apply run_empty|intros ? ?; congruence|done| |by eapply run_take|intros ? ?; congruence|done|]; intros q Hq Hcq Hat; simpl in Hat;
    destruct (inv_closed _ Hq Hcq) as [_ Hquit].
  - eapply settle_pump; [done..|by apply run_quit|intros ? ?; congruence|done|done].
  - eapply settle_pump; [done..|by eapply run_stopped|intros ? ?; congruence|done|done].
Qed.

(** Once its channel is closed, every listener ever handed in can be closed
    too, whatever the pump was doing, as long as the listeners are read. *)
Lemma shutdown_closes s : reachable s -> closed s = true -> settled s.
Proof.
  intros Hi%inv_reachable Hc. destruct (inv_closed _ Hi Hc) as [_ Hquit].
  assert (settles_at Ended) as K by (intros q ? ? ?; by eapply tasks_settle).
  destruct (at_ (events s)) as [| |x|x|] eqn:E.
  - by apply settles_looking.
  - eapply settle_pump; [done..|by apply run_quit|intros ? ?; congruence|done|done].
  - eapply settle_pump; [done..|by eapply run_stopped|intros ? ?; congruence|done|done].
  - assert (step s None (with_pump (moved Looking (events s)) [] s)) as Hs by (by eapply s_dropped).
    eapply settled_l; [exact Hs|done|]. apply settles_looking; [by eapply inv_step|done|done].
  - by apply K.
Qed.

(** A cancel has no such protection: the send waits outside the lock while the
    channel closes, and then meets a closed listener. *)
Lemma cancel_after_close : exists s s' l, reachable s /\ step s (Some (SendTag l)) s' /\ l ∈ shut s.
Proof.
  assert (exists s ts, reachable s /\ tasks s ≡ₚ SendCancel 0 :: ts /\ 0 ∈ shut s) as (s & ts & Hr & Ht & Hs);
    [|exists s, (with_tasks ts s), 0; split_and!; [done|by eapply s_cancel|done]].
  do 2 eexists. split.
  { eapply rtc_l; [eexists; by apply (s_notify _ KCancel 0)|]. eapply rtc_l; [eexists; by apply s_cancelled|].
    eapply rtc_l; [eexists; by apply (s_shutdown _ false)|].
    eapply rtc_l; [eexists; apply s_pump; [by apply run_empty|done|done]|].
    eapply rtc_l; [eexists; apply s_pump; [by apply run_quit|done|done]|].
    eapply rtc_l; [eexists; eapply (s_waited _ 0 []); [by simpl|done]|]. apply rtc_refl. }
  split; [|set_solver]. simpl. apply Permutation_swap.
Qed.
