(* ===== verification/Topology.v ===== *)
(** * Topology: queues, exchanges and the way back from the retry queue
    (service.go, eventlistener.go, consumer.go)

    What a service and an event listener declare on the broker: their consumer
    specifications, the retry topology, and the declarations of a consumer's
    restore, run against the broker of [Broker]. The theorem is about the loop
    these declarations close: a copy parked for retry comes back to the queue it
    failed on, under its own routing key, and a retried event comes back to no
    other listener. *)
From S2P Require Import Prelude GoStrings Config Topic Headers Errors Names Consumer Service Events Broker.

Local Open Scope Z_scope.

(** ** Declaring on the broker *)

(** Code that declares: the broker threaded, stopping at the first error. *)
Definition D (X : Type) : Type := Broker -> Broker * (X + err).

#[local] Instance D_ret : MRet D := fun X x b => (b, inl x).
#[local] Instance D_bind : MBind D := fun X Y f m b =>
  match m b with (b', inl x) => f x b' | (b', inr e) => (b', inr e) end.

(** An error of the AMQP client as an error value. *)
Definition amqp_err (e : amqp_error) : err :=
  match e with
  | AErrClosed => ESentinel AmqpErrClosed
  | AChannel code reason =>
      EForeign "Error" ("Exception (" +:+ pretty code +:+ ") Reason: " +:+ Quote reason) NoCode None
  end.

(** [fmt.Errorf("<what>: %w", err)] *)
Definition wrapped (what : string) (e : amqp_error) : err :=
  EWrap (what +:+ ": " +:+ error_text (amqp_err e)) (amqp_err e).

Definition exchange_topic (ch : nat) (name : string) (fail : amqp_error -> err) : D unit := fun b =>
  match ExchangeDeclare ch name "topic" true false false b with
  | (b', None) => (b', inl tt)
  | (b', Some e) => (b', inr (fail e))
  end.

Definition queue_declare (ch : nat) (name : string) (durable autoDelete exclusive : bool) (args : Table)
    (fail : amqp_error -> err) : D string := fun b =>
  match QueueDeclare ch name durable autoDelete exclusive args b with
  | (b', inl n) => (b', inl n)
  | (b', inr e) => (b', inr (fail e))
  end.

Definition queue_bind (ch : nat) (queue key ex : string) (fail : amqp_error -> err) : D unit := fun b =>
  match QueueBind ch queue key ex b with
  | (b', None) => (b', inl tt)
  | (b', Some e) => (b', inr (fail e))
  end.

(** [Duration.Milliseconds] *)
Definition Milliseconds (d : Z) : Z := Z.quot d Millisecond.

Definition retry_args (delay : Z) (deadLetterTo : string) : Table :=
  <["x-message-ttl" := intHeader (Milliseconds delay)]> (<["x-dead-letter-exchange" := VString deadLetterTo]> ∅).

(** The error of the retry queue's declaration. *)
Definition retry_queue_error (rs : retrySpec) (delay : Z) (e : amqp_error) : err :=
  match e with
  | AChannel code reason =>
      if code =? PreconditionFailed then
        EWrap (sentinel_text ErrRetryQueueMismatch +:+ ": " +:+ rqueue rs
               +:+ " already exists with other arguments (most likely a different retry delay, now "
               +:+ duration_string delay
               +:+ "). RabbitMQ cannot change a queue's x-message-ttl in place: drain and delete the queue, or "
               +:+ "keep the original delay: " +:+ error_text (amqp_err e)) (ESentinel ErrRetryQueueMismatch)
      else wrapped ("declaring " +:+ rqueue rs) e
  | AErrClosed => wrapped ("declaring " +:+ rqueue rs) e
  end.

Definition declareRetryTopology (ch : nat) (rs : retrySpec) (delay : Z) (deadLetterTo : string) : D unit :=
  _ ← queue_declare ch (dlq rs) true false false ∅ (wrapped ("declaring " +:+ dlq rs));
  _ ← queue_declare ch (rqueue rs) true false false (retry_args delay deadLetterTo) (retry_queue_error rs delay);
  _ ← exchange_topic ch (rexchange rs) (wrapped ("declaring " +:+ rexchange rs));
  queue_bind ch (rqueue rs) "#" (rexchange rs) (wrapped ("binding " +:+ rqueue rs)).

(** ** Specifications *)

(** What a consumer declares besides its queue and bindings. *)
Inductive declare := NoRetry | RetryTo (delay : Z) (deadLetterTo : string) | RetryVia (delay : Z) (redelivery : string).

(** A consumer's specification with its topology. *)
Record topologySpec := {
  tspec : consumerSpec;
  tqueueArgs : Table;
  texchange : string;
  tbindings : list string;
  tdeclare : declare
}.

Definition retry_names (queue : string) (n : Z) : retrySpec := {|
  maxRetries := n; rexchange := queue +:+ ".Retry.Exchange"; rqueue := queue +:+ ".Retry"; dlq := queue +:+ ".DLQ" |}.

Section Specs.
Context {P : Wire.Protowire} {A : GoArch}.

(** [Service.requestSpec] *)
Definition requestSpec (cfg : Config) (s : Service) : topologySpec :=
  let o := opts s in
  let r := oretry o in
  let retries := (0 <? MaxRetries r) && negb (earlyAck o) in
  {| tspec := {|
       squeue := name s;
       lateAck := negb (earlyAck o);
       prefetch := maxConcurrent o;
       concurrency := maxConcurrent o;
       stimeout := if 0 <? processingTimeout o then processingTimeout o else Config.ProcessingTimeout cfg;
       retry := if retries then Some (retry_names (name s) (MaxRetries r)) else None;
       dlqHandled := false;
       Consumer.timeoutReply := Some (Service.timeoutReply s);
       callbacksExchange := CallbacksExchange cfg |};
     tqueueArgs :=
       (let args := if 0 <? MessageTTL r then <["x-message-ttl" := intHeader (Milliseconds (MessageTTL r))]> ∅ else ∅ in
        match maxPriority o with Some p => <["x-max-priority" := VInt32 p]> args | None => args end);
     texchange := BusExchange cfg;
     tbindings := ["REQUEST." +:+ name s +:+ ".*"];
     tdeclare := if retries then RetryTo (Delay r) (BusExchange cfg) else NoRetry |}.

(** [Bus.newEventListener], its consumer's specification. *)
Definition listenerSpec (cfg : Config) (queue : string) (n : Z) (r : EventRetryPolicy) (l : EventListener) : topologySpec :=
  let retries := (0 <? EMaxRetries r) && bool_decide (queue <> "") in
  {| tspec := {|
       squeue := queue; lateAck := true; prefetch := n; concurrency := n;
       stimeout := Config.ProcessingTimeout cfg;
       retry := if retries then Some (retry_names queue (EMaxRetries r)) else None;
       dlqHandled := retries;
       Consumer.timeoutReply := None;
       callbacksExchange := CallbacksExchange cfg |};
     tqueueArgs := ∅;
     texchange := EventsExchange cfg;
     tbindings := bindings l;
     tdeclare := if retries then RetryVia (EDelay r) (queue +:+ ".Redelivery") else NoRetry |}.
End Specs.

(** [spec.declare] *)
Definition run_declare (ch : nat) (t : topologySpec) (q : string) : D unit :=
  match tdeclare t, retry (tspec t) with
  | RetryTo delay dlx, Some rs => declareRetryTopology ch rs delay dlx
  | RetryVia delay redelivery, Some rs =>
      _ ← exchange_topic ch redelivery (wrapped ("declaring " +:+ redelivery));
      _ ← queue_bind ch q "#" redelivery (wrapped ("binding " +:+ redelivery));
      declareRetryTopology ch rs delay redelivery
  | _, _ => mret tt
  end.

Fixpoint bind_all (ch : nat) (q ex : string) (keys : list string) : D unit :=
  match keys with
  | [] => mret tt
  | k :: keys' =>
      _ ← queue_bind ch q k ex (wrapped ("binding " +:+ q +:+ " to " +:+ k));
      bind_all ch q ex keys'
  end.

(** The declarations of [consumer.restoreTopology], on its new channel. *)
Definition declareTopology (ch : nat) (t : topologySpec) : D string :=
  let sp := tspec t in
  let anonymous := bool_decide (squeue sp = "") in
  _ ← (fun b => match Qos ch (prefetch sp) b with
                | (b', None) => (b', inl tt)
                | (b', Some e) => (b', inr (amqp_err e))
                end) : D unit;
  _ ← exchange_topic ch (texchange t) (wrapped ("declaring exchange " +:+ texchange t));
  q ← queue_declare ch (squeue sp) (negb anonymous) anonymous anonymous (tqueueArgs t)
        (wrapped ("declaring queue " +:+ squeue sp));
  _ ← bind_all ch q (texchange t) (tbindings t);
  _ ← run_declare ch t q;
  mret q.

(** ** What the declarations leave on the broker *)

Lemma D_bind_ok {X Y : Type} (m : D X) (f : X -> D Y) b b' y :
  (m ≫= f) b = (b', inl y) -> exists b1 x, m b = (b1, inl x) /\ f x b1 = (b', inl y).
Proof. unfold mbind, D_bind. destruct (m b) as [b1 [x|e]]; [eauto|done]. Qed.

Lemma exchange_topic_ok ch n f b b' :
  exchange_topic ch n f b = (b', inl tt) -> declares b b' [] /\ exists e, exchanges b' !! n = Some e /\ ekind e = "topic".
Proof.
  unfold exchange_topic. destruct (ExchangeDeclare _ _ _ _ _ _ b) as [b1 [e|]] eqn:E; [done|]. intros [= <-].
  by eapply ExchangeDeclare_ok.
Qed.

Lemma queue_declare_ok ch n d a x args f b b' m :
  n <> "" -> queue_declare ch n d a x args f b = (b', inl m) ->
  m = n /\ declares b b' [] /\
  (wf b -> exists p q, queues b' !! n = Some p /\ qheap b' !! p = Some q /\ queue_ok n q /\
     argsEquivalent (qargs q) args = true).
Proof.
  intros Hn. unfold queue_declare. destruct (QueueDeclare _ _ _ _ _ _ b) as [b1 [k|e]] eqn:E; [|done]. intros [= <- <-].
  by eapply QueueDeclare_ok.
Qed.

Lemma queue_bind_ok ch q k ex f b b' :
  queue_bind ch q k ex f b = (b', inl tt) ->
  ex <> "" /\ declares b b' [(ex, {| bqueue := q; bkey := k |})] /\
  exists e e', exchanges b !! ex = Some e /\ exchanges b' !! ex = Some e' /\ ekind e' = ekind e /\
    {| bqueue := q; bkey := k |} ∈ ebindings e'.
Proof.
  unfold queue_bind. destruct (QueueBind _ _ _ _ b) as [b1 [e|]] eqn:E; [done|]. intros [= <-]. by eapply QueueBind_ok.
Qed.

(** The retry queue of a broker: where it is, where it sends expired messages
    and the exchange that leads to it. *)
Record retry_ready (b : Broker) (rs : retrySpec) (delay : Z) (dlx : string) (p : nat) (q : queue) : Prop := {
  rr_queue : queues b !! rqueue rs = Some p;
  rr_heap : qheap b !! p = Some q;
  rr_ok : queue_ok (rqueue rs) q;
  rr_dlx : qdlx q = Some dlx;
  rr_key : qdlxKey q = None;
  rr_ttl : qttl q = Milliseconds delay * Millisecond;
  rr_bound : exists e, exchanges b !! rexchange rs = Some e /\ ekind e = "topic" /\
    {| bqueue := rqueue rs; bkey := "#" |} ∈ ebindings e;
  rr_named : rexchange rs <> ""
}.

Lemma retry_args_queue delay dlx q n :
  0 <= delay <= MaxInt64 -> queue_ok n q -> argsEquivalent (qargs q) (retry_args delay dlx) = true ->
  qdlx q = Some dlx /\ qdlxKey q = None /\ qttl q = Milliseconds delay * Millisecond.
Proof.
  intros Hd [_ _ H1 H2 (ttl & H3 & H4)] Ha. rewrite H1, H2, H4, !(argsEquivalent_string _ _ _ Ha).
  rewrite (argsEquivalent_bounded _ _ _ Ha) in H3. unfold string_arg, retry_args.
  rewrite lookup_insert_ne, lookup_insert_eq by done. rewrite !lookup_insert_ne, lookup_empty by done.
  split_and!; [done|done|]. unfold bounded_arg, retry_args in H3. rewrite lookup_insert_eq in H3.
  unfold intHeader in H3. assert (0 <= Milliseconds delay /\ Milliseconds delay * Millisecond <= delay) as [? ?].
  { unfold Milliseconds, Millisecond. pose proof (Z.mul_quot_le delay 1000000). rewrite Z.mul_comm.
    split; [apply Z.quot_pos|]; lia. }
  destruct (_ && _); simpl in H3; rewrite orb_false_r in H3;
    destruct (Z.ltb_spec (Milliseconds delay) 0); try lia; injection H3 as <-; simpl;
    apply int64_wrap_small; unfold MinInt64, Millisecond in *; lia.
Qed.

Lemma declareRetryTopology_ok ch rs delay dlx b b' :
  dlq rs <> "" -> rqueue rs <> "" -> 0 <= delay <= MaxInt64 -> wf b ->
  declareRetryTopology ch rs delay dlx b = (b', inl tt) ->
  declares b b' [(rexchange rs, {| bqueue := rqueue rs; bkey := "#" |})] /\
  exists p q, retry_ready b' rs delay dlx p q.
Proof.
  intros Hdlq Hrq Hms W H. unfold declareRetryTopology in H.
  apply D_bind_ok in H as (b1 & n1 & H1 & H). apply D_bind_ok in H as (b2 & n2 & H2 & H).
  apply D_bind_ok in H as (b3 & [] & H3 & H4).
  apply queue_declare_ok in H1 as (_ & D1 & _); [|done].
  apply queue_declare_ok in H2 as (_ & D2 & Q2); [|done].
  apply exchange_topic_ok in H3 as (D3 & e & He & Hk).
  apply queue_bind_ok in H4 as (Hne & D4 & e0 & e1 & He0 & He1 & Hk1 & Hbd).
  pose proof (declares_trans _ _ _ _ _ D2 (declares_trans _ _ _ _ _ D3 D4)) as D24.
  split; [exact (declares_trans _ _ _ _ _ D1 D24)|].
  pose proof (dec_wf _ _ _ D1 W) as W1. destruct (Q2 W1) as (p & q & Hp & Hq & Hok & Ha).
  pose proof (declares_trans _ _ _ _ _ D3 D4) as D34. pose proof (dec_wf _ _ _ D2 W1) as W2.
  destruct (retry_args_queue delay dlx q _ Hms Hok Ha) as (? & ? & ?).
  exists p, q. split; try done; [by eapply (dec_queue _ _ _ D34)|by eapply (dec_heap _ _ _ D34)|].
  exists e1. split_and!; [done|congruence|done].
Qed.

(** Later declarations leave the retry queue as it is. *)
Lemma retry_ready_keeps b b' adds rs delay dlx p q :
  wf b -> declares b b' adds -> retry_ready b rs delay dlx p q -> retry_ready b' rs delay dlx p q.
Proof.
  intros W HD [H1 H2 H3 H4 H5 H6 (e & He & Hk & Hb) H8]. split; try done.
  - by eapply (dec_queue _ _ _ HD).
  - by eapply (dec_heap _ _ _ HD).
  - destruct (dec_exchange _ _ _ HD _ _ He) as (e' & He' & Hk' & Hs). exists e'. split_and!; [done|congruence|set_solver].
Qed.

(** The loop through the retry queue: a copy published to the retry exchange is
    parked on the retry queue alone, and when its TTL ends the broker publishes
    it, with its key, to the dead-letter exchange. *)
Lemma retry_loop b rs delay dlx p q e :
  wf b -> retry_ready b rs delay dlx p q -> only b (rexchange rs) (rqueue rs) -> qconsumers q = [] ->
  0 < Milliseconds delay -> exchanges b !! dlx = Some e ->
  forall key m, exists b1 b2 ptr,
    route (rexchange rs) key m b = (b1, true) /\ targets b (rexchange rs) key = [p] /\
    last_message b1 p = Some (parked ptr (rexchange rs) key m) /\
    expire p ptr b1 = fst (route dlx key (with_death m) b2) /\ qheap b2 = qheap b /\
    (forall ex k, targets b2 ex k = targets b ex k).
Proof.
  intros W [H1 H2 H3 H4 H5 H6 (ex & He & Hk & Hb) H8] Ho Hc Hms Hdlx key m.
  assert (targets b (rexchange rs) key = [p]) as Ht.
  { eapply targets_only; [done|done|done|done|done|]. rewrite Hk. apply hit_hash. }
  destruct (route_parks b (rexchange rs) key m p q Ht H2 (qok_live _ _ H3) Hc) as (b1 & Hr & E1 & Q1 & Hh1).
  { rewrite H6. unfold Millisecond. lia. }
  destruct (expire_parked b1 p q (qmsgs q) (next_ptr b) (rexchange rs) key m dlx e) as (b2 & Hx & E2 & Q2 & Hh2).
  - by rewrite Hh1, lookup_insert_eq.
  - apply H3.
  - intros x Hx. pose proof (wf_msgs b W p q x H2 Hx). lia.
  - done.
  - done.
  - by rewrite E1.
  - exists b1, b2, (next_ptr b). split_and!; [done|done| |done| |].
    + unfold last_message. rewrite Hh1, lookup_insert_eq. simpl. apply last_snoc.
    + rewrite Hh2, Hh1, insert_insert_eq. replace (with_msgs (qmsgs q) q) with q by (by destruct q). by apply insert_id.
    + intros x k. apply targets_ext; congruence.
Qed.

Lemma bind_all_ok ch q ex keys b b' :
  bind_all ch q ex keys b = (b', inl tt) ->
  declares b b' (map (fun k => (ex, {| bqueue := q; bkey := k |})) keys) /\
  forall k e, k ∈ keys -> exchanges b !! ex = Some e ->
    ex <> "" /\ exists e', exchanges b' !! ex = Some e' /\ ekind e' = ekind e /\ {| bqueue := q; bkey := k |} ∈ ebindings e'.
Proof.
  revert b. induction keys as [|k keys IH]; intros b H; simpl in H.
  - injection H as <-. split; [apply declares_refl|]. intros k e Hk. by apply elem_of_nil in Hk.
  - apply D_bind_ok in H as (b1 & [] & H1 & H2). apply queue_bind_ok in H1 as (Hne & D1 & e0 & e1 & He0 & He1 & Hk1 & Hbd).
    destruct (IH b1 H2) as [D2 Hall]. split; [exact (declares_trans _ _ _ _ _ D1 D2)|].
    intros k' e [->|Hk']%elem_of_cons He; (split; [done|]).
    + destruct (dec_exchange _ _ _ D2 _ _ He1) as (e' & He' & Hk' & Hs). exists e'.
      split_and!; [done|congruence|set_solver].
    + destruct (Hall k' e1 Hk' He1) as (_ & e' & He' & Hk2 & Hb'). exists e'. split_and!; [done|congruence|done].
Qed.

(** A consumer's declarations, for a named queue. *)
Lemma declareTopology_ok ch t b b' q :
  squeue (tspec t) <> "" -> wf b -> declareTopology ch t b = (b', inl q) ->
  exists b1 p, q = squeue (tspec t) /\ wf b1 /\
    declares b b1 (map (fun k => (texchange t, {| bqueue := q; bkey := k |})) (tbindings t)) /\
    run_declare ch t q b1 = (b', inl tt) /\ queues b1 !! q = Some p /\
    exists e, exchanges b1 !! texchange t = Some e /\ ekind e = "topic" /\
      forall k, k ∈ tbindings t -> texchange t <> "" /\ {| bqueue := q; bkey := k |} ∈ ebindings e.
Proof.
  intros Hne W H. unfold declareTopology in H.
  apply D_bind_ok in H as (b1 & [] & H1 & H). apply D_bind_ok in H as (b2 & [] & H2 & H).
  apply D_bind_ok in H as (b3 & q3 & H3 & H). apply D_bind_ok in H as (b4 & [] & H4 & H).
  apply D_bind_ok in H as (b5 & [] & H5 & H). injection H as -> ->.
  assert (declares b b1 []) as D1.
  { destruct (Qos ch (prefetch (tspec t)) b) as [x [e|]] eqn:E; [done|]. injection H1 as <-. by eapply Qos_ok. }
  apply exchange_topic_ok in H2 as (D2 & e & He & Hk).
  apply queue_declare_ok in H3 as (-> & D3 & Q3); [|done]. apply bind_all_ok in H4 as [D4 Hall].
  pose proof (dec_wf _ _ _ D2 (dec_wf _ _ _ D1 W)) as W2. pose proof (dec_wf _ _ _ D3 W2) as W3.
  destruct (Q3 W2) as (p & qq & Hp & _). destruct (dec_exchange _ _ _ D3 _ _ He) as (e3 & He3 & Hk3 & _).
  destruct (dec_exchange _ _ _ D4 _ _ He3) as (e4 & He4 & Hk4 & _).
  exists b4, p. split_and!; [done|by apply (dec_wf _ _ _ D4)| |done|by eapply (dec_queue _ _ _ D4)|].
  - exact (declares_trans _ _ _ _ _ D1 (declares_trans _ _ _ _ _ D2 (declares_trans _ _ _ _ _ D3 D4))).
  - exists e4. split_and!; [done|congruence|]. intros k Hin.
    destruct (Hall k e3 Hin He3) as (Hx & e' & He' & _ & Hb). split; [done|]. congruence.
Qed.

(** *** Keys *)

Lemma topicMatch_snoc p m : topicMatch (p ++ ["*"]) (p ++ [m]) = true.
Proof.
  induction p as [|w p IH]; [done|]. rewrite <-!app_comm_cons.
  destruct (decide (w = "#")) as [->|Hw].
  - rewrite topicMatch_hash. cbn [suffixes existsb]. apply orb_true_iff. right.
    destruct (p ++ [m]) eqn:E; cbn [suffixes existsb]; by rewrite IH.
  - rewrite topicMatch_word, IH by done. rewrite bool_decide_true by (by right). done.
Qed.

Lemma request_key_matches n m :
  contains_char dot m = false ->
  topicMatch (Split ("REQUEST." +:+ n +:+ ".*")) (Split (routingKey n m)) = true.
Proof.
  intros Hm. unfold routingKey. change (n +:+ ".*") with (n +:+ String dot "*").
  change (n +:+ "." +:+ m) with (n +:+ String dot m).
  rewrite <-!string_app_assoc. unfold Split. rewrite !split_on_app, (split_on_word _ m) by done.
  apply topicMatch_snoc.
Qed.

(** ** The way back *)

(** What the broker hands the consumer of the queue a retry copy came back to:
    the retry ladder's interface, discharged by the broker. *)
#[export] Instance broker_path : RetryPath.
Proof.
  refine {| redeliver m k := delivery_of 1 {| mptr := 0; mpub := with_death m; mexchange := ""; mkey := k;
                                              mredelivered := false; mtimer := false |} |}.
  - done.
  - done.
  - done.
  - intros m k. simpl. by rewrite lookup_insert_ne.
Defined.

(** Nobody consumes a queue. *)
Definition idle (b : Broker) (qn : string) : Prop :=
  forall p q, queues b !! qn = Some p -> qheap b !! p = Some q -> qconsumers q = [].

Lemma declares_idle b b' adds qn : wf b -> declares b b' adds -> idle b qn -> idle b' qn.
Proof.
  intros W HD Hi p q Hp Hq. destruct (dec_new _ _ _ HD W qn p q Hp Hq) as [Hp0|[_ ?]]; [|done].
  destruct (wf_queue b W qn p Hp0) as (q0 & Hq0 & _). pose proof (dec_heap _ _ _ HD W p q0 Hq0). 
  assert (q0 = q) as -> by congruence. by eapply Hi.
Qed.

Lemma app_ne_nil a b : b <> "" -> a +:+ b <> "".
Proof. by destruct a. Qed.

Lemma app_suffix_ne a b c : slen b <> slen c -> a +:+ b <> a +:+ c.
Proof. intros Hl E. apply Hl. apply (f_equal slen) in E. rewrite !slen_app in E. lia. Qed.

Section Paths.
Context {P : Wire.Protowire} {A : GoArch}.

(** C5: a request parked for retry comes back to its service. Once a service's
    topology is declared (its retry exchange and queue being its own), a copy
    published to the retry exchange under the key the request arrived on is
    parked on the retry queue and nowhere else; and when its TTL ends, the broker
    takes it off again and publishes that copy, under the same key, to the exchange the service's queue
    is bound to, which routes it to that queue. *)
Theorem service_retry (cfg : Config) (s : Service) (ch : nat) (b b1 : Broker) (q : string) :
  let t := requestSpec cfg s in
  let rs := retry_names (name s) (MaxRetries (oretry (opts s))) in
  0 < MaxRetries (oretry (opts s)) -> earlyAck (opts s) = false -> Millisecond <= Delay (oretry (opts s)) <= MaxInt64 ->
  name s <> "" -> BusExchange cfg <> rexchange rs ->
  wf b -> only b (rexchange rs) (rqueue rs) -> idle b (rqueue rs) ->
  declareTopology ch t b = (b1, inl q) ->
  retry (tspec t) = Some rs /\
  forall method m, contains_char dot method = false ->
  let key := routingKey (name s) method in
  exists sq rq b2 b3 ptr, queues b1 !! name s = Some sq /\
    route (rexchange rs) key m b1 = (b2, true) /\ targets b1 (rexchange rs) key = [rq] /\
    last_message b2 rq = Some (parked ptr (rexchange rs) key m) /\ qheap b3 = qheap b1 /\
    expire rq ptr b2 = fst (route (BusExchange cfg) key (with_death m) b3) /\
    sq ∈ targets b3 (BusExchange cfg) key.
Proof.
  intros t rs Hmax Hearly Hdelay Hname Hbus W Honly Hidle H.
  assert ((0 <? MaxRetries (oretry (opts s))) && negb (earlyAck (opts s)) = true) as Hret.
  { rewrite Hearly. destruct (Z.ltb_spec 0 (MaxRetries (oretry (opts s)))); [done|lia]. }
  assert (retry (tspec t) = Some rs) as Hrs by (unfold t; simpl; by rewrite Hret).
  assert (tdeclare t = RetryTo (Delay (oretry (opts s))) (BusExchange cfg)) as Htd by (unfold t; simpl; by rewrite Hret).
  assert (0 < Milliseconds (Delay (oretry (opts s)))) as Hms.
  { unfold Milliseconds, Millisecond in *. apply Z.quot_str_pos. lia. }
  split; [done|]. intros method m Hm key.
  apply declareTopology_ok in H as (bt & sq & -> & Wt & Dt & Hrun & Hsq & e & He & Hk & Hbd); [|done|done].
  change (texchange t) with (BusExchange cfg) in *. change (squeue (tspec t)) with (name s) in *.
  unfold run_declare in Hrun. rewrite Htd, Hrs in Hrun.
  apply declareRetryTopology_ok in Hrun as (Dr & rq & qq & Hrr); [|by apply app_ne_nil|by apply app_ne_nil|unfold Millisecond in Hdelay; lia|done].
  pose proof (declares_trans _ _ _ _ _ Dt Dr) as Dall. pose proof (dec_wf _ _ _ Dr Wt) as W1.
  destruct (dec_exchange _ _ _ Dr _ _ He) as (e1 & He1 & Hk1 & Hs1).
  destruct (Hbd ("REQUEST." +:+ name s +:+ ".*")) as [Hne Hin]; [by left|].
  pose proof (dec_queue _ _ _ Dr Wt _ _ Hsq) as Hsq1.
  destruct (retry_loop b1 rs _ _ rq qq e1 W1 Hrr) with (key := key) (m := m) as (b2 & b3 & ptr & H1 & H2 & Hl & H3 & Hh & H4); try done.
  - eapply declares_only; [exact Dall|done|]. intros bd [Hx|Hx]%elem_of_app.
    + apply list_elem_of_singleton in Hx. by injection Hx as ? _.
    + apply list_elem_of_singleton in Hx. by injection Hx as ->.
  - eapply (declares_idle b b1); [done|exact Dall|done|apply Hrr|apply Hrr].
  - exists sq, rq, b2, b3, ptr. split_and!; try done. rewrite H4. unfold targets. rewrite decide_False, He1 by done.
    eapply hits_member; [by apply Hs1|done|]. rewrite Hk1, Hk. unfold hit. simpl. by apply request_key_matches.
Qed.

(** C7: a retried event comes back to its own listener only. With event
    retries, a copy parked under any key is parked on the listener's retry queue
    alone; and when its TTL ends, the broker takes it off again and publishes it, under the same key, to
    the listener's redelivery exchange, which routes every key to the listener's
    queue and to no other: subscribers that already handled the event do not get
    it again. *)
Theorem event_retry_isolated (cfg : Config) (queue : string) (n : Z) (r : EventRetryPolicy) (l : EventListener)
    (ch : nat) (b b1 : Broker) (q : string) :
  let t := listenerSpec cfg queue n r l in
  let rs := retry_names queue (EMaxRetries r) in
  let redelivery := queue +:+ ".Redelivery" in
  0 < EMaxRetries r -> Millisecond <= EDelay r <= MaxInt64 -> queue <> "" ->
  EventsExchange cfg <> rexchange rs -> EventsExchange cfg <> redelivery ->
  wf b -> only b (rexchange rs) (rqueue rs) -> only b redelivery queue -> idle b (rqueue rs) ->
  declareTopology ch t b = (b1, inl q) ->
  retry (tspec t) = Some rs /\ dlqHandled (tspec t) = true /\
  forall key m, exists lq rq b2 b3 ptr, queues b1 !! queue = Some lq /\
    route (rexchange rs) key m b1 = (b2, true) /\ targets b1 (rexchange rs) key = [rq] /\
    last_message b2 rq = Some (parked ptr (rexchange rs) key m) /\ qheap b3 = qheap b1 /\
    expire rq ptr b2 = fst (route redelivery key (with_death m) b3) /\
    targets b3 redelivery key = [lq].
Proof.
  intros t rs redelivery Hmax Hdelay Hq Hex1 Hex2 W Ho1 Ho2 Hidle H.
  assert ((0 <? EMaxRetries r) && bool_decide (queue <> "") = true) as Hret.
  { rewrite bool_decide_true by done. destruct (Z.ltb_spec 0 (EMaxRetries r)); [done|lia]. }
  assert (retry (tspec t) = Some rs) as Hrs by (unfold t; simpl; by rewrite Hret).
  assert (tdeclare t = RetryVia (EDelay r) redelivery) as Htd by (unfold t; simpl; by rewrite Hret).
  assert (0 < Milliseconds (EDelay r)) as Hms.
  { unfold Milliseconds, Millisecond in *. apply Z.quot_str_pos. lia. }
  assert (redelivery <> rexchange rs) as Hne by (by apply app_suffix_ne).
  split; [done|]. split; [unfold t; simpl; by rewrite Hret|]. intros key m.
  apply declareTopology_ok in H as (bt & lq & -> & Wt & Dt & Hrun & Hlq & _); [|done|done].
  unfold run_declare in Hrun. rewrite Htd, Hrs in Hrun.
  apply D_bind_ok in Hrun as (bx & [] & Hx & Hrun). apply D_bind_ok in Hrun as (by_ & [] & Hy & Hrun).
  apply exchange_topic_ok in Hx as (Dx & ex & Hex & Hkx).
  apply queue_bind_ok in Hy as (Hrd & Dy & e0 & e & He0 & He & Hke & Hbd).
  pose proof (dec_wf _ _ _ Dy (dec_wf _ _ _ Dx Wt)) as Wy.
  apply declareRetryTopology_ok in Hrun as (Dr & rq & qq & Hrr); [|by apply app_ne_nil|by apply app_ne_nil|unfold Millisecond in Hdelay; lia|done].
  pose proof (declares_trans _ _ _ _ _ Dx (declares_trans _ _ _ _ _ Dy Dr)) as Dxr.
  pose proof (declares_trans _ _ _ _ _ Dt Dxr) as Dall. pose proof (dec_wf _ _ _ Dr Wy) as W1.
  destruct (dec_exchange _ _ _ Dr _ _ He) as (e1 & He1 & Hk1 & Hs1).
  pose proof (dec_queue _ _ _ Dxr Wt _ _ Hlq) as Hlq1.
  assert (forall x bd, (x, bd) ∈ map (fun k => (EventsExchange cfg, {| bqueue := queue; bkey := k |})) (bindings l)
      ++ [] ++ [(redelivery, {| bqueue := queue; bkey := "#" |})]
      ++ [(rexchange rs, {| bqueue := rqueue rs; bkey := "#" |})] ->
    x = EventsExchange cfg \/ (x = redelivery /\ bqueue bd = queue) \/ (x = rexchange rs /\ bqueue bd = rqueue rs)) as Hadds.
  { intros x bd. rewrite !elem_of_app, list_elem_of_fmap, elem_of_nil, !list_elem_of_singleton. naive_solver. }
  destruct (retry_loop b1 rs _ _ rq qq e1 W1 Hrr) with (key := key) (m := m) as (b2 & b3 & ptr & H1 & H2 & Hl & H3 & Hh & H4); try done.
  - eapply declares_only; [exact Dall|done|]. intros bd Hbd'. destruct (Hadds _ _ Hbd') as [E|[[E _]|[_ E]]]; [by destruct Hex1|by destruct Hne|done].
  - eapply (declares_idle b b1); [done|exact Dall|done|apply Hrr|apply Hrr].
  - exists lq, rq, b2, b3, ptr. split_and!; try done. rewrite H4.
    eapply targets_only; [done|done| |done|by apply Hs1|].
    + eapply declares_only; [exact Dall|done|]. intros bd Hbd'. destruct (Hadds _ _ Hbd') as [E|[[_ E]|[E _]]]; [by destruct Hex2|done|by destruct Hne].
    + rewrite Hk1, Hke. replace (ekind e0) with "topic" by congruence. apply hit_hash.
Qed.
End Paths.

(** ** Samples *)

(** A fresh broker with one channel open. *)
Definition sample_broker : Broker := fst (open_channel 0 (fst (Dial New))).

Lemma sample_broker_empty : queues sample_broker = ∅ /\ qheap sample_broker = ∅ /\ exchanges sample_broker = exchanges New.
Proof. split_and!; reflexivity. Qed.

Lemma sample_broker_wf : wf sample_broker.
Proof.
  destruct sample_broker_empty as (Hq & Hh & _).
  split; [intros n p|intros p q|intros p q m]; rewrite ?Hq, ?Hh, lookup_empty; done.
Qed.

Lemma sample_broker_only ex qn : ex <> "" -> only sample_broker ex qn.
Proof.
  intros Hne e. destruct sample_broker_empty as (_ & _ & ->). unfold New. cbn [exchanges].
  intros [<- _]%lookup_singleton_Some. done.
Qed.

Lemma sample_broker_idle qn : idle sample_broker qn.
Proof. intros p q. destruct sample_broker_empty as (-> & _). by rewrite lookup_empty. Qed.

Definition calc_topology : topologySpec := requestSpec (P := Wire.Varint.wire) DefaultConfig calc_service.

Lemma service_retry_witness :
  exists rq, targets (fst (declareTopology 1 calc_topology sample_broker))
    "Calc.Service.blue.Retry.Exchange" "REQUEST.Calc.Service.blue.add" = [rq].
Proof.
  destruct (service_retry (P := Wire.Varint.wire) DefaultConfig calc_service 1 sample_broker
    (fst (declareTopology 1 calc_topology sample_broker)) "Calc.Service.blue") as [_ H].
  - reflexivity.
  - reflexivity.
  - split; vm_compute; discriminate.
  - discriminate.
  - vm_compute. discriminate.
  - apply sample_broker_wf.
  - apply sample_broker_only. discriminate.
  - apply sample_broker_idle.
  - vm_compute. reflexivity.
  - destruct (H "add" sample_publishing) as (sq & rq & b2 & b3 & ptr & _ & _ & Ht & _); [reflexivity|]. exists rq. exact Ht.
Defined.

Definition shop_topology : topologySpec :=
  listenerSpec DefaultConfig "Shop.Events" 1 {| EMaxRetries := 2; EDelay := 5 * Second |} (run_ops sample_ops).

Lemma event_retry_isolated_witness : dlqHandled (tspec shop_topology) = true.
Proof.
  destruct (event_retry_isolated DefaultConfig "Shop.Events" 1 {| EMaxRetries := 2; EDelay := 5 * Second |}
    (run_ops sample_ops) 1 sample_broker (fst (declareTopology 1 shop_topology sample_broker)) "Shop.Events")
    as (_ & H & _).
  - reflexivity.
  - split; vm_compute; discriminate.
  - discriminate.
  - vm_compute. discriminate.
  - vm_compute. discriminate.
  - apply sample_broker_wf.
  - apply sample_broker_only. discriminate.
  - apply sample_broker_only. discriminate.
  - apply sample_broker_idle.
  - vm_compute. reflexivity.
  - exact H.
Defined.
