(* ===== verification/Channels.v ===== *)
(** * Channels: what the bus itself opens on the broker
    (dispatcher.go, cancel.go, events.go)

    The exchanges a client declares, the reply queue of the dispatcher, the queue
    of the cancel listener and the channel of the event publisher, each restored
    on a connection of the broker of [Broker]. Both queues are anonymous and
    exclusive and are read without acknowledgement; the lemmas show that what is
    published to them is delivered, once, at once. *)
From S2P Require Import Prelude GoStrings Config Topic Headers Errors Broker BrokerOps BrokerStore Topology.

Local Open Scope Z_scope.

#[local] Existing Instance D_ret.
#[local] Existing Instance D_bind.

(** ** Operations on a connection *)

Definition channel (conn : nat) : D nat := fun b =>
  match open_channel conn b with
  | (b', Some ch) => (b', inl ch)
  | (b', None) => (b', inr (ESentinel AmqpErrClosed))
  end.

Definition declare_exchange (ch : nat) (name kind : string) (fail : amqp_error -> err) : D unit := fun b =>
  match ExchangeDeclare ch name kind true false false b with
  | (b', None) => (b', inl tt)
  | (b', Some e) => (b', inr (fail e))
  end.

(** Consuming without acknowledgement, exclusively. *)
Definition consume (ch : nat) (queue : string) (fail : amqp_error -> err) : D nat := fun b =>
  match ConsumeWithContext ch queue "" true true b with
  | (b', inl c) => (b', inl c)
  | (b', inr e) => (b', inr (fail e))
  end.

(** [newPubChannel], at the broker: confirms are enabled. *)
Definition confirming (ch : nat) : D unit := fun b =>
  match Confirm ch b with
  | (b', None) => (b', inl tt)
  | (b', Some e) => (b', inr (wrapped "protobus: enabling publisher confirms" e))
  end.

(** [fail]: an error closes the channel [ch]. *)
Definition or_close {X : Type} (ch : nat) (m : D X) : D X := fun b =>
  match m b with
  | (b', inl x) => (b', inl x)
  | (b', inr e) => (fst (Channel_Close ch b'), inr e)
  end.

(** ** The dispatcher *)

Definition core_exchanges (cfg : Config) : list (string * string) :=
  [(BusExchange cfg, "topic"); (CallbacksExchange cfg, "direct"); (EventsExchange cfg, "topic"); (CancelExchange cfg, "fanout")].

(** [declareCoreExchanges]: each on a channel of its own, best effort. *)
Fixpoint declare_each (conn : nat) (l : list (string * string)) (b : Broker) : Broker :=
  match l with
  | [] => b
  | (name, kind) :: l' =>
      match open_channel conn b with
      | (b', None) => b'
      | (b', Some ch) =>
          match ExchangeDeclare ch name kind true false false b' with
          | (b'', Some _) => declare_each conn l' b''
          | (b'', None) => declare_each conn l' (fst (Channel_Close ch b''))
          end
      end
  end.

Definition declareCoreExchanges (conn : nat) (cfg : Config) (b : Broker) : Broker := declare_each conn (core_exchanges cfg) b.

(** The broker's part of [dispatcher.restoreTopology]: the channel, the reply
    queue, the publishing channel and the consumer. *)
Definition reply_topology (conn : nat) (cfg : Config) : D (nat * string * nat * nat) := fun b =>
  (ch ← channel conn;
   or_close ch (
     _ ← declare_exchange ch (CallbacksExchange cfg) "direct" (wrapped ("declaring exchange " +:+ CallbacksExchange cfg));
     q ← queue_declare ch "" false true true ∅ (wrapped "declaring reply queue");
     _ ← queue_bind ch q q (CallbacksExchange cfg) (wrapped "binding reply queue");
     pub ← channel conn;
     _ ← or_close pub (confirming pub);
     cons ← or_close pub (consume ch q (wrapped "consuming replies"));
     mret (ch, q, pub, cons))) (declareCoreExchanges conn cfg b).

(** ** The cancel listener *)

(** [cancelListener.start] *)
Definition cancel_start (conn : nat) (cfg : Config) : D (nat * string * nat) :=
  ch ← channel conn;
  or_close ch (
    _ ← declare_exchange ch (CancelExchange cfg) "fanout" amqp_err;
    q ← queue_declare ch "" false true true ∅ amqp_err;
    _ ← queue_bind ch q "" (CancelExchange cfg) amqp_err;
    cons ← consume ch q amqp_err;
    mret (ch, q, cons)).

(** [cancelListener.restoreTopology]: a failure is logged, never reported. *)
Record cancelListener := { listening_on : option nat }.

Definition cancel_restore (conn : nat) (cfg : Config) (c : cancelListener) (b : Broker) : cancelListener * Broker * option err :=
  match cancel_start conn cfg b with
  | (b', inl (ch, _, _)) => ({| listening_on := Some ch |}, b', None)
  | (b', inr _) => (c, b', None)
  end.

(** [cancelListener.close] *)
Definition cancel_close (c : cancelListener) (b : Broker) : cancelListener * Broker :=
  ({| listening_on := None |}, match listening_on c with Some ch => fst (Channel_Close ch b) | None => b end).

(** The notice [dispatcher.cancelStream] publishes. *)
Definition cancel_notice (correlationID : string) : Publishing := {|
  PHeaders := ∅; PContentType := contentTypeOctetStream; PContentEncoding := ""; PDeliveryMode := 0; PPriority := 0;
  PCorrelationId := correlationID; PReplyTo := ""; PMessageId := ""; PTimestamp := 0; PType := ""; PAppId := ""; PBody := [] |}.

(** ** The event publisher *)

(** [restoreTopology] of the event publisher, at the broker. *)
Definition events_topology (conn : nat) (cfg : Config) : D nat :=
  raw ← channel conn;
  _ ← declare_exchange raw (EventsExchange cfg) "topic" (wrapped ("declaring exchange " +:+ EventsExchange cfg));
  _ ← confirming raw;
  mret raw.

Record eventPublisher := { pub : option nat; pclosed : bool }.

Definition newEventPublisher : eventPublisher := {| pub := None; pclosed := false |}.

(** The publishing channels in use are numbered by their broker channel;
    replacing one closes it. *)
Definition close_pub (p : option nat) (b : Broker) : Broker := match p with Some ch => fst (Channel_Close ch b) | None => b end.

Definition events_restore (conn : nat) (cfg : Config) (e : eventPublisher) (b : Broker) : eventPublisher * Broker * option err :=
  match events_topology conn cfg b with
  | (b', inl p) => ({| pub := Some p; pclosed := pclosed e |}, close_pub (pub e) b', None)
  | (b', inr x) => (e, b', Some x)
  end.

Definition events_close (e : eventPublisher) (b : Broker) : eventPublisher * Broker :=
  ({| pub := None; pclosed := true |}, close_pub (pub e) b).

Definition healthy (e : eventPublisher) (b : Broker) : bool :=
  match pub e with Some ch => negb (Channel_IsClosed ch b) | None => false end.

(** [repair]: [current] is what the session says of its connection. *)
Definition events_repair (current : nat * bool) (cfg : Config) (e : eventPublisher) (b : Broker)
    : eventPublisher * Broker * option err :=
  if healthy e b then (e, b, None)
  else if snd current then events_restore (fst current) cfg e b
  else (e, b, None).

(** One turn of the loop of [publish], of what it meets: whether the connection
    is ready, the publisher it reads, whether its channel is open, how a repair
    ends, and what the channel answers. *)
Record turn := {
  on_ready : option err; seen_closed : bool; seen_open : bool; on_repair : option err; on_publish : option err
}.

Inductive verdict := Again | Returned (e : option err).

Definition publish_turn (t : turn) : verdict :=
  match on_ready t with
  | Some e => Returned (Some e)
  | None =>
      if seen_closed t then Returned (Some (ESentinel ErrClosed))
      else if negb (seen_open t) then match on_repair t with Some e => Returned (Some e) | None => Again end
      else match on_publish t with
           | Some e => if is_sentinel ErrChannelGone e then Again else Returned (Some e)
           | None => Returned None
           end
  end.

(** Whether a turn gave the event to its channel, which did more than refuse it
    unsent. *)
Definition handed_over (t : turn) : bool :=
  match on_ready t with
  | Some _ => false
  | None => negb (seen_closed t) && seen_open t &&
            match on_publish t with Some e => negb (is_sentinel ErrChannelGone e) | None => true end
  end.

(** [publish]: the turns it takes, while there are turns. *)
Fixpoint events_publish (ts : list turn) : list turn * option (option err) :=
  match ts with
  | [] => ([], None)
  | t :: ts' => match publish_turn t with
                | Again => let '(taken, r) := events_publish ts' in (t :: taken, r)
                | Returned e => ([t], Some e)
                end
  end.

Lemma publish_turn_handed t :
  match publish_turn t with
  | Again => handed_over t = false
  | Returned e => (handed_over t = true -> e = on_publish t) /\ (e = None -> handed_over t = true)
  end.
Proof.
  unfold publish_turn, handed_over. destruct (on_ready t); [done|]. destruct (seen_closed t); [done|].
  destruct (seen_open t); simpl; [|by destruct (on_repair t)].
  destruct (on_publish t) as [e|]; [|done]. by destruct (is_sentinel ErrChannelGone e).
Qed.

(** An event is handed to a channel at most once, in the last turn, and what
    [publish] returns is then that channel's answer. *)
Lemma events_publish_once ts taken r :
  events_publish ts = (taken, r) ->
  match r with
  | Some e => exists pre t, taken = pre ++ [t] /\ Forall (fun t => handed_over t = false) pre /\
                (handed_over t = true -> e = on_publish t) /\ (e = None -> handed_over t = true)
  | None => Forall (fun t => handed_over t = false) taken
  end.
Proof.
  revert taken r. induction ts as [|t ts IH]; intros taken r; simpl; [intros [= <- <-]; constructor|].
  pose proof (publish_turn_handed t) as Ht. destruct (publish_turn t) as [|e].
  - destruct (events_publish ts) as [l [e|]]; intros [= <- <-].
    + destruct (IH _ _ eq_refl) as (pre & u & -> & HF & ?). exists (t :: pre), u. split; [done|]. by split; [constructor|].
    + constructor; [done|]. by apply (IH _ _ eq_refl).
  - intros [= <- <-]. exists [], t. split; [done|]. split; [constructor|done].
Qed.

(** ** What is published to an anonymous queue is delivered *)

(** A consumer [cp] alone on a live queue [qp], its channel open; and one that
    does not acknowledge, which always has capacity. *)
Record sole (b : Broker) (qp cp : nat) (x : consumer) (c : Broker.channel) (q : queue) : Prop := {
  so_heap : qheap b !! qp = Some q;
  so_live : qdeleted q = false;
  so_alone : qconsumers q = [cp];
  so_cons : consumers b !! cp = Some x;
  so_queue : cq x = qp;
  so_chan : channels b !! cch x = Some c;
  so_open : chclosed c = false
}.

Definition listening (b : Broker) (qp cp : nat) (x : consumer) (c : Broker.channel) (q : queue) : Prop :=
  sole b qp cp x c q /\ cautoAck x = true.

Lemma auto_capacity x : cautoAck x = true -> hasCapacity x = true.
Proof. unfold hasCapacity. by intros ->. Qed.

Lemma best_priority_lt maxP l : forall i best bestP, (best < i + length l \/ l = [])%nat -> l <> [] ->
  (best_priority maxP i best bestP l < i + length l)%nat.
Proof.
  induction l as [|m l IH]; intros i best bestP Hb Hne; simpl; [done|].
  destruct Hb as [Hb|?]; [|done]. simpl in Hb. destruct (decide (l = [])) as [->|Hl].
  - simpl in *. destruct (bestP <? _); lia.
  - destruct (bestP <? _); (replace (i + S (length l))%nat with (S i + length l)%nat by lia; apply IH; [left; lia|done]).
Qed.

Lemma next_message q : qmsgs q <> [] -> is_Some (qmsgs q !! next q).
Proof.
  intros Hne. apply lookup_lt_is_Some. unfold next. destruct (qmaxPriority q =? 0).
  - destruct (qmsgs q); [done|simpl; lia].
  - apply (best_priority_lt (qmaxPriority q) (qmsgs q) 0); [|done]. left. destruct (qmsgs q); [done|simpl; lia].
Qed.

Lemma pick_alone b q cp x :
  qconsumers q = [cp] -> consumers b !! cp = Some x -> hasCapacity x = true -> pick b q = Some (0%nat, cp).
Proof.
  intros Hc Hx Ha. unfold pick. rewrite Hc. cbn [length seq omap list_omap]. rewrite Nat.mod_1_r. simpl. by rewrite Hx, Ha.
Qed.

(** What [deliver] makes of the consumer and of its channel. *)
Definition handed_to (x : consumer) (d : Delivery) : consumer := {|
  ctag := ctag x; cch := cch x; cq := cq x; cautoAck := cautoAck x; cexclusive := cexclusive x; cprefetch := cprefetch x;
  cunacked := if cautoAck x then cunacked x else cunacked x + 1; cout := cout x ++ [d] |}.

Definition holding (x : consumer) (i : inflight) (c : Broker.channel) : Broker.channel := {|
  chconn := chconn c; chid := chid c; chclosed := chclosed c; chconfirm := chconfirm c; chpublishSeq := chpublishSeq c;
  chprefetch := chprefetch c; chnextTag := S (chnextTag c); chconsumers := chconsumers c;
  chunacked := if cautoAck x then chunacked c else <[S (chnextTag c) := i]> (chunacked c);
  chctagSeq := chctagSeq c; chevents := chevents c |}.

(** One round hands a message to the consumer. *)
Lemma dispatch_round fuel b qp cp x c q m :
  sole b qp cp x c q -> hasCapacity x = true -> qmsgs q !! next q = Some m ->
  let m' := with_timer false m in
  exists b' q', dispatch_fuel (S fuel) qp b = dispatch_fuel fuel qp b' /\
    sole b' qp cp (handed_to x (delivery_of (S (chnextTag c)) m')) (holding x {| ifmsg := m'; ifq := qp; ifcons := cp |} c) q' /\
    qmsgs q' = delete (next q) (qmsgs q).
Proof.
  intros [H1 H2 H3 H4 H5 H6 H7] Hcap Hm m'. simpl. rewrite H1, (pick_alone b q cp x H3 H4 Hcap), Hm.
  unfold deliver. cbn [consumers channels set_qheap]. rewrite H4, H6.
  match goal with |- context [dispatch_fuel fuel qp (set_channels (<[_ := ?c']> _) (set_consumers (<[_ := ?x']> _) (set_qheap (<[_ := ?q']> _) _)))] =>
    eexists _, q' end.
  split; [reflexivity|]. split; [|done].
  split; simpl; rewrite ?lookup_insert_eq; try done.
Qed.

(** Everything waiting is handed out. *)
Lemma dispatch_drains fuel b qp cp x c q :
  listening b qp cp x c q -> (length (qmsgs q) <= fuel)%nat ->
  exists x' c' q', listening (dispatch_fuel fuel qp b) qp cp x' c' q' /\ qmsgs q' = [].
Proof.
  revert b x c q. induction fuel as [|fuel IH]; intros b x c q HL Hle.
  - exists x, c, q. split; [done|]. apply nil_length_inv. lia.
  - destruct (decide (qmsgs q = [])) as [He|Hne].
    + exists x, c, q. split; [|done]. simpl. rewrite (so_heap _ _ _ _ _ _ (proj1 HL)), He. by destruct (pick b q) as [[]|].
    + destruct (next_message q Hne) as [m Hm]. destruct HL as [HS Ha].
      destruct (dispatch_round fuel b qp cp x c q m HS (auto_capacity x Ha) Hm) as (b' & q' & -> & HS' & Hq').
      eapply (IH b' _ _ q'); [by split; [exact HS'|]|]. rewrite Hq', length_delete by by exists m. lia.
Qed.

(** Publishing to the queue hands the message over, once. *)
Lemma enqueue_sole b qp cp x c q m front :
  sole b qp cp x c q -> hasCapacity x = true -> qmsgs q = [] ->
  let m' := with_timer false m in
  exists q', sole (enqueue qp m front b) qp cp (handed_to x (delivery_of (S (chnextTag c)) m'))
      (holding x {| ifmsg := m'; ifq := qp; ifcons := cp |} c) q' /\ qmsgs q' = [].
Proof.
  intros HL Hcap He. unfold enqueue. rewrite (so_heap _ _ _ _ _ _ HL), (so_live _ _ _ _ _ _ HL), He.
  set (m' := if 0 <? qttl q then with_timer true m else m). replace (if front then [m'] else [] ++ [m']) with [m'] by by destruct front.
  set (b1 := set_qheap _ b). unfold dispatch. assert (qheap b1 !! qp = Some (with_msgs [m'] q)) as -> by (unfold b1; simpl; apply lookup_insert_eq).
  assert (sole b1 qp cp x c (with_msgs [m'] q)) as HL1.
  { destruct HL. split; try done. unfold b1. simpl. apply lookup_insert_eq. }
  assert (qmsgs (with_msgs [m'] q) !! next (with_msgs [m'] q) = Some m') as Hm.
  { destruct (next_message (with_msgs [m'] q)) as [y Hy]; [done|]. simpl in Hy |- *.
    pose proof (lookup_lt_Some _ _ _ Hy) as Hlt. simpl in Hlt. by replace (next (with_msgs [m'] q)) with 0%nat by lia. }
  destruct (dispatch_round 0 b1 qp cp x c _ m' HL1 Hcap Hm) as (b2 & q' & Hd & HL2 & Hq').
  replace (with_timer false m') with (with_timer false m) in HL2 by (unfold m'; by destruct (0 <? qttl q)).
  cbn [length qmsgs with_msgs]. rewrite Hd. simpl. exists q'. split; [done|].
  rewrite Hq'. simpl in Hm |- *. destruct (next (with_msgs [m'] q)) as [|k]; [done|by destruct k].
Qed.

(** Other queues do not reach it. *)
Lemma deliver_other cp cp' qp' m b x : cp <> cp' -> consumers b !! cp = Some x -> consumers (deliver cp' qp' m b) !! cp = Some x.
Proof.
  intros Hne Hx. unfold deliver. destruct (consumers b !! cp') as [y|]; [|done]. destruct (channels b !! cch y); [|done].
  simpl. by rewrite lookup_insert_ne.
Qed.

Lemma dispatch_fuel_other fuel qp qp' b q : qp <> qp' -> qheap b !! qp = Some q -> qheap (dispatch_fuel fuel qp' b) !! qp = Some q.
Proof.
  intros Hne. revert b. induction fuel as [|fuel IH]; intros b Hq; simpl; [done|]. repeat case_match; try done.
  apply IH. rewrite deliver_qheap. simpl. by rewrite lookup_insert_ne.
Qed.

Lemma dispatch_fuel_consumer fuel qp qp' cp b x :
  qp <> qp' -> inv [] b -> consumers b !! cp = Some x -> cq x = qp -> consumers (dispatch_fuel fuel qp' b) !! cp = Some x.
Proof.
  intros Hne. revert b. induction fuel as [|fuel IH]; intros b HI Hx Hxq; simpl; [done|].
  destruct (qheap b !! qp') as [q|] eqn:Eq; [|done]. destruct (pick b q) as [[i cp']|] eqn:Ep; [|done].
  destruct (qmsgs q !! next q) as [m|]; [|done]. apply IH; [|apply deliver_other; [|done]|done].
  - eapply inv_quiet; [|exact HI]. etrans; [by apply quiet_set_queue|apply quiet_deliver].
  - intros ->. destruct (inv_attached _ _ HI qp' q cp' Eq (pick_member _ _ _ _ Ep)) as (y & _ & Hy & Hyq & _). congruence.
Qed.

Lemma sole_quiet b b' qp cp x c q :
  quiet b b' -> sole b qp cp x c q -> qheap b' !! qp = Some q -> consumers b' !! cp = Some x ->
  exists c', sole b' qp cp x c' q.
Proof.
  intros Q [H1 H2 H3 H4 H5 H6 H7] Hq Hx. destruct (quiet_channel _ _ _ _ Q H6) as (c' & Hc' & S). exists c'.
  split; try done. by rewrite (sc_closed _ _ S).
Qed.

Lemma enqueue_other b qp qp' cp x c q m front :
  inv [] b -> qp <> qp' -> sole b qp cp x c q -> exists c', sole (enqueue qp' m front b) qp cp x c' q.
Proof.
  intros HI Hne HL. apply (sole_quiet b _ qp cp x c q); [apply quiet_enqueue|done|..]; destruct HL as [H1 H2 H3 H4 H5 H6 H7].
  - unfold enqueue, dispatch. destruct (qheap b !! qp') as [q'|] eqn:Eq'; [|done]. destruct (qdeleted q'); [done|].
    case_match; [apply dispatch_fuel_other; [done|]|]; simpl; by rewrite lookup_insert_ne.
  - unfold enqueue, dispatch. destruct (qheap b !! qp') as [q'|] eqn:Eq'; [|done]. destruct (qdeleted q'); [done|].
    case_match; [|done]. apply (dispatch_fuel_consumer _ qp); [done| |done|done].
    eapply inv_quiet; [|exact HI]. by apply (quiet_set_queue b qp' q' _ (qrr q')).
Qed.

(** What arrived for a publish of [p]: its deliveries. *)
Definition arrived (ex key : string) (p : Publishing) (ds : list Delivery) : Prop :=
  exists tag ptr, ds = [delivery_of tag {| mptr := ptr; mpub := p; mexchange := ex; mkey := key; mredelivered := false; mtimer := false |}].

Lemma fold_sole ex key p ts b qp cp x c q :
  inv [] b -> NoDup ts -> sole b qp cp x c q -> qmsgs q = [] -> (qp ∈ ts -> hasCapacity x = true) ->
  exists x' c' q' ds, sole (fold_left (enqueue_new ex key p) ts b) qp cp x' c' q' /\ cautoAck x' = cautoAck x /\ qmsgs q' = [] /\
    cout x' = cout x ++ ds /\ (qp ∈ ts -> arrived ex key p ds) /\ (qp ∉ ts -> ds = [] /\ x' = x).
Proof.
  revert b x c q. induction ts as [|t ts IH]; intros b x c q HI Hnd HL He Hcap; simpl.
  { exists x, c, q, []. rewrite app_nil_r. split_and!; try done. by intros ?%elem_of_nil. }
  apply NoDup_cons in Hnd as [Hnt Hnd]. pose proof (quiet_enqueue_new ex key p b t) as Q.
  assert (inv [] (enqueue_new ex key p b t)) as HI1 by by eapply inv_quiet.
  assert (sole (alloc b).2 qp cp x c q) as HLa by (destruct HL; by split).
  destruct (decide (qp = t)) as [<-|Hne].
  - destruct (enqueue_sole (alloc b).2 qp cp x c q
      {| mptr := next_ptr b; mpub := p; mexchange := ex; mkey := key; mredelivered := false; mtimer := false |} false HLa)
      as (q1 & HL1 & He1); [apply Hcap; by left|done|].
    destruct (IH (enqueue_new ex key p b qp) _ _ q1 HI1 Hnd HL1 He1) as (x2 & c2 & q2 & ds & HL2 & Ha2 & He2 & Ho2 & _ & Hno); [done|].
    destruct (Hno Hnt) as [-> ->]. eexists _, c2, q2, _. split_and!; [exact HL2|done|done|reflexivity|..].
    + intros _. by eexists _, _.
    + intros Hn. destruct Hn. by left.
  - destruct (enqueue_other (alloc b).2 qp t cp x c q
      {| mptr := next_ptr b; mpub := p; mexchange := ex; mkey := key; mredelivered := false; mtimer := false |} false) as [c1 HL1];
      [eapply inv_quiet; [apply quiet_alloc|done]|done|done|].
    destruct (IH (enqueue_new ex key p b t) x c1 q HI1 Hnd HL1 He) as (x2 & c2 & q2 & ds & HL2 & Ha2 & He2 & Ho2 & Hyes & Hno).
    { intros Hin. apply Hcap. by right. }
    exists x2, c2, q2, ds. split_and!; [done|done|done|done|..].
    + intros [?|?]%elem_of_cons; [done|auto].
    + intros Hn. apply Hno. intros ?. apply Hn. by right.
Qed.

Lemma hits_NoDup b kind key bds seen : NoDup seen -> NoDup (hits b kind key bds seen).
Proof.
  revert seen. induction bds as [|bd bds IH]; intros seen Hs; simpl; [done|].
  destruct (queues b !! bqueue bd) as [p|]; [|by apply IH]. destruct (bool_decide_reflect (p ∈ seen)) as [|Hp]; simpl; [by apply IH|].
  destruct (hit kind bd key); [|by apply IH]. apply IH, NoDup_app. split_and!; [done| |apply NoDup_singleton].
  intros y Hy ->%list_elem_of_singleton. done.
Qed.

Lemma targets_NoDup b ex key : NoDup (targets b ex key).
Proof.
  unfold targets. destruct (decide (ex = "")).
  - destruct (queues b !! key); [apply NoDup_singleton|constructor].
  - destruct (exchanges b !! ex); [apply hits_NoDup; constructor|constructor].
Qed.

Lemma route_sole ex key p b qp cp x c q :
  inv [] b -> sole b qp cp x c q -> qmsgs q = [] -> hasCapacity x = true ->
  exists x' c' q' ds, sole (route ex key p b).1 qp cp x' c' q' /\ cautoAck x' = cautoAck x /\ qmsgs q' = [] /\
    cout x' = cout x ++ ds /\ (qp ∈ targets b ex key -> arrived ex key p ds) /\ (qp ∉ targets b ex key -> ds = [] /\ x' = x).
Proof. intros HI HL He Hcap. apply (fold_sole ex key p (targets b ex key) b qp cp x c q HI (targets_NoDup _ _ _) HL He); auto. Qed.

(** ** The queues the bus opens listen *)

Lemma channel_sound conn b b' ch : channel conn b = (b', inl ch) -> sound b -> sound b' /\ exchanges b' = exchanges b /\ queues b' = queues b.
Proof.
  unfold channel. intros H Hb. pose proof (sound_run_op (OChannel conn) b Hb) as S. simpl in S. revert H S.
  unfold open_channel. destruct (conns b !! conn); intros [= <- <-] S. done.
Qed.

Lemma confirming_sound ch b b' : confirming ch b = (b', inl tt) -> sound b -> sound b' /\ exchanges b' = exchanges b /\ queues b' = queues b.
Proof.
  unfold confirming. intros H Hb. pose proof (sound_run_op (OConfirm ch) b Hb) as S. simpl in S. revert H S.
  unfold Confirm, on_open. destruct (channels b !! ch) as [c|]; [|done]. destruct (chclosed c); [done|]. by intros [= <-] S.
Qed.

Lemma declare_exchange_sound ch n kind f b b' :
  declare_exchange ch n kind f b = (b', inl tt) -> sound b -> sound b' /\ exists e, exchanges b' !! n = Some e /\ ekind e = kind.
Proof.
  unfold declare_exchange. intros H Hb. pose proof (sound_run_op (OExchangeDeclare ch n kind true false false) b Hb) as S.
  cbn [run_op] in S. destruct (ExchangeDeclare ch n kind true false false b) as [b1 [e|]] eqn:E; [done|]. injection H as <-.
  split; [done|]. by eapply ExchangeDeclare_ok.
Qed.

Lemma queue_declare_sound ch n d a x args f b b' m :
  queue_declare ch n d a x args f b = (b', inl m) -> sound b -> sound b' /\ exchanges b' = exchanges b.
Proof.
  unfold queue_declare. intros H Hb. pose proof (sound_run_op (OQueueDeclare ch n d a x args) b Hb) as S. cbn [run_op] in S.
  destruct (QueueDeclare ch n d a x args b) as [b1 [k|e]] eqn:E; [|done]. injection H as <- <-. split; [done|]. revert E.
  unfold QueueDeclare, on_open. destruct (channels b !! ch) as [c|]; [|done]. destruct (chclosed c); [done|].
  destruct (if decide (n = "") then _ else _) as [n' b2] eqn:En.
  assert (exchanges b2 = exchanges b) as <- by (destruct (decide (n = "")); simplify_eq; done).
  unfold fail_channel. destruct (queues b2 !! n' ≫= _); [destruct (_ && _); [done|]; destruct (_ || _ || _ || _); [done|by intros [= <- <-]]|].
  destruct (bounded_arg args _ _); [|done]. destruct (bounded_arg args _ _); [|done]. by intros [= <- <-].
Qed.

(** The server names an unnamed queue. *)
Lemma queue_declare_anonymous ch d a x args f b b' m : queue_declare ch "" d a x args f b = (b', inl m) -> m <> "".
Proof.
  unfold queue_declare, QueueDeclare, on_open, fail_channel. destruct (channels b !! ch) as [c|]; [|done].
  destruct (chclosed c); [done|]. rewrite decide_True by done. destruct (queues (bump_name b) !! _ ≫= _) as [q|].
  - destruct (_ && _); [done|]. destruct (_ || _ || _ || _); [done|]. by intros [= _ <-].
  - destruct (bounded_arg args _ _); [|done]. destruct (bounded_arg args _ _); [|done]. by intros [= _ <-].
Qed.

Lemma queue_bind_sound ch q k ex f b b' e :
  queue_bind ch q k ex f b = (b', inl tt) -> sound b -> exchanges b !! ex = Some e ->
  sound b' /\ ex <> "" /\ exists e', exchanges b' !! ex = Some e' /\ ekind e' = ekind e /\ {| bqueue := q; bkey := k |} ∈ ebindings e'.
Proof.
  intros H Hb He. pose proof (sound_run_op (OQueueBind ch q k ex) b Hb) as S. cbn [run_op] in S.
  pose proof (queue_bind_ok _ _ _ _ _ _ _ H) as (Hne & _ & e0 & e' & He0 & He' & Hk & Hin).
  unfold queue_bind in H. destruct (QueueBind ch q k ex b) as [b1 [z|]]; [done|]. injection H as <-.
  split; [done|]. split; [done|]. exists e'. split_and!; [done|congruence|done].
Qed.

(** A successful exclusive consumption without acknowledgements listens. *)
Lemma consume_listening ch qn f b b' cp :
  consume ch qn f b = (b', inl cp) -> sound b ->
  sound b' /\ exchanges b' = exchanges b /\ queues b' = queues b /\
  exists qp x c q, queues b' !! qn = Some qp /\ listening b' qp cp x c q /\ qmsgs q = [].
Proof.
  intros H Hb. pose proof (sound_run_op (OConsume ch qn "" true true) b Hb) as S. cbn [run_op] in S. unfold consume in H.
  destruct (ConsumeWithContext ch qn "" true true b) as [b1 [k|e]] eqn:E; [|done]. injection H as <- <-. cbn [fst] in S.
  split; [done|]. clear S. revert E. unfold ConsumeWithContext, on_open. destruct (channels b !! ch) as [c|] eqn:Ec; [|done].
  destruct (chclosed c) eqn:Ecl; [done|]. unfold fail_channel. destruct (queues b !! qn) as [qp|] eqn:Eq; [|done].
  destruct (qheap b !! qp) as [q|] eqn:Eh; [|done]. destruct (qexclusv q && _); [done|].
  destruct (existsb _ (qconsumers q)) eqn:Ex; [done|].
  assert (qconsumers q = []) as Hnone.
  { destruct (qconsumers q) as [|y l] eqn:El; [done|]. exfalso. simpl in Ex.
    destruct (inv_attached _ _ (ok_inv _ (sound_ok _ Hb)) qp q y Eh) as (x & _ & Hx & _); [rewrite El; by left|].
    by rewrite Hx in Ex. }
  cbv zeta. destruct (chconsumers c !! _); [done|]. intros [= <- <-].
  match goal with |- context [dispatch qp ?x] => set (b2 := x) end.
  pose proof (quiet_dispatch qp b2) as Q. rewrite (qt_exchanges _ _ Q), (qt_names _ _ Q). split; [done|]. split; [done|].
  set (q2 := with_consumers [next_ptr b] true q).
  assert (qheap b2 !! qp = Some q2) as Hh2 by (unfold b2; simpl; rewrite Hnone; apply lookup_insert_eq).
  destruct (sound_names _ Hb qn qp Eq) as (q' & Hq' & Hd%qok_live). assert (q' = q) as -> by congruence.
  edestruct (dispatch_drains (length (qmsgs q2)) b2 qp (next_ptr b)) as (x & c' & q'' & HL & Hm); [|reflexivity|].
  - split; [split; [exact Hh2|done|done|unfold b2; simpl; apply lookup_insert_eq|done|unfold b2; simpl; apply lookup_insert_eq|done]|].
    done.
  - exists qp, x, c', q''. split; [done|]. unfold dispatch. by rewrite Hh2.
Qed.

(** The exchange leads to the queue. *)
Lemma bound_target b ex e qn k key qp :
  ex <> "" -> exchanges b !! ex = Some e -> {| bqueue := qn; bkey := k |} ∈ ebindings e ->
  hit (ekind e) {| bqueue := qn; bkey := k |} key = true -> queues b !! qn = Some qp -> qp ∈ targets b ex key.
Proof.
  intros Hne He Hbd Hh Hq. unfold targets. rewrite decide_False, He by done. by eapply hits_member.
Qed.

Lemma or_close_ok {X} ch (m : D X) b b' x : or_close ch m b = (b', inl x) -> m b = (b', inl x).
Proof. unfold or_close. by destruct (m b) as [b1 [y|e]]. Qed.

(** What a publish to [ex] under [key] brings the consumer [cp]: one delivery,
    of the message published, right away. *)
Definition delivers (b : Broker) (ex key : string) (cp : nat) : Prop :=
  forall p, exists x x' ds, consumers b !! cp = Some x /\ consumers (route ex key p b).1 !! cp = Some x' /\
    cout x' = cout x ++ ds /\ arrived ex key p ds.

Lemma listening_delivers b ex key qp cp x c q :
  sound b -> listening b qp cp x c q -> qmsgs q = [] -> qp ∈ targets b ex key -> delivers b ex key cp.
Proof.
  intros Hb [HL Ha] He Hin p. destruct (route_sole ex key p b qp cp x c q) as (x' & c' & q' & ds & HL' & _ & _ & Ho & Hy & _);
    [apply Hb|done|done|by apply auto_capacity|]. exists x, x', ds. split_and!; [apply HL|apply HL'|done|auto].
Qed.

(** A started cancel listener receives every cancel notice. *)
Lemma cancel_listener_receives conn cfg b b' ch q cp :
  cancel_start conn cfg b = (b', inl (ch, q, cp)) -> sound b -> sound b' /\ delivers b' (CancelExchange cfg) "" cp.
Proof.
  intros H Hb. unfold cancel_start in H.
  apply D_bind_ok in H as (b1 & ch1 & H1 & H). apply or_close_ok in H.
  apply D_bind_ok in H as (b2 & [] & H2 & H). apply D_bind_ok in H as (b3 & q3 & H3 & H).
  apply D_bind_ok in H as (b4 & [] & H4 & H). apply D_bind_ok in H as (b5 & cp5 & H5 & H). injection H as -> -> -> ->.
  apply channel_sound in H1 as (S1 & _); [|done]. apply declare_exchange_sound in H2 as (S2 & e & He & Hk); [|done].
  apply queue_declare_sound in H3 as (S3 & E3); [|done]. rewrite <-E3 in He.
  apply (queue_bind_sound _ _ _ _ _ _ _ e) in H4 as (S4 & Hne & e4 & He4 & Hk4 & Hbd); [|done|done].
  apply consume_listening in H5 as (S5 & E5 & Q5 & qp & x & c & q' & Hq & HL & Hm); [|done]. split; [done|].
  eapply listening_delivers; [done|done|done|]. rewrite <-E5 in He4. eapply bound_target; [done|done|done| |done].
  by rewrite Hk4, Hk.
Qed.

Lemma declare_each_sound conn l b : sound b -> sound (declare_each conn l b).
Proof.
  revert b. induction l as [|[name kind] l IH]; intros b Hb; simpl; [done|].
  pose proof (sound_run_op (OChannel conn) b Hb) as S1. cbn [run_op] in S1. destruct (open_channel conn b) as [b1 [ch|]]; [|done].
  pose proof (sound_run_op (OExchangeDeclare ch name kind true false false) b1 S1) as S2. cbn [run_op] in S2.
  destruct (ExchangeDeclare ch name kind true false false b1) as [b2 [e|]]; [by apply IH|]. apply IH.
  exact (sound_run_op (OChannelClose ch) b2 S2).
Qed.

(** A successful consumption closes no channel. *)
Lemma Consume_open ch qn tag a x b b' cp k c :
  ConsumeWithContext ch qn tag a x b = (b', inl cp) -> channels b !! k = Some c ->
  exists c', channels b' !! k = Some c' /\ chclosed c' = chclosed c.
Proof.
  intros H Hk. revert H. unfold ConsumeWithContext, on_open, fail_channel. destruct (channels b !! ch) as [c0|] eqn:Ec; [|done].
  destruct (chclosed c0) eqn:Eo; [done|]. destruct (queues b !! qn) as [qp|]; [|done]. destruct (qheap b !! qp) as [q|]; [|done].
  destruct (qexclusv q && _); [done|]. destruct (existsb _ _); [done|]. cbv zeta. destruct (chconsumers c0 !! _); [done|].
  intros [= <- <-]. match goal with |- context [dispatch qp ?x] => set (b2 := x) end.
  assert (exists c1, channels b2 !! k = Some c1 /\ chclosed c1 = chclosed c) as (c1 & Hc1 & E1).
  { unfold b2. simpl. destruct (decide (k = ch)) as [->|Hne]; [rewrite lookup_insert_eq|rewrite lookup_insert_ne by done]; eexists; (split; [done|]).
    - simpl. congruence.
    - done. }
  destruct (quiet_channel _ _ _ _ (quiet_dispatch qp b2) Hc1) as (c' & Hc' & S). exists c'. split; [done|].
  by rewrite (sc_closed _ _ S).
Qed.

(** A restored dispatcher: its queue is bound to the callbacks exchange under
    its own name and consumed by it alone, and its publishing channel is open. *)
Lemma reply_topology_ok conn cfg b b' ch q pub cp :
  reply_topology conn cfg b = (b', inl (ch, q, pub, cp)) -> sound b ->
  sound b' /\ CallbacksExchange cfg <> "" /\ q <> "" /\
  (exists e, exchanges b' !! CallbacksExchange cfg = Some e /\ ekind e = "direct" /\ {| bqueue := q; bkey := q |} ∈ ebindings e) /\
  (exists c, channels b' !! pub = Some c /\ chclosed c = false) /\
  exists qp x c q', queues b' !! q = Some qp /\ listening b' qp cp x c q' /\ qmsgs q' = [].
Proof.
  intros H Hb. unfold reply_topology in H. apply (declare_each_sound conn (core_exchanges cfg)) in Hb.
  fold (declareCoreExchanges conn cfg b) in Hb. set (b0 := declareCoreExchanges conn cfg b) in *.
  apply D_bind_ok in H as (b1 & ch1 & H1 & H). apply or_close_ok in H.
  apply D_bind_ok in H as (b2 & [] & H2 & H). apply D_bind_ok in H as (b3 & q3 & H3 & H).
  apply D_bind_ok in H as (b4 & [] & H4 & H). apply D_bind_ok in H as (b5 & pub5 & H5 & H).
  apply D_bind_ok in H as (b6 & [] & H6 & H). apply D_bind_ok in H as (b7 & cp7 & H7 & H). injection H as -> -> -> -> ->.
  apply or_close_ok in H6, H7.
  assert (exists c, channels b6 !! pub = Some c /\ chclosed c = false) as (cp6 & Hp6 & Ho6).
  { revert H6. unfold confirming, Confirm, on_open. destruct (channels b5 !! pub) as [c|] eqn:E; [|done].
    destruct (chclosed c) eqn:Eo; [done|]. intros [= <-]. simpl. rewrite lookup_alter_eq, E. by eexists. }
  assert (exists c, channels b' !! pub = Some c /\ chclosed c = false) as Hpub.
  { unfold consume in H7. destruct (ConsumeWithContext ch q "" true true b6) as [z [k|e]] eqn:E; [|done]. injection H7 as <- <-.
    destruct (Consume_open _ _ _ _ _ _ _ _ _ _ E Hp6) as (c & Hc & Ec). exists c. split; [done|congruence]. }
  pose proof (queue_declare_anonymous _ _ _ _ _ _ _ _ _ H3) as Hqne.
  apply channel_sound in H1 as (S1 & _); [|done]. apply declare_exchange_sound in H2 as (S2 & e & He & Hk); [|done].
  apply queue_declare_sound in H3 as (S3 & E3); [|done]. rewrite <-E3 in He.
  apply (queue_bind_sound _ _ _ _ _ _ _ e) in H4 as (S4 & Hne & e4 & He4 & Hk4 & Hbd); [|done|done].
  apply channel_sound in H5 as (S5 & E5 & _); [|done]. apply confirming_sound in H6 as (S6 & E6 & _); [|done].
  apply consume_listening in H7 as (S7 & E7 & Q7 & qp & x & c & q' & Hq & HL & Hm); [|done]. split; [done|].
  split; [done|]. split; [done|]. split; [|split; [done|by exists qp, x, c, q']]. exists e4. rewrite E7, E6, E5. split_and!; [done|congruence|done].
Qed.

(** It receives every reply sent to its queue. *)
Lemma dispatcher_receives conn cfg b b' ch q pub cp :
  reply_topology conn cfg b = (b', inl (ch, q, pub, cp)) -> sound b -> sound b' /\ delivers b' (CallbacksExchange cfg) q cp.
Proof.
  intros H Hb. destruct (reply_topology_ok _ _ _ _ _ _ _ _ H Hb) as (S & Hne & _ & (e & He & Hk & Hbd) & _ & qp & x & c & q' & Hq & HL & Hm).
  split; [done|]. eapply listening_delivers; [done|done|done|]. eapply bound_target; [done|done|done| |done].
  rewrite Hk. unfold hit. simpl. by apply bool_decide_true.
Qed.

Lemma sound_run_ops os b : sound b -> sound (run_ops os b).
Proof. revert b. induction os as [|o os IH]; intros b Hb; [done|]. apply IH, sound_run_op, Hb. Qed.

(** C23: What is sent to this process arrives. On a broker that any operations
    led to, once the dispatcher's restore has declared its reply queue, bound it
    and consumes it, a reply published to the callbacks exchange under the
    queue's name is delivered to that consumer at once, once, as published; once
    the cancel listener has started, so is every notice published to the cancel
    exchange. *)
Theorem bus_queues_receive (os : list op) (conn : nat) (cfg : Config) :
  let b := run_ops os New in
  (forall b' ch q pub cp, reply_topology conn cfg b = (b', inl (ch, q, pub, cp)) -> delivers b' (CallbacksExchange cfg) q cp) /\
  (forall b' ch q cp, cancel_start conn cfg b = (b', inl (ch, q, cp)) -> delivers b' (CancelExchange cfg) "" cp).
Proof.
  intros b. assert (sound b) as Hb by apply sound_run_ops, sound_New. split.
  - intros b' ch q pub cp H. by apply (dispatcher_receives _ _ _ _ _ _ _ _ H).
  - intros b' ch q cp H. by apply (cancel_listener_receives _ _ _ _ _ _ _ H).
Qed.

(** ** A subscription made after the start *)

(** [consumer.bind]: on the live channel; without one the next restore applies
    the binding. *)
Definition consumer_bind (ch : option nat) (queue key exchange : string) (b : Broker) : Broker * option amqp_error :=
  match ch with
  | None => (b, None)
  | Some c => if Channel_IsClosed c b then (b, None) else QueueBind c queue key exchange b
  end.

(** A late binding is made, or the channel is dead and the broker untouched. *)
Lemma consumer_bind_ok ch queue key ex b b' :
  consumer_bind ch queue key ex b = (b', None) ->
  (b' = b /\ forall c, ch = Some c -> Channel_IsClosed c b = true) \/
  (declares b b' [(ex, {| bqueue := queue; bkey := key |})] /\
   exists e, exchanges b' !! ex = Some e /\ {| bqueue := queue; bkey := key |} ∈ ebindings e).
Proof.
  unfold consumer_bind. destruct ch as [c|]; [|intros [= <-]; by left].
  destruct (Channel_IsClosed c b) eqn:Ec; [intros [= <-]; left; split; [done|]; by intros ? [= <-]|].
  intros H. right. destruct (QueueBind_ok _ _ _ _ _ _ H) as (_ & Hd & e & e' & _ & He & _ & Hin). eauto.
Qed.

(** Two processes of one bus: both hear a cancel notice, and a reply reaches the
    one it is for. *)
Definition two_processes : Broker * list (string * nat * nat) :=
  let b := run_ops [ODial; ODial] New in
  let add (a : Broker * list (string * nat * nat)) conn :=
    match reply_topology conn DefaultConfig a.1 with
    | (b1, inl (_, q, _, r)) =>
        match cancel_start conn DefaultConfig b1 with
        | (b2, inl (_, _, c)) => (b2, a.2 ++ [(q, r, c)])
        | (b2, inr _) => (b2, a.2)
        end
    | (b1, inr _) => (b1, a.2)
    end in
  fold_left add [0; 1]%nat (b, []).

Definition received (b : Broker) (cp : nat) : list string :=
  match consumers b !! cp with Some x => CorrelationId <$> cout x | None => [] end.

Example two_processes_hear :
  match two_processes with
  | (b, [(q1, r1, c1); (q2, r2, c2)]) =>
      let b1 := (route (CancelExchange DefaultConfig) "" (cancel_notice "stream-7") b).1 in
      let b2 := (route (CallbacksExchange DefaultConfig) q2 (cancel_notice "reply-3") b1).1 in
      (received b2 c1, received b2 c2, received b2 r1, received b2 r2) = (["stream-7"], ["stream-7"], [], ["reply-3"])
  | _ => False
  end.
Proof. vm_compute. reflexivity. Qed.
