(* ===== verification/Rpc.v ===== *)
(** * Rpc: a call over the broker (consumer.go, dispatcher.go, service.go, client.go)

    The request path composed of the components that make it up: a service's
    consumer started on the broker of [Broker], the dispatcher's reply queue of
    [Channels], the client's envelope and the service's [handle] of [Service],
    the settlement of [Consumer] and the table of calls of [Dispatcher]. What the
    consumer publishes and settles is performed on the broker; what the broker
    hands the reply consumer is routed to the table. *)
From S2P Require Import Prelude GoStrings Config Wire Topic Headers Errors Names Consumer Service Dispatcher.
From S2P Require Import Broker BrokerOps BrokerStore Topology Channels.

Local Open Scope Z_scope.

#[local] Existing Instance D_ret.
#[local] Existing Instance D_bind.

(** ** Starting a consumer *)

(** The broker's part of [consumer.restoreTopology]: one channel, for
    publishing as for consuming. *)
Definition consumer_topology (conn : nat) (t : topologySpec) : D (nat * string) :=
  ch ← channel conn;
  or_close ch (
    _ ← confirming ch;
    q ← declareTopology ch t;
    mret (ch, q)).

(** The broker's part of [startConsuming], under a fresh tag. *)
Definition start_consuming (t : topologySpec) (tag : string) (ch : nat) (q : string) : D nat := fun b =>
  match ConsumeWithContext ch q tag false (bool_decide (squeue (tspec t) = "")) b with
  | (b', inl c) => (b', inl c)
  | (b', inr e) => (b', inr (wrapped ("consuming " +:+ q) e))
  end.

Definition consumer_start (conn : nat) (t : topologySpec) (tag : string) : D (nat * string * nat) :=
  '(ch, q) ← consumer_topology conn t;
  cp ← start_consuming t tag ch q;
  mret (ch, q, cp).

(** ** What a start leaves as it was *)

(** A channel that is left to its owner. *)
Record calm (c c' : Broker.channel) : Prop := {
  ca_closed : chclosed c' = chclosed c;
  ca_unacked : chunacked c' = chunacked c;
  ca_consumers : chconsumers c' = chconsumers c;
  ca_prefetch : 0 <= chprefetch c -> 0 <= chprefetch c'
}.

#[local] Instance calm_preorder : PreOrder calm.
Proof. split; [by split|]. intros c c1 c2 [] []. split; [congruence..|auto]. Qed.

(** Declarations and openings: what the broker has stays, and what appears is
    empty and unconsumed. *)
Record augments (b b' : Broker) : Prop := {
  gr_sound : sound b';
  gr_heap : forall p q, qheap b !! p = Some q -> qheap b' !! p = Some q;
  gr_queue : forall n p, queues b !! n = Some p -> queues b' !! n = Some p;
  gr_exchange : forall n e, exchanges b !! n = Some e ->
    exists e', exchanges b' !! n = Some e' /\ ekind e' = ekind e /\ ebindings e ⊆ ebindings e';
  gr_new : forall n p q, queues b' !! n = Some p -> qheap b' !! p = Some q ->
    queues b !! n = Some p \/ qmsgs q = [] /\ qconsumers q = [];
  gr_consumers : consumers b' = consumers b;
  gr_channel : forall ch c, channels b !! ch = Some c -> exists c', channels b' !! ch = Some c' /\ calm c c'
}.

Lemma augments_declares b b' adds :
  sound b -> sound b' -> declares b b' adds -> consumers b' = consumers b ->
  (forall ch c, channels b !! ch = Some c -> exists c', channels b' !! ch = Some c' /\ calm c c') -> augments b b'.
Proof.
  intros Hb Hb' HD Hc Hch. pose proof (sound_wf b Hb) as W. split; [done|..|done|done].
  - by apply (dec_heap _ _ _ HD).
  - by apply (dec_queue _ _ _ HD).
  - by apply (dec_exchange _ _ _ HD).
  - by apply (dec_new _ _ _ HD).
Qed.

Lemma augments_refl b : sound b -> augments b b.
Proof.
  intros Hb. split; try done; [|by left|].
  - intros n e He. by exists e.
  - intros ch c Hc. by exists c.
Qed.

Lemma augments_trans b b1 b2 : augments b b1 -> augments b1 b2 -> augments b b2.
Proof.
  intros [S1 H1 Q1 E1 N1 C1 K1] [S2 H2 Q2 E2 N2 C2 K2]. split; [done|auto|auto|..|congruence|].
  - intros n e He. destruct (E1 n e He) as (e1 & He1 & ? & ?). destruct (E2 n e1 He1) as (e2 & He2 & ? & ?).
    exists e2. split_and!; [done|congruence|set_solver].
  - intros n p q Hp Hq. destruct (N2 n p q Hp Hq) as [Hp1|?]; [|by right].
    destruct (inv_named _ _ (ok_inv _ (sound_ok _ S1)) n p Hp1) as [q1 Hq1].
    assert (q1 = q) as -> by (specialize (H2 p q1 Hq1); congruence). by eapply N1.
  - intros ch c Hc. destruct (K1 ch c Hc) as (c1 & Hc1 & ?). destruct (K2 ch c1 Hc1) as (c2 & Hc2 & ?).
    exists c2. split; [done|]. by etrans.
Qed.

(** Code that only declares and opens. *)
Definition keeps {X : Type} (m : D X) : Prop := forall b b' x, m b = (b', inl x) -> sound b -> augments b b'.

Lemma keeps_ret {X} (x : X) : keeps (mret x : D X).
Proof. intros b b' y [= <- <-]. by apply augments_refl. Qed.

Lemma keeps_bind {X Y} (m : D X) (f : X -> D Y) : keeps m -> (forall x, keeps (f x)) -> keeps (m ≫= f).
Proof.
  intros Hm Hf b b' y H Hb. apply D_bind_ok in H as (b1 & x & H1 & H2).
  pose proof (Hm _ _ _ H1 Hb) as G1. eapply augments_trans; [exact G1|]. apply (Hf _ _ _ _ H2), G1.
Qed.

Lemma keeps_or_close {X} ch (m : D X) : keeps m -> keeps (or_close ch m).
Proof. intros Hm b b' x H%or_close_ok. by apply (Hm b b' x). Qed.

(** An update of a channel that leaves it to its owner. *)
Lemma augments_channel b ch g : sound b -> sound (upd_channel ch g b) -> (forall c, calm c (g c)) -> augments b (upd_channel ch g b).
Proof.
  intros Hb Hb' Hg. apply (augments_declares _ _ []); [done|done|by apply declares_same|done|].
  intros k c Hc. simpl. destruct (decide (k = ch)) as [->|Hne].
  - rewrite lookup_alter_eq, Hc. eauto.
  - rewrite lookup_alter_ne by done. by exists c.
Qed.

Lemma augments_same_channels b b' adds :
  sound b -> sound b' -> declares b b' adds -> consumers b' = consumers b -> channels b' = channels b -> augments b b'.
Proof.
  intros Hb Hb' HD Hc Hch. apply (augments_declares _ _ adds); try done. intros k c Hk. rewrite Hch. by exists c.
Qed.

Lemma keeps_channel conn : keeps (channel conn).
Proof.
  intros b b' ch H Hb. pose proof (channel_sound _ _ _ _ H Hb) as (Hs & He & Hq). revert H Hs He Hq. unfold channel, open_channel.
  destruct (conns b !! conn); [|done]. intros [= <- <-] Hs He Hq. split; simpl; try done; [|by left|].
  - intros n e Hn. by exists e.
  - intros k c Hk. rewrite lookup_insert_ne; [by exists c|]. intros <-.
    pose proof (inv_channels _ _ (ok_inv _ (sound_ok _ Hb)) _ _ Hk). simpl in *. lia.
Qed.

Lemma keeps_confirming ch : keeps (confirming ch).
Proof.
  intros b b' [] H Hb. pose proof (confirming_sound _ _ _ H Hb) as (Hs & _). revert H Hs. unfold confirming, Confirm, on_open.
  destruct (channels b !! ch) as [c|]; [|done]. destruct (chclosed c); [done|]. intros [= <-] Hs. by apply augments_channel.
Qed.

Lemma keeps_exchange_topic ch n f : keeps (exchange_topic ch n f).
Proof.
  intros b b' [] H Hb. pose proof (exchange_topic_ok _ _ _ _ _ H) as [HD _].
  pose proof (sound_run_op (OExchangeDeclare ch n "topic" true false false) b Hb) as Hs. cbn [run_op] in Hs. revert H Hs.
  unfold exchange_topic, ExchangeDeclare, on_open, fail_channel. destruct (channels b !! ch) as [c|]; [|done].
  destruct (chclosed c); [done|]. destruct (exchanges b !! n) as [e|]; [destruct (_ || _ || _ || _)|destruct (bool_decide _)]; try done;
    intros [= <-] Hs; by eapply augments_same_channels.
Qed.

Lemma keeps_queue_bind ch q k ex f : keeps (queue_bind ch q k ex f).
Proof.
  intros b b' [] H Hb. pose proof (queue_bind_ok _ _ _ _ _ _ _ H) as (_ & HD & _).
  pose proof (sound_run_op (OQueueBind ch q k ex) b Hb) as Hs. cbn [run_op] in Hs. revert H Hs.
  unfold queue_bind, QueueBind, on_open, fail_channel. destruct (channels b !! ch) as [c|]; [|done].
  destruct (chclosed c); [done|]. destruct (exchanges b !! ex) as [e|]; [|done]. destruct (decide (ex = "")); [done|].
  destruct (queues b !! q); [|done]. case_decide; intros [= <-] Hs; by eapply augments_same_channels.
Qed.

Lemma keeps_queue_declare ch n d a x args f : n <> "" -> keeps (queue_declare ch n d a x args f).
Proof.
  intros Hn b b' m H Hb. pose proof (queue_declare_ok _ _ _ _ _ _ _ _ _ _ Hn H) as (_ & HD & _).
  pose proof (sound_run_op (OQueueDeclare ch n d a x args) b Hb) as Hs. cbn [run_op] in Hs. revert H Hs.
  unfold queue_declare, QueueDeclare, on_open, fail_channel. destruct (channels b !! ch) as [c|]; [|done].
  destruct (chclosed c); [done|]. rewrite decide_False by done.
  destruct (queues b !! n ≫= fun q => qheap b !! q) as [q|].
  - destruct (_ && _); [done|]. destruct (_ || _ || _ || _); [done|]. intros [= <- <-] Hs. by eapply augments_same_channels.
  - destruct (bounded_arg args _ _); [|done]. destruct (bounded_arg args _ _); [|done]. intros [= <- <-] Hs.
    by eapply augments_same_channels.
Qed.

Lemma keeps_bind_all ch q ex keys : keeps (bind_all ch q ex keys).
Proof. induction keys as [|k keys IH]; simpl; [apply keeps_ret|]. apply keeps_bind; [apply keeps_queue_bind|done]. Qed.

Lemma keeps_retry ch rs delay dlx : dlq rs <> "" -> rqueue rs <> "" -> keeps (declareRetryTopology ch rs delay dlx).
Proof.
  intros H1 H2. unfold declareRetryTopology. apply keeps_bind; [by apply keeps_queue_declare|intros _].
  apply keeps_bind; [by apply keeps_queue_declare|intros _]. apply keeps_bind; [apply keeps_exchange_topic|intros _].
  apply keeps_queue_bind.
Qed.

(** A specification whose retry queues have names. *)
Definition named_retry (t : topologySpec) : Prop := forall rs, retry (tspec t) = Some rs -> dlq rs <> "" /\ rqueue rs <> "".

Lemma keeps_run_declare ch t q : named_retry t -> keeps (run_declare ch t q).
Proof.
  intros Hn. unfold run_declare. destruct (tdeclare t), (retry (tspec t)) as [rs|] eqn:E; try apply keeps_ret.
  - destruct (Hn rs E). by apply keeps_retry.
  - destruct (Hn rs E). apply keeps_bind; [apply keeps_exchange_topic|intros _].
    apply keeps_bind; [apply keeps_queue_bind|intros _]. by apply keeps_retry.
Qed.

Lemma keeps_Qos ch n : 0 <= n -> keeps (fun b => match Qos ch n b with
    | (b', None) => (b', inl tt)
    | (b', Some e) => (b', inr (amqp_err e))
    end).
Proof.
  intros Hn b b' [] H Hb. pose proof (sound_run_op (OQos ch n) b Hb) as Hs. cbn [run_op] in Hs. revert H Hs.
  unfold Qos, on_open. destruct (channels b !! ch) as [c|]; [|done]. destruct (chclosed c); [done|].
  intros [= <-] Hs. by apply augments_channel.
Qed.

Lemma keeps_declareTopology ch t : squeue (tspec t) <> "" -> 0 <= prefetch (tspec t) -> named_retry t -> keeps (declareTopology ch t).
Proof.
  intros Hq Hp Hn. unfold declareTopology. apply keeps_bind; [by apply keeps_Qos|intros _].
  apply keeps_bind; [apply keeps_exchange_topic|intros _]. apply keeps_bind; [by apply keeps_queue_declare|intros q].
  apply keeps_bind; [apply keeps_bind_all|intros _]. apply keeps_bind; [by apply keeps_run_declare|intros _]. apply keeps_ret.
Qed.

Lemma retry_declares ch rs delay dlx b b' :
  dlq rs <> "" -> rqueue rs <> "" -> declareRetryTopology ch rs delay dlx b = (b', inl tt) -> exists adds, declares b b' adds.
Proof.
  intros Hd Hr H. unfold declareRetryTopology in H. apply D_bind_ok in H as (b1 & n1 & H1 & H).
  apply D_bind_ok in H as (b2 & n2 & H2 & H). apply D_bind_ok in H as (b3 & [] & H3 & H4).
  apply queue_declare_ok in H1 as (_ & D1 & _); [|done]. apply queue_declare_ok in H2 as (_ & D2 & _); [|done].
  apply exchange_topic_ok in H3 as [D3 _]. apply queue_bind_ok in H4 as (_ & D4 & _).
  eexists. eapply declares_trans; [exact D1|]. eapply declares_trans; [exact D2|]. by eapply declares_trans.
Qed.

Lemma run_declare_declares ch t q b b' : named_retry t -> run_declare ch t q b = (b', inl tt) -> exists adds, declares b b' adds.
Proof.
  intros Hn. unfold run_declare. destruct (tdeclare t), (retry (tspec t)) as [rs|] eqn:E;
    try (intros [= <-]; eexists; apply declares_refl); destruct (Hn rs E) as [Hd Hr]; [by apply retry_declares|].
  intros H. apply D_bind_ok in H as (b1 & [] & H1 & H). apply D_bind_ok in H as (b2 & [] & H2 & H).
  apply exchange_topic_ok in H1 as [D1 _]. apply queue_bind_ok in H2 as (_ & D2 & _).
  apply retry_declares in H as [adds D3]; [|done|done].
  eexists. eapply declares_trans; [exact D1|]. by eapply declares_trans.
Qed.

(** A restored consumer: its channel is open, holds nothing and knows no
    consumer yet, its queue is there and bound to its exchange. *)
Lemma consumer_topology_ok conn t b b' ch q :
  consumer_topology conn t b = (b', inl (ch, q)) -> sound b ->
  squeue (tspec t) <> "" -> 0 <= prefetch (tspec t) -> named_retry t ->
  augments b b' /\ q = squeue (tspec t) /\ is_Some (queues b' !! q) /\
  (exists c, channels b' !! ch = Some c /\ chclosed c = false /\ chunacked c = ∅ /\ chconsumers c = ∅ /\ 0 <= chprefetch c) /\
  exists e, exchanges b' !! texchange t = Some e /\ ekind e = "topic" /\
    forall k, k ∈ tbindings t -> texchange t <> "" /\ {| bqueue := q; bkey := k |} ∈ ebindings e.
Proof.
  intros H Hb Hq Hp Hn. unfold consumer_topology in H. apply D_bind_ok in H as (b1 & ch1 & H1 & H). apply or_close_ok in H.
  apply D_bind_ok in H as (b2 & [] & H2 & H). apply D_bind_ok in H as (b3 & q3 & H3 & H). injection H as -> -> ->.
  pose proof (keeps_channel _ _ _ _ H1 Hb) as G1. pose proof (keeps_confirming _ _ _ _ H2 (gr_sound _ _ G1)) as G2.
  pose proof (keeps_declareTopology ch t Hq Hp Hn _ _ _ H3 (gr_sound _ _ G2)) as G3.
  split; [by eapply augments_trans; [|eapply augments_trans]|].
  apply declareTopology_ok in H3 as (b4 & p & -> & W & HD & Hr & Hpq & e & He & Hk & Hbd); [|done|apply sound_wf, G2].
  apply run_declare_declares in Hr as [adds HD']; [|done]. split; [done|]. split; [|split].
  - exists p. by apply (dec_queue _ _ _ HD').
  - revert H1. unfold channel, open_channel. destruct (conns b !! conn) as [n|]; [|done]. intros [= <- <-].
    edestruct (gr_channel _ _ G2) as (c2 & Hc2 & [A1 A2 A3 A4]); [simpl; apply lookup_insert_eq|]. simpl in A1, A2, A3, A4.
    destruct (gr_channel _ _ G3 _ _ Hc2) as (c3 & Hc3 & [B1 B2 B3 B4]). exists c3.
    split_and!; [done|congruence|congruence|congruence|]. apply B4, A4. done.
  - destruct (dec_exchange _ _ _ HD' _ _ He) as (e' & He' & Hk' & Hs). exists e'. split_and!; [done|congruence|].
    intros k Hin. destruct (Hbd k Hin). split; [done|]. by apply Hs.
Qed.

(** ** A consumer at work *)

(** A consumer that acknowledges, alone on its queue, which is empty, and on its
    channel, on which [un] is unacknowledged. *)
Record attends (b : Broker) (qp ch cp : nat) (un : gmap nat inflight) (x : consumer) (c : Broker.channel) (q : queue) : Prop := {
  at_sole : sole b qp cp x c q;
  at_channel : cch x = ch;
  at_only : chconsumers c = {[ctag x := cp]};
  at_empty : qmsgs q = [];
  at_manual : cautoAck x = false;
  at_prefetch : 0 <= cprefetch x;
  at_count : cunacked x = Z.of_nat (size un);
  at_unacked : chunacked c = un
}.

Arguments at_sole {_ _ _ _ _ _ _ _}.
Arguments at_channel {_ _ _ _ _ _ _ _}.
Arguments at_prefetch {_ _ _ _ _ _ _ _}.
Arguments at_count {_ _ _ _ _ _ _ _}.

Lemma attends_capacity b qp ch cp x c q : attends b qp ch cp ∅ x c q -> hasCapacity x = true.
Proof.
  intros H. unfold hasCapacity. rewrite (at_count H), map_size_empty. pose proof (at_prefetch H).
  destruct (Z.eqb_spec (cprefetch x) 0); [by rewrite orb_true_r|]. apply orb_true_iff. right. apply Z.ltb_lt. simpl. lia.
Qed.

(** A queue that is dispatched hands nothing to the channel of another's only
    consumer. *)
Lemma dispatch_fuel_channel fuel qp qp' cp b x c :
  qp <> qp' -> inv [] b -> consumers b !! cp = Some x -> cq x = qp -> channels b !! cch x = Some c ->
  chconsumers c = {[ctag x := cp]} -> channels (dispatch_fuel fuel qp' b) !! cch x = Some c.
Proof.
  intros Hne. revert b. induction fuel as [|fuel IH]; intros b HI Hx Hxq Hc Ho; simpl; [done|].
  destruct (qheap b !! qp') as [q|] eqn:Eq; [|done]. destruct (pick b q) as [[i cp']|] eqn:Ep; [|done].
  destruct (qmsgs q !! next q) as [m|]; [|done].
  destruct (inv_attached _ _ HI qp' q cp' Eq (pick_member _ _ _ _ Ep)) as (y & d & Hy & Hyq & Hd & [[_ Hyc]|[_ []%elem_of_nil]]).
  assert (cp <> cp') as Hcp by (intros ->; congruence).
  assert (cch y <> cch x) as Hch.
  { intros E. rewrite E in Hd. assert (d = c) as -> by congruence. rewrite Ho in Hyc.
    apply lookup_singleton_Some in Hyc as [_ ?]. done. }
  apply IH; [|by apply deliver_other|done| |done].
  - eapply inv_quiet; [|exact HI]. etrans; [by apply quiet_set_queue|apply quiet_deliver].
  - unfold deliver. cbn [consumers channels set_qheap]. rewrite Hy, Hd. simpl. by rewrite lookup_insert_ne.
Qed.

Lemma enqueue_channel qp qp' cp b x c m front :
  qp <> qp' -> inv [] b -> consumers b !! cp = Some x -> cq x = qp -> channels b !! cch x = Some c ->
  chconsumers c = {[ctag x := cp]} -> channels (enqueue qp' m front b) !! cch x = Some c.
Proof.
  intros Hne HI Hx Hxq Hc Ho. unfold enqueue, dispatch. destruct (qheap b !! qp') as [q'|] eqn:Eq'; [|done].
  destruct (qdeleted q'); [done|]. case_match; [|done]. apply (dispatch_fuel_channel _ qp _ cp); try done.
  eapply inv_quiet; [|exact HI]. by apply (quiet_set_queue b qp' q' _ (qrr q')).
Qed.

(** What is published elsewhere does not concern it. *)
Lemma fold_attends ex key p ts b qp ch cp un x c q :
  inv [] b -> qp ∉ ts -> attends b qp ch cp un x c q -> attends (fold_left (enqueue_new ex key p) ts b) qp ch cp un x c q.
Proof.
  revert b. induction ts as [|t ts IH]; intros b HI Hn HA; simpl; [done|]. apply not_elem_of_cons in Hn as [Hne Hn].
  apply IH; [by eapply inv_quiet; [apply quiet_enqueue_new|]|done|]. destruct HA as [HL ? ? ? ? ? ? ?].
  assert (sole (alloc b).2 qp cp x c q) as HLa by (destruct HL; by split).
  assert (inv [] (alloc b).2) as HIa by (eapply inv_quiet; [apply quiet_alloc|done]).
  match goal with |- attends ?b' _ _ _ _ _ _ _ => assert (sole b' qp cp x c q); [|by split] end.
  unfold enqueue_new. simpl. destruct (enqueue_other (alloc b).2 qp t cp x c q
      {| mptr := next_ptr b; mpub := p; mexchange := ex; mkey := key; mredelivered := false; mtimer := false |} false HIa Hne HLa) as [c1 HL1].
  replace c with c1; [exact HL1|]. destruct HL1 as [_ _ _ _ _ Hc1 _]. destruct HLa as [_ _ _ Hx Hxq Hc _].
  epose proof (enqueue_channel qp t cp (alloc b).2 x c _ false Hne HIa Hx Hxq Hc) as Hc2. rewrite Hc1 in Hc2. specialize (Hc2 ltac:(done)).
  congruence.
Qed.

(** The message a publish makes of [p]. *)
Definition message_of (ptr : nat) (ex key : string) (p : Publishing) : message :=
  {| mptr := ptr; mpub := p; mexchange := ex; mkey := key; mredelivered := false; mtimer := false |}.

Lemma route_elsewhere ex key p b qp ch cp un x c q :
  inv [] b -> qp ∉ targets b ex key -> attends b qp ch cp un x c q -> attends (route ex key p b).1 qp ch cp un x c q.
Proof. apply fold_attends. Qed.

(** What is published to its queue is handed to it, unacknowledged. *)
Lemma route_attends ex key p b qp ch cp x c q :
  inv [] b -> qp ∈ targets b ex key -> attends b qp ch cp ∅ x c q ->
  exists tag ptr c' q', let m := message_of ptr ex key p in
    attends (route ex key p b).1 qp ch cp {[tag := {| ifmsg := m; ifq := qp; ifcons := cp |}]}
      (handed_to x (delivery_of tag m)) c' q'.
Proof.
  intros HI Hin HA. pose proof (targets_NoDup b ex key) as Hnd. unfold route. cbn [fst].
  apply list_elem_of_split in Hin as (l1 & l2 & Hts). rewrite Hts in *. rewrite fold_left_app. cbn [fold_left].
  apply NoDup_app in Hnd as (_ & H1 & Hnd). apply NoDup_cons in Hnd as [H2 _].
  assert (qp ∉ l1) as Hl1 by (intros Hl; apply (H1 _ Hl); by left).
  apply (fold_attends ex key p l1 b) in HA; [|done|done]. set (b1 := fold_left _ l1 b) in *.
  assert (inv [] b1) as HI1 by (eapply inv_quiet; [apply quiet_fold, quiet_enqueue_new|done]).
  pose proof (attends_capacity _ _ _ _ _ _ _ HA) as Hcap. destruct HA as [HL ? ? ? Hm ? Hn Hu].
  assert (sole (alloc b1).2 qp cp x c q) as HLa by (destruct HL; by split).
  destruct (enqueue_sole (alloc b1).2 qp cp x c q (message_of (next_ptr b1) ex key p) false HLa) as (q' & HL' & He'); [done|done|].
  eexists _, _, _, q'. apply fold_attends; [by eapply inv_quiet; [apply quiet_enqueue_new|]|done|].
  split; [exact HL'|done|done|done|done|done| |].
  - simpl. rewrite Hm, Hn, map_size_empty, map_size_singleton. done.
  - simpl. by rewrite Hm, Hu.
Qed.

(** A change of channels that is not about deliveries. *)
Record aside (c c' : Broker.channel) : Prop := {
  as_closed : chclosed c' = chclosed c; as_consumers : chconsumers c' = chconsumers c; as_unacked : chunacked c' = chunacked c;
  as_next : chnextTag c' = chnextTag c; as_conn : chconn c' = chconn c
}.

Arguments as_closed {_ _}.

Lemma sole_aside b ch g qp cp x c q :
  (forall c, aside c (g c)) -> sole b qp cp x c q -> exists c', sole (upd_channel ch g b) qp cp x c' q /\ aside c c'.
Proof.
  intros Hg [H1 H2 H3 H4 H5 H6 H7]. destruct (decide (cch x = ch)) as [E|Hne].
  - exists (g c). split; [|done]. split; simpl; try done; [by rewrite E, lookup_alter_eq, <-E, H6|].
    by rewrite (as_closed (Hg c)).
  - exists c. split; [|done]. split; simpl; try done. by rewrite lookup_alter_ne.
Qed.

Lemma attends_aside b ch' g qp ch cp un x c q :
  (forall c, aside c (g c)) -> attends b qp ch cp un x c q -> exists c', attends (upd_channel ch' g b) qp ch cp un x c' q.
Proof.
  intros Hg [HL H1 H2 H3 H4 H5 H6 H7]. destruct (sole_aside b ch' g qp cp x c q Hg HL) as (c' & HL' & [A1 A2 A3]). exists c'.
  split; try done; congruence.
Qed.

Lemma bump_aside c : aside c (bump_seq c).
Proof. by split. Qed.

(** Acknowledging what it holds: nothing else moves. *)
Lemma settle_attends b qp ch cp tag i x c q :
  ifq i = qp -> ifcons i = cp -> attends b qp ch cp {[tag := i]} x c q ->
  exists b' x' c', Broker.settle ch SAck tag b = (b', None) /\ attends b' qp ch cp ∅ x' c' q /\ cout x' = cout x /\
    b' = upd_consumer cp one_less (upd_channel ch (remove_tag tag) b).
Proof.
  intros Hq Hc [[H1 H2 H3 H4 H5 H6 H7] A1 A2 A3 A4 A5 A6 A7].
  eexists _, (one_less x), (remove_tag tag c). unfold Broker.settle, on_open. rewrite <-A1, H6, H7, A7, lookup_singleton_eq.
  cbv zeta beta. rewrite Hq, Hc.
  change (upd_consumer cp _ (upd_channel (cch x) _ b)) with (upd_consumer cp one_less (upd_channel (cch x) (remove_tag tag) b)).
  assert (dispatch qp (upd_consumer cp one_less (upd_channel (cch x) (remove_tag tag) b))
    = upd_consumer cp one_less (upd_channel (cch x) (remove_tag tag) b)) as ->.
  { unfold dispatch. simpl. by rewrite H1, A3. }
  split; [done|]. split; [|done]. split; try done.
  - split; simpl; try done; [by rewrite lookup_alter_eq, H4|by rewrite lookup_alter_eq, H6].
  - simpl. rewrite A6, map_size_singleton, map_size_empty. done.
  - simpl. by rewrite A7, delete_singleton_eq.
Qed.

(** Consuming an idle queue on a fresh channel. *)
Lemma Consume_attends ch qn tag ex b b' cp qp q c :
  ConsumeWithContext ch qn tag false ex b = (b', inl cp) -> sound b ->
  queues b !! qn = Some qp -> qheap b !! qp = Some q -> qmsgs q = [] -> qconsumers q = [] ->
  channels b !! ch = Some c -> chclosed c = false -> chunacked c = ∅ -> chconsumers c = ∅ -> 0 <= chprefetch c ->
  sound b' /\ exchanges b' = exchanges b /\ queues b' = queues b /\
  (exists x c' q', attends b' qp ch cp ∅ x c' q' /\ cout x = []) /\
  (forall qp0 cp0 x0 c0 q0, qp0 <> qp -> sole b qp0 cp0 x0 c0 q0 -> exists c0', sole b' qp0 cp0 x0 c0' q0).
Proof.
  intros H Hb Hqn Hq Hm Hno Hc Ho Hu Hcc Hp.
  pose proof (sound_run_op (OConsume ch qn tag false ex) b Hb) as S. cbn [run_op] in S. rewrite H in S. cbn [fst] in S.
  split; [done|]. assert (qdeleted q = false) as Hd.
  { destruct (sound_names _ Hb qn qp Hqn) as (q1 & Hq1 & Hd%qok_live). congruence. }
  clear S. revert H. unfold ConsumeWithContext, on_open. rewrite Hc, Ho, Hqn, Hq. destruct (qexclusv q && _); [done|].
  rewrite Hno. cbn [existsb]. cbv zeta. rewrite Hcc, lookup_empty. cbn [alloc]. unfold dispatch. cbn [qheap set_qheap]. rewrite lookup_insert_eq.
  cbn [qmsgs with_consumers]. rewrite Hm. cbn [length dispatch_fuel]. intros [= <- <-]. split; [done|]. split; [done|]. split.
  - match goal with |- context [set_qheap (<[_ := ?q1]> _) (set_consumers (<[_ := ?x1]> _) (set_channels (<[_ := ?c1]> _) _))] =>
      exists x1, c1, q1 end.
    split; [|done]. split; try done. split; simpl; rewrite ?lookup_insert_eq; done.
  - intros qp0 cp0 x0 c0 q0 Hne [H1 H2 H3 H4 H5 H6 H7].
    assert (cp0 <> next_ptr b) as Hcp by (pose proof (inv_consumers _ _ (ok_inv _ (sound_ok _ Hb)) _ _ H4); lia).
    destruct (decide (cch x0 = ch)) as [E|Hch].
    + match goal with |- context [set_channels (<[_ := ?c1]> _) _] => exists c1 end.
      split; simpl; rewrite ?lookup_insert_ne by done; try done. rewrite E. apply lookup_insert_eq.
    + exists c0. split; simpl; rewrite ?lookup_insert_ne by done; done.
Qed.

(** A queue that is hit is bound. *)
Lemma hits_inv b kind key bds seen p :
  p ∈ hits b kind key bds seen -> p ∈ seen \/ exists bd, bd ∈ bds /\ queues b !! bqueue bd = Some p /\ hit kind bd key = true.
Proof.
  revert seen. induction bds as [|bd bds IH]; intros seen; simpl; [by left|].
  destruct (queues b !! bqueue bd) as [q|] eqn:Eq.
  - destruct (negb _ && hit kind bd key) eqn:Eh.
    + intros [Hin|(x & Hx & ?)]%IH; [|right; exists x; split; [by right|done]].
      apply elem_of_app in Hin as [?| ->%list_elem_of_singleton]; [by left|]. right. exists bd. split; [by left|].
      split; [done|]. by apply andb_true_iff in Eh as [_ ?].
    + intros [?|(x & Hx & ?)]%IH; [by left|right; exists x; split; [by right|done]].
  - intros [?|(x & Hx & ?)]%IH; [by left|right; exists x; split; [by right|done]].
Qed.

(** One queue, one name. *)
Lemma sound_name b n n' p : sound b -> queues b !! n = Some p -> queues b !! n' = Some p -> n = n'.
Proof.
  intros Hb H H'. destruct (sound_names _ Hb n p H) as (q & Hq & <-%qok_name). destruct (sound_names _ Hb n' p H') as (q' & Hq' & <-%qok_name).
  congruence.
Qed.

Lemma not_bound_target b ex e key n p :
  sound b -> ex <> "" -> exchanges b !! ex = Some e -> queues b !! n = Some p ->
  (forall bd, bd ∈ ebindings e -> bqueue bd = n -> hit (ekind e) bd key = false) -> p ∉ targets b ex key.
Proof.
  intros Hb Hne He Hn Hno. unfold targets. rewrite decide_False, He by done.
  intros [[]%elem_of_nil|(bd & Hin & Hq & Hh)]%hits_inv. rewrite Hno in Hh; [done|done|]. by eapply sound_name.
Qed.

(** Publishing, confirmed. *)
Lemma publish_routed ch ex key mandatory p b c e qp :
  channels b !! ch = Some c -> chclosed c = false -> exchanges b !! ex = Some e -> qp ∈ targets b ex key ->
  exists es g, PublishWithContext ch ex key mandatory PolicyAck p b = (emit ch es (route ex key p (upd_channel ch g b)).1, None) /\
    (forall c, aside c (g c)) /\ es = (if chconfirm c then [EConfirm (chpublishSeq c + 1) true] else []).
Proof.
  intros Hc Ho He Hin. unfold PublishWithContext, on_open. rewrite Hc, Ho.
  assert (forall b', exchanges b' = exchanges b -> queues b' = queues b -> exists b1, route ex key p b' = (b1, true)) as Hr.
  { intros b' E1 E2. unfold route. rewrite (targets_ext b b') by done. destruct (targets b ex key); [by apply elem_of_nil in Hin|].
    by eexists. }
  destruct (chconfirm c).
  - eexists _, bump_seq. split; [|by split; [apply bump_aside|]].
    cbn [exchanges upd_channel set_channels]. rewrite He. destruct (Hr (upd_channel ch bump_seq b)) as [b1 ->]; done.
  - eexists _, id. split; [|by split; [|]]. rewrite He.
    assert (upd_channel ch id b = b) as -> by (unfold upd_channel; rewrite alter_id by done; by destruct b).
    destruct (Hr b) as [b1 ->]; done.
Qed.

(** ** A client and a service on one broker *)

(** The dispatcher's reply queue, its consumer and its publishing channel; the
    service's queue, its consumer and its channel. *)
Record endpoints := {
  reply_queue : string; reply_pub : nat; reply_cons : nat; serve_queue : string; serve_ch : nat; serve_cons : nat
}.

(** How the exchanges lead to the two queues. *)
Record routes (cfg : Config) (E : endpoints) (rqp sqp : nat) (b : Broker) : Prop := {
  ro_reply : queues b !! reply_queue E = Some rqp;
  ro_serve : queues b !! serve_queue E = Some sqp;
  ro_bus : BusExchange cfg <> "" /\ exists e, exchanges b !! BusExchange cfg = Some e /\ ekind e = "topic" /\
    {| bqueue := serve_queue E; bkey := "REQUEST." +:+ serve_queue E +:+ ".*" |} ∈ ebindings e /\
    (forall bd, bd ∈ ebindings e -> bqueue bd <> reply_queue E);
  ro_callbacks : CallbacksExchange cfg <> "" /\ exists e, exchanges b !! CallbacksExchange cfg = Some e /\ ekind e = "direct" /\
    {| bqueue := reply_queue E; bkey := reply_queue E |} ∈ ebindings e /\
    (forall bd, bd ∈ ebindings e -> bqueue bd = serve_queue E -> bkey bd <> reply_queue E)
}.

Arguments ro_bus {_ _ _ _ _}.
Arguments ro_callbacks {_ _ _ _ _}.

Lemma routes_same cfg E rqp sqp b b' : exchanges b' = exchanges b -> queues b' = queues b -> routes cfg E rqp sqp b -> routes cfg E rqp sqp b'.
Proof. intros He Hq [H1 H2 H3 H4]. split; rewrite ?He, ?Hq; done. Qed.

Lemma routes_request cfg E rqp sqp b m :
  sound b -> routes cfg E rqp sqp b -> contains_char dot m = false ->
  let key := routingKey (serve_queue E) m in
  sqp ∈ targets b (BusExchange cfg) key /\ rqp ∉ targets b (BusExchange cfg) key.
Proof.
  intros Hb [H1 H2 (Hne & e & He & Hk & Hin & Hno) _] Hm key. split.
  - eapply bound_target; [done|done|exact Hin| |done]. rewrite Hk. unfold hit. simpl. by apply request_key_matches.
  - eapply not_bound_target; [done|done|done|exact H1|]. intros bd Hbd Eb. by destruct (Hno bd Hbd).
Qed.

Lemma routes_reply cfg E rqp sqp b :
  sound b -> routes cfg E rqp sqp b ->
  rqp ∈ targets b (CallbacksExchange cfg) (reply_queue E) /\ sqp ∉ targets b (CallbacksExchange cfg) (reply_queue E).
Proof.
  intros Hb [H1 H2 _ (Hne & e & He & Hk & Hin & Hno)]. split.
  - eapply bound_target; [done|done|exact Hin| |done]. rewrite Hk. unfold hit. simpl. by apply bool_decide_true.
  - eapply not_bound_target; [done|done|done|exact H2|]. intros bd Hbd Eb. rewrite Hk. unfold hit. simpl.
    apply bool_decide_false. by apply Hno.
Qed.

(** Both sides at work: [un] is what the service has not acknowledged, [inn] and
    [out] what was delivered to it and to the dispatcher. *)
Record wired (cfg : Config) (E : endpoints) (rqp sqp : nat) (un : gmap nat inflight) (inn out : list Delivery) (b : Broker) : Prop := {
  wi_sound : sound b;
  wi_routes : routes cfg E rqp sqp b;
  wi_pub : exists c, channels b !! reply_pub E = Some c /\ chclosed c = false;
  wi_reply : exists x c q, listening b rqp (reply_cons E) x c q /\ qmsgs q = [] /\ cout x = out;
  wi_serve : exists x c q, attends b sqp (serve_ch E) (serve_cons E) un x c q /\ cout x = inn
}.

Arguments wi_sound {_ _ _ _ _ _ _ _}.
Arguments wi_routes {_ _ _ _ _ _ _ _}.
Arguments wi_pub {_ _ _ _ _ _ _ _}.
Arguments wi_serve {_ _ _ _ _ _ _ _}.

Lemma open_aside b ch g k c :
  (forall c, aside c (g c)) -> channels b !! k = Some c -> chclosed c = false ->
  exists c', channels (upd_channel ch g b) !! k = Some c' /\ chclosed c' = false.
Proof.
  intros Hg Hc Ho. simpl. destruct (decide (k = ch)) as [->|Hne].
  - rewrite lookup_alter_eq, Hc. eexists. split; [done|]. by rewrite (as_closed (Hg c)).
  - rewrite lookup_alter_ne by done. eauto.
Qed.

Lemma sound_aside b ch g : sound b -> (forall c, aside c (g c)) -> sound (upd_channel ch g b).
Proof.
  intros [Hb HL Hu] Hg. assert (steps b (upd_channel ch g b) [] []) as S.
  { apply upd_channel_steps; [done|]. intros c. destruct (Hg c) as [A1 A2 A3 A4 A5]. split.
    - split; [done|done|done|lia|by intros; rewrite A3|]. unfold tagged. by rewrite A3, A4.
    - unfold channel_entries. simpl. rewrite A1, A3. done. }
  split; [apply S|by apply (live_same b)|by eapply steps_unique].
Qed.

(** A change of a channel's publishing side changes nothing else. *)
Lemma wired_aside cfg E rqp sqp un inn out b ch g :
  (forall c, aside c (g c)) -> wired cfg E rqp sqp un inn out b -> wired cfg E rqp sqp un inn out (upd_channel ch g b).
Proof.
  intros Hg [Hs Hro (cp & Hcp & Ho) (xr & cr & qr & [HL Ha] & Hm & Hout) (xs & cs & qs & HA & Hinn)].
  split; [by apply sound_aside|by apply (routes_same cfg E rqp sqp b)|..].
  - by eapply open_aside.
  - destruct (sole_aside b ch g _ _ _ _ _ Hg HL) as (c' & HL' & _). by exists xr, c', qr.
  - destruct (attends_aside b ch g _ _ _ _ _ _ _ Hg HA) as [c' HA']. by exists xs, c', qs.
Qed.

Lemma emit_aside ch es b : exists g, emit ch es b = upd_channel ch g b /\ forall c, aside c (g c).
Proof. eexists. split; [reflexivity|]. by split. Qed.

Lemma sound_route ex key p b e : exchanges b !! ex = Some e -> sound b -> sound (route ex key p b).1.
Proof. intros He Hb. pose proof (sound_run_op (OInject ex key p) b Hb) as S. simpl in S. unfold Publish in S. by rewrite He in S. Qed.

(** Routing keeps what is static. *)
Lemma wired_frame cfg E rqp sqp un inn out b ex key p e :
  wired cfg E rqp sqp un inn out b -> exchanges b !! ex = Some e ->
  let b' := (route ex key p b).1 in
  sound b' /\ routes cfg E rqp sqp b' /\ exists c, channels b' !! reply_pub E = Some c /\ chclosed c = false.
Proof.
  intros [Hs Hro (cp & Hcp & Ho) _ _] He b'. pose proof (quiet_route ex key p b) as Q. split; [by eapply sound_route|].
  split; [by apply (routes_same cfg E rqp sqp b); [apply Q|apply Q|]|].
  destruct (quiet_channel _ _ _ _ Q Hcp) as (c' & Hc' & S). exists c'. split; [done|]. by rewrite (sc_closed _ _ S).
Qed.

(** A request reaches the service and only it. *)
Lemma wired_request cfg E rqp sqp inn out b m p :
  wired cfg E rqp sqp ∅ inn out b -> contains_char dot m = false ->
  let key := routingKey (serve_queue E) m in
  exists b' tag ptr, let msg := message_of ptr (BusExchange cfg) key p in
    PublishWithContext (reply_pub E) (BusExchange cfg) key true PolicyAck p b = (b', None) /\
    wired cfg E rqp sqp {[tag := {| ifmsg := msg; ifq := sqp; ifcons := serve_cons E |}]} (inn ++ [delivery_of tag msg]) out b'.
Proof.
  intros HW Hm key. destruct (routes_request cfg E rqp sqp b m (wi_sound HW) (wi_routes HW) Hm) as [Hin _].
  destruct (wi_pub HW) as (c & Hc & Ho). destruct (ro_bus (wi_routes HW)) as (_ & e & He & _).
  destruct (publish_routed (reply_pub E) (BusExchange cfg) key true p b c e sqp Hc Ho He Hin) as (es & g & -> & Hg & _).
  apply (wired_aside _ _ _ _ _ _ _ _ (reply_pub E) g Hg) in HW. set (b1 := upd_channel _ g b) in *.
  destruct (routes_request cfg E rqp sqp b1 m (wi_sound HW) (wi_routes HW) Hm) as [Hin1 Hno1].
  destruct (wired_frame _ _ _ _ _ _ _ _ (BusExchange cfg) key p e HW He) as (Hs' & Hro' & Hpub').
  destruct HW as [Hs Hro _ (xr & cr & qr & [HL Ha] & Hmr & Hout) (xs & cs & qs & HA & Hinn)].
  assert (inv [] b1) as HI by apply Hs.
  destruct (route_attends (BusExchange cfg) key p b1 _ _ _ _ _ _ HI Hin1 HA) as (tag & ptr & cs' & qs' & HA').
  destruct (route_sole (BusExchange cfg) key p b1 _ _ _ _ _ HI HL Hmr (auto_capacity _ Ha)) as (xr' & cr' & qr' & ds & HL' & Ha' & Hmr' & _ & _ & Hno).
  destruct (Hno Hno1) as [_ ->].
  destruct (emit_aside (reply_pub E) es (route (BusExchange cfg) key p b1).1) as (g' & -> & Hg').
  eexists _, tag, ptr. split; [reflexivity|]. apply wired_aside; [done|]. split; [done|done|done|..].
  - by exists xr, cr', qr'.
  - eexists _, cs', qs'. split; [exact HA'|]. simpl. by rewrite Hinn.
Qed.

(** A reply reaches the dispatcher and only it. *)
Lemma wired_replied cfg E rqp sqp un inn out b p :
  wired cfg E rqp sqp un inn out b ->
  exists b' tag ptr, let msg := message_of ptr (CallbacksExchange cfg) (reply_queue E) p in
    PublishWithContext (serve_ch E) (CallbacksExchange cfg) (reply_queue E) false PolicyAck p b = (b', None) /\
    wired cfg E rqp sqp un inn (out ++ [delivery_of tag msg]) b'.
Proof.
  intros HW. destruct (routes_reply cfg E rqp sqp b (wi_sound HW) (wi_routes HW)) as [Hin _].
  destruct (wi_serve HW) as (x0 & c0 & q0 & HA0 & _).
  destruct (ro_callbacks (wi_routes HW)) as (_ & e & He & _).
  destruct (at_sole HA0) as [_ _ _ _ _ Hc Ho]. rewrite (at_channel HA0) in Hc.
  destruct (publish_routed (serve_ch E) (CallbacksExchange cfg) (reply_queue E) false p b c0 e rqp Hc Ho He Hin) as (es & g & -> & Hg & _).
  apply (wired_aside _ _ _ _ _ _ _ _ (serve_ch E) g Hg) in HW. set (b1 := upd_channel _ g b) in *.
  destruct (routes_reply cfg E rqp sqp b1 (wi_sound HW) (wi_routes HW)) as [Hin1 Hno1].
  destruct (wired_frame _ _ _ _ _ _ _ _ (CallbacksExchange cfg) (reply_queue E) p e HW He) as (Hs' & Hro' & Hpub').
  destruct HW as [Hs Hro _ (xr & cr & qr & [HL Ha] & Hmr & Hout) (xs & cs & qs & HA & Hinn)].
  assert (inv [] b1) as HI by apply Hs.
  pose proof (route_elsewhere (CallbacksExchange cfg) (reply_queue E) p b1 _ _ _ _ _ _ _ HI Hno1 HA) as HA'.
  destruct (route_sole (CallbacksExchange cfg) (reply_queue E) p b1 _ _ _ _ _ HI HL Hmr (auto_capacity _ Ha))
    as (xr' & cr' & qr' & ds & HL' & Ha' & Hmr' & Ho' & Hy & _).
  destruct (Hy Hin1) as (tag & ptr & ->).
  destruct (emit_aside (serve_ch E) es (route (CallbacksExchange cfg) (reply_queue E) p b1).1) as (g' & -> & Hg').
  eexists _, tag, ptr. split; [reflexivity|]. apply wired_aside; [done|]. split; [done|done|done|..].
  - exists xr', cr', qr'. split; [split; [done|congruence]|]. split; [done|]. by rewrite Ho', Hout.
  - by exists xs, cs, qs.
Qed.

(** Acknowledging a request leaves the reply side alone. *)
Lemma wired_acked cfg E rqp sqp tag i inn out b :
  wired cfg E rqp sqp {[tag := i]} inn out b -> ifq i = sqp -> ifcons i = serve_cons E ->
  exists b', Broker.settle (serve_ch E) SAck tag b = (b', None) /\ wired cfg E rqp sqp ∅ inn out b'.
Proof.
  intros [Hs Hro (c & Hc & Ho) (xr & cr & qr & [HL Ha] & Hmr & Hout) (xs & cs & qs & HA & Hinn)] Hi1 Hi2.
  assert (rqp <> sqp) as Hqp.
  { intros ->. destruct Hro as [H1 H2 (_ & e & _ & _ & Hb & Hno) _]. apply (Hno _ Hb). simpl. by apply (sound_name b _ _ sqp Hs). }
  destruct (settle_attends b sqp (serve_ch E) (serve_cons E) tag i xs cs qs Hi1 Hi2 HA) as (b' & xs' & cs' & Hset & HA' & Hout' & Hb').
  pose proof (sound_run_op (OSettle (serve_ch E) SAck tag false (option_list (channels b !! serve_ch E ≫= fun c => ifq <$> chunacked c !! tag))) b Hs) as Hs'.
  cbn [run_op] in Hs'. rewrite <-settle_tags_one, Hset in Hs'. cbn [fst] in Hs'.
  exists b'. split; [done|]. split; [done|by apply (routes_same cfg E rqp sqp b); [rewrite Hb'..|]|..].
  - rewrite Hb'. simpl. destruct (decide (reply_pub E = serve_ch E)) as [E1|Hne].
    + rewrite E1, lookup_alter_eq, <-E1, Hc. by eexists.
    + rewrite lookup_alter_ne by done. by exists c.
  - assert (reply_cons E <> serve_cons E) as Hcp.
    { intros Ec. pose proof (so_cons _ _ _ _ _ _ HL) as G1. pose proof (so_cons _ _ _ _ _ _ (at_sole HA)) as G2.
      pose proof (so_queue _ _ _ _ _ _ HL). pose proof (so_queue _ _ _ _ _ _ (at_sole HA)). rewrite Ec in G1. congruence. }
    destruct HL as [L1 L2 L3 L4 L5 L6 L7].
    assert (exists cr', channels b' !! cch xr = Some cr' /\ chclosed cr' = false) as (cr' & Hcr & Hcl).
    { rewrite Hb'. simpl. destruct (decide (cch xr = serve_ch E)) as [E1|Hne].
      - rewrite E1, lookup_alter_eq, <-E1, L6. by eexists.
      - rewrite lookup_alter_ne by done. by exists cr. }
    exists xr, cr', qr. split; [|done]. split; [|done]. split; try done; rewrite Hb'; simpl; [done|].
    by rewrite lookup_alter_ne.
  - exists xs', cs', qs. split; [done|]. congruence.
Qed.

(** ** Starting *)

Section Start.
Context {P : Protowire} {A : GoArch}.

Lemma request_named cfg s : named_retry (requestSpec cfg s).
Proof.
  intros rs. simpl. destruct (_ && _); [|done]. intros [= <-]. simpl. split; by apply app_ne_nil.
Qed.

(** A dispatcher restored and then a service started, whose queue holds nothing
    and is nobody's, and neither of whose queues anybody bound to the other's
    exchange. *)
Lemma wired_start cfg s tag cconn sconn b b1 b2 ch q pub cp sch sq scp :
  sound b -> reply_topology cconn cfg b = (b1, inl (ch, q, pub, cp)) ->
  (forall p x, queues b1 !! name s = Some p -> qheap b1 !! p = Some x -> qmsgs x = [] /\ qconsumers x = []) ->
  consumer_start sconn (requestSpec cfg s) tag b1 = (b2, inl (sch, sq, scp)) ->
  name s <> "" -> 0 <= maxConcurrent (opts s) ->
  (forall e bd, exchanges b2 !! BusExchange cfg = Some e -> bd ∈ ebindings e -> bqueue bd <> q) ->
  (forall e bd, exchanges b2 !! CallbacksExchange cfg = Some e -> bd ∈ ebindings e -> bqueue bd = name s -> bkey bd <> q) ->
  exists rqp sqp out,
    wired cfg {| reply_queue := q; reply_pub := pub; reply_cons := cp; serve_queue := name s; serve_ch := sch; serve_cons := scp |}
      rqp sqp ∅ [] out b2.
Proof.
  intros Hb H1 Hidle H2 Hname Hconc Hiso1 Hiso2.
  destruct (reply_topology_ok _ _ _ _ _ _ _ _ H1 Hb) as (S1 & Hne & _ & (e & He & Hk & Hbd) & (cpub & Hpub & Hopub) & rqp & xr & cr & qr & Hrq & [HL Ha] & Hm).
  unfold consumer_start in H2. apply D_bind_ok in H2 as (bt & [ch' q'] & Ht & H2). apply D_bind_ok in H2 as (bc & cp' & Hc & H2).
  injection H2 as -> -> -> ->.
  destruct (consumer_topology_ok _ _ _ _ _ _ Ht S1 Hname Hconc (request_named cfg s)) as (G & -> & [sqp Hsq] & (csv & Hcsv & C1 & C2 & C3 & C4) & es & Hes & Hks & Hbds).
  change (squeue (tspec (requestSpec cfg s))) with (name s) in *. change (texchange (requestSpec cfg s)) with (BusExchange cfg) in *.
  destruct (Hbds ("REQUEST." +:+ name s +:+ ".*")) as [Hbus Hin]; [by left|].
  destruct (inv_named _ _ (ok_inv _ (sound_ok _ (gr_sound _ _ G))) _ _ Hsq) as [qs Hqs].
  assert (qmsgs qs = [] /\ qconsumers qs = []) as [Hqm Hqc].
  { destruct (gr_new _ _ G _ _ _ Hsq Hqs) as [Hold|?]; [|done]. destruct (inv_named _ _ (ok_inv _ (sound_ok _ S1)) _ _ Hold) as [q0 Hq0].
    pose proof (gr_heap _ _ G _ _ Hq0). assert (q0 = qs) as -> by congruence. by eapply Hidle. }
  unfold start_consuming in Hc. destruct (ConsumeWithContext sch (name s) tag false _ bt) as [bx [k|k]] eqn:Ec; [|done]. injection Hc as <- <-.
  destruct (Consume_attends _ _ _ _ _ _ _ _ _ _ Ec (gr_sound _ _ G) Hsq Hqs Hqm Hqc Hcsv C1 C2 C3 C4) as (S2 & E2 & Q2 & (xs & cs & qs' & HA & Hinn) & Hframe).
  destruct (gr_exchange _ _ G _ _ He) as (e' & He' & Hk' & Hsub). pose proof (gr_queue _ _ G _ _ Hrq) as Hrq'.
  assert (exists c', sole bt rqp cp xr c' qr) as [crt HLt].
  { destruct HL as [L1 L2 L3 L4 L5 L6 L7]. destruct (gr_channel _ _ G _ _ L6) as (c' & Hc' & Hcalm). exists c'. split; try done.
    - by apply (gr_heap _ _ G).
    - by rewrite (gr_consumers _ _ G).
    - by rewrite (ca_closed _ _ Hcalm). }
  destruct (Hframe rqp cp xr crt qr) as [cr2 HL2]; [|done|].
  { intros ->. pose proof (so_heap _ _ _ _ _ _ HLt). pose proof (so_alone _ _ _ _ _ _ HLt). congruence. }
  exists rqp, sqp, (cout xr). split; simpl.
  - done.
  - split; simpl; rewrite ?E2, ?Q2; try done.
    + split; [done|]. exists es. split_and!; try done. intros bd Hbd'. eapply Hiso1; [by rewrite E2|done].
    + split; [done|]. exists e'. split_and!; [done|congruence|by apply Hsub|]. intros bd Hbd'. eapply Hiso2; [by rewrite E2|done].
  - destruct (gr_channel _ _ G _ _ Hpub) as (c' & Hc' & Hcalm). destruct (Consume_open _ _ _ _ _ _ _ _ _ _ Ec Hc') as (c2 & Hc2 & Ho2).
    exists c2. split; [done|]. rewrite Ho2, (ca_closed _ _ Hcalm). done.
  - by exists xr, cr2, qr.
  - by exists xs, cs, qs'.
Qed.
End Start.

(** ** A call *)

(** What a consumer does for a delivery, done on the broker: it confirms what is
    published and takes the settlements. *)
Definition settle_kind_of (how : settlement) : settle_kind :=
  match how with Consumer.Ack => SAck | Requeue => SRequeue | Consumer.Reject => SDiscard end.

Definition perform (ch tag : nat) (b : Broker) (a : action) : Broker :=
  match a with
  | Consumer.Publish ex key mandatory m _ => (PublishWithContext ch ex key mandatory PolicyAck m b).1
  | Settle how _ => (Broker.settle ch (settle_kind_of how) tag b).1
  end.

Definition granting (now : Z) : oracle := {| publish_answer := fun _ => None; settle_answer := fun _ => None; now_millis := now |}.

(** What a consumer was handed, and what of it is new. *)
Definition inbox (b : Broker) (cp : nat) : list Delivery := match consumers b !! cp with Some x => cout x | None => [] end.

Definition delivered (b b' : Broker) (cp : nat) : list Delivery := drop (length (inbox b cp)) (inbox b' cp).

(** The request [call] publishes, the reply queue filled in. *)
Definition request_message (o : callOptions) (uuid replyTo : string) (body : bytes) : Publishing :=
  let p := call_message o uuid body in {|
  PHeaders := PHeaders p; PContentType := PContentType p; PContentEncoding := PContentEncoding p; PDeliveryMode := PDeliveryMode p;
  PPriority := PPriority p; PCorrelationId := PCorrelationId p; PReplyTo := replyTo; PMessageId := PMessageId p;
  PTimestamp := PTimestamp p; PType := PType p; PAppId := PAppId p; PBody := PBody p |}.

(** The table of calls: a call is entered, replies come in, the caller takes its
    outcome once there is one. *)
Definition enter_call (uuid key : string) (d : dispatcher) : dispatcher :=
  let c := {| cid := uuid; ckey := key; cnoReply := false; cphase_of := CChannel |} in
  registered (length (callers d)) c
    {| callers := callers d ++ [c]; calls := calls d; results := results d; Dispatcher.next_ptr := Dispatcher.next_ptr d;
       replies := replies d; Dispatcher.arrived := Dispatcher.arrived d |}.

Definition accept (d : dispatcher) (dl : Delivery) : dispatcher := Dispatcher.route (CorrelationId dl) (Body dl) d.

Definition await (k p : nat) (d : dispatcher) : dispatcher * option callResult :=
  match results d !! p with
  | None => (set_caller k (CWaiting p) d, None)
  | Some r =>
      (set_caller k (CDone (Some r)) (set_caller k (CWaiting p)
         {| callers := callers d; calls := calls d; results := results d; Dispatcher.next_ptr := Dispatcher.next_ptr d;
            replies := replies d; Dispatcher.arrived := {[p]} ∪ Dispatcher.arrived d |}), Some r)
  end.

Section Calls.
Context {P : Protowire} {A : GoArch}.
Context (cfg : Config) (s : Service) (H : handlers) (E : endpoints) (now : Z).

(** A delivery served: handled, then settled. *)
Definition serve (b : Broker) (d : Delivery) : Broker :=
  let ev := {| exit_of := Consumer.Returned (snd (handle s H d)); fired := CaseDone |} in
  fold_left (perform (serve_ch E) (Z.to_nat (DeliveryTag d)))
    (fst (process (granting now) (tspec (requestSpec cfg s)) d [] ev None [])) b.

(** [call]: the request is published, the service serves what it is delivered,
    and the dispatcher takes what the broker delivers to it. *)
Definition call (o : callOptions) (uuid key : string) (body : bytes) (b : Broker) (d : dispatcher)
    : Broker * dispatcher * option callResult :=
  let p := request_message o uuid (reply_queue E) body in
  let b1 := (PublishWithContext (reply_pub E) (BusExchange cfg) key true PolicyAck p b).1 in
  let b2 := fold_left serve (delivered b b1 (serve_cons E)) b1 in
  let '(d', r) := await (length (callers d)) (Dispatcher.next_ptr d)
                    (fold_left accept (delivered b b2 (reply_cons E)) (enter_call uuid key d)) in
  (b2, d', r).

(** [Client.Invoke], of a call that waits for its reply; [None] is a call that is
    still waiting. *)
Definition Invoke (c : Client) (wire_text : wire_error -> string) (unmarshal : bytes -> option err) (m : string) (data : bytes + err)
    (o : callOptions) (uuid : string) (b : Broker) (d : dispatcher) : Broker * dispatcher * option (bytes + err) :=
  match envelope c m data (actor o) with
  | inr e => (b, d, Some (inr e))
  | inl body =>
      match validate_call o with
      | Some e => (b, d, Some (inr e))
      | None =>
          let '(b', d', r) := call o uuid (routingKey (runtime c) m) body b d in
          (b', d', (fun r => match r with
                             | inl reply => decodeReply wire_text unmarshal reply (ccontract c +:+ "." +:+ m)
                             | inr e => inr e
                             end) <$> r)
      end
  end.

(** *** The table of calls *)

Lemma alter_last {X} (l : list X) (x : X) f : alter f (length l) (l ++ [x]) = l ++ [f x].
Proof. rewrite alter_app_r_alt by lia. by rewrite Nat.sub_diag. Qed.

(** A call whose reply comes in under its id returns it. *)
Lemma call_steps uuid key d dl :
  cinv d -> (forall k c, callers d !! k = Some c -> cid c <> uuid) -> CorrelationId dl = uuid ->
  exists d', await (length (callers d)) (Dispatcher.next_ptr d) (accept (enter_call uuid key d) dl) = (d', Some (inl (Body dl))) /\
    rtc cstep d d' /\
    callers d' = callers d ++ [{| cid := uuid; ckey := key; cnoReply := false; cphase_of := CDone (Some (inl (Body dl))) |}].
Proof.
  intros HI Hfresh <-.
  assert (results d !! Dispatcher.next_ptr d = None) as Hnone.
  { destruct (results d !! Dispatcher.next_ptr d) eqn:Er; [|done].
    pose proof (cinv_fresh d HI (Dispatcher.next_ptr d) (or_introl (mk_is_Some _ _ Er))). lia. }
  assert (results (accept (enter_call (CorrelationId dl) key d) dl) !! Dispatcher.next_ptr d = Some (inl (Body dl))) as Hres.
  { unfold accept, Dispatcher.route, enter_call, registered. simpl. rewrite lookup_insert_eq. simpl.
    by rewrite resolve_lookup, Hnone, decide_True. }
  unfold await. rewrite Hres. eexists. split; [reflexivity|]. split.
  - eapply rtc_l; [by apply (call_begin d (CorrelationId dl) key false)|].
    set (c := {| cid := CorrelationId dl; ckey := key; cnoReply := false; cphase_of := CChannel |}).
    eapply rtc_l; [apply (channel_ok _ (length (callers d)) c); [simpl; by apply list_lookup_middle|done]|].
    eapply rtc_l; [apply (reply_arrives _ (CorrelationId dl) (Body dl))|].
    eapply rtc_l; [by eapply outcome_sent|].
    assert (callers (accept (enter_call (CorrelationId dl) key d) dl) !! length (callers d)
      = Some (with_cphase (CPublishing (Some (Dispatcher.next_ptr d))) c)) as Hk.
    { unfold accept, Dispatcher.route, enter_call, registered. simpl. rewrite lookup_insert_eq. simpl.
      by rewrite list_lookup_alter_eq, list_lookup_middle. }
    eapply rtc_l; [eapply (publish_ok _ (length (callers d)) _ (Some (Dispatcher.next_ptr d))); [exact Hk|done]|].
    eapply rtc_l; [|apply rtc_refl]. eapply (wait_result _ (length (callers d)) _ (Dispatcher.next_ptr d)).
    + cbn [set_caller callers]. rewrite list_lookup_alter_eq. exact (f_equal (fmap _) Hk).
    + done.
    + exact Hres.
    + simpl. set_solver.
  - unfold accept, Dispatcher.route, enter_call, registered. simpl. rewrite lookup_insert_eq. simpl. by rewrite !alter_last.
Qed.
End Calls.

(** *** Serving *)

Section Serving.
Context {P : Protowire} {A : GoArch}.
Context (cfg : Config) (s : Service) (H : handlers) (E : endpoints) (now : Z).

(** An answer for the caller is published and the delivery acknowledged, in the
    order of the acknowledgement mode. *)
Lemma process_prompt (sp : consumerSpec) (d : Delivery) (res : handlerResult) (body : bytes) :
  herr res = None -> reply res = Some body -> ReplyTo d <> "" ->
  exists m, PBody m = body /\ PCorrelationId m = CorrelationId d /\
    let published := Consumer.Publish (callbacksExchange sp) (ReplyTo d) false m None in
    fst (process (granting now) sp d [] {| exit_of := Consumer.Returned res; fired := CaseDone |} None [])
    = if lateAck sp then [published; Settle Consumer.Ack None] else [Settle Consumer.Ack None; published].
Proof.
  intros He Hr Hto. unfold process, cause_of, run, timed_out. cbn [fired exit_of]. rewrite andb_false_r. cbn [exit_result].
  eexists. split; [|split]; cycle 2.
  - destruct (lateAck sp) eqn:El; unfold mbind, M_bind, mret, M_ret, settle_as; cbn; unfold Consumer.settle; rewrite He, Hr;
      rewrite decide_False by done; run_trace; rewrite El; reflexivity.
  - done.
  - done.
Qed.

Lemma serve_wired rqp sqp tag msg inn out b body :
  let d := delivery_of tag msg in
  wired cfg E rqp sqp {[tag := {| ifmsg := msg; ifq := sqp; ifcons := serve_cons E |}]} inn out b ->
  ReplyTo d = reply_queue E -> reply_queue E <> "" -> herr (snd (handle s H d)) = None -> reply (snd (handle s H d)) = Some body ->
  exists rd, wired cfg E rqp sqp ∅ inn (out ++ [rd]) (serve cfg s H E now b d) /\ CorrelationId rd = CorrelationId d /\ Body rd = body.
Proof.
  intros d HW Hto Hne Herr Hrep. unfold serve.
  destruct (process_prompt (tspec (requestSpec cfg s)) d (snd (handle s H d)) body) as (m & Hb & Hc & ->); [done|done|congruence|].
  change (callbacksExchange (tspec (requestSpec cfg s))) with (CallbacksExchange cfg). rewrite Hto.
  assert (Z.to_nat (DeliveryTag d) = tag) as -> by (simpl; lia). destruct (lateAck _); cbn [fold_left perform settle_kind_of].
  - destruct (wired_replied _ _ _ _ _ _ _ _ m HW) as (b1 & t & p & -> & HW1). cbn [fst].
    destruct (wired_acked _ _ _ _ _ _ _ _ _ HW1) as (b2 & -> & HW2); [done|done|]. eexists. split; [exact HW2|done].
  - destruct (wired_acked _ _ _ _ _ _ _ _ _ HW) as (b1 & -> & HW1); [done|done|]. cbn [fst].
    destruct (wired_replied _ _ _ _ _ _ _ _ m HW1) as (b2 & t & p & -> & HW2). eexists. split; [exact HW2|done].
Qed.

Lemma wired_inboxes rqp sqp un inn out b :
  wired cfg E rqp sqp un inn out b -> inbox b (serve_cons E) = inn /\ inbox b (reply_cons E) = out.
Proof.
  intros [_ _ _ (xr & cr & qr & [HL _] & _ & <-) (xs & cs & qs & HA & <-)]. unfold inbox.
  by rewrite (so_cons _ _ _ _ _ _ HL), (so_cons _ _ _ _ _ _ (at_sole HA)).
Qed.

Lemma delivered_new b b' cp (l : list Delivery) d : inbox b cp = l -> inbox b' cp = l ++ [d] -> delivered b b' cp = [d].
Proof. intros H1 H2. unfold delivered. by rewrite H1, H2, drop_app_length. Qed.

Lemma call_wired rqp sqp inn out b d o uuid m body rbody :
  let key := routingKey (serve_queue E) m in
  let p := request_message o uuid (reply_queue E) body in
  wired cfg E rqp sqp ∅ inn out b -> reply_queue E <> "" -> contains_char dot m = false ->
  cinv d -> (forall k c, callers d !! k = Some c -> cid c <> uuid) ->
  (forall tag ptr, let r := snd (handle s H (delivery_of tag (message_of ptr (BusExchange cfg) key p))) in
     herr r = None /\ reply r = Some rbody) ->
  exists b' d' inn' out', call cfg s H E now o uuid key body b d = (b', d', Some (inl rbody)) /\
    wired cfg E rqp sqp ∅ inn' out' b' /\ rtc cstep d d' /\
    callers d' = callers d ++ [{| cid := uuid; ckey := key; cnoReply := false; cphase_of := CDone (Some (inl rbody)) |}].
Proof.
  intros key p HW Hne Hdot HI Hfresh Hans. unfold call.
  destruct (wired_request cfg E rqp sqp inn out b m p HW Hdot) as (b1 & tag & ptr & Hpub & HW1). fold key in Hpub, HW1.
  fold p. rewrite Hpub. cbn [fst]. set (dl := delivery_of tag (message_of ptr (BusExchange cfg) key p)) in *.
  destruct (wired_inboxes _ _ _ _ _ _ HW) as [I1 I2]. destruct (wired_inboxes _ _ _ _ _ _ HW1) as [I3 _].
  rewrite (delivered_new b b1 (serve_cons E) inn dl I1 I3). cbn [fold_left].
  destruct (Hans tag ptr) as [Herr Hrep].
  destruct (serve_wired rqp sqp tag _ _ _ b1 rbody HW1) as (rd & HW2 & Hcid & Hbody); [done|done|done|done|]. fold dl in HW2, Hcid.
  destruct (wired_inboxes _ _ _ _ _ _ HW2) as [_ I4]. rewrite (delivered_new b _ (reply_cons E) out rd I2 I4). cbn [fold_left].
  destruct (call_steps uuid key d rd HI Hfresh) as (d' & -> & Hr & Hcl); [by rewrite Hcid|]. rewrite Hbody in *.
  by eexists _, d', _, _.
Qed.
End Serving.

(** ** Calls, one after the other *)

(** A call to make: its method, request, options and correlation id. *)
Record rpc := { rmethod : string; rdata : bytes; ropts : callOptions; ruuid : string }.

Section Sessions.
Context {P : Protowire} {A : GoArch}.
Context (cfg : Config) (s : Service) (H : handlers) (E : endpoints) (now : Z).
Context (c : Client) (wire_text : wire_error -> string) (unmarshal : bytes -> option err).

Fixpoint invoke_all (l : list rpc) (b : Broker) (d : dispatcher) : Broker * dispatcher * list (option (bytes + err)) :=
  match l with
  | [] => (b, d, [])
  | r :: l' =>
      let '(b1, d1, x) := Invoke cfg s H E now c wire_text unmarshal (rmethod r) (inl (rdata r)) (ropts r) (ruuid r) b d in
      let '(b2, d2, xs) := invoke_all l' b1 d1 in
      (b2, d2, x :: xs)
  end.

(** What the handler is told of a call, and what it answers. *)
Definition qualified (r : rpc) : string := ccontract c +:+ "." +:+ rmethod r.

Definition info_of (r : rpc) : CallInfo := {|
  CMethod := qualified r; CActor := actor (ropts r); CCorrelationID := ruuid r; CMessageID := default "" (messageID (ropts r));
  CRoutingKey := routingKey (runtime c) (rmethod r); CRedelivered := false; CAttempt := 0; CHeaders := ∅ |}.

Definition answer_of (r : rpc) : unary_answer := on_unary H (rmethod r) (info_of r) (rdata r).

(** A call of a method of the contract, within what an envelope holds, that the
    handler answers at once. *)
Record proper (desc : ServiceDesc) (r : rpc) : Prop := {
  pr_method : rmethod r ∈ Methods desc;
  pr_named : rmethod r <> "";
  pr_segment : contains_char dot (rmethod r) = false;
  pr_options : validate_call (ropts r) = None;
  pr_request : request_ok {| ReqMethod := qualified r; Actor := actor (ropts r); ReqData := rdata r |} = true;
  pr_prompt : prompt s unmarshal (qualified r) (answer_of r)
}.
End Sessions.

Section RpcProps.
Context {P : Protowire} {A : GoArch} {L : ProtowireLaws P}.
Context (cfg : Config) (s : Service) (H : handlers) (E : endpoints) (now : Z).
Context (wire_text : wire_error -> string) (unmarshal : bytes -> option err).
Context (find : string -> found) (o : serviceOptions) (impl : option err) (desc : ServiceDesc) (x : bool).
Let c := NewClient (ServiceName desc) (instance o).
Context (Hreg : Register find o impl desc x = inl s) (Hfull : fullName (scontract s) = ServiceName desc) (Hsn : ServiceName desc <> "").

Lemma Invoke_wired rqp sqp inn out b d r :
  wired cfg E rqp sqp ∅ inn out b -> reply_queue E <> "" -> serve_queue E = name s ->
  cinv d -> (forall k a, callers d !! k = Some a -> cid a <> ruuid r) -> proper s H c unmarshal desc r ->
  exists b' d' inn' out' a,
    Invoke cfg s H E now c wire_text unmarshal (rmethod r) (inl (rdata r)) (ropts r) (ruuid r) b d
    = (b', d', Some (caller_sees x (qualified c r) (answer_of H c r))) /\
    wired cfg E rqp sqp ∅ inn' out' b' /\ rtc cstep d d' /\
    callers d' = callers d ++ [a] /\ cid a = ruuid r /\ ptr_of a = None.
Proof.
  intros HW Hne Hq HI Hfresh [H1 H2 H3 H4 H5 H6].
  destruct (Register_valid _ _ _ _ _ _ Hreg) as (Hv & _ & Hname & _). destruct (validate_bounds o Hv) as [_ Hinst].
  unfold Invoke, envelope. cbn [cliErr NewClient c]. rewrite Hinst, H4.
  set (body := AppendRequest [] _).
  assert (routingKey (runtime c) (rmethod r) = routingKey (serve_queue E) (rmethod r)) as Hk by (simpl; by rewrite Hq, Hname).
  set (p := request_message (ropts r) (ruuid r) (reply_queue E) body).
  assert (forall tag ptr,
    let res := snd (handle s H (delivery_of tag (message_of ptr (BusExchange cfg) (routingKey (serve_queue E) (rmethod r)) p))) in
    res = serveUnary s (qualified c r) (answer_of H c r) /\ herr res = None /\ exists rb, reply res = Some rb /\
      decodeReply wire_text unmarshal rb (qualified c r) = caller_sees x (qualified c r) (answer_of H c r)) as Hans.
  { intros tag ptr res. set (dl := delivery_of tag _) in res.
    destruct (unary_call find o impl desc x s H (rmethod r) (actor (ropts r)) (rdata r) dl body wire_text unmarshal) as [Hh Hp]; try done.
    { unfold envelope. cbn [cliErr NewClient]. by rewrite Hinst. }
    assert (call_info {| ReqMethod := ServiceName desc +:+ "." +:+ rmethod r; Actor := actor (ropts r); ReqData := rdata r |} dl
      = info_of c r) as Hinfo by (unfold info_of; by rewrite Hk).
    rewrite Hinfo in Hh, Hp. split; [unfold res; by rewrite Hh|]. by apply Hp. }
  destruct (Hans 0%nat 0%nat) as (Heq & Herr & rb & Hrb & Hdec). rewrite Heq in Herr, Hrb. fold c. rewrite Hk.
  destruct (call_wired cfg s H E now rqp sqp inn out b d (ropts r) (ruuid r) (rmethod r) body rb HW Hne H3 HI Hfresh)
    as (b' & d' & inn' & out' & -> & HW' & Hr & Hc).
  { intros tag ptr r0. destruct (Hans tag ptr) as [Hr0 _]. fold p in r0. fold r0 in Hr0. by rewrite Hr0. }
  eexists b', d', inn', out', _. split; [|split; [exact HW'|split; [exact Hr|split; [exact Hc|done]]]]. simpl. f_equal. f_equal. exact Hdec.
Qed.

(** What is left when every call has returned. *)
Definition at_rest (b : Broker) (d : dispatcher) : Prop :=
  QueueDepth (name s) b = 0%nat /\ (chunacked <$> channels b !! serve_ch E) = Some ∅ /\ calls d = ∅.

Lemma wired_rest rqp sqp inn out b d :
  wired cfg E rqp sqp ∅ inn out b -> serve_queue E = name s -> cinv d ->
  (forall k a, callers d !! k = Some a -> ptr_of a = None) -> at_rest b d.
Proof.
  intros HW Hq HI Hnone. destruct (wi_serve HW) as (xs & cs & qs & HA & _). destruct (at_sole HA) as [S1 _ _ _ _ S6 _].
  destruct HA as [_ Hch _ Hm _ _ _ Hu]. split; [|split].
  - unfold QueueDepth, Queue. rewrite <-Hq, (ro_serve _ _ _ _ _ (wi_routes HW)). simpl. rewrite S1. simpl. by rewrite Hm.
  - rewrite <-Hch, S6. simpl. by rewrite Hu.
  - apply map_empty. intros id. destruct (calls d !! id) as [p|] eqn:Ep; [|done].
    destruct (cinv_calls d HI id p Ep) as (k & a & Hk & _ & Hp & _). by rewrite (Hnone k a Hk) in Hp.
Qed.

Lemma invoke_all_wired rqp sqp l inn out b d :
  wired cfg E rqp sqp ∅ inn out b -> reply_queue E <> "" -> serve_queue E = name s ->
  cinv d -> (forall k a, callers d !! k = Some a -> ptr_of a = None /\ cid a ∉ ruuid <$> l) ->
  Forall (proper s H c unmarshal desc) l -> NoDup (ruuid <$> l) ->
  exists b' d', invoke_all cfg s H E now c wire_text unmarshal l b d
    = (b', d', (fun r => Some (caller_sees x (qualified c r) (answer_of H c r))) <$> l) /\ rtc cstep d d' /\ at_rest b' d'.
Proof.
  revert inn out b d. induction l as [|r l IH]; intros inn out b d HW Hne Hq HI Hids Hp Hnd; cbn [invoke_all].
  { exists b, d. split; [done|]. split; [apply rtc_refl|]. eapply wired_rest; [done|done|done|]. intros k a Hk. by apply (Hids k a). }
  apply Forall_cons in Hp as [Hp1 Hp2]. rewrite fmap_cons in Hnd, Hids. apply NoDup_cons in Hnd as [Hn1 Hn2].
  destruct (Invoke_wired rqp sqp inn out b d r HW Hne Hq HI) as (b1 & d1 & inn1 & out1 & a1 & -> & HW1 & Hr1 & Hc1 & Hi1 & Ha1).
  { intros k a Hk He. destruct (Hids k a Hk) as [_ Hx]. apply Hx. rewrite He. by left. }
  { done. }
  assert (cinv d1) as HI1 by (revert Hr1 HI; clear; induction 1; eauto using cinv_step).
  destruct (IH inn1 out1 b1 d1 HW1 Hne Hq HI1) as (b2 & d2 & -> & Hr2 & Hrest); [|done|done|].
  - intros k a. rewrite Hc1. intros [Hk|[_ Hk]]%lookup_app_Some.
    + destruct (Hids k a Hk) as [? Hx]. split; [done|]. intros Hin. apply Hx. by right.
    + apply list_lookup_singleton_Some in Hk as [_ <-]. split; [done|]. by rewrite Hi1.
  - exists b2, d2. split; [done|]. split; [by etrans|done].
Qed.
End RpcProps.


(** ** A session *)

Definition doubling : handlers := {|
  on_unary := fun _ _ data => match data with [] => UErr (EHandled "EMPTY" "nothing to add") | _ => UResp (inl (data ++ data)) end;
  on_stream := on_stream calc_handlers |}.

Definition plain_call : callOptions := {| actor := "ann"; priority := None; messageID := None; noReply := false; ctimeout := 0 |}.

Definition two_calls : list rpc :=
  [{| rmethod := "add"; rdata := [x07]; ropts := plain_call; ruuid := "c1" |};
   {| rmethod := "add"; rdata := []; ropts := plain_call; ruuid := "c2" |}].

Definition session_client : Broker := (reply_topology 0 DefaultConfig (run_ops [ODial; ODial] New)).1.
Definition session_broker : Broker := (consumer_start 1 calc_topology "tag" session_client).1.

