(* ===== verification/StreamCalls.v ===== *)
(** * StreamCalls: streaming calls in the dispatcher (dispatcher.go)

    The table of streams, as a step relation over any number of streaming
    callers, the goroutines that read replies and whoever fails the pending
    calls. A [*clientStream] is a number, its place in [heap]; a call is named by
    its correlation id. A frame is looked up under the dispatcher's lock and
    pushed after it, and the streams that [failPending] takes out of the table
    are failed one by one after it: both are in between for a while. One turn of
    a caller's loop is [loop_turn] of [Dispatcher]; the buffers and the counter
    they share are [Stream]'s. *)
From S2P Require Import Prelude GoStrings Headers Errors Stream Dispatcher Channels.

Local Open Scope Z_scope.
Import ClientStream StreamLoop.

(** ** The call *)

(** The idle timeout of a stream. *)
Definition stream_idle (configured option_ : Z) : Z := if 0 <? option_ then option_ else configured.

(** The request, before ReplyTo is filled in. *)
Definition stream_message (uuid : string) (body : bytes) : Publishing := {|
  PHeaders := ∅; PContentType := contentTypeOctetStream; PContentEncoding := ""; PDeliveryMode := Persistent;
  PPriority := 0; PCorrelationId := uuid; PReplyTo := ""; PMessageId := ""; PTimestamp := 0; PType := ""; PAppId := "";
  PBody := body |}.
Definition with_reply_to (q : string) (m : Publishing) : Publishing := {|
  PHeaders := PHeaders m; PContentType := PContentType m; PContentEncoding := PContentEncoding m;
  PDeliveryMode := PDeliveryMode m; PPriority := PPriority m; PCorrelationId := PCorrelationId m; PReplyTo := q;
  PMessageId := PMessageId m; PTimestamp := PTimestamp m; PType := PType m; PAppId := PAppId m; PBody := PBody m |}.

(** What a released stream's caller does: another attempt, or nothing. *)
Inductive after := Again | Over.

(** Where a caller is: getting a channel; its stream registered, publishing;
    ranging over the chunks; at the deferred cancel; at the two halves of
    [release]. *)
Inductive sphase :=
| SChannel | SPublishing (p : nat) (replyTo : string) | SLoop (p : nat) | SCancel (p : nat) (completed : bool)
| SUnlist (p : nat) (a : after) | SDrop (p : nat) (a : after) | SDone.

Record scaller := {
  skey : string;
  sbody : bytes;
  phase : sphase;
  got : list bytes;             (* the chunks yielded *)
  last : option err;            (* the error yielded last *)
  completed : option bool       (* once the loop has ended *)
}.

Record sdispatcher := {
  streams : gmap string nat;
  heap : list clientStream;
  bufferedBytes : Z;
  scallers : gmap string scaller;
  inflight : list (nat * Table * bytes);    (* frames looked up, to be pushed *)
  failing : list (nat * err);               (* streams taken by failPending, to be failed *)
  frames : list (string * Table * bytes);   (* the frames delivered, with their correlation id *)
  requests : list (string * Publishing);    (* the requests confirmed, with their key *)
  notices : list Publishing                 (* the cancel notices published *)
}.

Definition no_streams : sdispatcher := {|
  streams := ∅; heap := []; bufferedBytes := 0; scallers := ∅; inflight := []; failing := []; frames := []; requests := [];
  notices := [] |}.

Definition set_phase (f : sphase) (c : scaller) : scaller := {|
  skey := skey c; sbody := sbody c; phase := f; got := got c; last := last c; completed := completed c |}.
Definition ends_with (e : err) (f : sphase) (c : scaller) : scaller := {|
  skey := skey c; sbody := sbody c; phase := f; got := got c; last := Some e; completed := completed c |}.

Definition set_call (i : string) (c : scaller) (d : sdispatcher) : sdispatcher := {|
  streams := streams d; heap := heap d; bufferedBytes := bufferedBytes d; scallers := <[i := c]> (scallers d);
  inflight := inflight d; failing := failing d; frames := frames d; requests := requests d; notices := notices d |}.
Definition set_table (m : gmap string nat) (d : sdispatcher) : sdispatcher := {|
  streams := m; heap := heap d; bufferedBytes := bufferedBytes d; scallers := scallers d;
  inflight := inflight d; failing := failing d; frames := frames d; requests := requests d; notices := notices d |}.
Definition set_heap (h : list clientStream) (t : Z) (d : sdispatcher) : sdispatcher := {|
  streams := streams d; heap := h; bufferedBytes := t; scallers := scallers d;
  inflight := inflight d; failing := failing d; frames := frames d; requests := requests d; notices := notices d |}.
Definition set_queues (fl : list (nat * Table * bytes)) (fa : list (nat * err)) (fr : list (string * Table * bytes))
    (d : sdispatcher) : sdispatcher := {|
  streams := streams d; heap := heap d; bufferedBytes := bufferedBytes d; scallers := scallers d;
  inflight := fl; failing := fa; frames := fr; requests := requests d; notices := notices d |}.
Definition log_request (r : string * Publishing) (d : sdispatcher) : sdispatcher := {|
  streams := streams d; heap := heap d; bufferedBytes := bufferedBytes d; scallers := scallers d;
  inflight := inflight d; failing := failing d; frames := frames d; requests := requests d ++ [r]; notices := notices d |}.
Definition log_notice (m : Publishing) (d : sdispatcher) : sdispatcher := {|
  streams := streams d; heap := heap d; bufferedBytes := bufferedBytes d; scallers := scallers d;
  inflight := inflight d; failing := failing d; frames := frames d; requests := requests d; notices := notices d ++ [m] |}.

(** Stream [p] changes to [s], and the counter to [t]. *)
Definition put (p : nat) (s : clientStream) (t : Z) (d : sdispatcher) : sdispatcher := set_heap (<[p := s]> (heap d)) t d.

Section Calls.
Context {A : GoArch} (l : limits).

(** A fresh stream, registered under the call's id. *)
Definition register_stream (i : string) (d : sdispatcher) : sdispatcher :=
  set_table (<[i := length (heap d)]> (streams d)) (set_heap (heap d ++ [newStream i l]) (bufferedBytes d) d).

(** [release], first half: only the stream still registered under the id. *)
Definition unlist (i : string) (p : nat) (d : sdispatcher) : sdispatcher :=
  if decide (streams d !! i = Some p) then set_table (delete i (streams d)) d else d.

(** [failPending], on the streams: the table is taken. *)
Definition take_streams (e : err) (d : sdispatcher) : sdispatcher :=
  set_table ∅ (set_queues (inflight d) (failing d ++ map (fun x => (snd x, e)) (map_to_list (streams d))) (frames d) d).

(** [route]: a frame of a stream in the table goes to it; any other is no
    stream's. *)
Definition route_frame (i : string) (h : Table) (b : bytes) (d : sdispatcher) : sdispatcher :=
  match streams d !! i with
  | Some p => set_queues (inflight d ++ [(p, h, b)]) (failing d) (frames d ++ [(i, h, b)]) d
  | None => set_queues (inflight d) (failing d) (frames d ++ [(i, h, b)]) d
  end.

(** The caller after a turn of its loop that yielded [y] and ended with [r]. *)
Definition turned (p : nat) (y : option bytes) (r : turn) (c : scaller) : scaller := {|
  skey := skey c; sbody := sbody c; got := got c ++ option_list y;
  phase := match r with Continue => SLoop p | Stop b _ => SCancel p b end;
  last := match r with Continue => last c | Stop _ e => e end;
  completed := match r with Continue => completed c | Stop b _ => Some b end |}.

(** A body is an in-memory slice: adding its length to the counters stays in
    range. *)
Definition fits (b : bytes) : Prop := lbytes l + len b <= MaxInt64 /\ ltotal l + len b <= MaxInt64.

Inductive sstep (d : sdispatcher) : sdispatcher -> Prop :=
(* stream: the context has ended already, or the call begins *)
| stream_refused i key body e : scallers d !! i = None ->
    sstep d (set_call i {| skey := key; sbody := body; phase := SDone; got := []; last := Some e; completed := None |} d)
| stream_begin i key body : scallers d !! i = None ->
    sstep d (set_call i {| skey := key; sbody := body; phase := SChannel; got := []; last := None; completed := None |} d)
(* publishStream *)
| publish_no_channel i c e : scallers d !! i = Some c -> phase c = SChannel -> sstep d (set_call i (ends_with e SDone c) d)
| publish_register i c q : scallers d !! i = Some c -> phase c = SChannel ->
    sstep d (set_call i (set_phase (SPublishing (length (heap d)) q) c) (register_stream i d))
| publish_confirmed i c p q : scallers d !! i = Some c -> phase c = SPublishing p q ->
    sstep d (set_call i (set_phase (SLoop p) c) (log_request (skey c, with_reply_to q (stream_message i (sbody c))) d))
| publish_gone i c p q : scallers d !! i = Some c -> phase c = SPublishing p q ->
    sstep d (set_call i (set_phase (SUnlist p Again) c) d)
| publish_failed i c p q e : scallers d !! i = Some c -> phase c = SPublishing p q ->
    sstep d (set_call i (ends_with e (SUnlist p Over) c) d)
(* the loop *)
| stream_turned i c p s s' t' y r E : scallers d !! i = Some c -> phase c = SLoop p -> heap d !! p = Some s ->
    loop_turn E s (bufferedBytes d) = (s', t', y, r) ->
    sstep d (set_call i (turned p y r c) (put p s' t' d))
(* cancelStream, unless completed; it may find no channel, or fail *)
| cancel_published i c p : scallers d !! i = Some c -> phase c = SCancel p false ->
    sstep d (set_call i (set_phase (SUnlist p Over) c) (log_notice (cancel_notice i) d))
| cancel_skipped i c p b : scallers d !! i = Some c -> phase c = SCancel p b ->
    sstep d (set_call i (set_phase (SUnlist p Over) c) d)
(* release *)
| release_unlist i c p a : scallers d !! i = Some c -> phase c = SUnlist p a ->
    sstep d (set_call i (set_phase (SDrop p a) c) (unlist i p d))
| release_drop i c p a s s' t' : scallers d !! i = Some c -> phase c = SDrop p a -> heap d !! p = Some s ->
    release s (bufferedBytes d) = (s', t') ->
    sstep d (set_call i (set_phase (match a with Again => SChannel | Over => SDone end) c) (put p s' t' d))
(* replies and losses *)
| frame_routed i h b : fits b -> sstep d (route_frame i h b d)
| frame_pushed n p h b s s' t' : inflight d !! n = Some (p, h, b) -> heap d !! p = Some s ->
    push s (bufferedBytes d) h b = (s', t') ->
    sstep d (put p s' t' (set_queues (delete n (inflight d)) (failing d) (frames d) d))
| pending_taken e : sstep d (take_streams e d)
| stream_failed n p e s s' t' : failing d !! n = Some (p, e) -> heap d !! p = Some s ->
    fail s (bufferedBytes d) e = (s', t') ->
    sstep d (put p s' t' (set_queues (inflight d) (delete n (failing d)) (frames d) d)).

(** ** The table *)

Definition owned (c : scaller) : option nat :=
  match phase c with SPublishing p _ | SLoop p | SCancel p _ | SUnlist p _ | SDrop p _ => Some p | _ => None end.
(** The stream a caller expects in the table. *)
Definition listed (c : scaller) : option nat := match phase c with SDrop _ _ => None | _ => owned c end.

(** A released stream: it takes nothing more. *)
Definition dead (s : clientStream) : Prop := ended s = true /\ chunks s = [] /\ cbytes s = 0.

Record table_ok (d : sdispatcher) : Prop := {
  table_owned i c p : scallers d !! i = Some c -> owned c = Some p -> exists s, heap d !! p = Some s /\ id s = i;
  table_listed i p : streams d !! i = Some p -> exists c, scallers d !! i = Some c /\ listed c = Some p;
  table_active i c p s : scallers d !! i = Some c -> listed c = Some p -> heap d !! p = Some s ->
    streams d !! i = Some p \/ (exists e, (p, e) ∈ failing d) \/ ended s = true;
  table_heap p s : heap d !! p = Some s -> (exists c, scallers d !! id s = Some c /\ owned c = Some p) \/ dead s
}.

(** How an operation changes a stream; [b] is what it may buffer. *)
Record evolves (b : option bytes) (s s' : clientStream) : Prop := {
  evolves_id : id s' = id s;
  evolves_ended : ended s = true -> ended s' = true;
  evolves_dead : dead s -> dead s';
  evolves_chunks x : x ∈ chunks s' -> x ∈ chunks s \/ b = Some x
}.

Lemma evolves_drop s0 s t e b : id s0 = id s -> evolves b s (fst (dropBuffer (set_end s0 true e) t)).
Proof. intros E. split; simpl; [done|done|by intros (? & ? & ?)|by intros x ?%elem_of_nil]. Qed.

Lemma evolves_wake b s s' : evolves b s s' -> evolves b s (wake s').
Proof. by intros [H1 H2 H3 H4]. Qed.

Lemma evolves_push_body s0 s t b f : id s0 = id s -> ended s = false -> chunks s0 = chunks s ->
  evolves (Some b) s (fst (push_body s0 t b f)).
Proof.
  intros E1 E2 E3. unfold push_body. destruct (0 <? len b).
  - destruct (_ || _); [by apply evolves_drop|]. destruct f; split; simpl; rewrite ?E1, ?E3; try done;
      try congruence; try (by intros (? & _); congruence); intros x [?|Hx]%elem_of_app; auto;
      apply elem_of_cons in Hx as [->|?%elem_of_nil]; auto; done.
  - destruct f; split; simpl; rewrite ?E1, ?E3; auto; try congruence; intros (? & _); congruence.
Qed.

Lemma evolves_push s t h b : evolves (Some b) s (fst (push s t h b)).
Proof.
  unfold push. destruct (ended s) eqn:Ee; [by apply evolves_wake; split; auto|].
  assert (forall s0 f, id s0 = id s -> chunks s0 = chunks s ->
    evolves (Some b) s (fst (let '(s', t') := push_body s0 t b f in (wake s', t')))) as Hb.
  { intros s0 f E1 E2. pose proof (evolves_push_body s0 s t b f E1 Ee E2) as H. destruct (push_body s0 t b f).
    by apply evolves_wake. }
  destruct (streamSeq h) as [q|]; [|by apply Hb].
  destruct (q <? _); [|destruct (_ <? q); [|by apply Hb]].
  - apply evolves_wake. split; simpl; auto; [congruence|intros (? & _); congruence].
  - apply evolves_wake. by apply (evolves_drop s s t).
Qed.

Lemma evolves_fail s t e : evolves None s (fst (fail s t e)).
Proof.
  unfold fail. destruct (ended s) eqn:Ee; apply evolves_wake; [by split; auto|by apply (evolves_drop s s t)].
Qed.

Lemma evolves_release s t : evolves None s (fst (release s t)) /\ dead (fst (release s t)).
Proof. split; [by apply (evolves_drop s s t)|done]. Qed.

Lemma evolves_next s t : evolves None s (fst (fst (next s t))).
Proof.
  unfold next. destruct (cerr s); [by split; auto|]. destruct (chunks s) as [|c cs] eqn:Ec; [by split; auto|].
  split; simpl; auto; [by intros (_ & ? & _); congruence|]. intros x Hx. left. rewrite Ec. by right.
Qed.

(** A turn is a [next], and yields a chunk of the buffer. *)
Lemma turn_next E s t s' t' y r :
  loop_turn E s t = (s', t', y, r) -> (s', t') = fst (next s t) /\ forall b, y = Some b -> b ∈ chunks s.
Proof.
  unfold loop_turn, next. destruct (cerr s); [by intros [= <- <- <- <-]|].
  destruct (chunks s) as [|c cs] eqn:Ec; simpl.
  - destruct (ended s); [by intros [= <- <- <- <-]|]. by destruct (waits E); intros [= <- <- <- <-].
  - destruct (ctx_err E); intros [= <- <- <- <-]; (split; [done|]); [done|]. intros b [= <-]. by left.
Qed.

(** *** The table through the steps *)

Lemma table_put p s s' b t d :
  table_ok d -> heap d !! p = Some s -> evolves b s s' -> table_ok (put p s' t d).
Proof.
  intros [H1 H2 H3 H4] Hp [E1 E2 E3 _].
  assert (forall q x, <[p := s']> (heap d) !! q = Some x <-> (q = p /\ x = s') \/ (q <> p /\ heap d !! q = Some x)) as Hl.
  { intros q x. rewrite list_lookup_insert_Some. apply lookup_lt_Some in Hp. naive_solver. }
  split; simpl; auto.
  - intros i c q Hc Ho. destruct (H1 i c q Hc Ho) as (x & Hx & Hi). destruct (decide (q = p)) as [->|Hq].
    + exists s'. rewrite Hl. split; [by left|congruence].
    + exists x. rewrite Hl. auto.
  - intros i c q x Hc Hli [[-> ->]|[Hq Hx]]%Hl; [|by eapply H3]. destruct (H3 i c p s Hc Hli Hp) as [?|[?|?]]; auto.
  - intros q x [[-> ->]|[Hq Hx]]%Hl; [|auto]. rewrite E1. destruct (H4 p s Hp) as [?|?]; auto.
Qed.

(** A caller moves on, its stream as before. *)
Lemma table_call i c c' d :
  table_ok d -> scallers d !! i = Some c -> owned c' = owned c -> listed c' = listed c -> table_ok (set_call i c' d).
Proof.
  intros [H1 H2 H3 H4] Hi Eo El. split; simpl.
  - intros j x p [[<- <-]|[_ Hj]]%lookup_insert_Some; [rewrite Eo|]; eauto.
  - intros j p Hj. destruct (H2 j p Hj) as (x & Hx & Hlx). destruct (decide (j = i)) as [->|Hij].
    + exists c'. rewrite lookup_insert, decide_True by done. split; [done|congruence].
    + exists x. by rewrite lookup_insert_ne.
  - intros j x p s [[<- <-]|[_ Hj]]%lookup_insert_Some; [rewrite El|]; eauto.
  - intros p s Hp. destruct (H4 p s Hp) as [(x & Hx & Hox)|?]; [left|by right]. destruct (decide (id s = i)) as [E|Hij].
    + exists c'. rewrite E, lookup_insert, decide_True by done. split; [done|congruence].
    + exists x. by rewrite lookup_insert_ne.
Qed.

(** A caller without a stream, before and after. *)
Lemma table_idle i c' d :
  table_ok d -> (forall c, scallers d !! i = Some c -> owned c = None) -> owned c' = None -> table_ok (set_call i c' d).
Proof.
  intros [H1 H2 H3 H4] Hi Hc'. assert (forall c, owned c = None -> listed c = None) as Hol.
  { intros c Ho. unfold listed. by destruct (phase c). }
  split; simpl.
  - intros j x p [[<- <-]|[_ Hj]]%lookup_insert_Some; [congruence|eauto].
  - intros j p Hj. destruct (H2 j p Hj) as (x & Hx & Hlx). exists x. rewrite lookup_insert_ne; [done|].
    intros ->. by rewrite (Hol x (Hi x Hx)) in Hlx.
  - intros j x p s [[<- <-]|[_ Hj]]%lookup_insert_Some; [by rewrite (Hol c' Hc')|eauto].
  - intros p s Hp. destruct (H4 p s Hp) as [(x & Hx & Hox)|?]; [left|by right]. exists x.
    rewrite lookup_insert_ne; [done|]. intros ->. by rewrite (Hi x Hx) in Hox.
Qed.

Lemma table_register i c q d :
  table_ok d -> scallers d !! i = Some c -> phase c = SChannel ->
  table_ok (set_call i (set_phase (SPublishing (length (heap d)) q) c) (register_stream i d)).
Proof.
  intros [H1 H2 H3 H4] Hi Hp. set (n := length (heap d)).
  assert (forall j x, <[i := set_phase (SPublishing n q) c]> (scallers d) !! j = Some x ->
    (j = i /\ x = set_phase (SPublishing n q) c) \/ (j <> i /\ scallers d !! j = Some x)) as Hc.
  { intros j x [[<- <-]|[? ?]]%lookup_insert_Some; auto. }
  assert (forall p s, (heap d ++ [newStream i l]) !! p = Some s ->
    (p < n)%nat /\ heap d !! p = Some s \/ p = n /\ s = newStream i l) as Hh.
  { intros p s Hs. apply lookup_app_Some in Hs as [Hs|[Hs Hs']]; [left; split; [by eapply lookup_lt_Some|done]|right].
    apply list_lookup_singleton_Some in Hs' as [? <-]. split; [unfold n in *; lia|done]. }
  split; simpl.
  - intros j x p [[-> ->]|[? Hj]]%Hc Ho.
    + injection Ho as <-. exists (newStream i l). split; [|done]. unfold n. by rewrite lookup_app_r, Nat.sub_diag by done.
    + destruct (H1 j x p Hj Ho) as (s & Hs & ?). exists s. split; [by apply lookup_app_l_Some|done].
  - intros j p [[<- <-]|[Hij Hj]]%lookup_insert_Some.
    + eexists. by rewrite lookup_insert, decide_True.
    + destruct (H2 j p Hj) as (x & ? & ?). exists x. by rewrite lookup_insert_ne.
  - intros j x p s [[-> ->]|[? Hj]]%Hc Hl Hs.
    + injection Hl as <-. left. by rewrite lookup_insert, decide_True.
    + rewrite lookup_insert_ne by done. apply Hh in Hs as [[_ Hs]|[-> ->]]; [by eapply H3|].
      assert (owned x = Some n) as Ho by (unfold listed in Hl; by destruct (phase x)).
      destruct (H1 j x n Hj Ho) as (s' & Hs' & _). apply lookup_lt_Some in Hs'. unfold n in Hs'. lia.
  - intros p s [[_ Hs]|[-> ->]]%Hh.
    + destruct (H4 p s Hs) as [(x & Hx & Ho)|?]; [left|by right]. exists x. rewrite lookup_insert_ne; [done|].
      intros E. rewrite <-E, Hi in Hx. injection Hx as <-. unfold owned in Ho. by rewrite Hp in Ho.
    + left. eexists. simpl. by rewrite lookup_insert, decide_True.
Qed.

Lemma table_unlist i c p a d :
  table_ok d -> scallers d !! i = Some c -> phase c = SUnlist p a ->
  table_ok (set_call i (set_phase (SDrop p a) c) (unlist i p d)).
Proof.
  intros [H1 H2 H3 H4] Hi Hp.
  assert (owned c = Some p /\ listed c = Some p) as [Hoc Hlc] by (unfold listed, owned; by rewrite Hp).
  assert (forall j q, streams (unlist i p d) !! j = Some q <-> j <> i /\ streams d !! j = Some q) as Hs.
  { intros j q. unfold unlist. case_decide as Hd; simpl.
    - rewrite lookup_delete_Some. naive_solver.
    - split; [|by intros [_ ?]]. intros Hq. split; [|done]. intros ->. destruct (H2 i q Hq) as (x & Hx & Hlx). congruence. }
  assert (heap (unlist i p d) = heap d /\ failing (unlist i p d) = failing d /\ scallers (unlist i p d) = scallers d)
    as (Eh & Ef & Ec) by (unfold unlist; by case_decide).
  split; simpl; rewrite ?Eh, ?Ef, ?Ec.
  - intros j x q [[<- <-]|[_ Hj]]%lookup_insert_Some Ho; [|eauto]. injection Ho as <-. by apply (H1 i c).
  - intros j q [Hij Hj]%Hs. destruct (H2 j q Hj) as (x & ? & ?). exists x. by rewrite lookup_insert_ne.
  - intros j x q s [[<- <-]|[Hij Hj]]%lookup_insert_Some Hl Hq; [done|]. rewrite Hs.
    destruct (H3 j x q s Hj Hl Hq) as [?|?]; [left; auto|by right].
  - intros q s Hq. destruct (H4 q s Hq) as [(x & Hx & Hox)|?]; [left|by right]. destruct (decide (id s = i)) as [E|Hij].
    + exists (set_phase (SDrop p a) c). rewrite E, lookup_insert, decide_True by done. split; [done|].
      rewrite E, Hi in Hx. injection Hx as <-. by rewrite <-Hox, Hoc.
    + exists x. by rewrite lookup_insert_ne.
Qed.

(** A released stream has no owner any more. *)
Lemma table_drop i c p a s' t d :
  table_ok d -> scallers d !! i = Some c -> phase c = SDrop p a -> heap d !! p = Some s' -> dead s' ->
  table_ok (set_call i (set_phase (match a with Again => SChannel | Over => SDone end) c) (set_heap (heap d) t d)).
Proof.
  intros [H1 H2 H3 H4] Hi Hp Hs Hd. set (c' := set_phase _ c).
  assert (owned c' = None /\ listed c' = None) as [Ho Hl] by (unfold listed, owned; by destruct a).
  split; simpl.
  - intros j x q [[<- <-]|[_ Hj]]%lookup_insert_Some; [congruence|eauto].
  - intros j q Hj. destruct (H2 j q Hj) as (x & Hx & Hlx). exists x. rewrite lookup_insert_ne; [done|]. intros ->.
    rewrite Hi in Hx. injection Hx as <-. unfold listed in Hlx. by rewrite Hp in Hlx.
  - intros j x q y [[<- <-]|[_ Hj]]%lookup_insert_Some; [congruence|eauto].
  - intros q y Hq. destruct (H4 q y Hq) as [(x & Hx & Hox)|?]; [|by right].
    destruct (decide (id y = i)) as [E|Hij]; [|left; exists x; by rewrite lookup_insert_ne].
    right. rewrite E, Hi in Hx. injection Hx as <-. unfold owned in Hox. rewrite Hp in Hox. congruence.
Qed.

Lemma table_take e d : table_ok d -> table_ok (take_streams e d).
Proof.
  intros [H1 H2 H3 H4]. split; simpl; [done|by intros i p|..|done].
  intros i c p s Hi Hl Hs. right. destruct (H3 i c p s Hi Hl Hs) as [Ht|[[e' He]|?]]; [left|left|by right].
  - exists e. apply elem_of_app. right. apply list_elem_of_fmap. exists (i, p). split; [done|]. by apply elem_of_map_to_list.
  - exists e'. apply elem_of_app. by left.
Qed.

(** The queues change; what leaves [failing] is a stream that has ended. *)
Lemma table_queues fl fa fr d :
  table_ok d -> (forall p e, (p, e) ∈ failing d -> (p, e) ∈ fa \/ forall s, heap d !! p = Some s -> ended s = true) ->
  table_ok (set_queues fl fa fr d).
Proof.
  intros [H1 H2 H3 H4] Hf. split; simpl; auto.
  intros i c p s Hi Hl Hs. destruct (H3 i c p s Hi Hl Hs) as [?|[[e He]|?]]; auto.
  right. destruct (Hf p e He) as [?|Hd]; [left; by exists e|right; by apply Hd].
Qed.

Lemma fail_ended s t e : ended (fst (fail s t e)) = true.
Proof. unfold fail. by destruct (ended s) eqn:E. Qed.

Lemma elem_of_delete_or {X : Type} (k : nat) (q : list X) x : x ∈ q -> x ∈ delete k q \/ q !! k = Some x.
Proof.
  intros (j & Hj)%list_elem_of_lookup. destruct (decide (j = k)) as [->|Hne]; [by right|left].
  apply list_elem_of_lookup. destruct (decide (j < k)%nat).
  - exists j. by rewrite list_lookup_delete_lt.
  - exists (j - 1)%nat. rewrite list_lookup_delete_ge by lia. by replace (S (j - 1)) with j by lia.
Qed.

Lemma fst_eq {X Y : Type} (p : X * Y) x y : p = (x, y) -> fst p = x.
Proof. by intros ->. Qed.

Lemma table_step d d' : sstep d d' -> table_ok d -> table_ok d'.
Proof.
  intros Hs Hok. destruct Hs as [i key body e Hi|i key body Hi|i c e Hi Hp|i c q Hi Hp|i c p q Hi Hp|i c p q Hi Hp|i c p q e Hi Hp
    |i c p s s' t' y r E Hi Hp Hs Ht|i c p Hi Hp|i c p b Hi Hp|i c p a Hi Hp|i c p a s s' t' Hi Hp Hs Hr|i h b Hb
    |n p h b s s' t' Hn Hs Hpu|e|n p e s s' t' Hn Hs Hf].
  - apply table_idle; [done|congruence|done].
  - apply table_idle; [done|congruence|done].
  - apply table_idle; [done| |done]. intros c' Hc'. rewrite Hi in Hc'. injection Hc' as <-. unfold owned. by rewrite Hp.
  - by apply table_register.
  - apply (table_call i c); [by destruct Hok|done|unfold listed, owned; simpl; by rewrite Hp..].
  - apply (table_call i c); [by destruct Hok|done|unfold listed, owned; simpl; by rewrite Hp..].
  - apply (table_call i c); [by destruct Hok|done|unfold listed, owned; simpl; by rewrite Hp..].
  - destruct (turn_next _ _ _ _ _ _ _ Ht) as [Hn _]. symmetry in Hn. apply fst_eq in Hn. pose proof (evolves_next s (bufferedBytes d)) as He.
    rewrite Hn in He. apply (table_call i c);
      [by eapply table_put|done|unfold listed, owned; simpl; rewrite Hp; by destruct r..].
  - apply (table_call i c); [by destruct Hok|done|unfold listed, owned; simpl; by rewrite Hp..].
  - apply (table_call i c); [by destruct Hok|done|unfold listed, owned; simpl; by rewrite Hp..].
  - by apply table_unlist.
  - destruct (evolves_release s (bufferedBytes d)) as [He Hd]. rewrite Hr in He, Hd.
    apply (table_drop i c p a s' t' (put p s' t' d)); try done; [by eapply table_put|].
    simpl. apply list_lookup_insert_eq. by eapply lookup_lt_Some.
  - unfold route_frame. destruct (streams d !! i); (apply table_queues; [done|]); auto.
  - eapply (table_put _ s); [|done|]; [apply table_queues; auto|].
    pose proof (evolves_push s (bufferedBytes d) h b) as He. rewrite Hpu in He. exact He.
  - by apply table_take.
  - pose proof (evolves_fail s (bufferedBytes d) e) as He. pose proof (fail_ended s (bufferedBytes d) e) as Hd.
    rewrite Hf in He, Hd.
    apply (table_queues (inflight d) (delete n (failing d)) (frames d) (put p s' t' d)); [by eapply table_put|].
    intros q e' Hq. destruct (elem_of_delete_or n _ _ Hq) as [?|Hq']; [by left|right].
    assert (q = p) as -> by (simpl in Hq'; congruence).
    intros x Hx. simpl in Hx, Hd. rewrite list_lookup_insert_eq in Hx by (by eapply lookup_lt_Some). congruence.
Qed.

(** ** The chunks and the counter *)

Record data_ok (d : sdispatcher) : Prop := {
  data_inflight p h b : (p, h, b) ∈ inflight d ->
    exists s, heap d !! p = Some s /\ (id s, h, b) ∈ frames d /\ fits b;
  data_chunks p s b : heap d !! p = Some s -> b ∈ chunks s -> exists h, (id s, h, b) ∈ frames d;
  data_got i c b : scallers d !! i = Some c -> b ∈ got c -> exists h, (i, h, b) ∈ frames d;
  data_buffers : Buffers.inv l (heap d, bufferedBytes d, 0)
}.

(** The positive limits of a validated configuration. *)
Context (Hpos : 0 < lchunks l /\ 0 < lbytes l /\ 0 < ltotal l) (Hmax : ltotal l <= MaxInt64).

(** An operation on one stream, as [Stream.Buffers] accounts for it. *)
Lemma data_put p s s' t' b d :
  data_ok d -> heap d !! p = Some s -> evolves b s s' -> Buffers.op l (s, bufferedBytes d) (s', t') ->
  (forall x, b = Some x -> exists h, (id s, h, x) ∈ frames d) -> data_ok (put p s' t' d).
Proof.
  intros [H1 H2 H3 H4] Hp [E1 _ _ E4] Hop Hb.
  assert (forall q x, <[p := s']> (heap d) !! q = Some x -> (q = p /\ x = s') \/ (q <> p /\ heap d !! q = Some x)) as Hl.
  { intros q x. rewrite list_lookup_insert_Some. naive_solver. }
  split; simpl; auto.
  - intros q h x Hq. destruct (H1 q h x Hq) as (y & Hy & Hx & Hf). destruct (decide (q = p)) as [->|Hne].
    + exists s'. rewrite list_lookup_insert_eq by (by eapply lookup_lt_Some). rewrite E1. split_and!; congruence || done.
    + exists y. by rewrite list_lookup_insert_ne.
  - intros q y x [[-> ->]|[_ Hy]]%Hl Hx; [|by eapply H2]. rewrite E1. destruct (E4 x Hx) as [?|?]; eauto.
  - change (Buffers.inv l (<[p := s']> (heap d), t', 0)).
    apply (Buffers.buffers_inv_step l Hpos (heap d, bufferedBytes d, 0)); [|done].
    destruct H4 as (Hss & Ht & _ & Hm & _). pose proof (Forall_lookup_1 _ _ _ _ Hss Hp) as Hok.
    pose proof (Buffers.held_ge l _ _ _ Hss Hp).
    destruct (Buffers.op_accounted l Hpos s (bufferedBytes d) (s', t') Hop Hok) as (Hok' & Ht' & Hm').
    { lia. }
    { unfold is_int64, MinInt64. lia. }
    simpl in *. replace t' with (t' + 0) by lia. replace 0 with (0 + 0) at 2 by lia.
    eapply Buffers.step_op; [done|done|lia|]. destruct Hm'; lia.
Qed.

(** Callers and queues change; the logs grow. *)
Lemma data_frame d d' :
  data_ok d -> heap d' = heap d -> bufferedBytes d' = bufferedBytes d ->
  (forall x, x ∈ frames d -> x ∈ frames d') ->
  (forall p h b, (p, h, b) ∈ inflight d' -> (p, h, b) ∈ inflight d \/
     exists s, heap d !! p = Some s /\ (id s, h, b) ∈ frames d' /\ fits b) ->
  (forall i c' b, scallers d' !! i = Some c' -> b ∈ got c' ->
     exists c, scallers d !! i = Some c /\ b ∈ got c) -> data_ok d'.
Proof.
  intros [H1 H2 H3 H4] E1 E2 Hf Hi Hg. split; rewrite ?E1, ?E2; auto.
  - intros p h b [Hp|?]%Hi; [|done]. destruct (H1 p h b Hp) as (s & ? & ? & ?). exists s. auto.
  - intros p s b Hp Hb. destruct (H2 p s b Hp Hb) as [h ?]. exists h. auto.
  - intros i c b Hc Hb. destruct (Hg i c b Hc Hb) as (c0 & Hc0 & Hb0). destruct (H3 i c0 b Hc0 Hb0) as [h ?]. exists h. auto.
Qed.

Lemma data_call i c' d :
  data_ok d -> (forall b, b ∈ got c' -> exists c, scallers d !! i = Some c /\ b ∈ got c) -> data_ok (set_call i c' d).
Proof.
  intros Hok Hg. apply (data_frame d); simpl; auto.
  intros j x b [[<- <-]|[_ Hj]]%lookup_insert_Some Hb; eauto.
Qed.

Lemma data_register i d : data_ok d -> data_ok (register_stream i d).
Proof.
  intros [H1 H2 H3 H4]. split; simpl; auto.
  - intros p h b Hp. destruct (H1 p h b Hp) as (s & ? & ?). exists s. split; [by apply lookup_app_l_Some|done].
  - intros p s b [Hs|[_ Hs]]%lookup_app_Some; [eauto|]. apply list_lookup_singleton_Some in Hs as [_ <-].
    by intros ?%elem_of_nil.
  - change (Buffers.inv l (heap d ++ [newStream i l], bufferedBytes d, 0)).
    apply (Buffers.buffers_inv_step l Hpos (heap d, bufferedBytes d, 0)); [|done]. apply Buffers.step_open.
Qed.

Lemma data_step d d' : sstep d d' -> table_ok d -> data_ok d -> data_ok d'.
Proof.
  intros Hs Htab Hok. destruct Hs as [i key body e Hi|i key body Hi|i c e Hi Hp|i c q Hi Hp|i c p q Hi Hp|i c p q Hi Hp|i c p q e Hi Hp
    |i c p s s' t' y r E Hi Hp Hs Ht|i c p Hi Hp|i c p b Hi Hp|i c p a Hi Hp|i c p a s s' t' Hi Hp Hs Hr|i h b Hb
    |n p h b s s' t' Hn Hs Hpu|e|n p e s s' t' Hn Hs Hf].
  1,2: apply data_call; [done|by intros b ?%elem_of_nil].
  all: try (apply data_call; [first [done|by apply data_register|by destruct Hok]|simpl; by eauto]).
  - destruct (turn_next _ _ _ _ _ _ _ Ht) as [Hn Hy]. pose proof (evolves_next s (bufferedBytes d)) as He.
    rewrite <-Hn in He. assert (data_ok (put p s' t' d)) as Hput.
    { eapply data_put; [done|done|exact He|rewrite Hn; apply Buffers.op_next|done]. }
    pose proof (table_owned d Htab i c p Hi) as Ho. unfold owned in Ho. rewrite Hp in Ho.
    destruct (Ho eq_refl) as (s0 & Hs0 & Hid). rewrite Hs in Hs0. injection Hs0 as <-.
    destruct Hput as [H1 H2 H3 H4]. split; [exact H1|exact H2| |exact H4].
    simpl. intros j x b [[<- <-]|[_ Hj]]%lookup_insert_Some Hb; [|by eapply H3].
    simpl in Hb. apply elem_of_app in Hb as [Hb|Hb]; [by eapply H3|]. destruct y as [y|]; [|by apply elem_of_nil in Hb].
    apply list_elem_of_singleton in Hb as ->. simpl. rewrite <-Hid. by eapply (data_chunks d Hok), Hy.
  - apply data_call; [unfold unlist; case_decide; by destruct Hok|simpl; eauto].
    intros b Hb. exists c. unfold unlist. by case_decide.
  - assert (data_ok (put p s' t' d)) as Hput; [|apply data_call; [done|simpl; eauto]].
    destruct (evolves_release s (bufferedBytes d)) as [He _]. rewrite Hr in He.
    eapply data_put; [done|done|exact He|rewrite <-Hr; apply Buffers.op_release|done].
  - unfold route_frame. destruct (streams d !! i) as [p|] eqn:Ep; (apply (data_frame d); simpl; [done..| | |by eauto]).
    + intros x Hx. apply elem_of_app. by left.
    + intros q h' b' [Hq|Hq]%elem_of_app; [by left|right]. apply list_elem_of_singleton in Hq as [= -> -> ->].
      destruct (table_listed d Htab i p Ep) as (c & Hc & Hl).
      assert (owned c = Some p) as Ho by (unfold listed in Hl; by destruct (phase c)).
      destruct (table_owned d Htab i c p Hc Ho) as (s & Hs & <-). exists s. split_and!; [done| |done].
      apply elem_of_app. right. by left.
    + intros x Hx. apply elem_of_app. by left.
    + auto.
  - assert ((p, h, b) ∈ inflight d) as Hin by (by eapply list_elem_of_lookup_2).
    destruct (data_inflight d Hok p h b Hin) as (s0 & Hs0 & Hfr & Hb1 & Hb2). rewrite Hs in Hs0. injection Hs0 as <-.
    pose proof (evolves_push s (bufferedBytes d) h b) as He. rewrite Hpu in He.
    destruct (data_buffers d Hok) as (_ & Ht & _ & Hm & _).
    assert (data_ok (put p s' t' d)) as Hput.
    { eapply data_put; [done|done|exact He| |]; [|intros x [= <-]; eauto].
      rewrite <-Hpu. apply Buffers.op_push; lia. }
    apply (data_frame (put p s' t' d)); simpl; eauto. intros q h' b' Hq. left. by eapply list_elem_of_delete_inv.
  - apply (data_frame d); simpl; eauto.
  - pose proof (evolves_fail s (bufferedBytes d) e) as He. rewrite Hf in He.
    assert (data_ok (put p s' t' d)) as Hput.
    { eapply data_put; [done|done|exact He|rewrite <-Hf; apply Buffers.op_fail|done]. }
    apply (data_frame (put p s' t' d)); simpl; eauto.
Qed.

(** ** What a call publishes *)

(** The request was confirmed: the caller ranges over the stream, or has. *)
Definition confirmed (c : scaller) : bool :=
  match phase c, completed c with SLoop _, _ | SCancel _ _, _ | _, Some _ => true | _, None => false end.

(** The loop has ended and the deferred cancel has run. *)
Definition past_cancel (c : scaller) : bool :=
  match phase c with SUnlist _ Over | SDrop _ Over | SDone => true | _ => false end.

Definition phase_fits (c : scaller) : Prop :=
  match phase c with
  | SCancel _ b => completed c = Some b
  | SUnlist _ Over | SDrop _ Over | SDone => True
  | _ => completed c = None
  end.

Definition request_of (i : string) (c : scaller) (r : string * Publishing) : Prop :=
  exists q, r = (skey c, with_reply_to q (stream_message i (sbody c))).

Definition request_id (r : string * Publishing) : string := PCorrelationId (snd r).

Record log_ok (d : sdispatcher) : Prop := {
  log_fits i c : scallers d !! i = Some c -> phase_fits c;
  log_notices m : m ∈ notices d ->
    exists i c, m = cancel_notice i /\ scallers d !! i = Some c /\ completed c = Some false /\ past_cancel c = true;
  log_once : NoDup (notices d);
  log_requests r : r ∈ requests d -> exists i c, scallers d !! i = Some c /\ request_of i c r /\ confirmed c = true;
  log_confirmed i c : scallers d !! i = Some c -> confirmed c = true -> exists r, r ∈ requests d /\ request_of i c r;
  log_request_once : NoDup (map request_id (requests d))
}.

(** A caller moves on, and publishes nothing. *)
Lemma log_call i c c' d :
  log_ok d -> scallers d !! i = Some c -> phase_fits c' -> skey c' = skey c -> sbody c' = sbody c ->
  confirmed c' = confirmed c ->
  (past_cancel c = true -> past_cancel c' = true /\ completed c' = completed c) -> log_ok (set_call i c' d).
Proof.
  intros [H1 H2 H3 H4 H5 H6] Hi Hf Ek Eb Ec Hp.
  assert (forall j x, scallers d !! j = Some x -> exists x', <[i := c']> (scallers d) !! j = Some x' /\
    ((j = i /\ x' = c' /\ x = c) \/ x' = x)) as Hl.
  { intros j x Hx. destruct (decide (j = i)) as [->|?].
    - exists c'. rewrite lookup_insert, decide_True by done. split; [done|left]. split_and!; congruence || done.
    - exists x. rewrite lookup_insert_ne by done. auto. }
  split; simpl; try done.
  - intros j x [[<- <-]|[_ Hj]]%lookup_insert_Some; eauto.
  - intros m Hm. destruct (H2 m Hm) as (j & x & -> & Hx & Hcx & Hpx). destruct (Hl j x Hx) as (x' & Hx' & Hor).
    exists j, x'. destruct Hor as [(-> & -> & ->)| ->]; [|done]. destruct (Hp Hpx). split_and!; congruence || done.
  - intros r Hr. destruct (H4 r Hr) as (j & x & Hx & (q & ->) & Hcx). destruct (Hl j x Hx) as (x' & Hx' & Hor).
    exists j, x'. destruct Hor as [(-> & -> & ->)| ->]; [|split_and!; [done|by eexists|done]].
    split_and!; [done|exists q; congruence|congruence].
  - intros j x [[<- <-]|[_ Hj]]%lookup_insert_Some Hx; [|eauto]. rewrite Ec in Hx.
    destruct (H5 i c Hi Hx) as (r & Hr & q & ->). eexists. split; [done|]. exists q. congruence.
Qed.

(** A new call. *)
Lemma log_new i c' d :
  log_ok d -> scallers d !! i = None -> phase_fits c' -> confirmed c' = false -> log_ok (set_call i c' d).
Proof.
  intros [H1 H2 H3 H4 H5 H6] Hi Hf Hc.
  assert (forall j x, scallers d !! j = Some x -> <[i := c']> (scallers d) !! j = Some x) as Hl.
  { intros j x Hx. rewrite lookup_insert_ne; [done|congruence]. }
  split; simpl; try done.
  - intros j x [[<- <-]|[_ Hj]]%lookup_insert_Some; eauto.
  - intros m Hm. destruct (H2 m Hm) as (j & x & ? & Hx & ?). exists j, x. auto.
  - intros r Hr. destruct (H4 r Hr) as (j & x & Hx & ?). exists j, x. auto.
  - intros j x [[<- <-]|[_ Hj]]%lookup_insert_Some Hx; [congruence|eauto].
Qed.

Lemma log_publish i c p q d :
  log_ok d -> scallers d !! i = Some c -> phase c = SPublishing p q ->
  log_ok (set_call i (set_phase (SLoop p) c) (log_request (skey c, with_reply_to q (stream_message i (sbody c))) d)).
Proof.
  intros [H1 H2 H3 H4 H5 H6] Hi Hp.
  assert (completed c = None) as Hn by (specialize (H1 i c Hi); unfold phase_fits in H1; by rewrite Hp in H1).
  assert (confirmed c = false /\ past_cancel c = false) as [Hc Hpa] by (unfold confirmed, past_cancel; by rewrite Hp, Hn).
  assert (forall j x, scallers d !! j = Some x -> j <> i \/ x = c) as Hx.
  { intros j x Hj. destruct (decide (j = i)) as [->|]; [right; congruence|by left]. }
  split; simpl.
  - intros j x [[<- <-]|[_ Hj]]%lookup_insert_Some; [done|eauto].
  - intros m Hm. destruct (H2 m Hm) as (j & x & ? & Hj & ? & ?). exists j, x. rewrite lookup_insert_ne; [done|].
    destruct (Hx j x Hj); congruence.
  - done.
  - intros r [Hr|Hr]%elem_of_app.
    + destruct (H4 r Hr) as (j & x & Hj & ? & ?). exists j, x. rewrite lookup_insert_ne; [done|].
      destruct (Hx j x Hj); congruence.
    + apply list_elem_of_singleton in Hr as ->. exists i, (set_phase (SLoop p) c).
      rewrite lookup_insert, decide_True by done. split_and!; [done|by exists q|done].
  - intros j x [[<- <-]|[_ Hj]]%lookup_insert_Some Hcx.
    + eexists. split; [apply elem_of_app; right; by left|]. by exists q.
    + destruct (H5 j x Hj Hcx) as (r & ? & ?). exists r. split; [apply elem_of_app; by left|done].
  - rewrite map_app. apply NoDup_app. split_and!; [done| |apply NoDup_singleton].
    intros k Hk [= ->]%list_elem_of_singleton. apply list_elem_of_fmap in Hk as (r & Hid & Hr).
    destruct (H4 r Hr) as (j & x & Hj & (q' & ->) & Hcx). unfold request_id in Hid. simpl in Hid. destruct (Hx j x Hj); congruence.
Qed.

Lemma log_cancel i c p d :
  log_ok d -> scallers d !! i = Some c -> phase c = SCancel p false ->
  log_ok (set_call i (set_phase (SUnlist p Over) c) (log_notice (cancel_notice i) d)).
Proof.
  intros Hok Hi Hp.
  assert (completed c = Some false) as Hn by (pose proof (log_fits d Hok i c Hi) as H; unfold phase_fits in H; by rewrite Hp in H).
  assert (log_ok (set_call i (set_phase (SUnlist p Over) c) d)) as [H1 H2 H3 H4 H5 H6].
  { apply (log_call i c); try done; unfold confirmed, past_cancel; simpl; by rewrite ?Hp, ?Hn. }
  split; simpl; try done.
  - intros m [Hm|Hm]%elem_of_app; [by apply H2|]. apply list_elem_of_singleton in Hm as ->.
    exists i, (set_phase (SUnlist p Over) c). rewrite lookup_insert, decide_True by done. done.
  - apply NoDup_app. split_and!; [done| |apply NoDup_singleton]. intros m Hm ->%list_elem_of_singleton.
    destruct (log_notices d Hok _ Hm) as (j & x & [= <-] & Hj & _ & Hpx). unfold past_cancel in Hpx.
    rewrite Hi in Hj. injection Hj as <-. by rewrite Hp in Hpx.
Qed.

(** What no log shows. *)
Lemma log_same d d' :
  log_ok d -> scallers d' = scallers d -> notices d' = notices d -> requests d' = requests d -> log_ok d'.
Proof. intros [H1 H2 H3 H4 H5 H6] E1 E2 E3. split; rewrite ?E1, ?E2, ?E3; done. Qed.

Lemma log_step d d' : sstep d d' -> log_ok d -> log_ok d'.
Proof.
  intros Hs Hok. destruct Hs as [i key body e Hi|i key body Hi|i c e Hi Hp|i c q Hi Hp|i c p q Hi Hp|i c p q Hi Hp|i c p q e Hi Hp
    |i c p s s' t' y r E Hi Hp Hs Ht|i c p Hi Hp|i c p b Hi Hp|i c p a Hi Hp|i c p a s s' t' Hi Hp Hs Hr|i h b Hb
    |n p h b s s' t' Hn Hs Hpu|e|n p e s s' t' Hn Hs Hf].
  1,2: by apply log_new.
  3: by apply log_publish.
  6: by apply log_cancel.
  all: try (pose proof (log_fits d Hok _ _ Hi) as Hfit; unfold phase_fits in Hfit; rewrite Hp in Hfit).
  - apply (log_call i c); unfold phase_fits, confirmed, past_cancel; simpl; rewrite ?Hp, ?Hfit; done.
  - apply (log_call i c); [by eapply log_same|done|unfold phase_fits, confirmed, past_cancel; simpl; rewrite ?Hp, ?Hfit; done..].
  - apply (log_call i c); unfold phase_fits, confirmed, past_cancel; simpl; rewrite ?Hp, ?Hfit; done.
  - apply (log_call i c); unfold phase_fits, confirmed, past_cancel; simpl; rewrite ?Hp, ?Hfit; done.
  - apply (log_call i c); [by eapply log_same|done|unfold phase_fits, confirmed, past_cancel; simpl; rewrite ?Hp, ?Hfit; by destruct r..].
  - apply (log_call i c); unfold phase_fits, confirmed, past_cancel; simpl; rewrite ?Hp, ?Hfit; done.
  - apply (log_call i c); [eapply log_same; [done|unfold unlist; by case_decide..]|unfold unlist; by case_decide|..];
      unfold phase_fits, confirmed, past_cancel; simpl; rewrite ?Hp; by destruct a; rewrite ?Hfit.
  - apply (log_call i c); [by eapply log_same|done|..];
      unfold phase_fits, confirmed, past_cancel; simpl; rewrite ?Hp; by destruct a; rewrite ?Hfit.
  - unfold route_frame. destruct (streams d !! i); by eapply log_same.
  - by eapply log_same.
  - by eapply log_same.
  - by eapply log_same.
Qed.

(** ** Properties *)


End Calls.

(** ** Sample: a caller whose first publish loses its channel, and who stops
    ranging after the first chunk. *)
Definition sample_turn : turn_env := {| ctx_err := None; accepts := false; waits := Notified; idle := 0 |}.
Definition first_frame : frame := Frame [x07] 0 false.

Definition broke_out (d : sdispatcher) : Prop :=
  notices d = [cancel_notice "s"] /\ requests d = [("k", with_reply_to "q" (stream_message "s" [x01]))] /\
  exists c, scallers d = {["s" := c]} /\ phase c = SDone /\ got c = [[x07]].

(** One step, and the state it leads to, evaluated. *)
Tactic Notation "take" uconstr(t) :=
  eapply rtc_l; [by eapply t; first [reflexivity|vm_compute; split; congruence]|];
  match goal with |- rtc _ ?d _ => let d' := eval vm_compute in d in change d with d' end.

Lemma sample_broke_out : exists d, rtc (sstep (A := amd64) sample_limits) no_streams d /\ broke_out d.
Proof.
  eexists. split.
  - take (stream_begin _ _ "s" "k" [x01]).
    take (publish_register _ _ "s" _ "q").
    take (publish_gone _ _ "s").
    take (release_unlist _ _ "s").
    take (release_drop _ _ "s").
    take (publish_register _ _ "s" _ "q").
    take (publish_confirmed _ _ "s").
    take (frame_routed _ _ "s" (frame_headers first_frame) (fbody first_frame)).
    take (frame_pushed _ _ 0).
    take (stream_turned _ _ "s" _ _ _ _ _ _ _ sample_turn).
    take (cancel_published _ _ "s").
    take (release_unlist _ _ "s").
    take (release_drop _ _ "s").
    apply rtc_refl.
  - split_and!; [reflexivity|reflexivity|]. eexists. split_and!; reflexivity.
Qed.

