(* ===== verification/ConsumerLife.v ===== *)
(** * ConsumerLife: the life of a consumer (consumer.go)

    A consumer owns a channel, a loop reading its deliveries and the broker's
    registration of its consumer tag. Restores (the supervisor's, the one that
    starts the consumer, and its own recovery of a dead channel) replace them,
    one at a time under the session's restore lock, while the application starts,
    stops and closes the consumer and channels die under it. Each critical
    section and each call on the AMQP client is one step; the broker, the
    connection and the handlers are steps of the environment. A [pubChannel] is
    named by the channel it wraps, and the [done] and [stop] channels of a loop by
    the loop. Topology is [Topology]'s; what happens to one delivery is
    [Consumer]'s. *)
From S2P Require Import Prelude Errors.

(** ** State *)

(** [consumer]: the fields its mutex guards. *)
Record consumer := {
  ch : option nat; pub : option nat; queue : string; tag : string;
  consuming : bool; closed : bool;
  loopDone : option nat; loopStop : option nat;
  unregister : bool;
  (* the handlers in flight *)
  active : gset nat
}.

(** A loop waits for a delivery, holds one while waiting for a handler slot, or
    has ended. *)
Inductive loop_state := Reading | Parked | Ended.

Record loop_info := { lch : nat; ltag : string; lstate : loop_state }.

(** The world: open channels, consumer tags registered on them, loops, closed
    [stop] and [done] channels, whether one was closed twice (a panic), and the
    causes handlers were cancelled with. *)
Record world := {
  opens : gset nat;
  regs : gset (nat * string);
  loops : gmap nat loop_info;
  stops : gset nat;
  dones : gset nat;
  panicked : bool;
  causes : gmap nat sentinel;
  next : nat;
  used : gset string
}.

(** Who runs a restore. *)
Inductive restorer := Attach | Supervisor | Recovery (dead : nat).

(** Where the restore in progress stands: [restoreTopology], then
    [startConsuming]. *)
Inductive restore_pc :=
| Checked
| Declared (n : nat) (q : string)
| RetireStop (old : nat) (stop done : option nat) (resume : bool)
| RetirePub (old : nat) (done : option nat) (resume : bool)
| AwaitLoop (done : option nat) (resume : bool)
| Starting
| Consume (n : nat)
| Registered (n : nat) (t : string)
| Unwanted (n : nat) (t : string).

(** [start]: not called, waiting in [attach], attached, returned. *)
Inductive start_pc := NotStarted | Attaching | Attached | StartReturned.

#[export] Instance start_pc_eq_dec : EqDecision start_pc.
Proof. solve_decision. Defined.

(** The rest of [close], after its critical section. *)
Inductive close_pc :=
| NotClosing
| CloseStop (stop p done : option nat)
| CloseHandlers (p done : option nat)
| ClosePub (p done : option nat)
| CloseAwait (done : option nat)
| CloseReturned.

(** The session: ready; its connection closed, which the supervisor has not
    noticed yet; not ready, the supervisor reconnecting; this consumer restored,
    which the supervisor has not announced yet. *)
Inductive session_phase := Up | Dying | Down | Back.

#[export] Instance session_phase_eq_dec : EqDecision session_phase.
Proof. solve_decision. Defined.

(** [session.current]'s readiness. *)
Definition ready (p : session_phase) : bool := match p with Up | Dying => true | Down | Back => false end.

(** A restore by the supervisor is still to come. *)
Definition returning (p : session_phase) : bool := match p with Dying | Down => true | Up | Back => false end.

(** The goroutines. [cancels] are the [stopConsuming] calls still to cancel a
    tag, [closings] the [close] calls past their [stopConsuming], [deciding] the
    loops that ended unexpectedly and are about to look whether the session is
    ready. [stranded] remembers that a recovery could not consume on the channel
    it installed, or that one was not begun, or given up, because the session
    was restored but not announced yet. *)
Record threads := {
  restoring : option (restorer * restore_pc);
  starting : start_pc;
  registered : bool;
  cancels : list (nat * string);
  closings : nat;
  closer : close_pc;
  deciding : list nat;
  recoveries : list nat;
  sess : session_phase;
  stranded : bool
}.

Record life := Life { consumer_of : consumer; world_of : world; threads_of : threads }.

(** ** Operations on the world *)

Definition fresh_channel (w : world) : world := {|
  opens := {[next w]} ∪ opens w; regs := regs w; loops := loops w; stops := stops w; dones := dones w;
  panicked := panicked w; causes := causes w; next := S (next w); used := used w |}.

Definition close_channel (n : nat) (w : world) : world := {|
  opens := opens w ∖ {[n]}; regs := filter (fun p => p.1 <> n) (regs w); loops := loops w; stops := stops w;
  dones := dones w; panicked := panicked w; causes := causes w; next := next w; used := used w |}.

Definition close_pub (p : option nat) (w : world) : world :=
  match p with Some n => close_channel n w | None => w end.

(** [ConsumeWithContext] *)
Definition register_tag (n : nat) (tg : string) (w : world) : world := {|
  opens := opens w; regs := {[(n, tg)]} ∪ regs w; loops := loops w; stops := stops w; dones := dones w;
  panicked := panicked w; causes := causes w; next := next w; used := {[tg]} ∪ used w |}.

Definition cancel_tag (n : nat) (tg : string) (w : world) : world := {|
  opens := opens w; regs := regs w ∖ {[(n, tg)]}; loops := loops w; stops := stops w; dones := dones w;
  panicked := panicked w; causes := causes w; next := next w; used := used w |}.

(** [close(stop)]: closing a closed channel panics. *)
Definition close_stop (o : option nat) (w : world) : world :=
  match o with
  | None => w
  | Some l => {|
      opens := opens w; regs := regs w; loops := loops w; stops := {[l]} ∪ stops w; dones := dones w;
      panicked := panicked w || bool_decide (l ∈ stops w); causes := causes w; next := next w; used := used w |}
  end.

(** [go c.loop(...)] *)
Definition spawn (n : nat) (tg : string) (w : world) : world := {|
  opens := opens w; regs := regs w; loops := <[next w := {| lch := n; ltag := tg; lstate := Reading |}]> (loops w);
  stops := stops w; dones := dones w; panicked := panicked w; causes := causes w; next := S (next w); used := used w |}.

Definition move_loop (l : nat) (x : loop_info) (st : loop_state) (w : world) : world := {|
  opens := opens w; regs := regs w;
  loops := <[l := {| lch := lch x; ltag := ltag x; lstate := st |}]> (loops w);
  stops := stops w; dones := dones w; panicked := panicked w; causes := causes w; next := next w; used := used w |}.

(** The loop's [close(done)]. *)
Definition close_done (l : nat) (w : world) : world := {|
  opens := opens w; regs := regs w; loops := loops w; stops := stops w; dones := {[l]} ∪ dones w;
  panicked := panicked w || bool_decide (l ∈ dones w); causes := causes w; next := next w; used := used w |}.

(** [cancelActive]: the first cause a context is cancelled with stays. *)
Definition cancelActive (cause : sentinel) (hs : gset nat) (w : world) : world := {|
  opens := opens w; regs := regs w; loops := loops w; stops := stops w; dones := dones w; panicked := panicked w;
  causes := causes w ∪ gset_to_gmap cause hs; next := next w; used := used w |}.

(** ** Operations on the consumer *)

(** [newConsumer] *)
Definition newConsumer : consumer := {|
  ch := None; pub := None; queue := ""; tag := ""; consuming := false; closed := false; loopDone := None;
  loopStop := None; unregister := false; active := ∅ |}.

Definition set_consuming (b : bool) (x : consumer) : consumer := {|
  ch := ch x; pub := pub x; queue := queue x; tag := tag x; consuming := b; closed := closed x;
  loopDone := loopDone x; loopStop := loopStop x; unregister := unregister x; active := active x |}.

Definition set_unregister (x : consumer) : consumer := {|
  ch := ch x; pub := pub x; queue := queue x; tag := tag x; consuming := consuming x; closed := closed x;
  loopDone := loopDone x; loopStop := loopStop x; unregister := true; active := active x |}.

Definition set_active (hs : gset nat) (x : consumer) : consumer := {|
  ch := ch x; pub := pub x; queue := queue x; tag := tag x; consuming := consuming x; closed := closed x;
  loopDone := loopDone x; loopStop := loopStop x; unregister := unregister x; active := hs |}.

(** The second critical section of [restoreTopology]. *)
Definition install (n : nat) (q : string) (x : consumer) : consumer := {|
  ch := Some n; pub := Some n; queue := q; tag := tag x; consuming := consuming x; closed := closed x;
  loopDone := None; loopStop := None; unregister := unregister x; active := active x |}.

Definition keep (n : nat) (x : consumer) : bool :=
  consuming x && negb (closed x) && bool_decide (ch x = Some n).

(** The second critical section of [startConsuming]. *)
Definition enlist (n : nat) (tg : string) (l : nat) (x : consumer) : consumer := {|
  ch := ch x; pub := pub x; queue := queue x; tag := if keep n x then tg else tag x; consuming := consuming x;
  closed := closed x; loopDone := Some l; loopStop := Some l; unregister := unregister x; active := active x |}.

(** The critical section of [stopConsuming], and what it is left to cancel. *)
Definition stopConsuming (x : consumer) : consumer := {|
  ch := ch x; pub := pub x; queue := queue x; tag := ""; consuming := false; closed := closed x;
  loopDone := loopDone x; loopStop := loopStop x; unregister := unregister x; active := active x |}.

Definition to_cancel (x : consumer) : list (nat * string) :=
  match ch x with
  | Some n => if decide (tag x = "") then [] else [(n, tag x)]
  | None => []
  end.

(** The critical section of [close]. *)
Definition close_fields (x : consumer) : consumer := {|
  ch := None; pub := None; queue := queue x; tag := tag x; consuming := consuming x; closed := true;
  loopDone := loopDone x; loopStop := loopStop x; unregister := unregister x; active := active x |}.

(** [connectionLost]: only a late-ack consumer's work is wasted. *)
Definition connectionLost (lateAck : bool) (x : consumer) (w : world) : world :=
  if lateAck then cancelActive ErrDisconnected (active x) w else w.

(** Whether the end of a loop on channel [n] is unexpected. *)
Definition unexpected (n : nat) (x : consumer) : bool :=
  consuming x && negb (closed x) && bool_decide (ch x = Some n).

(** ** Operations on the threads *)

Definition set_restoring (r : option (restorer * restore_pc)) (y : threads) : threads := {|
  restoring := r; starting := starting y; registered := registered y; cancels := cancels y; closings := closings y;
  closer := closer y; deciding := deciding y; recoveries := recoveries y; sess := sess y; stranded := stranded y |}.

Definition set_starting (st : start_pc) (y : threads) : threads := {|
  restoring := restoring y; starting := st; registered := registered y; cancels := cancels y; closings := closings y;
  closer := closer y; deciding := deciding y; recoveries := recoveries y; sess := sess y; stranded := stranded y |}.

Definition set_cancels (l : list (nat * string)) (y : threads) : threads := {|
  restoring := restoring y; starting := starting y; registered := registered y; cancels := l; closings := closings y;
  closer := closer y; deciding := deciding y; recoveries := recoveries y; sess := sess y; stranded := stranded y |}.

Definition set_closings (n : nat) (y : threads) : threads := {|
  restoring := restoring y; starting := starting y; registered := registered y; cancels := cancels y; closings := n;
  closer := closer y; deciding := deciding y; recoveries := recoveries y; sess := sess y; stranded := stranded y |}.

Definition set_closer (p : close_pc) (y : threads) : threads := {|
  restoring := restoring y; starting := starting y; registered := registered y; cancels := cancels y;
  closings := closings y; closer := p; deciding := deciding y; recoveries := recoveries y; sess := sess y; stranded := stranded y |}.

Definition set_recoveries (l : list nat) (y : threads) : threads := {|
  restoring := restoring y; starting := starting y; registered := registered y; cancels := cancels y;
  closings := closings y; closer := closer y; deciding := deciding y; recoveries := l; sess := sess y; stranded := stranded y |}.

Definition set_deciding (l : list nat) (y : threads) : threads := {|
  restoring := restoring y; starting := starting y; registered := registered y; cancels := cancels y;
  closings := closings y; closer := closer y; deciding := l; recoveries := recoveries y; sess := sess y;
  stranded := stranded y |}.

Definition set_sess (p : session_phase) (y : threads) : threads := {|
  restoring := restoring y; starting := starting y; registered := registered y; cancels := cancels y;
  closings := closings y; closer := closer y; deciding := deciding y; recoveries := recoveries y; sess := p;
  stranded := stranded y |}.

Definition strand (b : bool) (y : threads) : threads := {|
  restoring := restoring y; starting := starting y; registered := registered y; cancels := cancels y;
  closings := closings y; closer := closer y; deciding := deciding y; recoveries := recoveries y; sess := sess y;
  stranded := stranded y || b |}.

(** [b.sess.register(c)], or the removal of that registration. *)
Definition set_registered (b : bool) (y : threads) : threads := {|
  restoring := restoring y; starting := starting y; registered := b; cancels := cancels y; closings := closings y;
  closer := closer y; deciding := deciding y; recoveries := recoveries y; sess := sess y; stranded := stranded y |}.

(** A restore returns without an error: [attachOnce] registers the component,
    and a recovery is over. *)
Definition restored (who : restorer) (y : threads) : threads := {|
  restoring := None;
  starting := match who with Attach => Attached | _ => starting y end;
  registered := match who with Attach => true | _ => registered y end;
  cancels := cancels y; closings := closings y; closer := closer y; deciding := deciding y;
  recoveries := match who with Recovery dead => remove Nat.eq_dec dead (recoveries y) | _ => recoveries y end;
  sess := match who with Supervisor => Back | _ => sess y end; stranded := false |}.

(** A restore returns an error before it installed a channel: [attach] may try
    again, the supervisor does on another connection, a recovery after a pause. *)
Definition restore_failed (y : threads) : threads := set_restoring None y.

(** A restore returns an error after it installed its channel: the same, but the
    next try of a recovery finds its own channel installed. *)
Definition consume_failed (who : restorer) (y : threads) : threads :=
  strand (match who with Recovery _ => true | _ => false end) (set_restoring None y).

(** What follows the retirement of the old channel. *)
Definition resume_or_return (who : restorer) (resume : bool) (y : threads) : threads :=
  if resume then set_restoring (Some (who, Starting)) y else restored who y.

(** ** Steps *)

(** Whether a restore by [who] may begin: the supervisor restores what is
    registered, [attachOnce] a component being started on a ready session, a
    recovery a consumer that still wants deliveries and still holds the dead
    channel, on a ready session whose connection is open. *)
Definition may_restore (who : restorer) (x : consumer) (y : threads) : bool :=
  match who with
  | Supervisor => registered y && bool_decide (sess y = Down)
  | Attach => bool_decide (starting y = Attaching) && ready (sess y)
  | Recovery dead =>
      bool_decide (dead ∈ recoveries y) && bool_decide (sess y = Up) && consuming x && negb (closed x) &&
      bool_decide (ch x = Some dead)
  end.

Inductive step : life -> life -> Prop :=
(* restoreTopology: the first check *)
| restore_begin x w y who :
    restoring y = None -> closed x = false -> may_restore who x y = true ->
    step (Life x w y) (Life x w (set_restoring (Some (who, Checked)) y))
| restore_nothing x w y who :
    restoring y = None -> closed x = true -> may_restore who x y = true ->
    step (Life x w y) (Life x w (restored who y))
(* its declarations, on a fresh channel, which a failure closes again *)
| restore_declare x w y who q :
    restoring y = Some (who, Checked) ->
    step (Life x w y) (Life x (fresh_channel w) (set_restoring (Some (who, Declared (next w) q)) y))
| restore_fail x w y who :
    restoring y = Some (who, Checked) ->
    step (Life x w y) (Life x w (restore_failed y))
| restore_install x w y who n q :
    restoring y = Some (who, Declared n q) -> closed x = false ->
    step (Life x w y) (Life (install n q x) w
      match pub x with
      | Some old => if decide (old = n) then resume_or_return who (consuming x) y
                    else set_restoring (Some (who, RetireStop old (loopStop x) (loopDone x) (consuming x))) y
      | None => resume_or_return who (consuming x) y
      end)
| restore_too_late x w y who n q :
    restoring y = Some (who, Declared n q) -> closed x = true ->
    step (Life x w y) (Life x (close_channel n w) (restored who y))
| retire_stop x w y who old stop done r :
    restoring y = Some (who, RetireStop old stop done r) ->
    step (Life x w y) (Life x (close_stop stop w) (set_restoring (Some (who, RetirePub old done r)) y))
| retire_pub x w y who old done r :
    restoring y = Some (who, RetirePub old done r) ->
    step (Life x w y) (Life x (close_channel old w) (set_restoring (Some (who, AwaitLoop done r)) y))
| retire_await x w y who done r :
    restoring y = Some (who, AwaitLoop done r) -> (forall l, done = Some l -> l ∈ dones w) ->
    step (Life x w y) (Life x w (resume_or_return who r y))
(* startConsuming *)
| start_read x w y who n :
    restoring y = Some (who, Starting) -> ch x = Some n ->
    step (Life x w y) (Life x w (set_restoring (Some (who, Consume n)) y))
| start_no_channel x w y who :
    restoring y = Some (who, Starting) -> ch x = None ->
    step (Life x w y) (Life x w (consume_failed who y))
| start_consume x w y who n tg :
    restoring y = Some (who, Consume n) -> n ∈ opens w -> tg ∉ used w -> tg <> "" ->
    step (Life x w y) (Life x (register_tag n tg w) (set_restoring (Some (who, Registered n tg)) y))
| start_consume_fail x w y who n :
    restoring y = Some (who, Consume n) ->
    step (Life x w y) (Life x w (consume_failed who y))
| start_enlist x w y who n tg :
    restoring y = Some (who, Registered n tg) ->
    step (Life x w y) (Life (enlist n tg (next w) x) (spawn n tg w)
      (if keep n x then restored who y else set_restoring (Some (who, Unwanted n tg)) y))
| start_unwanted x w y who n tg :
    restoring y = Some (who, Unwanted n tg) ->
    step (Life x w y) (Life x (cancel_tag n tg w) (restored who y))
(* start; its callers do not call it again while it runs or once it succeeded *)
| start_call x w y :
    starting y = NotStarted -> closed x = false ->
    step (Life x w y) (Life (set_consuming true x) w (set_starting Attaching y))
| start_error x w y :
    starting y = Attaching -> (forall p, restoring y <> Some (Attach, p)) ->
    step (Life x w y) (Life (set_consuming false x) w (set_starting NotStarted y))
| start_bus_closed x w y :
    starting y = Attached -> closed x = true ->
    step (Life x w y) (Life (set_consuming false x) w (set_starting StartReturned y))
| start_ok x w y :
    starting y = Attached ->
    step (Life x w y) (Life (set_unregister x) w (set_starting StartReturned y))
(* stopConsuming, and close, which begins with it *)
| stop_call x w y (closing : bool) :
    step (Life x w y) (Life (stopConsuming x) w
      (set_closings (if closing then S (closings y) else closings y) (set_cancels (to_cancel x ++ cancels y) y)))
| stop_cancel x w y n tg l :
    cancels y ≡ₚ (n, tg) :: l ->
    step (Life x w y) (Life x (cancel_tag n tg w) (set_cancels l y))
| close_again x w y k :
    closings y = S k -> closed x = true ->
    step (Life x w y) (Life x w (set_closings k y))
| close_first x w y k :
    closings y = S k -> closed x = false ->
    step (Life x w y) (Life (close_fields x) w
      (set_registered (registered y && negb (unregister x))
        (set_closer (CloseStop (loopStop x) (pub x) (loopDone x)) (set_closings k y))))
| close_stop_loop x w y stop p done :
    closer y = CloseStop stop p done ->
    step (Life x w y) (Life x (close_stop stop w) (set_closer (CloseHandlers p done) y))
| close_handlers x w y p done :
    closer y = CloseHandlers p done ->
    step (Life x w y) (Life x (cancelActive ErrClosed (active x) w) (set_closer (ClosePub p done) y))
| close_pub_channel x w y p done :
    closer y = ClosePub p done ->
    step (Life x w y) (Life x (close_pub p w) (set_closer (CloseAwait done) y))
| close_await x w y done :
    closer y = CloseAwait done -> (forall l, done = Some l -> l ∈ dones w) ->
    step (Life x w y) (Life x w (set_closer CloseReturned y))
(* the loops *)
| loop_park x w y l i :
    loops w !! l = Some i -> lstate i = Reading -> (lch i, ltag i) ∈ regs w ->
    step (Life x w y) (Life x (move_loop l i Parked w) y)
| loop_slot x w y l i :
    loops w !! l = Some i -> lstate i = Parked ->
    step (Life x w y) (Life x (move_loop l i Reading w) y)
| loop_let_go x w y l i :
    loops w !! l = Some i -> lstate i = Parked -> l ∈ stops w ->
    step (Life x w y) (Life x (move_loop l i Reading w) y)
| loop_end x w y l i :
    loops w !! l = Some i -> lstate i = Reading -> (lch i, ltag i) ∉ regs w ->
    step (Life x w y) (Life x (close_done l (move_loop l i Ended w))
      (if unexpected (lch i) x then set_deciding (lch i :: deciding y) y else y))
| loop_recover x w y n l :
    deciding y ≡ₚ n :: l -> ready (sess y) = true ->
    step (Life x w y) (Life x w (set_recoveries (n :: recoveries y) (set_deciding l y)))
| loop_leave x w y n l :
    deciding y ≡ₚ n :: l -> ready (sess y) = false ->
    step (Life x w y) (Life x w (strand (bool_decide (sess y = Back)) (set_deciding l y)))
(* tryRecover finds nothing to do, or the session not ready *)
| recover_stale x w y dead :
    dead ∈ recoveries y -> restoring y = None ->
    closed x = true \/ consuming x = false \/ ch x <> Some dead ->
    step (Life x w y) (Life x w (set_recoveries (remove Nat.eq_dec dead (recoveries y)) y))
| recover_not_ready x w y dead :
    dead ∈ recoveries y -> restoring y = None -> sess y <> Up ->
    step (Life x w y)
      (Life x w (strand (bool_decide (sess y = Back)) (set_recoveries (remove Nat.eq_dec dead (recoveries y)) y)))
(* the session; the supervisor restores what is registered before it announces
   the connection *)
| session_dies x w y : sess y = Up -> step (Life x w y) (Life x w (set_sess Dying y))
| session_lost x w y lateAck :
    sess y = Dying -> step (Life x w y) (Life x (connectionLost lateAck x w) (set_sess Down y))
| session_relost x w y : sess y = Back -> step (Life x w y) (Life x w (set_sess Down y))
| session_announced x w y :
    sess y = Back \/ sess y = Down /\ registered y = false -> restoring y = None ->
    step (Life x w y) (Life x w (set_sess Up y))
(* the environment: channels die, handlers begin and end *)
| channel_dies x w y n :
    step (Life x w y) (Life x (close_channel n w) y)
| broker_cancels x w y n tg :
    step (Life x w y) (Life x (cancel_tag n tg w) y)
| handler_begins x w y h :
    causes w !! h = None -> step (Life x w y) (Life (set_active ({[h]} ∪ active x) x) w y)
| handler_ends x w y h :
    step (Life x w y) (Life (set_active (active x ∖ {[h]}) x) w y).

Definition init : life := Life newConsumer
  {| opens := ∅; regs := ∅; loops := ∅; stops := ∅; dones := ∅; panicked := false; causes := ∅; next := 0; used := ∅ |}
  {| restoring := None; starting := NotStarted; registered := false; cancels := []; closings := 0; closer := NotClosing;
     deciding := []; recoveries := []; sess := Up; stranded := false |}.

Definition reachable (s : life) : Prop := rtc step init s.

(** ** Invariants *)

Definition started (y : threads) : Prop := starting y = Attached \/ starting y = StartReturned.

(** Channel [n] is about to be closed, by the restore that replaced it or by
    [close]. *)
Definition doomed (y : threads) (n : nat) : Prop :=
  match restoring y with
  | Some (_, RetireStop old _ _ _) | Some (_, RetirePub old _ _) => old = n
  | _ => False
  end \/
  match closer y with
  | CloseStop _ p _ | CloseHandlers p _ | ClosePub p _ => p = Some n
  | _ => False
  end.

(** Loop [l] reads channel [n]. *)
Definition reads (w : world) (l n : nat) : Prop := exists i, loops w !! l = Some i /\ lch i = n.

(** Loop [l] was told to stop and its channel is closed. *)
Definition released (w : world) (l : nat) : Prop :=
  l ∈ stops w /\ exists i, loops w !! l = Some i /\ lch i ∉ opens w.

(** Numbers and tags are fresh, and the pieces of the world fit together. *)
Record world_ok (w : world) : Prop := {
  wk_opens : forall n, n ∈ opens w -> n < next w;
  wk_regs : forall n tg, (n, tg) ∈ regs w -> n ∈ opens w /\ tg <> "" /\ tg ∈ used w;
  wk_loops : forall l i, loops w !! l = Some i -> l < next w /\ lch i < next w /\ ltag i ∈ used w;
  wk_tags : forall l k i j, loops w !! l = Some i -> loops w !! k = Some j -> ltag i = ltag j -> l = k;
  wk_stops : forall l, l ∈ stops w -> l < next w;
  wk_dones : forall l, l ∈ dones w <-> exists i, loops w !! l = Some i /\ lstate i = Ended
}.

(** What the restore in progress holds was made by it. *)
Definition pc_known (x : consumer) (w : world) (r : option (restorer * restore_pc)) : Prop :=
  match r with
  | Some (_, Declared n _) => n < next w /\ ch x <> Some n
  | Some (_, Consume n) => n < next w
  | Some (_, Registered n tg) => n < next w /\ tg ∈ used w /\ (forall l i, loops w !! l = Some i -> ltag i <> tg)
  | _ => True
  end.

Record refs_ok (x : consumer) (w : world) (y : threads) : Prop := {
  rk_ch : forall n, ch x = Some n -> n < next w;
  rk_pub : pub x = ch x;
  rk_stop : forall l, loopStop x = Some l -> l < next w;
  rk_pc : pc_known x w (restoring y)
}.

Definition pc_fits (x : consumer) (y : threads) (r : option (restorer * restore_pc)) : Prop :=
  match r with
  | Some (Recovery dead, Checked) => dead ∈ recoveries y /\ (closed x = true \/ ch x = Some dead)
  | Some (_, RetireStop _ _ _ r) | Some (_, RetirePub _ _ r) | Some (_, AwaitLoop _ r) =>
      r = false -> consuming x = false
  | Some (_, Consume n) | Some (_, Registered n _) => closed x = true \/ ch x = Some n
  | Some (_, Unwanted _ _) => consuming x = false \/ closed x = true
  | _ => True
  end.

(** Which threads can run together. *)
Record threads_ok (x : consumer) (w : world) (y : threads) : Prop := {
  tk_attach : forall p, restoring y = Some (Attach, p) -> starting y = Attaching;
  tk_other : forall who p, restoring y = Some (who, p) -> who <> Attach -> started y;
  tk_super : forall p, restoring y = Some (Supervisor, p) -> sess y = Down;
  tk_reg : registered y = true -> started y;
  tk_recover : deciding y ++ recoveries y <> [] -> started y;
  tk_registered : started y -> closed x = false -> registered y = true;
  tk_closer : closed x = false -> closer y = NotClosing;
  tk_loops : forall l i, loops w !! l = Some i -> started y \/ exists n tg, restoring y = Some (Attach, Unwanted n tg);
  tk_pc : pc_fits x y (restoring y)
}.

Ltac loop_cases :=
  repeat match goal with
  | H : <[_ := _]> _ !! _ = Some _ |- _ => apply lookup_insert_Some in H as [[<- <-]|[? H]]
  end.

Lemma fresh_channel_ok w : world_ok w -> world_ok (fresh_channel w).
Proof.
  intros [Ho Hr Hl Ht Hs Hd]. split; simpl; try done.
  - intros n. rewrite elem_of_union, elem_of_singleton. intros [->|?%Ho]; lia.
  - intros n tg ?%Hr. set_solver.
  - intros l i ?%Hl. naive_solver lia.
  - intros l ?%Hs. lia.
Qed.

Lemma close_channel_ok n w : world_ok w -> world_ok (close_channel n w).
Proof.
  intros [Ho Hr Hl Ht Hs Hd]. split; simpl; try done.
  - set_solver.
  - intros m tg. rewrite elem_of_filter. simpl. intros [? ?%Hr]. set_solver.
Qed.

Lemma register_tag_ok n tg w : n ∈ opens w -> tg <> "" -> world_ok w -> world_ok (register_tag n tg w).
Proof. intros ? ? [Ho Hr Hl Ht Hs Hd]. split; simpl; try done; set_solver. Qed.

Lemma cancel_tag_ok n tg w : world_ok w -> world_ok (cancel_tag n tg w).
Proof. intros [Ho Hr Hl Ht Hs Hd]. split; simpl; try done. set_solver. Qed.

Lemma close_stop_ok o w : (forall l, o = Some l -> l < next w) -> world_ok w -> world_ok (close_stop o w).
Proof. intros Hlt [Ho Hr Hl Ht Hs Hd]. destruct o; simpl; [|done]. split; simpl; try done. set_solver. Qed.

Lemma spawn_ok n tg w :
  n < next w -> tg ∈ used w -> (forall l i, loops w !! l = Some i -> ltag i <> tg) -> world_ok w -> world_ok (spawn n tg w).
Proof.
  intros Hn Htg Hu [Ho Hr Hl Ht Hs Hd]. split; simpl; try done.
  - intros m ?%Ho. lia.
  - intros l i Hi. loop_cases; simpl; [split_and!; [lia|lia|done]|]. apply Hl in Hi. naive_solver lia.
  - intros l k i j Hi Hk. loop_cases; simpl; [done|naive_solver..].
  - intros l ?%Hs. lia.
  - intros l. rewrite Hd. split; intros (i & Hi & He).
    + exists i. split; [|done]. apply Hl in Hi as H. rewrite lookup_insert_ne by lia. done.
    + loop_cases; [done|]. eauto.
Qed.

Lemma move_loop_ok l i st w :
  loops w !! l = Some i -> lstate i <> Ended -> st <> Ended -> world_ok w -> world_ok (move_loop l i st w).
Proof.
  intros Hli Hi Hst [Ho Hr Hl Ht Hs Hd]. split; simpl; try done.
  - intros k j Hk. loop_cases; simpl; [by eapply Hl|by apply Hl].
  - intros k m a b Hk Hm. loop_cases; simpl; naive_solver.
  - intros k. rewrite Hd. split; intros (j & Hk & Hj).
    + exists j. rewrite lookup_insert_ne by naive_solver. done.
    + loop_cases; [done|]. eauto.
Qed.

Lemma end_loop_ok l i w :
  loops w !! l = Some i -> lstate i <> Ended -> world_ok w -> world_ok (close_done l (move_loop l i Ended w)).
Proof.
  intros Hli Hi [Ho Hr Hl Ht Hs Hd]. split; simpl; try done.
  - intros k j Hk. loop_cases; simpl; [by eapply Hl|by apply Hl].
  - intros k m a b Hk Hm. loop_cases; simpl; naive_solver.
  - intros k. rewrite elem_of_union, elem_of_singleton, Hd. destruct (decide (k = l)) as [->|Hk].
    + rewrite lookup_insert_eq. naive_solver.
    + rewrite lookup_insert_ne by done. naive_solver.
Qed.

Lemma cancelActive_ok cause hs w : world_ok w -> world_ok (cancelActive cause hs w).
Proof. intros []. by split. Qed.

(** The stop channels threads are about to close. *)
Definition stop_held (y : threads) (l : nat) : Prop :=
  match restoring y with Some (_, RetireStop _ (Some k) _ _) => k = l | _ => False end \/
  match closer y with CloseStop (Some k) _ _ => k = l | _ => False end.

Lemma world_ok_step s s' : step s s' -> refs_ok (consumer_of s) (world_of s) (threads_of s) -> (forall l, stop_held (threads_of s) l -> l < next (world_of s)) ->
  world_ok (world_of s) -> world_ok (world_of s').
Proof.
  intros Hs [Hch Hpub Hstop Hpc] Hst W. unfold stop_held in Hst. destruct Hs; simpl in *; try done.
  all: repeat match goal with H : restoring _ = _ |- _ => rewrite H in * | H : closer _ = _ |- _ => rewrite H in * end; simpl in *.
  - by apply fresh_channel_ok.
  - by apply close_channel_ok.
  - apply close_stop_ok; [|done]. intros l ->. apply Hst. by left.
  - by apply close_channel_ok.
  - by apply register_tag_ok.
  - destruct Hpc as (? & ? & ?). by apply spawn_ok.
  - by apply cancel_tag_ok.
  - by apply cancel_tag_ok.
  - apply close_stop_ok; [|done]. intros l ->. apply Hst. by right.
  - by apply cancelActive_ok.
  - destruct p; simpl; [by apply close_channel_ok|done].
  - apply move_loop_ok; congruence.
  - apply move_loop_ok; congruence.
  - apply move_loop_ok; congruence.
  - apply end_loop_ok; congruence.
  - destruct lateAck; simpl; [by apply cancelActive_ok|done].
  - by apply close_channel_ok.
  - by apply cancel_tag_ok.
Qed.

(** The world only grows: numbers, tags; and a step that spawns no loop keeps
    the loops' tags. *)
Definition grows (w w' : world) : Prop :=
  next w <= next w' /\ used w ⊆ used w' /\
  forall l i', loops w' !! l = Some i' -> exists i, loops w !! l = Some i /\ ltag i = ltag i' /\ lch i = lch i'.

Lemma grows_refl w : grows w w.
Proof. split_and!; [lia|done|eauto]. Qed.

Lemma fresh_channel_grows w : grows w (fresh_channel w).
Proof. split_and!; simpl; [lia|done|eauto]. Qed.
Lemma close_channel_grows n w : grows w (close_channel n w).
Proof. split_and!; simpl; [lia|done|eauto]. Qed.
Lemma close_pub_grows p w : grows w (close_pub p w).
Proof. destruct p; simpl; [apply close_channel_grows|apply grows_refl]. Qed.
Lemma register_tag_grows n tg w : grows w (register_tag n tg w).
Proof. split_and!; simpl; [lia|set_solver|eauto]. Qed.
Lemma cancel_tag_grows n tg w : grows w (cancel_tag n tg w).
Proof. split_and!; simpl; [lia|done|eauto]. Qed.
Lemma close_stop_grows o w : grows w (close_stop o w).
Proof. destruct o; simpl; [|apply grows_refl]. split_and!; simpl; [lia|done|eauto]. Qed.
Lemma move_loop_grows l i st w : loops w !! l = Some i -> grows w (move_loop l i st w).
Proof. intros Hl. split_and!; simpl; [lia|done|]. intros k j Hk. loop_cases; eauto. Qed.
Lemma end_loop_grows l i st w : loops w !! l = Some i -> grows w (close_done l (move_loop l i st w)).
Proof. intros Hl. destruct (move_loop_grows l i st w Hl) as (H1 & H2 & H3). by split_and!. Qed.
Lemma cancelActive_grows cause hs w : grows w (cancelActive cause hs w).
Proof. split_and!; simpl; [lia|done|eauto]. Qed.
Lemma connectionLost_grows b x w : grows w (connectionLost b x w).
Proof. destruct b; simpl; [apply cancelActive_grows|apply grows_refl]. Qed.

Create HintDb life.
#[local] Hint Resolve grows_refl fresh_channel_grows close_channel_grows close_pub_grows register_tag_grows cancel_tag_grows
  close_stop_grows move_loop_grows end_loop_grows cancelActive_grows connectionLost_grows : life.

Lemma pc_known_grows x x' w w' r :
  grows w w' -> (ch x' = ch x \/ ch x' = None) -> pc_known x w r -> pc_known x' w' r.
Proof.
  intros (Hn & Hu & Hl) Hx. destruct r as [[who p]|]; [|done]. destruct p; simpl; try done.
  - intros [? ?]. split; [lia|]. destruct Hx as [->| ->]; done.
  - lia.
  - intros (? & ? & Hf). split_and!; [lia|set_solver|]. intros l i (j & Hj & <- & _)%Hl. by eapply Hf.
Qed.

(** Every step but the spawning one makes the world grow. *)
Lemma refs_ok_frame x x' w w' y y' :
  grows w w' -> (ch x' = ch x \/ ch x' = None) -> pub x' = ch x' -> (loopStop x' = loopStop x \/ loopStop x' = None) ->
  pc_known x' w' (restoring y') -> refs_ok x w y -> refs_ok x' w' y'.
Proof.
  intros (Hn & Hu & Hl) Hx Hp Hs Hpc [Hch Hpub Hstop _]. split; [| done | |done].
  - intros n Hc. destruct Hx as [E|E]; rewrite E in Hc; [|done]. apply Hch in Hc. lia.
  - intros l Hc. destruct Hs as [E|E]; rewrite E in Hc; [|done]. apply Hstop in Hc. lia.
Qed.

Lemma restoring_consume_failed who y : restoring (consume_failed who y) = None.
Proof. by destruct who. Qed.
Lemma restoring_resume who r y :
  restoring (resume_or_return who r y) = if r then Some (who, Starting) else None.
Proof. by destruct r. Qed.

Lemma refs_ok_step s s' : step s s' -> world_ok (world_of s) -> refs_ok (consumer_of s) (world_of s) (threads_of s) -> refs_ok (consumer_of s') (world_of s') (threads_of s').
Proof.
  intros Hs W H. pose proof H as [Hch Hpub Hstop Hpc]. destruct Hs; simpl in *;
    repeat match goal with E : restoring _ = Some _ |- _ => rewrite E in * end; simpl in *.
  all: try (eapply refs_ok_frame; [..|exact H]; simpl; eauto using pc_known_grows with life;
    rewrite ?restoring_consume_failed, ?restoring_resume; simpl; by repeat case_match).
  - (* declare *) eapply refs_ok_frame; [..|exact H]; simpl; eauto with life. split; [lia|]. intros E%Hch. lia.
  - (* install *) split; simpl; [naive_solver|done..|]. destruct Hpc as [Hlt Hne].
    destruct (pub x); repeat case_match; simpl; try done. all: rewrite restoring_resume; by destruct (consuming x).
  - (* consume *) eapply refs_ok_frame; [..|exact H]; simpl; eauto with life. split_and!; [done|set_solver|].
    intros l i Hl E. apply (wk_loops _ W) in Hl. destruct Hl as (_ & _ & Hl). congruence.
  - (* enlist *) destruct Hpc as (Hn & Ht & Hf). split; simpl; [intros m Hm; apply Hch in Hm; lia|done|intros l [= <-]; lia|].
    by case_match.
  - destruct (unexpected (lch i) x); simpl; eapply refs_ok_frame; try exact H; simpl; eauto using pc_known_grows with life.
Qed.

(** A restore by [who] is in its place. *)
Definition permitted (who : restorer) (y : threads) : Prop :=
  match who with Attach => starting y = Attaching | Supervisor => started y /\ sess y = Down | Recovery _ => started y end.

Lemma restore_permitted x w y who p : threads_ok x w y -> restoring y = Some (who, p) -> permitted who y.
Proof.
  intros [Hat Hot Hsu _ _ _ _ _ _] E. destruct who; simpl; [by eapply Hat|split; [by eapply Hot|by eapply Hsu]|by eapply Hot].
Qed.

Lemma may_restore_permitted x w y who : threads_ok x w y -> may_restore who x y = true -> permitted who y.
Proof.
  intros [_ _ _ Hreg Hrec _ _ _ _]. destruct who; simpl; rewrite ?andb_true_iff, ?bool_decide_eq_true.
  - by intros [? _].
  - intros [? ?]. auto.
  - intros [[[[Hin _] _] _] _]. apply Hrec. intros [_ E]%app_eq_nil. rewrite E in Hin. by apply elem_of_nil in Hin.
Qed.

(** A loop of a process whose start has not succeeded yet is one its restore no
    longer wants. *)
Definition loops_owned (w : world) (y : threads) : Prop :=
  forall l i, loops w !! l = Some i -> started y \/ exists n tg, restoring y = Some (Attach, Unwanted n tg).

Lemma loops_owned_grows w w' y : grows w w' -> loops_owned w y -> loops_owned w' y.
Proof. intros (_ & _ & Hl) H l i (j & Hj & _)%Hl. by eapply H. Qed.

Lemma threads_ok_move x x' w w' y who p p' :
  threads_ok x w y -> permitted who y -> (restoring y = None \/ restoring y = Some (who, p)) ->
  (forall n tg, p <> Unwanted n tg) -> grows w w' -> closed x' = closed x ->
  pc_fits x' y (Some (who, p')) -> threads_ok x' w' (set_restoring (Some (who, p')) y).
Proof.
  intros [Hat Hot Hsu Hreg Hrec Hrg Hcl Hlo Hpc] Hp Hr Hu Hg Hc Hf. split; simpl; try done.
  - by intros q [= -> ->].
  - intros wh q [= -> ->] Hne. destruct wh; [done|by destruct Hp|done].
  - intros q [= -> ->]. by destruct Hp.
  - by rewrite Hc.
  - by rewrite Hc.
  - intros l i (j & Hj & _)%Hg. destruct (Hlo _ _ Hj) as [?|(n & tg & E)]; [by left|].
    destruct Hr as [Hr|Hr]; rewrite Hr in E; [done|]. injection E as -> ->. by destruct (Hu n tg).
Qed.

Lemma started_restored who y : permitted who y -> started (restored who y).
Proof. destruct who; simpl; intros H; [by left|by destruct H|done]. Qed.

Lemma threads_ok_restored x x' w w' y who :
  threads_ok x w y -> permitted who y -> closed x' = closed x -> threads_ok x' w' (restored who y).
Proof.
  intros [Hat Hot Hsu Hreg Hrec Hrg Hcl Hlo Hpc] Hp Hc. pose proof (started_restored who y Hp). split; simpl; try done.
  - rewrite Hc. destruct who; simpl; [done|by destruct Hp; auto|auto].
  - by rewrite Hc.
  - by left.
Qed.

Lemma threads_ok_resume x x' w w' y who p r :
  threads_ok x w y -> restoring y = Some (who, p) -> (forall n tg, p <> Unwanted n tg) -> grows w w' ->
  closed x' = closed x -> threads_ok x' w' (resume_or_return who r y).
Proof.
  intros H E Hu Hg Hc. pose proof (restore_permitted _ _ _ _ _ H E). destruct r; simpl.
  - eapply threads_ok_move; eauto. by destruct who.
  - by eapply threads_ok_restored.
Qed.

(** A restore that failed leaves the others as they were. *)
Lemma threads_ok_failed x w y y' who p :
  threads_ok x w y -> restoring y = Some (who, p) -> (forall n tg, p <> Unwanted n tg) ->
  restoring y' = None -> starting y' = starting y -> registered y' = registered y ->
  deciding y' = deciding y -> recoveries y' = recoveries y -> closer y' = closer y -> threads_ok x w y'.
Proof.
  intros [Hat Hot Hsu Hreg Hrec Hrg Hcl Hlo Hpc] E Hu E1 E2 E3 E4 E5 E6. unfold started in *.
  split; rewrite ?E1, ?E3, ?E4, ?E5, ?E6; unfold started; rewrite ?E2; try done.
  intros l i Hl. destruct (Hlo _ _ Hl) as [?|(n & tg & E')]; [by left|]. rewrite E in E'. injection E' as -> ->.
  by destruct (Hu n tg).
Qed.

(** Steps of the others, the restore staying where it is. *)
Lemma threads_ok_frame x x' w w' y y' :
  threads_ok x w y -> grows w w' -> restoring y' = restoring y ->
  (starting y' = starting y \/ starting y = Attached /\ starting y' = StartReturned) ->
  (sess y = Down -> restoring y <> None -> sess y' = Down) ->
  (registered y' = true -> registered y = true) -> (deciding y' ++ recoveries y' <> [] -> started y) ->
  (forall d, d ∈ recoveries y -> restoring y = None \/ d ∈ recoveries y') ->
  (closed x' = false -> closed x = false /\ closer y' = closer y /\ registered y' = registered y) ->
  (closed x' = true \/ closed x = false /\ ch x' = ch x) -> (consuming x' = false \/ consuming x' = consuming x) ->
  threads_ok x' w' y'.
Proof.
  intros [Hat Hot Hsu Hreg Hrec Hrg Hcl Hlo Hpc] Hg E1 E2 Es E3 E4 E5 E6 E7 E8.
  assert (started y -> started y') as Hs by (unfold started; destruct E2 as [->|[_ ->]]; auto).
  split; rewrite ?E1; eauto.
  - intros p E. specialize (Hat p E). destruct E2 as [->|[? _]]; congruence.
  - intros p E. apply Es; [by eapply Hsu|by rewrite E].
  - intros Hst Hc. destruct (E6 Hc) as (Hc' & _ & ->). apply Hrg; [|done]. unfold started in *.
    destruct E2 as [E2|[? _]]; [by rewrite E2 in Hst|by left].
  - intros Hc. destruct (E6 Hc) as (Hc' & -> & _). eauto.
  - intros l i (j & Hj & _)%Hg. destruct (Hlo _ _ Hj); auto.
  - assert (forall n, closed x = true \/ ch x = Some n -> closed x' = true \/ ch x' = Some n) as Hch.
    { intros n Hn. destruct E7 as [?|[Hf ->]]; [by left|]. destruct Hn; [congruence|by right]. }
    assert (consuming x = false -> consuming x' = false) as Hco by (destruct E8 as [?| ->]; auto).
    assert (closed x = true -> closed x' = true) as Hcd by (destruct E7 as [?|[? _]]; [done|congruence]).
    destruct (restoring y) as [[who p]|]; [|done]. destruct p, who; simpl in *; auto.
    + destruct Hpc as [Hd Hx]. split; [by destruct (E5 _ Hd)|auto].
    + destruct Hpc; auto.
    + destruct Hpc; auto.
    + destruct Hpc; auto.
Qed.

Lemma threads_ok_enlist x w y who n tg :
  threads_ok x w y -> restoring y = Some (who, Registered n tg) ->
  threads_ok (enlist n tg (next w) x) (spawn n tg w)
    (if keep n x then restored who y else set_restoring (Some (who, Unwanted n tg)) y).
Proof.
  intros H E. pose proof (restore_permitted _ _ _ _ _ H E) as Hp. pose proof H as [Hat Hot Hsu Hreg Hrec Hrg Hcl Hlo Hpc].
  destruct (keep n x) eqn:Hk; [by eapply threads_ok_restored|]. split; simpl; try done.
  - by intros p [= -> <-].
  - intros wh p [= -> <-] Hne. destruct wh; [done|by destruct Hp|done].
  - intros p [= -> <-]. by destruct Hp.
  - intros l i _. destruct who; [right; eauto|by destruct Hp; left|by left].
  - rewrite E in Hpc. assert (closed x = true \/ ch x = Some n) as Hc by (by destruct who).
    enough (consuming x = false \/ closed x = true) by (by destruct who). unfold keep in Hk.
    destruct (consuming x); [|by left]. right. destruct (closed x); [done|]. simpl in Hk.
    rewrite bool_decide_eq_false in Hk. naive_solver.
Qed.

Lemma not_started_idle x w y :
  threads_ok x w y -> starting y = NotStarted ->
  restoring y = None /\ registered y = false /\ deciding y ++ recoveries y = [] /\ loops w = ∅.
Proof.
  intros [Hat Hot Hsu Hreg Hrec Hrg Hcl Hlo Hpc] E. unfold started in *.
  assert (restoring y = None) as Hr.
  { destruct (restoring y) as [[wh p]|] eqn:Er; [|done]. exfalso. destruct wh.
    - pose proof (Hat p eq_refl). congruence.
    - destruct (Hot _ p eq_refl); [done|congruence..].
    - destruct (Hot _ p eq_refl); [done|congruence..]. }
  split_and!; [done| | |].
  - destruct (registered y); [|done]. destruct Hreg; congruence.
  - destruct (deciding y ++ recoveries y); [done|]. destruct Hrec; [done|congruence..].
  - apply map_empty. intros l. destruct (loops w !! l) as [i|] eqn:El; [|done]. exfalso.
    destruct (Hlo _ _ El) as [[?|?]|(n & tg & ?)]; congruence.
Qed.

(** Frame goals: what the step leaves alone. *)
Ltac frame_threads H :=
  eapply threads_ok_frame; [exact H|by eauto with life|..]; simpl; auto;
  try (match goal with |- closed ?x = true \/ _ => destruct (closed x); auto end);
  try (let E := fresh in intros E; exfalso; match goal with Hcl : _ -> closer _ = NotClosing |- _ => specialize (Hcl E); congruence end).

Lemma threads_ok_step s s' : step s s' -> threads_ok (consumer_of s) (world_of s) (threads_of s) -> threads_ok (consumer_of s') (world_of s') (threads_of s').
Proof.
  intros Hs H. pose proof H as [Hat Hot Hsu Hreg Hrec Hrg Hcl Hlo Hpc].
  destruct Hs; simpl in *.
  all: try (pose proof (restore_permitted _ _ _ _ _ H ltac:(eassumption)) as Hp).
  all: try (pose proof (may_restore_permitted _ _ _ _ H ltac:(eassumption)) as Hp).
  all: try (by eapply threads_ok_restored).
  all: try (by eapply threads_ok_resume; eauto with life).
  all: try (by eapply threads_ok_failed; eauto; destruct who).
  all: try (match goal with E : restoring _ = Some _ |- _ => rewrite E in Hpc end; simpl in Hpc).
  all: try (by frame_threads H).
  - eapply (threads_ok_move _ _ _ _ _ _ Checked); eauto with life. destruct who; simpl; [done|done|].
    match goal with E : may_restore _ _ _ = true |- _ => simpl in E; apply andb_true_iff in E as [E ->%bool_decide_eq_true];
      rewrite !andb_true_iff, bool_decide_eq_true in E; destruct E as [[[? _] _] _] end. auto.
  - eapply threads_ok_move; eauto with life. by destruct who.
  - assert (threads_ok (install n q x) w (resume_or_return who (consuming x) y)) by (eapply threads_ok_resume; eauto with life).
    destruct (pub x); [case_decide|]; [done| |done]. eapply threads_ok_move; eauto with life. destruct who; simpl; auto.
  - eapply threads_ok_move; eauto with life.
  - eapply threads_ok_move; eauto with life.
  - eapply threads_ok_move; eauto with life. destruct who; simpl; auto.
  - eapply threads_ok_move; eauto with life.
  - by apply (threads_ok_enlist x w y who n tg).
  - (* start_call *) split; simpl; try done.
    all: destruct (not_started_idle _ _ _ H) as (Hn & Hr & Hv & Hl); [done|]; rewrite ?Hn.
    + done.
    + by rewrite Hr.
    + by rewrite Hv.
    + by intros [?|?].
    + intros l i. by rewrite Hl.
    + done.
  - (* start_error *) assert (forall l i, loops w !! l <> Some i) as Hl.
    { intros l i E. destruct (Hlo l i E) as [[?|?]|(n & tg & E')]; [congruence..|]. by eapply H1. }
    assert (restoring y = None) as Hn.
    { destruct (restoring y) as [[wh p]|] eqn:E; [|done]. exfalso. destruct wh; [by eapply H1|..];
        (destruct (Hot _ _ eq_refl ltac:(done)); congruence). }
    rewrite Hn in *. split; simpl; try done; rewrite ?Hn; try done; unfold started in *; simpl.
    + intros E%Hreg. naive_solver congruence.
    + intros E%Hrec. naive_solver congruence.
    + by intros [?|?].
    + intros l i E. by destruct (Hl l i).
  - frame_threads H; [by intros [? _]%andb_true_iff|done].
  - (* loop_end *) assert (unexpected (lch i) x = true -> started y) as Hu.
    { intros Hu. destruct (Hlo _ _ H0) as [?|(n & tg & E)]; [done|]. rewrite E in Hpc. unfold unexpected in Hu.
      rewrite !andb_true_iff, negb_true_iff in Hu. destruct Hu as [[? ?] _], Hpc; congruence. }
    destruct (unexpected (lch i) x); frame_threads H.
  - frame_threads H; [|intros d Hd; right; by right]. intros _. apply Hrec. intros [E1 E2]%app_eq_nil. by rewrite E1 in H0; apply Permutation_nil_cons in H0.
  - frame_threads H. intros Hne. apply Hrec. intros [E1 E2]%app_eq_nil. by rewrite E1 in H0; apply Permutation_nil_cons in H0.
  - frame_threads H. intros Hne. apply Hrec. intros [E1 E2]%app_eq_nil. by rewrite E1, E2 in Hne.
  - frame_threads H. intros Hne. apply Hrec. intros [E1 E2]%app_eq_nil. by rewrite E1, E2 in Hne.
  - frame_threads H. congruence.
Qed.

(** *** Registered tags and open channels *)

(** The consumer consumes under [tg] on its channel [n]. *)
Definition current (x : consumer) (y : threads) (n : nat) (tg : string) : Prop :=
  closed x = false /\ ch x = Some n /\ tag x = tg /\ consuming x = true /\ started y.

(** Someone is to cancel a registered tag that is not current, or to close its
    channel. *)
Definition tag_owned (x : consumer) (y : threads) (n : nat) (tg : string) : Prop :=
  current x y n tg \/ (n, tg) ∈ cancels y \/
  match restoring y with
  | Some (_, Registered m u) | Some (_, Unwanted m u) => m = n /\ u = tg
  | _ => False
  end \/ doomed y n.

Definition channel_owned (x : consumer) (y : threads) (n : nat) : Prop :=
  (closed x = false /\ ch x = Some n) \/
  match restoring y with Some (_, Declared m _) => m = n | _ => False end \/ doomed y n.

(** Until its restore consumes, the new channel has no tag, and then one. *)
Definition pc_unregistered (x : consumer) (w : world) (r : option (restorer * restore_pc)) : Prop :=
  match r with
  | Some (_, Declared n _) | Some (_, Consume n) => forall tg, (n, tg) ∉ regs w
  | Some (_, RetireStop _ _ _ _) | Some (_, RetirePub _ _ _) | Some (_, AwaitLoop _ _) | Some (_, Starting) =>
      forall n tg, ch x = Some n -> (n, tg) ∉ regs w
  | Some (_, Registered n tg) => forall u, (n, u) ∈ regs w -> u = tg
  | _ => True
  end.

Record owned (x : consumer) (w : world) (y : threads) : Prop := {
  ow_tags : forall n tg, (n, tg) ∈ regs w -> tag_owned x y n tg;
  ow_channels : forall n, n ∈ opens w -> channel_owned x y n
}.

Lemma owned_frame x x' w w' y y' :
  owned x w y -> regs w' ⊆ regs w -> opens w' ⊆ opens w ->
  (forall n tg, (n, tg) ∈ regs w' -> tag_owned x y n tg -> tag_owned x' y' n tg) ->
  (forall n, n ∈ opens w' -> channel_owned x y n -> channel_owned x' y' n) -> owned x' w' y'.
Proof. intros [Ht Hc] Hr Ho Hts Hcs. split; intros; [apply Hts|apply Hcs]; auto. Qed.

Lemma regs_close_channel n w : regs (close_channel n w) ⊆ regs w.
Proof. simpl. intros p. rewrite elem_of_filter. naive_solver. Qed.

Lemma not_in_regs_close_channel n tg w : (n, tg) ∉ regs (close_channel n w).
Proof. simpl. rewrite elem_of_filter. simpl. naive_solver. Qed.

Lemma close_stop_world o w : opens (close_stop o w) = opens w /\ regs (close_stop o w) = regs w /\ loops (close_stop o w) = loops w /\ dones (close_stop o w) = dones w.
Proof. by destruct o. Qed.

Lemma connectionLost_world b x w : opens (connectionLost b x w) = opens w /\ regs (connectionLost b x w) = regs w /\ loops (connectionLost b x w) = loops w.
Proof. by destruct b. Qed.

Lemma pc_unregistered_frame x x' w w' r :
  regs w' ⊆ regs w -> (ch x' = ch x \/ ch x' = None) -> pc_unregistered x w r -> pc_unregistered x' w' r.
Proof.
  intros Hr Hx. destruct r as [[who []]|]; simpl; try done; intros H; intros; try (by intros ?%Hr; eapply H);
    try (destruct Hx as [E|E]; rewrite E in *; [|done]; intros ?%Hr; by eapply H); eauto.
Qed.

Lemma pc_unregistered_step s s' : step s s' -> world_ok (world_of s) ->
  pc_unregistered (consumer_of s) (world_of s) (restoring (threads_of s)) -> pc_unregistered (consumer_of s') (world_of s') (restoring (threads_of s')).
Proof.
  intros Hs W H. destruct Hs; simpl in *;
    repeat match goal with E : restoring _ = Some _ |- _ => rewrite E in * end; simpl in *; try done;
    rewrite ?restoring_consume_failed, ?restoring_resume; try done.
  all: try (eapply pc_unregistered_frame; [..|exact H]; simpl; auto; try set_solver;
     try apply regs_close_channel; rewrite ?(proj1 (proj2 (close_stop_world _ _))), ?(proj1 (proj2 (connectionLost_world _ _ _))); done).
  - intros tg [Ho _]%(wk_regs _ W). apply (wk_opens _ W) in Ho. lia.
  - assert (pc_unregistered (install n q x) w (restoring (resume_or_return who (consuming x) y))) as Hr.
    { rewrite restoring_resume. destruct (consuming x); simpl; [|done]. by intros m tg [= <-]. }
    destruct (pub x); [case_decide|]; [done| |done]. simpl. by intros m tg [= <-].
  - by rewrite (proj1 (proj2 (close_stop_world _ _))).
  - intros n tg E Hin. apply (regs_close_channel old w) in Hin. by eapply H.
  - by destruct r.
  - auto.
  - set_solver.
  - by destruct (keep n x).
  - eapply pc_unregistered_frame; [..|exact H]; auto. destruct p; simpl; [apply regs_close_channel|done].
  - replace (restoring _) with (restoring y) by (by destruct (unexpected (lch i) x)). exact H.
Qed.

(** Unfold who owns what, at the places of the step. *)
Ltac unfold_owned :=
  unfold tag_owned, channel_owned, doomed, current in *;
  repeat match goal with E : restoring _ = _ |- _ => rewrite E in * end;
  repeat match goal with E : closer _ = _ |- _ => rewrite E in * end; simpl in *.

Ltac solve_owned := unfold_owned; intuition (done || congruence || auto).

Lemma started_kept who y : started y -> started (restored who y).
Proof. intros H. destruct who; [by left|done|done]. Qed.
#[local] Hint Resolve started_kept : life.

(** The end of a restore by [who], successful or not. *)
Lemma owned_ended x w y y' who p :
  owned x w y -> restoring y = Some (who, p) ->
  match p with Declared _ _ | RetireStop _ _ _ _ | RetirePub _ _ _ | Registered _ _ | Unwanted _ _ => False | _ => True end ->
  restoring y' = None \/ restoring y' = Some (who, Starting) -> (started y -> started y') -> cancels y' = cancels y ->
  closer y' = closer y -> owned x w y'.
Proof.
  intros H E Hp E1 E2 E3 E4. eapply owned_frame; [exact H|done|done|..]; unfold tag_owned, channel_owned, doomed, current;
    rewrite E, ?E3, ?E4; destruct E1 as [-> | ->]; destruct p; intuition auto.
Qed.

Lemma owned_step s s' : step s s' -> world_ok (world_of s) -> refs_ok (consumer_of s) (world_of s) (threads_of s) -> threads_ok (consumer_of s) (world_of s) (threads_of s) ->
  pc_unregistered (consumer_of s) (world_of s) (restoring (threads_of s)) -> owned (consumer_of s) (world_of s) (threads_of s) -> owned (consumer_of s') (world_of s') (threads_of s').
Proof.
  intros Hs W R T U H. pose proof H as [Hts Hcs].
  destruct Hs; simpl in *.
  all: try (eapply owned_frame; [exact H|done|done|..]; by solve_owned).
  - (* declare *) split; simpl.
    + intros n tg Hn. specialize (Hts n tg Hn). solve_owned.
    + intros n. rewrite elem_of_union, elem_of_singleton. intros [->|Hn]; [by right; left|]. specialize (Hcs n Hn). solve_owned.
  - (* install *) pose proof (rk_pub _ _ _ R) as Hp. pose proof (rk_pc _ _ _ R) as Hk.
    rewrite H0 in Hk. destruct Hk as [_ Hne]. rewrite Hp. destruct (ch x) as [old|] eqn:Hch; [rewrite decide_False by congruence|].
    + split; simpl.
      * intros m tg Hm. specialize (Hts m tg Hm). solve_owned.
      * intros m Hm. specialize (Hcs m Hm). solve_owned.
    + split; simpl.
      * intros m tg Hm. specialize (Hts m tg Hm). destruct (consuming x); solve_owned.
      * intros m Hm. specialize (Hcs m Hm). destruct (consuming x); solve_owned.
  - (* too late *) split; simpl.
    + intros m tg Hm. apply regs_close_channel in Hm. specialize (Hts m tg Hm). solve_owned.
    + intros m [Hm Hne]%elem_of_difference. specialize (Hcs m Hm). solve_owned. set_solver.
  - destruct (close_stop_world stop w) as (Ho & Hr & _). split; rewrite ?Ho, ?Hr.
    + intros m tg Hm. specialize (Hts m tg Hm). solve_owned.
    + intros m Hm. specialize (Hcs m Hm). solve_owned.
  - (* retire_pub *) split; simpl.
    + intros m tg Hm. destruct (decide (m = old)) as [->|Hne]; [by apply not_in_regs_close_channel in Hm|].
      apply regs_close_channel in Hm. specialize (Hts m tg Hm). solve_owned.
    + intros m [Hm Hne]%elem_of_difference. specialize (Hcs m Hm). solve_owned. set_solver.
  - eapply owned_ended; eauto; destruct r; simpl; auto with life.
  - (* consume *) split; simpl.
    + intros m u. rewrite elem_of_union, elem_of_singleton. intros [[= -> ->]|Hm]; [by right; right; left|].
      specialize (Hts m u Hm). solve_owned.
    + intros m Hm. specialize (Hcs m Hm). solve_owned.
  - (* enlist *) pose proof (started_restored who y (restore_permitted _ _ _ _ _ T H0)) as Hst.
    destruct (keep n x) eqn:Hk; unfold keep in Hk.
    + rewrite !andb_true_iff, negb_true_iff, bool_decide_eq_true in Hk. destruct Hk as [[Hco Hcl] Hch].
      split; simpl.
      * intros m u Hm. specialize (Hts m u Hm). rewrite H0 in U. simpl in U. specialize (fun E => U u E).
        destruct (decide (m = n)) as [->|Hne]; unfold_owned; unfold keep; rewrite Hco, Hcl, Hch, bool_decide_true by done.
        -- left. rewrite (U Hm). by split_and!.
        -- intuition (done || congruence || auto).
      * intros m Hm. specialize (Hcs m Hm). solve_owned.
    + split; simpl.
      * intros m u Hm. specialize (Hts m u Hm). unfold_owned. unfold keep. rewrite Hk. intuition (done || congruence || auto).
      * intros m Hm. specialize (Hcs m Hm). solve_owned.
  - (* unwanted *) pose proof (started_kept who y) as Hst. split; simpl.
    + intros m u [Hm Hne]%elem_of_difference. specialize (Hts m u Hm). solve_owned. set_solver.
    + intros m Hm. specialize (Hcs m Hm). solve_owned.
  - eapply owned_frame; [exact H|done|done|..]; unfold tag_owned, current, started in *; simpl; intuition (done || congruence || auto).
  - eapply owned_frame; [exact H|done|done|..]; unfold tag_owned, current, started in *; simpl; intuition (done || congruence || auto).
  - eapply owned_frame; [exact H|done|done|..]; unfold tag_owned, current, started in *; simpl; intuition (done || congruence || auto).
  - (* stop *) split; simpl; [|exact Hcs]. intros m u Hm. destruct (Hts m u Hm) as [(? & Hch & <- & _)|[Hc|Hr]].
    + right; left. simpl. apply elem_of_app. left. unfold to_cancel. rewrite Hch, decide_False; [by left|].
      by destruct (wk_regs _ W _ _ Hm) as (_ & ? & _).
    + right; left. simpl. apply elem_of_app. by right.
    + right; right. exact Hr.
  - (* cancel *) split; simpl; [|exact Hcs]. intros m u [Hm Hne]%elem_of_difference. destruct (Hts m u Hm) as [Hc|[Hc|Hr]].
    + by left.
    + right; left. simpl. rewrite H0 in Hc. apply elem_of_cons in Hc as [[= -> ->]|?]; [|done]. by destruct Hne; apply elem_of_singleton.
    + right; right. exact Hr.
  - (* close *) assert (forall m, ch x = Some m -> doomed (set_registered (registered y && negb (unregister x))
        (set_closer (CloseStop (loopStop x) (pub x) (loopDone x)) (set_closings k y))) m) as Hd.
    { intros m Hm. right. simpl. by rewrite (rk_pub _ _ _ R). }
    pose proof (tk_closer _ _ _ T H1) as Hn. split; simpl.
    + intros m u Hm. destruct (Hts m u Hm) as [(_ & Hch & _)|[Hc|[Hr|Hr]]]; [right; right; right; auto|by right; left|by right; right; left|].
      right; right; right. destruct Hr as [Hr|Hr]; [by left|]. by rewrite Hn in Hr.
    + intros m Hm. destruct (Hcs m Hm) as [[_ Hch]|[Hr|[Hr|Hr]]]; [right; right; auto|by right; left|by right; right; left|].
      by rewrite Hn in Hr.
  - destruct (close_stop_world stop w) as (Ho & Hr & _). split; rewrite ?Ho, ?Hr.
    + intros m tg Hm. specialize (Hts m tg Hm). solve_owned.
    + intros m Hm. specialize (Hcs m Hm). solve_owned.
  - (* close_pub *) assert (regs (close_pub p w) ⊆ regs w /\ opens (close_pub p w) ⊆ opens w) as [Hr Ho].
    { destruct p; simpl; [|done]. split; [apply regs_close_channel|set_solver]. }
    assert (forall m, p = Some m -> m ∉ opens (close_pub p w) /\ forall u, (m, u) ∉ regs (close_pub p w)) as Hp.
    { intros m ->. split; [simpl; set_solver|]. intros u. apply not_in_regs_close_channel. }
    split.
    + intros m u Hm. specialize (Hts m u (Hr _ Hm)). pose proof (fun E => proj2 (Hp m E) u Hm). solve_owned.
    + intros m Hm. specialize (Hcs m (Ho _ Hm)). pose proof (fun E => proj1 (Hp m E) Hm). solve_owned.
  - destruct (unexpected (lch i) x); split; [exact Hts|exact Hcs|exact Hts|exact Hcs].
  - destruct lateAck; split; [exact Hts|exact Hcs|exact Hts|exact Hcs].
  - split.
    + intros m u Hm. apply Hts. by apply (regs_close_channel n w).
    + intros m [Hm _]%elem_of_difference. auto.
  - split; [|exact Hcs]. intros m u [Hm _]%elem_of_difference. auto.
Qed.

(** *** Loops and their stop channels *)

Definition pc_stops (x : consumer) (w : world) (r : option (restorer * restore_pc)) : Prop :=
  match r with
  | Some (_, RetireStop old st dn _) =>
      st = dn /\ loopStop x = None /\ forall l, dn = Some l -> l ∉ stops w /\ reads w l old
  | Some (_, RetirePub old dn _) => forall l, dn = Some l -> l ∈ stops w /\ reads w l old
  | Some (_, AwaitLoop dn _) => forall l, dn = Some l -> released w l
  | _ => True
  end.

Definition closer_stops (w : world) (p : close_pc) : Prop :=
  match p with
  | CloseStop st q dn => st = dn /\ forall l, dn = Some l -> l ∉ stops w /\ exists n, q = Some n /\ reads w l n
  | CloseHandlers q dn | ClosePub q dn => forall l, dn = Some l -> l ∈ stops w /\ exists n, q = Some n /\ reads w l n
  | CloseAwait dn => forall l, dn = Some l -> released w l
  | _ => True
  end.

(** Two threads do not hold the same stop channel. *)
Definition stops_disjoint (y : threads) : Prop :=
  match restoring y, closer y with
  | Some (_, RetireStop _ (Some l) _ _), CloseStop (Some k) _ _ => l <> k
  | _, _ => True
  end.

Record loops_ok (x : consumer) (w : world) (y : threads) : Prop := {
  lk_same : loopDone x = loopStop x;
  lk_loop : forall l, closed x = false -> loopStop x = Some l -> l ∉ stops w /\ exists n, ch x = Some n /\ reads w l n;
  lk_pc : pc_stops x w (restoring y);
  lk_closer : closer_stops w (closer y);
  lk_disjoint : stops_disjoint y;
  lk_calm : panicked w = false
}.

(** The loops stay, and no closed channel opens again. *)
Definition keeps (w w' : world) : Prop :=
  (forall l n, reads w l n -> reads w' l n) /\
  (forall l, released w l -> released w' l) /\ stops w' = stops w /\ panicked w' = panicked w.

Lemma keeps_same w w' :
  loops w' = loops w -> opens w' ⊆ opens w -> stops w' = stops w -> panicked w' = panicked w -> keeps w w'.
Proof.
  intros E1 E2 E3 E4. unfold keeps, released, reads. rewrite E1, E3, E4. split_and!; [done| |done|done].
  intros l (Hs & i & Hl & Ho). split; [done|]. exists i. split; [done|]. intros ?%E2. done.
Qed.

Lemma keeps_fresh w : world_ok w -> keeps w (fresh_channel w).
Proof.
  intros W. unfold keeps, released, reads. simpl. split_and!; [done| |done|done].
  intros l (Hs & i & Hl & Ho). split; [done|]. exists i. split; [done|]. apply (wk_loops _ W) in Hl.
  rewrite elem_of_union, elem_of_singleton. naive_solver lia.
Qed.

Lemma keeps_move l i st w : loops w !! l = Some i -> keeps w (move_loop l i st w).
Proof.
  intros Hl. unfold keeps, released, reads. simpl. split_and!; [|..|done|done].
  - intros k n (j & Hj & <-). destruct (decide (k = l)) as [->|Hne].
    + rewrite lookup_insert_eq. simplify_eq. by eexists.
    + rewrite lookup_insert_ne by done. by exists j.
  - intros k (Hs & j & Hj & Ho). split; [done|]. destruct (decide (k = l)) as [->|Hne].
    + rewrite lookup_insert_eq. simplify_eq. by eexists.
    + rewrite lookup_insert_ne by done. by exists j.
Qed.

Lemma keeps_spawn n tg w : world_ok w -> keeps w (spawn n tg w).
Proof.
  intros W. unfold keeps, released, reads. simpl.
  assert (forall l i, loops w !! l = Some i -> l <> next w) as Hf.
  { intros l i ?%(wk_loops _ W). lia. }
  split_and!; [|..|done|done].
  - intros k m (j & Hj & <-). exists j. rewrite lookup_insert_ne by (apply not_eq_sym; eauto). done.
  - intros k (Hs & j & Hj & Ho). split; [done|]. exists j. rewrite lookup_insert_ne by (apply not_eq_sym; eauto). done.
Qed.

Lemma pc_stops_keeps x x' w w' r :
  keeps w w' -> loopStop x' = loopStop x -> pc_stops x w r -> pc_stops x' w' r.
Proof.
  intros (Hr & Hl & Hs & _) Ex. destruct r as [[who []]|]; simpl; try done; rewrite ?Hs, ?Ex; [..|naive_solver]; naive_solver.
Qed.

Lemma closer_stops_keeps w w' p : keeps w w' -> closer_stops w p -> closer_stops w' p.
Proof. intros (Hr & Hl & Hs & _). destruct p; simpl; try done; rewrite ?Hs; naive_solver. Qed.

Lemma loops_ok_frame x x' w w' y y' :
  loops_ok x w y -> keeps w w' -> loopStop x' = loopStop x -> loopDone x' = loopDone x ->
  (closed x' = false -> closed x = false /\ ch x' = ch x) ->
  (restoring y' = restoring y \/ pc_stops x' w' (restoring y') /\ forall wh o l d r, restoring y' <> Some (wh, RetireStop o l d r)) ->
  closer y' = closer y -> loops_ok x' w' y'.
Proof.
  intros [Hsame Hloop Hpc Hcl Hdj Hcalm] HK Es Ed Hc Hr Ec. pose proof HK as (Hrd & Hre & Hst & Hpan).
  split.
  - congruence.
  - intros l E1 E2. destruct (Hc E1) as [E1' ->]. rewrite Es in E2. rewrite Hst. naive_solver.
  - destruct Hr as [->|[? _]]; [|done]. by eapply pc_stops_keeps.
  - rewrite Ec. by eapply closer_stops_keeps.
  - unfold stops_disjoint in *. rewrite Ec. destruct Hr as [->|[_ Hn]]; [done|].
    destruct (restoring y') as [[wh []]|]; try done. by destruct (Hn wh old stop done resume).
  - congruence.
Qed.

(** Closing one more stop channel. *)
Lemma close_stop_keeps l w :
  (forall k n, reads w k n -> reads (close_stop (Some l) w) k n) /\
  (forall k, released w k -> released (close_stop (Some l) w) k) /\
  (forall k, k ∈ stops (close_stop (Some l) w) <-> k = l \/ k ∈ stops w).
Proof.
  unfold released, reads. simpl. split_and!; [done|set_solver|set_solver].
Qed.

Lemma loops_ok_retire x w y who old st dn r :
  loops_ok x w y -> restoring y = Some (who, RetireStop old st dn r) ->
  loops_ok x (close_stop st w) (set_restoring (Some (who, RetirePub old dn r)) y).
Proof.
  intros [Hsame Hloop Hpc Hcl Hdj Hcalm] E. unfold stops_disjoint in Hdj. rewrite E in Hpc, Hdj. simpl in Hpc.
  destruct Hpc as (-> & Hno & Hpc). destruct dn as [l|]; simpl; [|by split].
  destruct (close_stop_keeps l w) as (Hk1 & Hk2 & Hk3). simpl in *. destruct (Hpc l eq_refl) as [Hnl Hrd].
  split; simpl; try done.
  - intros k _ Ek. congruence.
  - intros k [= <-]. split; [set_solver|done].
  - destruct (closer y) as [|[]| | | |]; simpl in *; try done; try set_solver.
  - rewrite Hcalm. simpl. by apply bool_decide_eq_false.
Qed.

Lemma loops_ok_close_stop x w y st p dn :
  loops_ok x w y -> closed x = true -> closer y = CloseStop st p dn ->
  loops_ok x (close_stop st w) (set_closer (CloseHandlers p dn) y).
Proof.
  intros [Hsame Hloop Hpc Hcl Hdj Hcalm] Hx E. unfold stops_disjoint in Hdj. rewrite E in Hcl, Hdj. simpl in Hcl.
  destruct Hcl as (-> & Hcl). destruct dn as [l|]; simpl; [|split; try done; simpl; unfold stops_disjoint; simpl; by repeat case_match].
  destruct (close_stop_keeps l w) as (Hk1 & Hk2 & Hk3). simpl in *. destruct (Hcl l eq_refl) as (Hnl & n & -> & Hrd).
  split; simpl; try done.
  - congruence.
  - destruct (restoring y) as [[who []]|]; simpl in *; try done; try set_solver.
  - intros k [= <-]. split; [set_solver|eauto].
  - unfold stops_disjoint. simpl. by repeat case_match.
  - rewrite Hcalm. simpl. by apply bool_decide_eq_false.
Qed.

Lemma loops_ok_step s s' : step s s' -> world_ok (world_of s) -> refs_ok (consumer_of s) (world_of s) (threads_of s) -> threads_ok (consumer_of s) (world_of s) (threads_of s) ->
  loops_ok (consumer_of s) (world_of s) (threads_of s) -> loops_ok (consumer_of s') (world_of s') (threads_of s').
Proof.
  intros Hs W R T H. pose proof H as [Hsame Hloop Hpc Hcl Hdj Hcalm]. destruct Hs; simpl in *.
  all: try (match goal with E : restoring _ = Some _ |- _ => rewrite E in Hpc end; simpl in Hpc).
  all: try (eapply loops_ok_frame; [exact H|by apply keeps_same|done|done|try done|..]; simpl; auto;
    rewrite ?restoring_consume_failed; by (right; split; [done|intros; discriminate])).
  - eapply loops_ok_frame; [exact H|by apply keeps_fresh|try done..]. right. by split.
  - (* install *) pose proof (rk_pub _ _ _ R) as Hp. rewrite Hp.
    pose proof (tk_closer _ _ _ T H1) as Hn.
    destruct (ch x) as [old|] eqn:Hch; [case_decide|].
    + destruct (consuming x); split; simpl; try done; by destruct who.
    + split; simpl; try done; [|unfold stops_disjoint; simpl; rewrite Hn; by repeat case_match].
      split_and!; [done..|]. intros l E. rewrite Hsame in E. destruct (Hloop l H1 E) as (? & m & [= <-] & ?). done.
    + destruct (consuming x); split; simpl; try done; by destruct who.
  - eapply loops_ok_frame; [exact H|apply keeps_same; set_solver|try done..]. right. by split.
  - by eapply loops_ok_retire.
  - (* retire_pub *) eapply loops_ok_frame; [exact H|apply keeps_same; set_solver|try done..]. right. split; [|done].
    intros l E. destruct (Hpc l E) as [? (i & Hi & <-)]. split; [done|]. exists i. simpl. set_solver.
  - eapply loops_ok_frame; [exact H|by apply keeps_same|try done..]; [|by destruct r]. right. rewrite restoring_resume. destruct r; by split.
  - (* enlist *) pose proof (tk_pc _ _ _ T) as Hch. rewrite H0 in Hch. simpl in Hch.
    pose proof (keeps_spawn n tg w W) as HK. assert (closer_stops (spawn n tg w) (closer y)) by (by eapply closer_stops_keeps).
    split; simpl; try done.
    + intros l Hx [= <-]. split; [intros ?%(wk_stops _ W); lia|]. exists n. split; [by destruct who, Hch; congruence|].
      eexists. simpl. by rewrite lookup_insert_eq.
    + by destruct (keep n x).
    + by destruct (keep n x).
    + unfold stops_disjoint. destruct (keep n x); simpl; by repeat case_match.
  - (* close *) pose proof (rk_pub _ _ _ R) as Hp. split; simpl; try done.
    + split; [done|]. intros l E. rewrite Hsame in E. rewrite Hp. eauto.
    + unfold stops_disjoint. simpl. destruct (restoring y) as [[wh []]|]; try done. destruct stop; [|done].
      destruct Hpc as (_ & -> & _). done.
  - eapply loops_ok_close_stop; [done| |done]. destruct (closed x) eqn:E; [done|]. pose proof (tk_closer _ _ _ T E). congruence.
  - split; try done; simpl; [by rewrite H0 in Hcl|]. unfold stops_disjoint. simpl. by repeat case_match.
  - (* close_pub *) assert (keeps w (close_pub p w)) as HK by (apply keeps_same; destruct p; simpl; set_solver).
    pose proof HK as (Hr1 & Hr2 & Hr3 & Hr4). rewrite H0 in Hcl. simpl in Hcl. split; simpl.
    + done.
    + intros l E1 E2. rewrite Hr3. destruct (Hloop l E1 E2) as (? & n & ? & ?). eauto.
    + by eapply pc_stops_keeps.
    + intros l E. destruct (Hcl l E) as (? & n & -> & i & Hi & <-). split; [done|]. exists i. simpl. set_solver.
    + unfold stops_disjoint. simpl. by repeat case_match.
    + congruence.
  - split; try done; simpl. unfold stops_disjoint. simpl. by repeat case_match.
  - eapply loops_ok_frame; [exact H|by apply keeps_move|try done..]. by left.
  - eapply loops_ok_frame; [exact H|by apply keeps_move|try done..]. by left.
  - eapply loops_ok_frame; [exact H|by apply keeps_move|try done..]. by left.
  - (* loop_end *) assert (keeps w (close_done l (move_loop l i Ended w))) as HK.
    { destruct (keeps_move l i Ended w H0) as (? & ? & ? & ?). split_and!; try done. simpl.
      rewrite bool_decide_false; [by rewrite orb_false_r|]. intros (j & Hj & ?)%(wk_dones _ W). congruence. }
    eapply loops_ok_frame; [exact H|exact HK|try done..]; destruct (unexpected (lch i) x); simpl; auto.
  - eapply loops_ok_frame; [exact H|apply keeps_same; by destruct lateAck|try done..]. by left.
  - eapply loops_ok_frame; [exact H|apply keeps_same; set_solver|try done..]. by left.
Qed.

(** *** A consumer that wants deliveries is attended to *)

(** A loop reads its channel, or one has just ended and is to see whether the
    session is ready, or a recovery of it is under way, or the supervisor is to
    restore it, or it was stranded. *)
Definition attended (x : consumer) (w : world) (y : threads) : Prop :=
  (exists l i, loops w !! l = Some i /\ lstate i <> Ended /\ ch x = Some (lch i)) \/
  (exists n, ch x = Some n /\ n ∈ deciding y ++ recoveries y) \/
  (returning (sess y) = true /\ registered y = true) \/ stranded y = true.

Definition wanted (x : consumer) (y : threads) : Prop :=
  consuming x = true /\ closed x = false /\ started y /\ restoring y = None.

Lemma attended_frame x x' w w' y y' :
  (wanted x y -> attended x w y) ->
  (wanted x' y' -> wanted x y) -> (wanted x' y' -> ch x' = ch x) ->
  (forall l i, loops w !! l = Some i -> lstate i <> Ended -> ch x = Some (lch i) ->
     (exists i', loops w' !! l = Some i' /\ lstate i' <> Ended /\ lch i' = lch i) \/ attended x' w' y') ->
  (forall n, wanted x' y' -> ch x = Some n -> n ∈ deciding y ++ recoveries y ->
     n ∈ deciding y' ++ recoveries y' \/ attended x' w' y') ->
  (wanted x' y' -> returning (sess y) = true -> registered y = true -> returning (sess y') = true /\ registered y' = true) ->
  (stranded y = true -> stranded y' = true) ->
  wanted x' y' -> attended x' w' y'.
Proof.
  intros H Hw Hc Hl Hr Ho Hs W'. destruct (H (Hw W')) as [(l & i & E1 & E2 & E3)|[(n & E1 & E2)|[[? ?]|?]]].
  - destruct (Hl l i E1 E2 E3) as [(i' & ? & ? & E)|?]; [|done]. left. exists l, i'. rewrite Hc, E by done. done.
  - destruct (Hr n W' E1 E2); [|done]. right; left. exists n. by rewrite Hc.
  - right; right; left; auto.
  - right; right; right; auto.
Qed.

(** A restore by [who] that failed: the supervisor is to try again. *)
Lemma restore_failed_returning x w y p :
  threads_ok x w y -> restoring y = Some (Supervisor, p) -> closed x = false ->
  returning (sess y) = true /\ registered y = true.
Proof.
  intros T E Hc. rewrite (tk_super _ _ _ T _ E). split; [done|]. apply (tk_registered _ _ _ T); [|done].
  by eapply (tk_other _ _ _ T).
Qed.

Lemma consume_failed_attended x w y who p :
  threads_ok x w y -> restoring y = Some (who, p) -> wanted x (consume_failed who y) -> attended x w (consume_failed who y).
Proof.
  intros T E (Hc & Hcl & Hst & _). destruct who.
  - pose proof (tk_attach _ _ _ T _ E). destruct Hst; simpl in *; congruence.
  - right; right; left. exact (restore_failed_returning _ _ _ _ T E Hcl).
  - right; right; right. simpl. apply orb_true_r.
Qed.

(** A loop or a recovery that gives up because the session is not ready. *)
Lemma not_ready_attended x w y y' :
  threads_ok x w y -> wanted x y' -> starting y' = starting y /\ sess y' = sess y /\ registered y' = registered y /\
    stranded y' = stranded y || bool_decide (sess y = Back) -> sess y <> Up -> attended x w y'.
Proof.
  intros T (_ & Hc & Hst & _) (E1 & E2 & E3 & E4) Hs. right; right. rewrite E2, E3, E4. unfold started in Hst. rewrite E1 in Hst.
  pose proof (tk_registered _ _ _ T Hst Hc). destruct (sess y); [done|by left..|]. right. by rewrite orb_true_r.
Qed.

Lemma move_loop_attended x w y l i st :
  loops w !! l = Some i -> st <> Ended -> (wanted x y -> attended x w y) -> wanted x y -> attended x (move_loop l i st w) y.
Proof.
  intros Hl Hst H. apply attended_frame with (1 := H); eauto. intros k j Hk Hj _. left.
  simpl. destruct (decide (k = l)) as [->|Hne].
  - rewrite lookup_insert_eq. eexists. simplify_eq. by split_and!.
  - rewrite lookup_insert_ne by done. eauto.
Qed.

Lemma attended_step s s' : step s s' -> threads_ok (consumer_of s) (world_of s) (threads_of s) -> 
  (wanted (consumer_of s) (threads_of s) -> attended (consumer_of s) (world_of s) (threads_of s)) -> wanted (consumer_of s') (threads_of s') -> attended (consumer_of s') (world_of s') (threads_of s').
Proof.
  intros Hs T H. pose proof (tk_pc _ _ _ T) as Hpc. destruct Hs; simpl in *.
  all: try (match goal with E : restoring _ = Some _ |- _ => rewrite E in Hpc end; simpl in Hpc).
  (* a restore in progress *)
  all: try (by intros (_ & _ & _ & [=])).
  all: try (by intros (_ & ? & _); congruence).
  (* nothing of interest changes *)
  all: try (by apply attended_frame with (1 := H); simpl; eauto).
  - (* fail *) intros (Hc & Hcl & Hst & _). destruct who; simpl in *.
    + pose proof (tk_attach _ _ _ T _ H0). destruct Hst; simpl in *; congruence.
    + right; right; left. exact (restore_failed_returning _ _ _ _ T H0 Hcl).
    + destruct Hpc as [Hd [?|Hch]]; [congruence|]. right; left. exists dead. split; [done|]. apply elem_of_app. by right.
  - (* install *) assert (wanted (install n q x) (resume_or_return who (consuming x) y) ->
      attended (install n q x) w (resume_or_return who (consuming x) y)) as Hr.
    { intros (Hc & _ & _ & Hn). simpl in Hc. rewrite Hc in Hn. done. }
    destruct (pub x); [case_decide|]; [done| |done]. by intros (_ & _ & _ & [=]).
  - intros (Hc & _ & _ & Hn). destruct r; [done|]. assert (consuming x = false) by (destruct who; auto). congruence.
  - by eapply consume_failed_attended.
  - by eapply consume_failed_attended.
  - (* enlist *) destruct (keep n x) eqn:Hk; [|by intros (_ & _ & _ & [=])]. intros _. left. eexists (next w), _. simpl.
    rewrite lookup_insert_eq. split; [done|]. split; [done|]. simpl. unfold keep in Hk.
    by apply andb_true_iff in Hk as [_ ?%bool_decide_eq_true].
  - intros (Hc & Hcl & _). assert (consuming x = false \/ closed x = true) as [?|?] by (by destruct who); congruence.
  - intros (_ & _ & Hst & _). by destruct Hst.
  - by intros (? & _).
  - by intros (? & _).
  - (* start_ok *) apply attended_frame with (1 := H); simpl; eauto. intros (? & ? & _ & ?). unfold wanted, started. auto.
  - by intros (? & _).
  - by intros (_ & ? & _).
  - apply attended_frame with (1 := H); simpl; eauto. destruct stop; simpl; eauto.
  - apply attended_frame with (1 := H); simpl; eauto. destruct p; simpl; eauto.
  - by eapply move_loop_attended.
  - by eapply move_loop_attended.
  - by eapply move_loop_attended.
  - (* loop_end *) intros Hw. assert (wanted x y) as (Hc & Hcl & Hst & Hn) by (by destruct (unexpected (lch i) x)).
    destruct (decide (ch x = Some (lch i))) as [Hch|Hch].
    + assert (unexpected (lch i) x = true) as -> by (unfold unexpected; by rewrite Hc, Hcl, bool_decide_true).
      right; left. exists (lch i). split; [done|]. by left.
    + assert (unexpected (lch i) x = false) as Hu by (unfold unexpected; by rewrite Hc, Hcl, bool_decide_false). rewrite Hu in *.
      revert Hw. apply attended_frame with (1 := H); simpl; eauto. intros k j Hk Hj Hx. left.
      assert (k <> l) by naive_solver. rewrite lookup_insert_ne by done. eauto.
  - (* loop_recover *) apply attended_frame with (1 := H); simpl; eauto. intros m _ _ Hm. left.
    by rewrite H0, <- app_comm_cons, Permutation_middle in Hm.
  - intros Hw. eapply not_ready_attended; [exact T|exact Hw|done|]. by intros E; rewrite E in H1.
  - apply attended_frame with (1 := H); simpl; eauto. intros n (Hc & Hcl & _) Hn [?|Hin]%elem_of_app; left; apply elem_of_app; [by left|right].
    apply list_elem_of_In, in_in_remove; [|by apply list_elem_of_In]. simpl in *. naive_solver congruence.
  - intros Hw. eapply not_ready_attended; [exact T|exact Hw|done..].
  - apply attended_frame with (1 := H); simpl; eauto. destruct lateAck; simpl; eauto.
  - (* announced *) apply attended_frame with (1 := H); simpl; eauto. intros _ Hr Hg. destruct H0 as [E|[E ?]]; [by rewrite E in Hr|congruence].
Qed.

(** ** Every life *)

Record life_ok (s : life) : Prop := {
  ok_world : world_ok (world_of s);
  ok_refs : refs_ok (consumer_of s) (world_of s) (threads_of s);
  ok_threads : threads_ok (consumer_of s) (world_of s) (threads_of s);
  ok_unregistered : pc_unregistered (consumer_of s) (world_of s) (restoring (threads_of s));
  ok_owned : owned (consumer_of s) (world_of s) (threads_of s);
  ok_loops : loops_ok (consumer_of s) (world_of s) (threads_of s);
  ok_attended : wanted (consumer_of s) (threads_of s) -> attended (consumer_of s) (world_of s) (threads_of s)
}.

(** A stop channel a thread holds belongs to a loop. *)
Lemma stop_held_known x w y l : world_ok w -> loops_ok x w y -> stop_held y l -> l < next w.
Proof.
  intros W [_ _ Hpc Hcl _ _] [H|H].
  - destruct (restoring y) as [[wh []]|]; try done. destruct stop as [k|]; [|done]. subst k.
    destruct Hpc as (<- & _ & Hd). destruct (Hd l eq_refl) as [_ (i & Hi & _)]. by apply (wk_loops _ W) in Hi as [? _].
  - destruct (closer y); try done. destruct stop as [k|]; [|done]. subst k.
    destruct Hcl as (<- & Hd). destruct (Hd l eq_refl) as (_ & n & _ & i & Hi & _). by apply (wk_loops _ W) in Hi as [? _].
Qed.

Lemma life_ok_step s s' : step s s' -> life_ok s -> life_ok s'.
Proof.
  intros Hs [W R T U O L A]. split.
  - eapply world_ok_step; eauto. intros l. by eapply stop_held_known.
  - by eapply refs_ok_step.
  - by eapply threads_ok_step.
  - by eapply pc_unregistered_step.
  - by eapply owned_step.
  - by eapply loops_ok_step.
  - by eapply attended_step.
Qed.

Lemma life_ok_init : life_ok init.
Proof. split; [split|split|split|..|split|split|]; simpl; try done; try set_solver; try (by intros [?|?]); try (intros (? & _); done). Qed.

Lemma reachable_ok s : reachable s -> life_ok s.
Proof. intros H. eapply rtc_invariant; [exact life_ok_step|exact life_ok_init|exact H]. Qed.

(** No restore, cancellation or close is under way. *)
Definition quiet (y : threads) : Prop :=
  restoring y = None /\ cancels y = [] /\ (closer y = NotClosing \/ closer y = CloseReturned).

Lemma quiet_undoomed y n : quiet y -> ~ doomed y n.
Proof. intros (Hr & _ & Hc) [H|H]; [by rewrite Hr in H|]. destruct Hc as [E|E]; by rewrite E in H. Qed.

Lemma quiet_current x w y n tg : owned x w y -> quiet y -> (n, tg) ∈ regs w -> current x y n tg.
Proof.
  intros O Hq Hin. pose proof Hq as (Hr & Hc & _). destruct (ow_tags _ _ _ O n tg Hin) as [?|[H|[H|H]]]; [done|..].
  - rewrite Hc in H. by apply elem_of_nil in H.
  - by rewrite Hr in H.
  - by apply quiet_undoomed in H.
Qed.

(** Some thread waits for loop [l] to end. *)
Definition awaited (y : threads) (l : nat) : Prop :=
  match restoring y with Some (_, AwaitLoop (Some k) _) => k = l | _ => False end \/
  match closer y with CloseAwait (Some k) => k = l | _ => False end.

Lemma awaited_released x w y l : loops_ok x w y -> awaited y l -> released w l.
Proof.
  intros [_ _ Hpc Hcl _ _] [H|H].
  - destruct (restoring y) as [[wh []]|]; try done. destruct done; [|done]. subst. by apply Hpc.
  - destruct (closer y); try done. destruct done; [|done]. subst. by apply Hcl.
Qed.


(** A run all of whose states satisfy [P]. *)
Definition reachable_within (P : life -> Prop) (s : life) : Prop := rtc (fun a b => step a b /\ P b) init s.

Lemma reachable_within_reachable P s : reachable_within P s -> reachable s.
Proof. apply rtc_subrel. by intros a b [? _]. Qed.

(** Take the steps of a run. *)
Tactic Notation "take" open_constr(rule) :=
  eapply rtc_l; [split; [eapply rule; try (vm_compute; reflexivity); try (vm_compute; discriminate)|vm_compute; first [reflexivity|exact I]]|]; cbn.

(** A consumer that wants deliveries on a ready session, and that no thread
    brings back. *)
Definition abandoned (s : life) : Prop :=
  wanted (consumer_of s) (threads_of s) /\ quiet (threads_of s) /\ deciding (threads_of s) ++ recoveries (threads_of s) = [] /\
  sess (threads_of s) = Up /\ forall l i, loops (world_of s) !! l = Some i -> lstate i = Ended.

Ltac check_abandoned :=
  split; [split_and!; try (vm_compute; reflexivity); right; vm_compute; reflexivity|];
  split; [split_and!; try (vm_compute; reflexivity); left; vm_compute; reflexivity|];
  split; [vm_compute; reflexivity|]; split; [vm_compute; reflexivity|];
  let Hl := fresh in intros ? ? Hl; cbn in Hl; loop_cases; by simplify_map_eq.

(** Started: channel 0, loop 1. *)
Ltac take_start :=
  take start_call; take (restore_begin _ _ _ Attach); take (restore_declare _ _ _ Attach "q"); take restore_install;
  take start_read; take (start_consume _ _ _ Attach 0 "a"); take start_enlist; take start_ok.

Ltac take_await :=
  eapply rtc_l; [split; [eapply retire_await; [vm_compute; reflexivity|intros ? [= <-]; vm_compute; reflexivity]|vm_compute; reflexivity]|]; cbn.

(** Its channel died on a live connection, and the recovery could not consume on
    the channel it had installed. *)
Lemma stranding_run : exists s, reachable_within (fun s => sess (threads_of s) = Up) s /\ abandoned s.
Proof.
  eexists. split.
  - unfold reachable_within, init. take_start. take (channel_dies _ _ _ 0). take (loop_end _ _ _ 1).
    take (loop_recover _ _ _ 0 []). take (restore_begin _ _ _ (Recovery 0)). take (restore_declare _ _ _ (Recovery 0) "q").
    take restore_install. take retire_stop. take retire_pub. take_await. take start_read. take start_consume_fail.
    eapply rtc_l; [split; [apply (recover_stale _ _ _ 0); first [vm_compute; reflexivity|right; right; vm_compute; discriminate|vm_compute; left]|done]|].
    apply rtc_refl.
  - check_abandoned.
Qed.

(** The connection was lost, the supervisor restored the consumer, and its new
    channel died before the supervisor announced the connection. *)
Lemma early_death_run : exists s, reachable_within (fun s => recoveries (threads_of s) = []) s /\ abandoned s.
Proof.
  eexists. split.
  - unfold reachable_within, init. take_start. take session_dies. take (session_lost _ _ _ true). take (channel_dies _ _ _ 0).
    take (loop_end _ _ _ 1). take (loop_leave _ _ _ 0 []).
    take (restore_begin _ _ _ Supervisor). take (restore_declare _ _ _ Supervisor "q"). take restore_install. take retire_stop.
    take retire_pub. take_await. take start_read. take (start_consume _ _ _ Supervisor 2 "b"). take start_enlist.
    take (channel_dies _ _ _ 2). take (loop_end _ _ _ 3). take (loop_leave _ _ _ 2 []).
    eapply rtc_l; [split; [apply session_announced; [by left|vm_compute; reflexivity]|done]|]. apply rtc_refl.
  - check_abandoned.
Qed.


(** ** Samples *)

