(* ===== verification/DispatcherLife.v ===== *)
(** * DispatcherLife: the life of the reply consumer (dispatcher.go)

    The dispatcher owns a publishing channel, and a reply queue with the channel
    that consumes it. The supervisor, a call that finds something missing
    ([repair]) and the recovery of a dead consumer ([recoverReplies]) rebuild
    them, one at a time under the session's restore lock, while calls take the
    channel and the queue and publish, the connection is lost and comes back,
    channels die, and the bus is closed. Each critical section and each call on
    the AMQP client is one step. A [pubChannel] is named by the channel it wraps,
    the server-named reply queue by the channel that consumes it ([None] is the
    empty name), and a loop and its [done] channel by the generation of its
    consumer. What a call does with its reply, and the table it waits in, is
    [Dispatcher]'s. *)
From S2P Require Import Prelude.

(** ** State *)

(** [dispatcher]: the fields its mutex guards; [replyGen] counts restores and is
    taken not to wrap. *)
Record dispatcher := {
  pub : option nat; consumeCh : option nat; replyQueue : option nat;
  replyGen : nat; loopDone : option nat; closed : bool;
  calls : gset nat
}.

(** Open channels, those with a live reply consumer, and the loops by generation:
    their channel and whether they still read. *)
Record world := {
  opens : gset nat;
  live : gset nat;
  loops : gmap nat (nat * bool);
  next : nat
}.

(** Who holds the restore lock. *)
Inductive restorer := Attach | Supervisor | Recovery (gen : nat) | Repair.

(** [tryRecoverReplies] retires the dead consumer in four steps; [repair] closes
    the old publishing channel before a full restore, or replaces it alone; the
    rest is [restoreTopology]. *)
Inductive restore_pc :=
| RecoverFail (dead : nat) (p : option nat)
| RecoverClear (dead : nat) (p : option nat)
| RecoverCloseDead (dead : nat) (p : option nat)
| RecoverClosePub (p : option nat)
| RepairCloseOld (old : option nat)
| RepairOpen (old : option nat)
| RepairInstall (m : nat) (old : option nat)
| RepairRetire (old : option nat)
| Check
| Declaring
| Declared (n : nat)
| WithPub (n m : nat)
| Consumed (n m : nat).

(** The connection: up; closed, unnoticed; noticed, [connectionLost] about to
    fail the pending calls, then about to clear the fields; gone, the supervisor
    reconnecting; this component restored, which is not announced yet. *)
Inductive session_phase := Up | Dying | LostFail | LostClear | Down | Back.

#[export] Instance session_phase_eq_dec : EqDecision session_phase.
Proof. solve_decision. Defined.

Inductive close_pc :=
| NotClosing
| CloseFail (p c done : option nat)
| CloseReplies (p c done : option nat)
| ClosePub (p done : option nat)
| CloseAwait (done : option nat)
| CloseReturned.

(** A call that expects a reply: in [channel]; handed a channel and a queue;
    registered, about to publish; published; over. *)
Inductive call_pc :=
| Wants
| Holds (p q : nat)
| Registered (p q : nat)
| Waiting (q : nat)
| Over.

(** [ending] are the loops that have closed [done], [deciding] those that found
    their end unexpected and are to look at the session. [missed] marks a call
    left behind: see [step]. *)
Record threads := {
  restoring : option (restorer * restore_pc);
  sess : session_phase;
  finished : bool;
  attached : bool;
  registered : bool;
  ending : list nat;
  deciding : list nat;
  recoveries : list nat;
  closer : close_pc;
  callers : gmap nat call_pc;
  resolved : gset nat;
  missed : bool
}.

Record life := Life { dispatcher_of : dispatcher; world_of : world; threads_of : threads }.

(** ** Operations *)

(** [newDispatcher] *)
Definition newDispatcher : dispatcher := {|
  pub := None; consumeCh := None; replyQueue := None; replyGen := 0; loopDone := None; closed := false; calls := ∅ |}.

(** The last critical section of [restoreTopology]. *)
Definition install (n m : nat) (x : dispatcher) : dispatcher := {|
  pub := Some m; consumeCh := Some n; replyQueue := Some n; replyGen := S (replyGen x);
  loopDone := Some (S (replyGen x)); closed := closed x; calls := calls x |}.

(** The critical section of [connectionLost]. *)
Definition clear (x : dispatcher) : dispatcher := {|
  pub := None; consumeCh := None; replyQueue := None; replyGen := replyGen x; loopDone := loopDone x;
  closed := closed x; calls := calls x |}.

(** The critical section of [close]. *)
Definition close_fields (x : dispatcher) : dispatcher := {|
  pub := None; consumeCh := None; replyQueue := None; replyGen := replyGen x; loopDone := loopDone x;
  closed := true; calls := calls x |}.

(** [repair] installs a publishing channel. *)
Definition set_pub (m : nat) (x : dispatcher) : dispatcher := {|
  pub := Some m; consumeCh := consumeCh x; replyQueue := replyQueue x; replyGen := replyGen x; loopDone := loopDone x;
  closed := closed x; calls := calls x |}.

Definition set_calls (cs : gset nat) (x : dispatcher) : dispatcher := {|
  pub := pub x; consumeCh := consumeCh x; replyQueue := replyQueue x; replyGen := replyGen x; loopDone := loopDone x;
  closed := closed x; calls := cs |}.

(** Whether the end of the loop of consumer [gen] on channel [n] is unexpected. *)
Definition unexpected (n gen : nat) (x : dispatcher) : bool :=
  negb (closed x) && bool_decide (replyGen x = gen) && bool_decide (consumeCh x = Some n).

(** What [tryRecoverReplies] calls stale. *)
Definition stale (gen : nat) (x : dispatcher) : bool := closed x || negb (bool_decide (replyGen x = gen)).

Definition open_channel (w : world) : world := {|
  opens := {[next w]} ∪ opens w; live := live w; loops := loops w; next := S (next w) |}.

Definition close_channel (o : option nat) (w : world) : world :=
  match o with
  | Some n => {| opens := opens w ∖ {[n]}; live := live w ∖ {[n]}; loops := loops w; next := next w |}
  | None => w
  end.

(** The connection closes, and its channels with it. *)
Definition close_connection (w : world) : world := {| opens := ∅; live := ∅; loops := loops w; next := next w |}.

(** [ConsumeWithContext] *)
Definition consume (n : nat) (w : world) : world := {|
  opens := opens w; live := {[n]} ∪ live w; loops := loops w; next := next w |}.

(** The broker cancels a consumer. *)
Definition cancel_consumer (n : nat) (w : world) : world := {|
  opens := opens w; live := live w ∖ {[n]}; loops := loops w; next := next w |}.

(** [go d.receive(...)] *)
Definition spawn (gen n : nat) (w : world) : world := {|
  opens := opens w; live := live w; loops := <[gen := (n, true)]> (loops w); next := next w |}.

(** The deliveries of a loop ended. *)
Definition end_loop (gen n : nat) (w : world) : world := {|
  opens := opens w; live := live w; loops := <[gen := (n, false)]> (loops w); next := next w |}.

(** [session.current]'s readiness. *)
Definition ready (y : threads) : bool :=
  negb (finished y) && match sess y with Up | Dying => true | _ => false end.

(** *** Updates of the threads *)

Definition set_restoring (r : option (restorer * restore_pc)) (y : threads) : threads := {|
  restoring := r; sess := sess y; finished := finished y; attached := attached y; registered := registered y;
  ending := ending y; deciding := deciding y; recoveries := recoveries y; closer := closer y; callers := callers y;
  resolved := resolved y; missed := missed y |}.

Definition set_sess (p : session_phase) (y : threads) : threads := {|
  restoring := restoring y; sess := p; finished := finished y; attached := attached y; registered := registered y;
  ending := ending y; deciding := deciding y; recoveries := recoveries y; closer := closer y; callers := callers y;
  resolved := resolved y; missed := missed y |}.

Definition set_finished (y : threads) : threads := {|
  restoring := restoring y; sess := sess y; finished := true; attached := attached y; registered := registered y;
  ending := ending y; deciding := deciding y; recoveries := recoveries y; closer := closer y; callers := callers y;
  resolved := resolved y; missed := missed y |}.

Definition set_registered (b : bool) (y : threads) : threads := {|
  restoring := restoring y; sess := sess y; finished := finished y; attached := attached y; registered := b;
  ending := ending y; deciding := deciding y; recoveries := recoveries y; closer := closer y; callers := callers y;
  resolved := resolved y; missed := missed y |}.

Definition set_loops (e d r : list nat) (y : threads) : threads := {|
  restoring := restoring y; sess := sess y; finished := finished y; attached := attached y; registered := registered y;
  ending := e; deciding := d; recoveries := r; closer := closer y; callers := callers y; resolved := resolved y;
  missed := missed y |}.

Definition set_closer (p : close_pc) (y : threads) : threads := {|
  restoring := restoring y; sess := sess y; finished := finished y; attached := attached y; registered := registered y;
  ending := ending y; deciding := deciding y; recoveries := recoveries y; closer := p; callers := callers y;
  resolved := resolved y; missed := missed y |}.

Definition set_caller (k : nat) (p : call_pc) (y : threads) : threads := {|
  restoring := restoring y; sess := sess y; finished := finished y; attached := attached y; registered := registered y;
  ending := ending y; deciding := deciding y; recoveries := recoveries y; closer := closer y;
  callers := <[k := p]> (callers y); resolved := resolved y; missed := missed y |}.

Definition set_resolved (rs : gset nat) (y : threads) : threads := {|
  restoring := restoring y; sess := sess y; finished := finished y; attached := attached y; registered := registered y;
  ending := ending y; deciding := deciding y; recoveries := recoveries y; closer := closer y; callers := callers y;
  resolved := rs; missed := missed y |}.

Definition set_missed (b : bool) (y : threads) : threads := {|
  restoring := restoring y; sess := sess y; finished := finished y; attached := attached y; registered := registered y;
  ending := ending y; deciding := deciding y; recoveries := recoveries y; closer := closer y; callers := callers y;
  resolved := resolved y; missed := b |}.

(** [failPending] empties the table and resolves what was in it. *)
Definition failPending (x : dispatcher) (y : threads) : dispatcher * threads :=
  (set_calls ∅ x, set_resolved (resolved y ∪ calls x) y).

(** A restore returns without an error: [attachOnce] registers the component,
    the supervisor goes on to the others, a recovery is over. *)
Definition restored (who : restorer) (y : threads) : threads := {|
  restoring := None;
  sess := match who with Supervisor => Back | _ => sess y end; finished := finished y;
  attached := match who with Attach => true | _ => attached y end;
  registered := match who with Attach => true | _ => registered y end;
  ending := ending y; deciding := deciding y;
  recoveries := match who with Recovery gen => remove Nat.eq_dec gen (recoveries y) | _ => recoveries y end;
  closer := closer y; callers := callers y; resolved := resolved y; missed := missed y |}.

(** A restore by [who] can open a channel: the supervisor on its new connection,
    the others while the connection they found ready lives. *)
Definition can_open (who : restorer) (y : threads) : Prop :=
  match who with Supervisor => sess y = Down | _ => sess y = Up end.

(** [close] has not failed the pending calls yet. *)
Definition before_fail (c : close_pc) : bool := match c with NotClosing | CloseFail _ _ _ => true | _ => false end.

(** A request published now is not failed by anyone: the pending calls were
    already failed, by a recovery that is yet to close the publishing channel or
    by [close]. *)
Definition late (y : threads) : bool :=
  match restoring y with
  | Some (_, RecoverClear _ _) | Some (_, RecoverCloseDead _ _) | Some (_, RecoverClosePub _) => true
  | _ => false
  end ||
  negb (before_fail (closer y)).

(** Some call waits for a reply it has not got. *)
Definition some_waiting (y : threads) : Prop := exists k q, callers y !! k = Some (Waiting q) /\ k ∉ resolved y.

(** ** Steps *)

Inductive step : life -> life -> Prop :=
(* tryRecoverReplies, and the end of recoverReplies *)
| recover_begin x w y gen dead :
    restoring y = None -> gen ∈ recoveries y -> stale gen x = false -> ready y = true -> consumeCh x = Some dead ->
    step (Life x w y) (Life x w (set_restoring (Some (Recovery gen, RecoverFail dead (pub x))) y))
| recover_again x w y gen :
    restoring y = None -> gen ∈ recoveries y -> stale gen x = false -> ready y = true -> consumeCh x = None ->
    step (Life x w y) (Life x w (set_restoring (Some (Recovery gen, Check)) y))
| recover_over x w y gen :
    restoring y = None -> gen ∈ recoveries y -> stale gen x = true \/ ready y = false ->
    step (Life x w y) (Life x w (set_missed (missed y || bool_decide (sess y = Back))
      (set_loops (ending y) (deciding y) (remove Nat.eq_dec gen (recoveries y)) y)))
| recover_fail x w y gen dead p x' y' :
    restoring y = Some (Recovery gen, RecoverFail dead p) -> failPending x y = (x', y') ->
    step (Life x w y) (Life x' w (set_restoring (Some (Recovery gen, RecoverClear dead p)) y'))
| recover_clear x w y gen dead p :
    restoring y = Some (Recovery gen, RecoverClear dead p) ->
    step (Life x w y) (Life (clear x) w (set_restoring (Some (Recovery gen, RecoverCloseDead dead p)) y))
| recover_close_dead x w y gen dead p :
    restoring y = Some (Recovery gen, RecoverCloseDead dead p) ->
    step (Life x w y) (Life x (close_channel (Some dead) w) (set_restoring (Some (Recovery gen, RecoverClosePub p)) y))
| recover_close_pub x w y gen p :
    restoring y = Some (Recovery gen, RecoverClosePub p) ->
    step (Life x w y) (Life x (close_channel p w) (set_restoring (Some (Recovery gen, Check)) y))
(* repair, by a call in channel *)
| repair_all x w y k :
    restoring y = None -> callers y !! k = Some Wants -> ready y = true -> sess y <> Dying -> replyQueue x = None ->
    step (Life x w y) (Life x w (set_restoring (Some (Repair, RepairCloseOld (pub x))) y))
| repair_close_old x w y old :
    restoring y = Some (Repair, RepairCloseOld old) ->
    step (Life x w y) (Life x (close_channel old w) (set_restoring (Some (Repair, Check)) y))
| repair_pub x w y k q :
    restoring y = None -> callers y !! k = Some Wants -> ready y = true -> sess y <> Dying -> replyQueue x = Some q ->
    (forall p, pub x = Some p -> p ∉ opens w) ->
    step (Life x w y) (Life x w (set_restoring (Some (Repair, RepairOpen (pub x))) y))
| repair_open x w y old :
    restoring y = Some (Repair, RepairOpen old) -> can_open Repair y ->
    step (Life x w y) (Life x (open_channel w) (set_restoring (Some (Repair, RepairInstall (next w) old)) y))
| repair_open_fail x w y old :
    restoring y = Some (Repair, RepairOpen old) ->
    step (Life x w y) (Life x w (set_restoring None y))
| repair_install x w y m old :
    restoring y = Some (Repair, RepairInstall m old) ->
    step (Life x w y) (Life (set_pub m x) w (set_restoring (Some (Repair, RepairRetire old)) y))
| repair_retire x w y old :
    restoring y = Some (Repair, RepairRetire old) ->
    step (Life x w y) (Life x (close_channel old w) (set_restoring None y))
(* the supervisor and attachOnce begin a restore *)
| supervisor_begin x w y :
    restoring y = None -> registered y = true -> sess y = Down ->
    step (Life x w y) (Life x w (set_restoring (Some (Supervisor, Check)) y))
| attach_begin x w y :
    restoring y = None -> attached y = false -> ready y = true ->
    step (Life x w y) (Life x w (set_restoring (Some (Attach, Check)) y))
(* restoreTopology *)
| restore_closed x w y who :
    restoring y = Some (who, Check) -> closed x = true ->
    step (Life x w y) (Life x w (restored who y))
| restore_check x w y who :
    restoring y = Some (who, Check) -> closed x = false ->
    step (Life x w y) (Life x w (set_restoring (Some (who, Declaring)) y))
| restore_declare x w y who :
    restoring y = Some (who, Declaring) -> can_open who y ->
    step (Life x w y) (Life x (open_channel w) (set_restoring (Some (who, Declared (next w))) y))
| restore_declare_fail x w y who :
    restoring y = Some (who, Declaring) ->
    step (Life x w y) (Life x w (set_restoring None y))
| restore_pub x w y who n :
    restoring y = Some (who, Declared n) -> can_open who y ->
    step (Life x w y) (Life x (open_channel w) (set_restoring (Some (who, WithPub n (next w))) y))
| restore_pub_fail x w y who n :
    restoring y = Some (who, Declared n) ->
    step (Life x w y) (Life x (close_channel (Some n) w) (set_restoring None y))
| restore_consume x w y who n m :
    restoring y = Some (who, WithPub n m) -> n ∈ opens w ->
    step (Life x w y) (Life x (consume n w) (set_restoring (Some (who, Consumed n m)) y))
| restore_consume_fail x w y who n m :
    restoring y = Some (who, WithPub n m) ->
    step (Life x w y) (Life x (close_channel (Some n) (close_channel (Some m) w)) (set_restoring None y))
| restore_install x w y who n m :
    restoring y = Some (who, Consumed n m) -> closed x = false ->
    step (Life x w y) (Life (install n m x) (spawn (S (replyGen x)) n w) (restored who y))
| restore_too_late x w y who n m :
    restoring y = Some (who, Consumed n m) -> closed x = true ->
    step (Life x w y) (Life x (close_channel (Some n) (close_channel (Some m) w)) (restored who y))
(* receive: the deliveries end, [done] is closed; was that expected; is the session ready *)
| loop_end x w y gen n :
    loops w !! gen = Some (n, true) -> n ∉ live w ->
    step (Life x w y) (Life x (end_loop gen n w) (set_loops (gen :: ending y) (deciding y) (recoveries y) y))
| loop_check x w y gen n l :
    ending y ≡ₚ gen :: l -> fst <$> loops w !! gen = Some n ->
    step (Life x w y) (Life x w
      (set_loops l (if unexpected n gen x then gen :: deciding y else deciding y) (recoveries y) y))
| loop_recover x w y gen l :
    deciding y ≡ₚ gen :: l -> ready y = true ->
    step (Life x w y) (Life x w (set_loops (ending y) l (gen :: recoveries y) y))
(* no recovery: in [Back], the consumer that died is the restored one, and nobody rebuilds it *)
| loop_leave x w y gen l :
    deciding y ≡ₚ gen :: l -> ready y = false ->
    step (Life x w y) (Life x w
      (set_missed (missed y || bool_decide (sess y = Back)) (set_loops (ending y) l (recoveries y) y)))
(* close, which the bus calls once, after it finished the session *)
| close_call x w y :
    attached y = true -> finished y = true -> closer y = NotClosing ->
    step (Life x w y) (Life (close_fields x) w
      (set_registered false (set_closer (CloseFail (pub x) (consumeCh x) (loopDone x)) y)))
| close_fail x w y p c done x' y' :
    closer y = CloseFail p c done -> failPending x y = (x', y') ->
    step (Life x w y) (Life x' w (set_closer (CloseReplies p c done) y'))
| close_replies x w y p c done :
    closer y = CloseReplies p c done ->
    step (Life x w y) (Life x (close_channel c w) (set_closer (ClosePub p done) y))
| close_pub x w y p done :
    closer y = ClosePub p done ->
    step (Life x w y) (Life x (close_channel p w) (set_closer (CloseAwait done) y))
| close_await x w y done :
    closer y = CloseAwait done -> (forall gen, done = Some gen -> snd <$> loops w !! gen = Some false) ->
    step (Life x w y) (Life x w (set_closer CloseReturned y))
(* the session *)
| session_dies x w y :
    sess y = Up -> step (Life x w y) (Life x (close_connection w) (set_sess Dying y))
| session_lost x w y :
    sess y = Dying -> registered y = true -> step (Life x w y) (Life x w (set_sess LostFail y))
| session_lost_alone x w y :
    sess y = Dying -> registered y = false -> step (Life x w y) (Life x w (set_sess Down y))
| lost_fail x w y x' y' :
    sess y = LostFail -> failPending x y = (x', y') ->
    step (Life x w y) (Life x' w (set_missed false (set_sess LostClear y')))
| lost_clear x w y :
    sess y = LostClear -> step (Life x w y) (Life (clear x) w (set_sess Down y))
| session_relost x w y :
    sess y = Back -> ~ some_waiting y -> step (Life x w y) (Life x (close_connection w) (set_sess Down y))
(* calls that waited on the restored connection are not failed when it goes unannounced *)
| session_relost_waiting x w y :
    sess y = Back -> some_waiting y ->
    step (Life x w y) (Life x (close_connection w) (set_missed true (set_sess Down y)))
| session_announced x w y :
    sess y = Back \/ sess y = Down /\ registered y = false -> restoring y = None ->
    step (Life x w y) (Life x w (set_sess Up y))
| session_finished x w y : step (Life x w y) (Life x w (set_finished y))
(* the environment *)
| channel_dies x w y n : step (Life x w y) (Life x (close_channel (Some n) w) y)
| broker_cancels x w y n : step (Life x w y) (Life x (cancel_consumer n w) y)
(* call *)
| call_begin x w y k :
    attached y = true -> callers y !! k = None -> step (Life x w y) (Life x w (set_caller k Wants y))
| call_channel x w y k p q :
    callers y !! k = Some Wants -> closed x = false -> pub x = Some p -> p ∈ opens w -> replyQueue x = Some q ->
    step (Life x w y) (Life x w (set_caller k (Holds p q) y))
| call_refused x w y k :
    callers y !! k = Some Wants -> step (Life x w y) (Life x w (set_caller k Over y))
| call_register x w y k p q :
    callers y !! k = Some (Holds p q) ->
    step (Life x w y) (Life (set_calls ({[k]} ∪ calls x) x) w
      (set_resolved (resolved y ∖ {[k]}) (set_caller k (Registered p q) y)))
| call_publish x w y k p q :
    callers y !! k = Some (Registered p q) -> p ∈ opens w ->
    step (Life x w y) (Life x w (set_missed (missed y || late y) (set_caller k (Waiting q) y)))
| call_publish_fail x w y k p q (again : bool) :
    callers y !! k = Some (Registered p q) ->
    step (Life x w y) (Life (set_calls (calls x ∖ {[k]}) x) w (set_caller k (if again then Wants else Over) y))
| call_reply x w y k gen n :
    k ∈ calls x -> loops w !! gen = Some (n, true) ->
    step (Life x w y) (Life (set_calls (calls x ∖ {[k]}) x) w (set_resolved ({[k]} ∪ resolved y) y))
| call_return x w y k q :
    callers y !! k = Some (Waiting q) -> k ∈ resolved y ->
    step (Life x w y) (Life x w (set_caller k Over y))
| call_timeout x w y k q :
    callers y !! k = Some (Waiting q) ->
    step (Life x w y) (Life (set_calls (calls x ∖ {[k]}) x) w (set_caller k Over y)).

Definition init : life := Life newDispatcher
  {| opens := ∅; live := ∅; loops := ∅; next := 0 |}
  {| restoring := None; sess := Up; finished := false; attached := false; registered := false; ending := [];
     deciding := []; recoveries := []; closer := NotClosing; callers := ∅; resolved := ∅; missed := false |}.

Definition reachable (s : life) : Prop := rtc step init s.

(** ** Invariants *)

(** What a restore in progress has opened and not installed. *)
Definition pc_new (p : restore_pc) : list nat :=
  match p with
  | RepairInstall m _ => [m]
  | Declared n => [n]
  | WithPub n m | Consumed n m => [n; m]
  | _ => []
  end.

(** [restoreTopology] is running. *)
Definition in_topology (p : restore_pc) : bool :=
  match p with Check | Declaring | Declared _ | WithPub _ _ | Consumed _ _ => true | _ => false end.

(** Nothing happens before the dispatcher is attached. *)
Definition unattached (x : dispatcher) (w : world) (y : threads) : Prop :=
  pub x = None /\ consumeCh x = None /\ callers y = ∅ /\ loops w = ∅ /\ registered y = false /\ closer y = NotClosing /\
  match restoring y with Some (who, p) => who = Attach /\ in_topology p = true | None => True end.

Definition holds_channel (c : call_pc) : option nat :=
  match c with Holds p _ | Registered p _ => Some p | _ => None end.

Record core_ok (x : dispatcher) (w : world) (y : threads) : Prop := {
  ck_queue : replyQueue x = consumeCh x;
  ck_loop : forall n, consumeCh x = Some n -> exists b, loops w !! replyGen x = Some (n, b);
  ck_gens : forall g i, loops w !! g = Some i -> g <= replyGen x;
  ck_ended : forall g, g ∈ ending y ++ deciding y ++ recoveries y -> exists n, loops w !! g = Some (n, false);
  ck_closed : closed x = true <-> closer y <> NotClosing;
  ck_cleared : closed x = true -> consumeCh x = None;
  ck_finished : closer y <> NotClosing -> finished y = true;
  ck_registered : attached y = true -> closed x = false -> registered y = true;
  ck_attached : attached y = false -> unattached x w y
}.

(** Numbers are fresh. *)
Record known (x : dispatcher) (w : world) (y : threads) : Prop := {
  kn_opens : forall n, n ∈ opens w -> n < next w;
  kn_live : live w ⊆ opens w;
  kn_loops : forall g n b, loops w !! g = Some (n, b) -> n < next w;
  kn_pub : forall n, pub x = Some n -> n < next w;
  kn_consumeCh : forall n, consumeCh x = Some n -> n < next w;
  kn_callers : forall k c n, callers y !! k = Some c -> holds_channel c = Some n -> n < next w
}.

(** A number a restore opened is its own until it installs it. *)
Definition pc_fresh (x : dispatcher) (w : world) (y : threads) (n : nat) : Prop :=
  n < next w /\ pub x <> Some n /\ consumeCh x <> Some n /\
  (forall g b, loops w !! g <> Some (n, b)) /\ (forall k c, callers y !! k = Some c -> holds_channel c <> Some n).

(** No open channel is installed. *)
Definition idle (x : dispatcher) (w : world) : Prop := consumeCh x = None /\ forall n, pub x = Some n -> n ∉ opens w.

(** Where the restore stands. *)
Definition pc_fits (x : dispatcher) (w : world) (y : threads) (who : restorer) (p : restore_pc) : Prop :=
  match p with
  | RecoverFail dead o | RecoverClear dead o =>
      (exists gen, who = Recovery gen /\ loops w !! gen = Some (dead, false)) /\
      (consumeCh x = Some dead \/ consumeCh x = None) /\ (pub x = o \/ pub x = None)
  | RecoverCloseDead dead _ =>
      (exists gen, who = Recovery gen /\ loops w !! gen = Some (dead, false)) /\ consumeCh x = None /\ pub x = None
  | RecoverClosePub _ => consumeCh x = None /\ pub x = None
  | RepairCloseOld old => consumeCh x = None /\ (pub x = old \/ pub x = None)
  | RepairOpen old =>
      (pub x = old \/ pub x = None) /\ (consumeCh x = None -> closed x = true \/ sess y <> Up)
  | RepairInstall m old =>
      (pub x = old \/ pub x = None) /\ (consumeCh x = None -> closed x = true \/ m ∉ opens w)
  | RepairRetire _ => True
  | _ => who = Supervisor \/ idle x w
  end.

Record restore_ok (x : dispatcher) (w : world) (y : threads) : Prop := {
  rk_super : forall p, restoring y = Some (Supervisor, p) -> sess y = Down /\ in_topology p = true;
  rk_repair : forall who p, restoring y = Some (who, p) ->
    match p with RepairCloseOld _ | RepairOpen _ | RepairInstall _ _ | RepairRetire _ => who = Repair | _ => True end;
  rk_gen : forall gen p, restoring y = Some (Recovery gen, p) -> replyGen x = gen /\ gen ∈ recoveries y;
  rk_new : forall who p n, restoring y = Some (who, p) -> n ∈ pc_new p -> pc_fresh x w y n;
  rk_pc : forall who p, restoring y = Some (who, p) -> pc_fits x w y who p;
  rk_pub : forall n, consumeCh x = None -> pub x = Some n -> n ∈ opens w -> closed x = true
}.

(** Who is to close an open channel that is in no field. *)
Definition close_holds (c : close_pc) (n : nat) : Prop :=
  match c with
  | CloseFail o c _ | CloseReplies o c _ => o = Some n \/ c = Some n
  | ClosePub o _ => o = Some n
  | _ => False
  end.

Definition restore_holds (p : restore_pc) (n : nat) : Prop :=
  match p with
  | RecoverCloseDead d o => d = n \/ o = Some n
  | RecoverClosePub o | RepairRetire o => o = Some n
  | p => n ∈ pc_new p
  end.

Definition held (y : threads) (n : nat) : Prop :=
  match restoring y with Some (_, p) => restore_holds p n | None => False end \/ close_holds (closer y) n.

Definition held_consumer (y : threads) (n : nat) : Prop :=
  match restoring y with
  | Some (_, RecoverCloseDead d _) => d = n
  | Some (_, Consumed c _) => c = n
  | _ => False
  end \/
  match closer y with CloseFail _ c _ | CloseReplies _ c _ => c = Some n | _ => False end.

(** The supervisor opened it on its new connection. *)
Definition super_holds (y : threads) (n : nat) : Prop :=
  match restoring y with Some (Supervisor, p) => n ∈ pc_new p | _ => False end.

Record owned (x : dispatcher) (w : world) (y : threads) : Prop := {
  ow_channels : forall n, n ∈ opens w -> pub x = Some n \/ consumeCh x = Some n \/ held y n;
  ow_consumers : forall n, n ∈ live w -> consumeCh x = Some n \/ held_consumer y n;
  ow_phase : forall n, n ∈ opens w -> sess y = Up \/ sess y = Back \/ super_holds y n
}.

Ltac split_step Hs := destruct Hs; simpl in *; unfold failPending in *; simplify_eq; simpl in *.

Lemma elem_of_remove (g a : nat) l : g ∈ remove Nat.eq_dec a l -> g ∈ l.
Proof. rewrite !list_elem_of_In. intros H. by apply in_remove in H as [? _]. Qed.

(** Ended loops stay so; a step may add one and forget some. *)
Lemma core_ok_frame x x' w w' y y' :
  core_ok x w y ->
  consumeCh x' = replyQueue x' -> (consumeCh x' = consumeCh x \/ consumeCh x' = None) -> replyGen x' = replyGen x ->
  loops w' = loops w ->
  (forall g, g ∈ ending y' ++ deciding y' ++ recoveries y' -> g ∈ ending y ++ deciding y ++ recoveries y) ->
  closed x' = closed x -> (closer y' = NotClosing <-> closer y = NotClosing) ->
  (finished y = true -> finished y' = true) -> attached y' = attached y -> registered y' = registered y ->
  (attached y = false -> unattached x w y -> unattached x' w' y') -> core_ok x' w' y'.
Proof.
  intros [Hq Hl Hg He Hc Hcc Hf Hr Ha] E1 E2 E3 E4 E5 E6 E7 E8 E9 E10 E11. split; rewrite ?E3, ?E4, ?E6, ?E9, ?E10; auto.
  - intros n Hn. destruct E2 as [E2|E2]; rewrite E2 in Hn; [auto|done].
  - rewrite E7. done.
  - intros H%Hcc. destruct E2; congruence.
  - rewrite E7. auto.
Qed.

Lemma unattached_false x w y : core_ok x w y -> (exists k c, callers y !! k = Some c) \/ (exists g i, loops w !! g = Some i) ->
  attached y = true.
Proof.
  intros H [(k & c & E)|(g & i & E)]; destruct (attached y) eqn:Ea; try done; exfalso;
    destruct (ck_attached _ _ _ H Ea) as (_ & _ & Hc & Hl & _); [rewrite Hc in E|rewrite Hl in E]; by apply lookup_empty_Some in E.
Qed.

Lemma restore_attached x w y who p : core_ok x w y -> restoring y = Some (who, p) -> who <> Attach \/ in_topology p = false ->
  attached y = true.
Proof.
  intros H E Hw. destruct (attached y) eqn:Ea; [done|]. exfalso.
  destruct (ck_attached _ _ _ H Ea) as (_ & _ & _ & _ & _ & _ & Hp). rewrite E in Hp. destruct Hp, Hw; congruence.
Qed.

Lemma listed_attached x w y g : core_ok x w y -> g ∈ ending y ++ deciding y ++ recoveries y -> attached y = true.
Proof. intros H (n & E)%(ck_ended _ _ _ H). eapply unattached_false; eauto. Qed.

Lemma perm_head {A} (l l' : list A) a : l ≡ₚ a :: l' -> a ∈ l /\ forall b, b ∈ l' -> b ∈ l.
Proof. intros E. split; [rewrite E; by left|]. intros b Hb. rewrite E. by right. Qed.

Ltac find_attached H :=
  first [ assumption
        | eapply unattached_false; [exact H|]; by eauto
        | eapply restore_attached; [exact H|eassumption|]; by first [left; discriminate|right]
        | eapply listed_attached; [exact H|]; rewrite !elem_of_app; by eauto ].

Lemma close_channel_loops o w : loops (close_channel o w) = loops w /\ next (close_channel o w) = next w.
Proof. by destruct o. Qed.

Lemma closed_attached x w y : core_ok x w y -> closed x = true -> attached y = true.
Proof.
  intros H Hc. destruct (attached y) eqn:Ea; [done|]. exfalso.
  destruct (ck_attached _ _ _ H Ea) as (_ & _ & _ & _ & _ & Hn & _). by apply (ck_closed _ _ _ H) in Hc.
Qed.

(** A restore that does nothing because the dispatcher is closed. *)
Lemma core_ok_restored x w w' y who :
  core_ok x w y -> loops w' = loops w -> closed x = true -> core_ok x w' (restored who y).
Proof.
  intros H E Hx. pose proof (closed_attached _ _ _ H Hx) as Hat. pose proof H as [Hq Hl Hg He Hc Hcc Hf Hr Ha].
  split; simpl; rewrite ?E; auto.
  - intros g Hin. apply He. rewrite !elem_of_app in *. destruct who; try done. naive_solver eauto using elem_of_remove.
  - destruct who; congruence.
  - destruct who; congruence.
Qed.

Lemma core_ok_install x w y who n m :
  core_ok x w y -> restoring y = Some (who, Consumed n m) -> closed x = false ->
  core_ok (install n m x) (spawn (S (replyGen x)) n w) (restored who y).
Proof.
  intros H E Hx. pose proof H as [Hq Hl Hg He Hc Hcc Hf Hr Ha]. split; simpl; try done; try congruence.
  - intros k [= <-]. exists true. by rewrite lookup_insert_eq.
  - intros g i. rewrite lookup_insert_Some. intros [[<- _]|[_ ?%Hg]]; lia.
  - intros g Hin. assert (g ∈ ending y ++ deciding y ++ recoveries y) as (k & Hk)%He.
    { rewrite !elem_of_app in *. destruct who; try done. naive_solver eauto using elem_of_remove. }
    exists k. rewrite lookup_insert_ne; [done|]. apply Hg in Hk. lia.
  - destruct who; auto.
  - intros Ea. destruct who; try done; assert (attached y = true) as Hat by find_attached H; congruence.
Qed.

Lemma core_ok_end x w y gen n :
  core_ok x w y -> loops w !! gen = Some (n, true) -> attached y = true ->
  core_ok x (end_loop gen n w) (set_loops (gen :: ending y) (deciding y) (recoveries y) y).
Proof.
  intros H E Hat. pose proof H as [Hq Hl Hg He Hc Hcc Hf Hr Ha]. split; simpl; try done; try congruence.
  - intros k Hk. destruct (Hl k Hk) as [b Hb]. destruct (decide (gen = replyGen x)) as [->|].
    + rewrite lookup_insert_eq. exists false. congruence.
    + rewrite lookup_insert_ne by done. eauto.
  - intros g i. rewrite lookup_insert_Some. intros [[<- _]|[_ ?]]; eauto.
  - intros g. rewrite elem_of_cons. intros [->|(k & Hk)%He]; [by rewrite lookup_insert_eq; eauto|].
    exists k. rewrite lookup_insert_ne; [done|]. congruence.
Qed.

Lemma core_ok_close x w y :
  core_ok x w y -> attached y = true -> finished y = true ->
  core_ok (close_fields x) w (set_registered false (set_closer (CloseFail (pub x) (consumeCh x) (loopDone x)) y)).
Proof. intros [Hq Hl Hg He Hc Hcc Hf Hr Ha] Hat Hfi. split; simpl; try done; congruence. Qed.

Lemma core_ok_step s s' : step s s' -> core_ok (dispatcher_of s) (world_of s) (threads_of s) ->
  core_ok (dispatcher_of s') (world_of s') (threads_of s').
Proof.
  intros Hs H. pose proof H as [Hq Hl Hg He Hc Hcc Hf Hr Ha]. split_step Hs.
  all: repeat match goal with P : _ ≡ₚ _ :: _ |- _ => apply perm_head in P as [? ?] end.
  all: try (assert (attached y = true) as Hat by find_attached H).
  all: try (by apply core_ok_install).
  all: try (by apply core_ok_end).
  all: try (by apply core_ok_close).
  all: try (by eapply core_ok_restored; [exact H|rewrite ?(proj1 (close_channel_loops _ _))|]).
  all: try (by eapply core_ok_frame; [exact H|..]; simpl; rewrite ?(proj1 (close_channel_loops _ _)); auto; try (by destruct (closer y)); 
     intros Hn Hu; unfold unattached in *; simpl in *; repeat match goal with E : restoring _ = _ |- _ => rewrite E in Hu end;
     intuition (congruence || auto)).
  all: eapply core_ok_frame; [exact H|..]; simpl; auto; try congruence.
  all: intros g; rewrite !elem_of_app; try destruct (unexpected n gen x); rewrite ?elem_of_cons; naive_solver eauto using elem_of_remove.
Qed.

Lemma known_frame x x' w w' y y' :
  known x w y -> opens w' ⊆ opens w -> live w' ⊆ live w -> live w' ⊆ opens w' -> loops w' = loops w -> next w' = next w ->
  (pub x' = pub x \/ pub x' = None) -> (consumeCh x' = consumeCh x \/ consumeCh x' = None) ->
  (forall k c n, callers y' !! k = Some c -> holds_channel c = Some n -> n < next w) -> known x' w' y'.
Proof.
  intros [Ho Hli Hlo Hp Hc Hk] E1 E2 E3 E4 E5 E6 E7 E8. split; rewrite ?E4, ?E5; eauto.
  - intros n Hn. destruct E6 as [E|E]; rewrite E in Hn; [auto|done].
  - intros n Hn. destruct E7 as [E|E]; rewrite E in Hn; [auto|done].
Qed.

Lemma close_channel_sub o w :
  opens (close_channel o w) ⊆ opens w /\ live (close_channel o w) ⊆ live w /\
  (live w ⊆ opens w -> live (close_channel o w) ⊆ opens (close_channel o w)).
Proof. destruct o; simpl; set_solver. Qed.

#[local] Arguments close_channel : simpl never.

(** A caller moves on. *)
Lemma known_caller w (cs : gmap nat call_pc) k c :
  (forall j d n, cs !! j = Some d -> holds_channel d = Some n -> n < next w) ->
  (forall n, holds_channel c = Some n -> n < next w) ->
  forall j d n, <[k := c]> cs !! j = Some d -> holds_channel d = Some n -> n < next w.
Proof. intros H Hc j d n Hj. apply lookup_insert_Some in Hj as [[_ <-]|[_ Hj]]; eauto. Qed.

Lemma close_connection_sub w :
  opens (close_connection w) ⊆ opens w /\ live (close_connection w) ⊆ live w /\ live (close_connection w) ⊆ opens (close_connection w).
Proof. simpl. set_solver. Qed.

Lemma known_open x w y y' :
  known x w y -> callers y' = callers y -> known x (open_channel w) y'.
Proof.
  intros [Ho Hli Hlo Hp Hc Hk] E. split; simpl; rewrite ?E; eauto using Nat.lt_lt_succ_r.
  - intros n. rewrite elem_of_union, elem_of_singleton. intros [->|?%Ho]; lia.
  - set_solver.
Qed.

Lemma known_shrink x x' w w' y y' :
  known x w y -> opens w' ⊆ opens w -> live w' ⊆ live w -> live w' ⊆ opens w' -> loops w' = loops w -> next w' = next w ->
  (pub x' = pub x \/ pub x' = None) -> (consumeCh x' = consumeCh x \/ consumeCh x' = None) -> callers y' = callers y ->
  known x' w' y'.
Proof. intros H ? ? ? ? ? ? ? E. eapply known_frame; [exact H|done..|]. rewrite E. apply H. Qed.

Lemma known_close x x' w y y' o :
  known x w y -> (pub x' = pub x \/ pub x' = None) -> (consumeCh x' = consumeCh x \/ consumeCh x' = None) ->
  callers y' = callers y -> known x' (close_channel o w) y'.
Proof.
  intros H ? ? ?. destruct (close_channel_sub o w) as (? & ? & Hs), (close_channel_loops o w) as [? ?].
  eapply known_shrink; [exact H|done|done|apply Hs, H|done..].
Qed.

Lemma known_step s s' : step s s' -> restore_ok (dispatcher_of s) (world_of s) (threads_of s) ->
  known (dispatcher_of s) (world_of s) (threads_of s) -> known (dispatcher_of s') (world_of s') (threads_of s').
Proof.
  intros Hs R H. pose proof H as [Ho Hli Hlo Hp Hc Hk]. destruct Hs; simpl in *; unfold failPending in *; simplify_eq.
  all: try (by apply known_open with y).
  all: try (by eapply known_close; [exact H|auto..]).
  all: try (by eapply known_close; [eapply known_close; [exact H|auto..]|auto..]).
  all: try (by eapply known_shrink; [exact H|auto..]).
  all: try (by eapply known_frame; [exact H|auto..]; apply known_caller; [done|intros ?; simpl; congruence]).
  - (* repair_install *) destruct (rk_new _ _ _ R _ _ m H0) as (? & _); [by left|]. split; simpl; try done. intros n [= <-]. done.
  - (* consume *) split; simpl; try done. set_solver.
  - (* install *) destruct (rk_new _ _ _ R _ _ n H0) as (? & _); [by left|].
    destruct (rk_new _ _ _ R _ _ m H0) as (? & _); [by right; left|].
    split; simpl; try done; try (by intros k [= <-]). intros g k b. rewrite lookup_insert_Some. naive_solver.
  - (* loop_end *) split; simpl; try done. intros g k b. rewrite lookup_insert_Some. naive_solver.
  - split; simpl; try done. set_solver.
  - eapply known_frame; [exact H|auto..]. apply known_caller; [done|]. intros m [= <-]. auto.
  - eapply known_frame; [exact H|auto..]. apply known_caller; [done|]. intros m [= <-]. by eapply Hk.
  - eapply known_frame; [exact H|auto..]. apply known_caller; [done|]. by destruct again.
Qed.
(** Steps of the others, the restore staying where it is. *)
Lemma restore_ok_frame x x' w w' y y' :
  restore_ok x w y -> restoring y' = restoring y ->
  (restoring y = None \/ (sess y = Down -> sess y' = Down) /\ (sess y <> Up -> sess y' <> Up)) ->
  replyGen x' = replyGen x -> (restoring y = None \/ forall g, g ∈ recoveries y -> g ∈ recoveries y') ->
  (forall n, pc_fresh x w y n -> pc_fresh x' w' y' n) ->
  opens w' ⊆ opens w -> (forall g d, loops w !! g = Some (d, false) -> loops w' !! g = Some (d, false)) ->
  (pub x' = pub x \/ pub x' = None) ->
  (consumeCh x' = consumeCh x \/ consumeCh x' = None /\ (closed x' = true \/ sess y' <> Up /\ opens w' = ∅)) ->
  (closed x = true -> closed x' = true) -> restore_ok x' w' y'.
Proof.
  intros [Rs Rr Rg Rn Rp Rb] E1 E2 E3 E4 E5 E6 E7 E8 E9 E10. split; rewrite ?E1; try done.
  - intros p Hp. destruct (Rs p Hp). destruct E2 as [?|[? _]]; [congruence|auto].
  - intros g p Hp. destruct (Rg g p Hp). rewrite E3. split; [done|]. destruct E4; [congruence|auto].
  - eauto.
  - intros who p Hp. specialize (Rp who p Hp).
    assert (consumeCh x = None -> consumeCh x' = None) as Hcn by (intros; destruct E9 as [->|[? _]]; auto).
    assert (consumeCh x' = None -> consumeCh x = None \/ closed x' = true \/ sess y' <> Up /\ opens w' = ∅) as Hnc
      by (intros Hn; destruct E9 as [E|[_ ?]]; [rewrite E in Hn|]; auto).
    assert (forall o, pub x = o \/ pub x = None -> pub x' = o \/ pub x' = None) as Hpo by (intros o Ho; destruct E8 as [->|E]; auto).
    assert (pub x = None -> pub x' = None) as Hpn by (destruct E8; congruence).
    assert (idle x w -> idle x' w') as Hi.
    { intros [? Hn]. split; [auto|]. intros n Hb Hi. destruct E8 as [E|E]; rewrite E in Hb; [|done]. by apply (Hn n Hb), E6. }
    destruct p; simpl in *; try done; try (by destruct Rp; auto).
    1-2: destruct Rp as ((g & -> & ?) & Hc & Ho); split_and!; eauto; destruct E9 as [E|[? _]]; rewrite ?E; auto.
    1: destruct Rp as ((g & -> & ?) & Hc & Ho); split_and!; eauto.
    + destruct Rp as [Ho Hn]. split; [auto|]. intros [H|[H|[H _]]]%Hnc; auto. destruct (Hn H); [auto|right].
      destruct E2 as [?|[_ ?]]; [congruence|auto].
    + destruct Rp as [Ho Hn]. split; [auto|]. intros [H|[H|[_ H]]]%Hnc; auto; [destruct (Hn H); set_solver|right; set_solver].
  - intros n Hn Hp Ho. destruct E8 as [E|E]; rewrite E in Hp; [|done].
    destruct E9 as [E'|[_ [?|[_ E']]]]; [rewrite E' in Hn; eauto|done|]. rewrite E' in Ho. by apply elem_of_empty in Ho.
Qed.

Lemma pc_fresh_frame x x' w w' y y' n :
  next w <= next w' -> (pub x' = pub x \/ pub x' = None) -> (consumeCh x' = consumeCh x \/ consumeCh x' = None) ->
  (forall g m b, loops w' !! g = Some (m, b) -> exists b', loops w !! g = Some (m, b')) ->
  (forall k c m, callers y' !! k = Some c -> holds_channel c = Some m ->
     (exists k' c', callers y !! k' = Some c' /\ holds_channel c' = Some m) \/ pub x = Some m) ->
  pc_fresh x w y n -> pc_fresh x' w' y' n.
Proof.
  intros E1 E2 E3 E4 E5 (Hlt & Hp & Hc & Hl & Hk). split_and!; [lia| | |..].
  - destruct E2 as [->| ->]; congruence.
  - destruct E3 as [->| ->]; congruence.
  - intros g b (b' & Hb)%E4. by destruct (Hl g b').
  - intros k c Hkc Hh. destruct (E5 k c n Hkc Hh) as [(k' & c' & ? & ?)|?]; [|done]. by destruct (Hk k' c').
Qed.

Lemma callers_moved (cs : gmap nat call_pc) (o : option nat) k c :
  (forall m, holds_channel c = Some m -> (exists k' c', cs !! k' = Some c' /\ holds_channel c' = Some m) \/ o = Some m) ->
  forall j d m, <[k := c]> cs !! j = Some d -> holds_channel d = Some m ->
    (exists k' c', cs !! k' = Some c' /\ holds_channel c' = Some m) \/ o = Some m.
Proof. intros H j d m Hj. apply lookup_insert_Some in Hj as [[_ <-]|[_ Hj]]; eauto. Qed.

(** A call moves on; channels close. *)
Lemma restore_ok_caller x x' w y y' k c :
  restore_ok x w y -> restoring y' = restoring y -> sess y' = sess y -> recoveries y' = recoveries y ->
  callers y' = <[k := c]> (callers y) ->
  (forall m, holds_channel c = Some m -> (exists k' c', callers y !! k' = Some c' /\ holds_channel c' = Some m) \/ pub x = Some m) ->
  pub x' = pub x -> consumeCh x' = consumeCh x -> replyGen x' = replyGen x -> closed x' = closed x -> restore_ok x' w y'.
Proof.
  intros H E1 E2 E3 E4 Hm E5 E6 E7 E8. eapply restore_ok_frame; [exact H|done| |done| | |done|done|auto|auto|congruence].
  - right. by rewrite E2.
  - right. by rewrite E3.
  - intros n. apply pc_fresh_frame; [done|auto|auto|eauto|]. rewrite E4. by apply callers_moved.
Qed.

Lemma restore_ok_shrink x w w' y y' :
  restore_ok x w y -> opens w' ⊆ opens w -> loops w' = loops w -> next w' = next w -> restoring y' = restoring y ->
  (restoring y = None \/ (sess y = Down -> sess y' = Down) /\ (sess y <> Up -> sess y' <> Up)) -> 
  recoveries y' = recoveries y -> callers y' = callers y -> restore_ok x w' y'.
Proof.
  intros H E1 E2 E3 E4 E5 E6 E7. eapply restore_ok_frame; [exact H|done|done|done|right; by rewrite E6| |done|by rewrite E2|auto..].
  intros n. apply pc_fresh_frame; [lia|auto|auto|rewrite E2; eauto|rewrite E7; eauto].
Qed.

(** A restore moves on. *)
Lemma restore_ok_move x' w' y who p :
  (forall n, consumeCh x' = None -> pub x' = Some n -> n ∈ opens w' -> closed x' = true) ->
  (who = Supervisor -> sess y = Down /\ in_topology p = true) ->
  match p with RepairCloseOld _ | RepairOpen _ | RepairInstall _ _ | RepairRetire _ => who = Repair | _ => True end ->
  (forall gen, who = Recovery gen -> replyGen x' = gen /\ gen ∈ recoveries y) ->
  (forall n, n ∈ pc_new p -> pc_fresh x' w' y n) -> pc_fits x' w' y who p ->
  restore_ok x' w' (set_restoring (Some (who, p)) y).
Proof.
  intros Hb Hs Hr Hg Hn Hp. split; simpl; try done.
  - intros q [= -> ->]. auto.
  - intros who' q [= -> ->]. done.
  - intros gen q [= -> ->]. auto.
  - intros who' q n [= -> ->] Hin. apply Hn in Hin as (? & ? & ? & ? & ?). by split_and!.
  - intros who' q [= -> ->]. destruct q; done.
Qed.

(** No restore is in progress any more. *)
Lemma restore_ok_none x w y :
  (forall n, consumeCh x = None -> pub x = Some n -> n ∈ opens w -> closed x = true) -> restoring y = None -> restore_ok x w y.
Proof. intros Hb E. split; rewrite ?E; done. Qed.

(** A fresh channel. *)
Lemma pc_fresh_open x w y : known x w y -> pc_fresh x (open_channel w) y (next w).
Proof.
  intros [Ho Hli Hlo Hp Hc Hk]. split_and!; simpl; [lia|..].
  - intros ?%Hp. lia.
  - intros ?%Hc. lia.
  - intros g b ?%Hlo. lia.
  - intros k c Hkc Hh. specialize (Hk k c _ Hkc Hh). lia.
Qed.

Lemma pc_fresh_kept x w y n : pc_fresh x w y n -> pc_fresh x (open_channel w) y n.
Proof. apply pc_fresh_frame; simpl; eauto. Qed.

Lemma idle_open x w : (forall n, pub x = Some n -> n < next w) -> idle x w -> idle x (open_channel w).
Proof.
  intros Hp [Hc Hn]. split; [done|]. intros n E. simpl. rewrite elem_of_union, elem_of_singleton.
  intros [->|?]; [apply Hp in E; lia|by apply (Hn n)].
Qed.

(** [restoreTopology] goes from one step to the next. *)
Lemma restore_ok_topology x w w' y who p p' :
  restore_ok x w y -> restoring y = Some (who, p) -> in_topology p = true -> in_topology p' = true ->
  (forall n, pub x = Some n -> n ∈ opens w' -> n ∈ opens w) -> 
  (forall n, n ∈ pc_new p' -> pc_fresh x w' y n) -> restore_ok x w' (set_restoring (Some (who, p')) y).
Proof.
  intros [Rs Rr Rg Rn Rp Rb] E Ht Ht' Ho Hn. apply restore_ok_move.
  - intros n Hc Hp Hi. eauto.
  - intros ->. split; [by eapply Rs|done].
  - by destruct p'.
  - intros gen ->. by eapply Rg.
  - done.
  - assert (who = Supervisor \/ idle x w) as Hid by (specialize (Rp _ _ E); by destruct p).
    assert (who = Supervisor \/ idle x w') as Hid'.
    { destruct Hid as [?|[? Hi]]; [by left|right]. split; [done|]. intros n Hp ?. apply (Hi n Hp). auto. }
    by destruct p'.
Qed.

Lemma stale_false gen x : stale gen x = false -> closed x = false /\ replyGen x = gen.
Proof.
  unfold stale. rewrite orb_false_iff, negb_false_iff, bool_decide_eq_true. done.
Qed.

(** The loop of a consumer whose recovery is under way. *)
Lemma recovery_loop x w y gen dead :
  core_ok x w y -> gen ∈ recoveries y -> replyGen x = gen -> consumeCh x = Some dead -> loops w !! gen = Some (dead, false).
Proof.
  intros C Hin E Hc. destruct (ck_loop _ _ _ C _ Hc) as [b Hb]. rewrite E in Hb.
  destruct (ck_ended _ _ _ C gen) as [n Hn]; [rewrite !elem_of_app; auto|]. congruence.
Qed.

(** Once the connection is gone, only the supervisor opens channels. *)
Lemma lost_closed x w y : owned x w y -> restore_ok x w y -> sess y <> Up -> sess y <> Back -> sess y <> Down -> opens w = ∅.
Proof.
  intros O R H1 H2 H3. apply set_eq. intros n. split; [|by intros ?%elem_of_empty].
  intros [?|[?|Hp]]%(ow_phase _ _ _ O); [done..|]. unfold super_holds in Hp.
  destruct (restoring y) as [[[] p]|] eqn:E; try done. by destruct (rk_super _ _ _ R p E).
Qed.

Lemma restore_ok_step s s' : step s s' -> core_ok (dispatcher_of s) (world_of s) (threads_of s) ->
  known (dispatcher_of s) (world_of s) (threads_of s) -> owned (dispatcher_of s) (world_of s) (threads_of s) ->
  restore_ok (dispatcher_of s) (world_of s) (threads_of s) -> restore_ok (dispatcher_of s') (world_of s') (threads_of s').
Proof.
  intros Hs C K O H. pose proof H as [Rs Rr Rg Rn Rp Rb]. destruct Hs; simpl in *; unfold failPending in *; simplify_eq.
  all: try (by apply restore_ok_none).
  all: try (by eapply restore_ok_frame; [exact H|auto..]; intros m; apply pc_fresh_frame; simpl; eauto).
  all: try (by eapply restore_ok_caller; [exact H|done..| |done|done|done|done]; intros ? [=]; subst; eauto 6).
  all: try (by eapply restore_ok_shrink; [exact H|apply close_channel_sub|apply close_channel_loops|apply close_channel_loops|done|auto..]).
  all: try (by eapply restore_ok_topology; [exact H|eassumption|done|done|done|]; intros ? ?%elem_of_nil).
  - (* recover_begin *) match goal with E : stale _ _ = false |- _ => apply stale_false in E as [? ?] end.
    apply restore_ok_move; [done..| | |]; [by intros ? [= <-]|by intros ? ?%elem_of_nil|]. simpl. split_and!; eauto using recovery_loop.
  - (* recover_again *) match goal with E : stale _ _ = false |- _ => apply stale_false in E as [? ?] end.
    apply restore_ok_move; [done..| | |]; [by intros ? [= <-]|by intros ? ?%elem_of_nil|]. right. split; [done|].
    intros n Hp Ho. specialize (Rb n ltac:(done) Hp Ho). congruence.
  - apply restore_ok_move; simpl; [done..| | |]; [by intros ? [= <-]; eapply Rg|by intros ? ?%elem_of_nil|]. exact (Rp _ _ H0).
  - pose proof (Rp _ _ H0) as (Hg & _). apply restore_ok_move; simpl; [done..| | |]; [by intros ? [= <-]; eapply Rg|by intros ? ?%elem_of_nil|done].
  - pose proof (Rp _ _ H0) as (_ & Hc & Hp). apply restore_ok_move; simpl; [congruence|done..| | |]; [by intros ? [= <-]; eapply Rg|by intros ? ?%elem_of_nil|done].
  - pose proof (Rp _ _ H0) as (Hc & Hp). apply restore_ok_move; simpl; [congruence|done..| | |]; [by intros ? [= <-]; eapply Rg|by intros ? ?%elem_of_nil|].
    right. split; [done|congruence].
  - (* repair_all *) apply restore_ok_move; simpl; [done..| | |]; [done|by intros ? ?%elem_of_nil|]. rewrite <- (ck_queue _ _ _ C). auto.
  - pose proof (Rp _ _ H0) as (Hc & Hp). apply restore_ok_move; simpl; [|done..| |].
    + intros n ? Hn ?%(close_channel_sub old w). eauto.
    + by intros ? ?%elem_of_nil.
    + right. split; [done|]. intros n Hn. destruct Hp as [<-|?]; [|congruence]. rewrite Hn. unfold close_channel. simpl. set_solver.
  - (* repair_pub *) apply restore_ok_move; simpl; [done..| | |]; [done|by intros ? ?%elem_of_nil|]. rewrite <- (ck_queue _ _ _ C). split; [auto|congruence].
  - pose proof (Rp _ _ H0) as (Hp & Hc). apply restore_ok_move; simpl; [|done..| |].
    + intros n ? Hn. rewrite elem_of_union, elem_of_singleton. intros [->|?]; [|eauto]. apply (kn_pub _ _ _ K) in Hn. lia.
    + intros n ->%list_elem_of_singleton. by apply pc_fresh_open.
    + split; [done|]. intros Hn. destruct (Hc Hn); [auto|done].
  - pose proof (Rp _ _ H0) as (Hp & Hc). apply restore_ok_move; simpl; [|done..| |done].
    + intros n Hn [= <-] Ho. destruct (Hc Hn); [auto|done].
    + by intros ? ?%elem_of_nil.
  - apply restore_ok_none; [|done]. intros n ? Hn ?%(close_channel_sub old w). eauto.
  - (* supervisor_begin *) apply restore_ok_move; simpl; [done..| | |]; [done|by intros ? ?%elem_of_nil|by left].
  - (* attach_begin *) destruct (ck_attached _ _ _ C) as (Hp & Hc & _); [done|].
    apply restore_ok_move; simpl; [done..| | |]; [done|by intros ? ?%elem_of_nil|right; split; [done|congruence]].
  - eapply restore_ok_topology; [exact H|exact H0|done|done| |].
    + intros n Hn. simpl. rewrite elem_of_union, elem_of_singleton. intros [->|?]; [|done]. apply (kn_pub _ _ _ K) in Hn. lia.
    + intros m ->%list_elem_of_singleton. by apply pc_fresh_open.
  - eapply restore_ok_topology; [exact H|exact H0|done|done| |].
    + intros m Hn. simpl. rewrite elem_of_union, elem_of_singleton. intros [->|?]; [|done]. apply (kn_pub _ _ _ K) in Hn. lia.
    + intros m [->| ->%list_elem_of_singleton]%elem_of_cons; [apply pc_fresh_kept, (Rn _ _ _ H0); by left|by apply pc_fresh_open].
  - apply restore_ok_none; [|done]. intros m ? Hn ?%(close_channel_sub (Some n) w). eauto.
  - eapply restore_ok_topology; [exact H|exact H0|done|done|done|]. intros k Hk. exact (Rn _ _ _ H0 Hk).
  - apply restore_ok_none; [|done]. intros k ? Hn Hk. apply (close_channel_sub (Some n)), (close_channel_sub (Some m)) in Hk. eauto.
  - (* loop_end *) eapply restore_ok_frame; [exact H|try by auto..].
    + intros k. apply pc_fresh_frame; simpl; eauto. intros g m b. rewrite lookup_insert_Some. intros [[<- [= <- <-]]|[_ ?]]; eauto.
    + intros g d Hg. simpl. rewrite lookup_insert_ne; [done|congruence].
  - eapply restore_ok_frame; [exact H|auto..]. 
    right. intros g. simpl. by right.
  - (* session_dies *) eapply restore_ok_shrink; [exact H|simpl; set_solver|done|done|done| |done|done]. right. split; simpl; congruence.
  - eapply restore_ok_shrink; [exact H|done|done|done|done| |done|done]. right. split; simpl; congruence.
  - eapply restore_ok_frame; [exact H|auto..]; right; split; simpl; congruence.
  - (* lost_clear *) assert (opens w = ∅) as Ho by (eapply lost_closed; eauto; congruence).
    eapply restore_ok_frame; [exact H|auto..]. intros k. apply pc_fresh_frame; simpl; eauto.
  - eapply restore_ok_shrink; [exact H|simpl; set_solver|done|done|done| |done|done]. right. split; simpl; congruence.
  - eapply restore_ok_shrink; [exact H|simpl; set_solver|done|done|done| |done|done]. right. split; simpl; congruence.
  - eapply restore_ok_caller; [exact H|done..| |done|done|done|done]. by destruct again.
Qed.

Lemma reply_owned_frame x x' w w' y y' :
  owned x w y -> opens w' ⊆ opens w -> live w' ⊆ live w ->
  (forall n, n ∈ opens w' -> pub x = Some n \/ consumeCh x = Some n \/ held y n -> pub x' = Some n \/ consumeCh x' = Some n \/ held y' n) ->
  (forall n, n ∈ live w' -> consumeCh x = Some n \/ held_consumer y n -> consumeCh x' = Some n \/ held_consumer y' n) ->
  (forall n, n ∈ opens w' -> sess y = Up \/ sess y = Back \/ super_holds y n -> sess y' = Up \/ sess y' = Back \/ super_holds y' n) ->
  owned x' w' y'.
Proof. intros [Hc Hl Hp] Eo El E1 E2 E3. split; intros n Hn; [apply E1|apply E2|apply E3]; auto. Qed.

(** Nothing that owns a channel changes. *)
Lemma owned_same x x' w w' y y' :
  owned x w y -> opens w' ⊆ opens w -> live w' ⊆ live w -> pub x' = pub x -> consumeCh x' = consumeCh x ->
  restoring y' = restoring y -> closer y' = closer y ->
  (sess y' = sess y \/ sess y' = Up \/ sess y' = Back \/ opens w' = ∅) -> owned x' w' y'.
Proof.
  intros H Eo El E1 E2 E3 E4 E5. eapply reply_owned_frame; [exact H|done|done|..]; unfold held, held_consumer, super_holds; rewrite ?E1, ?E2, ?E3, ?E4; auto.
  intros n Hn. destruct E5 as [->|[->|[->|E]]]; auto. rewrite E in Hn. by apply elem_of_empty in Hn.
Qed.

Ltac unfold_held :=
  unfold held, held_consumer, super_holds in *;
  repeat match goal with E : restoring _ = _ |- _ => rewrite E in * end;
  repeat match goal with E : closer _ = _ |- _ => rewrite E in * end; simpl in *.

Lemma in_close_channel o w n :
  (n ∈ opens (close_channel o w) <-> n ∈ opens w /\ o <> Some n) /\ (n ∈ live (close_channel o w) <-> n ∈ live w /\ o <> Some n).
Proof.
  destruct o as [m|]; unfold close_channel; simpl; [|naive_solver].
  rewrite !elem_of_difference, !elem_of_singleton. split; split; intros [? ?]; split; congruence.
Qed.

Ltac solve_owned :=
  let k := fresh "k" in
  intros k; rewrite ?(proj1 (in_close_channel _ _ k)), ?(proj2 (in_close_channel _ _ k)); unfold_held;
  rewrite ?elem_of_cons, ?elem_of_nil; intuition (done || congruence).

Lemma close_two_sub a b w :
  opens (close_channel a (close_channel b w)) ⊆ opens w /\ live (close_channel a (close_channel b w)) ⊆ live w.
Proof.
  destruct (close_channel_sub b w) as (H1 & H2 & _), (close_channel_sub a (close_channel b w)) as (H3 & H4 & _).
  split; etrans; eassumption.
Qed.

(** A restore by [who] opens a channel. *)
Lemma owned_open x w y who p p' :
  owned x w y -> restoring y = Some (who, p) -> can_open who y -> pc_new p' = pc_new p ++ [next w] ->
  match p with RepairOpen _ | Declaring | Declared _ => True | _ => False end ->
  match p' with RepairInstall _ _ | Declared _ | WithPub _ _ => True | _ => False end ->
  owned x (open_channel w) (set_restoring (Some (who, p')) y).
Proof.
  intros [Hc Hl Hp] E Hop Hnew Hfrom Hto. unfold held, held_consumer, super_holds in *. rewrite E in *.
  assert (forall n, n ∈ pc_new p' <-> n ∈ pc_new p \/ n = next w) as Hin
    by (intros n; rewrite Hnew, elem_of_app, list_elem_of_singleton; done).
  split; unfold held, held_consumer, super_holds; simpl.
  - intros n. rewrite elem_of_union, elem_of_singleton. intros Hn.
    assert (n = next w \/ n ∈ pc_new p \/ (pub x = Some n \/ consumeCh x = Some n) \/ 
      close_holds (closer y) n) as Hor.
    { destruct Hn as [->|Hn%Hc]; [by left|]. destruct p; try done; simpl in *; tauto. }
    specialize (Hin n). destruct p'; try done; simpl in *; tauto.
  - intros n Hn%Hl. destruct p, p'; try done.
  - intros n. rewrite elem_of_union, elem_of_singleton. intros Hn. destruct who; try (by left). right; right. apply Hin.
    destruct Hn as [->|Hn%Hp]; [by right|]. simpl in Hop. left. destruct Hn as [?|[?|?]]; [congruence..|done].
Qed.

Lemma owned_install x w y who n m :
  core_ok x w y -> known x w y -> restore_ok x w y -> owned x w y -> restoring y = Some (who, Consumed n m) -> closed x = false ->
  owned (install n m x) (spawn (S (replyGen x)) n w) (restored who y).
Proof.
  intros C K R [Hc Hl Hp] E Hx.
  assert (closer y = NotClosing) as Hn.
  { destruct (closer y) eqn:Ec; [done|exfalso..]; assert (closed x = true) by (apply (ck_closed _ _ _ C); rewrite Ec; done); congruence. }
  pose proof (rk_pc _ _ _ R _ _ E) as Hid. simpl in Hid.
  assert (forall k, k ∈ opens w -> k = n \/ k = m) as Hnm.
  { intros k Hk. specialize (Hc k Hk). specialize (Hp k Hk). unfold held, super_holds in *. rewrite E, Hn in *. simpl in *.
    rewrite elem_of_cons, list_elem_of_singleton in Hc. destruct Hid as [->|[Hi1 Hi2]].
    - destruct (rk_super _ _ _ R _ E) as [Hd _]. destruct Hp as [?|[?|Hp]]; [congruence..|]. by rewrite elem_of_cons, list_elem_of_singleton in Hp.
    - destruct Hc as [Hc|[Hc|[Hc|[]]]]; [by destruct (Hi2 k Hc)|congruence|done]. }
  split; simpl.
  - intros k [->| ->]%Hnm; auto.
  - intros k Hk. destruct (Hnm k (kn_live _ _ _ K _ Hk)) as [->|Ek]; [by left|]. left. f_equal.
    specialize (Hl k Hk). unfold held_consumer in Hl. rewrite E, Hn in Hl. destruct Hl as [Hl|[Hl|[]]]; [|done].
    destruct (rk_new _ _ _ R _ _ m E) as (_ & _ & Hm & _); [by right; left|]. congruence.
  - intros k Hk. specialize (Hp k Hk). unfold super_holds in Hp. rewrite E in Hp. destruct who; auto; destruct Hp as [?|[?|[]]]; auto.
Qed.

Lemma reply_owned_step s s' : step s s' -> core_ok (dispatcher_of s) (world_of s) (threads_of s) ->
  known (dispatcher_of s) (world_of s) (threads_of s) -> restore_ok (dispatcher_of s) (world_of s) (threads_of s) ->
  owned (dispatcher_of s) (world_of s) (threads_of s) -> owned (dispatcher_of s') (world_of s') (threads_of s').
Proof.
  intros Hs C K R H. pose proof H as [Hc Hl Hp]. destruct Hs; simpl in *; unfold failPending in *; simplify_eq.
  all: try (by eapply owned_same; [exact H|simpl; auto..]).
  all: try (by eapply owned_same; [exact H|apply close_channel_sub|apply close_channel_sub|simpl; auto..]).
  all: try (eapply reply_owned_frame; [exact H|done|done|..]; by solve_owned).
  all: try (eapply reply_owned_frame; [exact H|apply close_channel_sub|apply close_channel_sub|..]; by solve_owned).
  all: try (destruct who; (eapply reply_owned_frame; [exact H|done|done|..]; by solve_owned)).
  all: try (destruct who; (eapply reply_owned_frame; [exact H|apply close_channel_sub|apply close_channel_sub|..]; by solve_owned)).
  all: try (by eapply owned_open; [exact H|eassumption|done..]).
  all: try (destruct who; (eapply reply_owned_frame; [exact H|apply close_two_sub|apply close_two_sub|..]; by solve_owned)).
  - (* recover_clear *) destruct (rk_pc _ _ _ R _ _ H0) as (_ & Hcc & Hpp). eapply reply_owned_frame; [exact H|done|done|..]; solve_owned.
  - (* set_pub *) destruct (rk_pc _ _ _ R _ _ H0) as (Hpp & _). eapply reply_owned_frame; [exact H|done|done|..]; solve_owned.
  - (* consume *) split; simpl.
    + intros k Hk. specialize (Hc k Hk). unfold_held. tauto.
    + intros k. rewrite elem_of_union, elem_of_singleton. intros [->|Hk]; [by right; left|]. specialize (Hl k Hk). unfold_held. tauto.
    + intros k Hk. specialize (Hp k Hk). unfold_held. by destruct who.
  - by apply owned_install.
  - (* lost_clear *) assert (opens w = ∅) as Ho by (eapply lost_closed; eauto; congruence).
    split; simpl; [rewrite Ho; set_solver| |rewrite Ho; set_solver]. intros n Hn%(kn_live _ _ _ K). rewrite Ho in Hn. set_solver.
  - eapply owned_same; [exact H|simpl; set_solver..|auto].
Qed.
