(* ===== verification/DispatcherCalls.v ===== *)
(** * DispatcherCalls: what a waiting call can rely on (dispatcher.go)

    [DispatcherLife] follows the reply consumer; here are the calls that wait for
    replies on it: who answers or fails each of them, the windows in which nobody
    does, and the theorems on both. *)
From S2P Require Import Prelude DispatcherLife.

#[local] Arguments close_channel : simpl never.

(** *** Whom a waiting call can rely on *)

Definition retiring (y : threads) : Prop :=
  match restoring y with
  | Some (_, RecoverClear _ _) | Some (_, RecoverCloseDead _ _) | Some (_, RecoverClosePub _) => True
  | _ => False
  end.

(** What the phase of the session gives a call that waits on [q]. *)
Definition phase_clause (x : dispatcher) (w : world) (y : threads) (q : nat) : Prop :=
  match sess y with
  | Up | Back =>
      consumeCh x = Some q /\ ~ retiring y /\
      (loops w !! replyGen x = Some (q, true) \/ replyGen x ∈ ending y ++ deciding y ++ recoveries y)
  | Dying => registered y = true
  | LostFail => True
  | LostClear | Down => False
  end.

(** A call that waits on queue [q] is answered or failed: its consumer is read, or
    that consumer's end is being noticed, or the loss of the connection is; or a
    recovery, or the closing bus, is about to fail the pending calls. *)
Definition looked_after (x : dispatcher) (w : world) (y : threads) (q : nat) : Prop :=
  phase_clause x w y q \/
  (exists who d o, restoring y = Some (who, RecoverFail d o)) \/
  (finished y = true /\ before_fail (closer y) = true).

Definition sure (x : dispatcher) (w : world) (y : threads) (q : nat) : Prop :=
  looked_after x w y q \/ missed y = true.

Record calls_ok (x : dispatcher) (w : world) (y : threads) : Prop := {
  ca_pending : forall k p q, callers y !! k = Some (Registered p q) \/ callers y !! k = Some (Waiting q) ->
    k ∉ resolved y -> k ∈ calls x;
  ca_waiting : forall k q, callers y !! k = Some (Waiting q) -> k ∉ resolved y -> sure x w y q;
  ca_holding : forall k p q, callers y !! k = Some (Holds p q) \/ callers y !! k = Some (Registered p q) ->
    p ∈ opens w -> sure x w y q \/ late y = true;
  ca_current : forall q, consumeCh x = Some q ->
    sure x w y q \/ late y = true \/ sess y = LostClear \/ sess y = Down
}.

(** Steps after which a waiting call can rely on as much as before. *)
Lemma calls_ok_frame x x' w w' y y' :
  calls_ok x w y -> callers y' = callers y -> resolved y ⊆ resolved y' ->
  (forall k, k ∈ calls x -> k ∉ resolved y' -> k ∈ calls x') ->
  (forall k c p, callers y !! k = Some c -> holds_channel c = Some p -> p ∈ opens w' -> p ∈ opens w) ->
  (forall q, sure x w y q -> sure x' w' y' q) -> (late y = true -> forall n, n ∈ opens w' -> late y' = true \/ forall q, sure x' w' y' q) ->
  (consumeCh x' = None \/ consumeCh x' = consumeCh x /\ (late y = true -> late y' = true) /\
     (sess y = LostClear \/ sess y = Down -> sess y' = LostClear \/ sess y' = Down)) ->
  calls_ok x' w' y'.
Proof.
  intros [Hp Hw Hh Hc] E1 E2 E3 E4 E5 E6 E7. split; rewrite ?E1.
  - intros k p q Hk Hr. apply E3; [|done]. apply (Hp k p q Hk). set_solver.
  - intros k q Hk Hr. apply E5. apply (Hw k q Hk). set_solver.
  - intros k p q Hk Ho. assert (p ∈ opens w) as Ho' by (destruct Hk; eauto).
    destruct (Hh k p q Hk Ho') as [?|Hl]; [auto|]. destruct (E6 Hl p Ho); auto.
  - intros q Hq. destruct E7 as [?|(E & ? & ?)]; [congruence|]. rewrite E in Hq. destruct (Hc q Hq) as [?|[?|?]]; auto.
Qed.

(** Everyone can rely on someone, or on the caller's own timeout. *)
Lemma calls_ok_sure x x' w w' y y' :
  calls_ok x w y -> callers y' = callers y -> resolved y' = resolved y -> calls x' = calls x ->
  (forall q, sure x' w' y' q) -> calls_ok x' w' y'.
Proof.
  intros [Hp Hw Hh Hc] E1 E2 E3 Hs. split; rewrite ?E1, ?E2, ?E3; auto.
Qed.

(** All the pending calls fail. *)
Lemma calls_ok_fail x w y x' y' :
  calls_ok x w y -> calls x' = ∅ -> callers y' = callers y -> resolved y' = resolved y ∪ calls x ->
  opens w = ∅ \/ late y' = true -> late y' = true \/ sess y' = LostClear \/ sess y' = Down -> calls_ok x' w y'.
Proof.
  intros [Hp Hw Hh Hc] E1 E2 E3 E4 E5.
  assert (forall k p q, callers y !! k = Some (Registered p q) \/ callers y !! k = Some (Waiting q) -> k ∈ resolved y ∪ calls x) as Hall.
  { intros k p q Hk. destruct (decide (k ∈ resolved y)); [set_solver|]. apply elem_of_union_r. eauto. }
  split; rewrite ?E2, ?E3.
  - intros k p q Hk Hr. destruct Hr. eauto.
  - intros k q Hk Hr. destruct Hr. eapply (Hall k 0). eauto.
  - intros k p q Hk Ho. destruct E4 as [E|?]; [rewrite E in Ho; by apply elem_of_empty in Ho|auto].
  - auto.
Qed.

(** A call moves on, the rest as it was. *)
Lemma calls_ok_caller x x' w y y' k c :
  calls_ok x w y -> callers y' = <[k := c]> (callers y) ->
  (forall j, j <> k -> j ∈ resolved y <-> j ∈ resolved y') -> (forall j, j <> k -> j ∈ calls x <-> j ∈ calls x') ->
  consumeCh x' = consumeCh x -> sess y' = sess y ->
  (forall q, sure x w y q -> sure x' w y' q) -> (late y = true -> late y' = true) ->
  match c with
  | Wants | Over => True
  | Holds p q => p ∈ opens w -> sure x w y q \/ late y = true
  | Registered p q => k ∈ calls x' /\ (p ∈ opens w -> sure x w y q \/ late y = true)
  | Waiting q => k ∉ resolved y' -> k ∈ calls x' /\ sure x' w y' q
  end -> calls_ok x' w y'.
Proof.
  intros [Hp Hw Hh Hc] E1 E2 E3 E4 E5 E6 E7 E8. split; rewrite ?E1.
  - intros j p q Hj Hr. destruct (decide (j = k)) as [->|Hne].
    + rewrite lookup_insert_eq in Hj. destruct Hj as [[= ->]|[= ->]]; [by destruct E8|by apply E8].
    + rewrite lookup_insert_ne in Hj by done. apply E3; [done|]. apply (Hp j p q Hj). by rewrite E2.
  - intros j q Hj Hr. destruct (decide (j = k)) as [->|Hne].
    + rewrite lookup_insert_eq in Hj. injection Hj as ->. by apply E8.
    + rewrite lookup_insert_ne in Hj by done. apply E6, (Hw j q Hj). by rewrite E2.
  - intros j p q Hj Ho. destruct (decide (j = k)) as [->|Hne].
    + rewrite lookup_insert_eq in Hj. destruct Hj as [[= ->]|[= ->]]; simpl in E8; [|destruct E8 as [_ E8]]; destruct (E8 Ho); auto.
    + rewrite lookup_insert_ne in Hj by done. destruct (Hh j p q Hj Ho); auto.
  - rewrite E4, E5. intros q Hq. destruct (Hc q Hq) as [?|[?|?]]; auto.
Qed.

(** The restore is about to fail the pending calls. *)
Definition failing (y : threads) : Prop := exists who d o, restoring y = Some (who, RecoverFail d o).

Lemma sure_frame x x' w w' y y' q :
  (missed y = true -> missed y' = true) -> sess y' = sess y -> consumeCh x' = consumeCh x -> replyGen x' = replyGen x ->
  (loops w !! replyGen x = Some (q, true) ->
     loops w' !! replyGen x = Some (q, true) \/ replyGen x ∈ ending y' ++ deciding y' ++ recoveries y') ->
  (consumeCh x = Some q -> sess y = Up \/ sess y = Back -> replyGen x ∈ ending y ++ deciding y ++ recoveries y ->
     replyGen x ∈ ending y' ++ deciding y' ++ recoveries y' \/ sure x' w' y' q) ->
  registered y' = registered y -> (retiring y' -> retiring y) -> (failing y -> failing y') ->
  (finished y = true -> finished y' = true) -> (before_fail (closer y) = true -> before_fail (closer y') = true) ->
  sure x w y q -> sure x' w' y' q.
Proof.
  intros E1 E2 E3 E4 E5 E6 E7 E8 E9 E10 E11 [Hl|?]; [|right; auto].
  unfold looked_after, phase_clause in Hl. destruct Hl as [Hl|[Hl|[Hf Hc]]].
  - assert (sess y' = Up \/ sess y' = Back -> consumeCh x = Some q /\ ~ retiring y /\
      (loops w !! replyGen x = Some (q, true) \/ replyGen x ∈ ending y ++ deciding y ++ recoveries y) -> sure x' w' y' q) as Hup.
    { intros Hs (Hq & Hr & Hor). assert (loops w' !! replyGen x = Some (q, true) \/
        replyGen x ∈ ending y' ++ deciding y' ++ recoveries y' \/ sure x' w' y' q) as [Hi|[Hi|?]]
        by (destruct Hor as [Hi|Hi]; [destruct (E5 Hi)|rewrite E2 in Hs; destruct (E6 Hq Hs Hi)]; auto); [..|done].
      all: left; left; unfold phase_clause; rewrite E3, E4; destruct Hs as [-> | ->]; (split; [done|split; [by intros ?%E8|auto]]). }
    destruct (sess y) eqn:Es; try done; [by apply Hup; auto| | |by apply Hup; auto]; left; left; unfold phase_clause; rewrite E2; congruence.
  - left; right; left. apply E9. done.
  - left; right; right. auto.
Qed.

(** Nothing a waiting call relies on changes. *)
Lemma sure_same x x' w w' y y' q :
  (missed y = true -> missed y' = true) -> sess y' = sess y -> consumeCh x' = consumeCh x -> replyGen x' = replyGen x ->
  loops w' = loops w -> ending y' = ending y -> deciding y' = deciding y -> recoveries y' = recoveries y ->
  registered y' = registered y -> (retiring y' -> retiring y) -> (failing y -> failing y') ->
  (finished y = true -> finished y' = true) -> (before_fail (closer y) = true -> before_fail (closer y') = true) ->
  sure x w y q -> sure x' w' y' q.
Proof.
  intros E1 E2 E3 E4 E5 E6 E7 E8 E9 E10 E11 E12 E13. apply sure_frame; try done; rewrite ?E5, ?E6, ?E7, ?E8; auto.
Qed.

Definition pc_plain (p : restore_pc) : bool :=
  match p with RecoverFail _ _ | RecoverClear _ _ | RecoverCloseDead _ _ | RecoverClosePub _ => false | _ => true end.

Definition plain (y : threads) : Prop := match restoring y with Some (_, p) => pc_plain p = true | None => True end.

Lemma plain_not y : plain y -> ~ retiring y /\ ~ failing y.
Proof.
  unfold plain, retiring, failing. destruct (restoring y) as [[wh []]|]; simpl; intros ?; try done; (split; [by intros ?|intros (? & ? & ? & ?); congruence]).
Qed.

Lemma late_plain y : plain y -> late y = negb (before_fail (closer y)).
Proof. unfold plain, late. by destruct (restoring y) as [[wh []]|]. Qed.

(** A restore moves on, away from the retirement of a dead consumer. *)
Lemma calls_ok_move x x' w w' y r :
  calls_ok x w y -> known x w y -> plain y -> plain (set_restoring r y) ->
  (forall n, n ∈ opens w' -> n ∈ opens w \/ n = next w) -> loops w' = loops w ->
  consumeCh x' = consumeCh x -> replyGen x' = replyGen x -> calls x' = calls x -> calls_ok x' w' (set_restoring r y).
Proof.
  intros H K P P' Ho El Ec Eg Ek. destruct (plain_not _ P), (plain_not _ P').
  assert (late (set_restoring r y) = late y) as Hlate by (by rewrite !late_plain).
  eapply calls_ok_frame; [exact H|done|done|by rewrite Ek| | |rewrite Hlate; auto|rewrite Hlate; auto].
  - intros k c p Hk Hp [?| ->]%Ho; [done|]. pose proof (kn_callers _ _ _ K _ _ _ Hk Hp). lia.
  - intros q. by apply sure_same.
Qed.

(** A dead consumer is being retired: its queue is no longer relied on. *)
Lemma sure_retiring x x' w w' y y' q :
  retiring y -> missed y' = missed y -> sess y' = sess y -> registered y' = registered y -> finished y' = finished y ->
  closer y' = closer y -> sure x w y q -> sure x' w' y' q.
Proof.
  intros Hr E1 E2 E3 E4 E5. unfold sure, looked_after, phase_clause. rewrite E1, E2, E3, E4, E5.
  intros [[Hl|[(? & ? & ? & E)|?]]|?]; auto; [|by unfold retiring in Hr; rewrite E in Hr].
  left; left. destruct (sess y); try done; by destruct Hl as (_ & ? & _).
Qed.

(** No queue is installed, or the supervisor is rebuilding everything. *)
Lemma sure_idle x x' w w' y y' q :
  plain y -> consumeCh x = None \/ sess y = Down -> sess y' = sess y \/ sess y = Down -> (registered y = true -> registered y' = true) ->
  missed y' = missed y -> finished y' = finished y -> closer y' = closer y -> sure x w y q -> sure x' w' y' q.
Proof.
  intros Hp Hi Hs Hr E1 E2 E3. unfold sure, looked_after, phase_clause. rewrite E1, E2, E3.
  intros [[Hl|[Hf|?]]|?]; auto; [|by destruct (plain_not _ Hp)].
  left; left. destruct (sess y) eqn:Es; try done; (destruct Hs as [->|?]; [|done]); auto; destruct Hl as (Hl & _), Hi; congruence.
Qed.

(** A loop or a recovery that gives up: the session is closing, or it is not
    announced yet. *)
Lemma sure_given_up x w y y' q :
  core_ok x w y -> consumeCh x = Some q -> ready y = false -> sess y = Up \/ sess y = Back ->
  finished y' = finished y -> closer y' = closer y -> missed y' = missed y || bool_decide (sess y = Back) -> sure x w y' q.
Proof.
  intros C Hc Hr Hs E1 E2 E3. unfold sure. rewrite E3. destruct Hs as [Hs|Hs].
  - left; right; right. rewrite E1, E2. unfold ready in Hr. rewrite Hs, andb_true_r in Hr. apply negb_false_iff in Hr. split; [done|].
    destruct (closer y) eqn:E; try done; assert (closed x = true) as Hx by (apply (ck_closed _ _ _ C); by rewrite E);
      apply (ck_cleared _ _ _ C) in Hx; congruence.
  - right. by rewrite Hs, orb_true_r.
Qed.

(** A restore that returns: the reply queue it installed is read. *)
Lemma calls_ok_installed x w y who n m :
  core_ok x w y -> restore_ok x w y -> calls_ok x w y -> restoring y = Some (who, Consumed n m) -> closed x = false ->
  calls_ok (install n m x) (spawn (S (replyGen x)) n w) (restored who y).
Proof.
  intros C R H E Hx. pose proof H as [Hp Hw Hh Hc].
  assert (plain y) as Hpl by (unfold plain; by rewrite E).
  assert (late (restored who y) = late y) as Hla by (rewrite !late_plain by done; done).
  assert (registered (restored who y) = true) as Hreg.
  { destruct who; simpl; [done|..]; apply (ck_registered _ _ _ C); try done; (eapply restore_attached; [exact C|exact E|by left]). }
  assert (forall q, sure x w y q -> sure (install n m x) (spawn (S (replyGen x)) n w) (restored who y) q) as Hs.
  { pose proof (rk_pc _ _ _ R _ _ E) as Hid. simpl in Hid. pose proof (rk_super _ _ _ R (Consumed n m)) as Hsu.
    intros q. apply sure_idle; simpl; auto.
    - destruct Hid as [->|[? _]]; [right; by apply Hsu|by left].
    - destruct who; auto. right. by apply Hsu. }
  split; simpl; [done|naive_solver| |].
  - intros k p q Hk Ho. rewrite Hla. destruct (Hh k p q Hk Ho); auto.
  - intros q [= <-]. unfold sure, looked_after, phase_clause. rewrite Hreg. simpl. rewrite lookup_insert_eq.
    destruct (match who with Supervisor => Back | _ => sess y end); auto.
    + left; left; left. split; [done|]. split; [by intros ?|auto].
    + left; left; left. split; [done|]. split; [by intros ?|auto].
Qed.

(** A restore that finds the dispatcher closed. *)
Lemma calls_ok_restored x w w' y who p :
  core_ok x w y -> restore_ok x w y -> calls_ok x w y -> restoring y = Some (who, p) -> pc_plain p = true -> closed x = true ->
  opens w' ⊆ opens w -> calls_ok x w' (restored who y).
Proof.
  intros C R H E Hpp Hx Ho. assert (plain y) as Hpl by (unfold plain; by rewrite E).
  assert (late (restored who y) = late y) as Hla by (rewrite !late_plain by done; done).
  pose proof (ck_cleared _ _ _ C Hx). pose proof (rk_super _ _ _ R p) as Hsu.
  eapply calls_ok_frame; [exact H|done..|eauto| |rewrite Hla; auto|auto].
  intros q. apply sure_idle; simpl; auto; destruct who; auto. right. by apply Hsu.
Qed.

(** The recovery closes the publishing channel of the dead consumer: nobody can
    publish any more. *)
Lemma calls_ok_close_pub x w y gen p :
  core_ok x w y -> restore_ok x w y -> owned x w y -> calls_ok x w y -> restoring y = Some (Recovery gen, RecoverClosePub p) ->
  calls_ok x (close_channel p w) (set_restoring (Some (Recovery gen, Check)) y).
Proof.
  intros C R O H E. destruct (rk_pc _ _ _ R _ _ E) as [Hc Hp].
  eapply calls_ok_frame; [exact H|done..| | | |auto].
  - intros k c n _ _ Hn. by apply close_channel_sub in Hn.
  - intros q. apply sure_retiring; try done. unfold retiring. by rewrite E.
  - intros _ n [Hn Hne]%in_close_channel. destruct (ow_channels _ _ _ O n Hn) as [?|[?|Hh]]; [congruence..|].
    unfold held in Hh. rewrite E in Hh. destruct Hh as [?|Hh]; [done|]. unfold late. simpl.
    destruct (closer y) eqn:Ec; try done; simpl; auto. right. intros q. left; right; right. simpl. rewrite Ec. split; [|done].
    apply (ck_finished _ _ _ C). by rewrite Ec.
Qed.

(** Loops end, and recoveries begin and end. *)
Lemma calls_ok_loops x w w' y y' :
  calls_ok x w y -> callers y' = callers y -> resolved y' = resolved y -> restoring y' = restoring y -> sess y' = sess y ->
  registered y' = registered y -> finished y' = finished y -> closer y' = closer y -> opens w' = opens w ->
  (missed y = true -> missed y' = true) ->
  (forall q, loops w !! replyGen x = Some (q, true) ->
     loops w' !! replyGen x = Some (q, true) \/ replyGen x ∈ ending y' ++ deciding y' ++ recoveries y') ->
  (forall q, consumeCh x = Some q -> sess y = Up \/ sess y = Back -> replyGen x ∈ ending y ++ deciding y ++ recoveries y ->
     replyGen x ∈ ending y' ++ deciding y' ++ recoveries y' \/ sure x w' y' q) ->
  calls_ok x w' y'.
Proof.
  intros H E1 E2 E3 E4 E5 E6 E7 E8 E9 E10 E11.
  assert (late y' = late y) as Hla by (unfold late; by rewrite E3, E7).
  eapply calls_ok_frame; [exact H|done|by rewrite E2|done|by rewrite E8| |rewrite Hla; auto|rewrite Hla, E4; auto].
  intros q. apply sure_frame; auto; unfold retiring, failing; rewrite ?E3, ?E6, ?E7; auto.
Qed.

(** [close] goes on after it failed the pending calls. *)
Lemma calls_ok_closing x w w' y p :
  calls_ok x w y -> before_fail (closer y) = false -> before_fail p = false -> opens w' ⊆ opens w -> loops w' = loops w ->
  calls_ok x w' (set_closer p y).
Proof.
  intros H E1 E2 Ho El. assert (forall y', before_fail (closer y') = false -> late y' = true) as Hla.
  { intros y' E. unfold late. rewrite E. simpl. apply orb_true_r. }
  eapply calls_ok_frame; [exact H|done..|eauto| |auto|simpl; auto 6].
  intros q. apply sure_frame; try done; rewrite ?El; auto. congruence.
Qed.

Lemma consumer_registered x w y q : core_ok x w y -> consumeCh x = Some q -> registered y = true.
Proof.
  intros C Hq. apply (ck_registered _ _ _ C).
  - destruct (attached y) eqn:Ha; [done|]. destruct (ck_attached _ _ _ C Ha) as (_ & ? & _). congruence.
  - destruct (closed x) eqn:Hx; [|done]. apply (ck_cleared _ _ _ C) in Hx. congruence.
Qed.

(** The connection goes: no channel is left to publish on. *)
Lemma calls_ok_phase x x' w w' y f :
  calls_ok x w y -> calls x' = calls x -> opens w' = ∅ -> (forall q, phase_clause x w y q -> sure x' w' (set_sess f y) q) ->
  (forall q, consumeCh x' = Some q -> sure x' w' (set_sess f y) q \/ f = LostClear \/ f = Down) ->
  calls_ok x' w' (set_sess f y).
Proof.
  intros [Hp Hw Hh Hc] E1 E2 E3 E4. split; simpl; rewrite ?E1, ?E2.
  - done.
  - intros k q Hk Hr. destruct (Hw k q Hk Hr) as [[?|[?|?]]|?]; [by apply E3|left; right; by left|left; right; by right|by right].
  - set_solver.
  - intros q Hq. destruct (E4 q Hq) as [?|[?|?]]; auto.
Qed.

Lemma calls_ok_step s s' : step s s' -> core_ok (dispatcher_of s) (world_of s) (threads_of s) ->
  known (dispatcher_of s) (world_of s) (threads_of s) -> restore_ok (dispatcher_of s) (world_of s) (threads_of s) ->
  owned (dispatcher_of s) (world_of s) (threads_of s) ->
  calls_ok (dispatcher_of s) (world_of s) (threads_of s) -> calls_ok (dispatcher_of s') (world_of s') (threads_of s').
Proof.
  intros Hs C K R O H. pose proof H as [Hp Hw Hh Hc]. destruct Hs; simpl in *; unfold failPending in *; simplify_eq.
  all: try (assert (plain y) as Hplain by (unfold plain; match goal with E : restoring _ = _ |- _ => by rewrite E end)).
  all: try (by eapply calls_ok_move; [exact H|done|done|done| |done..]; intros ?; simpl; rewrite ?elem_of_union, ?elem_of_singleton; first [by left|intros [?|?]; auto]).
  all: try (by eapply calls_ok_move; [exact H|done|done|done| |apply close_channel_loops|done..]; intros ? ?%close_channel_sub; auto).
  all: try (by eapply calls_ok_frame; [exact H|done..|by eauto| | |]; simpl; [|auto|auto];
    intros ?; apply sure_same; simpl; auto; unfold retiring, failing; simpl; try done; intros (? & ? & ? & ?); congruence).
  all: try (by eapply calls_ok_frame; [exact H|done..|intros ? ? ? _ _ ?%close_channel_sub; auto| | |]; simpl; [|auto|auto];
    intros ?; apply sure_same; simpl; rewrite ?(proj1 (close_channel_loops _ _)); auto; unfold retiring, failing; simpl; try done; intros (? & ? & ? & ?); congruence).
  - eapply calls_ok_sure; [exact H|done..|]. intros q. left; right; left. simpl. eauto.
  - (* recover_over *) eapply calls_ok_loops; [exact H|done..| |auto|]; simpl; [by intros ->|].
    intros q Hq Hs Hin. destruct (decide (gen = replyGen x)) as [->|Hne].
    + right. eapply sure_given_up; try done. destruct H2 as [Hst|?]; [|done]. unfold stale in Hst.
      rewrite bool_decide_true, orb_false_r in Hst by done. apply (ck_cleared _ _ _ C) in Hst. congruence.
    + left. rewrite !elem_of_app in *. destruct Hin as [?|[?|Hin]]; auto. right; right.
      apply list_elem_of_In, in_in_remove; [congruence|by apply list_elem_of_In].
  - (* recover_fail *) eapply calls_ok_fail; [exact H|done..|right; by unfold late|left; by unfold late].
  - (* recover_clear *) eapply calls_ok_frame; [exact H|done..|eauto| |intros _ n _; left; by unfold late|auto].
    intros q. apply sure_retiring; try done. unfold retiring. by rewrite H0.
  - eapply calls_ok_frame; [exact H|done..| | |intros _ n _; left; by unfold late|].
    + intros k c n _ _ Hn. by apply close_channel_sub in Hn.
    + intros q. apply sure_retiring; try done. unfold retiring. by rewrite H0.
    + left. by destruct (rk_pc _ _ _ R _ _ H0) as (_ & ? & _).
  - by eapply calls_ok_close_pub.
  - by eapply calls_ok_restored.
  - eapply calls_ok_move; [exact H|done|done|done| |by rewrite !(proj1 (close_channel_loops _ _))|done..].
    intros k Hk%close_two_sub. auto.
  - by apply calls_ok_installed.
  - eapply calls_ok_restored; try done. apply close_two_sub.
  - (* loop_end *) eapply calls_ok_loops; [exact H|done..| |]; simpl.
    + intros q Hq. destruct (decide (gen = replyGen x)) as [->|Hne]; [right; by left|left; by rewrite lookup_insert_ne].
    + intros q _ _ Hin. left. by right.
  - (* loop_check *) eapply calls_ok_loops; [exact H|done..|auto|]; simpl. intros q Hq Hs Hin. left.
    rewrite !elem_of_app in *. destruct (decide (gen = replyGen x)) as [->|Hne].
    + destruct (ck_loop _ _ _ C q Hq) as [b Hb]. rewrite Hb in H1. injection H1 as <-.
      assert (unexpected q (replyGen x) x = true) as ->; [|right; left; by left].
      unfold unexpected. rewrite !bool_decide_true by done. destruct (closed x) eqn:Hx; [|done].
      apply (ck_cleared _ _ _ C) in Hx. congruence.
    + destruct Hin as [Hin|[?|?]]; [left|right; left; destruct (unexpected n gen x); [by right|done]|auto].
      rewrite H0 in Hin. apply elem_of_cons in Hin as [?|?]; congruence.
  - (* loop_recover *) eapply calls_ok_loops; [exact H|done..|auto|]; simpl. intros q Hq Hs Hin. left.
    rewrite !elem_of_app, elem_of_cons in *. rewrite H0, elem_of_cons in Hin. tauto.
  - (* loop_leave *) eapply calls_ok_loops; [exact H|done..| |auto|]; simpl; [by intros ->|].
    intros q Hq Hs Hin. destruct (decide (gen = replyGen x)) as [->|Hne]; [right; by eapply sure_given_up|left].
    rewrite !elem_of_app in *. rewrite H0, elem_of_cons in Hin. destruct Hin as [?|[[?|?]|?]]; auto. congruence.
  - (* close_call *) eapply calls_ok_sure; [exact H|done..|]. intros q. by left; right; right.
  - (* close_fail *) eapply calls_ok_fail; [exact H|done..|right|left]; unfold late; simpl; apply orb_true_r.
  - eapply calls_ok_closing; [exact H|by rewrite H0|done| |apply close_channel_loops]. intros n Hn. by apply close_channel_sub in Hn.
  - eapply calls_ok_closing; [exact H|by rewrite H0|done| |apply close_channel_loops]. intros n Hn. by apply close_channel_sub in Hn.
  - eapply calls_ok_closing; [exact H|by rewrite H0|done|auto|done].
  - (* session_dies *) eapply calls_ok_phase; [exact H|done..|simpl; set_solver| |].
    + intros q. unfold phase_clause. rewrite H0. intros (Hq & _). left; left. exact (consumer_registered _ _ _ _ C Hq).
    + intros q Hq. left; left; left. exact (consumer_registered _ _ _ _ C Hq).
  - eapply calls_ok_phase; [exact H|done..| | |].
    + eapply lost_closed; eauto; congruence.
    + by intros; left; left.
    + by intros; left; left; left.
  - eapply calls_ok_phase; [exact H|done..| | |].
    + eapply lost_closed; eauto; congruence.
    + intros q. unfold phase_clause. rewrite H0. congruence.
    + auto.
  - (* lost_fail *) eapply calls_ok_fail; [exact H|done..| |auto]. left. eapply lost_closed; eauto; congruence.
  - (* lost_clear *) eapply calls_ok_phase; [exact H|done..| | |done].
    + eapply lost_closed; eauto; congruence.
    + intros q. unfold phase_clause. by rewrite H0.
  - (* relost *) split; simpl; [done| |set_solver|auto]. intros k q Hk Hr. destruct H1. by exists k, q.
  - eapply calls_ok_sure; [exact H|done..|]. intros q. by right.
  - (* announced *) eapply calls_ok_frame; [exact H|done..|eauto| |auto|].
    + intros q. unfold sure, looked_after, phase_clause. simpl. destruct H0 as [->|[-> _]]; [done|tauto].
    + destruct (consumeCh x) as [q|] eqn:Hq; [right|by left]. simpl. split; [done|]. split; [auto|].
      destruct H0 as [->|[Hd Hr]]; [by intros []|]. pose proof (consumer_registered _ _ _ _ C Hq). congruence.
  - eapply calls_ok_caller; [exact H|done..|intros q; by apply sure_same|done|done].
  - (* call_channel *) eapply calls_ok_caller; [exact H|done..|intros j; by apply sure_same|done|]. intros _.
    rewrite (ck_queue _ _ _ C) in H4. destruct (Hc q H4) as [?|[?|Hd]]; auto. exfalso.
    destruct (ow_phase _ _ _ O p H3) as [?|[?|Hs]]; [destruct Hd; congruence..|]. unfold super_holds in Hs.
    destruct (restoring y) as [[[] pc]|] eqn:E; try done. by destruct (rk_new _ _ _ R _ _ p E Hs) as (_ & ? & _).
  - eapply calls_ok_caller; [exact H|done..|intros j; by apply sure_same|done|done].
  - (* call_register *) eapply calls_ok_caller; [exact H|done| | |done|done|intros j; by apply sure_same|done|]; simpl.
    + set_solver.
    + set_solver.
    + split; [set_solver|]. eauto.
  - (* call_publish *) eapply calls_ok_caller; [exact H|done..| |done|]; simpl.
    + intros j. apply sure_same; try done. simpl. by intros ->.
    + intros Hr. split; [eapply Hp; eauto|]. destruct (Hh k p q (or_intror H0) H1) as [Hs|Hl].
      * revert Hs. apply sure_same; try done. simpl. by intros ->.
      * right. simpl. by rewrite Hl, orb_true_r.
  - eapply calls_ok_caller; [exact H|done|done| |done|done|intros j; by apply sure_same|done|]; simpl; [set_solver|]. by destruct again.
  - (* call_reply *) eapply calls_ok_frame; [exact H|done| | |eauto|intros j; by apply sure_same|auto|auto]; simpl; set_solver.
  - eapply calls_ok_caller; [exact H|done..|intros j; by apply sure_same|done|done].
  - eapply calls_ok_caller; [exact H|done|done| |done|done|intros j; by apply sure_same|done|done]; simpl; set_solver.
Qed.

(** ** Every life *)

Record life_ok (s : life) : Prop := {
  ok_core : core_ok (dispatcher_of s) (world_of s) (threads_of s);
  ok_known : known (dispatcher_of s) (world_of s) (threads_of s);
  ok_restore : restore_ok (dispatcher_of s) (world_of s) (threads_of s);
  ok_owned : owned (dispatcher_of s) (world_of s) (threads_of s);
  ok_calls : calls_ok (dispatcher_of s) (world_of s) (threads_of s)
}.

Lemma dispatcher_life_ok_step s s' : step s s' -> life_ok s -> life_ok s'.
Proof.
  intros Hs [C K R O A]. split; [by eapply core_ok_step|by eapply known_step|by eapply restore_ok_step|by eapply reply_owned_step|by eapply calls_ok_step].
Qed.

Lemma dispatcher_life_ok_init : life_ok init.
Proof. split; split; simpl; try done; try set_solver; try naive_solver. Qed.

Lemma dispatcher_reachable_ok s : reachable s -> life_ok s.
Proof. intros H. eapply rtc_invariant; [exact dispatcher_life_ok_step|exact dispatcher_life_ok_init|exact H]. Qed.

(** No restore and no close is under way. *)
Definition quiet (y : threads) : Prop := restoring y = None /\ (closer y = NotClosing \/ closer y = CloseReturned).

Lemma quiet_holds y n : quiet y -> ~ held y n /\ ~ held_consumer y n.
Proof. unfold held, held_consumer. intros [-> [-> | ->]]; simpl; tauto. Qed.

(** C24: the life of the reply consumer. In every reachable state: the reply
    queue is named exactly when its consumer is installed; a recovery retires
    only the consumer it was begun for, which is still the newest one and whose
    loop has ended, so it never tears down a rebuild of someone else; once no
    restore or close is under way, the only live reply consumer is the installed
    one (so a closed dispatcher has none), and an open dispatcher has no channel
    open but the two it holds; and the loop [close] waits for has ended, or gets
    no more replies, or is about to be cut off by a recovery. *)
Theorem reply_consumer_life (s : life) :
  reachable s ->
  let x := dispatcher_of s in let w := world_of s in let y := threads_of s in
  replyQueue x = consumeCh x /\
  (forall gen dead p, restoring y = Some (Recovery gen, RecoverFail dead p) \/
     restoring y = Some (Recovery gen, RecoverClear dead p) \/ restoring y = Some (Recovery gen, RecoverCloseDead dead p) ->
     replyGen x = gen /\ loops w !! gen = Some (dead, false)) /\
  (quiet y -> forall n, n ∈ live w -> consumeCh x = Some n /\ closed x = false) /\
  (quiet y -> closed x = false -> forall n, n ∈ opens w -> pub x = Some n \/ consumeCh x = Some n) /\
  (forall g n, closer y = CloseAwait (Some g) -> loops w !! g = Some (n, true) -> n ∈ live w ->
     exists who p, restoring y = Some (who, RecoverCloseDead n p)).
Proof.
  intros [C K R O A]%dispatcher_reachable_ok. simpl. split_and!.
  - apply C.
  - intros gen dead p Hr. assert (exists q, restoring (threads_of s) = Some (Recovery gen, q)) as [q Hq] by naive_solver.
    split; [by eapply (rk_gen _ _ _ R)|]. pose proof (rk_pc _ _ _ R _ _ Hq) as Hf.
    destruct Hr as [E|[E|E]]; rewrite E in Hq; injection Hq as <-; destruct Hf as ((g & [= <-] & ?) & _); done.
  - intros Hq n Hn. destruct (ow_consumers _ _ _ O n Hn) as [Hc|?]; [|by destruct (quiet_holds _ n Hq)]. split; [done|].
    destruct (closed (dispatcher_of s)) eqn:Hx; [|done]. apply (ck_cleared _ _ _ C) in Hx. congruence.
  - intros Hq _ n Hn. destruct (ow_channels _ _ _ O n Hn) as [?|[?|?]]; auto. by destruct (quiet_holds _ n Hq).
  - intros g n Hc Hg Hn. destruct (ow_consumers _ _ _ O n Hn) as [E|[E|E]].
    + assert (closed (dispatcher_of s) = true) as Hx by (apply (ck_closed _ _ _ C); by rewrite Hc).
      apply (ck_cleared _ _ _ C) in Hx. congruence.
    + destruct (restoring (threads_of s)) as [[who []]|] eqn:Er; try done; subst; [eauto|].
      destruct (rk_new _ _ _ R _ _ n Er) as (_ & _ & _ & Hl & _); [by left|]. by destruct (Hl g true).
    + by rewrite Hc in E.
Qed.

(** A run all of whose states satisfy [P]. *)
Definition reachable_within (P : life -> Prop) (s : life) : Prop := rtc (fun a b => step a b /\ P b) init s.

Lemma dispatcher_reachable_within_reachable P s : reachable_within P s -> reachable s.
Proof. apply rtc_subrel. by intros a b [? _]. Qed.

(** Call [k] waits on queue [q], the connection is up, nothing is under way, and
    no loop reads [q]: only the caller's own deadline ends the wait. *)
Definition forsaken (s : life) (k q : nat) : Prop :=
  callers (threads_of s) !! k = Some (Waiting q) /\ k ∉ resolved (threads_of s) /\ sess (threads_of s) = Up /\
  quiet (threads_of s) /\ ending (threads_of s) ++ deciding (threads_of s) ++ recoveries (threads_of s) = [] /\
  forall g, loops (world_of s) !! g <> Some (q, true).

Tactic Notation "take" open_constr(rule) :=
  eapply rtc_l; [split; [eapply rule; try (vm_compute; reflexivity); try (vm_compute; discriminate)|
    vm_compute; repeat split; first [reflexivity|exact I]]|]; cbn.

(** Steps with a side condition to give. *)
Tactic Notation "take" open_constr(rule) "by" tactic(t) :=
  eapply rtc_l; [split; [eapply rule; try (vm_compute; reflexivity); t|vm_compute; repeat split; first [reflexivity|exact I]]|]; cbn.

(** A restore by [who], from its first check to its end. *)
Ltac take_restore who :=
  take (restore_check _ _ _ who); take (restore_declare _ _ _ who); take (restore_pub _ _ _ who);
  take (restore_consume _ _ _ who); take (restore_install _ _ _ who).

(** Attached: reply channel 0, publishing channel 1. *)
Ltac take_attach := take attach_begin; take_restore Attach.

(** Call [k] takes channel [p] and queue [q]. *)
Ltac take_channel k p q := take (call_channel _ _ _ k p q).
Ltac take_publish k p q := take (call_register _ _ _ k p q); take (call_publish _ _ _ k p q).

(** The installed consumer of generation [g] on channel [n] dies, and its loop ends. *)
Ltac take_death g n := take (broker_cancels _ _ _ n); take (loop_end _ _ _ g n); take (loop_check _ _ _ g n []).

Ltac take_loss :=
  take session_dies; take session_lost; take lost_fail; take lost_clear; take (loop_end _ _ _ 1 0); take (loop_check _ _ _ 1 0 []).

Lemma no_reader (m : gmap nat (nat * bool)) (i : nat * bool) :
  bool_decide (map_Forall (fun _ j => j <> i) m) = true -> forall g, m !! g <> Some i.
Proof. intros H%bool_decide_eq_true g Hg. by apply (H g i Hg). Qed.

Ltac check_forsaken :=
  split_and!; try (vm_compute; reflexivity); [vm_compute; by intros ?|split; [vm_compute; reflexivity|vm_compute; auto]|];
  apply no_reader; vm_compute; reflexivity.

(** The call took the channel before the recovery failed the pending calls, and
    published before the recovery closed it. *)
Lemma race_run : exists s, reachable_within (fun s => sess (threads_of s) = Up /\ closer (threads_of s) = NotClosing) s /\ forsaken s 7 0.
Proof.
  eexists. split.
  - unfold reachable_within, init. take_attach. take (call_begin _ _ _ 7). take_channel 7 1 0.
    take_death 1 0. take (loop_recover _ _ _ 1 []). take (recover_begin _ _ _ 1 0) by (vm_compute; left). take recover_fail. take_publish 7 1 0.
    take recover_clear. take recover_close_dead. take recover_close_pub. take_restore (Recovery 1). apply rtc_refl.
  - check_forsaken.
Qed.

(** The restored consumer died before the connection was announced; the call came
    after. *)
Lemma unannounced_run : exists s, reachable_within (fun s => recoveries (threads_of s) = []) s /\ forsaken s 7 2 /\ consumeCh (dispatcher_of s) = Some 2.
Proof.
  eexists. split.
  - unfold reachable_within, init. take_attach. take_loss. take supervisor_begin. take_restore Supervisor. take_death 2 2.
    take (loop_leave _ _ _ 2 []). take session_announced by (vm_compute; auto). take (call_begin _ _ _ 7). take_channel 7 3 2. take_publish 7 3 2. apply rtc_refl.
  - split; [check_forsaken|vm_compute; reflexivity].
Qed.

(** The call published on a restored connection that was lost before it was
    announced. *)
Lemma relost_run : exists s, reachable_within (fun s => recoveries (threads_of s) = []) s /\ forsaken s 7 2 /\ consumeCh (dispatcher_of s) <> Some 2.
Proof.
  eexists. split.
  - unfold reachable_within, init. take_attach. take (call_begin _ _ _ 7). take_loss. take supervisor_begin. take_restore Supervisor.
    take_channel 7 3 2. take_publish 7 3 2. take session_relost_waiting by (exists 7, 2; split; [vm_compute; reflexivity|by vm_compute; intros ?]).
    take (loop_end _ _ _ 2 2). take (loop_check _ _ _ 2 2 []). take (loop_leave _ _ _ 2 []).
    take supervisor_begin. take_restore Supervisor. take session_announced by (vm_compute; auto). apply rtc_refl.
  - split; [check_forsaken|vm_compute; discriminate].
Qed.

(** The call took the channel before [close] failed the pending calls, and
    published before [close] closed it. *)
Lemma closing_run : exists s,
  reachable_within (fun s => sess (threads_of s) = Up /\ recoveries (threads_of s) = []) s /\ forsaken s 7 0 /\ closed (dispatcher_of s) = true.
Proof.
  eexists. split.
  - unfold reachable_within, init. take_attach. take (call_begin _ _ _ 7). take_channel 7 1 0. take session_finished. take close_call.
    take close_fail. take_publish 7 1 0. take close_replies. take close_pub. take (loop_end _ _ _ 1 0). take (loop_check _ _ _ 1 0 []).
    take close_await by (intros ? [= <-]; vm_compute; reflexivity). apply rtc_refl.
  - split; [check_forsaken|vm_compute; reflexivity].
Qed.


(** ** Samples *)

(** A dispatcher whose reply consumer died and was recovered. *)
Lemma reply_consumer_life_witness : exists s, reachable s /\ replyGen (dispatcher_of s) = 2 /\ live (world_of s) <> ∅ /\
  forall n, n ∈ live (world_of s) -> consumeCh (dispatcher_of s) = Some n /\ closed (dispatcher_of s) = false.
Proof.
  assert (exists s, reachable s /\ replyGen (dispatcher_of s) = 2 /\ live (world_of s) <> ∅ /\ quiet (threads_of s)) as (s & Hr & Hg & Hl & Hq).
  { eexists. split_and!.
    - apply (dispatcher_reachable_within_reachable (fun _ => True)). unfold reachable_within, init. take_attach. take_death 1 0.
      take (loop_recover _ _ _ 1 []). take (recover_begin _ _ _ 1 0) by (vm_compute; left). take recover_fail. take recover_clear.
      take recover_close_dead. take recover_close_pub. take_restore (Recovery 1). apply rtc_refl.
    - vm_compute. reflexivity.
    - vm_compute. discriminate.
    - split; [vm_compute; reflexivity|vm_compute; auto]. }
  exists s. split; [exact Hr|]. split; [exact Hg|]. split; [exact Hl|].
  destruct (reply_consumer_life s Hr) as (_ & _ & H & _). exact (H Hq).
Defined.
