(* ===== verification/Gen.v ===== *)
(** * Gen: the bindings generator (internal/gen)

    For every service of a file, the generator writes a server interface, an
    unimplemented server, the descriptor the bus registers, and a client. The
    output is the list of the printed lines; formatting and the import block that
    protogen adds for message types are protogen's. What a message type is called
    in the generated package is protogen's [QualifiedGoIdent], a parameter. *)
From S2P Require Import Prelude GoStrings Errors Names Service.

(** ** Descriptors *)

Section Gen.
Context {Ident : Type} (QualifiedGoIdent : Ident -> string).

(** [protogen.Method], [protogen.Service] and [protogen.File]: what the generator
    reads of them. *)
Record method := {
  mDescName : string; mFullName : string; mGoName : string; mInput : Ident; mOutput : Ident;
  mStreamingClient : bool; mStreamingServer : bool; mLeading : string; mDeprecated : bool
}.

Record service := {
  sFullName : string; sGoName : string; sLeading : string; sDeprecated : bool; sMethods : list method
}.

Record file := { fPath : string; fGoPackageName : string; fServices : list service }.

(** [Options] *)
Record Options := { Infix : string }.

Definition Version : string := "2.0.0".

Definition protobusImport : string := "github.com/ArielLaub/protobus-go/v2".

(** ** Names and signatures *)

(** [lowerFirst] *)
Definition lowerFirst (s : string) : string :=
  match s with
  | EmptyString => s
  | String c r => String (ascii_of_N (Z.to_N (lower (asciiZ c)))) r
  end.

(** [serverSignature] *)
Definition serverSignature (m : method) : string :=
  let inn := QualifiedGoIdent (mInput m) in
  let out := QualifiedGoIdent (mOutput m) in
  if mStreamingServer m
  then mGoName m +:+ "(context.Context, *" +:+ inn +:+ ", protobus.ServerStream[*" +:+ out +:+ "]) error"
  else mGoName m +:+ "(context.Context, *" +:+ inn +:+ ") (*" +:+ out +:+ ", error)".

(** [clientSignature] *)
Definition clientSignature (m : method) : string :=
  let inn := QualifiedGoIdent (mInput m) in
  let out := QualifiedGoIdent (mOutput m) in
  if mStreamingServer m
  then mGoName m +:+ "(ctx context.Context, in *" +:+ inn +:+ ", opts ...protobus.StreamOption) iter.Seq2[*" +:+ out +:+ ", error]"
  else mGoName m +:+ "(ctx context.Context, in *" +:+ inn +:+ ", opts ...protobus.CallOption) (*" +:+ out +:+ ", error)".

(** [deprecated] *)
Definition deprecated (d : bool) : list string := if d then ["//"; "// Deprecated: Do not use."] else [].

Definition of_codes (l : list Z) : string := of_bytes (omap (fun z => Byte.of_N (Z.to_N z)) l).

(** [strings.TrimPrefix(s, " ")] and [strings.TrimRight(s, " ")] *)
Definition trim_space_prefix (s : string) : string :=
  match s with String c r => if decide (c = " "%char) then r else s | EmptyString => s end.

Fixpoint trim_spaces_right (s : string) : string :=
  match s with
  | EmptyString => EmptyString
  | String c r =>
      match trim_spaces_right r with
      | EmptyString => if decide (c = " "%char) then EmptyString else String c EmptyString
      | r' => String c r'
      end
  end.

(** [comment] *)
Definition comment (c fallback : string) : list string :=
  let text := of_codes (TrimSpace c) in
  if decide (text = "") then ["// " +:+ fallback]
  else (fun line => trim_spaces_right ("// " +:+ trim_space_prefix line)) <$> split_on "010"%char text.

(** ** The service *)

Section Service.
Variables (opts : Options) (svc : service).

Definition gname : string := sGoName svc +:+ Infix opts.
Definition full : string := sFullName svc.
Definition serverIface : string := gname +:+ "Server".
Definition clientIface : string := gname +:+ "Client".
Definition unimpl : string := "Unimplemented" +:+ serverIface.
Definition descVar : string := gname +:+ "_ServiceDesc".
Definition nameConst : string := gname +:+ "_ServiceName".
Definition impl : string := lowerFirst gname +:+ "Client".

(** The server interface and the unimplemented server. *)
Definition server_lines : list string :=
  ["// " +:+ nameConst +:+ " is the fully-qualified name of the " +:+ full +:+ " service.";
   "const " +:+ nameConst +:+ " = " +:+ Quote full; ""] ++
  comment (sLeading svc) (serverIface +:+ " is the server API for the " +:+ full +:+ " service.") ++
  ["//";
   "// Implementations should embed " +:+ unimpl +:+ " so that adding a method to the";
   "// service does not break them: an unimplemented method answers its caller";
   "// with a PROTOCOL_ERROR."] ++
  deprecated (sDeprecated svc) ++
  ["type " +:+ serverIface +:+ " interface {"] ++
  (sMethods svc ≫= fun m =>
    comment (mLeading m) (mGoName m +:+ " serves the " +:+ mDescName m +:+ " method.") ++ deprecated (mDeprecated m) ++
    [serverSignature m]) ++
  ["}"; "";
   "// " +:+ unimpl +:+ " answers every method with protobus.ErrUnimplemented.";
   "type " +:+ unimpl +:+ " struct{}"; ""] ++
  (sMethods svc ≫= fun m =>
    ["func (" +:+ unimpl +:+ ") " +:+ serverSignature m +:+ " {";
     if mStreamingServer m then "return protobus.ErrUnimplemented" else "return nil, protobus.ErrUnimplemented";
     "}"; ""]).

(** An entry of the descriptor's method table. *)
Definition unary_entry (m : method) : list string :=
  let inn := QualifiedGoIdent (mInput m) in
  ["{";
   "MethodName: " +:+ Quote (mDescName m) +:+ ",";
   "Handler: func(srv any, ctx context.Context, dec protobus.DecodeFunc, interceptor protobus.UnaryServerInterceptor) (proto.Message, error) {";
   "in := new(" +:+ inn +:+ ")";
   "if err := dec(in); err != nil {";
   "return nil, err";
   "}";
   "if interceptor == nil {";
   "return srv.(" +:+ serverIface +:+ ")." +:+ mGoName m +:+ "(ctx, in)";
   "}";
   "info := &protobus.UnaryServerInfo{Server: srv, FullMethod: " +:+ Quote (mFullName m) +:+ "}";
   "return interceptor(ctx, in, info, func(ctx context.Context, req proto.Message) (proto.Message, error) {";
   "return srv.(" +:+ serverIface +:+ ")." +:+ mGoName m +:+ "(ctx, req.(*" +:+ inn +:+ "))";
   "})";
   "},";
   "},"].

(** An entry of its stream table. *)
Definition stream_entry (m : method) : list string :=
  let inn := QualifiedGoIdent (mInput m) in
  let out := QualifiedGoIdent (mOutput m) in
  ["{";
   "MethodName: " +:+ Quote (mDescName m) +:+ ",";
   "Handler: func(srv any, ctx context.Context, dec protobus.DecodeFunc, stream protobus.RawServerStream, interceptor protobus.StreamServerInterceptor) error {";
   "in := new(" +:+ inn +:+ ")";
   "if err := dec(in); err != nil {";
   "return err";
   "}";
   "if interceptor == nil {";
   "return srv.(" +:+ serverIface +:+ ")." +:+ mGoName m +:+ "(ctx, in, protobus.NewServerStream[*" +:+ out +:+ "](stream))";
   "}";
   "info := &protobus.StreamServerInfo{Server: srv, FullMethod: " +:+ Quote (mFullName m) +:+ "}";
   "return interceptor(ctx, in, stream, info, func(ctx context.Context, req proto.Message, stream protobus.RawServerStream) error {";
   "return srv.(" +:+ serverIface +:+ ")." +:+ mGoName m +:+ "(ctx, req.(*" +:+ inn +:+ "), protobus.NewServerStream[*" +:+ out +:+ "](stream))";
   "})";
   "},";
   "},"].

Definition methods_marker : string := "Methods: []protobus.MethodDesc{".
Definition streams_marker : string := "Streams: []protobus.StreamDesc{".

(** The descriptor. *)
Definition desc_lines : list string :=
  ["// " +:+ descVar +:+ " describes the " +:+ full +:+ " service for protobus.Bus.Register.";
   "var " +:+ descVar +:+ " = protobus.ServiceDesc{";
   "ServiceName: " +:+ nameConst +:+ ",";
   "HandlerType: (*" +:+ serverIface +:+ ")(nil),";
   methods_marker] ++
  (sMethods svc ≫= fun m => if mStreamingServer m then [] else unary_entry m) ++
  ["},"; streams_marker] ++
  (sMethods svc ≫= fun m => if mStreamingServer m then stream_entry m else []) ++
  ["},"; "}"; ""].

(** The registration function and the client. *)
Definition register_lines : list string :=
  ["// Register" +:+ serverIface +:+ " prepares srv to serve " +:+ full +:+ " on bus. Call Start on";
   "// the returned service (or pass it to protobus.Run) to begin serving."] ++
  deprecated (sDeprecated svc) ++
  ["func Register" +:+ serverIface +:+ "(bus *protobus.Bus, srv " +:+ serverIface +:+
     ", opts ...protobus.ServiceOption) (*protobus.Service, error) {";
   "return bus.Register(&" +:+ descVar +:+ ", srv, opts...)"; "}"; ""].

Definition client_method (m : method) : list string :=
  ["func (c *" +:+ impl +:+ ") " +:+ clientSignature m +:+ " {"] ++
  (if mStreamingServer m
   then ["return protobus.Stream[*" +:+ QualifiedGoIdent (mOutput m) +:+ "](ctx, c.c, " +:+ Quote (mDescName m) +:+ ", in, opts...)"]
   else ["out := new(" +:+ QualifiedGoIdent (mOutput m) +:+ ")";
         "if err := c.c.Invoke(ctx, " +:+ Quote (mDescName m) +:+ ", in, out, opts...); err != nil {";
         "return nil, err"; "}"; "return out, nil"]) ++
  ["}"; ""].

Definition client_lines : list string :=
  comment (sLeading svc) (clientIface +:+ " is the client API for the " +:+ full +:+ " service.") ++
  deprecated (sDeprecated svc) ++
  ["type " +:+ clientIface +:+ " interface {"] ++
  (sMethods svc ≫= fun m =>
    comment (mLeading m) (mGoName m +:+ " calls the " +:+ mDescName m +:+ " method.") ++ deprecated (mDeprecated m) ++
    [clientSignature m]) ++
  ["}"; "";
   "type " +:+ impl +:+ " struct {"; "c *protobus.Client"; "}"; "";
   "// New" +:+ clientIface +:+ " returns a client for " +:+ full +:+ ". Pass protobus.WithInstance";
   "// to address a named instance of the service."] ++
  deprecated (sDeprecated svc) ++
  ["func New" +:+ clientIface +:+ "(bus *protobus.Bus, opts ...protobus.ClientOption) " +:+ clientIface +:+ " {";
   "return &" +:+ impl +:+ "{c: protobus.NewClient(bus, " +:+ nameConst +:+ ", opts...)}"; "}"; ""] ++
  (sMethods svc ≫= client_method).

(** [genService] *)
Definition genService : list string := server_lines ++ desc_lines ++ register_lines ++ client_lines.

End Service.

(** ** The file *)

(** [checkNameClashes]: the first method whose Go name was taken, and by which. *)
Fixpoint clash (seen : gmap string string) (ms : list method) : option (string * method) :=
  match ms with
  | [] => None
  | m :: ms' =>
      match seen !! mGoName m with
      | Some prev => Some (prev, m)
      | None => clash (<[mGoName m := mDescName m]> seen) ms'
      end
  end.

Definition checkNameClashes (svc : service) : option string :=
  (fun '(prev, m) => "methods " +:+ prev +:+ " and " +:+ mDescName m +:+ " of " +:+ sFullName svc
     +:+ " both map to the Go name " +:+ mGoName m) <$> clash ∅ (sMethods svc).

(** The refusal of one service: a client-streaming method first. *)
Definition check_service (path : string) (svc : service) : option string :=
  match List.find mStreamingClient (sMethods svc) with
  | Some m => Some (path +:+ ": protobus does not support client streaming (method " +:+ mFullName m +:+ ")")
  | None => (fun e => path +:+ ": " +:+ e) <$> checkNameClashes svc
  end.

Fixpoint check_services (path : string) (ss : list service) : option string :=
  match ss with
  | [] => None
  | svc :: ss' => match check_service path svc with Some e => Some e | None => check_services path ss' end
  end.

Definition has_streaming (f : file) : bool := existsb (fun s => existsb mStreamingServer (sMethods s)) (fServices f).
Definition has_unary (f : file) : bool := existsb (fun s => existsb (fun m => negb (mStreamingServer m)) (sMethods s)) (fServices f).

Definition import_lines (f : file) : list string :=
  ["import ("; Quote "context"] ++ (if has_streaming f then [Quote "iter"] else []) ++ [""] ++
  (if has_unary f then [Quote "google.golang.org/protobuf/proto"] else []) ++
  [""; "protobus " +:+ Quote protobusImport; ")"; ""].

Definition header_lines (f : file) : list string :=
  ["// Code generated by protoc-gen-go-protobus. DO NOT EDIT."; "// versions:";
   "// - protoc-gen-go-protobus v" +:+ Version; "// source: " +:+ fPath f; "";
   "package " +:+ fGoPackageName f; ""].

(** [GenerateFileWith]: no file for a file without services. *)
Definition GenerateFileWith (opts : Options) (f : file) : option (list string) + string :=
  match fServices f with
  | [] => inl None
  | ss =>
      match check_services (fPath f) ss with
      | Some e => inr e
      | None =>
          inl (Some (header_lines f ++ import_lines f ++
            ["// This is a compile-time assertion that the protobus-go library is new";
             "// enough for, and still supports, this generated code.";
             "const _ = protobus.SupportPackageIsVersion1"; ""] ++
            (ss ≫= genService opts)))
      end
  end.

(** ** What the generated descriptor says *)

(** Everything before and after the first line that is [f]. *)
Fixpoint cut (f : string -> bool) (ls : list string) : list string * list string :=
  match ls with
  | [] => ([], [])
  | l :: ls' => if f l then ([], ls') else let '(a, b) := cut f ls' in (l :: a, b)
  end.

Definition quote_mark : ascii := "034"%char.

(** The text up to the next quotation mark, and after the next one. *)
Fixpoint until_quote (s : string) : string :=
  match s with
  | EmptyString => EmptyString
  | String c r => if decide (c = quote_mark) then EmptyString else String c (until_quote r)
  end.

Fixpoint after_quote (s : string) : string :=
  match s with
  | EmptyString => EmptyString
  | String c r => if decide (c = quote_mark) then r else after_quote r
  end.

(** The first string literal of a line. *)
Definition literal (l : string) : string := until_quote (after_quote l).

Definition entry_name (l : string) : option string :=
  if String.prefix "MethodName: " l then Some (literal l) else None.

(** The descriptor that the printed lines declare. *)
Definition read_desc (ls : list string) : ServiceDesc :=
  let '(_, rest) := cut (String.eqb methods_marker) ls in
  let '(ms, rest) := cut (String.eqb streams_marker) rest in
  let '(ss, _) := cut (String.prefix "// Register") rest in
  {| ServiceName := match List.find (String.prefix "const ") ls with Some l => literal l | None => "" end;
     Methods := omap entry_name ms; Streams := omap entry_name ss |}.

(** ** Reading back *)

Lemma cut_app f a x b : Forall (fun l => f l = false) a -> f x = true -> cut f (a ++ x :: b) = (a, b).
Proof. intros Ha Hx. induction Ha as [|l a Hl _ IH]; simpl; [by rewrite Hx|by rewrite Hl, IH]. Qed.

(** Names without a quotation mark, a backslash or a control character print as
    themselves. *)
Definition clean (s : string) : bool :=
  forallb (fun c => let n := nat_of_ascii c in (32 <=? n)%nat && negb (n =? 34)%nat && negb (n =? 92)%nat && negb (n =? 127)%nat)
    (String.list_ascii_of_string s).

Lemma quote_char_clean c :
  (let n := nat_of_ascii c in (32 <=? n)%nat && negb (n =? 34)%nat && negb (n =? 92)%nat && negb (n =? 127)%nat) = true ->
  quote_char c = String c EmptyString /\ c <> quote_mark.
Proof.
  cbv zeta. rewrite !andb_true_iff, !negb_true_iff, !Nat.eqb_neq, Nat.leb_le. intros [[[H1 H2] H3] H4].
  split; [|by intros ->]. unfold quote_char. cbv zeta.
  repeat match goal with |- context [(?n =? ?k)%nat] => destruct (Nat.eqb_spec n k); [lia|] end.
  destruct (Nat.ltb_spec (nat_of_ascii c) 32); [lia|]. done.
Qed.

Lemma until_quote_app s t : clean s = true -> until_quote (s +:+ String quote_mark t) = s.
Proof.
  induction s as [|c s IH]; [done|]. unfold clean. cbn [String.list_ascii_of_string forallb].
  rewrite andb_true_iff. intros [Hc Hs]. apply quote_char_clean in Hc as [_ Hne]. simpl. rewrite decide_False by done. by rewrite IH.
Qed.

Lemma after_quote_app s t : clean s = true -> after_quote (s +:+ String quote_mark t) = t.
Proof.
  induction s as [|c s IH]; [done|]. unfold clean. cbn [String.list_ascii_of_string forallb].
  rewrite andb_true_iff. intros [Hc Hs]. apply quote_char_clean in Hc as [_ Hne]. simpl. rewrite decide_False by done. by rewrite IH.
Qed.

Lemma concat_clean s : clean s = true -> String.concat "" (map quote_char (String.list_ascii_of_string s)) = s.
Proof.
  induction s as [|c s IH]; [done|]. unfold clean. cbn [String.list_ascii_of_string forallb map].
  rewrite andb_true_iff. intros [Hc Hs]. apply quote_char_clean in Hc as [Hq _]. specialize (IH Hs).
  destruct s as [|c' s]; cbn [String.list_ascii_of_string map String.concat] in *; [by rewrite Hq|]. rewrite Hq, IH. done.
Qed.

Lemma Quote_clean s : clean s = true -> Quote s = String quote_mark (s +:+ String quote_mark EmptyString).
Proof. intros Hs. unfold Quote. cbv zeta. rewrite concat_clean by done. done. Qed.

Lemma literal_Quote a s b : clean a = true -> clean s = true -> literal (a +:+ Quote s +:+ b) = s.
Proof.
  intros Ha Hs. unfold literal. rewrite Quote_clean by done.
  change (String quote_mark (s +:+ String quote_mark "") +:+ b) with (String quote_mark ((s +:+ String quote_mark "") +:+ b)).
  rewrite after_quote_app by done. rewrite string_app_assoc. by apply until_quote_app.
Qed.

(** *** No line but the markers is a marker *)

Fixpoint last_char (s : string) : option ascii :=
  match s with
  | EmptyString => None
  | String c EmptyString => Some c
  | String _ r => last_char r
  end.

Lemma last_char_app a c r : last_char (a +:+ String c r) = last_char (String c r).
Proof. induction a as [|x a IH]; [done|]. destruct a as [|y a]; [done|]. exact IH. Qed.

(** The last character of a signature is a parenthesis, a bracket or a letter. *)
Lemma serverSignature_last m : last_char (serverSignature m) = Some "r"%char \/ last_char (serverSignature m) = Some ")"%char.
Proof.
  unfold serverSignature. destruct (mStreamingServer m); [left|right];
    rewrite <-?string_app_assoc, last_char_app; done.
Qed.

Lemma clientSignature_last m : last_char (clientSignature m) = Some "]"%char \/ last_char (clientSignature m) = Some ")"%char.
Proof.
  unfold clientSignature. destruct (mStreamingServer m); [left|right];
    rewrite <-?string_app_assoc, last_char_app; done.
Qed.

Lemma trim_spaces_right_slash s : exists r, trim_spaces_right (String "/" s) = String "/" r.
Proof. simpl. destruct (trim_spaces_right s); eauto. Qed.

(** Every comment line starts with a slash. *)
Definition slash (l : string) : Prop := exists r, l = String "/" r.

Lemma comment_slash c f : Forall slash (comment c f).
Proof.
  unfold comment. case_decide; [by repeat constructor; eexists|]. apply Forall_fmap, Forall_true. intros l. apply trim_spaces_right_slash.
Qed.

Lemma deprecated_slash d : Forall slash (deprecated d).
Proof. destruct d; repeat constructor; by eexists. Qed.

(** A predicate on lines that no comment and no signature satisfies, nor any of
    the fixed lines it is checked on. *)
Lemma Forall_bind_lines (P : string -> Prop) (ms : list method) (f : method -> list string) :
  (forall m, Forall P (f m)) -> Forall P (ms ≫= f).
Proof. intros H. induction ms as [|m ms IH]; simpl; [constructor|]. apply Forall_app; auto. Qed.

Ltac fixed_lines := repeat first [apply Forall_app; split | apply Forall_cons; split | apply Forall_nil]; try done.

Section Lines.
Variables (opts : Options) (svc : service) (P : string -> Prop).
Hypothesis P_slash : forall r, P (String "/" r).
Hypothesis P_server : forall m, P (serverSignature m).
Hypothesis P_client : forall m, P (clientSignature m).

Lemma P_comment c f : Forall P (comment c f).
Proof. eapply Forall_impl; [apply comment_slash|]. by intros l [r ->]. Qed.

Lemma P_deprecated d : Forall P (deprecated d).
Proof. eapply Forall_impl; [apply deprecated_slash|]. by intros l [r ->]. Qed.

Lemma P_server_lines :
  (forall r, P (String "c" r)) -> (forall r, P (String "t" r)) -> (forall r, P (String "f" r)) -> (forall r, P (String "r" r)) ->
  P "" -> P "}" -> Forall P (server_lines opts svc).
Proof.
  intros Hc Ht Hf Hr He Hb. unfold server_lines. fixed_lines; auto using P_comment, P_deprecated;
    try apply Hc; try apply Ht; try apply P_slash.
  - apply Forall_bind_lines. intros m. fixed_lines; auto using P_comment, P_deprecated.
  - apply Forall_bind_lines. intros m. fixed_lines; auto; [apply Hf|]. destruct (mStreamingServer m); apply Hr.
Qed.

Lemma P_register_lines :
  (forall r, P (String "f" r)) -> (forall r, P (String "r" r)) -> P "" -> P "}" -> Forall P (register_lines opts svc).
Proof. intros Hf Hr He Hb. unfold register_lines. fixed_lines; auto using P_deprecated; first [apply P_slash|apply Hf|apply Hr]. Qed.

Lemma P_client_lines :
  (forall r, P (String "c" r)) -> (forall r, P (String "t" r)) -> (forall r, P (String "f" r)) -> (forall r, P (String "r" r)) ->
  (forall r, P (String "o" r)) -> (forall r, P (String "i" r)) -> P "" -> P "}" -> Forall P (client_lines opts svc).
Proof.
  intros Hc Ht Hf Hr Ho Hi He Hb. unfold client_lines. fixed_lines; auto using P_comment, P_deprecated;
    try first [apply P_slash|apply Hc|apply Ht|apply Hf|apply Hr].
  - apply Forall_bind_lines. intros m. fixed_lines; auto using P_comment, P_deprecated.
  - apply Forall_bind_lines. intros m. unfold client_method. fixed_lines; auto; [apply Hf|].
    destruct (mStreamingServer m); fixed_lines; first [apply Hr|apply Ho|apply Hi|done].
Qed.
End Lines.

(** *** The tables *)

Definition unary_names (svc : service) : list string := mDescName <$> List.filter (fun m => negb (mStreamingServer m)) (sMethods svc).
Definition stream_names (svc : service) : list string := mDescName <$> List.filter mStreamingServer (sMethods svc).

(** The names [protoc] and [protoc-gen-go] give are identifiers. *)
Definition clean_service (opts : Options) (svc : service) : bool :=
  clean (sFullName svc) && clean (nameConst opts svc) && forallb (fun m => clean (mDescName m)) (sMethods svc).

Lemma unary_entry_names opts svc m : clean (mDescName m) = true -> omap entry_name (unary_entry opts svc m) = [mDescName m].
Proof.
  intros Hm. transitivity [literal ("MethodName: " +:+ Quote (mDescName m) +:+ ",")]; [reflexivity|]. by rewrite literal_Quote.
Qed.

Lemma stream_entry_names opts svc m : clean (mDescName m) = true -> omap entry_name (stream_entry opts svc m) = [mDescName m].
Proof.
  intros Hm. transitivity [literal ("MethodName: " +:+ Quote (mDescName m) +:+ ",")]; [reflexivity|]. by rewrite literal_Quote.
Qed.

Lemma table_names (pick : method -> bool) (f : method -> list string) ms :
  (forall m, m ∈ ms -> pick m = true -> omap entry_name (f m) = [mDescName m]) ->
  omap entry_name (ms ≫= fun m => if pick m then f m else []) = mDescName <$> List.filter pick ms.
Proof.
  intros H. induction ms as [|m ms IH]; [done|]. cbn [mbind list_bind List.filter]. rewrite omap_app, IH by (intros; apply H; [by right|done]).
  destruct (pick m) eqn:E; [|done]. by rewrite H by (by left || done).
Qed.

Lemma eqb_last x l : last_char l <> last_char x -> String.eqb x l = false.
Proof. intros H. apply String.eqb_neq. congruence. Qed.

Lemma bind_if_neg (f : method -> list string) ms :
  (ms ≫= fun m => if mStreamingServer m then [] else f m) = (ms ≫= fun m => if negb (mStreamingServer m) then f m else []).
Proof. unfold mbind. induction ms as [|m ms IH]; simpl; [done|]. f_equal; [by destruct (mStreamingServer m)|exact IH]. Qed.

Lemma no_methods_marker opts svc :
  Forall (fun l => String.eqb methods_marker l = false) (server_lines opts svc).
Proof.
  apply P_server_lines; try done. intros m. apply eqb_last. destruct (serverSignature_last m) as [-> | ->]; done.
Qed.

Lemma clean_app a b : clean (a +:+ b) = clean a && clean b.
Proof.
  unfold clean. induction a as [|c a IH]; [done|]. rewrite string_app_cons. cbn [String.list_ascii_of_string forallb]. rewrite IH.
  by rewrite andb_assoc.
Qed.

Lemma string_app_nil_r s : s +:+ "" = s.
Proof. induction s as [|c s IH]; [done|]. rewrite string_app_cons. by rewrite IH. Qed.

Lemma find_second (f : string -> bool) a b l : f a = false -> f b = true -> List.find f ([a; b] ++ l) = Some b.
Proof. intros Ha Hb. simpl. by rewrite Ha, Hb. Qed.

(** The descriptor reads back: the service's name, its unary methods and its
    streaming ones, in the order of the file. *)
Lemma read_desc_genService opts svc :
  clean_service opts svc = true ->
  read_desc (genService opts svc) =
    {| ServiceName := sFullName svc; Methods := unary_names svc; Streams := stream_names svc |}.
Proof.
  unfold clean_service. rewrite !andb_true_iff, forallb_forall. intros [[Hf Hc] Hm].
  unfold read_desc.
  assert (List.find (String.prefix "const ") (genService opts svc) = Some ("const " +:+ nameConst opts svc +:+ " = " +:+ Quote (full svc)))
    as -> by (unfold genService, server_lines; rewrite <-!app_assoc; apply find_second; [reflexivity|apply (HasPrefix_app "const ")]).
  set (unaries := sMethods svc ≫= fun m => if mStreamingServer m then [] else unary_entry opts svc m).
  set (streams := sMethods svc ≫= fun m => if mStreamingServer m then stream_entry opts svc m else []).
  assert (exists head reg rest, genService opts svc =
    (server_lines opts svc ++ head) ++ methods_marker :: (unaries ++ ["},"]) ++ streams_marker :: (streams ++ ["},"; "}"; ""]) ++ reg :: rest /\
    Forall (fun l => String.eqb methods_marker l = false) head /\ String.prefix "// Register" reg = true) as (head & reg & rest & -> & Hh & Hr).
  { eexists [_; _; _; _], _, _. split; [|split].
    - unfold genService, desc_lines, register_lines. fold unaries streams. rewrite <-!app_assoc. reflexivity.
    - fixed_lines.
    - apply (HasPrefix_app "// Register"). }
  rewrite (cut_app _ _ methods_marker); [|apply Forall_app; split; [apply no_methods_marker|exact Hh]|done].
  rewrite (cut_app _ _ streams_marker);
    [|apply Forall_app; split; [|by fixed_lines]; apply Forall_bind_lines; intros m; destruct (mStreamingServer m); by fixed_lines|done].
  rewrite (cut_app _ _ reg);
    [|apply Forall_app; split; [|by fixed_lines]; apply Forall_bind_lines; intros m; destruct (mStreamingServer m); by fixed_lines|done].
  f_equal.
  - rewrite <-(string_app_assoc (nameConst opts svc)), <-(string_app_assoc "const ").
    rewrite <-(string_app_nil_r (Quote (full svc))). apply literal_Quote; [|done]. rewrite !clean_app. by rewrite Hc.
  - rewrite omap_app. subst unaries. rewrite bind_if_neg, table_names; [by rewrite app_nil_r|].
    intros m Hin _. apply unary_entry_names, Hm. by apply list_elem_of_In.
  - rewrite omap_app. subst streams. rewrite table_names; [by rewrite app_nil_r|].
    intros m Hin _. apply stream_entry_names, Hm. by apply list_elem_of_In.
Qed.

(** *** Refusals *)

Lemma clash_none seen ms :
  clash seen ms = None <-> NoDup (mGoName <$> ms) /\ forall m, m ∈ ms -> seen !! mGoName m = None.
Proof.
  revert seen. induction ms as [|m ms IH]; intros seen; cbn [clash fmap list_fmap].
  - split; [|done]. intros _. split; [constructor|]. by intros m ?%elem_of_nil.
  - destruct (seen !! mGoName m) as [prev|] eqn:E.
    + split; [done|]. intros [_ H]. specialize (H m ltac:(by left)). congruence.
    + rewrite IH, NoDup_cons. split.
      * intros [Hn H]. split; [split; [|done]|].
        -- intros (m' & Em & Hin)%list_elem_of_fmap. specialize (H m' Hin). rewrite Em, lookup_insert_eq in H. done.
        -- intros m' [->|Hin]%elem_of_cons; [done|]. specialize (H m' Hin). apply lookup_insert_None in H. by destruct H.
      * intros [[Hni Hn] H]. split; [done|]. intros m' Hin. apply lookup_insert_None. split; [apply H; by right|].
        intros Em. apply Hni. rewrite Em. by apply list_elem_of_fmap_2.
Qed.

(** A service the generator accepts. *)
Definition acceptable (svc : service) : Prop :=
  (forall m, m ∈ sMethods svc -> mStreamingClient m = false) /\ NoDup (mGoName <$> sMethods svc).

Lemma check_service_none path svc : check_service path svc = None <-> acceptable svc.
Proof.
  unfold check_service, checkNameClashes, acceptable. destruct (List.find mStreamingClient (sMethods svc)) as [m|] eqn:E.
  - apply find_some in E as [Hin Hs]. split; [done|]. intros [H _]. specialize (H m). rewrite list_elem_of_In in H. rewrite H in Hs; done.
  - assert (forall m, m ∈ sMethods svc -> mStreamingClient m = false) as Hs.
    { intros m Hin%list_elem_of_In. by eapply find_none in E. }
    rewrite !fmap_None, clash_none. split; [by intros [? _]|]. intros [_ ?]. split; [done|]. intros m _. apply lookup_empty.
Qed.

Lemma check_services_none path ss : check_services path ss = None <-> Forall acceptable ss.
Proof.
  induction ss as [|svc ss IH]; simpl; [by split|]. rewrite Forall_cons, <-IH, <-(check_service_none path).
  destruct (check_service path svc); naive_solver.
Qed.

#[export] Instance acceptable_dec svc : Decision (acceptable svc).
Proof.
  unfold acceptable. apply and_dec; [|apply _].
  refine (cast_if (decide (Forall (fun m => mStreamingClient m = false) (sMethods svc)))); by rewrite <-Forall_forall.
Defined.

Lemma not_Forall_acceptable ss : ~ Forall acceptable ss -> exists svc, svc ∈ ss /\ ~ acceptable svc.
Proof. intros H%(not_Forall_Exists _)%Exists_exists. exact H. Qed.

Lemma generated opts f out :
  GenerateFileWith opts f = inl (Some out) ->
  Forall acceptable (fServices f) /\ fServices f <> [] /\ exists head, out = header_lines f ++ import_lines f ++ head ++ (fServices f ≫= genService opts) /\
    Forall (fun l => String.prefix (String quote_mark "") l = false) head.
Proof.
  unfold GenerateFileWith. destruct (fServices f) as [|svc ss] eqn:E; [done|]. destruct (check_services _ _) eqn:Hc; [done|].
  apply check_services_none in Hc. intros [= <-]. split; [done|]. split; [done|]. eexists [_; _; _; _]. split; [reflexivity|]. fixed_lines.
Qed.

(** *** The descriptor registers *)

(** The contract [protoc] compiles the service to. *)
Definition contract_of (svc : service) : contract := {|
  fullName := sFullName svc;
  methods := (fun m => {| mname := mDescName m; streamingServer := mStreamingServer m; streamingClient := mStreamingClient m |})
             <$> sMethods svc |}.

Lemma NoDup_names (ms : list method) m m' :
  NoDup (mDescName <$> ms) -> m ∈ ms -> m' ∈ ms -> mDescName m = mDescName m' -> m = m'.
Proof.
  intros Hn (i & Hi)%list_elem_of_lookup (j & Hj)%list_elem_of_lookup E.
  assert (i = j) as ->; [|congruence]. eapply (NoDup_lookup _ i j); [exact Hn|by rewrite list_lookup_fmap, Hi|].
  by rewrite list_lookup_fmap, Hj, E.
Qed.

Lemma ByName_contract svc m :
  NoDup (mDescName <$> sMethods svc) -> m ∈ sMethods svc ->
  ByName (contract_of svc) (mDescName m) =
    Some {| mname := mDescName m; streamingServer := mStreamingServer m; streamingClient := mStreamingClient m |}.
Proof.
  unfold ByName, contract_of. simpl. induction (sMethods svc) as [|x ms IH]; cbn [fmap list_fmap]; [by intros _ ?%elem_of_nil|].
  intros [Hni Hn]%NoDup_cons [->|Hin]%elem_of_cons; simpl; [by rewrite bool_decide_true|].
  rewrite bool_decide_false; [by apply IH|]. intros E. apply Hni. rewrite E. by apply list_elem_of_fmap_2.
Qed.

Lemma check_all_none (check : string -> option err) ns : (forall n, n ∈ ns -> check n = None) -> check_all check ns = None.
Proof. induction ns as [|n ns IH]; intros H; simpl; [done|]. rewrite H by (by left). apply IH. intros m Hm. apply H. by right. Qed.

Lemma names_of (pick : method -> bool) svc n :
  n ∈ (mDescName <$> List.filter pick (sMethods svc)) -> exists m, n = mDescName m /\ m ∈ sMethods svc /\ pick m = true.
Proof. intros (m & -> & Hm)%list_elem_of_fmap. apply list_elem_of_In, filter_In in Hm as [? ?]. exists m. by rewrite list_elem_of_In. Qed.

Lemma desc_registers svc find o expose :
  acceptable svc -> NoDup (mDescName <$> sMethods svc) -> validate o = None -> find (sFullName svc) = FoundService (contract_of svc) ->
  Register find o None {| ServiceName := sFullName svc; Methods := unary_names svc; Streams := stream_names svc |} expose =
    inl {| scontract := contract_of svc; name := Names.runtimeName (sFullName svc) (instance o); Service.opts := o;
           unary := unary_names svc; streams := stream_names svc; ExposeInternalErrors := expose |}.
Proof.
  intros [Hs _] Hn Hv Hf. unfold Register. simpl. rewrite Hv, Hf.
  rewrite check_all_none.
  2: { intros n (m & -> & Hin & Hp)%names_of. unfold check_unary. rewrite ByName_contract by done. simpl.
       rewrite (Hs m Hin). by destruct (mStreamingServer m). }
  rewrite check_all_none; [done|].
  intros n (m & -> & Hin & Hp)%names_of. unfold check_stream. rewrite ByName_contract by done. simpl. by rewrite (Hs m Hin), Hp.
Qed.

(** *** The interfaces *)

Lemma in_server_lines opts svc m : m ∈ sMethods svc ->
  serverSignature m ∈ server_lines opts svc /\ ("func (" +:+ unimpl opts svc +:+ ") " +:+ serverSignature m +:+ " {") ∈ server_lines opts svc.
Proof.
  intros Hm. unfold server_lines. rewrite !elem_of_app. split.
  - do 5 right. left. apply list_elem_of_bind. exists m. split; [|done]. rewrite !elem_of_app. right; right. by left.
  - do 7 right. apply list_elem_of_bind. exists m. split; [by left|done].
Qed.

Lemma in_client_lines opts svc m : m ∈ sMethods svc ->
  clientSignature m ∈ client_lines opts svc /\ ("func (c *" +:+ impl opts svc +:+ ") " +:+ clientSignature m +:+ " {") ∈ client_lines opts svc.
Proof.
  intros Hm. unfold client_lines. rewrite !elem_of_app. split.
  - do 3 right. left. apply list_elem_of_bind. exists m. split; [|done]. rewrite !elem_of_app. right; right. by left.
  - do 7 right. apply list_elem_of_bind. exists m. split; [by left|done].
Qed.

(** *** Imports *)

(** No line but an import is a lone string literal. *)
Definition not_literal (l : string) : Prop :=
  String.prefix (String quote_mark "") l = false \/ last_char l <> Some quote_mark.

Definition mentions (what l : string) : Prop := exists a b, l = a +:+ what +:+ b.

Lemma desc_not_literal opts svc : Forall not_literal (desc_lines opts svc).
Proof.
  unfold desc_lines. fixed_lines; try (left; reflexivity); apply Forall_bind_lines; intros m; destruct (mStreamingServer m);
    fixed_lines; left; reflexivity.
Qed.

Lemma service_not_literal opts svc : Forall not_literal (genService opts svc).
Proof.
  assert (forall m, not_literal (serverSignature m)) as Hs.
  { intros m. right. destruct (serverSignature_last m) as [-> | ->]; done. }
  assert (forall m, not_literal (clientSignature m)) as Hc.
  { intros m. right. destruct (clientSignature_last m) as [-> | ->]; done. }
  unfold genService. rewrite !Forall_app. split_and!;
    [apply P_server_lines|apply desc_not_literal|apply P_register_lines|apply P_client_lines]; auto; try (intros; left; reflexivity); left; reflexivity.
Qed.

Lemma services_not_literal opts ss : Forall not_literal (ss ≫= genService opts).
Proof. induction ss as [|svc ss IH]; [constructor|]. rewrite bind_cons. apply Forall_app. split; [apply service_not_literal|done]. Qed.

Lemma Quote_prefix s : String.prefix (String quote_mark "") (Quote s) = true.
Proof. exact (HasPrefix_app (String quote_mark "") _). Qed.

Definition imported (path : string) (f : file) : Prop := Quote path ∈ import_lines f.

Lemma literal_imported opts f out path :
  GenerateFileWith opts f = inl (Some out) -> last_char (Quote path) = Some quote_mark ->
  Quote path ∈ out <-> imported path f.
Proof.
  intros (_ & _ & head & -> & Hh)%generated Hl. unfold imported. rewrite !elem_of_app. split; [|by auto].
  assert (forall ls, Forall not_literal ls -> ~ Quote path ∈ ls) as Hno.
  { intros ls Hls Hin. rewrite Forall_forall in Hls.
    destruct (Hls _ Hin) as [H|H]; [exact (eq_true_false_abs _ (Quote_prefix path) H)|by apply H]. }
  intros [H|[H|[H|H]]]; [|done|..]; exfalso; revert H; apply Hno.
  - unfold header_lines. fixed_lines; left; reflexivity.
  - eapply Forall_impl; [exact Hh|]. by left.
  - apply services_not_literal.
Qed.

Lemma imports_iter f : imported "iter" f <-> has_streaming f = true.
Proof.
  unfold imported, import_lines. destruct (has_streaming f); (split; [|try done]).
  - done.
  - intros _. apply elem_of_app. right. by left.
  - destruct (has_unary f); intros H; exfalso; revert H; apply not_elem_of_app; simpl;
      (split; [|]); repeat (apply not_elem_of_cons; split; [discriminate|]); apply not_elem_of_nil.
Qed.

Lemma imports_proto f : imported "google.golang.org/protobuf/proto" f <-> has_unary f = true.
Proof.
  unfold imported, import_lines. destruct (has_unary f); (split; [|try done]).
  - done.
  - intros _. rewrite !elem_of_app. right. right. right. left. by left.
  - destruct (has_streaming f); intros H; exfalso; revert H; simpl; repeat (apply not_elem_of_cons; split; [discriminate|]); apply not_elem_of_nil.
Qed.

Lemma has_method (pick : method -> bool) ss :
  existsb (fun s => existsb pick (sMethods s)) ss = true -> exists svc m, svc ∈ ss /\ m ∈ sMethods svc /\ pick m = true.
Proof.
  intros (svc & Hs & (m & Hm & Hp)%existsb_exists)%existsb_exists. exists svc, m. by rewrite !list_elem_of_In.
Qed.

(** Every table entry names [proto.Message], of either kind. *)
Lemma entry_mentions_proto opts svc m :
  m ∈ sMethods svc -> exists l, l ∈ genService opts svc /\ mentions "proto.Message" l.
Proof.
  intros Hm. unfold genService, desc_lines. destruct (mStreamingServer m) eqn:E.
  - eexists. split.
    + rewrite !elem_of_app. right. left. right. right. right. left. apply list_elem_of_bind. exists m. rewrite E. split; [|done].
      do 11 right. left.
    + by eexists "return interceptor(ctx, in, stream, info, func(ctx context.Context, req ", _.
  - eexists. split.
    + rewrite !elem_of_app. right. left. right. left. apply list_elem_of_bind. exists m. rewrite E. split; [|done].
      do 11 right. left.
    + by eexists "return interceptor(ctx, in, info, func(ctx context.Context, req ", _.
Qed.

Lemma stream_mentions_iter opts svc m :
  m ∈ sMethods svc -> mStreamingServer m = true -> exists l, l ∈ genService opts svc /\ mentions "iter.Seq2" l.
Proof.
  intros Hm E. exists (clientSignature m). split.
  - unfold genService. rewrite !elem_of_app. do 3 right. by apply in_client_lines.
  - unfold clientSignature. rewrite E.
    eexists (mGoName m +:+ "(ctx context.Context, in *" +:+ QualifiedGoIdent (mInput m) +:+ ", opts ...protobus.StreamOption) "), _.
    rewrite !string_app_assoc. reflexivity.
Qed.

Lemma in_output opts f out svc l :
  GenerateFileWith opts f = inl (Some out) -> svc ∈ fServices f -> l ∈ genService opts svc -> l ∈ out.
Proof.
  intros (_ & _ & head & -> & _)%generated Hs Hl. rewrite !elem_of_app. do 3 right. apply list_elem_of_bind. by exists svc.
Qed.

(** What is printed for a service fits together, and the bus takes it. *)
Lemma registers_generated (opts : Options) (f : file) (out : list string) (svc : service)
    (find : string -> found) (o : serviceOptions) (expose : bool) :
  GenerateFileWith opts f = inl (Some out) -> svc ∈ fServices f -> clean_service opts svc = true ->
  NoDup (mDescName <$> sMethods svc) -> validate o = None -> find (sFullName svc) = FoundService (contract_of svc) ->
  (exists before after, out = before ++ genService opts svc ++ after) /\
  (exists s, Register find o None (read_desc (genService opts svc)) expose = inl s /\ scontract s = contract_of svc /\
     forall m, m ∈ sMethods svc ->
       (mDescName m ∈ streams s <-> mStreamingServer m = true) /\ (mDescName m ∈ unary s <-> mStreamingServer m = false)) /\
  forall m, m ∈ sMethods svc ->
    serverSignature m ∈ genService opts svc /\
    ("func (" +:+ unimpl opts svc +:+ ") " +:+ serverSignature m +:+ " {") ∈ genService opts svc /\
    clientSignature m ∈ genService opts svc /\
    ("func (c *" +:+ impl opts svc +:+ ") " +:+ clientSignature m +:+ " {") ∈ genService opts svc.
Proof.
  intros (Ha & _ & head & -> & _)%generated Hin Hc Hn Hv Hf. split_and!.
  - apply list_elem_of_split in Hin as (l1 & l2 & ->). rewrite bind_app, bind_cons.
    exists (header_lines f ++ import_lines f ++ head ++ (l1 ≫= genService opts)), (l2 ≫= genService opts).
    rewrite <-!app_assoc. reflexivity.
  - rewrite read_desc_genService by done. eexists. split; [by apply desc_registers; [rewrite Forall_forall in Ha; auto|..]|].
    split; [done|]. intros m Hm. simpl. unfold stream_names, unary_names.
    assert (forall pick, mDescName m ∈ (mDescName <$> List.filter pick (sMethods svc)) <-> pick m = true) as Hp.
    { intros pick. split.
      - intros (m' & E & Hin' & Hp)%names_of. by rewrite (NoDup_names _ m m' Hn Hm Hin' E).
      - intros Hp. apply list_elem_of_fmap_2, list_elem_of_In, filter_In. split; [by apply list_elem_of_In|done]. }
    rewrite !Hp. by rewrite negb_true_iff.
  - intros m Hm. unfold genService. rewrite !elem_of_app.
    destruct (in_server_lines opts svc m Hm), (in_client_lines opts svc m Hm). split_and!; auto.
Qed.

(** When the generator refuses, when it prints, and what it imports. *)
Lemma generator_verdict (opts : Options) (f : file) :
  (GenerateFileWith opts f = inl None <-> fServices f = []) /\
  ((exists e, GenerateFileWith opts f = inr e) <-> exists svc, svc ∈ fServices f /\ ~ acceptable svc) /\
  forall out, GenerateFileWith opts f = inl (Some out) ->
    (Quote "iter" ∈ out <-> has_streaming f = true) /\
    (Quote "google.golang.org/protobuf/proto" ∈ out <-> has_unary f = true) /\
    (has_streaming f = true -> exists l, l ∈ out /\ mentions "iter.Seq2" l) /\
    (has_streaming f = true \/ has_unary f = true -> exists l, l ∈ out /\ mentions "proto.Message" l) /\
    (has_streaming f = true -> has_unary f = false ->
     Quote "google.golang.org/protobuf/proto" ∉ out /\ exists l, l ∈ out /\ mentions "proto.Message" l).
Proof.
  split_and!; [unfold GenerateFileWith; destruct (fServices f); [done|destruct (check_services _ _); done] | |].
  - pose proof (check_services_none (fPath f) (fServices f)) as Hc. unfold GenerateFileWith.
    destruct (fServices f) as [|s ss] eqn:Ef; [split; [by intros [? ?]|by intros (? & ?%elem_of_nil & _)]|].
    destruct (check_services _ _) as [e|] eqn:E.
    + split; [|by eexists]. intros _. apply not_Forall_acceptable. intros Hall. by apply Hc in Hall.
    + split; [by intros [? ?]|]. intros (svc & Hin & Hna). destruct Hna. destruct Hc as [Hc _]. specialize (Hc eq_refl).
      rewrite Forall_forall in Hc. auto.
  - intros out Hout.
    assert (has_streaming f = true -> exists l, l ∈ out /\ mentions "proto.Message" l) as Hsp.
    { intros (svc & m & Hs & Hm & _)%has_method. destruct (entry_mentions_proto opts svc m Hm) as (l & Hl & ?).
      exists l. split; [by eapply in_output|done]. }
    rewrite (literal_imported _ _ _ "iter" Hout), imports_iter by done.
    rewrite (literal_imported _ _ _ "google.golang.org/protobuf/proto" Hout), imports_proto by done.
    split_and!; try done.
    + intros (svc & m & Hs & Hm & E)%has_method. destruct (stream_mentions_iter opts svc m Hm E) as (l & Hl & ?).
      exists l. split; [by eapply in_output|done].
    + intros [H|H]; [by apply Hsp|]. apply has_method in H as (svc & m & Hs & Hm & _).
      destruct (entry_mentions_proto opts svc m Hm) as (l & Hl & ?). exists l. split; [by eapply in_output|done].
    + intros H Hu. split; [congruence|by apply Hsp].
Qed.

(** C35: the generated bindings. The generator prints nothing exactly for a file
    without services, and refuses a file exactly when some service has a
    client-streaming method or two methods with one Go name. What it prints imports
    [iter] exactly when some method streams; it imports [proto] exactly when some
    method is unary, although the table entry of every method, streaming ones too,
    names [proto.Message]: the file of a streaming-only service uses a package that
    it does not import. For every service of the file, the printed descriptor
    declares its name, its unary methods and its streaming ones, each in the table
    of its kind, and registering it succeeds against the contract the file compiles
    to; and the server interface, the unimplemented server, the client interface and
    the client have the method, with the same signature. *)
Theorem generated_bindings (opts : Options) (f : file) :
  (GenerateFileWith opts f = inl None <-> fServices f = []) /\
  ((exists e, GenerateFileWith opts f = inr e) <-> exists svc, svc ∈ fServices f /\ ~ acceptable svc) /\
  forall out, GenerateFileWith opts f = inl (Some out) ->
    (Quote "iter" ∈ out <-> has_streaming f = true) /\
    (Quote "google.golang.org/protobuf/proto" ∈ out <-> has_unary f = true) /\
    (has_streaming f = true -> has_unary f = false ->
     Quote "google.golang.org/protobuf/proto" ∉ out /\ exists l, l ∈ out /\ mentions "proto.Message" l) /\
    forall svc find o expose,
      svc ∈ fServices f -> clean_service opts svc = true -> NoDup (mDescName <$> sMethods svc) -> validate o = None ->
      find (sFullName svc) = FoundService (contract_of svc) ->
      (exists before after, out = before ++ genService opts svc ++ after) /\
      (exists s, Register find o None (read_desc (genService opts svc)) expose = inl s /\ scontract s = contract_of svc /\
         forall m, m ∈ sMethods svc ->
           (mDescName m ∈ streams s <-> mStreamingServer m = true) /\ (mDescName m ∈ unary s <-> mStreamingServer m = false)) /\
      forall m, m ∈ sMethods svc ->
        serverSignature m ∈ genService opts svc /\
        ("func (" +:+ unimpl opts svc +:+ ") " +:+ serverSignature m +:+ " {") ∈ genService opts svc /\
        clientSignature m ∈ genService opts svc /\
        ("func (c *" +:+ impl opts svc +:+ ") " +:+ clientSignature m +:+ " {") ∈ genService opts svc.
Proof.
  destruct (generator_verdict opts f) as (H1 & H2 & H3). split; [done|]. split; [done|]. intros out Hout.
  destruct (H3 out Hout) as (Hi & Hp & _ & _ & Hs). split; [done|]. split; [done|]. split; [done|].
  intros svc find o expose Hin Hc Hn Hv Hf. by eapply registers_generated.
Qed.

End Gen.

(** A service with a unary and a streaming method. *)
Module Sample.

Definition get : method (Ident := string) := {|
  mDescName := "get_item"; mFullName := "shop.Items.get_item"; mGoName := "GetItem"; mInput := "Key"; mOutput := "Item";
  mStreamingClient := false; mStreamingServer := false; mLeading := " Reads one item. "; mDeprecated := false |}.

Definition watch : method (Ident := string) := {|
  mDescName := "watch"; mFullName := "shop.Items.watch"; mGoName := "Watch"; mInput := "Key"; mOutput := "Item";
  mStreamingClient := false; mStreamingServer := true; mLeading := ""; mDeprecated := true |}.

Definition items : service (Ident := string) := {|
  sFullName := "shop.Items"; sGoName := "Items"; sLeading := ""; sDeprecated := false; sMethods := [get; watch] |}.

Definition shop : file (Ident := string) := {| fPath := "shop.proto"; fGoPackageName := "shop"; fServices := [items] |}.

Definition lines : list string := match GenerateFileWith id {| Infix := "Bus" |} shop with inl (Some out) => out | _ => [] end.

End Sample.

Lemma generated_bindings_witness :
  exists s, Register (fun _ => FoundService (contract_of Sample.items)) calc_options None
      (read_desc (genService id {| Infix := "Bus" |} Sample.items)) true = inl s /\
    streams s = ["watch"] /\ unary s = ["get_item"].
Proof.
  destruct (generated_bindings id {| Infix := "Bus" |} Sample.shop) as (_ & _ & H).
  destruct (H Sample.lines) as (_ & _ & _ & H'); [vm_compute; reflexivity|].
  destruct (H' Sample.items (fun _ => FoundService (contract_of Sample.items)) calc_options true) as (_ & (s & Hs & _) & _).
  - by left.
  - vm_compute. reflexivity.
  - apply (bool_decide_unpack _). vm_compute. exact I.
  - vm_compute. reflexivity.
  - reflexivity.
  - exists s. split; [exact Hs|]. vm_compute in Hs. injection Hs as <-. done.
Defined.
