(* ===== verification/Options.v ===== *)
(** * Options: functional options and interceptors (options.go, desc.go,
    service.go, bus.go)

    Every option is a bag of functions, at most one per thing it can configure,
    and a wrapper type that says which of them it has; an option interface is the
    sum of the wrapper types that satisfy it. Calling a function the bag does not
    have is a nil dereference, [None] here. [Interceptors] is the chain that a
    service builds of its interceptors. *)
From S2P Require Import Prelude GoStrings Config Headers Errors Names Service Dispatcher.

Local Open Scope Z_scope.

(** ** Interceptors *)

Module Interceptors.
Section Chain.

(** A handler takes a context and its arguments (the request, and for a
    streaming method the stream it sends on); an interceptor also takes the
    description of the call and the handler to continue with. What they answer,
    and do, is an [R]. *)
Context {Ctx Args Info R : Type}.

Definition Handler : Type := Ctx -> Args -> R.
Definition Interceptor : Type := Ctx -> Args -> Info -> Handler -> R.

(** The loop of [chainUnary] and [chainStream], from index [i] down to 1. *)
Fixpoint chain_loop (ics : list Interceptor) (info : Info) (i : nat) (next : Handler) : Handler :=
  match i with
  | O => next
  | S i' =>
      match ics !! i with
      | Some ic => chain_loop ics info i' (fun ctx req => ic ctx req info next)
      | None => next
      end
  end.

(** [chainUnary], [chainStream] *)
Definition chain (ics : list Interceptor) : option Interceptor :=
  match ics with
  | [] => None
  | [ic] => Some ic
  | ic :: _ => Some (fun ctx req info handler => ic ctx req info (chain_loop ics info (length ics - 1) handler))
  end.

(** The tail of every method handler, once the request is decoded. *)
Definition through (ic : option Interceptor) (info : Info) (h : Handler) : Handler := fun ctx req =>
  match ic with None => h ctx req | Some ic => ic ctx req info h end.

(** The reference: each interceptor around all that follow it. *)
Definition nest (ics : list Interceptor) (info : Info) (h : Handler) : Handler :=
  foldr (fun ic next ctx req => ic ctx req info next) h ics.

Lemma nest_app a b info h : nest (a ++ b) info h = nest a info (nest b info h).
Proof. apply foldr_app. Qed.

Lemma chain_loop_nest ic ics info i next :
  (i <= length ics)%nat -> chain_loop (ic :: ics) info i next = nest (take i ics) info next.
Proof.
  revert next. induction i as [|i IH]; intros next Hi; [by rewrite take_0|]. simpl chain_loop.
  destruct (ics !! i) as [x|] eqn:E; [|apply lookup_ge_None in E; lia].
  rewrite IH by lia. rewrite (take_S_r _ _ _ E), nest_app. done.
Qed.

Lemma chain_nest ics info h ctx req : through (chain ics) info h ctx req = nest ics info h ctx req.
Proof.
  destruct ics as [|ic [|ic' ics]]; [done|done|]. unfold through, chain. simpl length. rewrite Nat.sub_succ, Nat.sub_0_r.
  rewrite (chain_loop_nest ic (ic' :: ics)) by done. by rewrite take_ge by (simpl; lia).
Qed.

End Chain.
Arguments Handler : clear implicits.
Arguments Interceptor : clear implicits.

(** Interceptors that write down when they are entered and left. *)
Definition tracing (name : nat) : Interceptor unit unit unit (list (bool * nat)) :=
  fun ctx req _ next => (true, name) :: next ctx req ++ [(false, name)].

Lemma tracing_trace ns h :
  nest (tracing <$> ns) tt h tt tt = ((true,.) <$> ns) ++ h tt tt ++ ((false,.) <$> reverse ns).
Proof.
  induction ns as [|n ns IH]; [simpl; by rewrite app_nil_r|].
  transitivity ((true, n) :: nest (tracing <$> ns) tt h tt tt ++ [(false, n)]); [done|].
  rewrite IH, reverse_cons, fmap_app. simpl. by rewrite <-!app_assoc.
Qed.

End Interceptors.
Import Interceptors.

(** ** The options *)

Section Options.
Context {UnaryInterceptor StreamInterceptor Logger Observer Files Types Dialer : Type}.

Record dialOptions := {
  ocfg : option Config; olog : option Logger; oobserve : option Observer; oconnName : string;
  ofiles : option Files; otypes : option Types; odialer : option Dialer; orequeue : Z
}.

Record streamOptions := { sactor : string; idleTimeout : Z }.
Record clientOptions := { cinstance : string }.
Record listenerOptions := { lconcurrency : Z; lretry : EventRetryPolicy }.
Record publishOptions := { ptopic : string; pmessageID : option string }.
Record subscribeOptions := { stopic : string }.

(** [serviceOptions] with its interceptors. *)
Record serviceConfig := {
  sbase : serviceOptions; unaryInterceptors : list UnaryInterceptor; streamInterceptors : list StreamInterceptor
}.

(** [option]: a function per kind of thing, or nil. *)
Record option_ := {
  fdial : option (dialOptions -> dialOptions);
  fcall : option (callOptions -> callOptions);
  fstream : option (streamOptions -> streamOptions);
  fclient : option (clientOptions -> clientOptions);
  fservice : option (serviceConfig -> serviceConfig);
  flistener : option (listenerOptions -> listenerOptions);
  fpublish : option (publishOptions -> publishOptions);
  fsubscribe : option (subscribeOptions -> subscribeOptions)
}.

(** The wrapper types. *)
Inductive dialOption := mkDial (o : option_).
Inductive callOption := mkCall (o : option_).
Inductive streamOption := mkStream (o : option_).
Inductive serviceOption := mkService (o : option_).
Inductive callStreamOption := mkCallStream (o : option_).
Inductive instanceOption := mkInstance (o : option_).
Inductive messageIDOption := mkMessageID (o : option_).
Inductive topicOption := mkTopic (o : option_).
Inductive eventOption := mkEvent (o : option_).

(** The interfaces: each the types that have its method. *)
Inductive DialOption := DialOfDial (x : dialOption).
Inductive CallOption := CallOfCall (x : callOption) | CallOfCallStream (x : callStreamOption) | CallOfMessageID (x : messageIDOption).
Inductive StreamOption := StreamOfStream (x : streamOption) | StreamOfCallStream (x : callStreamOption).
Inductive ClientOption := ClientOfInstance (x : instanceOption).
Inductive ServiceOption := ServiceOfService (x : serviceOption) | ServiceOfInstance (x : instanceOption) | ServiceOfEvent (x : eventOption).
Inductive ListenerOption := ListenerOfEvent (x : eventOption).
Inductive PublishOption := PublishOfMessageID (x : messageIDOption) | PublishOfTopic (x : topicOption).
Inductive SubscribeOption := SubscribeOfTopic (x : topicOption).

(** Calling a function that may be nil. *)
Definition run {A} (f : option (A -> A)) (a : A) : option A := (fun f => f a) <$> f.

Definition applyDial (x : DialOption) : dialOptions -> option dialOptions :=
  match x with DialOfDial (mkDial o) => run (fdial o) end.
Definition applyCall (x : CallOption) : callOptions -> option callOptions :=
  match x with CallOfCall (mkCall o) | CallOfCallStream (mkCallStream o) | CallOfMessageID (mkMessageID o) => run (fcall o) end.
Definition applyStream (x : StreamOption) : streamOptions -> option streamOptions :=
  match x with StreamOfStream (mkStream o) | StreamOfCallStream (mkCallStream o) => run (fstream o) end.
Definition applyClient (x : ClientOption) : clientOptions -> option clientOptions :=
  match x with ClientOfInstance (mkInstance o) => run (fclient o) end.
Definition applyService (x : ServiceOption) : serviceConfig -> option serviceConfig :=
  match x with ServiceOfService (mkService o) | ServiceOfInstance (mkInstance o) | ServiceOfEvent (mkEvent o) => run (fservice o) end.
Definition applyListener (x : ListenerOption) : listenerOptions -> option listenerOptions :=
  match x with ListenerOfEvent (mkEvent o) => run (flistener o) end.
Definition applyPublish (x : PublishOption) : publishOptions -> option publishOptions :=
  match x with PublishOfMessageID (mkMessageID o) | PublishOfTopic (mkTopic o) => run (fpublish o) end.
Definition applySubscribe (x : SubscribeOption) : subscribeOptions -> option subscribeOptions :=
  match x with SubscribeOfTopic (mkTopic o) => run (fsubscribe o) end.

(** [for _, opt := range opts { opt.apply(&o) }] *)
Fixpoint apply_all {X A} (apply : X -> A -> option A) (xs : list X) (a : A) : option A :=
  match xs with
  | [] => Some a
  | x :: xs' => match apply x a with Some a' => apply_all apply xs' a' | None => None end
  end.

(** ** The constructors *)

(** *** Dial options *)

Definition dial_opt (f : dialOptions -> dialOptions) : dialOption := mkDial {|
  fdial := Some f; fcall := None; fstream := None; fclient := None; fservice := None; flistener := None;
  fpublish := None; fsubscribe := None |}.

Definition WithConfig (c : Config) : dialOption := dial_opt (fun o => {|
  ocfg := Some c; olog := olog o; oobserve := oobserve o; oconnName := oconnName o;
  ofiles := ofiles o; otypes := otypes o; odialer := odialer o; orequeue := orequeue o |}).

Definition WithLogger (l : Logger) : dialOption := dial_opt (fun o => {|
  ocfg := ocfg o; olog := Some l; oobserve := oobserve o; oconnName := oconnName o;
  ofiles := ofiles o; otypes := otypes o; odialer := odialer o; orequeue := orequeue o |}).

Definition WithConnectionObserver (f : Observer) : dialOption := dial_opt (fun o => {|
  ocfg := ocfg o; olog := olog o; oobserve := Some f; oconnName := oconnName o;
  ofiles := ofiles o; otypes := otypes o; odialer := odialer o; orequeue := orequeue o |}).

Definition WithConnectionName (name : string) : dialOption := dial_opt (fun o => {|
  ocfg := ocfg o; olog := olog o; oobserve := oobserve o; oconnName := name;
  ofiles := ofiles o; otypes := otypes o; odialer := odialer o; orequeue := orequeue o |}).

Definition WithRegistry (files : option Files) (types : option Types) : dialOption := dial_opt (fun o => {|
  ocfg := ocfg o; olog := olog o; oobserve := oobserve o; oconnName := oconnName o;
  ofiles := files; otypes := types; odialer := odialer o; orequeue := orequeue o |}).

Definition withDialer (d : Dialer) : dialOption := dial_opt (fun o => {|
  ocfg := ocfg o; olog := olog o; oobserve := oobserve o; oconnName := oconnName o;
  ofiles := ofiles o; otypes := otypes o; odialer := Some d; orequeue := orequeue o |}).

Definition withRequeueDelay (d : Z) : dialOption := dial_opt (fun o => {|
  ocfg := ocfg o; olog := olog o; oobserve := oobserve o; oconnName := oconnName o;
  ofiles := ofiles o; otypes := otypes o; odialer := odialer o; orequeue := d |}).

(** *** Call options *)

Definition call_opt (f : callOptions -> callOptions) : callOption := mkCall {|
  fdial := None; fcall := Some f; fstream := None; fclient := None; fservice := None; flistener := None;
  fpublish := None; fsubscribe := None |}.

Definition WithActor (a : string) : callStreamOption := mkCallStream {|
  fcall := Some (fun o => {| actor := a; priority := priority o; messageID := messageID o; noReply := noReply o; ctimeout := ctimeout o |});
  fstream := Some (fun o => {| sactor := a; idleTimeout := idleTimeout o |});
  fdial := None; fclient := None; fservice := None; flistener := None; fpublish := None; fsubscribe := None |}.

Definition WithPriority (p : Z) : callOption := call_opt (fun o =>
  {| actor := actor o; priority := Some p; messageID := messageID o; noReply := noReply o; ctimeout := ctimeout o |}).

Definition WithMessageID (id : string) : messageIDOption := mkMessageID {|
  fcall := Some (fun o => {| actor := actor o; priority := priority o; messageID := Some id; noReply := noReply o; ctimeout := ctimeout o |});
  fpublish := Some (fun o => {| ptopic := ptopic o; pmessageID := Some id |});
  fdial := None; fstream := None; fclient := None; fservice := None; flistener := None; fsubscribe := None |}.

Definition WithTimeout (d : Z) : callOption := call_opt (fun o =>
  {| actor := actor o; priority := priority o; messageID := messageID o; noReply := noReply o; ctimeout := d |}).

Definition NoReply : callOption := call_opt (fun o =>
  {| actor := actor o; priority := priority o; messageID := messageID o; noReply := true; ctimeout := ctimeout o |}).

Definition WithIdleTimeout (d : Z) : streamOption := mkStream {|
  fstream := Some (fun o => {| sactor := sactor o; idleTimeout := d |});
  fdial := None; fcall := None; fclient := None; fservice := None; flistener := None; fpublish := None; fsubscribe := None |}.

(** *** Instance, topic and event options *)

Definition on_base (f : serviceOptions -> serviceOptions) (o : serviceConfig) : serviceConfig :=
  {| sbase := f (sbase o); unaryInterceptors := unaryInterceptors o; streamInterceptors := streamInterceptors o |}.

Definition set_instance (n : string) (o : serviceOptions) : serviceOptions := {|
  instance := n; maxConcurrent := maxConcurrent o; oretry := oretry o; earlyAck := earlyAck o;
  processingTimeout := processingTimeout o; maxPriority := maxPriority o; eventRetry := eventRetry o;
  eventConcurrency := eventConcurrency o |}.

Definition set_eventConcurrency (n : Z) (o : serviceOptions) : serviceOptions := {|
  instance := instance o; maxConcurrent := maxConcurrent o; oretry := oretry o; earlyAck := earlyAck o;
  processingTimeout := processingTimeout o; maxPriority := maxPriority o; eventRetry := eventRetry o;
  eventConcurrency := n |}.

Definition set_eventRetry (p : EventRetryPolicy) (o : serviceOptions) : serviceOptions := {|
  instance := instance o; maxConcurrent := maxConcurrent o; oretry := oretry o; earlyAck := earlyAck o;
  processingTimeout := processingTimeout o; maxPriority := maxPriority o; eventRetry := p;
  eventConcurrency := eventConcurrency o |}.

Definition WithInstance (n : string) : instanceOption := mkInstance {|
  fservice := Some (on_base (set_instance n)); fclient := Some (fun _ => {| cinstance := n |});
  fdial := None; fcall := None; fstream := None; flistener := None; fpublish := None; fsubscribe := None |}.

Definition WithTopic (t : string) : topicOption := mkTopic {|
  fpublish := Some (fun o => {| ptopic := t; pmessageID := pmessageID o |});
  fsubscribe := Some (fun _ => {| stopic := t |});
  fdial := None; fcall := None; fstream := None; fclient := None; fservice := None; flistener := None |}.

Definition WithEventConcurrency (n : Z) : eventOption := mkEvent {|
  fservice := Some (on_base (set_eventConcurrency n));
  flistener := Some (fun o => {| lconcurrency := n; lretry := lretry o |});
  fdial := None; fcall := None; fstream := None; fclient := None; fpublish := None; fsubscribe := None |}.

Definition WithEventRetry (p : EventRetryPolicy) : eventOption := mkEvent {|
  fservice := Some (on_base (set_eventRetry p));
  flistener := Some (fun o => {| lconcurrency := lconcurrency o; lretry := p |});
  fdial := None; fcall := None; fstream := None; fclient := None; fpublish := None; fsubscribe := None |}.

(** *** Service options *)

Definition serviceOpt (f : serviceConfig -> serviceConfig) : serviceOption := mkService {|
  fservice := Some f; fdial := None; fcall := None; fstream := None; fclient := None; flistener := None;
  fpublish := None; fsubscribe := None |}.

Definition WithMaxConcurrent (n : Z) : serviceOption := serviceOpt (on_base (fun o => {|
  instance := instance o; maxConcurrent := n; oretry := oretry o; earlyAck := earlyAck o;
  processingTimeout := processingTimeout o; maxPriority := maxPriority o; eventRetry := eventRetry o;
  eventConcurrency := eventConcurrency o |})).

Definition WithRetry (p : RetryPolicy) : serviceOption := serviceOpt (on_base (fun o => {|
  instance := instance o; maxConcurrent := maxConcurrent o; oretry := p; earlyAck := earlyAck o;
  processingTimeout := processingTimeout o; maxPriority := maxPriority o; eventRetry := eventRetry o;
  eventConcurrency := eventConcurrency o |})).

Definition WithEarlyAck : serviceOption := serviceOpt (on_base (fun o => {|
  instance := instance o; maxConcurrent := maxConcurrent o; oretry := oretry o; earlyAck := true;
  processingTimeout := processingTimeout o; maxPriority := maxPriority o; eventRetry := eventRetry o;
  eventConcurrency := eventConcurrency o |})).

Definition WithProcessingTimeout (d : Z) : serviceOption := serviceOpt (on_base (fun o => {|
  instance := instance o; maxConcurrent := maxConcurrent o; oretry := oretry o; earlyAck := earlyAck o;
  processingTimeout := d; maxPriority := maxPriority o; eventRetry := eventRetry o;
  eventConcurrency := eventConcurrency o |})).

Definition WithMaxPriority (n : Z) : serviceOption := serviceOpt (on_base (fun o => {|
  instance := instance o; maxConcurrent := maxConcurrent o; oretry := oretry o; earlyAck := earlyAck o;
  processingTimeout := processingTimeout o; maxPriority := Some n; eventRetry := eventRetry o;
  eventConcurrency := eventConcurrency o |})).

Definition WithUnaryInterceptor (ics : list UnaryInterceptor) : serviceOption := serviceOpt (fun o => {|
  sbase := sbase o; unaryInterceptors := unaryInterceptors o ++ ics; streamInterceptors := streamInterceptors o |}).

Definition WithStreamInterceptor (ics : list StreamInterceptor) : serviceOption := serviceOpt (fun o => {|
  sbase := sbase o; unaryInterceptors := unaryInterceptors o; streamInterceptors := streamInterceptors o ++ ics |}).

(** ** Where options are applied *)

(** [Register]'s defaults, and what it makes of its options. *)
Definition register_defaults (defaultPrefetch : Z) : serviceConfig := {|
  sbase := {| instance := ""; maxConcurrent := 1; oretry := DefaultRetryPolicy; earlyAck := false; processingTimeout := 0;
              maxPriority := None; eventRetry := {| EMaxRetries := 0; EDelay := 0 |}; eventConcurrency := defaultPrefetch |};
  unaryInterceptors := []; streamInterceptors := [] |}.

Definition RegisterWith (find : string -> found) (defaultPrefetch : Z) (impl : option err) (desc : ServiceDesc)
    (expose : bool) (opts : list ServiceOption) : option ((Service * serviceConfig) + err) :=
  (fun o => match Service.Register find (sbase o) impl desc expose with
            | inl s => inl (s, o)
            | inr e => inr e
            end) <$> apply_all applyService opts (register_defaults defaultPrefetch).

(** [NewClient] *)
Definition NewClientWith (service : string) (opts : list ClientOption) : option Client :=
  (fun o => Service.NewClient service (cinstance o)) <$> apply_all applyClient opts {| cinstance := "" |}.

Definition no_call : callOptions := {| actor := ""; priority := None; messageID := None; noReply := false; ctimeout := 0 |}.

(** [NewEventListener]: what it hands to [newEventListener]. *)
Definition NewEventListener (defaultPrefetch : Z) (queue : string) (opts : list ListenerOption)
    : option ((string * listenerOptions) + err) :=
  (fun o =>
    let p := lretry o in
    if (lconcurrency o <? 1) || (65535 <? lconcurrency o) then
      inr (EText ("protobus: listener concurrency must be within 1..65535, got " +:+ pretty (lconcurrency o)))
    else if (EMaxRetries p <? 0) || ((0 <? EMaxRetries p) && (EDelay p <=? 0)) then
      inr (EText ("protobus: invalid EventRetryPolicy {MaxRetries:" +:+ pretty (EMaxRetries p) +:+ " Delay:"
                  +:+ duration_string (EDelay p) +:+ "}"))
    else if bool_decide (queue = "") && (0 <? EMaxRetries p) then
      inr (EText "protobus: event retries need a named queue: a private queue disappears with its connection")
    else inl (queue, o))
  <$> apply_all applyListener opts {| lconcurrency := defaultPrefetch; lretry := {| EMaxRetries := 0; EDelay := 0 |} |}.

(** The bus [Dial] makes of its options, before it connects; [env] is the
    environment's configuration, [check] the outcome of [Validate], and the rest
    the defaults. *)
Record busSettings := {
  bcfg : Config; blog : Logger; bfiles : Files; btypes : Types; requeueDelay : Z; bdialer : Dialer;
  sessionName : string; bobserve : option Observer
}.

Section Dial.
Variables (env : Config) (check : Config -> option err) (defaultLogger : Logger) (tagged : Logger -> Logger)
  (globalFiles : Files) (globalTypes : Types) (transportDial : Dialer).

Definition no_dial : dialOptions := {|
  ocfg := None; olog := None; oobserve := None; oconnName := ""; ofiles := None; otypes := None; odialer := None;
  orequeue := 0 |}.

Definition dial_settings (o : dialOptions) : busSettings + err :=
  let cfg := default env (ocfg o) in
  match check cfg with
  | Some e => inr e
  | None => inl {|
      bcfg := cfg; blog := match olog o with Some l => tagged l | None => defaultLogger end;
      bfiles := default globalFiles (ofiles o); btypes := default globalTypes (otypes o);
      requeueDelay := if 0 <? orequeue o then orequeue o else Second;
      bdialer := default transportDial (odialer o);
      sessionName := if decide (oconnName o = "") then "protobus-go" else oconnName o;
      bobserve := oobserve o |}
  end.

End Dial.

(** ** Every use of a constructor *)

Inductive service_use :=
| UseInstance (n : string) | UseMaxConcurrent (n : Z) | UseRetry (p : RetryPolicy) | UseEarlyAck
| UseProcessingTimeout (d : Z) | UseMaxPriority (n : Z) | UseEventConcurrency (n : Z) | UseEventRetry (p : EventRetryPolicy)
| UseUnary (ics : list UnaryInterceptor) | UseStream (ics : list StreamInterceptor).

Definition service_option (u : service_use) : ServiceOption :=
  match u with
  | UseInstance n => ServiceOfInstance (WithInstance n)
  | UseMaxConcurrent n => ServiceOfService (WithMaxConcurrent n)
  | UseRetry p => ServiceOfService (WithRetry p)
  | UseEarlyAck => ServiceOfService WithEarlyAck
  | UseProcessingTimeout d => ServiceOfService (WithProcessingTimeout d)
  | UseMaxPriority n => ServiceOfService (WithMaxPriority n)
  | UseEventConcurrency n => ServiceOfEvent (WithEventConcurrency n)
  | UseEventRetry p => ServiceOfEvent (WithEventRetry p)
  | UseUnary ics => ServiceOfService (WithUnaryInterceptor ics)
  | UseStream ics => ServiceOfService (WithStreamInterceptor ics)
  end.

Inductive call_use := UseActor (a : string) | UsePriority (p : Z) | UseMessageID (id : string) | UseTimeout (d : Z) | UseNoReply.

Definition call_option (u : call_use) : CallOption :=
  match u with
  | UseActor a => CallOfCallStream (WithActor a)
  | UsePriority p => CallOfCall (WithPriority p)
  | UseMessageID id => CallOfMessageID (WithMessageID id)
  | UseTimeout d => CallOfCall (WithTimeout d)
  | UseNoReply => CallOfCall NoReply
  end.

Inductive listener_use := UseConcurrency (n : Z) | UseListenerRetry (p : EventRetryPolicy).

Definition listener_option (u : listener_use) : ListenerOption :=
  match u with
  | UseConcurrency n => ListenerOfEvent (WithEventConcurrency n)
  | UseListenerRetry p => ListenerOfEvent (WithEventRetry p)
  end.

(** The last value the uses set, or the default. *)
Definition last_set {U A} (pick : U -> option A) (us : list U) (d : A) : A := default d (last (omap pick us)).

Lemma last_set_snoc {U A} (pick : U -> option A) us u d : last_set pick (us ++ [u]) d = default (last_set pick us d) (pick u).
Proof.
  unfold last_set. rewrite omap_app. simpl. destruct (pick u) as [a|]; simpl; [by rewrite last_snoc|by rewrite app_nil_r].
Qed.

Lemma apply_all_app {X A} (apply : X -> A -> option A) xs ys a :
  apply_all apply (xs ++ ys) a = match apply_all apply xs a with Some a' => apply_all apply ys a' | None => None end.
Proof. revert a. induction xs as [|x xs IH]; intros a; simpl; [done|]. destruct (apply x a); [apply IH|done]. Qed.

(** Uses that never dereference nil, and act as [f]. *)
Lemma apply_all_total {U X A} (mk : U -> X) (apply : X -> A -> option A) (f : U -> A -> A) us a :
  (forall u a, apply (mk u) a = Some (f u a)) ->
  apply_all apply (mk <$> us) a = Some (fold_left (fun a u => f u a) us a).
Proof. intros H. revert a. induction us as [|u us IH]; intros a; simpl; [done|]. by rewrite H, IH. Qed.

Lemma fold_last {U A B} (f : U -> A -> A) (proj : A -> B) (pick : U -> option B) us a :
  (forall u a, proj (f u a) = default (proj a) (pick u)) ->
  proj (fold_left (fun a u => f u a) us a) = last_set pick us (proj a).
Proof.
  intros H. induction us as [|u us IH] using rev_ind; [done|]. rewrite fold_left_app, last_set_snoc. simpl. by rewrite H, IH.
Qed.

Lemma fold_concat {U A B} (f : U -> A -> A) (proj : A -> list B) (pick : U -> list B) us a :
  (forall u a, proj (f u a) = proj a ++ pick u) -> proj a = [] ->
  proj (fold_left (fun a u => f u a) us a) = us ≫= pick.
Proof.
  intros H Ha. induction us as [|u us IH] using rev_ind; [done|].
  rewrite fold_left_app, bind_app. simpl. rewrite H, IH. by rewrite app_nil_r.
Qed.

Lemma fold_flag {U A} (f : U -> A -> A) (proj : A -> bool) (pick : U -> bool) us a :
  (forall u a, proj (f u a) = proj a || pick u) -> proj a = false ->
  proj (fold_left (fun a u => f u a) us a) = existsb pick us.
Proof.
  intros H Ha. induction us as [|u us IH] using rev_ind; [done|].
  rewrite fold_left_app, existsb_app. simpl. rewrite H, IH. by rewrite orb_false_r.
Qed.

(** What each use does: its option's function. *)
Definition service_effect (u : service_use) (o : serviceConfig) : serviceConfig := default o (applyService (service_option u) o).
Definition call_effect (u : call_use) (o : callOptions) : callOptions := default o (applyCall (call_option u) o).
Definition listener_effect (u : listener_use) (o : listenerOptions) : listenerOptions := default o (applyListener (listener_option u) o).

Lemma service_effect_total u o : applyService (service_option u) o = Some (service_effect u o).
Proof. by destruct u. Qed.
Lemma call_effect_total u o : applyCall (call_option u) o = Some (call_effect u o).
Proof. by destruct u. Qed.
Lemma listener_effect_total u o : applyListener (listener_option u) o = Some (listener_effect u o).
Proof. by destruct u. Qed.

Definition instance_of (u : service_use) : option string := match u with UseInstance n => Some n | _ => None end.

Lemma client_instance ns a : apply_all applyClient ((fun n => ClientOfInstance (WithInstance n)) <$> ns) a = Some {| cinstance := last_set Some ns (cinstance a) |}.
Proof.
  rewrite (apply_all_total _ _ (fun n _ => {| cinstance := n |})) by done. f_equal.
  destruct (fold_left _ _ _) as [c] eqn:E. f_equal. change c with (cinstance {| cinstance := c |}). rewrite <-E.
  by apply fold_last.
Qed.

Definition service_result (us : list service_use) (prefetch : Z) : serviceConfig :=
  fold_left (fun o u => service_effect u o) us (register_defaults prefetch).

Lemma service_result_base us prefetch :
  sbase (service_result us prefetch) = {|
    instance := last_set instance_of us "";
    maxConcurrent := last_set (fun u => match u with UseMaxConcurrent n => Some n | _ => None end) us 1;
    oretry := last_set (fun u => match u with UseRetry p => Some p | _ => None end) us DefaultRetryPolicy;
    earlyAck := existsb (fun u => match u with UseEarlyAck => true | _ => false end) us;
    processingTimeout := last_set (fun u => match u with UseProcessingTimeout d => Some d | _ => None end) us 0;
    maxPriority := last_set (fun u => match u with UseMaxPriority n => Some (Some n) | _ => None end) us None;
    eventRetry := last_set (fun u => match u with UseEventRetry p => Some p | _ => None end) us {| EMaxRetries := 0; EDelay := 0 |};
    eventConcurrency := last_set (fun u => match u with UseEventConcurrency n => Some n | _ => None end) us prefetch |}.
Proof.
  set (o := service_result us prefetch).
  transitivity {| instance := instance (sbase o); maxConcurrent := maxConcurrent (sbase o); oretry := oretry (sbase o);
    earlyAck := earlyAck (sbase o); processingTimeout := processingTimeout (sbase o); maxPriority := maxPriority (sbase o);
    eventRetry := eventRetry (sbase o); eventConcurrency := eventConcurrency (sbase o) |}; [by destruct (sbase o)|].
  f_equal.
  - apply (fold_last _ (fun o => instance (sbase o))). by intros [].
  - apply (fold_last _ (fun o => maxConcurrent (sbase o))). by intros [].
  - apply (fold_last _ (fun o => oretry (sbase o))). by intros [].
  - apply (fold_flag _ (fun o => earlyAck (sbase o))). 2: done. intros [] ?; by rewrite ?orb_false_r, ?orb_true_r.
  - apply (fold_last _ (fun o => processingTimeout (sbase o))). by intros [].
  - apply (fold_last _ (fun o => maxPriority (sbase o))). by intros [].
  - apply (fold_last _ (fun o => eventRetry (sbase o))). by intros [].
  - apply (fold_last _ (fun o => eventConcurrency (sbase o))). by intros [].
Qed.

Lemma service_options_result us prefetch :
  apply_all applyService (service_option <$> us) (register_defaults prefetch) = Some (service_result us prefetch).
Proof. apply apply_all_total, service_effect_total. Qed.

Lemma Register_named find o desc expose s :
  Service.Register find o None desc expose = inl s ->
  Service.name s = runtimeName (ServiceName desc) (instance o) /\ validInstance (instance o) = None.
Proof.
  unfold Service.Register. destruct (validate o) eqn:Hv; [done|]. destruct (find _); [|done|done].
  destruct (check_all _ (Methods desc)); [done|]. destruct (check_all _ (Streams desc)); [done|]. intros [= <-].
  split; [done|]. unfold validate in Hv. repeat (case_match; try done).
Qed.

(** Options mean what they say. Whatever options a caller strings together,
    applying them never dereferences a function an option does not have; each
    setting ends as the last option that sets it left it, or at its default, and
    no option touches another's setting; interceptors accumulate, across repeated
    uses, in the order given; and a service and a client given the same last
    instance name agree on the name the service runs under. *)
Lemma options_applied :
  (forall us prefetch, exists o,
     apply_all applyService (service_option <$> us) (register_defaults prefetch) = Some o /\
     sbase o = {|
       instance := last_set instance_of us "";
       maxConcurrent := last_set (fun u => match u with UseMaxConcurrent n => Some n | _ => None end) us 1;
       oretry := last_set (fun u => match u with UseRetry p => Some p | _ => None end) us DefaultRetryPolicy;
       earlyAck := existsb (fun u => match u with UseEarlyAck => true | _ => false end) us;
       processingTimeout := last_set (fun u => match u with UseProcessingTimeout d => Some d | _ => None end) us 0;
       maxPriority := last_set (fun u => match u with UseMaxPriority n => Some (Some n) | _ => None end) us None;
       eventRetry := last_set (fun u => match u with UseEventRetry p => Some p | _ => None end) us {| EMaxRetries := 0; EDelay := 0 |};
       eventConcurrency := last_set (fun u => match u with UseEventConcurrency n => Some n | _ => None end) us prefetch |} /\
     unaryInterceptors o = (us ≫= fun u => match u with UseUnary ics => ics | _ => [] end) /\
     streamInterceptors o = (us ≫= fun u => match u with UseStream ics => ics | _ => [] end)) /\
  (forall us, exists o, apply_all applyCall (call_option <$> us) no_call = Some o /\
     o = {| actor := last_set (fun u => match u with UseActor a => Some a | _ => None end) us "";
            priority := last_set (fun u => match u with UsePriority p => Some (Some p) | _ => None end) us None;
            messageID := last_set (fun u => match u with UseMessageID i => Some (Some i) | _ => None end) us None;
            noReply := existsb (fun u => match u with UseNoReply => true | _ => false end) us;
            ctimeout := last_set (fun u => match u with UseTimeout d => Some d | _ => None end) us 0 |}) /\
  (forall us a, exists o, apply_all applyListener (listener_option <$> us) a = Some o /\
     o = {| lconcurrency := last_set (fun u => match u with UseConcurrency n => Some n | _ => None end) us (lconcurrency a);
            lretry := last_set (fun u => match u with UseListenerRetry p => Some p | _ => None end) us (lretry a) |}) /\
  (forall find prefetch desc expose us ns s o,
     RegisterWith find prefetch None desc expose (service_option <$> us) = Some (inl (s, o)) ->
     last_set instance_of us "" = last_set Some ns "" ->
     exists c, NewClientWith (ServiceName desc) ((fun n => ClientOfInstance (WithInstance n)) <$> ns) = Some c /\
       runtime c = Service.name s /\ cliErr c = None).
Proof.
  split_and!.
  - intros us prefetch. exists (service_result us prefetch). split; [apply service_options_result|].
    split; [apply service_result_base|]. split.
    + apply (fold_concat _ unaryInterceptors). 2: done. intros [] ?; by rewrite ?app_nil_r.
    + apply (fold_concat _ streamInterceptors). 2: done. intros [] ?; by rewrite ?app_nil_r.
  - intros us. eexists. split; [apply apply_all_total, call_effect_total|]. set (o := fold_left _ _ _).
    transitivity {| actor := actor o; priority := priority o; messageID := messageID o; noReply := noReply o; ctimeout := ctimeout o |};
      [by destruct o|]. f_equal.
    + apply (fold_last _ actor). by intros [].
    + apply (fold_last _ priority). by intros [].
    + apply (fold_last _ messageID). by intros [].
    + apply (fold_flag _ noReply). 2: done. intros [] ?; by rewrite ?orb_false_r, ?orb_true_r.
    + apply (fold_last _ ctimeout). by intros [].
  - intros us a. eexists. split; [apply apply_all_total, listener_effect_total|]. set (o := fold_left _ _ _).
    transitivity {| lconcurrency := lconcurrency o; lretry := lretry o |}; [by destruct o|]. f_equal.
    + apply (fold_last _ lconcurrency). by intros [].
    + apply (fold_last _ lretry). by intros [].
  - intros find prefetch desc expose us ns s o. unfold RegisterWith, NewClientWith. rewrite service_options_result, client_instance.
    cbn [fmap option_fmap option_map]. destruct (Service.Register _ _ _ _ _) as [s'|e] eqn:E; [|done]. intros [= <- <-] Hi.
    apply Register_named in E as [Hn Hv]. rewrite service_result_base in Hn, Hv. cbn [instance] in Hn, Hv. rewrite Hi in Hn, Hv.
    eexists. split; [done|]. cbn. by rewrite Hn.
Qed.

End Options.

(** ** Interceptors of a registered service *)

(** C36: a service's interceptors nest. Whatever options set them, over however
    many uses, a request runs through the interceptors in the order they were
    given, the first outermost, each around all that follow and the handler
    innermost; with none the handler runs alone. Interceptors that only write down
    their passage are left in the reverse order of their entry, the handler's own
    work between; and one that does not call on leaves everything after it, the
    handler included, without effect. The same chain serves streaming methods. *)
Theorem interceptors_nest {Ctx Args Info R SIC : Type}
    (us : list (service_use (UnaryInterceptor := Interceptor Ctx Args Info R) (StreamInterceptor := SIC)))
    (prefetch : Z) (info : Info) (h : Handler Ctx Args R) (ctx : Ctx) (req : Args) :
  let given := us ≫= (fun u => match u with UseUnary ics => ics | _ => [] end) in
  (exists o, apply_all (applyService (Logger := unit) (Observer := unit) (Files := unit) (Types := unit) (Dialer := unit))
     (service_option <$> us) (register_defaults prefetch) = Some o /\
   through (chain (unaryInterceptors o)) info h ctx req = nest given info h ctx req) /\
  (forall a b, through (chain (a ++ b)) info h ctx req = through (chain a) info (nest b info h) ctx req) /\
  (forall ns (g : Handler unit unit _), through (chain (tracing <$> ns)) tt g tt tt =
     ((true,.) <$> ns) ++ g tt tt ++ ((false,.) <$> reverse ns)) /\
  (forall a (answer : Ctx -> Args -> Info -> R) b h', let stop := fun c r i (_ : Handler Ctx Args R) => answer c r i in
     through (chain (a ++ stop :: b)) info h ctx req = through (chain (a ++ [stop])) info h' ctx req).
Proof.
  intros given. split_and!.
  - eexists. split; [apply service_options_result|]. rewrite chain_nest. f_equal.
    apply (fold_concat _ unaryInterceptors). 2: done. intros [] ?; by rewrite ?app_nil_r.
  - intros a b. by rewrite (chain_nest (a ++ b)), nest_app, <-(chain_nest a).
  - intros ns g. by rewrite chain_nest, tracing_trace.
  - intros a answer b h' stop. rewrite (chain_nest (a ++ stop :: b)), (chain_nest (a ++ [stop])).
    by rewrite (nest_app a (stop :: b)), (nest_app a [stop]).
Qed.
