(* ===== verification/Dynamic.v ===== *)
(** * Dynamic: services and clients of schemas known at run time (dynamic.go,
    client.go)

    Registering a table of handlers, resolving a client from a runtime name, and
    calling methods by name. Messages are an abstract type with the name of their
    descriptor; encoding, decoding and the schema's message types are protobuf's,
    parameters here. What a dispatcher answers is an argument; what was handed to
    it is part of the result. *)
From S2P Require Import Prelude GoStrings Wire Headers Errors Stream Names Consumer Service Dispatcher Options.
Import Interceptors.

Local Open Scope Z_scope.

Section Dynamic.
Context {P : Protowire} {A : GoArch}.
Context {Msg : Type} (messageName : Msg -> string) (newMessage : string -> Msg)
  (marshal : Msg -> bytes + err) (unmarshal : string -> bytes -> Msg + err).

(** The schema: what a name finds, and the message types of a method. *)
Context (files : string -> found) (Input Output : contract -> methodDesc -> string).

Variable wire_text : wire_error -> string.

(** [serviceDescriptor] *)
Definition serviceDescriptor (n : string) : contract + err :=
  match files n with
  | FoundService c => inl c
  | NotFound e => inr (EWraps (sentinel_text ErrUnknownService +:+ " " +:+ Quote n +:+ ": " +:+ error_text e)
                         [ESentinel ErrUnknownService; e])
  | NotAService kind => inr (EWrap (sentinel_text ErrUnknownService +:+ ": " +:+ Quote n +:+ " is a " +:+ kind
                                    +:+ ", not a service") (ESentinel ErrUnknownService))
  end.

(** ** Serving *)

(** A unary handler answers a message, perhaps nil, or an error; its interceptors
    are [Options]'s. *)
Definition DynamicHandler : Type := Handler CallInfo Msg (option Msg + err).
Definition UnaryInterceptor : Type := Interceptor CallInfo Msg string (option Msg + err).

(** A streaming handler, given the request and the stream it sends on. *)
Definition DynamicStreamHandler : Type := Handler CallInfo (Msg * ServerStream.serverStream) stream_answer.
Definition StreamInterceptor : Type := Interceptor CallInfo (Msg * ServerStream.serverStream) string stream_answer.

Record DynamicHandlers := { DUnary : gmap string DynamicHandler; DStreams : gmap string DynamicStreamHandler }.

(** The names of [order] the contract declares, then, in a second walk over the
    same map, those it does not: a map's order is not fixed, and need not be the
    same twice. *)
Definition declared (c : contract) (n : string) : bool := match ByName c n with Some _ => true | None => false end.

Definition table (c : contract) (order1 order2 : list string) : list string :=
  List.filter (declared c) order1 ++ List.filter (fun n => negb (declared c n)) order2.

(** The orders of the four walks. *)
Record walks := { unary1 : list string; streams1 : list string; unary2 : list string; streams2 : list string }.

Definition walks_of (h : DynamicHandlers) (w : walks) : Prop :=
  unary1 w ≡ₚ (map_to_list (DUnary h)).*1 /\ unary2 w ≡ₚ (map_to_list (DUnary h)).*1 /\
  streams1 w ≡ₚ (map_to_list (DStreams h)).*1 /\ streams2 w ≡ₚ (map_to_list (DStreams h)).*1.

(** [RegisterDynamic] *)
Definition RegisterDynamic (service : string) (h : DynamicHandlers) (w : walks) (o : serviceOptions) (expose : bool)
    : Service + err :=
  match serviceDescriptor service with
  | inr e => inr e
  | inl c =>
      Register files o None
        {| ServiceName := service; Methods := table c (unary1 w) (unary2 w); Streams := table c (streams1 w) (streams2 w) |}
        expose
  end.

(** The handlers the descriptor's closures make of the table: the request is
    decoded as the method's input type, and a failure to decode is a payload
    error, before the interceptors and the handler see it. *)
Definition dynamic_unary (c : contract) (h : DynamicHandlers) (ic : option UnaryInterceptor) (n : string) (info : CallInfo)
    (data : bytes) : unary_answer :=
  match ByName c n, DUnary h !! n with
  | Some md, Some handler =>
      match unmarshal (Input c md) data with
      | inr e => UErr (EPayload e)
      | inl req =>
          match through ic (fullName c +:+ "." +:+ n) handler info req with
          | inr e => UErr e
          | inl None => UNil
          | inl (Some resp) => UResp (marshal resp)
          end
      end
  | _, _ => UNil
  end.

Definition dynamic_stream (env : ServerStream.env) (c : contract) (h : DynamicHandlers) (ic : option StreamInterceptor) (n : string)
    (info : CallInfo) (data : bytes) (ss : ServerStream.serverStream) : stream_answer :=
  match ByName c n, DStreams h !! n with
  | Some md, Some handler =>
      match unmarshal (Input c md) data with
      | inr e => {| after := ss; serr := Some (EPayload e); senv := env |}
      | inl req => through ic (fullName c +:+ "." +:+ n) handler info (req, ss)
      end
  | _, _ => {| after := ss; serr := None; senv := env |}
  end.

Definition dynamic_handlers (env : ServerStream.env) (c : contract) (h : DynamicHandlers) (uic : option UnaryInterceptor)
    (sic : option StreamInterceptor) : handlers :=
  {| on_unary := dynamic_unary c h uic; on_stream := dynamic_stream env c h sic |}.

(** ** Calling *)

(** A client; one that was resolved carries its contract. *)
Record DClient := { client : Client; sd : option contract }.

Definition is_service (n : string) : bool := match files n with FoundService _ => true | _ => false end.

(** [ResolveClient] *)
Definition ResolveClient (n : string) : DClient + err :=
  match resolveContract is_service n with
  | None => inr (EWrap (sentinel_text ErrUnknownService +:+ ": protobus: no service in the schema matches " +:+ Quote n
                        +:+ " or any prefix of it") (ESentinel ErrUnknownService))
  | Some ctr =>
      match files ctr with
      | FoundService c => inl {| client := {| ccontract := fullName c; runtime := n; cliErr := None |}; sd := Some c |}
      | _ => inr (EText "unreachable")
      end
  end.

(** [Client.method] *)
Definition method (c : DClient) (n : string) : (contract * methodDesc) + err :=
  match (match sd c with Some s => inl s | None => serviceDescriptor (ccontract (client c)) end) with
  | inr e => inr e
  | inl s =>
      match ByName s n with
      | None => inr (EText ("protobus: " +:+ ccontract (client c) +:+ " declares no method " +:+ Quote n))
      | Some md => inl (s, md)
      end
  end.

(** [NewRequest] *)
Definition NewRequest (c : DClient) (n : string) : Msg + err :=
  match method c n with inr e => inr e | inl (s, md) => inl (newMessage (Input s md)) end.

Definition methodFullName (s : contract) (md : methodDesc) : string := fullName s +:+ "." +:+ mname md.

(** [checkRequest] *)
Definition checkRequest (s : contract) (md : methodDesc) (inn : Msg) : option err :=
  if decide (messageName inn = Input s md) then None
  else Some (EWrap (sentinel_text ErrInvalidRequest +:+ ": " +:+ methodFullName s md +:+ " takes " +:+ Input s md
                    +:+ ", not " +:+ messageName inn) (ESentinel ErrInvalidRequest)).

(** What was handed to the dispatcher. *)
Record attempt := { akey : string; abody : bytes }.

(** [decodeReply] into a message of type [typ]. *)
Definition decode_into (typ method : string) (b : bytes) : Msg + err :=
  match decodeReply wire_text (fun data => match unmarshal typ data with inl _ => None | inr e => Some e end) b method with
  | inr e => inr e
  | inl data => unmarshal typ data
  end.

(** [Invoke], over the dispatcher's answer: [None] leaves the output untouched. *)
Definition Invoke (call : attempt -> callOptions -> bytes + err) (c : Client) (m : string) (inn : Msg) (typ : string) (o : callOptions)
    : list attempt * (option Msg + err) :=
  match envelope c m (marshal inn) (actor o) with
  | inr e => ([], inr e)
  | inl body =>
      let a := {| akey := routingKey (runtime c) m; abody := body |} in
      ([a], match call a o with
            | inr e => inr e
            | inl reply =>
                if noReply o then inl None
                else match decode_into typ (ccontract c +:+ "." +:+ m) reply with inl out => inl (Some out) | inr e => inr e end
            end)
  end.

(** [Call] *)
Definition Call (call : attempt -> callOptions -> bytes + err) (c : DClient) (m : string) (inn : Msg) (o : callOptions)
    : list attempt * (Msg + err) :=
  match method c m with
  | inr e => ([], inr e)
  | inl (s, md) =>
      if streamingServer md then
        ([], inr (EText ("protobus: " +:+ methodFullName s md +:+ " is server-streaming; use CallStream")))
      else match checkRequest s md inn with
      | Some e => ([], inr e)
      | None =>
          match Invoke call (client c) m inn (Output s md) o with
          | (sent, inr e) => (sent, inr e)
          | (sent, inl out) => (sent, inl (default (newMessage (Output s md)) out))
          end
      end
  end.

(** [StreamWith]'s loop over the frames of the dispatcher's stream. [more i] is
    what the range body says after the [i]th message. *)
Fixpoint stream_loop (typ full : string) (more : nat -> bool) (i : nat) (frames : list (bytes + err)) : list (Msg + err) :=
  match frames with
  | [] => []
  | inr e :: _ => [inr e]
  | inl f :: frames' =>
      match decode_into typ full f with
      | inr e => [inr e]
      | inl out => inl out :: (if more i then stream_loop typ full more (S i) frames' else [])
      end
  end.

(** [StreamWith] *)
Definition StreamWith (stream : attempt -> streamOptions -> list (bytes + err)) (c : Client) (m : string) (inn : Msg) (typ : string)
    (o : streamOptions) (more : nat -> bool) : list attempt * list (Msg + err) :=
  match envelope c m (marshal inn) (sactor o) with
  | inr e => ([], [inr e])
  | inl body =>
      let a := {| akey := routingKey (runtime c) m; abody := body |} in
      ([a], stream_loop typ (ccontract c +:+ "." +:+ m) more 0 (stream a o))
  end.

(** [CallStream] *)
Definition CallStream (stream : attempt -> streamOptions -> list (bytes + err)) (c : DClient) (m : string) (inn : Msg)
    (o : streamOptions) (more : nat -> bool) : list attempt * list (Msg + err) :=
  match method c m with
  | inr e => ([], [inr e])
  | inl (s, md) =>
      if negb (streamingServer md) then ([], [inr (EText ("protobus: " +:+ methodFullName s md +:+ " is unary; use Call"))])
      else match checkRequest s md inn with
      | Some e => ([], [inr e])
      | None => StreamWith stream (client c) m inn (Output s md) o more
      end
  end.

(** ** Properties *)

Lemma elem_of_filter_bool (f : string -> bool) l n : n ∈ List.filter f l <-> n ∈ l /\ f n = true.
Proof. by rewrite !list_elem_of_In, filter_In. Qed.

Lemma elem_of_table c (o1 o2 keys : list string) n : o1 ≡ₚ keys -> o2 ≡ₚ keys -> n ∈ table c o1 o2 <-> n ∈ keys.
Proof.
  intros H1 H2. unfold table. rewrite elem_of_app, !elem_of_filter_bool, H1, H2, negb_true_iff.
  destruct (declared c n); naive_solver.
Qed.

Lemma elem_of_keys {V} (m : gmap string V) n : n ∈ (map_to_list m).*1 <-> is_Some (m !! n).
Proof.
  rewrite list_elem_of_fmap. split.
  - intros ([k v] & -> & Hin%elem_of_map_to_list). by exists v.
  - intros [v Hv]. exists (n, v). by rewrite elem_of_map_to_list.
Qed.

Lemma table_keys {V} (m : gmap string V) c o1 o2 n :
  o1 ≡ₚ (map_to_list m).*1 -> o2 ≡ₚ (map_to_list m).*1 -> n ∈ table c o1 o2 <-> is_Some (m !! n).
Proof. intros H1 H2. by rewrite (elem_of_table c o1 o2 _ n H1 H2), elem_of_keys. Qed.

Lemma check_all_forall (check : string -> option err) ns : check_all check ns = None <-> forall n, n ∈ ns -> check n = None.
Proof.
  split; [intros H n; by apply check_all_in|]. induction ns as [|n ns IH]; intros H; simpl; [done|].
  rewrite H by (by left). apply IH. intros x Hx. apply H. by right.
Qed.

(** The handlers of the table fit the contract. *)
Definition fits (c : contract) (h : DynamicHandlers) : Prop :=
  (forall n, is_Some (DUnary h !! n) -> exists md, ByName c n = Some md /\ streamingServer md = false /\ streamingClient md = false) /\
  (forall n, is_Some (DStreams h !! n) -> exists md, ByName c n = Some md /\ streamingServer md = true /\ streamingClient md = false).

Lemma check_unary_ok svc c n :
  check_unary svc c n = None <-> exists md, ByName c n = Some md /\ streamingServer md = false /\ streamingClient md = false.
Proof.
  unfold check_unary. destruct (ByName c n) as [md|]; [|split; [done|by intros (? & ? & _)]].
  destruct (streamingServer md) eqn:E1, (streamingClient md) eqn:E2; simpl; split; try done; try (by intros (? & [= <-] & ? & ?); congruence).
  intros _. by exists md.
Qed.

Lemma check_stream_ok svc c n :
  check_stream svc c n = None <-> exists md, ByName c n = Some md /\ streamingServer md = true /\ streamingClient md = false.
Proof.
  unfold check_stream. destruct (ByName c n) as [md|]; [|split; [done|by intros (? & ? & _)]].
  destruct (streamingServer md) eqn:E1, (streamingClient md) eqn:E2; simpl; split; try done; try (by intros (? & [= <-] & ? & ?); congruence).
  intros _. by exists md.
Qed.

Lemma RegisterDynamic_ok service h w o expose s :
  walks_of h w ->
  RegisterDynamic service h w o expose = inl s <->
  validate o = None /\ exists c, files service = FoundService c /\ fits c h /\
    s = {| scontract := c; name := runtimeName service (instance o); opts := o;
           unary := table c (unary1 w) (unary2 w); streams := table c (streams1 w) (streams2 w); ExposeInternalErrors := expose |}.
Proof.
  intros (Hu1 & Hu2 & Hs1 & Hs2). unfold RegisterDynamic, serviceDescriptor, Register. simpl.
  destruct (files service) as [c|e|k] eqn:Ef;
    [|by split; [|intros (_ & ? & [=] & _)]|by split; [|intros (_ & ? & [=] & _)]].
  destruct (validate o) as [e|] eqn:Ev; [by split; [|intros [[=] _]]|].
  destruct (check_all (check_unary service c) _) as [e|] eqn:Eu.
  { split; [done|]. intros (_ & c' & [= <-] & [Hf _] & _). enough (check_all (check_unary service c) (table c (unary1 w) (unary2 w)) = None) by congruence.
    apply check_all_forall. intros n Hn. apply check_unary_ok, Hf. by eapply table_keys in Hn. }
  destruct (check_all (check_stream service c) _) as [e|] eqn:Es.
  { split; [done|]. intros (_ & c' & [= <-] & [_ Hf] & _). enough (check_all (check_stream service c) (table c (streams1 w) (streams2 w)) = None) by congruence.
    apply check_all_forall. intros n Hn. apply check_stream_ok, Hf. by eapply table_keys in Hn. }
  split.
  - intros [= <-]. split; [done|]. exists c. split_and!; [done| |done]. rewrite check_all_forall in Eu, Es. split; intros n Hn.
    + apply (check_unary_ok service), Eu. by apply (table_keys (DUnary h)).
    + apply (check_stream_ok service), Es. by apply (table_keys (DStreams h)).
  - by intros (_ & c' & [= <-] & _ & ->).
Qed.

Lemma dynamic_unary_found c h ic n info data md handler :
  ByName c n = Some md -> DUnary h !! n = Some handler ->
  dynamic_unary c h ic n info data =
    match unmarshal (Input c md) data with
    | inr e => UErr (EPayload e)
    | inl req => match through ic (fullName c +:+ "." +:+ n) handler info req with
                 | inr e => UErr e
                 | inl None => UNil
                 | inl (Some resp) => UResp (marshal resp)
                 end
    end.
Proof. unfold dynamic_unary. by intros -> ->. Qed.

Lemma dynamic_stream_found env c h ic n info data ss md handler :
  ByName c n = Some md -> DStreams h !! n = Some handler ->
  dynamic_stream env c h ic n info data ss =
    match unmarshal (Input c md) data with
    | inr e => {| after := ss; serr := Some (EPayload e); senv := env |}
    | inl req => through ic (fullName c +:+ "." +:+ n) handler info (req, ss)
    end.
Proof. unfold dynamic_stream. by intros -> ->. Qed.

(** C37: a table of handlers serves exactly what it lists. Registering it succeeds
    exactly when the options are valid, the schema has the service, every unary
    handler is under a method that streams neither way and every streaming handler
    under a server-streaming one, in whatever order the maps are walked. The
    service then serves exactly the methods the table lists: user code runs only
    through one of its handlers, after the payload decoded as the method's input
    type, inside the service's interceptors; and a declared method without a
    handler, like every other request, is answered with a protocol error. *)
Theorem dynamic_registration (service : string) (h : DynamicHandlers) (w : walks) (o : serviceOptions) (expose : bool) :
  walks_of h w ->
  ((exists s, RegisterDynamic service h w o expose = inl s) <->
   validate o = None /\ exists c, files service = FoundService c /\ fits c h) /\
  forall s env uic sic d, RegisterDynamic service h w o expose = inl s ->
    let H := dynamic_handlers env (scontract s) h uic sic in
    match handle s H d with
    | (None, r) => exists label reason, r = rejection s label reason
    | (Some (CallUnary n info), r) =>
        exists rq md handler, DecodeRequest (Body d) = (rq, None) /\ ByName (scontract s) n = Some md /\ DUnary h !! n = Some handler /\
          let full := fullName (scontract s) +:+ "." +:+ n in
          r = serveUnary s full
                match unmarshal (Input (scontract s) md) (ReqData rq) with
                | inr e => UErr (EPayload e)
                | inl req => match through uic full handler info req with
                             | inr e => UErr e
                             | inl None => UNil
                             | inl (Some resp) => UResp (marshal resp)
                             end
                end
    | (Some (Service.CallStream n info), r) =>
        exists rq md handler, DecodeRequest (Body d) = (rq, None) /\ ByName (scontract s) n = Some md /\ DStreams h !! n = Some handler /\
          let full := fullName (scontract s) +:+ "." +:+ n in
          let ss := ServerStream.newStream full in
          r = serveStream s full
                match unmarshal (Input (scontract s) md) (ReqData rq) with
                | inr e => {| after := ss; serr := Some (EPayload e); senv := env |}
                | inl req => through sic full handler info (req, ss)
                end
    end.
Proof.
  intros Hw. split.
  - split.
    + intros [s (Hv & c & Hf & Hh & _)%RegisterDynamic_ok]; [|done]. split; [done|]. by exists c.
    + intros (Hv & c & Hf & Hh). eexists. apply RegisterDynamic_ok; [done|]. split; [done|]. by exists c.
  - intros s env uic sic d (_ & c & _ & _ & Es)%RegisterDynamic_ok H; [|done]. destruct Hw as (Hu1 & Hu2 & Hs1 & Hs2).
    pose proof (handle_dispatched s H d) as Hd.
    assert (unary s = table c (unary1 w) (unary2 w) /\ streams s = table c (streams1 w) (streams2 w)) as [Eu Et] by (by rewrite Es).
    clear Es. destruct (handle s H d) as [[[n info|n info]|] r]; cbn [fst snd] in Hd; [| |exact Hd].
    + destruct Hd as (rq & md & Hrq & -> & _ & Hmd & _ & Hin & _ & _ & ->). rewrite Eu in Hin. apply (table_keys (DUnary h)) in Hin as [handler Hh]; [|done|done].
      exists rq, md, handler. split; [done|]. split; [done|]. split; [done|]. subst H. simpl. f_equal. by apply dynamic_unary_found.
    + destruct Hd as (rq & md & Hrq & -> & _ & Hmd & _ & Hin & _ & _ & ->). rewrite Et in Hin. apply (table_keys (DStreams h)) in Hin as [handler Hh]; [|done|done].
      exists rq, md, handler. split; [done|]. split; [done|]. split; [done|]. subst H. simpl. f_equal. by apply dynamic_stream_found.
Qed.

(** *** Calls *)

Lemma Call_sent call c m inn o :
  fst (Call call c m inn o) = [] /\ (exists e, snd (Call call c m inn o) = inr e) \/
  exists s md data, method c m = inl (s, md) /\ streamingServer md = false /\ messageName inn = Input s md /\
    cliErr (client c) = None /\ marshal inn = inl data /\
    let a := {| akey := routingKey (runtime (client c)) m;
                abody := AppendRequest [] {| ReqMethod := ccontract (client c) +:+ "." +:+ m; Actor := actor o; ReqData := data |} |} in
    fst (Call call c m inn o) = [a] /\
    snd (Call call c m inn o) =
      match call a o with
      | inr e => inr e
      | inl reply => if noReply o then inl (newMessage (Output s md))
                     else decode_into (Output s md) (ccontract (client c) +:+ "." +:+ m) reply
      end.
Proof.
  unfold Call. destruct (method c m) as [[s md]|e]; [|left; eauto]. destruct (streamingServer md) eqn:Ek; [left; eauto|].
  unfold checkRequest. destruct (decide (messageName inn = Input s md)); [|left; eauto].
  unfold Invoke, envelope. destruct (cliErr (client c)) eqn:Ee; [left; simpl; eauto|].
  destruct (marshal inn) as [data|e'] eqn:Em; [|left; simpl; eauto].
  right. exists s, md, data. split_and!; try done; simpl; destruct (call _ o) as [reply|e']; try done;
    destruct (noReply o); try done; by destruct (decode_into _ _ _).
Qed.

(** At most one error is yielded, and nothing after it. *)
Lemma stream_loop_shape typ full more i frames :
  exists outs, (stream_loop typ full more i frames = inl <$> outs \/ exists e, stream_loop typ full more i frames = (inl <$> outs) ++ [inr e]) /\
    Forall2 (fun f out => exists b, f = inl b /\ decode_into typ full b = inl out) (take (length outs) frames) outs.
Proof.
  revert i. induction frames as [|[f|e] frames IH]; intros i; simpl.
  - exists []. split; [by left|constructor].
  - destruct (decode_into typ full f) as [out|e] eqn:E.
    + destruct (more i).
      * destruct (IH (S i)) as (outs & Hs & Hd). exists (out :: outs). split.
        -- destruct Hs as [-> | [e ->]]; [by left|right; by exists e].
        -- simpl. constructor; [by exists f|done].
      * exists [out]. split; [by left|]. simpl. rewrite take_0. repeat constructor. by exists f.
    + exists []. split; [right; by exists e|constructor].
  - exists []. split; [right; by exists e|constructor].
Qed.

Lemma CallStream_sent stream c m inn o more :
  fst (CallStream stream c m inn o more) = [] /\ (exists e, snd (CallStream stream c m inn o more) = [inr e]) \/
  exists s md data, method c m = inl (s, md) /\ streamingServer md = true /\ messageName inn = Input s md /\
    cliErr (client c) = None /\ marshal inn = inl data /\
    let full := ccontract (client c) +:+ "." +:+ m in
    let a := {| akey := routingKey (runtime (client c)) m;
                abody := AppendRequest [] {| ReqMethod := full; Actor := sactor o; ReqData := data |} |} in
    CallStream stream c m inn o more = ([a], stream_loop (Output s md) full more 0 (stream a o)).
Proof.
  unfold CallStream. destruct (method c m) as [[s md]|e]; [|left; eauto]. destruct (streamingServer md) eqn:Ek; [|left; simpl; eauto].
  unfold checkRequest. destruct (decide (messageName inn = Input s md)); [|left; simpl; eauto]. simpl.
  unfold StreamWith, envelope. destruct (cliErr (client c)) eqn:Ee; [left; simpl; eauto|].
  destruct (marshal inn) as [data|e'] eqn:Em; [|left; simpl; eauto].
  right. by exists s, md, data.
Qed.

(** Calling by name checks first and sends at most once. A call by name either
    fails with nothing handed to the dispatcher, or the client's options were valid,
    the method is one its contract declares, of the right kind, the request is of
    its input type and encodes, and exactly one request, naming the contract's
    method, goes out on the runtime name's key. A stream by name yields decoded
    responses in the order of the frames, then at most one error, and nothing
    after it. *)
Lemma dynamic_calls call stream (c : DClient) (m : string) (inn : Msg) (o : callOptions) (so : streamOptions) (more : nat -> bool) :
  let ok (kind : bool) := exists s md data, method c m = inl (s, md) /\ streamingServer md = kind /\ messageName inn = Input s md /\
    cliErr (client c) = None /\ marshal inn = inl data in
  let request act data := {| akey := routingKey (runtime (client c)) m;
    abody := AppendRequest [] {| ReqMethod := ccontract (client c) +:+ "." +:+ m; Actor := act; ReqData := data |} |} in
  (fst (Call call c m inn o) = [] /\ (exists e, snd (Call call c m inn o) = inr e) \/
   ok false /\ exists data, marshal inn = inl data /\ fst (Call call c m inn o) = [request (actor o) data]) /\
  (fst (CallStream stream c m inn so more) = [] /\ (exists e, snd (CallStream stream c m inn so more) = [inr e]) \/
   ok true /\ exists data, marshal inn = inl data /\ fst (CallStream stream c m inn so more) = [request (sactor so) data]) /\
  exists outs, snd (CallStream stream c m inn so more) = inl <$> outs \/
    exists e, snd (CallStream stream c m inn so more) = (inl <$> outs) ++ [inr e].
Proof.
  intros ok request. split_and!.
  - destruct (Call_sent call c m inn o) as [?|(s & md & data & ? & ? & ? & ? & ? & Hs & _)]; [by left|right].
    split; [by exists s, md, data|]. by exists data.
  - destruct (CallStream_sent stream c m inn so more) as [?|(s & md & data & ? & ? & ? & ? & ? & ->)]; [by left|right].
    split; [by exists s, md, data|]. by exists data.
  - destruct (CallStream_sent stream c m inn so more) as [[_ [e ->]]|(s & md & data & ? & ? & ? & ? & ? & ->)].
    + exists []. right. by exists e.
    + simpl. destruct (stream_loop_shape (Output s md) (ccontract (client c) +:+ "." +:+ m) more 0
        (stream (request (sactor so) data) so)) as (outs & Hs & _). by exists outs.
Qed.

(** *** End to end *)

Context {L : ProtowireLaws P}.

(** The delivery the broker makes of a request, and the reply a service gives. *)
Definition delivered (a : attempt) (cid : string) : Delivery := {|
  Headers := ∅; ContentType := contentTypeOctetStream; ContentEncoding := ""; Priority := 0; CorrelationId := cid;
  ReplyTo := ""; MessageId := ""; Timestamp := 0; DType := ""; AppId := ""; DeliveryTag := 1; Redelivered := false;
  Exchange := ""; RoutingKey := akey a; Body := abody a |}.

Definition served (s : Service) (H : handlers) (cid : string) (a : attempt) (_ : callOptions) : bytes + err :=
  match reply (snd (handle s H (delivered a cid))) with
  | Some b => inl b
  | None => inr (ESentinel ErrRPCTimeout)
  end.

Lemma no_dot_instance inst : validInstance inst = None -> contains_char dot inst = false.
Proof.
  unfold validInstance. destruct (decide (inst = "")) as [-> | Hne]; [done|]. rewrite bool_decide_true by done. simpl.
  assert (forall t, ContainsAny t instance_forbidden = false -> contains_char dot t = false) as H.
  { induction t as [|c t IH]; [done|]. cbn [ContainsAny contains_char]. intros [Hc Ht]%orb_false_elim. rewrite (IH Ht), orb_false_r.
    destruct (Ascii.eqb_spec c dot) as [->|]; [discriminate Hc|done]. }
  destruct (ContainsAny inst instance_forbidden) eqn:E; [done|]. intros _. by apply H.
Qed.

(** A runtime name resolves to the contract it was made from. *)
Lemma ResolveClient_runtime service inst c :
  files service = FoundService c -> service <> "" -> validInstance inst = None ->
  (inst <> "" -> is_service (service +:+ "." +:+ inst) = false) ->
  ResolveClient (runtimeName service inst) =
    inl {| client := {| ccontract := fullName c; runtime := runtimeName service inst; cliErr := None |}; sd := Some c |}.
Proof.
  intros Hf Hne Hv Hi. unfold ResolveClient, runtimeName.
  assert (is_service service = true) as Hs by (unfold is_service; by rewrite Hf).
  destruct (decide (inst = "")) as [->|Hin].
  - rewrite resolveContract_loop, Hs. by rewrite Hf.
  - rewrite resolveContract_instance by (done || auto using no_dot_instance). by rewrite Hf.
Qed.

Lemma validate_instance o : validate o = None -> validInstance (instance o) = None.
Proof. unfold validate. intros Hv. repeat (case_match; try done). Qed.

(** C38: a call by name reaches the handler of its name and brings its answer back.
    A service registered from a table of handlers, under an instance or not, and a
    client resolved from the name it runs under agree: calling a unary method with
    a request that survives its encoding runs the table's handler on that request,
    with the caller's actor, inside the service's interceptors, and the call
    returns the message the handler answered, or the handler's error as the caller
    is told it. *)
Theorem dynamic_roundtrip (h : DynamicHandlers) (w : walks) (so : serviceOptions) (expose : bool) (service m cid : string)
    (s : Service) (c : contract) (md : methodDesc) (handler : DynamicHandler) env uic sic (o : callOptions) (inn : Msg) (data : bytes) :
  let full := service +:+ "." +:+ m in
  let H := dynamic_handlers env c h uic sic in
  walks_of h w -> RegisterDynamic service h w so expose = inl s ->
  files service = FoundService c -> fullName c = service -> service <> "" ->
  (instance so <> "" -> is_service (service +:+ "." +:+ instance so) = false) ->
  ByName c m = Some md -> DUnary h !! m = Some handler -> m <> "" -> contains_char dot m = false -> noReply o = false ->
  messageName inn = Input c md -> marshal inn = inl data -> unmarshal (Input c md) data = inl inn ->
  request_ok {| ReqMethod := full; Actor := actor o; ReqData := data |} = true ->
  exists cl info, ResolveClient (Service.name s) = inl cl /\ CActor info = actor o /\ CMethod info = full /\
    (forall out b, through uic full handler info inn = inl (Some out) -> marshal out = inl b ->
       unmarshal (Output c md) b = inl out -> result_ok {| ResMethod := full; ResData := b |} = true ->
       snd (Call (served s H cid) cl m inn o) = inl out) /\
    (forall e, through uic full handler info inn = inr e ->
       is_payload_error e = false -> is_sentinel ErrUnimplemented e = false -> is_Some (asAnswerable e) ->
       let ce := sanitizeForCaller e expose in
       error_ok {| ErrMethod := full; ErrMessage := ceMessage ce; ErrCode := ceCode ce |} = true ->
       snd (Call (served s H cid) cl m inn o) = inr (ERemote full (ceCode ce) (ceMessage ce))).
Proof.
  intros full H Hw Hreg Hf Hfull Hsn Hinst Hmd Hh Hm Hdot Hnr Hty Hmar Hun Hok.
  apply RegisterDynamic_ok in Hreg as (Hv & c' & Hf' & [Hfit _] & ->); [|done]. rewrite Hf in Hf'. injection Hf' as <-.
  destruct (Hfit m) as (md' & Hmd' & Hk & _); [by rewrite Hh|]. rewrite Hmd in Hmd'. injection Hmd' as <-.
  set (s := {| scontract := c; name := _; opts := _; unary := _; streams := _; ExposeInternalErrors := _ |}).
  set (rq := {| ReqMethod := full; Actor := actor o; ReqData := data |}).
  set (cl := {| client := {| ccontract := fullName c; runtime := runtimeName service (instance so); cliErr := None |}; sd := Some c |}).
  set (a := {| akey := routingKey (runtimeName service (instance so)) m; abody := AppendRequest [] rq |}).
  set (info := call_info rq (delivered a cid)).
  exists cl, info. split; [by apply ResolveClient_runtime; auto using validate_instance|]. split; [done|]. split; [done|].
  assert (snd (handle s H (delivered a cid)) = serveUnary s full (dynamic_unary c h uic m info data)) as Hhandle.
  { rewrite (unary_delivered s H (delivered a cid) m rq md); try done; simpl; rewrite ?Hfull; try done.
    - by apply request_encoded.
    - destruct Hw as (Hu1 & Hu2 & _). apply (table_keys (DUnary h)); [done|done|by rewrite Hh]. }
  rewrite (dynamic_unary_found _ _ _ _ _ _ _ _ Hmd Hh), Hun, Hfull in Hhandle. fold full in Hhandle.
  assert (method cl m = inl (c, md)) as Hmeth by (unfold method; simpl; by rewrite Hmd).
  assert (snd (Call (served s H cid) cl m inn o) =
    match served s H cid a o with inr e => inr e | inl reply => decode_into (Output c md) full reply end) as Hcall.
  { unfold Call. rewrite Hmeth, Hk. unfold checkRequest. rewrite decide_True by done. unfold Invoke, envelope. simpl. rewrite Hmar, Hfull.
    fold full. fold rq. fold a. destruct (served s H cid a o); [|done]. rewrite Hnr. by destruct (decode_into _ _ _). }
  rewrite Hcall. unfold served. rewrite Hhandle. split.
  - intros out b -> Hb Hout Hrok. simpl. rewrite Hb. simpl. unfold decode_into, decodeReply.
    destruct (result_body_spec _ _ Hrok) as [_ ->]. simpl. rewrite decide_False by (intros ?; done). by rewrite Hout.
  - intros e -> Hp Hu [x Hx] Heok. cbn [serveUnary]. unfold failure. rewrite Hp, Hu, Hx.
    unfold replied, decode_into, decodeReply, encodeError. cbn [reply ExposeInternalErrors s].
    by rewrite (error_body_spec _ _ Heok).
Qed.

End Dynamic.

(** ** A sample: a counter service whose messages are tagged byte strings *)
Module DynSample.

Record msg := { mtype : string; mdata : bytes }.

Definition marshal (m : msg) : bytes + err := inl (mdata m).
Definition unmarshal (t : string) (b : bytes) : msg + err := inl {| mtype := t; mdata := b |}.

Definition add : methodDesc := {| mname := "add"; streamingServer := false; streamingClient := false |}.
Definition watch : methodDesc := {| mname := "watch"; streamingServer := true; streamingClient := false |}.
Definition counter : contract := {| fullName := "Demo.Counter"; methods := [add; watch] |}.

Definition files (n : string) : found := if decide (n = "Demo.Counter") then FoundService counter else NotFound (EText "not found").
Definition input (_ : contract) (md : methodDesc) : string := mname md +:+ "Request".
Definition output (_ : contract) (md : methodDesc) : string := mname md +:+ "Reply".

Definition double : DynamicHandler (Msg := msg) := fun _ req => inl (Some {| mtype := "addReply"; mdata := mdata req ++ mdata req |}).

Definition table : DynamicHandlers (Msg := msg) := {| DUnary := {["add" := double]}; DStreams := ∅ |}.

Definition order : walks := {| unary1 := ["add"]; streams1 := []; unary2 := ["add"]; streams2 := [] |}.

Lemma order_walks : walks_of table order.
Proof. by repeat split; vm_compute. Qed.

Definition registered : Service := {|
  scontract := counter; name := "Demo.Counter.blue"; opts := calc_options; unary := ["add"]; streams := [];
  ExposeInternalErrors := false |}.

Definition asking : callOptions := {| actor := "ann"; priority := None; messageID := None; noReply := false; ctimeout := 0 |}.
Definition request : msg := {| mtype := "addRequest"; mdata := [x07] |}.

End DynSample.

Lemma dynamic_registration_witness :
  exists s, RegisterDynamic (Msg := DynSample.msg) DynSample.files "Demo.Counter" DynSample.table DynSample.order calc_options false = inl s.
Proof.
  apply (dynamic_registration (P := Varint.wire) (A := amd64) DynSample.mtype (fun t => {| DynSample.mtype := t; DynSample.mdata := [] |})
    DynSample.marshal DynSample.unmarshal DynSample.files DynSample.input DynSample.output "Demo.Counter" DynSample.table DynSample.order calc_options false DynSample.order_walks).
  split; [vm_compute; reflexivity|]. exists DynSample.counter. split; [vm_compute; reflexivity|]. split.
  - intros n [h Hh]. change (DUnary DynSample.table) with ({["add" := DynSample.double]} : gmap string DynamicHandler) in Hh.
    apply lookup_singleton_Some in Hh as [<- _]. by exists DynSample.add.
  - intros n [h Hh]. change (DStreams DynSample.table) with (∅ : gmap string (DynamicStreamHandler (Msg := DynSample.msg))) in Hh.
    by rewrite lookup_empty in Hh.
Defined.

Lemma dynamic_roundtrip_witness :
  exists cl, ResolveClient DynSample.files "Demo.Counter.blue" = inl cl /\
    snd (Call (P := Varint.wire) DynSample.mtype (fun t => {| DynSample.mtype := t; DynSample.mdata := [] |}) DynSample.marshal
      DynSample.unmarshal DynSample.files DynSample.input DynSample.output (fun _ => "")
      (served (P := Varint.wire) (A := amd64) DynSample.registered
        (dynamic_handlers DynSample.marshal DynSample.unmarshal DynSample.input sample_env DynSample.counter DynSample.table None None) "c1")
      cl "add" DynSample.request DynSample.asking)
    = inl {| DynSample.mtype := "addReply"; DynSample.mdata := [x07; x07] |}.
Proof.
  destruct (dynamic_roundtrip (P := Varint.wire) (A := amd64) (L := Varint.wire_laws) DynSample.mtype
    (fun t => {| DynSample.mtype := t; DynSample.mdata := [] |}) DynSample.marshal DynSample.unmarshal DynSample.files DynSample.input
    DynSample.output (fun _ => "") DynSample.table DynSample.order calc_options false "Demo.Counter" "add" "c1" DynSample.registered
    DynSample.counter DynSample.add DynSample.double sample_env None None DynSample.asking DynSample.request [x07])
    as (cl & info & Hcl & _ & _ & Hcall & _).
  - exact DynSample.order_walks.
  - vm_compute. reflexivity.
  - vm_compute. reflexivity.
  - reflexivity.
  - discriminate.
  - intros _. vm_compute. reflexivity.
  - reflexivity.
  - vm_compute. reflexivity.
  - discriminate.
  - reflexivity.
  - reflexivity.
  - reflexivity.
  - reflexivity.
  - reflexivity.
  - vm_compute. reflexivity.
  - exists cl. split; [exact Hcl|]. apply (Hcall _ [x07; x07]); [reflexivity|reflexivity|reflexivity|vm_compute; reflexivity].
Defined.
