(* ===== verification/ServiceLife.v ===== *)
(** * ServiceLife: starting, stopping and closing services (service.go,
    eventlistener.go, cancel.go, run.go)

    A service owns the consumer of its requests and, once asked for, an event
    listener with a consumer of its own; the bus owns one cancel listener for all
    services. Starting a service starts them in order. What a start needs of the
    broker, its attachments, are answers of the world: [None] is success. The
    calls on one service are taken one after the other; what runs inside a
    consumer is [ConsumerLife]'s. *)
From S2P Require Import Prelude GoStrings Errors.

(** ** Consumers *)

(** [consumer], as its owners see it: whether it wants deliveries, whether it is
    closed, and how often it is enrolled in restoration. *)
Record consumer := { consuming : bool; closed : bool; enrolled : nat }.

Definition newConsumer : consumer := {| consuming := false; closed := false; enrolled := 0 |}.

(** [consumer.start] *)
Definition start (attach : option err) (c : consumer) : consumer * option err :=
  if closed c then (c, Some (ESentinel ErrClosed))
  else match attach with
  | Some e => ({| consuming := false; closed := closed c; enrolled := enrolled c |}, Some e)
  | None => ({| consuming := true; closed := closed c; enrolled := S (enrolled c) |}, None)
  end.

(** [consumer.stopConsuming] *)
Definition stopConsuming (c : consumer) : consumer := {| consuming := false; closed := closed c; enrolled := enrolled c |}.

(** [consumer.close]: only the registration it has last is removed. *)
Definition close (c : consumer) : consumer :=
  if closed c then stopConsuming c
  else {| consuming := false; closed := true; enrolled := pred (enrolled c) |}.

(** ** Event listeners *)

Record listener := { lqueue : string; lconsumer : consumer; lstarted : bool; llazy : bool; standalone : bool }.

Definition newEventListener (queue : string) : listener :=
  {| lqueue := queue; lconsumer := newConsumer; lstarted := false; llazy := false; standalone := false |}.

Definition with_consumer (c : consumer) (st : bool) (l : listener) : listener :=
  {| lqueue := lqueue l; lconsumer := c; lstarted := st; llazy := llazy l; standalone := standalone l |}.

(** The bus: the services and standalone listeners it stops at shutdown, and
    whether it has its cancel listener. *)
Record bus := { services : list string; listeners : list string; cancelSub : bool }.

(** [EventListener.Start] *)
Definition Listener_Start (attach : option err) (l : listener) (b : bus) : listener * bus * option err :=
  if lstarted l then (l, b, None)
  else match start attach (lconsumer l) with
  | (c, Some e) =>
      (with_consumer c false l, b, Some (EWrap ("protobus: starting event listener " +:+ lqueue l +:+ ": " +:+ error_text e) e))
  | (c, None) =>
      (with_consumer c true l,
       if standalone l then {| services := services b; listeners := listeners b ++ [lqueue l]; cancelSub := cancelSub b |} else b,
       None)
  end.

(** [EventListener.StopConsuming], [EventListener.Close] *)
Definition Listener_StopConsuming (l : listener) : listener := with_consumer (stopConsuming (lconsumer l)) (lstarted l) l.
Definition Listener_Close (l : listener) : listener := with_consumer (close (lconsumer l)) (lstarted l) l.

(** [ensureCancelListener]: one for the whole bus; a failure lets a later start
    try again. *)
Definition ensureCancelListener (attach : option err) (b : bus) : bus * option err :=
  if cancelSub b then (b, None)
  else match attach with
  | Some e => (b, Some e)
  | None => ({| services := services b; listeners := listeners b; cancelSub := true |}, None)
  end.

(** ** Services *)

Record service := { sname : string; requests : consumer; events : option listener; started : bool }.

Definition with_parts (r : consumer) (e : option listener) (st : bool) (s : service) : service :=
  {| sname := sname s; requests := r; events := e; started := st |}.

(** What the world answers a start: the attachments of the requests' consumer,
    of the listener's and of the cancel listener. *)
Record answers := { on_requests : option err; on_events : option err; on_cancel : option err }.

(** [Service.Start] *)
Definition Start (w : answers) (s : service) (b : bus) : service * bus * option err :=
  if started s then (s, b, None)
  else match start (on_requests w) (requests s) with
  | (r, Some e) => (with_parts r (events s) false s, b, Some (EWrap ("protobus: starting " +:+ sname s +:+ ": " +:+ error_text e) e))
  | (r, None) =>
      let '(ev, b1, ee) :=
        match events s with
        | None => (None, b, None)
        | Some l => let '(l', b', e) := Listener_Start (on_events w) l b in (Some l', b', e)
        end in
      match ee with
      | Some e => (with_parts (stopConsuming r) ev false s, b1, Some e)
      | None =>
          match ensureCancelListener (on_cancel w) b1 with
          | (b2, Some e) => (with_parts (stopConsuming r) (Listener_StopConsuming <$> ev) false s, b2, Some e)
          | (b2, None) =>
              (with_parts r ev true s,
               {| services := services b2 ++ [sname s]; listeners := listeners b2; cancelSub := cancelSub b2 |}, None)
          end
      end
  end.

(** [Service.StopConsuming], [Service.Close] *)
Definition StopConsuming (s : service) : service :=
  with_parts (stopConsuming (requests s)) (Listener_StopConsuming <$> events s) (started s) s.

Definition Close (s : service) : service := with_parts (close (requests s)) (Listener_Close <$> events s) (started s) s.

(** [Service.Events]: a listener asked for after the service started is lazy. *)
Definition Events (s : service) : service :=
  match events s with
  | Some _ => s
  | None =>
      let l := newEventListener (sname s +:+ ".Events") in
      with_parts (requests s)
        (Some {| lqueue := lqueue l; lconsumer := lconsumer l; lstarted := lstarted l; llazy := started s; standalone := false |})
        (started s) s
  end.

(** A subscription on the service's listener: the start it may cause. *)
Definition subscribe (attach : option err) (s : service) (b : bus) : service * bus * option err :=
  match events s with
  | None => (s, b, None)
  | Some l =>
      if llazy l && negb (lstarted l) then
        let '(l', b', e) := Listener_Start attach l b in (with_parts (requests s) (Some l') (started s) s, b', e)
      else (s, b, None)
  end.

(** ** Run *)

(** Starting the services of [Run]: the first failure closes the bus. *)
Fixpoint start_services (ws : list answers) (ss : list service) (b : bus) : list service * bus * option err :=
  match ws, ss with
  | w :: ws', s :: ss' =>
      match Start w s b with
      | (s', b', Some e) => (s' :: ss', b', Some e)
      | (s', b', None) => let '(r, b'', e) := start_services ws' ss' b' in (s' :: r, b'', e)
      end
  | _, _ => (ss, b, None)
  end.

(** How a running bus ends: by the context or a signal, or by itself. *)
Inductive ending := Signalled | BusDone (e : option err).

(** What [Run] does with the bus, and returns: [shutdown] is [Shutdown]'s
    outcome. *)
Inductive run_end := RanClose | RanShutdown.

Definition Run (ws : list answers) (ss : list service) (b : bus) (how : ending) (shutdown : option err)
    : list service * bus * run_end * option err :=
  match start_services ws ss b with
  | (ss', b', Some e) => (ss', b', RanClose, Some e)
  | (ss', b', None) =>
      match how with
      | BusDone e => (ss', b', RanClose, e)
      | Signalled => (ss', b', RanShutdown, shutdown)
      end
  end.

(** ** Properties *)

(** What the application may do with a service, and other services of the bus. *)
Inductive step : service * bus -> service * bus -> Prop :=
| do_start w s b s' b' e : Start w s b = (s', b', e) -> step (s, b) (s', b')
| do_events s b : step (s, b) (Events s, b)
| do_subscribe a s b s' b' e : subscribe a s b = (s', b', e) -> step (s, b) (s', b')
| do_stop s b : step (s, b) (StopConsuming s, b)
| do_close s b : step (s, b) (Close s, b)
| do_others s b ss ls c : step (s, b) (s, {| services := services b ++ ss; listeners := ls; cancelSub := c |}).

Definition init (name : string) (b : bus) : service * bus :=
  ({| sname := name; requests := newConsumer; events := None; started := false |}, b).

(** Something of the service takes deliveries. *)
Definition takes (s : service) : bool :=
  consuming (requests s) || match events s with Some l => consuming (lconsumer l) | None => false end.

(** Everything of it does. *)
Definition serves (s : service) : bool :=
  consuming (requests s) && match events s with Some l => consuming (lconsumer l) | None => true end.

(** A service that was not started, or whose failed start left no trace. *)
Definition fresh (s : service) : Prop :=
  started s = false /\ consuming (requests s) = false /\ closed (requests s) = false /\
  forall l, events s = Some l -> lstarted l = false /\ consuming (lconsumer l) = false /\ closed (lconsumer l) = false.

(** Only a started service takes deliveries, and shutdown knows it; a listener
    is lazy only in a started service. *)
Record known (name : string) (s : service) (b : bus) : Prop := {
  known_name : sname s = name;
  known_takes : takes s = true -> started s = true;
  known_listed : started s = true -> name ∈ services b;
  known_lazy : forall l, events s = Some l -> llazy l = true -> started s = true;
  known_owned : forall l, events s = Some l -> standalone l = false
}.

Lemma start_spec a c c' e :
  start a c = (c', e) -> closed c' = closed c /\ (e = None <-> closed c = false /\ a = None) /\
  (e = None -> consuming c' = true) /\ (e <> None -> closed c = false -> consuming c' = false) /\ (closed c = true -> c' = c).
Proof.
  unfold start. destruct (closed c) eqn:E; [intros [= <- <-]; naive_solver|]. destruct a; intros [= <- <-]; simpl; naive_solver.
Qed.

Lemma Listener_Start_spec a l b l' b' e :
  Listener_Start a l b = (l', b', e) -> standalone l = false ->
  b' = b /\ lqueue l' = lqueue l /\ llazy l' = llazy l /\ standalone l' = false /\ closed (lconsumer l') = closed (lconsumer l) /\
  (lstarted l = true -> l' = l /\ e = None) /\
  (lstarted l = false -> closed (lconsumer l) = false ->
     (e = None <-> a = None) /\ lstarted l' = bool_decide (e = None) /\ consuming (lconsumer l') = bool_decide (e = None)).
Proof.
  unfold Listener_Start, start. destruct (lstarted l) eqn:El; [intros [= <- <- <-] ?; naive_solver|].
  destruct (closed (lconsumer l)) eqn:Ec; [intros [= <- <- <-] ?; split_and!; simpl; naive_solver|].
  destruct a as [e0|]; intros [= <- <- <-] Hs; rewrite ?Hs; split_and!; simpl; try done; naive_solver.
Qed.

(** The stages of a start. *)
Lemma Start_cases w s b s' b' e :
  Start w s b = (s', b', e) ->
  started s = true /\ s' = s /\ b' = b /\ e = None \/
  started s = false /\
  ((exists r e0, start (on_requests w) (requests s) = (r, Some e0) /\ s' = with_parts r (events s) false s /\ b' = b /\ e <> None) \/
   exists r ev b1 ee, start (on_requests w) (requests s) = (r, None) /\
     match events s with
     | None => ev = None /\ b1 = b /\ ee = None
     | Some l => exists l', ev = Some l' /\ Listener_Start (on_events w) l b = (l', b1, ee)
     end /\
     (ee <> None /\ s' = with_parts (stopConsuming r) ev false s /\ b' = b1 /\ e = ee \/
      ee = None /\ (exists e0, cancelSub b1 = false /\ on_cancel w = Some e0 /\
                      s' = with_parts (stopConsuming r) (Listener_StopConsuming <$> ev) false s /\ b' = b1 /\ e = Some e0) \/
      ee = None /\ (cancelSub b1 = true \/ on_cancel w = None) /\ s' = with_parts r ev true s /\
        b' = {| services := services b1 ++ [sname s]; listeners := listeners b1; cancelSub := true |} /\ e = None)).
Proof.
  unfold Start. destruct (started s); [intros [= <- <- <-]; by left|]. intros H. right. split; [done|].
  destruct (start (on_requests w) (requests s)) as [r [e0|]]; [left; injection H as <- <- <-; by eauto 10|]. right.
  destruct (match events s with None => _ | Some l => _ end) as [[ev b1] ee] eqn:Eev.
  exists r, ev, b1, ee. split; [done|]. split.
  { destruct (events s) as [l|]; [|by injection Eev as <- <- <-].
    destruct (Listener_Start (on_events w) l b) as [[l' b0] e0]. injection Eev as <- <- <-. by exists l'. }
  destruct ee as [e0|]; [injection H as <- <- <-; by left|]. unfold ensureCancelListener in H.
  destruct (cancelSub b1) eqn:Ec; [injection H as <- <- <-; right; right; rewrite ?Ec; by auto|].
  destruct (on_cancel w) as [e0|] eqn:Eo; injection H as <- <- <-; right; [left|right]; eauto 10.
Qed.

Lemma service_known_Start name w s b s' b' e : Start w s b = (s', b', e) -> known name s b -> known name s' b'.
Proof.
  intros Hs [Hn Ht Hl Hz Ho].
  apply Start_cases in Hs as [(Hst & -> & -> & _)|(Hst & [(r & e0 & Hr & -> & -> & _)|(r & ev & b1 & ee & Hr & Hev & Hc)])]; [done| |].
  - rewrite Hst in *. apply start_spec in Hr as (_ & _ & _ & Hr & Hc). split; simpl; try done.
    intros Htk. apply Ht. unfold takes in *. simpl in Htk. apply orb_true_iff in Htk as [Htk|Htk]; [|by rewrite Htk, orb_true_r].
    destruct (closed (requests s)); [rewrite Hc in Htk by done; by rewrite Htk|]. by rewrite Hr in Htk.
  - assert (b1 = b /\ forall l, ev = Some l -> standalone l = false /\ (llazy l = true -> started s = true) /\
      (ee <> None -> consuming (lconsumer l) = false)) as [-> Hevs].
    { destruct (events s) as [l|] eqn:Ee; [|by destruct Hev as (-> & -> & _)].
      destruct Hev as (l' & -> & HL). assert (consuming (lconsumer l) = false) as Hcl.
      { apply not_true_is_false. intros Hcl. rewrite Ht in Hst; [done|]. unfold takes. by rewrite Ee, Hcl, orb_true_r. }
      pose proof (Listener_Start_spec _ _ _ _ _ _ HL (Ho l eq_refl)) as (-> & _ & Hlz & Hsa & _).
      split; [done|]. intros l0 [= <-]. split; [done|]. split; [rewrite Hlz; by apply Hz|]. intros Hne.
      unfold Listener_Start in HL. destruct (lstarted l); [naive_solver|]. unfold start in HL.
      destruct (closed (lconsumer l)); [by injection HL as <- _|]. destruct (on_events w); [by injection HL as <- _|]. naive_solver. }
    destruct Hc as [(Hne & -> & -> & _)|[(_ & e0 & _ & _ & -> & -> & _)|(_ & _ & -> & -> & _)]].
    + split; simpl; try done; [|by intros l Hl0 Hlz; apply Hevs in Hl0 as (_ & Hz' & _); rewrite Hst in Hz'; auto|by intros l [? _]%Hevs].
      unfold takes. simpl. destruct ev as [l|]; [|done]. by destruct (Hevs l eq_refl) as (_ & _ & ->).
    + split; simpl; try done; [by unfold takes; simpl; destruct ev|..]; intros l (l0 & Hl0 & ->)%fmap_Some; apply Hevs in Hl0 as (? & Hz' & _); simpl; [|done].
      intros Hlz. rewrite Hst in Hz'. auto.
    + split; simpl; try done; [by intros _; rewrite <-Hn; set_solver|by intros l [? _]%Hevs].
Qed.

Lemma close_consuming c : consuming (close c) = false.
Proof. unfold close. by destruct (closed c). Qed.

Lemma service_known_step name x y : step x y -> known name x.1 x.2 -> known name y.1 y.2.
Proof.
  intros H. destruct H as [w s b s' b' e Hs|s b|a s b s' b' e Hs|s b|s b|s b ss ls c]; cbn [fst snd]; intros K;
    [by eapply service_known_Start|..]; pose proof K as [Hn Ht Hl Hz Ho].
  - unfold Events. destruct (events s) eqn:Ee; [done|]. split; simpl; try done.
    + unfold takes in *. simpl. rewrite Ee in Ht. rewrite orb_false_r in *. done.
    + by intros l [= <-].
    + by intros l [= <-].
  - unfold subscribe in Hs. destruct (events s) as [l|] eqn:Ee; [|by injection Hs as <- <- _].
    destruct (llazy l) eqn:Elz; [|by injection Hs as <- <- _]. destruct (lstarted l) eqn:El; [by injection Hs as <- <- _|].
    cbn [andb negb] in Hs. destruct (Listener_Start a l b) as [[l' b0] e0] eqn:HL. injection Hs as <- <- _.
    pose proof (Listener_Start_spec _ _ _ _ _ _ HL (Ho l eq_refl)) as (-> & _ & Hlz & Hsa & _). pose proof (Hz l eq_refl Elz) as Hst.
    split; simpl; try done; by intros l0 [= <-].
  - split; simpl; try done; [by unfold takes; simpl; destruct (events s)|..]; intros l (l0 & Hl0 & ->)%fmap_Some; simpl; [by apply Hz|by apply Ho].
  - split; simpl; try done.
    + unfold takes. simpl. rewrite close_consuming. destruct (events s); simpl; [by rewrite close_consuming|done].
    + intros l (l0 & Hl0 & ->)%fmap_Some. simpl. by apply Hz.
    + intros l (l0 & Hl0 & ->)%fmap_Some. simpl. by apply Ho.
  - split; simpl; try done. intros Hst. apply elem_of_app. left. auto.
Qed.

Lemma service_known_reachable name b x : rtc step (init name b) x -> known name x.1 x.2.
Proof.
  intros H. assert (known name (init name b).1 (init name b).2) as Hi by (by split).
  induction H as [|x y z Hxy _ IH]; [done|]. apply IH. by eapply service_known_step.
Qed.

(** A start of a fresh service. *)
Lemma fresh_Start w s b s' b' e :
  fresh s -> (forall l, events s = Some l -> standalone l = false) -> Start w s b = (s', b', e) ->
  sname s' = sname s /\
  match e with
  | None => started s' = true /\ serves s' = true /\ services b' = services b ++ [sname s] /\ cancelSub b' = true
  | Some _ => started s' = false /\ takes s' = false /\ b' = b
  end.
Proof.
  intros (Hst & Hcr & Hcl & Hev) Ho Hs.
  apply Start_cases in Hs as [(Hst' & _)|(_ & [(r & e0 & Hr & -> & -> & He)|(r & ev & b1 & ee & Hr & Hevs & Hc)])]; [congruence| |].
  - destruct e as [e|]; [|done]. apply start_spec in Hr as (_ & _ & _ & Hr & _). split_and!; simpl; try done.
    unfold takes. simpl. rewrite Hr by done. destruct (events s) as [l|]; [|done]. by apply Hev.
  - apply start_spec in Hr as (_ & _ & Hr & _ & _). specialize (Hr eq_refl).
    assert (b1 = b /\ match ev with Some l => consuming (lconsumer l) = bool_decide (ee = None) | None => ee = None end) as [-> Hcon].
    { destruct (events s) as [l|]; [|by destruct Hevs as (-> & -> & ->)]. destruct Hevs as (l' & -> & HL).
      destruct (Hev l eq_refl) as (Hls & _ & Hlc). pose proof (Listener_Start_spec _ _ _ _ _ _ HL (Ho l eq_refl)) as (-> & _ & _ & _ & _ & _ & H).
      destruct (H Hls Hlc) as (_ & _ & ->). done. }
    destruct Hc as [(Hne & -> & -> & ->)|[(-> & e0 & _ & _ & -> & -> & ->)|(-> & _ & -> & -> & ->)]].
    + destruct ee as [e0|]; [|done]. split_and!; simpl; try done. unfold takes. simpl. by destruct ev.
    + split_and!; simpl; try done. unfold takes. simpl. by destruct ev.
    + split_and!; simpl; try done. unfold serves. simpl. rewrite Hr. simpl. by destruct ev.
Qed.

(** When a failed start leaves no trace. *)
Lemma failed_Start_fresh w s b s' b' e :
  fresh s -> (forall l, events s = Some l -> standalone l = false) -> Start w s b = (s', b', Some e) ->
  (fresh s' <-> ~ (is_Some (events s) /\ on_requests w = None /\ on_events w = None)) /\
  (is_Some (events s) -> on_requests w = None -> on_events w = None ->
   exists l, events s' = Some l /\ lstarted l = true /\ consuming (lconsumer l) = false).
Proof.
  intros (Hst & Hcr & Hcl & Hev) Ho Hs.
  apply Start_cases in Hs as [(Hst' & _)|(_ & [(r & e0 & Hr & -> & -> & He)|(r & ev & b1 & ee & Hr & Hevs & Hc)])]; [congruence| |].
  - apply start_spec in Hr as (Hrc & Ha & _ & Hr & _).
    assert (on_requests w <> None) as Hw by (intros E; destruct Ha as [_ Ha]; by specialize (Ha (conj Hcl E))).
    split; [|by intros _ ?]. split; [by intros _ (_ & ? & _)|]. intros _. unfold fresh. simpl. rewrite Hrc. auto.
  - apply start_spec in Hr as (Hrc & Ha & _ & _ & _). assert (on_requests w = None) as Hw by tauto.
    destruct (events s) as [l|] eqn:Ee.
    + destruct Hevs as (l' & -> & HL). destruct (Hev l eq_refl) as (Hls & _ & Hlc).
      pose proof (Listener_Start_spec _ _ _ _ _ _ HL (Ho l eq_refl)) as (-> & _ & _ & _ & Hcc & _ & H). destruct (H Hls Hlc) as (Hee & Hl1 & Hl2).
      destruct Hc as [(Hne & -> & -> & <-)|[(-> & e0 & _ & _ & -> & -> & _)|(-> & _ & _ & _ & [=])]].
      * split; [|by intros _ _ Hn; apply Hee in Hn]. split; [by intros _ (_ & _ & Hn%Hee)|]. intros _.
        unfold fresh. simpl. rewrite Hrc. split_and!; try done. intros l0 [= <-]. rewrite Hl1, Hl2, Hcc. by rewrite bool_decide_false.
      * split; [|by intros _ _ _; eexists; split; [done|]; simpl; rewrite Hl1].
        split; [|by intros []; naive_solver]. intros (_ & _ & _ & Hf). specialize (Hf _ eq_refl) as [Hf _]. simpl in Hf. rewrite Hl1 in Hf.
        by rewrite bool_decide_true in Hf.
    + destruct Hevs as (-> & -> & ->). split; [|by intros [? [=]]]. split; [by intros _ ([? [=]] & _)|]. intros _.
      destruct Hc as [(Hne & _)|[(_ & e0 & _ & _ & -> & -> & _)|(_ & _ & _ & _ & [=])]]; [done|]. unfold fresh. simpl. by rewrite Hrc.
Qed.


(** The listener lost by a start that failed at the cancel listener. *)
Example retried_start_loses_events :
  let s := Events {| sname := "Calc.Service"; requests := newConsumer; events := None; started := false |} in
  let b := {| services := []; listeners := []; cancelSub := false |} in
  let failing := {| on_requests := None; on_events := None; on_cancel := Some (ESentinel ErrNotReady) |} in
  let working := {| on_requests := None; on_events := None; on_cancel := None |} in
  let '(s1, b1, e1) := Start failing s b in
  let '(s2, b2, e2) := Start working s1 b1 in
  is_Some e1 /\ e2 = None /\ started s2 = true /\ consuming (requests s2) = true /\
  (consuming ∘ lconsumer) <$> events s2 = Some false /\
  (consuming ∘ lconsumer) <$> events (fst (fst (Start working s b))) = Some true.
Proof. vm_compute. split; [by eexists|done]. Qed.
