(* ===== verification/Uuid.v ===== *)
(** * Uuid: random identifiers (internal/uuid)

    [New] of sixteen random bytes: the version and variant bits are set, and the
    bytes are written in hexadecimal into an array of 36 characters. *)
From S2P Require Import Prelude GoStrings.

Local Open Scope Z_scope.

(** [hex.Encode]: two lower-case digits per byte. *)
Definition hextable : string := "0123456789abcdef".

Definition hex_digit (n : Z) : ascii := default "0"%char (String.list_ascii_of_string hextable !! Z.to_nat n).

Definition Encode (src : list Z) : list ascii := src ≫= fun v => [hex_digit (Z.shiftr v 4); hex_digit (Z.land v 15)].

(** [copy(dst[i:], src)] within bounds. *)
Definition write (i : nat) (src dst : list ascii) : list ascii := list_inserts i src dst.

Definition slice (i j : nat) (l : list Z) : list Z := take (j - i) (drop i l).

(** The bits every version 4 identifier has. *)
Definition stamp (b : list Z) : list Z :=
  alter (fun v => Z.lor (Z.land v 63) 128) 8%nat (alter (fun v => Z.lor (Z.land v 15) 64) 6%nat b).

(** [New], of what [rand.Read] put in [b]. *)
Definition New (b : list Z) : string :=
  let b := stamp b in
  let out := replicate 36 "000"%char in
  let out := write 0 (Encode (slice 0 4 b)) out in
  let out := write 8 ["-"%char] out in
  let out := write 9 (Encode (slice 4 6 b)) out in
  let out := write 13 ["-"%char] out in
  let out := write 14 (Encode (slice 6 8 b)) out in
  let out := write 18 ["-"%char] out in
  let out := write 19 (Encode (slice 8 10 b)) out in
  let out := write 23 ["-"%char] out in
  let out := write 24 (Encode (slice 10 16 b)) out in
  String.string_of_list_ascii out.

(** ** The canonical form *)

Definition byte_ok (v : Z) : bool := (0 <=? v) && (v <? 256).

Definition is_hex (c : ascii) : bool := bool_decide (c ∈ String.list_ascii_of_string hextable).

(** The position of a digit, and reading an identifier back. *)
Definition hex_value (c : ascii) : Z :=
  match list_find (c =.) (String.list_ascii_of_string hextable) with Some (i, _) => Z.of_nat i | None => -1 end.

Fixpoint Decode (l : list ascii) : list Z :=
  match l with
  | h :: d :: l' => 16 * hex_value h + hex_value d :: Decode l'
  | _ => []
  end.

Definition parse (s : string) : list Z :=
  Decode (List.filter (fun c => negb (Ascii.eqb c "-"%char)) (String.list_ascii_of_string s)).

(** A property of all bytes, by trying them. *)
Lemma all_bytes (f : Z -> bool) : forallb f (Z.of_nat <$> seq 0 256) = true -> forall v, byte_ok v = true -> f v = true.
Proof.
  rewrite forallb_forall. intros H v [H0 H1]%andb_true_iff. apply H, list_elem_of_In, list_elem_of_fmap. exists (Z.to_nat v).
  split; [lia|]. apply elem_of_seq. lia.
Qed.

Definition hi (v : Z) : ascii := hex_digit (Z.shiftr v 4).
Definition lo (v : Z) : ascii := hex_digit (Z.land v 15).

Lemma byte_digits v : byte_ok v = true -> is_hex (hi v) = true /\ is_hex (lo v) = true /\ hi v <> "-"%char /\ lo v <> "-"%char /\
  16 * hex_value (hi v) + hex_value (lo v) = v.
Proof.
  pose (f := fun v => is_hex (hi v) && is_hex (lo v) && negb (Ascii.eqb (hi v) "-"%char) && negb (Ascii.eqb (lo v) "-"%char) &&
    (16 * hex_value (hi v) + hex_value (lo v) =? v)).
  intros Hv. assert (f v = true) as H by (apply all_bytes; [vm_compute; reflexivity|done]). subst f. cbv beta in H.
  rewrite !andb_true_iff, !negb_true_iff in H. destruct H as ((((H1 & H2) & H3) & H4) & H5).
  split_and!; [done|done|by apply Ascii.eqb_neq|by apply Ascii.eqb_neq|by apply Z.eqb_eq].
Qed.

Lemma version_bits v : byte_ok v = true ->
  byte_ok (Z.lor (Z.land v 15) 64) = true /\ hi (Z.lor (Z.land v 15) 64) = "4"%char /\ lo (Z.lor (Z.land v 15) 64) = lo v.
Proof.
  pose (f := fun v => byte_ok (Z.lor (Z.land v 15) 64) && Ascii.eqb (hi (Z.lor (Z.land v 15) 64)) "4"%char &&
    Ascii.eqb (lo (Z.lor (Z.land v 15) 64)) (lo v)).
  intros Hv. assert (f v = true) as H by (apply all_bytes; [vm_compute; reflexivity|done]). subst f. cbv beta in H.
  rewrite !andb_true_iff in H. destruct H as ((H1 & H2) & H3). split_and!; [done|by apply Ascii.eqb_eq|by apply Ascii.eqb_eq].
Qed.

Lemma variant_bits v : byte_ok v = true ->
  byte_ok (Z.lor (Z.land v 63) 128) = true /\ bool_decide (hi (Z.lor (Z.land v 63) 128) ∈ ["8"; "9"; "a"; "b"]%char) = true.
Proof.
  pose (f := fun v => byte_ok (Z.lor (Z.land v 63) 128) && bool_decide (hi (Z.lor (Z.land v 63) 128) ∈ ["8"; "9"; "a"; "b"]%char)).
  intros Hv. assert (f v = true) as H by (apply all_bytes; [vm_compute; reflexivity|done]). subst f. cbv beta in H.
  by apply andb_true_iff in H.
Qed.

Definition is_dash (i : nat) : bool := existsb (Nat.eqb i) [8; 13; 18; 23]%nat.

Definition canonical (s : string) : Prop :=
  let l := String.list_ascii_of_string s in
  length l = 36%nat /\
  (forall i c, l !! i = Some c -> if is_dash i then c = "-"%char else is_hex c = true) /\
  l !! 14%nat = Some "4"%char /\
  exists c, l !! 19%nat = Some c /\ c ∈ ["8"; "9"; "a"; "b"]%char.

(** ** Lemmas *)

Lemma Encode_ok l : forallb byte_ok l = true -> Forall (fun c => is_hex c = true /\ c <> "-"%char) (Encode l).
Proof.
  induction l as [|v l IH]; [constructor|]. cbn [forallb]. intros [Hv Hl]%andb_true_iff. apply byte_digits in Hv as (? & ? & ? & ? & _).
  unfold Encode. rewrite bind_cons. repeat constructor; try done. by apply IH.
Qed.

Lemma Decode_Encode l : forallb byte_ok l = true -> Decode (Encode l) = l.
Proof.
  induction l as [|v l IH]; [done|]. cbn [forallb]. intros [Hv Hl]%andb_true_iff. apply byte_digits in Hv as (_ & _ & _ & _ & Hv).
  unfold Encode. rewrite bind_cons. cbn [app Decode]. fold (Encode l). rewrite IH by done. unfold hi, lo in Hv. by rewrite Hv.
Qed.

Lemma Encode_app a b : Encode (a ++ b) = Encode a ++ Encode b.
Proof. apply bind_app. Qed.

Lemma filter_dashes l : Forall (fun c => is_hex c = true /\ c <> "-"%char) l -> List.filter (fun c => negb (Ascii.eqb c "-"%char)) l = l.
Proof.
  induction 1 as [|c l [_ Hc] _ IH]; [done|]. cbn [List.filter]. apply Ascii.eqb_neq in Hc. by rewrite Hc, IH.
Qed.

Lemma bytes_Forall l : forallb byte_ok l = true <-> Forall (fun v => byte_ok v = true) l.
Proof. rewrite forallb_forall, Forall_forall. by setoid_rewrite list_elem_of_In. Qed.

Lemma stamp_ok b : forallb byte_ok b = true -> forallb byte_ok (stamp b) = true.
Proof.
  rewrite !bytes_Forall. intros H. apply Forall_alter; [|intros v _ Hv; by apply variant_bits].
  apply Forall_alter; [done|]. intros v _ Hv. by apply version_bits.
Qed.

(** The five groups. *)
Lemma New_groups b : length b = 16%nat ->
  String.list_ascii_of_string (New b) =
    Encode (slice 0 4 (stamp b)) ++ "-"%char :: Encode (slice 4 6 (stamp b)) ++ "-"%char :: Encode (slice 6 8 (stamp b)) ++
    "-"%char :: Encode (slice 8 10 (stamp b)) ++ "-"%char :: Encode (slice 10 16 (stamp b)).
Proof.
  intros Hb. do 16 (destruct b as [|? b]; [done|]). destruct b; [|done]. unfold New. rewrite String.list_ascii_of_string_of_list_ascii.
  reflexivity.
Qed.

Lemma slices b : length b = 16%nat -> slice 0 4 b ++ slice 4 6 b ++ slice 6 8 b ++ slice 8 10 b ++ slice 10 16 b = b.
Proof. intros Hb. do 16 (destruct b as [|? b]; [done|]). by destruct b. Qed.

Lemma stamp_length b : length (stamp b) = length b.
Proof. unfold stamp. by rewrite !length_alter. Qed.

Lemma parse_New b : length b = 16%nat -> forallb byte_ok b = true -> parse (New b) = stamp b.
Proof.
  intros Hl Hb. unfold parse. rewrite New_groups by done. pose proof (stamp_ok b Hb) as Hs. rewrite <-stamp_length in Hl.
  set (x := stamp b) in *. clearbody x. rewrite <-(slices x Hl) in Hs. rewrite !forallb_app, !andb_true_iff in Hs.
  destruct Hs as (H1 & H2 & H3 & H4 & H5).
  repeat (rewrite List.filter_app; cbn [List.filter Ascii.eqb Bool.eqb negb]).
  rewrite !filter_dashes by (by apply Encode_ok).
  rewrite <-!Encode_app, slices by done. apply Decode_Encode. rewrite <-(slices x Hl). by rewrite !forallb_app, H1, H2, H3, H4, H5.
Qed.

Lemma New_canonical b : length b = 16%nat -> forallb byte_ok b = true -> canonical (New b).
Proof.
  intros Hl Hb. unfold canonical. cbv zeta. rewrite New_groups by done.
  pose proof (stamp_ok b Hb) as Hs. assert (exists v w, byte_ok v = true /\ byte_ok w = true /\
    stamp b !! 6%nat = Some (Z.lor (Z.land v 15) 64) /\ stamp b !! 8%nat = Some (Z.lor (Z.land w 63) 128)) as (v & w & Hv & Hw & H6 & H8).
  { do 16 (destruct b as [|? b]; [done|]). destruct b; [|done]. cbn [forallb] in Hb. rewrite !andb_true_iff in Hb.
    eexists _, _. split_and!; [| |reflexivity|reflexivity]; tauto. }
  rewrite <-stamp_length in Hl. set (x := stamp b) in *. clearbody x. clear Hb.
  do 16 (destruct x as [|? x]; [done|]). destruct x; [|done]. cbn [lookup list_lookup] in H6, H8. injection H6 as ->. injection H8 as ->.
  cbn [forallb] in Hs. rewrite !andb_true_iff in Hs. decompose [and] Hs.
  split; [reflexivity|]. split_and!.
  - intros i c Hc. do 36 (destruct i as [|i];
      [cbn in Hc; injection Hc as <-; cbn [is_dash existsb Nat.eqb orb]; first [reflexivity|by apply byte_digits]|]). done.
  - change (Some (hi (Z.lor (Z.land v 15) 64)) = Some "4"%char). f_equal. by apply version_bits.
  - exists (hi (Z.lor (Z.land w 63) 128)). split; [reflexivity|]. by apply variant_bits in Hw as [_ Hw%bool_decide_eq_true].
Qed.



Example uuid_text : New (Z.of_nat <$> seq 240 16) = "f0f1f2f3-f4f5-46f7-b8f9-fafbfcfdfeff".
Proof. reflexivity. Qed.
