(* ===== verification/Transport.v ===== *)
(** * Transport: opening a connection (internal/transport/transport.go)

    [Dial] runs the AMQP client's own dial in a goroutine and waits for it or for
    the context. It is a step relation over the caller, that goroutine and the
    one that disposes of a connection nobody waits for any more. What the client
    library answers, and when the context ends, are the environment's. *)
From S2P Require Import Prelude GoStrings Errors.

Local Open Scope Z_scope.

(** ** The socket *)

Definition handshakeTimeout : Z := 30 * Second.

(** The deadline set on the socket: the handshake's, or the context's when that
    is sooner. *)
Definition handshake_deadline (now : Z) (ctx : option Z) : Z :=
  let deadline := now + handshakeTimeout in
  match ctx with Some dl => if dl <? deadline then dl else deadline | None => deadline end.

(** What the default [cfg.Dial] does to the sockets. *)
Inductive socket_action := SetDeadline (conn : nat) (deadline : Z) | CloseSocket (conn : nat).

Definition socket_dial (now : Z) (ctx : option Z) (dialled : nat + err) (set : option err) : list socket_action * (nat + err) :=
  match dialled with
  | inr e => ([], inr e)
  | inl conn =>
      let act := SetDeadline conn (handshake_deadline now ctx) in
      match set with
      | Some e => ([act; CloseSocket conn], inr e)
      | None => ([act], inl conn)
      end
  end.

(** A configuration that brings its own dial function keeps it. *)
Definition dial_function {F : Type} (own : option F) (default_dial : F) : F := default default_dial own.

(** The handshake is bounded, and never beyond the context. *)
Lemma socket_bounded now ctx conn set acts r :
  socket_dial now ctx (inl conn) set = (acts, r) ->
  exists deadline, head acts = Some (SetDeadline conn deadline) /\ deadline <= now + handshakeTimeout /\
    (forall dl, ctx = Some dl -> deadline <= dl) /\ (deadline = now + handshakeTimeout \/ ctx = Some deadline) /\
    match r with inl c => c = conn /\ set = None | inr e => set = Some e /\ last acts = Some (CloseSocket conn) end.
Proof.
  unfold socket_dial. intros H. exists (handshake_deadline now ctx). unfold handshake_deadline.
  destruct set as [e|]; injection H as <- <-; (split; [done|]); destruct ctx as [dl|];
    try (destruct (Z.ltb_spec dl (now + handshakeTimeout))); split_and!; try done; try lia; try naive_solver lia; auto.
Qed.

(** ** Dial *)

(** What [amqp.DialConfig] returned: the connection, which may come with an
    error, and the error. *)
Record result := { rconn : option nat; rerr : option err }.

(** Where the three goroutines stand: the caller in its select or past it, the
    dialler, and the disposer. *)
Inductive caller_pc := Selecting | Returned (r : nat + err).
Inductive disposer_pc := NotStarted | Disposing | Disposed.

Record dial := {
  caller : caller_pc;
  (* what the dialler's call returned, once it has, and whether it is still in
     the one-place channel [done] *)
  answer : option result;
  queued : bool;
  disposer : disposer_pc;
  (* the context's error, once it has ended *)
  ctx_ended : option err;
  (* the connection of the answer is open *)
  is_open : bool
}.

Definition begin_dial : dial :=
  {| caller := Selecting; answer := None; queued := false; disposer := NotStarted; ctx_ended := None; is_open := false |}.

(** [amqpConn] wraps the connection. *)
Definition returned (r : result) : nat + err :=
  match rerr r, rconn r with
  | Some e, _ => inr e
  | None, Some c => inl c
  | None, None => inr (EText "nil connection")
  end.

Definition has_conn (r : result) : bool := match rconn r with Some _ => true | None => false end.

Inductive step : dial -> dial -> Prop :=
| ctx_ends s e :
    ctx_ended s = None ->
    step s {| caller := caller s; answer := answer s; queued := queued s; disposer := disposer s; ctx_ended := Some e; is_open := is_open s |}
(* amqp.DialConfig returns; without an error it returns a connection *)
| dial_ends s r :
    answer s = None -> (rerr r = None -> is_Some (rconn r)) ->
    step s {| caller := caller s; answer := Some r; queued := true; disposer := disposer s; ctx_ended := ctx_ended s; is_open := has_conn r |}
| select_done s r :
    caller s = Selecting -> queued s = true -> answer s = Some r ->
    step s {| caller := Returned (returned r); answer := answer s; queued := false; disposer := disposer s; ctx_ended := ctx_ended s;
              is_open := is_open s |}
| select_ctx s e :
    caller s = Selecting -> ctx_ended s = Some e ->
    step s {| caller := Returned (inr e); answer := answer s; queued := queued s; disposer := Disposing; ctx_ended := ctx_ended s;
              is_open := is_open s |}
| dispose s r :
    disposer s = Disposing -> queued s = true -> answer s = Some r ->
    step s {| caller := caller s; answer := answer s; queued := false; disposer := Disposed; ctx_ended := ctx_ended s;
              is_open := if has_conn r then false else is_open s |}.

(** The caller waits, or took the answer, or left it to the disposer. *)
Record dial_ok (s : dial) : Prop := {
  do_answer : match answer s with
    | None => queued s = false /\ is_open s = false /\ disposer s <> Disposed /\ (caller s = Selecting \/ disposer s = Disposing)
    | Some r => (rerr r = None -> is_Some (rconn r)) /\ (is_open s = has_conn r \/ disposer s = Disposed /\ is_open s = false)
    end;
  do_caller : match caller s, disposer s with
    | Selecting, NotStarted => answer s <> None -> queued s = true
    | Selecting, _ => False
    | Returned x, NotStarted => queued s = false /\ exists r, answer s = Some r /\ x = returned r /\ is_open s = has_conn r
    | Returned x, Disposing => (answer s <> None -> queued s = true) /\ exists e, x = inr e /\ ctx_ended s = Some e
    | Returned x, Disposed => queued s = false /\ answer s <> None /\ is_open s = false /\ exists e, x = inr e /\ ctx_ended s = Some e
    end
}.

Lemma dial_step_ok s s' : step s s' -> dial_ok s -> dial_ok s'.
Proof.
  intros Hstep [H1 H2]. destruct Hstep as [s e He|s r Ha Hr|s r Hc Hq Ha|s e Hc He|s r Hd Hq Ha]; split; simpl in *.
  - done.
  - destruct (caller s), (disposer s); naive_solver.
  - split; [done|]. by left.
  - rewrite Ha in H1, H2. destruct (caller s), (disposer s); naive_solver.
  - rewrite Ha in *. done.
  - rewrite Hc in H2. rewrite Ha in *. destruct (disposer s) eqn:Ed; [|done..]. split; [done|]. exists r. naive_solver.
  - rewrite Hc in H2. destruct (disposer s) eqn:Ed; [|done..]. destruct (answer s); naive_solver.
  - rewrite Hc in H2. destruct (disposer s) eqn:Ed; [|done..]. split; [done|]. by exists e.
  - rewrite Ha in *. destruct H1 as [? H1]. split; [done|]. right. split; [done|]. unfold has_conn in *. destruct (rconn r); naive_solver.
  - rewrite Hd in H2. destruct (caller s) as [|x]; [done|]. destruct H2 as [_ (e & -> & He)]. rewrite Ha in *.
    destruct H1 as [_ H1]. unfold has_conn in *. split_and!; [done|done|destruct (rconn r); naive_solver|by exists e].
Qed.

Definition reachable (s : dial) : Prop := rtc step begin_dial s.

Lemma dial_reachable_ok s : reachable s -> dial_ok s.
Proof. apply rtc_invariant; [apply dial_step_ok|]. split; simpl; [split_and!; auto|done]. Qed.

(** A dial leaks nothing. What it returns is the library's own answer, or the
    context's error; once the library has answered and nobody is left to act,
    the connection is open only if the library's answer is what the caller got:
    a connection it can use, or one that came with the error it was given. When
    the context won, it is closed. *)
Lemma dial_no_leak s x :
  reachable s -> caller s = Returned x ->
  (disposer s = NotStarted /\ exists r, answer s = Some r /\ x = returned r /\ is_open s = has_conn r) \/
  (exists e, x = inr e /\ ctx_ended s = Some e /\ (disposer s = Disposing \/ is_open s = false)).
Proof.
  intros [_ H]%dial_reachable_ok Hc. rewrite Hc in H. destruct (disposer s); naive_solver.
Qed.

(** Nor does it hang once the library has answered: the caller, or the disposer
    it left the answer to, can take it; and an ended context lets the caller go. *)
Lemma dial_progress s :
  reachable s ->
  (caller s = Selecting -> answer s <> None \/ ctx_ended s <> None -> exists s' x, step s s' /\ caller s' = Returned x) /\
  (disposer s = Disposing -> answer s <> None -> exists s', step s s' /\ disposer s' = Disposed).
Proof.
  intros [_ H]%dial_reachable_ok. split.
  - intros Hc. rewrite Hc in H. destruct (disposer s) eqn:Ed; [|done..]. intros [Ha|He].
    + destruct (answer s) as [r|] eqn:Ea; [|done]. eexists _, _. split; [by eapply (select_done s r); [|apply H|]|done].
    + destruct (ctx_ended s) as [e|] eqn:Ee; [|done]. eexists _, _. split; [by eapply (select_ctx s e)|done].
  - intros Hd Ha. rewrite Hd in H. destruct (caller s) as [|x]; [done|]. destruct (answer s) as [r|] eqn:Ea; [|done].
    eexists. split; [by eapply (dispose s r); [|apply H|]|done].
Qed.

(** A context that ends while the connection is being made: the caller gets its
    error, and the connection is closed when it comes. *)
Example late_connection_closed :
  exists s, reachable s /\ caller s = Returned (inr (ESentinel CtxDeadlineExceeded)) /\
    (answer s ≫= rconn) = Some 7%nat /\ is_open s = false.
Proof.
  eexists. split; [|split; [|split]].
  - eapply rtc_l; [by apply (ctx_ends _ (ESentinel CtxDeadlineExceeded))|].
    eapply rtc_l; [by apply select_ctx|].
    eapply rtc_l; [by apply (dial_ends _ {| rconn := Some 7%nat; rerr := None |})|].
    eapply rtc_l; [by eapply dispose|]. apply rtc_refl.
  - reflexivity.
  - reflexivity.
  - reflexivity.
Qed.

(** ** The adapter *)

(** [amqpConn.Channel]: a nil channel never travels as a non-nil interface. *)
Definition Channel {C : Type} (opened : C * option err) : option C * option err :=
  match opened with
  | (_, Some e) => (None, Some e)
  | (ch, None) => (Some ch, None)
  end.
