(* ===== verification/Log.v ===== *)
(** * Log: what is logged, and how much of it (log.go)

    The level filter LOG_LEVEL puts in front of the application's handler, the
    attributes of an error that may be retained, the bound on values a publisher
    controls, and the summary of a panic. A handler is its level test and the
    attributes it adds; what a handler prints is not modelled. The parser and the
    printer of URLs are parameters of [redactURL]. *)
From S2P Require Import Prelude GoStrings Errors.

Local Open Scope Z_scope.

(** ** Levels *)

Definition LevelDebug : Z := -4.
Definition LevelInfo : Z := 0.
Definition LevelWarn : Z := 4.
Definition LevelError : Z := 8.

(** [strings.ToLower], as far as its result is ASCII: besides the letters A to Z,
    the dotted capital I (U+0130) and the Kelvin sign (U+212A) have lower-case
    letters in ASCII; other characters are left as they are. *)
Fixpoint ToLower_codes (l : list Z) : list Z :=
  match l with
  | a :: ((b :: ((c :: l3) as l2)) as l1) =>
      if (a =? 0xC4) && (b =? 0xB0) then 105 :: ToLower_codes l2
      else if (a =? 0xE2) && (b =? 0x84) && (c =? 0xAA) then 107 :: ToLower_codes l3
      else lower a :: ToLower_codes l1
  | [a; b] => if (a =? 0xC4) && (b =? 0xB0) then [105] else [lower a; lower b]
  | [a] => [lower a]
  | [] => []
  end.

(** [levelFromEnv], of the value of LOG_LEVEL: the level, silent, set. *)
Definition levelFromEnv (v : string) : Z * bool * bool :=
  let w := ToLower_codes (TrimSpace v) in
  let says s := bool_decide (w = codes s) in
  if says "debug" then (LevelDebug, false, true)
  else if says "info" then (LevelInfo, false, true)
  else if says "warn" || says "warning" then (LevelWarn, false, true)
  else if says "error" then (LevelError, false, true)
  else if says "silent" || says "off" || says "none" then (0, true, true)
  else (LevelInfo, false, false).

(** ** Handlers *)

Record Handler := { Enabled : Z -> bool; attrs : list (string * string); groups : list string }.

Definition DiscardHandler : Handler := {| Enabled := fun _ => false; attrs := []; groups := [] |}.

Definition Handler_WithAttrs (l : list (string * string)) (h : Handler) : Handler :=
  {| Enabled := Enabled h; attrs := attrs h ++ l; groups := groups h |}.
Definition Handler_WithGroup (g : string) (h : Handler) : Handler :=
  {| Enabled := Enabled h; attrs := attrs h; groups := groups h ++ [g] |}.

(** [minLevel] *)
Record minLevel := { wrapped_handler : Handler; min_level : Z }.

Definition minLevel_Enabled (m : minLevel) (l : Z) : bool := (min_level m <=? l) && Enabled (wrapped_handler m) l.
Definition WithAttrs (l : list (string * string)) (m : minLevel) : minLevel :=
  {| wrapped_handler := Handler_WithAttrs l (wrapped_handler m); min_level := min_level m |}.
Definition WithGroup (g : string) (m : minLevel) : minLevel :=
  {| wrapped_handler := Handler_WithGroup g (wrapped_handler m); min_level := min_level m |}.

(** It is a handler. *)
Definition as_handler (m : minLevel) : Handler :=
  {| Enabled := minLevel_Enabled m; attrs := attrs (wrapped_handler m); groups := groups (wrapped_handler m) |}.

(** [defaultLogger]; [dflt] is the process's default handler. *)
Definition defaultLogger (env : string) (dflt : Handler) (h : option Handler) : Handler :=
  let h := default dflt h in
  let '(level, silent, set) := levelFromEnv env in
  if silent then DiscardHandler
  else if set then as_handler (WithAttrs [("component", "protobus")] {| wrapped_handler := h; min_level := level |})
  else Handler_WithAttrs [("component", "protobus")] h.

(** LOG_LEVEL only ever removes records, those below its level; every record
    that stays is tagged. *)
Lemma defaultLogger_filters env dflt h l :
  let '(level, silent, set) := levelFromEnv env in
  Enabled (defaultLogger env dflt h) l = negb silent && (negb set || (level <=? l)) && Enabled (default dflt h) l /\
  (Enabled (defaultLogger env dflt h) l = true -> ("component", "protobus") ∈ attrs (defaultLogger env dflt h)).
Proof.
  unfold defaultLogger. destruct (levelFromEnv env) as [[level silent] set]. destruct silent, set; simpl; split; try done;
    intros _; apply elem_of_app; right; by left.
Qed.

(** Case, surrounding white space and the spelling of a level do not matter. *)
Example levels_spelled :
  levelFromEnv "  WARNING" = levelFromEnv "warn" /\ levelFromEnv "Off" = (0, true, true) /\
  levelFromEnv "verbose" = (LevelInfo, false, false) /\ levelFromEnv "" = (LevelInfo, false, false).
Proof. vm_compute. done. Qed.

(** ** Attributes *)

Definition maxLogField : Z := 256.

(** [clip] *)
Definition clip (v : string) : string := if slen v <=? maxLogField then v else slice_to v maxLogField +:+ "...".

(** [attrSafeError]: the attributes of the group, in order. *)
Definition attrSafeError (e : option err) : list (string * string) :=
  let '(name, code) :=
    match e with
    | None => ("UnknownError", "")
    | Some x => match AsHandled x with
                | Some (code, _) => ("HandledError", code)
                | None => (errorName (innermostNamed x), ErrorCode x)
                end
    end in
  [("error", safeErrorSummary e); ("errorName", name)] ++ (if decide (code <> "") then [("errorCode", code)] else []).

(** A recovered panic value: a runtime error, or a value of a type. *)
Inductive panic_value := RuntimeError (text : string) | PanicOf (type : string) (value : string).

(** [panicSummary] *)
Definition panicSummary (v : panic_value) : string :=
  match v with RuntimeError text => clip text | PanicOf type _ => type end.

(** The attributes of one value; what a publisher controls is clipped. *)
Definition attrOperation (v : string) : string * string := ("operation", v).
Definition attrCorrelationID (v : string) : string * string := ("correlationId", clip v).
Definition attrMessageID (v : string) : string * string := ("messageId", clip v).
Definition attrQueue (v : string) : string * string := ("queue", v).
Definition attrExchange (v : string) : string * string := ("exchange", v).
Definition attrRoutingKey (v : string) : string * string := ("routingKey", clip v).
Definition attrMethod (v : string) : string * string := ("method", clip v).
Definition attrService (v : string) : string * string := ("service", v).
Definition attrMessageType (v : string) : string * string := ("messageType", clip v).
Definition attrSize (n : Z) : string * Z := ("sizeBytes", n).
Definition attrErrorName (v : string) : string * string := ("errorName", v).
Definition attrOutcome (v : string) : string * string := ("outcome", v).
Definition attrAttempt (n : Z) : string * Z := ("attempt", n).

(** Milliseconds, as [attrDuration] logs a duration. *)
Definition attrDuration (d : Z) : Z := Z.quot d Millisecond.

Lemma substring_take n s : (n <= String.length s)%nat -> String.length (String.substring 0 n s) = n.
Proof. revert n. induction s as [|c s IH]; intros [|n] Hn; simpl in *; [done|lia|done|]. rewrite IH; lia. Qed.

(** A publisher cannot flood a log field. *)
Lemma clip_bounded v : slen (clip v) <= maxLogField + 3 /\ (slen v <= maxLogField -> clip v = v).
Proof.
  unfold clip. destruct (Z.leb_spec (slen v) maxLogField) as [H|H]; [split; [lia|done]|]. split; [|lia].
  unfold slen in *. rewrite string_length_app. unfold slice_to. rewrite substring_take; unfold maxLogField in *; simpl; lia.
Qed.

(** What is logged of an error does not depend on the text of any error in it,
    but for handled errors, whose text is meant for others. *)
Lemma attrSafeError_private e : attrSafeError (erase false <$> e) = attrSafeError e.
Proof.
  destruct e as [e|]; [|done]. unfold attrSafeError. cbn [fmap option_fmap option_map]. unfold safeErrorSummary.
  rewrite AsHandled_erase, innermostNamed_erase, errorName_erase, ErrorCode_erase. done.
Qed.

(** ** URLs *)

Record Userinfo := { Username : string; Password : option string }.

(** A parsed URL, as far as [redactURL] looks at it; [rest] is its path, query and
    fragment. *)
Record URL := { Scheme : string; User : option Userinfo; Host : string; rest : string }.

(** [strings.Replace] of the first occurrence. *)
Fixpoint replace_first (old new s : string) : string :=
  if String.prefix old s then new +:+ String.substring (String.length old) (String.length s - String.length old) s
  else match s with
       | EmptyString => EmptyString
       | String c s' => String c (replace_first old new s')
       end.

Definition placeholder : string := "PROTOBUSREDACTED".

Section Redaction.
Context (Parse : string -> option URL) (URL_String : URL -> string).

Definition with_password (p : option string) (u : URL) : URL := {|
  Scheme := Scheme u; User := (fun i => {| Username := Username i; Password := p |}) <$> User u; Host := Host u; rest := rest u |}.

Definition redactURL (raw : string) : string :=
  if decide (raw = "") then ""
  else match Parse raw with
       | None => "<redacted>"
       | Some u =>
           if decide (Scheme u = "" \/ Host u = "") then "<redacted>"
           else match User u ≫= Password with
                | Some _ => replace_first placeholder "***" (URL_String (with_password (Some placeholder) u))
                | None => URL_String u
                end
       end.

(** The password of a URL does not reach the log: two URLs that differ in it
    alone are logged alike; and what does not parse as an absolute URL is not
    logged at all. *)
Lemma redactURL_private raw raw' u p p' :
  raw <> "" -> raw' <> "" -> Parse raw = Some (with_password (Some p) u) -> Parse raw' = Some (with_password (Some p') u) ->
  redactURL raw = redactURL raw'.
Proof.
  intros H H' E E'. unfold redactURL. rewrite !decide_False, E, E' by done. simpl. case_decide; [done|].
  by destruct u as [? [i|] ? ?].
Qed.

Lemma redactURL_opaque raw : raw <> "" -> (forall u, Parse raw = Some u -> Scheme u = "" \/ Host u = "") -> redactURL raw = "<redacted>".
Proof.
  intros H Hu. unfold redactURL. rewrite decide_False by done. destruct (Parse raw) as [u|]; [|done].
  by rewrite decide_True by auto.
Qed.
End Redaction.

(** The first occurrence is the one replaced: a user name that contains the
    placeholder is what shows as asterisks, and the password still does not. *)
Definition print_url (u : URL) : string :=
  Scheme u +:+ "://" +:+
  match User u with
  | Some i => Username i +:+ match Password i with Some p => ":" +:+ p | None => "" end +:+ "@"
  | None => ""
  end +:+ Host u +:+ rest u.

Example redacted_urls :
  let parse name (_ : string) := Some {| Scheme := "amqp"; User := Some {| Username := name; Password := Some "hunter2" |};
                                         Host := "mq:5672"; rest := "/v" |} in
  redactURL (parse "ann") print_url "raw" = "amqp://ann:***@mq:5672/v" /\
  redactURL (parse placeholder) print_url "raw" = "amqp://***:PROTOBUSREDACTED@mq:5672/v".
Proof. vm_compute. done. Qed.
