(* ===== verification/Protoload.v ===== *)
(** * Protoload: compiling schemas at run time (protoload/protoload.go)

    Which files are loaded, user custom types and their virtual file, the imports
    added to a schema's text, and the order files and types are registered in.
    The compiler (protocompile) and the registries are other people's code: a
    compiled file is a tree of its imports and declarations, and registering is
    an argument. The regular expressions are written out as matchers. *)
From S2P Require Import Prelude GoStrings.

Local Open Scope Z_scope.

(** ** Custom types *)

Inductive Kind :=
  | BytesKind | StringKind | Int64Kind | Uint64Kind | Int32Kind | Uint32Kind | DoubleKind
  | OtherKind (name : string).

#[export] Instance Kind_eq_dec : EqDecision Kind.
Proof. solve_decision. Defined.

(** [Kind.String] *)
Definition kind_name (k : Kind) : string :=
  match k with
  | BytesKind => "bytes" | StringKind => "string" | Int64Kind => "int64" | Uint64Kind => "uint64"
  | Int32Kind => "int32" | Uint32Kind => "uint32" | DoubleKind => "double" | OtherKind n => n
  end.

Record customType := { cname : string; ckind : Kind }.

Definition letter (c : ascii) : bool :=
  let n := asciiZ c in ((65 <=? n) && (n <=? 90)) || ((97 <=? n) && (n <=? 122)) || (n =? 95).
Definition digit (c : ascii) : bool := is_digit (asciiZ c).

Fixpoint all_chars (f : ascii -> bool) (s : string) : bool :=
  match s with EmptyString => true | String c s' => f c && all_chars f s' end.

(** The expression [identifier]. *)
Definition identifier (s : string) : bool :=
  match s with EmptyString => false | String c s' => letter c && all_chars (fun c => letter c || digit c) s' end.

(** [WithCustomType], applied to the types declared so far. *)
Definition WithCustomType (name : string) (kind : Kind) (custom : list customType) : list customType + string :=
  if negb (identifier name) then inr ("protoload: custom type name " +:+ Quote name +:+ " is not an identifier")
  else if bool_decide (name = "bigint") || bool_decide (name = "timestamp")
  then inr ("protoload: " +:+ Quote name +:+ " is a built-in type")
  else match kind with
       | OtherKind k => inr ("protoload: custom type " +:+ Quote name +:+ ": unsupported wire kind " +:+ k)
       | _ => inl (custom ++ [{| cname := name; ckind := kind |}])
       end.

Fixpoint apply_options (opts : list (string * Kind)) (custom : list customType) : list customType + string :=
  match opts with
  | [] => inl custom
  | (name, kind) :: opts' => match WithCustomType name kind custom with
                             | inl custom' => apply_options opts' custom'
                             | inr e => inr e
                             end
  end.

Definition newline : ascii := "010"%char.
Definition quote : ascii := "034"%char.
Definition nl : string := String newline EmptyString.
Definition quoted (s : string) : string := String quote (s +:+ String quote EmptyString).

(** [customTypesSource] *)
Definition customTypesSource (types : list customType) : string :=
  match types with
  | [] => ""
  | _ => "syntax = " +:+ quoted "proto3" +:+ ";" +:+ nl +:+
         String.concat "" (map (fun t => "message " +:+ cname t +:+ " { optional " +:+ kind_name (ckind t) +:+ " value = 1; }" +:+ nl) types)
  end.

(** ** Matchers *)

(** A matcher of a prefix: what is left after it. *)
Definition matcher : Type := string -> option string.

Fixpoint lit (p : string) : matcher := fun s =>
  match p with
  | EmptyString => Some s
  | String a p' => match s with
                   | String b s' => if decide (a = b) then lit p' s' else None
                   | EmptyString => None
                   end
  end.

(** [f*], greedy; what follows it in these expressions never starts with an [f]. *)
Fixpoint many (f : ascii -> bool) (s : string) : string :=
  match s with String c s' => if f c then many f s' else s | EmptyString => s end.

Definition many1 (f : ascii -> bool) : matcher := fun s =>
  match s with String c s' => if f c then Some (many f s') else None | EmptyString => None end.

Definition thn (p q : matcher) : matcher := fun s => p s ≫= q.
Definition alt (p q : matcher) : matcher := fun s => match p s with Some r => Some r | None => q s end.
Definition star (f : ascii -> bool) : matcher := fun s => Some (many f s).

(** [[ \t]] and [\s] *)
Definition blank (c : ascii) : bool := (asciiZ c =? 32) || (asciiZ c =? 9).
Definition space (c : ascii) : bool := (asciiZ c =? 32) || (asciiZ c =? 9) || (asciiZ c =? 10) || (asciiZ c =? 12) || (asciiZ c =? 13).
Definition not_quote (c : ascii) : bool := negb (asciiZ c =? 34).

(** The expression [syntaxLine], after its anchor. *)
Definition syntax_statement : matcher :=
  thn (star blank) (thn (alt (lit "syntax") (lit "edition")) (thn (star blank) (thn (lit "=") (thn (star blank)
    (thn (lit (String quote "")) (thn (star not_quote) (thn (lit (String quote "")) (thn (star blank) (lit ";"))))))))).

(** The leftmost match at the start of a line: the text up to its end and the
    rest. *)
Fixpoint find_syntax (bol : bool) (s : string) : option (string * string) :=
  match (if bol then syntax_statement s else None) with
  | Some rest => Some (String.substring 0 (String.length s - String.length rest) s, rest)
  | None =>
      match s with
      | EmptyString => None
      | String c s' => match find_syntax (bool_decide (c = newline)) s' with
                       | Some (pre, rest) => Some (String c pre, rest)
                       | None => None
                       end
      end
  end.

(** The expressions [importsTypes] and [importsCustoms], of the path imported. *)
Definition import_statement (path : string) : matcher :=
  thn (lit "import") (thn (many1 space)
    (thn (alt (thn (lit "public") (many1 space)) (alt (thn (lit "weak") (many1 space)) Some)) (lit (quoted path)))).

Fixpoint imports (path : string) (s : string) : bool :=
  match import_statement path s with
  | Some _ => true
  | None => match s with EmptyString => false | String _ s' => imports path s' end
  end.

(** ** The imports a schema is given *)

Definition TypesProtoPath : string := "protobus/types.proto".
Definition customTypesPath : string := "protobus/custom_types.proto".

Definition import_line (path : string) : string := "import " +:+ quoted path +:+ ";".

Definition to_add (src : string) (custom : bool) : list string :=
  (if imports TypesProtoPath src then [] else [import_line TypesProtoPath]) ++
  (if custom && negb (imports customTypesPath src) then [import_line customTypesPath] else []).

(** [injectImports] *)
Definition injectImports (src : string) (custom : bool) : string :=
  match to_add src custom with
  | [] => src
  | add =>
      let extra := " " +:+ String.concat " " add in
      match find_syntax true src with
      | Some (pre, rest) => pre +:+ extra +:+ rest
      | None => String.concat " " add +:+ " " +:+ src
      end
  end.

(** ** What matchers do *)

(** A matcher leaves a suffix. *)
Definition suffixing (p : matcher) : Prop := forall s r, p s = Some r -> exists u, s = u +:+ r.

Lemma sapp_assoc (a b c : string) : (a +:+ b) +:+ c = a +:+ (b +:+ c).
Proof. induction a as [|x a IH]; [done|]. exact (f_equal (String x) IH). Qed.

Lemma sapp_nil (a : string) : a +:+ "" = a.
Proof. induction a as [|x a IH]; [done|]. exact (f_equal (String x) IH). Qed.

Lemma suffixing_lit p : forall s r, lit p s = Some r -> s = p +:+ r.
Proof.
  induction p as [|a p IH]; intros s r; simpl; [by intros [= ->]|]. destruct s as [|b s]; [done|].
  destruct (decide (a = b)) as [->|]; [|done]. intros H%IH. exact (f_equal (String b) H).
Qed.

Lemma suffixing_many f s : exists u, s = u +:+ many f s.
Proof.
  induction s as [|c s [u IH]]; simpl; [by exists ""|]. destruct (f c); [|by exists ""]. exists (String c u). exact (f_equal (String c) IH).
Qed.

Lemma suffixing_thn p q : suffixing p -> suffixing q -> suffixing (thn p q).
Proof.
  intros Hp Hq s r H. unfold thn in H. apply bind_Some in H as (m & (u & ->)%Hp & (v & ->)%Hq). exists (u +:+ v).
  by rewrite sapp_assoc.
Qed.

Lemma suffixing_alt p q : suffixing p -> suffixing q -> suffixing (alt p q).
Proof. intros Hp Hq s r. unfold alt. destruct (p s) eqn:E; [intros [= <-]; by apply Hp|apply Hq]. Qed.

Lemma suffixing_literal p : suffixing (lit p).
Proof. intros s r H. exists p. by apply suffixing_lit. Qed.

Lemma suffixing_star f : suffixing (star f).
Proof. intros s r H. injection H as <-. apply suffixing_many. Qed.

#[local] Hint Resolve suffixing_thn suffixing_alt suffixing_literal suffixing_star : core.

Definition ending (p : matcher) : Prop := forall s r, p s = Some r -> exists u, s = u +:+ ";" +:+ r.

Lemma ending_thn p q : suffixing p -> ending q -> ending (thn p q).
Proof.
  intros Hp Hq s r H. unfold thn in H. apply bind_Some in H as (m & (u & ->)%Hp & (v & ->)%Hq). exists (u +:+ v).
  by rewrite sapp_assoc.
Qed.

(** The syntax statement ends with its semicolon. *)
Lemma syntax_statement_ends : ending syntax_statement.
Proof.
  unfold syntax_statement. repeat (apply ending_thn; [auto|]). intros s r H. exists "". by apply suffixing_lit in H.
Qed.

Lemma substring_prefix u r : String.substring 0 (String.length (u +:+ r) - String.length r) (u +:+ r) = u.
Proof.
  induction u as [|c u IH]; simpl.
  - rewrite Nat.sub_diag. by destruct r.
  - replace (S (String.length (u +:+ r)) - String.length r)%nat with (S (String.length (u +:+ r) - String.length r)).
    + simpl. by rewrite IH.
    + rewrite string_length_app. lia.
Qed.

Lemma find_syntax_split bol s pre rest :
  find_syntax bol s = Some (pre, rest) -> s = pre +:+ rest /\ exists u, pre = u +:+ ";".
Proof.
  revert bol pre. induction s as [|c s IH]; intros bol pre H; cbn [find_syntax] in H.
  - by destruct bol.
  - destruct (if bol then syntax_statement (String c s) else None) as [r|] eqn:E.
    + destruct bol; [|done]. apply syntax_statement_ends in E as [u E]. assert (String.substring 0 (String.length (String c s) - String.length r) (String c s) = pre /\ r = rest) as [<- <-]
        by (split; congruence). rewrite E, <-sapp_assoc, substring_prefix. eauto.
    + destruct (find_syntax _ s) as [[pre' rest']|] eqn:Ef; [|done]. injection H as <- <-.
      destruct (IH _ _ Ef) as [-> [u ->]]. split; [done|]. by exists (String c u).
Qed.

(** A matcher that never looks past a semicolon. *)
Definition stops (p : matcher) : Prop := forall u v,
  (p (u +:+ ";") = None /\ p (u +:+ ";" +:+ v) = None) \/
  exists w, p (u +:+ ";") = Some (w +:+ ";") /\ p (u +:+ ";" +:+ v) = Some (w +:+ ";" +:+ v).

Lemma stops_lit p : all_chars (fun c => negb (bool_decide (c = ";"%char))) p = true -> stops (lit p).
Proof.
  induction p as [|a p IH]; intros Ha u v; simpl; [right; by exists u|]. simpl in Ha. apply andb_true_iff in Ha as [H1 H2].
  apply negb_true_iff, bool_decide_eq_false in H1. destruct u as [|b u]; simpl.
  - destruct (decide _); [done|by left].
  - destruct (decide (a = b)); [by apply IH|by left].
Qed.

Lemma stops_many f u v : f ";"%char = false ->
  exists w, many f (u +:+ ";") = w +:+ ";" /\ many f (u +:+ ";" +:+ v) = w +:+ ";" +:+ v.
Proof.
  intros Hf. induction u as [|c u IH]; simpl; [rewrite Hf; by exists ""|]. destruct (f c); [exact IH|]. by exists (String c u).
Qed.

Lemma stops_many1 f : f ";"%char = false -> stops (many1 f).
Proof.
  intros Hf u v. destruct u as [|c u]; simpl; [rewrite Hf; by left|]. destruct (f c); [|by left].
  destruct (stops_many f u v Hf) as (w & -> & ->). right. by exists w.
Qed.

Lemma stops_thn p q : stops p -> stops q -> stops (thn p q).
Proof.
  intros Hp Hq u v. unfold thn. destruct (Hp u v) as [[-> ->]|(w & -> & ->)]; [by left|]. simpl. apply Hq.
Qed.

Lemma stops_alt p q : stops p -> stops q -> stops (alt p q).
Proof.
  intros Hp Hq u v. unfold alt. destruct (Hp u v) as [[-> ->]|(w & -> & ->)]; [apply Hq|right; by exists w].
Qed.

Lemma stops_import path : all_chars (fun c => negb (bool_decide (c = ";"%char))) (quoted path) = true -> stops (import_statement path).
Proof.
  intros Hp. unfold import_statement.
  repeat first [apply stops_thn | apply stops_alt | by apply stops_many1 | by apply stops_lit | (intros u v; right; by exists u)].
Qed.

Lemma imports_cons path c s :
  imports path (String c s) = match import_statement path (String c s) with Some _ => true | None => imports path s end.
Proof. done. Qed.

(** An import is before a semicolon or after it. *)
Lemma imports_semicolon path u v :
  stops (import_statement path) -> imports path (u +:+ ";" +:+ v) = imports path (u +:+ ";") || imports path v.
Proof.
  intros Hs. induction u as [|c u IH].
  - change ("" +:+ ";" +:+ v) with (String ";" v). change ("" +:+ ";") with (String ";" ""). rewrite !imports_cons.
    destruct (Hs "" v) as [[H1 H2]|(w & H1 & H2)]; change ("" +:+ ";" +:+ v) with (String ";" v) in H2;
      change ("" +:+ ";") with (String ";" "") in H1; rewrite H1, H2; [|done]. by destruct (import_statement path "").
  - change (String c u +:+ ";" +:+ v) with (String c (u +:+ ";" +:+ v)). change (String c u +:+ ";") with (String c (u +:+ ";")).
    rewrite !imports_cons. destruct (Hs (String c u) v) as [[H1 H2]|(w & H1 & H2)];
      change (String c u +:+ ";" +:+ v) with (String c (u +:+ ";" +:+ v)) in H2;
      change (String c u +:+ ";") with (String c (u +:+ ";")) in H1; rewrite H1, H2; [exact IH|done].
Qed.

(** *** Lines *)

Lemma split_on_cons sep c s : c <> sep ->
  exists w ws, split_on sep s = w :: ws /\ split_on sep (String c s) = String c w :: ws.
Proof.
  intros Hc. simpl. pose proof (split_on_ne sep s) as Hne. destruct (split_on sep s) as [|w ws]; [done|].
  exists w, ws. split; [done|]. by destruct (Ascii.eqb_spec c sep).
Qed.

(** Text without line ends, put inside a text, changes one line only. *)
Lemma lines_insert a e b :
  contains_char newline e = false ->
  exists i pre post, split_on newline (a +:+ b) !! i = Some (pre +:+ post) /\
    split_on newline (a +:+ e +:+ b) = <[i := pre +:+ e +:+ post]> (split_on newline (a +:+ b)).
Proof.
  intros He. induction a as [|c a IH].
  - exists 0%nat, "". change ("" +:+ b) with b. change ("" +:+ e +:+ b) with (e +:+ b).
    revert He. induction e as [|c e IHe]; intros He.
    + change ("" +:+ b) with b. pose proof (split_on_ne newline b). destruct (split_on newline b) as [|w ws] eqn:Eb; [done|]. by exists w.
    + simpl in He. destruct (Ascii.eqb_spec c newline) as [|Hc]; [done|]. destruct (IHe He) as (post & H1 & H2).
      exists post. split; [done|]. change ((String c e) +:+ b) with (String c (e +:+ b)).
      destruct (split_on_cons newline c (e +:+ b) Hc) as (w & ws & E1 & E2). rewrite E2. rewrite H2 in E1.
      destruct (split_on newline b) as [|w0 ws0]; [done|]. simpl in E1 |- *. by injection E1 as <- <-.
  - destruct IH as (i & pre & post & H1 & H2). change (String c a +:+ b) with (String c (a +:+ b)).
    change (String c a +:+ e +:+ b) with (String c (a +:+ e +:+ b)).
    destruct (decide (c = newline)) as [->|Hc].
    + exists (S i), pre, post. simpl. rewrite H2. done.
    + destruct (split_on_cons newline c (a +:+ b) Hc) as (w & ws & E1 & E2).
      destruct (split_on_cons newline c (a +:+ e +:+ b) Hc) as (w' & ws' & E1' & E2'). rewrite E2, E2'. rewrite H2 in E1'. rewrite E1 in H1, E1'.
      destruct i as [|i]; simpl in H1, E1'; injection E1' as <- <-.
      * injection H1 as ->. exists 0%nat, (String c pre), post. done.
      * exists (S i), pre, post. done.
Qed.

(** *** Injection *)

Lemma stops_paths path : path = TypesProtoPath \/ path = customTypesPath -> stops (import_statement path).
Proof. intros [->| ->]; by apply stops_import. Qed.

Lemma imports_after path a s : imports path s = true -> imports path (a +:+ s) = true.
Proof.
  intros Hs. induction a as [|c a IH]; [done|]. change (String c a +:+ s) with (String c (a +:+ s)). rewrite imports_cons.
  by destruct (import_statement path (String c (a +:+ s))).
Qed.

(** The text that goes in between two statements keeps the imports around it. *)
Lemma imports_inside path u x b :
  stops (import_statement path) -> imports path (u +:+ ";" +:+ b) || imports path (x +:+ ";") = true ->
  imports path (u +:+ ";" +:+ (x +:+ ";") +:+ b) = true.
Proof.
  intros Hs. rewrite imports_semicolon by done. rewrite imports_semicolon by done. rewrite sapp_assoc, imports_semicolon by done.
  rewrite !orb_true_iff. tauto.
Qed.

Lemma imports_front path x b :
  stops (import_statement path) -> imports path b || imports path (x +:+ ";") = true -> imports path ((x +:+ ";") +:+ " " +:+ b) = true.
Proof.
  intros Hs. rewrite sapp_assoc, imports_semicolon by done. rewrite !orb_true_iff. intros [H|H]; [right|by left].
  by apply (imports_after path " ").
Qed.

(** What is added ends with a semicolon, is on one line, and imports what it is
    for. *)
Lemma added_text src custom :
  to_add src custom <> [] ->
  exists x, String.concat " " (to_add src custom) = x +:+ ";" /\ contains_char newline (x +:+ ";") = false /\
    forall path, path = TypesProtoPath \/ (path = customTypesPath /\ custom = true) ->
      imports path src || imports path (x +:+ ";") = true.
Proof.
  set (body path := "import " +:+ quoted path). unfold to_add. intros Hne.
  destruct (imports TypesProtoPath src) eqn:Et, (custom && negb (imports customTypesPath src)) eqn:Ec; [| done | |].
  - exists (body customTypesPath). split_and!; [reflexivity|reflexivity|].
    intros path [->|[-> ->]]; [by rewrite Et|]. apply orb_true_iff. right. reflexivity.
  - exists (import_line TypesProtoPath +:+ " " +:+ body customTypesPath). split_and!; [reflexivity|reflexivity|].
    intros path [->|[-> ->]]; apply orb_true_iff; right; reflexivity.
  - exists (body TypesProtoPath). split_and!; [reflexivity|reflexivity|].
    intros path [->|[-> ->]]; [apply orb_true_iff; right; reflexivity|]. simpl in Ec. apply negb_false_iff in Ec. by rewrite Ec.
Qed.

Lemma injectImports_cases src custom :
  injectImports src custom = src /\ to_add src custom = [] \/
  exists a x b, src = a +:+ b /\ injectImports src custom = a +:+ x +:+ b /\ contains_char newline x = false /\
    forall path, path = TypesProtoPath \/ (path = customTypesPath /\ custom = true) -> imports path (a +:+ x +:+ b) = true.
Proof.
  unfold injectImports. destruct (decide (to_add src custom = [])) as [->|Hne]; [by left|]. right.
  destruct (added_text src custom Hne) as (x & Hx & Hl & Hp).
  destruct (to_add src custom) as [|l ls] eqn:Ea; [done|]. rewrite Hx.
  assert (forall path, path = TypesProtoPath \/ path = customTypesPath /\ custom = true -> stops (import_statement path)) as Hs
    by (intros path [?|[? _]]; apply stops_paths; tauto).
  destruct (find_syntax true src) as [[pre rest]|] eqn:Ef.
  - destruct (find_syntax_split _ _ _ _ Ef) as [-> [u ->]]. exists (u +:+ ";"), (" " +:+ x +:+ ";"), rest.
    split_and!; [done|done|done|]. intros path Hpath. rewrite sapp_assoc.
    specialize (Hp path Hpath). rewrite sapp_assoc in Hp.
    apply (imports_inside path u (" " +:+ x) rest); [by apply Hs|]. apply orb_true_iff in Hp as [->|Hp]; [done|].
    apply orb_true_iff. right. rewrite sapp_assoc. by apply imports_after.
  - exists "", ((x +:+ ";") +:+ " "), src. split_and!; [done|symmetry; exact (sapp_assoc (x +:+ ";") " " src)| |].
    + revert Hl. generalize (x +:+ ";"). intros t. induction t as [|c t IH]; [done|]. simpl. destruct (Ascii.eqb c newline); [done|exact IH].
    + intros path Hpath. change (imports path (((x +:+ ";") +:+ " ") +:+ src) = true). rewrite (sapp_assoc (x +:+ ";") " " src). apply imports_front; [by apply Hs|by apply Hp].
Qed.

(** The imports a schema is compiled with. Whatever its text, the schema
    protoload hands to the compiler imports the built-in types, and the user's
    custom types where there are any; what is added stands on one line of the
    original, so every line keeps its number; and a schema that already imports
    them is not touched, in particular not one that was given them. *)
Lemma imports_injected (src : string) (custom : bool) :
  let src' := injectImports src custom in
  imports TypesProtoPath src' = true /\ (custom = true -> imports customTypesPath src' = true) /\
  (src' = src \/ exists i pre added post, split_on newline src !! i = Some (pre +:+ post) /\
     split_on newline src' = <[i := pre +:+ added +:+ post]> (split_on newline src)) /\
  injectImports src' custom = src'.
Proof.
  intros src'. assert (imports TypesProtoPath src' = true /\ (custom = true -> imports customTypesPath src' = true)) as [H1 H2].
  { unfold src'. destruct (injectImports_cases src custom) as [[-> Hadd]|(a & x & b & _ & -> & _ & Hp)].
    - unfold to_add in Hadd. destruct (imports TypesProtoPath src); [|done]. split; [done|]. intros ->. simpl in Hadd.
      by destruct (imports customTypesPath src).
    - split; [apply Hp; by left|]. intros ->. apply Hp. by right. }
  split; [done|]. split; [done|]. split.
  - unfold src'. destruct (injectImports_cases src custom) as [[-> _]|(a & x & b & E & -> & Hl & _)]; [by left|right].
    rewrite E. destruct (lines_insert a x b Hl) as (i & pre & post & ? & ?). by exists i, pre, x, post.
  - unfold injectImports at 1. unfold to_add. rewrite H1. destruct custom; [|done]. by rewrite H2.
Qed.

(** A syntax statement in single quotes, which protobuf allows, is not seen: the
    imports go before it. *)
Example single_quoted_syntax :
  injectImports "syntax = 'proto3';" false = import_line TypesProtoPath +:+ " syntax = 'proto3';".
Proof. reflexivity. Qed.

(** ** The files that are loaded *)

(** [strings.HasSuffix] *)
Definition HasSuffix (s suf : string) : bool :=
  (String.length suf <=? String.length s)%nat &&
  bool_decide (String.substring (String.length s - String.length suf) (String.length suf) s = suf).

(** An entry of a directory walk: its path relative to the root, its own name and
    whether it is a directory. *)
Record dirEntry := { rel : string; base_name : string; isDir : bool }.

(** One root of [Load]: the entries in the order of the walk, and the error that
    ended it, if one did. *)
Fixpoint walk_names (es : list dirEntry) (names : list string) : list string :=
  match es with
  | [] => names
  | e :: es' =>
      if isDir e || negb (HasSuffix (base_name e) ".proto") then walk_names es' names
      else if decide (rel e ∈ names) then walk_names es' names
      else walk_names es' (names ++ [rel e])
  end.

Fixpoint walk_roots (roots : list (list dirEntry * option string)) (names : list string) : list string + string :=
  match roots with
  | [] => inl names
  | (_, Some e) :: _ => inr ("protoload: " +:+ e)
  | (es, None) :: roots' => walk_roots roots' (walk_names es names)
  end.

Definition string_le (a b : string) : Prop := String.leb a b = true.

#[export] Instance string_le_dec : RelDecision string_le.
Proof. intros a b. unfold string_le. apply _. Defined.

#[export] Instance string_le_total : Total string_le.
Proof. intros a b. apply String.leb_total. Qed.

(** [Load], the names it compiles. *)
Definition load_names (roots : list (list dirEntry * option string)) : list string + string :=
  match walk_roots roots [] with
  | inl names => inl (merge_sort string_le names)
  | inr e => inr e
  end.

(** A schema: a file whose name ends in .proto. *)
Definition schema (e : dirEntry) : Prop := isDir e = false /\ HasSuffix (base_name e) ".proto" = true.

Lemma walk_names_spec es names :
  NoDup names ->
  NoDup (walk_names es names) /\
  forall n, n ∈ walk_names es names <-> n ∈ names \/ exists e, e ∈ es /\ schema e /\ rel e = n.
Proof.
  revert names. induction es as [|e es IH]; intros names Hn; simpl.
  - split; [done|]. intros n. split; [by left|]. intros [?|(e & []%elem_of_nil & _)]. done.
  - assert (forall names', NoDup names' -> (forall n, n ∈ names' <-> n ∈ names \/ (schema e /\ rel e = n)) ->
      NoDup (walk_names es names') /\ forall n, n ∈ walk_names es names' <->
        n ∈ names \/ exists e', e' ∈ e :: es /\ schema e' /\ rel e' = n) as Hstep.
    { intros names' Hn' Hm. destruct (IH names' Hn') as [H1 H2]. split; [done|]. intros n. rewrite H2, Hm. split.
      - intros [[?|?]|(e' & ? & ?)]; [by left|right; exists e; split; [by left|done]|right; exists e'; split; [by right|done]].
      - intros [?|(e' & [->|?]%elem_of_cons & ?)]; [by left; left|left; by right|right; eauto]. }
    destruct (isDir e || negb (HasSuffix (base_name e) ".proto")) eqn:E.
    + apply Hstep; [done|]. intros n. split; [by left|]. intros [?|[[H1 H2] _]]; [done|]. by rewrite H1, H2 in E.
    + apply orb_false_iff in E as [E1 E2]. apply negb_false_iff in E2. case_decide as Hd; apply Hstep; try done.
      * intros n. split; [by left|]. by intros [?|[_ <-]].
      * apply NoDup_app. split_and!; [done| |apply NoDup_singleton]. by intros x Hx ->%list_elem_of_singleton.
      * intros n. rewrite elem_of_app, list_elem_of_singleton. unfold schema. split; [intros [?| ->]; tauto|]. intros [?|[_ <-]]; tauto.
Qed.

(** Every schema under the roots is compiled once, in the order of its name; a
    root that cannot be walked fails the load. *)
Lemma load_names_spec roots :
  match load_names roots with
  | inl names => Sorted string_le names /\ NoDup names /\
      forall n, n ∈ names <-> exists es e, (es, None) ∈ roots /\ e ∈ es /\ schema e /\ rel e = n
  | inr _ => exists es e, (es, Some e) ∈ roots
  end.
Proof.
  unfold load_names.
  assert (forall acc, NoDup acc -> match walk_roots roots acc with
    | inl names => NoDup names /\ forall n, n ∈ names <-> n ∈ acc \/ exists es e, (es, None) ∈ roots /\ e ∈ es /\ schema e /\ rel e = n
    | inr _ => exists es e, (es, Some e) ∈ roots
    end) as H.
  { induction roots as [|[es [e|]] roots IH]; intros acc Ha; simpl.
    - split; [done|]. intros n. split; [by left|]. intros [?|(es & e & []%elem_of_nil & _)]. done.
    - exists es, e. by left.
    - destruct (walk_names_spec es acc Ha) as [H1 H2]. specialize (IH (walk_names es acc) H1).
      destruct (walk_roots roots (walk_names es acc)) as [names|]; [|destruct IH as (es' & e & ?); exists es', e; by right].
      destruct IH as [H3 H4]. split; [done|]. intros n. rewrite H4, H2. split.
      + intros [[?|(e & ?)]|(es' & e & ? & ?)]; [by left|right; exists es, e; split; [by left|done]|].
        right. exists es', e. split; [by right|done].
      + intros [?|(es' & e & [[= <-]|?]%elem_of_cons & ?)]; [by left; left|left; right; eauto|right; eauto]. }
  specialize (H [] ltac:(constructor)). destruct (walk_roots roots []) as [names|]; [|done]. destruct H as [H1 H2].
  split_and!; [apply Sorted_merge_sort, _|by rewrite merge_sort_Permutation|]. intros n. rewrite merge_sort_Permutation, H2.
  split; [intros [[]%elem_of_nil|?]; done|by right].
Qed.

(** ** Where the compiler finds a file *)

(** [Parse], the names it compiles and how it reads a source. *)
Definition parse_names (sources : gmap string string) : list string :=
  merge_sort string_le (map_to_list sources).*1.
Definition parse_read (sources : gmap string string) (path : string) : option string := sources !! path.

(** What [compile]'s resolver answers for a path: the built-in types, a text, or
    nothing. [read] is what reading the path under the roots gives. *)
Inductive found := BuiltIn | Source (text : string) | Missing.

Definition find_file (read : string -> option string) (customSrc : string) (path : string) : found :=
  let custom := negb (customSrc =? "")%string in
  let from_source := match read path with Some src => Source (injectImports src custom) | None => Missing end in
  if decide (path = TypesProtoPath) then BuiltIn
  else if decide (path = customTypesPath) then if custom then Source customSrc else from_source
  else from_source.

(** Parsing compiles each source once, in order, and finds it with its imports
    added; a source of the library's own name is not read. *)
Lemma parse_finds sources customSrc :
  Sorted string_le (parse_names sources) /\ NoDup (parse_names sources) /\
  (forall n, n ∈ parse_names sources <-> is_Some (sources !! n)) /\
  forall n src, sources !! n = Some src -> n <> TypesProtoPath -> n <> customTypesPath ->
    find_file (parse_read sources) customSrc n = Source (injectImports src (negb (customSrc =? "")%string)).
Proof.
  unfold parse_names. split_and!.
  - apply Sorted_merge_sort, _.
  - rewrite merge_sort_Permutation. apply NoDup_fst_map_to_list.
  - intros n. rewrite merge_sort_Permutation, list_elem_of_fmap. split.
    + intros ([k v] & -> & Hk%elem_of_map_to_list). by exists v.
    + intros [v Hv]. exists (n, v). split; [done|]. by apply elem_of_map_to_list.
  - intros n src Hn H1 H2. unfold find_file, parse_read. by rewrite Hn, !decide_False.
Qed.

(** ** Dependencies first *)

(** A compiled file: its path, its imports, the names of its enums and its
    messages, a message with the enums and messages declared in it. *)
Inductive msgDesc := Msg (full : string) (mapEntry : bool) (enums : list string) (nested : list msgDesc).

Inductive fileDesc := FileD (path : string) (imports : list fileDesc) (enums : list string) (messages : list msgDesc).

Definition fpath (f : fileDesc) : string := match f with FileD p _ _ _ => p end.
Definition fimports (f : fileDesc) : list fileDesc := match f with FileD _ imps _ _ => imps end.
Definition fenums (f : fileDesc) : list string := match f with FileD _ _ es _ => es end.
Definition fmessages (f : fileDesc) : list msgDesc := match f with FileD _ _ _ ms => ms end.

Section visit.
(** What is done with a file once its imports are done; an error stops. *)
Context (act : list fileDesc -> fileDesc -> option string).

(** The recursive functions [register] of [compile] and [add] of the command's
    [generate]: the paths seen, and the files done, in order. *)
Fixpoint visit (fd : fileDesc) (st : gset string * list fileDesc) : (gset string * list fileDesc) + string :=
  match fd with
  | FileD path imps _ _ =>
      if decide (path ∈ st.1) then inl st
      else
        match (fix go l st := match l with
                              | [] => inl st
                              | i :: l' => match visit i st with inl st' => go l' st' | inr e => inr e end
                              end) imps ({[path]} ∪ st.1, st.2) with
        | inr e => inr e
        | inl st1 => match act st1.2 fd with Some e => inr e | None => inl (st1.1, st1.2 ++ [fd]) end
        end
  end.

Fixpoint visit_all (l : list fileDesc) (st : gset string * list fileDesc) : (gset string * list fileDesc) + string :=
  match l with
  | [] => inl st
  | i :: l' => match visit i st with inl st' => visit_all l' st' | inr e => inr e end
  end.

Lemma visit_unfold fd st :
  visit fd st = if decide (fpath fd ∈ st.1) then inl st
                else match visit_all (fimports fd) ({[fpath fd]} ∪ st.1, st.2) with
                     | inr e => inr e
                     | inl st1 => match act st1.2 fd with Some e => inr e | None => inl (st1.1, st1.2 ++ [fd]) end
                     end.
Proof.
  destruct fd as [path imps es ms]. simpl. case_decide; [done|]. match goal with |- match ?f imps ?s with _ => _ end = _ =>
    assert (forall l st, f l st = visit_all l st) as -> by (induction l as [|i l IH]; intros st0; simpl; [done|]; by destruct (visit i st0)) end. done.
Qed.

Fixpoint depth (fd : fileDesc) : nat :=
  match fd with FileD _ imps _ _ => S (list_max (map depth imps)) end.

Lemma depth_import fd i : i ∈ fimports fd -> (depth i < depth fd)%nat.
Proof.
  destruct fd as [p imps es ms]. simpl. intros Hi. apply Nat.lt_succ_r. induction imps as [|x imps IH]; [by apply elem_of_nil in Hi|].
  simpl. apply elem_of_cons in Hi as [->|Hi]; [lia|]. specialize (IH Hi). lia.
Qed.

(** The files at hand: closed under imports, one per path. *)
Context (U : fileDesc -> Prop).
Hypothesis U_imports : forall fd i, U fd -> i ∈ fimports fd -> U i.
Hypothesis U_path : forall a b, U a -> U b -> fpath a = fpath b -> a = b.

(** Each file done once, its imports before it. *)
Definition in_order (l : list fileDesc) : Prop :=
  NoDup (fpath <$> l) /\ forall l1 f l2, l = l1 ++ f :: l2 -> forall i, i ∈ fimports f -> i ∈ l1.

Record visiting (A : list fileDesc) (st : gset string * list fileDesc) : Prop := {
  vi_seen : forall p, p ∈ st.1 <-> p ∈ fpath <$> st.2 \/ p ∈ fpath <$> A;
  vi_order : in_order st.2;
  vi_known : forall f, f ∈ st.2 -> U f;
  vi_active : forall a, a ∈ A -> fpath a ∉ fpath <$> st.2
}.

Lemma in_order_snoc l f : in_order l -> fpath f ∉ fpath <$> l -> (forall i, i ∈ fimports f -> i ∈ l) -> in_order (l ++ [f]).
Proof.
  intros [Hn Ho] Hf Hi. split.
  - rewrite fmap_app. apply NoDup_app. split_and!; [done| |apply NoDup_singleton]. by intros x Hx ->%list_elem_of_singleton.
  - intros l1 g l2 E i Hin. destruct l2 as [|y l2 _] using rev_ind.
    + apply app_inj_tail in E as [<- <-]. by apply Hi.
    + rewrite app_comm_cons, app_assoc in E. apply app_inj_tail in E as [-> _]. by eapply Ho.
Qed.

Lemma visit_spec n : forall fd A st st',
  (depth fd < n)%nat -> U fd -> (forall a, a ∈ A -> U a /\ (depth fd < depth a)%nat) -> visiting A st -> visit fd st = inl st' ->
  visiting A st' /\ fd ∈ st'.2 /\ exists new, st'.2 = st.2 ++ new.
Proof.
  induction n as [|n IH]; intros fd A st st' Hn HU HA HV; [lia|]. rewrite visit_unfold. case_decide as Hs.
  - intros [= <-]. split; [done|]. split; [|exists []; by rewrite app_nil_r].
    apply (vi_seen _ _ HV) in Hs as [(f & Hf & Hin)%list_elem_of_fmap|(a & Ha & Hin)%list_elem_of_fmap].
    + by rewrite (U_path fd f HU (vi_known _ _ HV f Hin) Hf).
    + destruct (HA a Hin) as [Hua Hd]. rewrite (U_path fd a HU Hua Ha) in Hd. lia.
  - assert (forall l st0 st1, (forall i, i ∈ l -> i ∈ fimports fd) -> visiting (fd :: A) st0 -> visit_all l st0 = inl st1 ->
      visiting (fd :: A) st1 /\ (forall i, i ∈ l -> i ∈ st1.2) /\ exists new, st1.2 = st0.2 ++ new) as Hall.
    { induction l as [|i l IHl]; intros st0 st1 Hl HV0; simpl.
      - intros [= <-]. split; [done|]. split; [by intros i ?%elem_of_nil|exists []; by rewrite app_nil_r].
      - destruct (visit i st0) as [st2|] eqn:Ei; [|done]. intros H. assert (i ∈ fimports fd) as Hi by (apply Hl; by left).
        pose proof (depth_import _ _ Hi) as Hdi.
        destruct (IH i (fd :: A) st0 st2) as (HV2 & Hin & new & E); [lia|by eapply U_imports| |done|done|].
        { intros a [->|Ha]%elem_of_cons; [done|]. destruct (HA a Ha). split; [done|lia]. }
        destruct (IHl st2 st1) as (HV1 & Hall & new' & E'); [intros j Hj; apply Hl; by right|done|done|].
        split; [done|]. split; [|exists (new ++ new'); by rewrite E', E, app_assoc].
        intros j [->|Hj]%elem_of_cons; [rewrite E'; apply elem_of_app; by left|by apply Hall]. }
    destruct (visit_all (fimports fd) _) as [st1|] eqn:Ev; [|done]. destruct (act st1.2 fd); [done|]. intros [= <-].
    destruct (Hall (fimports fd) ({[fpath fd]} ∪ st.1, st.2) st1 (fun i H => H)) as (HV1 & Hdone & new & E); [|exact Ev|].
    { destruct HV as [V1 V2 V3 V4]. split; simpl; [|done|done|].
      - intros p. rewrite elem_of_union, elem_of_singleton, elem_of_cons, V1. tauto.
      - intros a [->|Ha]%elem_of_cons; [|by apply V4]. intros Hin. apply Hs, V1. by left. }
    destruct HV1 as [V1 V2 V3 V4]. simpl in E. split; [|split; [apply elem_of_app; right; by left|exists (new ++ [fd]); by rewrite E, app_assoc]].
    split; simpl.
    + intros p. rewrite V1, fmap_app, elem_of_app, fmap_cons, elem_of_cons. simpl. rewrite list_elem_of_singleton. tauto.
    + apply in_order_snoc; [done| |done]. apply V4. by left.
    + intros f [?| ->%list_elem_of_singleton]%elem_of_app; [by apply V3|done].
    + intros a Ha. rewrite fmap_app, elem_of_app. intros [Hin|Hin].
      * by apply (V4 a); [right|].
      * simpl in Hin. apply list_elem_of_singleton in Hin. destruct (HA a Ha) as [Hua Hd]. rewrite (U_path a fd Hua HU Hin) in Hd. lia.
Qed.

Lemma visit_all_spec l st st' :
  (forall fd, fd ∈ l -> U fd) -> visiting [] st -> visit_all l st = inl st' ->
  visiting [] st' /\ (forall fd, fd ∈ l -> fd ∈ st'.2) /\ exists new, st'.2 = st.2 ++ new.
Proof.
  revert st. induction l as [|fd l IH]; intros st HU HV; simpl.
  - intros [= <-]. split; [done|]. split; [by intros ? ?%elem_of_nil|exists []; by rewrite app_nil_r].
  - destruct (visit fd st) as [st1|] eqn:E; [|done]. intros H.
    destruct (visit_spec (S (depth fd)) fd [] st st1) as (HV1 & Hin & new & E1); [lia|apply HU; by left|by intros ? ?%elem_of_nil|done|done|].
    destruct (IH st1) as (HV' & H2 & new' & E2); [intros f Hf; apply HU; by right|done|done|].
    split; [done|]. split; [|exists (new ++ new'); by rewrite E2, E1, app_assoc].
    intros f [->|Hf]%elem_of_cons; [rewrite E2; apply elem_of_app; by left|by apply H2].
Qed.

(** Every file, with all it imports, is done once and after its imports. *)
Lemma visit_all_order roots st' :
  (forall fd, fd ∈ roots -> U fd) -> visit_all roots (∅, []) = inl st' ->
  in_order st'.2 /\ (forall fd, fd ∈ roots -> fd ∈ st'.2) /\ forall fd, fd ∈ st'.2 -> U fd.
Proof.
  intros HU H. destruct (visit_all_spec roots (∅, []) st' HU) as (HV & Hin & _); [|done|].
  - split; simpl; try (by intros ? ?%elem_of_nil).
    + intros p. rewrite elem_of_nil. set_solver.
    + split; [constructor|]. intros [] ? ? ?; done.
  - split; [apply HV|]. split; [done|apply HV].
Qed.
End visit.

(** ** Registering *)

(** A registration of a type: the one linked into the program with this very
    descriptor, or a dynamic one. *)
Inductive type_call := RegisterEnum (name : string) (generated : bool) | RegisterMessage (name : string) (generated : bool).

(** How a registry answers: it may report that a type is not found, which is
    ignored for messages. *)
Inductive reg_error := RegNotFound | RegFailed (text : string).

Section register.
(* the types linked in, and the registries *)
Context (linked : string -> bool) (reg_type : type_call -> option reg_error) (reg_file : list fileDesc -> fileDesc -> option string).

Definition enum_calls (es : list string) : list type_call := map (fun n => RegisterEnum n (linked n)) es.

(** The calls of [registerTypes], in order: a map entry, with what is in it,
    has no type. *)
Fixpoint message_calls (m : msgDesc) : list type_call :=
  match m with
  | Msg full mapEntry es nested =>
      if mapEntry then [] else RegisterMessage full (linked full) :: enum_calls es ++ flat_map message_calls nested
  end.

Definition file_calls (fd : fileDesc) : list type_call := enum_calls (fenums fd) ++ flat_map message_calls (fmessages fd).

Fixpoint run_calls (cs : list type_call) : option string :=
  match cs with
  | [] => None
  | c :: cs' =>
      match reg_type c, c with
      | None, _ => run_calls cs'
      | Some RegNotFound, RegisterMessage _ _ => run_calls cs'
      | Some RegNotFound, RegisterEnum _ _ => Some "not found"
      | Some (RegFailed e), _ => Some e
      end
  end.

(** [registerTypes] *)
Definition registerTypes (fd : fileDesc) : option string := run_calls (file_calls fd).

(** What [register] does with a file. *)
Definition register_file (done : list fileDesc) (fd : fileDesc) : option string :=
  match reg_file done fd with Some e => Some e | None => registerTypes fd end.

(** [compile], of what the compiler returned: the files registered, in order. *)
Definition compile_register (files : list fileDesc) : list fileDesc + string :=
  match visit_all register_file files (∅, []) with
  | inl st => inl st.2
  | inr e => inr ("protoload: " +:+ e)
  end.

(** Registration is in dependency order. *)
Lemma compile_register_order files done (U : fileDesc -> Prop) :
  (forall fd i, U fd -> i ∈ fimports fd -> U i) -> (forall a b, U a -> U b -> fpath a = fpath b -> a = b) ->
  (forall fd, fd ∈ files -> U fd) -> compile_register files = inl done ->
  in_order done /\ forall fd, fd ∈ files -> fd ∈ done.
Proof.
  intros H1 H2 HU. unfold compile_register. destruct (visit_all _ _ _) as [st|] eqn:E; [|done]. intros [= <-].
  by destruct (visit_all_order register_file U H1 H2 files st HU E) as (? & ? & _).
Qed.
End register.

(** A diamond of imports: each file once, the shared one first. *)
Example diamond_order :
  let types := FileD "types" [] [] [] in
  let a := FileD "a" [types] [] [] in
  let b := FileD "b" [types; a] [] [] in
  match compile_register (fun _ => false) (fun _ => None) (fun _ _ => None) [b; a] with
  | inl l => map fpath l = ["types"; "a"; "b"]
  | inr _ => False
  end.
Proof. vm_compute. reflexivity. Qed.
