(* ===== verification/Flags.v ===== *)
(** * Flags: the flags of the protobus command (cmd/protobus/main.go)

    Package flag's parser, as far as the two commands use it, the flags each
    declares, and the commands around it. What the parser prints on the error
    stream besides the command's own line is left out. *)
From S2P Require Import Prelude GoStrings Protoload Cli.

(** ** Package flag *)

(** A flag: whether it is boolean, and what setting it does. *)
Record flag_ (S : Type) := { is_bool : bool; set_ : string -> S -> S + string }.
Arguments is_bool {S}.
Arguments set_ {S}.

(** [strconv.ParseBool] *)
Definition ParseBool (v : string) : option bool :=
  if bool_decide (v ∈ ["1"; "t"; "T"; "TRUE"; "true"; "True"]) then Some true
  else if bool_decide (v ∈ ["0"; "f"; "F"; "FALSE"; "false"; "False"]) then Some false else None.

(** What an argument is to the parser. *)
Inductive token := Operand | Terminator | BadSyntax | Flag (name : string) (value : option string).

Definition flag_token (s name : string) : token :=
  match name with
  | EmptyString => BadSyntax
  | String c rest =>
      if bool_decide (c = "-"%char) || bool_decide (c = "="%char) then BadSyntax
      else match Cut "=" rest with
           | Some (n, v) => Flag (String c n) (Some v)
           | None => Flag name None
           end
  end.

Definition token_of (s : string) : token :=
  match s with
  | String "-" (String "-" EmptyString) => Terminator
  | String "-" (String "-" name) => flag_token s name
  | String "-" EmptyString => Operand
  | String "-" name => flag_token s name
  | _ => Operand
  end.

Section parse.
Context {S : Type} (lookup : string -> option (flag_ S)).

(** [FlagSet.Parse]: the settings and the arguments left. *)
Fixpoint Parse (args : list string) (o : S) : S * list string + cmd_error :=
  match args with
  | [] => inl (o, [])
  | s :: rest =>
      match token_of s with
      | Operand => inl (o, args)
      | Terminator => inl (o, rest)
      | BadSyntax => inr (CmdError ("bad flag syntax: " +:+ s))
      | Flag name value =>
          match lookup name with
          | None => if bool_decide (name ∈ ["help"; "h"]) then inr ErrHelp
                    else inr (CmdError ("flag provided but not defined: -" +:+ name))
          | Some f =>
              if is_bool f then
                let v := default "true" value in
                match set_ f v o with
                | inl o => Parse rest o
                | inr e => inr (CmdError ("invalid boolean value " +:+ Quote v +:+ " for -" +:+ name +:+ ": " +:+ e))
                end
              else
                match value, rest with
                | Some v, _ =>
                    match set_ f v o with
                    | inl o => Parse rest o
                    | inr e => inr (CmdError ("invalid value " +:+ Quote v +:+ " for flag -" +:+ name +:+ ": " +:+ e))
                    end
                | None, v :: rest =>
                    match set_ f v o with
                    | inl o => Parse rest o
                    | inr e => inr (CmdError ("invalid value " +:+ Quote v +:+ " for flag -" +:+ name +:+ ": " +:+ e))
                    end
                | None, [] => inr (CmdError ("flag needs an argument: -" +:+ name))
                end
          end
      end
  end.
End parse.

(** ** The commands *)

Record generateOptions := { protoDir : string; outDir : string; dryRun : bool; custom : list (string * Kind) }.
Record serviceOptions := { svcName : string; svcProtoDir : string; svcOutDir : string; servicesDir : string;
  svcCustom : list (string * Kind) }.

Definition generate_defaults : generateOptions := {| protoDir := "./proto"; outDir := "./gen"; dryRun := false; custom := [] |}.
Definition service_defaults (name : string) : serviceOptions :=
  {| svcName := name; svcProtoDir := "./proto"; svcOutDir := "./gen"; servicesDir := "./services"; svcCustom := [] |}.

Definition string_flag {S : Type} (f : string -> S -> S) : flag_ S := {| is_bool := false; set_ := fun v o => inl (f v o) |}.

(** The flags [runGenerate] declares. *)
Definition generate_flags (name : string) : option (flag_ generateOptions) :=
  if bool_decide (name = "proto") then
    Some (string_flag (fun v o => {| protoDir := v; outDir := outDir o; dryRun := dryRun o; custom := custom o |}))
  else if bool_decide (name = "out") then
    Some (string_flag (fun v o => {| protoDir := protoDir o; outDir := v; dryRun := dryRun o; custom := custom o |}))
  else if bool_decide (name = "dry-run") then
    Some {| is_bool := true; set_ := fun v o =>
      match ParseBool v with
      | Some b => inl {| protoDir := protoDir o; outDir := outDir o; dryRun := b; custom := custom o |}
      | None => inr "parse error"
      end |}
  else if bool_decide (name = "custom-type") then
    Some {| is_bool := false; set_ := fun v o =>
      match Set_ v (custom o) with
      | inl c => inl {| protoDir := protoDir o; outDir := outDir o; dryRun := dryRun o; custom := c |}
      | inr e => inr e
      end |}
  else None.

(** The flags [runGenerateService] declares. *)
Definition service_flags (name : string) : option (flag_ serviceOptions) :=
  if bool_decide (name = "proto") then
    Some (string_flag (fun v o => {| svcName := svcName o; svcProtoDir := v; svcOutDir := svcOutDir o; servicesDir := servicesDir o; svcCustom := svcCustom o |}))
  else if bool_decide (name = "out") then
    Some (string_flag (fun v o => {| svcName := svcName o; svcProtoDir := svcProtoDir o; svcOutDir := v; servicesDir := servicesDir o; svcCustom := svcCustom o |}))
  else if bool_decide (name = "services") then
    Some (string_flag (fun v o => {| svcName := svcName o; svcProtoDir := svcProtoDir o; svcOutDir := svcOutDir o; servicesDir := v; svcCustom := svcCustom o |}))
  else if bool_decide (name = "custom-type") then
    Some {| is_bool := false; set_ := fun v o =>
      match Set_ v (svcCustom o) with
      | inl c => inl {| svcName := svcName o; svcProtoDir := svcProtoDir o; svcOutDir := svcOutDir o; servicesDir := servicesDir o; svcCustom := c |}
      | inr e => inr e
      end |}
  else None.

Section commands.
Context (generate : generateOptions -> list string + string) (generateService : serviceOptions -> string + string).

(** [runGenerate] *)
Definition runGenerate (args : list string) : list string + cmd_error :=
  match Parse generate_flags args generate_defaults with
  | inr e => inr e
  | inl (o, rest) =>
      if decide (rest <> []) then inr (CmdError ("unexpected arguments [" +:+ String.concat " " rest +:+ "]"))
      else match generate o with
           | inl files => inl files
           | inr e => inr (CmdError e)
           end
  end.

(** [runGenerateService]; arguments after the flags are not looked at. *)
Definition runGenerateService (args : list string) : list string + cmd_error :=
  match service_argument args with
  | None => inr (CmdError "generate:service needs a service name, e.g. protobus generate:service Calculator")
  | Some name =>
      match Parse service_flags (tail args) (service_defaults name) with
      | inr e => inr e
      | inl (o, _) =>
          match generateService o with
          | inl path => inl [path]
          | inr e => inr (CmdError e)
          end
      end
  end.
End commands.

(** ** What the parser promises *)

(** A name a flag can have on the command line. *)
Definition flag_name (n : string) : Prop := token_of (String "-" n) = Flag n None.

Lemma Cut_app n v : Cut "=" n = None -> Cut "=" (n +:+ String "=" v) = Some (n, v).
Proof.
  induction n as [|c n IH]; simpl; [done|]. destruct (Ascii.eqb c "="); [done|].
  destruct (Cut "=" n) as [[a b]|]; [done|]. intros _. by rewrite IH.
Qed.

Lemma token_flag s c n : c <> "-"%char -> s = String "-" (String c n) -> token_of s = flag_token s (String c n).
Proof. intros Hc ->. destruct c as [[] [] [] [] [] [] [] []]; done || (exfalso; by apply Hc). Qed.

Lemma flag_name_inv n : flag_name n -> exists c n', n = String c n' /\ c <> "-"%char /\ c <> "="%char /\ Cut "=" n' = None.
Proof.
  unfold flag_name. destruct n as [|c n]; [done|]. destruct (decide (c = "-"%char)) as [->|Hc].
  - destruct n as [|c n]; [done|]. intros H. exfalso. assert (flag_token (String "-" (String "-" (String c n))) (String c n) = Flag (String "-" (String c n)) None) as E.
    { by destruct c as [[] [] [] [] [] [] [] []]. }
    revert E. unfold flag_token. destruct (_ || _); [done|]. destruct (Cut "=" n) as [[]|]; intros E; [done|].
    injection E as _ E. apply (f_equal String.length) in E. simpl in E. lia.
  - rewrite (token_flag _ c n) by done. unfold flag_token.
    destruct (bool_decide (c = "-"%char)) eqn:E1; [done|]. destruct (bool_decide (c = "="%char)) eqn:E2; [done|]. simpl.
    apply bool_decide_eq_false in E2. destruct (Cut "=" n) as [[]|] eqn:E; [done|]. intros _. by exists c, n.
Qed.

Lemma flag_name_value n v : flag_name n -> token_of ("-" +:+ n +:+ "=" +:+ v) = Flag n (Some v).
Proof.
  intros (c & n' & -> & H1 & H2 & H3)%flag_name_inv. rewrite (token_flag _ c (n' +:+ String "=" v)) by done. unfold flag_token.
  rewrite !bool_decide_eq_false_2 by done. simpl. by rewrite Cut_app.
Qed.

(** A value may be in the flag's argument or in the next one, whatever it looks
    like: both are the same settings. *)
Lemma flag_value {S} (lookup : string -> option (flag_ S)) n f v rest o :
  flag_name n -> lookup n = Some f -> is_bool f = false ->
  Parse lookup (("-" +:+ n +:+ "=" +:+ v) :: rest) o = Parse lookup (("-" +:+ n) :: v :: rest) o.
Proof.
  intros Hn Hl Hb. assert (token_of ("-" +:+ n) = Flag n None) as Ht by exact Hn. cbn [Parse].
  rewrite (flag_name_value n v Hn), Ht, Hl, Hb. done.
Qed.

(** The arguments that ask for given options. *)
Definition generate_args (o : generateOptions) (cs : list string) : list string :=
  ["-proto"; protoDir o; "-out"; outDir o] ++ (if dryRun o then ["-dry-run"] else []) ++ (cs ≫= fun c => ["-custom-type"; c]).

Fixpoint set_all (cs : list string) (l : list (string * Kind)) : list (string * Kind) + string :=
  match cs with
  | [] => inl l
  | c :: cs => match Set_ c l with inl l => set_all cs l | inr e => inr e end
  end.

Lemma parse_customs cs o l :
  set_all cs (custom o) = inl l ->
  Parse generate_flags (cs ≫= fun c => ["-custom-type"; c]) o =
  inl ({| protoDir := protoDir o; outDir := outDir o; dryRun := dryRun o; custom := l |}, []).
Proof.
  revert o. induction cs as [|c cs IH]; intros o; csimpl; [intros [= <-]; by destruct o|].
  destruct (Set_ c (custom o)) as [l'|e] eqn:E; [|done]. intros H. exact (IH {| protoDir := protoDir o; outDir := outDir o; dryRun := dryRun o; custom := l' |} H).
Qed.

(** Every choice of options can be asked for, with any directory names, even
    ones that look like flags; nothing is left over. *)
Lemma generate_flags_roundtrip o cs :
  set_all cs [] = inl (custom o) -> Parse generate_flags (generate_args o cs) generate_defaults = inl (o, []).
Proof.
  intros H. unfold generate_args. destruct o as [p d [] c]; simpl in *; by rewrite (parse_customs _ _ c).
Qed.

(** A command that succeeds printed what was generated, with options that can
    be asked for, and its arguments were all understood. *)
Lemma generate_succeeds generate generateService usage initText version args s :
  run usage initText version (runGenerate generate) (runGenerateService generateService) ("generate" :: args) = (s, 0%Z) <->
  exists o files, Parse generate_flags args generate_defaults = inl (o, []) /\ generate o = inl files /\ s = out files.
Proof.
  unfold run. rewrite !bool_decide_eq_false_2, bool_decide_eq_true_2 by (done || set_solver). unfold runGenerate. split.
  - destruct (Parse _ _ _) as [[o rest]|[|e]]; [|done|done]. destruct (decide _) as [|Hr]; [done|].
    destruct rest as [|x rest]; [|exfalso; by apply Hr]. destruct (generate o) as [files|] eqn:E; [|done]. intros [= <-]. by exists o, files.
  - intros (o & files & -> & E & ->). by rewrite decide_False, E by auto.
Qed.
