(* ===== verification/Combat.v ===== *)
(** * Combat: the battle royale (examples/combat/game)

    A player's state and what changes it: the three methods other players call,
    the events it subscribes to, the strategies and the turn. Every critical
    section of a player is one function on its state. What the random generator
    and the bus answer are arguments; what is said to the narrator is left out.
    [Round] is the turn that goes around among players. *)
From S2P Require Import Prelude GoStrings Errors.

Local Open Scope Z_scope.

(** ** Players *)

Definition StartingHealth : Z := 10.

Record Opponent := { ID : string; OName : string; OHealth : Z; Alive : bool }.

Record View := { Health : Z; LastAttacker : string; Focus : string }.

(** The six strategies. *)
Inductive Strategy := Vindicator | BullyHunter | GiantSlayer | Equalizer | Wildcard | Terminator.

Definition Strategies : list Strategy := [Vindicator; BullyHunter; GiantSlayer; Equalizer; Wildcard; Terminator].

Definition strategy_name (s : Strategy) : string :=
  match s with
  | Vindicator => "The Vindicator" | BullyHunter => "The Bully Hunter" | GiantSlayer => "The Giant Slayer"
  | Equalizer => "The Equalizer" | Wildcard => "The Wildcard" | Terminator => "The Terminator"
  end.

Record Player := {
  PID : string; strategy : Strategy; view : View; others : gmap string Opponent; order : list string; gameOver : bool
}.

Definition NewPlayer (id : string) (s : Strategy) : Player := {|
  PID := id; strategy := s; view := {| Health := StartingHealth; LastAttacker := ""; Focus := "" |}; others := ∅; order := [];
  gameOver := false |}.

Definition with_view (v : View) (p : Player) : Player :=
  {| PID := PID p; strategy := strategy p; view := v; others := others p; order := order p; gameOver := gameOver p |}.
Definition with_others (o : gmap string Opponent) (p : Player) : Player :=
  {| PID := PID p; strategy := strategy p; view := view p; others := o; order := order p; gameOver := gameOver p |}.

(** ** Choosing a target *)

(** [rand.IntN] *)
Class IntN := { intn : nat -> nat; intn_lt n : (0 < n)%nat -> (intn n < n)%nat }.

Section Choosing.
Context `{IntN}.

Definition random (alive : list Opponent) : option Opponent :=
  match alive with [] => None | _ => alive !! intn (length alive) end.

(** [pick]: the first that no other beats. *)
Definition pick (better : Opponent -> Opponent -> bool) (alive : list Opponent) : option Opponent :=
  match alive with
  | [] => None
  | o :: l => Some (fold_left (fun best o => if better o best then o else best) l o)
  end.

Definition named (id : string) (alive : list Opponent) : option Opponent := List.find (fun o => bool_decide (ID o = id)) alive.

(** Health is an int32: a difference of two wraps around. *)
Definition gap (v : View) (o : Opponent) : Z :=
  let d := int32_wrap (OHealth o - Health v) in
  if 0 <=? d then d else int32_wrap (Health v - OHealth o).

Definition Choose (s : Strategy) (v : View) (alive : list Opponent) : View * option Opponent :=
  match s with
  | Vindicator => (v, match named (LastAttacker v) alive with Some o => Some o | None => random alive end)
  | BullyHunter => (v, pick (fun a b => OHealth a <? OHealth b) alive)
  | GiantSlayer => (v, pick (fun a b => OHealth b <? OHealth a) alive)
  | Equalizer => (v, pick (fun a b => gap v a <? gap v b) alive)
  | Wildcard => (v, random alive)
  | Terminator =>
      match named (Focus v) alive with
      | Some o => (v, Some o)
      | None => match random alive with
                | Some o => ({| Health := Health v; LastAttacker := LastAttacker v; Focus := ID o |}, Some o)
                | None => (v, None)
                end
      end
  end.
End Choosing.

(** ** Messages *)

Inductive Event :=
| PlayerJoined (id name : string) (health : Z)
| PlayerShot (shooter target : string) (hit : bool) (health : Z)
| PlayerDied (id killedBy : string)
| TurnComplete (id : string) (next : Z)
| GameOver (winner name : string).

Record ShootResponse := { Hit : bool; RemainingHealth : Z }.
Record Status := { SId : string; SName : string; SHealth : Z; SAlive : bool }.

(** Publishing in order, up to the first failure; [bus] answers each. *)
Fixpoint publish_all (bus : Event -> option err) (es : list Event) : list Event * option err :=
  match es with
  | [] => ([], None)
  | e :: es' => match bus e with
                | Some x => ([e], Some x)
                | None => let '(l, r) := publish_all bus es' in (e :: l, r)
                end
  end.

(** ** What other players call *)

(** The critical section of [Shoot]: the state after it, what it is going to
    publish and answer. [coin] is what [IntN(2) == 0] came to. *)
Definition shot (coin : bool) (shooter : string) (p : Player) : Player * list Event * ShootResponse :=
  let v := view p in
  if Health v <=? 0 then (p, [], {| Hit := false; RemainingHealth := 0 |})
  else
    let v' := if coin then {| Health := Health v - 1; LastAttacker := shooter; Focus := Focus v |} else v in
    (with_view v' p,
     PlayerShot shooter (PID p) coin (Health v') :: (if coin && (Health v' <=? 0) then [PlayerDied (PID p) shooter] else []),
     {| Hit := coin; RemainingHealth := Health v' |}).

Definition Shoot (bus : Event -> option err) (coin : bool) (shooter : string) (p : Player) : Player * list Event * (ShootResponse + err) :=
  let '(p', es, r) := shot coin shooter p in
  let '(sent, e) := publish_all bus es in
  (p', sent, match e with Some x => inr x | None => inl r end).

(** [InitiateGame]: the player of index 0 takes its turn. *)
Definition InitiateGame (ids : list string) (mine : Z) (p : Player) : Player * bool :=
  ({| PID := PID p; strategy := strategy p; view := view p; others := others p; order := ids; gameOver := gameOver p |}, mine =? 0).

Definition GetStatus (p : Player) : Status := {|
  SId := PID p; SName := strategy_name (strategy p); SHealth := Health (view p); SAlive := 0 <? Health (view p) |}.

(** ** Events *)

Definition Meet (id name : string) (p : Player) : Player :=
  if decide (id = PID p) then p
  else with_others (<[id := {| ID := id; OName := name; OHealth := StartingHealth; Alive := true |}]> (others p)) p.

Definition believe (id : string) (h : Z) (alive : bool) (p : Player) : Player :=
  with_others (alter (fun o => {| ID := ID o; OName := OName o; OHealth := h; Alive := alive |}) id (others p)) p.

(** [slices.Index] *)
Definition Index (l : list string) (x : string) : Z :=
  match list_find (fun y => y = x) l with Some (i, _) => Z.of_nat i | None => -1 end.

(** [Subscribe]'s handlers: the state after, and whether the turn is taken. *)
Definition on_event (e : Event) (p : Player) : Player * bool :=
  match e with
  | PlayerJoined id name _ => (Meet id name p, false)
  | PlayerShot _ target _ h => (believe target h (0 <? h) p, false)
  | PlayerDied id _ =>
      let p' := believe id 0 false p in
      let v := view p' in
      (if decide (Focus v = id) then with_view {| Health := Health v; LastAttacker := LastAttacker v; Focus := "" |} p' else p', false)
  | TurnComplete _ next => (p, int32_wrap (Index (order p) (PID p)) =? next)
  | GameOver _ _ => ({| PID := PID p; strategy := strategy p; view := view p; others := others p; order := order p; gameOver := true |}, false)
  end.

(** ** A turn *)

Definition by_id (a b : Opponent) : Prop := Is_true (String.leb (ID a) (ID b)).

#[local] Instance by_id_dec : RelDecision by_id.
Proof. intros a b. unfold by_id. apply _. Defined.

(** [aliveOthers]: in the order of their ids. *)
Definition aliveOthers (p : Player) : list Opponent :=
  merge_sort by_id (List.filter Alive (map snd (map_to_list (others p)))).

(** [nextAlive]: [None] is the division by zero of an empty order. *)
Definition nextAlive (p : Player) : option Z :=
  let me := Index (order p) (PID p) in
  let n := Z.of_nat (length (order p)) in
  let at_ i := Z.rem (me + Z.of_nat i) n in
  let lives i := match order p !! Z.to_nat (at_ i) ≫= fun id => others p !! id with Some o => Alive o | None => false end in
  match List.find lives (seq 1 (length (order p))) with
  | Some i => Some (int32_wrap (at_ i))
  | None => if n =? 0 then None else Some (int32_wrap (at_ 1%nat))
  end.

(** What a turn comes to before a shot: nothing, passing it on, winning, or a
    target. *)
Inductive decision := Nothing | PassOn | Wins | ShootAt (target : Opponent).

Definition begin_turn `{IntN} (p : Player) : Player * decision :=
  if gameOver p then (p, Nothing)
  else if Health (view p) <=? 0 then (p, PassOn)
  else match aliveOthers p with
       | [] => (p, Wins)
       | alive =>
           let '(v, target) := Choose (strategy p) (view p) alive in
           (with_view v p, match target with Some t => ShootAt t | None => PassOn end)
       end.

(** After the shot: what the target answered, if it did. *)
Definition after_shot (target : Opponent) (answer : ShootResponse + err) (p : Player) : Player * decision :=
  let p' := match answer with
            | inl r => if RemainingHealth r <=? 0 then believe (ID target) 0 false p else p
            | inr _ => p
            end in
  (p', match aliveOthers p' with [] => Wins | _ => PassOn end).

(** The event that ends a turn; [None] is the panic of [nextAlive]. *)
Definition turn_event (p : Player) (d : decision) : option (option Event) :=
  match d with
  | Nothing | ShootAt _ => Some None
  | Wins => Some (Some (GameOver (PID p) (strategy_name (strategy p))))
  | PassOn => (fun n => Some (TurnComplete (PID p) n)) <$> nextAlive p
  end.

(** A whole turn: the target answers [answer]. *)
Definition takeTurn `{IntN} (answer : Opponent -> ShootResponse + err) (p : Player) : Player * option (option Event) :=
  let '(p1, d) := begin_turn p in
  match d with
  | ShootAt t => let '(p2, d2) := after_shot t (answer t) p1 in (p2, turn_event p2 d2)
  | _ => (p1, turn_event p1 d)
  end.

(** ** Choices *)

Lemma named_some id alive o : named id alive = Some o -> o ∈ alive /\ ID o = id.
Proof. intros [Hin Hd]%List.find_some. apply list_elem_of_In in Hin. by apply bool_decide_eq_true in Hd. Qed.

Lemma pick_fold_member (better : Opponent -> Opponent -> bool) l b :
  fold_left (fun best o => if better o best then o else best) l b = b \/ fold_left (fun best o => if better o best then o else best) l b ∈ l.
Proof.
  revert b. induction l as [|x l IH]; intros b; simpl; [by left|].
  destruct (better x b).
  - right. destruct (IH x) as [->|?]; [by left|by right].
  - destruct (IH b) as [->|?]; [by left|right; by right].
Qed.

Lemma best_member better alive o : pick better alive = Some o -> o ∈ alive.
Proof.
  destruct alive as [|x l]; [done|]. intros [= <-]. destruct (pick_fold_member better l x) as [->|?]; [by left|by right].
Qed.

(** [pick] by a measure takes one whose measure is the least. *)
Lemma pick_least (f : Opponent -> Z) alive o :
  pick (fun a b => f a <? f b) alive = Some o -> forall x, x ∈ alive -> f o <= f x.
Proof.
  destruct alive as [|a l]; [done|]. intros [= <-].
  assert (forall l b, f (fold_left (fun best o => if f o <? f best then o else best) l b) <= f b /\
    forall x, x ∈ l -> f (fold_left (fun best o => if f o <? f best then o else best) l b) <= f x) as Hl.
  { clear. induction l as [|x l IH]; intros b; simpl; [split; [lia|by intros ? ?%elem_of_nil]|].
    destruct (Z.ltb_spec (f x) (f b)); destruct (IH x) as [H1 H2], (IH b) as [H3 H4]; (split; [lia|]);
      intros y [->|Hy]%elem_of_cons; auto; lia. }
  intros x [->|Hx]%elem_of_cons; [apply (proj1 (Hl l _))|by apply (proj2 (Hl l _))].
Qed.

Section Choices.
Context `{IntN}.

Lemma random_member alive o : random alive = Some o -> o ∈ alive.
Proof. unfold random. destruct alive; [done|]. apply list_elem_of_lookup_2. Qed.

Lemma random_some alive : alive <> [] -> is_Some (random alive).
Proof.
  intros Hne. unfold random. destruct alive as [|a l]; [done|]. apply lookup_lt_is_Some, intn_lt. simpl. lia.
Qed.

(** A strategy shoots at somebody who is alive, whenever somebody is. *)
Lemma Choose_alive s v alive :
  match snd (Choose s v alive) with Some o => o ∈ alive | None => alive = [] end.
Proof.
  assert (match random alive with Some o => o ∈ alive | None => alive = [] end) as Hr.
  { destruct (random alive) eqn:E; [by apply random_member|]. destruct (decide (alive = [])) as [|Hne]; [done|].
    destruct (random_some alive Hne) as [? ?]. congruence. }
  assert (forall better, match pick better alive with Some o => o ∈ alive | None => alive = [] end) as Hp.
  { intros better. destruct (pick better alive) eqn:E; [by eapply best_member|by destruct alive]. }
  destruct s; simpl; [destruct (named _ alive) eqn:E; [by apply named_some in E as [? _]|done]|apply Hp|apply Hp|apply Hp|done|].
  destruct (named (Focus v) alive) eqn:E; [by apply named_some in E as [? _]|]. by destruct (random alive).
Qed.

(** Whom each strategy shoots at. *)
Lemma Choose_target s v alive o :
  snd (Choose s v alive) = Some o ->
  match s with
  | Vindicator => LastAttacker v ∈ ID <$> alive -> ID o = LastAttacker v
  | BullyHunter => forall x, x ∈ alive -> OHealth o <= OHealth x
  | GiantSlayer => forall x, x ∈ alive -> OHealth x <= OHealth o
  | Equalizer => forall x, x ∈ alive -> gap v o <= gap v x
  | Wildcard => True
  | Terminator => Focus (fst (Choose s v alive)) = ID o /\ (Focus v ∈ ID <$> alive -> ID o = Focus v)
  end.
Proof.
  assert (forall id, id ∈ ID <$> alive -> named id alive <> None) as Hn.
  { intros id (x & -> & Hx)%list_elem_of_fmap E. apply list_elem_of_In in Hx.
    pose proof (List.find_none _ _ E x Hx) as Hf. by apply bool_decide_eq_false in Hf. }
  destruct s; simpl; try done.
  - destruct (named (LastAttacker v) alive) eqn:E; [by intros [= <-] _; apply named_some in E as [_ ?]|]. intros _ Hin. by destruct (Hn _ Hin).
  - apply pick_least.
  - intros Hp x Hx. assert (- OHealth o <= - OHealth x) as Hle; [|lia]. apply (pick_least (fun a => - OHealth a) alive); [|done].
    rewrite <-Hp. unfold pick. destruct alive; [done|]. f_equal. clear. revert o0. induction alive as [|a l IH]; intros b; simpl; [done|].
    destruct (Z.ltb_spec (- OHealth a) (- OHealth b)), (Z.ltb_spec (OHealth b) (OHealth a)); try lia; apply IH.
  - apply (pick_least (gap v)).
  - destruct (named (Focus v) alive) eqn:E.
    + intros [= <-]. apply named_some in E as [_ E]. by split.
    + destruct (random alive); intros [= <-]. split; [done|]. intros Hin. by destruct (Hn _ Hin).
Qed.
End Choices.

(** ** Shots *)

(** A player's health is between none and what it started with. *)
Definition healthy (p : Player) : Prop := 0 <= Health (view p) <= StartingHealth.

(** A shot takes at most one, only from the living; the answer and the events say
    what it left, and a death is announced exactly when there is one. *)
Lemma shot_spec coin shooter p :
  let '(p', es, r) := shot coin shooter p in
  let alive := 0 <? Health (view p) in
  Health (view p') = Health (view p) - (if alive && coin then 1 else 0) /\
  (healthy p -> healthy p' /\ RemainingHealth r = Health (view p')) /\
  Hit r = alive && coin /\
  (es = [] <-> alive = false) /\
  (PlayerDied (PID p) shooter ∈ es <-> alive = true /\ Health (view p') <= 0) /\
  (Hit r = true -> LastAttacker (view p') = shooter) /\ others p' = others p /\ order p' = order p /\ PID p' = PID p /\ gameOver p' = gameOver p.
Proof.
  unfold shot, healthy. destruct (Z.leb_spec (Health (view p)) 0) as [Hd|Hd]; destruct (Z.ltb_spec 0 (Health (view p))); try lia.
  - simpl. split_and!; try done; try lia. rewrite elem_of_nil. split; [done|lia].
  - destruct coin; simpl; split_and!; try done; try lia.
    + destruct (Z.leb_spec (Health (view p) - 1) 0); rewrite !elem_of_cons, elem_of_nil; split; try (intros [_ ?]; lia); try naive_solver lia.
    + rewrite elem_of_cons, elem_of_nil. split; [naive_solver|lia].
Qed.

(** A publish that fails is the last one tried, and the shooter is told. *)
Lemma Shoot_told bus coin shooter p :
  let '(p', sent, r) := Shoot bus coin shooter p in
  p' = (shot coin shooter p).1.1 /\
  match r with
  | inl x => sent = (shot coin shooter p).1.2 /\ x = (shot coin shooter p).2
  | inr e => exists ev, last sent = Some ev /\ bus ev = Some e
  end.
Proof.
  unfold Shoot. destruct (shot coin shooter p) as [[p' es] x]. simpl.
  assert (forall es, let '(sent, e) := publish_all bus es in
    match e with None => sent = es | Some e => exists ev, last sent = Some ev /\ bus ev = Some e end) as Hp.
  { clear. induction es as [|e es IH]; simpl; [done|]. destruct (bus e) eqn:E; [by exists e|].
    destruct (publish_all bus es) as [l [x|]]; [|by subst]. destruct IH as (ev & Hl & Hb). exists ev. split; [|done].
    destruct l; [done|]. done. }
  specialize (Hp es). destruct (publish_all bus es) as [sent [e|]]; done.
Qed.

(** ** Whose turn is next *)

Lemma find_seq (f : nat -> bool) a n :
  match List.find f (seq a n) with
  | Some i => f i = true /\ (a <= i < a + n)%nat /\ forall j, (a <= j < i)%nat -> f j = false
  | None => forall j, (a <= j < a + n)%nat -> f j = false
  end.
Proof.
  revert a. induction n as [|n IH]; intros a; simpl; [lia|]. destruct (f a) eqn:E; [split_and!; [done|lia|lia|lia]|].
  specialize (IH (S a)). destruct (List.find f (seq (S a) n)) as [i|].
  - destruct IH as (Hi & Hr & Hj). split_and!; [done|lia|lia|]. intros j Hlt. destruct (decide (j = a)) as [->|]; [done|]. apply Hj. lia.
  - intros j Hlt. destruct (decide (j = a)) as [->|]; [done|]. apply IH. lia.
Qed.

Lemma Index_lookup l x i : NoDup l -> l !! i = Some x -> Index l x = Z.of_nat i.
Proof.
  intros Hnd Hi. unfold Index. destruct (list_find (fun y => y = x) l) as [[j y]|] eqn:E.
  - apply list_find_Some in E as (Hj & -> & _). f_equal. by eapply NoDup_lookup.
  - exfalso. apply list_find_None in E. rewrite Forall_forall in E. apply (E x); [by eapply list_elem_of_lookup_2|done].
Qed.

Lemma Index_inj l x y : x ∈ l -> Index l x = Index l y -> NoDup l -> y ∈ l -> x = y.
Proof.
  intros [i Hi]%list_elem_of_lookup E Hnd [j Hj]%list_elem_of_lookup.
  rewrite (Index_lookup l x i), (Index_lookup l y j) in E by done. assert (i = j) by lia. congruence.
Qed.

(** Whether the player at a place of the order is believed alive. *)
Definition believed (p : Player) (j : nat) : bool :=
  match order p !! j ≫= fun id => others p !! id with Some o => Alive o | None => false end.

(** The turn goes to the first player after this one believed alive, going
    around; to the one right after it when none is. *)
Lemma nextAlive_spec p m :
  NoDup (order p) -> order p !! m = Some (PID p) -> Z.of_nat (length (order p)) < 2 ^ 31 ->
  let n := length (order p) in
  exists i, nextAlive p = Some (Z.of_nat ((m + i) mod n)) /\ (1 <= i <= n)%nat /\
    (believed p ((m + i) mod n) = true /\ (forall j, (1 <= j < i)%nat -> believed p ((m + j) mod n) = false) \/
     i = 1%nat /\ forall j, (1 <= j <= n)%nat -> believed p ((m + j) mod n) = false).
Proof.
  intros Hnd Hm Hlen n. unfold nextAlive. rewrite (Index_lookup _ _ m Hnd Hm). fold n.
  pose proof (lookup_lt_Some _ _ _ Hm) as Hlt. fold n in Hlt, Hlen.
  assert (forall i, Z.rem (Z.of_nat m + Z.of_nat i) (Z.of_nat n) = Z.of_nat ((m + i) mod n)) as Hrem.
  { intros i. rewrite Z.rem_mod_nonneg by lia. rewrite Nat2Z.inj_mod. f_equal. lia. }
  assert (forall i, ((m + i) mod n < n)%nat) as Hmod by (intros i; apply Nat.mod_upper_bound; lia).
  assert (forall i, int32_wrap (Z.rem (Z.of_nat m + Z.of_nat i) (Z.of_nat n)) = Z.of_nat ((m + i) mod n)) as Hw.
  { intros i. rewrite Hrem. apply int32_wrap_small. specialize (Hmod i). lia. }
  cbv zeta. match goal with |- context [List.find ?f _] => set (lives := f) end. assert (forall i, lives i = believed p ((m + i) mod n)) as Hl.
  { intros i. unfold lives, believed. by rewrite Hrem, Nat2Z.id. }
  pose proof (find_seq lives 1 n) as Hf. destruct (List.find lives (seq 1 n)) as [i|].
  - destruct Hf as (Hi & Hr & Hj). exists i. rewrite Hw. split; [done|]. split; [lia|]. left. rewrite <-Hl. split; [done|].
    intros j Hjl. rewrite <-Hl. by apply Hj.
  - exists 1%nat. destruct (Z.eqb_spec (Z.of_nat n) 0); [lia|]. rewrite Hw. split; [done|]. split; [lia|]. right. split; [done|].
    intros j Hjl. rewrite <-Hl. apply Hf. lia.
Qed.

(** A player that has not been told the order cannot pass a turn on: it divides
    by the length of an empty order. *)
Lemma nextAlive_panics p : order p = [] -> nextAlive p = None.
Proof. intros H. unfold nextAlive. by rewrite H. Qed.

(** ** The turn goes around *)

(** A game under way: the players, the events each has yet to handle, the turns
    being taken, and whether a winner was announced. The bus delivers what is
    published to every player, in order. *)
Inductive stage := Begun | Shooting (t : Opponent) | Answered (t : Opponent) (r : ShootResponse + err).

Record game := {
  players : gmap string Player; mail : gmap string (list Event); turns : list (string * stage); won : bool
}.

Definition broadcast (es : list Event) (g : game) : game :=
  {| players := players g; mail := (fun q => q ++ es) <$> mail g; turns := turns g; won := won g |}.

Definition set_player (i : string) (p : Player) (g : game) : game :=
  {| players := <[i := p]> (players g); mail := mail g; turns := turns g; won := won g |}.

Definition set_turns (l : list (string * stage)) (g : game) : game :=
  {| players := players g; mail := mail g; turns := l; won := won g |}.

(** The end of a turn: the event is published. *)
Definition end_turn (i : string) (p : Player) (d : decision) (e : option Event) (l : list (string * stage)) (g : game) : game :=
  broadcast (option_list e)
    {| players := <[i := p]> (players g); mail := mail g; turns := l; won := won g || match d with Wins => true | _ => false end |}.

Inductive step `{IntN} : game -> game -> Prop :=
(* a player handles its next event, and takes the turn if it is its *)
| handles g i p e q :
    players g !! i = Some p -> mail g !! i = Some (e :: q) ->
    step g {| players := <[i := fst (on_event e p)]> (players g); mail := <[i := q]> (mail g);
              turns := (if snd (on_event e p) then [(i, Begun)] else []) ++ turns g; won := won g |}
| begins g i p p' d e l :
    turns g ≡ₚ (i, Begun) :: l -> players g !! i = Some p -> begin_turn p = (p', d) -> (forall t, d <> ShootAt t) ->
    turn_event p' d = Some e -> step g (end_turn i p' d e l g)
| aims g i p p' t l :
    turns g ≡ₚ (i, Begun) :: l -> players g !! i = Some p -> begin_turn p = (p', ShootAt t) ->
    step g (set_turns ((i, Shooting t) :: l) (set_player i p' g))
(* the target handles the call; its events are published before it answers *)
| hits g i t q coin q' es r l :
    turns g ≡ₚ (i, Shooting t) :: l -> players g !! ID t = Some q -> shot coin i q = (q', es, r) ->
    step g (broadcast es (set_turns ((i, Answered t (inl r)) :: l) (set_player (ID t) q' g)))
| misfires g i t e l :
    turns g ≡ₚ (i, Shooting t) :: l -> step g (set_turns ((i, Answered t (inr e)) :: l) g)
| ends g i p t r p' d e l :
    turns g ≡ₚ (i, Answered t r) :: l -> players g !! i = Some p -> after_shot t r p = (p', d) ->
    turn_event p' d = Some e -> step g (end_turn i p' d e l g).

(** The start: everybody knows the order, and the first takes its turn. *)
Definition contestant (ids : list string) (i : string) (s : Strategy) : Player :=
  fst (InitiateGame ids (Index ids i) (NewPlayer i s)).

(** Everybody met. *)
Definition met (l : list (string * Strategy)) (p : Player) : Player :=
  foldr (fun x p => Meet (fst x) (strategy_name (snd x)) p) p l.

Definition begin_game (l : list (string * Strategy)) : game := {|
  players := list_to_map ((fun x => (fst x, met l (contestant (map fst l) (fst x) (snd x)))) <$> l);
  mail := list_to_map ((fun x => (fst x, [])) <$> l);
  turns := match l with x :: _ => [(fst x, Begun)] | [] => [] end; won := false |}.

(** *** One turn at a time *)

(** An event that hands the turn to a player. *)
Definition hands_to (ids : list string) (i : string) (e : Event) : bool :=
  match e with TurnComplete _ n => Index ids i =? n | _ => false end.

(** The turns being taken and on their way. *)
Definition on_way (ids : list string) (m : gmap string (list Event)) (i : string) : nat :=
  length (List.filter (hands_to ids i) (default [] (m !! i))).

Definition tokens (ids : list string) (g : game) : nat := length (turns g) + sum_list (on_way ids (mail g) <$> ids).

Record round_ok (ids : list string) (g : game) : Prop := {
  ro_players : forall i p, players g !! i = Some p -> i ∈ ids /\ PID p = i /\ order p = ids;
  ro_mail : forall i, i ∈ ids -> is_Some (mail g !! i);
  ro_over : (exists i p, players g !! i = Some p /\ gameOver p = true) \/
            (exists i q w n, mail g !! i = Some q /\ GameOver w n ∈ q) -> won g = true;
  ro_tokens : (tokens ids g <= 1)%nat /\ (won g = false -> tokens ids g = 1%nat)
}.

Lemma sum_at (f f' : string -> nat) ids i :
  NoDup ids -> i ∈ ids -> (forall j, j <> i -> f' j = f j) -> (sum_list (f' <$> ids) + f i = sum_list (f <$> ids) + f' i)%nat.
Proof.
  intros Hnd Hin Heq. induction ids as [|x ids IH]; [by apply elem_of_nil in Hin|]. apply NoDup_cons in Hnd as [Hx Hnd]. cbn.
  destruct (decide (x = i)) as [->|Hne].
  - assert (f' <$> ids = f <$> ids) as ->; [|lia]. apply list_fmap_ext. intros k y Hy. apply Heq. intros ->.
    apply Hx. by eapply list_elem_of_lookup_2.
  - rewrite (Heq x) by done. apply elem_of_cons in Hin as [?|Hin]; [done|]. specialize (IH Hnd Hin). cbn in IH. lia.
Qed.

Lemma on_way_sent ids m es i :
  is_Some (m !! i) -> on_way ids ((fun q => q ++ es) <$> m) i = (on_way ids m i + length (List.filter (hands_to ids i) es))%nat.
Proof. intros [q Hq]. unfold on_way. rewrite lookup_fmap, Hq. simpl. by rewrite List.filter_app, length_app. Qed.

Lemma sum_sent ids m es l :
  (forall i, i ∈ l -> is_Some (m !! i)) ->
  sum_list (on_way ids ((fun q => q ++ es) <$> m) <$> l) =
  (sum_list (on_way ids m <$> l) + sum_list ((fun i => length (List.filter (hands_to ids i) es)) <$> l))%nat.
Proof.
  intros Hm. induction l as [|i l IH]; [done|]. cbn. rewrite on_way_sent by (apply Hm; by left).
  cbn in IH. rewrite IH by (intros j Hj; apply Hm; by right). lia.
Qed.

(** The event that passes the turn on reaches everybody and hands it to one. *)
Lemma sum_one_turn ids id k :
  NoDup ids -> (k < length ids)%nat ->
  sum_list ((fun i => length (List.filter (hands_to ids i) [TurnComplete id (Z.of_nat k)])) <$> ids) = 1%nat.
Proof.
  intros Hnd Hk. destruct (lookup_lt_is_Some_2 ids k Hk) as [x Hx].
  pose proof (sum_at (fun _ => 0%nat) (fun i => length (List.filter (hands_to ids i) [TurnComplete id (Z.of_nat k)])) ids x Hnd) as Hs.
  assert (forall j, j ∈ ids -> j <> x -> Index ids j <> Z.of_nat k) as Hother.
  { intros j [m Hm]%list_elem_of_lookup Hne. rewrite (Index_lookup ids j m) by done. intros E. assert (m = k) as -> by lia. congruence. }
  assert (forall l, sum_list ((fun _ : string => 0%nat) <$> l) = 0%nat) as Hz by (induction l; done).
  assert (forall j, length (List.filter (hands_to ids j) [TurnComplete id (Z.of_nat k)]) = if decide (j = x) then 1%nat else
    if Index ids j =? Z.of_nat k then 1%nat else 0%nat) as Hc.
  { intros j. simpl. destruct (decide (j = x)) as [->|]; [by rewrite (Index_lookup ids x k), Z.eqb_refl|]. by destruct (_ =? _). }
  transitivity (sum_list ((fun j => if decide (j = x) then 1%nat else 0%nat) <$> ids)).
  - f_equal. apply list_fmap_ext. intros n j Hj. rewrite Hc. destruct (decide (j = x)); [done|].
    destruct (Z.eqb_spec (Index ids j) (Z.of_nat k)); [|done]. exfalso. eapply Hother; [by eapply list_elem_of_lookup_2|done|done].
  - clear Hs. pose proof (sum_at (fun _ => 0%nat) (fun j => if decide (j = x) then 1%nat else 0%nat) ids x Hnd) as Hs.
    rewrite Hz, decide_True in Hs by done. rewrite Nat.add_0_r in Hs. apply Hs; [by eapply list_elem_of_lookup_2|].
    intros j Hne. by rewrite decide_False.
Qed.

Lemma sum_no_turn ids es l :
  (forall id n, TurnComplete id n ∉ es) -> sum_list ((fun i => length (List.filter (hands_to ids i) es)) <$> l) = 0%nat.
Proof.
  intros Hno. induction l as [|i l IH]; [done|]. cbn. cbn in IH. rewrite IH.
  assert (List.filter (hands_to ids i) es = []) as ->; [|done]. clear IH. induction es as [|e es IH]; [done|]. simpl.
  destruct e; simpl; try (apply IH; intros id' n' Hin; apply (Hno id' n'); by right). exfalso. apply (Hno id next). by left.
Qed.

(** What a player keeps. *)
Definition seat (p p' : Player) : Prop := PID p' = PID p /\ order p' = order p /\ gameOver p' = gameOver p.

Lemma seat_believe id h a p : seat p (believe id h a p).
Proof. done. Qed.

Lemma seat_begin `{IntN} p : seat p (fst (begin_turn p)).
Proof.
  unfold begin_turn. destruct (gameOver p) eqn:E; [done|]. destruct (_ <=? _); [done|]. destruct (aliveOthers p); [done|].
  by destruct (Choose _ _ _).
Qed.

Lemma seat_after t r p : seat p (fst (after_shot t r p)).
Proof. unfold after_shot. destruct r as [r|]; [|done]. simpl. by destruct (_ <=? _). Qed.

Lemma seat_shot coin i p : seat p (shot coin i p).1.1.
Proof. unfold shot. by destruct (_ <=? _). Qed.

Lemma on_event_seat e p :
  let p' := fst (on_event e p) in
  PID p' = PID p /\ order p' = order p /\ (gameOver p' = true -> gameOver p = true \/ exists w n, e = GameOver w n).
Proof.
  destruct e; simpl; unfold Meet; repeat case_decide; simpl; split_and!; eauto.
Qed.

Lemma begin_decides `{IntN} p p' d : begin_turn p = (p', d) -> d = Nothing -> gameOver p = true.
Proof.
  unfold begin_turn. destruct (gameOver p); [done|]. destruct (_ <=? _); [by intros [= _ <-]|]. destruct (aliveOthers p); [by intros [= _ <-]|].
  destruct (Choose _ _ _) as [v [t|]]; by intros [= _ <-].
Qed.

Lemma after_decides t r p : let d := snd (after_shot t r p) in d = Wins \/ d = PassOn.
Proof. unfold after_shot. simpl. destruct (aliveOthers _); auto. Qed.

Lemma shot_no_turn coin i p id n : TurnComplete id n ∉ (shot coin i p).1.2.
Proof.
  unfold shot. destruct (_ <=? _); simpl; [apply not_elem_of_nil|]. destruct coin; simpl; [destruct (_ <=? _)|];
    rewrite !elem_of_cons, elem_of_nil; naive_solver.
Qed.

Lemma shot_no_winner coin i p w n : GameOver w n ∉ (shot coin i p).1.2.
Proof.
  unfold shot. destruct (_ <=? _); simpl; [apply not_elem_of_nil|]. destruct coin; simpl; [destruct (_ <=? _)|];
    rewrite !elem_of_cons, elem_of_nil; naive_solver.
Qed.

Section Round.
Context `{IntN} (ids : list string) (Hnd : NoDup ids) (Hlen : Z.of_nat (length ids) < 2 ^ 31).

Lemma ro_insert (g : game) i p p' :
  round_ok ids g -> players g !! i = Some p -> PID p' = PID p -> order p' = order p ->
  forall j x, <[i := p']> (players g) !! j = Some x -> j ∈ ids /\ PID x = j /\ order x = ids.
Proof.
  intros Hg Hp H1 H2 j x. destruct (ro_players _ _ Hg i p Hp) as (Hi & E1 & E2).
  intros [[<- <-]|[_ Hx]]%lookup_insert_Some; [split_and!; congruence|by apply (ro_players _ _ Hg)].
Qed.

Lemma mail_sent (g : game) (es : list Event) i : i ∈ ids -> round_ok ids g -> is_Some (((fun q => q ++ es) <$> mail g) !! i).
Proof. intros Hi Hg. rewrite lookup_fmap. destruct (ro_mail _ _ Hg i Hi) as [q ->]. by eexists. Qed.

(** Somebody won, as far as players and mail tell. *)
Lemma over_sent (g : game) (ps : gmap string Player) (es : list Event) (b : bool) :
  (forall i p, ps !! i = Some p -> gameOver p = true -> exists j p0, players g !! j = Some p0 /\ gameOver p0 = true) ->
  ((exists w n, GameOver w n ∈ es) -> b = true) -> (won g = true -> b = true) -> round_ok ids g ->
  (exists i p, ps !! i = Some p /\ gameOver p = true) \/
  (exists i q w n, ((fun q => q ++ es) <$> mail g) !! i = Some q /\ GameOver w n ∈ q) -> b = true.
Proof.
  intros Hps Hes Hb Hg [(i & p & Hp & Ho)|(i & q & w & n & Hq & Hin)].
  - apply Hb, (ro_over _ _ Hg). left. by eapply Hps.
  - rewrite lookup_fmap in Hq. destruct (mail g !! i) as [q0|] eqn:E; [|done]. simpl in Hq. injection Hq as <-.
    apply elem_of_app in Hin as [Hin|Hin]; [|apply Hes; eauto]. apply Hb, (ro_over _ _ Hg). right. by exists i, q0, w, n.
Qed.

Lemma gameOver_insert (g : game) i p p' :
  players g !! i = Some p -> gameOver p' = gameOver p ->
  forall j x, <[i := p']> (players g) !! j = Some x -> gameOver x = true -> exists k p0, players g !! k = Some p0 /\ gameOver p0 = true.
Proof. intros Hp He j x [[<- <-]|[_ Hx]]%lookup_insert_Some Ho; [exists i, p; split; [done|congruence]|by exists j, x]. Qed.

(** The end of a turn: passed on, or the game won. *)
Lemma end_turn_ok g i p p' d e l t :
  round_ok ids g -> turns g ≡ₚ t :: l -> players g !! i = Some p -> seat p p' -> turn_event p' d = Some e ->
  (d = Nothing -> won g = true) -> (forall o, d <> ShootAt o) -> round_ok ids (end_turn i p' d e l g).
Proof.
  intros Hg Hperm Hp (S1 & S2 & S3) He Hno Hsh. destruct (ro_players _ _ Hg i p Hp) as (Hi & E1 & E2).
  assert (length (turns g) = S (length l)) as Hl by (by rewrite Hperm).
  destruct (ro_tokens _ _ Hg) as [Ht1 Ht2]. unfold tokens in Ht1, Ht2. split; simpl.
  - by eapply ro_insert.
  - intros j Hj. by apply mail_sent.
  - eapply over_sent; [by eapply gameOver_insert|..|done].
    + intros (w & n & Hin). destruct d; simpl in He; try (destruct (nextAlive p')); simplify_eq/=;
        rewrite ?orb_true_r; try done; by (apply elem_of_nil in Hin || apply list_elem_of_singleton in Hin).
    + intros ->. done.
  - unfold tokens, end_turn, broadcast. cbn [turns mail won]. rewrite sum_sent by (intros j Hj; by apply (ro_mail _ _ Hg)).
    destruct d as [| | |o]; simpl in He; [..|by destruct (Hsh o)].
    + injection He as <-. rewrite (Hno eq_refl) in *. cbn [option_list orb]. rewrite sum_no_turn by (intros; apply not_elem_of_nil). split; [lia|done].
    + assert (exists k, nextAlive p' = Some (Z.of_nat k) /\ (k < length ids)%nat) as (k & Hk & Hkl).
      { apply list_elem_of_lookup in Hi as [m Hm]. pose proof (lookup_lt_Some _ _ _ Hm) as Hlt.
        destruct (nextAlive_spec p' m) as (x & -> & _); [by rewrite S2, E2|by rewrite S2, E2, S1, E1|by rewrite S2, E2|].
        eexists. split; [done|]. rewrite S2, E2. apply Nat.mod_upper_bound. lia. }
      rewrite Hk in He. simpl in He. injection He as <-. change (option_list (Some ?x)) with [x].
      rewrite orb_false_r, sum_one_turn by done. split; [lia|]. intros Hw. specialize (Ht2 Hw). lia.
    + injection He as <-. change (option_list (Some ?x)) with [x]. rewrite orb_true_r, sum_no_turn by (intros id n ?%list_elem_of_singleton; done). split; [lia|done].
Qed.

(** A step that moves nobody's turn. *)
Lemma keep_turn_ok g i p p' es l t t' :
  round_ok ids g -> turns g ≡ₚ t :: l -> players g !! i = Some p -> seat p p' ->
  (forall id n, TurnComplete id n ∉ es) -> (forall w n, GameOver w n ∉ es) ->
  round_ok ids (broadcast es (set_turns (t' :: l) (set_player i p' g))).
Proof.
  intros Hg Hperm Hp (S1 & S2 & S3) Hnt Hng. assert (length (turns g) = S (length l)) as Hl by (by rewrite Hperm).
  destruct (ro_tokens _ _ Hg) as [Ht1 Ht2]. unfold tokens in Ht1, Ht2. split; simpl.
  - by eapply ro_insert.
  - intros j Hj. by apply mail_sent.
  - eapply over_sent; [by eapply gameOver_insert| |done|done]. intros (w & n & Hin). by destruct (Hng w n).
  - unfold tokens. simpl. rewrite sum_sent, sum_no_turn by (done || intros j Hj; by apply (ro_mail _ _ Hg)). split; [lia|].
    intros Hw. specialize (Ht2 Hw). lia.
Qed.

Lemma broadcast_nil g : broadcast [] g = g.
Proof.
  unfold broadcast. destruct g as [ps m ts w]. simpl. f_equal. rewrite <-(map_fmap_id m) at 2. apply map_fmap_ext. intros j q _. simpl.
  apply app_nil_r.
Qed.

Lemma set_player_id g i p : players g !! i = Some p -> set_player i p g = g.
Proof. intros Hp. unfold set_player. rewrite insert_id by done. by destruct g. Qed.

Lemma handles_ok g i p e q :
  round_ok ids g -> players g !! i = Some p -> mail g !! i = Some (e :: q) ->
  round_ok ids {| players := <[i := fst (on_event e p)]> (players g); mail := <[i := q]> (mail g);
                  turns := (if snd (on_event e p) then [(i, Begun)] else []) ++ turns g; won := won g |}.
Proof.
  intros Hg Hp Hm. destruct (on_event_seat e p) as (S1 & S2 & S3). destruct (ro_players _ _ Hg i p Hp) as (Hi & E1 & E2).
  destruct (ro_tokens _ _ Hg) as [Ht1 Ht2]. unfold tokens in Ht1, Ht2. split; simpl.
  - by eapply ro_insert.
  - intros j Hj. destruct (decide (j = i)) as [->|]; [rewrite lookup_insert_eq; by eexists|].
    rewrite lookup_insert_ne by done. by apply (ro_mail _ _ Hg).
  - intros Ho. apply (ro_over _ _ Hg). destruct Ho as [(j & x & [[<- <-]|[_ Hx]]%lookup_insert_Some & Ho)|(j & l & w & n & [[<- <-]|[_ Hx]]%lookup_insert_Some & Hin)].
    + destruct (S3 Ho) as [?|(w & n & ->)]; [left; by exists i, p|right]. exists i, (GameOver w n :: q), w, n. split; [done|by left].
    + left. by exists j, x.
    + right. exists i, (e :: q), w, n. split; [done|by right].
    + right. by exists j, l, w, n.
  - assert (length ((if snd (on_event e p) then [(i, Begun)] else []) ++ turns g) + sum_list (on_way ids (<[i := q]> (mail g)) <$> ids)
      = length (turns g) + sum_list (on_way ids (mail g) <$> ids))%nat as Ht.
    { pose proof (sum_at (on_way ids (mail g)) (on_way ids (<[i := q]> (mail g))) ids i Hnd Hi) as Hs.
      assert (on_way ids (mail g) i = (on_way ids (<[i := q]> (mail g)) i + if snd (on_event e p) then 1 else 0)%nat) as Hw.
      { unfold on_way. rewrite Hm, lookup_insert_eq. simpl. replace (snd (on_event e p)) with (hands_to ids i e).
        - destruct (hands_to ids i e); simpl; lia.
        - destruct e; simpl; try done. rewrite E1, E2, int32_wrap_small; [done|].
          apply list_elem_of_lookup in Hi as [m Hm']. rewrite (Index_lookup ids i m) by done. apply lookup_lt_Some in Hm'. lia. }
      rewrite length_app. assert (forall j, j <> i -> on_way ids (<[i := q]> (mail g)) j = on_way ids (mail g) j) as Hj.
      { intros j Hne. unfold on_way. by rewrite lookup_insert_ne. }
      specialize (Hs Hj). destruct (snd (on_event e p)); cbn [length]; lia. }
    unfold tokens. cbn [turns mail won]. rewrite Ht. done.
Qed.

Lemma round_step g g' : step g g' -> round_ok ids g -> round_ok ids g'.
Proof.
  intros Hstep Hg. destruct Hstep as [g i p e q Hp Hm|g i p p' d e l Hperm Hp Hb Hsh He|g i p p' t l Hperm Hp Hb
    |g i t q coin q' es r l Hperm Hq Hshot|g i t e l Hperm|g i p t r p' d e l Hperm Hp Ha He].
  - by apply handles_ok.
  - pose proof (seat_begin p) as Hs. rewrite Hb in Hs. eapply end_turn_ok; try done.
    intros ->. apply (ro_over _ _ Hg). left. exists i, p. split; [done|]. by eapply begin_decides.
  - pose proof (seat_begin p) as Hs. rewrite Hb in Hs. rewrite <-(broadcast_nil (set_turns _ _)).
    eapply keep_turn_ok; try done; intros; apply not_elem_of_nil.
  - pose proof (seat_shot coin i q) as Hs. pose proof (shot_no_turn coin i q) as Hn. pose proof (shot_no_winner coin i q) as Hw.
    rewrite Hshot in Hs, Hn, Hw. by eapply keep_turn_ok.
  - destruct (ro_tokens _ _ Hg) as [Ht1 Ht2]. assert (length (turns g) = S (length l)) as Hl by (by rewrite Hperm).
    destruct Hg as [H1 H2 H3 _]. split; try done. unfold tokens in *. simpl. split; [lia|]. intros Hw. specialize (Ht2 Hw). lia.
  - pose proof (seat_after t r p) as Hs. pose proof (after_decides t r p) as Hd. rewrite Ha in Hs, Hd. simpl in Hd.
    eapply end_turn_ok; try done; destruct Hd as [->| ->]; done.
Qed.
End Round.

Lemma met_seat l p : seat p (met l p).
Proof.
  induction l as [|x l IH]; [done|]. unfold seat in *. simpl. unfold Meet. by case_decide.
Qed.

Lemma round_begin l :
  l <> [] -> NoDup (map fst l) -> round_ok (map fst l) (begin_game l).
Proof.
  intros Hne Hnd. set (ids := map fst l).
  assert (forall i p, players (begin_game l) !! i = Some p -> exists s, (i, s) ∈ l /\ p = met l (contestant ids i s)) as Hp.
  { intros i p Hl%elem_of_list_to_map_2. apply list_elem_of_fmap in Hl as ([j s] & [= -> ->] & Hin). by exists s. }
  assert (forall i q, mail (begin_game l) !! i = Some q -> q = []) as Hm.
  { intros i q Hl%elem_of_list_to_map_2. by apply list_elem_of_fmap in Hl as (x & [= _ ->] & _). }
  split.
  - intros i p (s & Hin & ->)%Hp. destruct (met_seat l (contestant ids i s)) as (-> & -> & _).
    split_and!; [|done|done]. apply list_elem_of_fmap. by exists (i, s).
  - intros i Hi. apply list_elem_of_fmap in Hi as ([j s] & -> & Hin). exists []. apply elem_of_list_to_map_1.
    + by rewrite <-list_fmap_compose.
    + apply list_elem_of_fmap. by exists (j, s).
  - intros [(i & p & (s & _ & ->)%Hp & Ho)|(i & q & w & n & ->%Hm & []%elem_of_nil)].
    destruct (met_seat l (contestant ids i s)) as (_ & _ & E). by rewrite E in Ho.
  - assert (tokens ids (begin_game l) = 1%nat) as ->; [|by split].
    assert (forall k, sum_list (on_way ids (mail (begin_game l)) <$> k) = 0%nat) as Hz.
    { assert (forall i, on_way ids (mail (begin_game l)) i = 0%nat) as Hw.
      { intros i. unfold on_way. destruct (mail (begin_game l) !! i) as [q|] eqn:E; [by rewrite (Hm i q E)|done]. }
      induction k as [|i k IH]; [done|]. rewrite fmap_cons. cbn [sum_list sum_list_with foldr]. by rewrite Hw. }
    unfold tokens. rewrite Hz. by destruct l.
Qed.

(** One turn at a time, and never none: until a winner is announced there is
    exactly one turn, being taken by a player or on its way to one; afterwards
    there is at most one. *)
Lemma one_turn `{IntN} l g :
  l <> [] -> NoDup (map fst l) -> Z.of_nat (length l) < 2 ^ 31 -> rtc step (begin_game l) g ->
  (tokens (map fst l) g <= 1)%nat /\ (won g = false -> tokens (map fst l) g = 1%nat).
Proof.
  intros Hne Hnd Hlen Hr. assert (round_ok (map fst l) g) as Hg; [|apply Hg]. revert Hr.
  apply rtc_invariant; [|by apply round_begin]. intros g1 g2 Hs. apply round_step; [done|by rewrite length_map|done].
Qed.

(** The sample's contestants. *)
Definition contestants : list (string * Strategy) := imap (fun i s => ("player" +:+ pretty (S i), s)) Strategies.

#[local] Instance first_of : IntN := {| intn := fun _ => 0%nat; intn_lt := fun n Hn => Hn |}.

(** A turn of the last one standing announces it. *)
Example last_one_wins :
  let p := foldr (fun x p => believe (fst x) 0 false p) (met contestants (contestant (map fst contestants) "player1" Vindicator)) contestants in
  snd (takeTurn (fun _ => inl {| Hit := true; RemainingHealth := 0 |}) p) = Some (Some (GameOver "player1" "The Vindicator")).
Proof. vm_compute. reflexivity. Qed.

(** A first turn: a miss, and the next player in order is up. *)
Example first_turn :
  let p := met contestants (contestant (map fst contestants) "player1" Vindicator) in
  snd (takeTurn (fun _ => inl {| Hit := false; RemainingHealth := 10 |}) p) = Some (Some (TurnComplete "player1" 1)).
Proof. vm_compute. reflexivity. Qed.
