(* ===== verification/Peers.v ===== *)
(** * Peers: the handlers of the samples and of the cross-language peer
    (examples/calculator, examples/tokenstream, crosslang/gopeer)

    What these services do with a request: the two streaming handlers, with the
    points where the caller's going away is noticed, and the unary ones. What the
    context, the timers and the stream answer are arguments. *)
From S2P Require Import Prelude GoStrings Errors Headers Service Pbtypes.
From Stdlib Require Import SpecFloat.

Local Open Scope Z_scope.

(** ** A stream that can be stopped: interop.Counter.Tick *)

Module Counter.

Record TickRequest := { Count : Z; FailAt : Z; EmitNothing : bool; DelayMs : Z; Unhandled : bool }.
Record Tick := { Seq : Z; Payload : string }.
Record Produced := { Yielded : Z; StoppedEarly : bool; Finished : bool }.

(** What chunk [i] meets: whether the context has ended when it is due, what
    sending it answers, and whether the context ends while it waits. *)
Record weather := { gone : Z -> bool; sends : Z -> option err; gone_waiting : Z -> bool }.

Definition chunk (i : Z) : Tick := {| Seq := i; Payload := "chunk-" +:+ pretty i |}.

Definition deliberate (r : TickRequest) (i : Z) : err :=
  if Unhandled r then EText "stream broke" else NewHandledError "TEST_FAIL" ("deliberate failure at chunk " +:+ pretty i).

Definition stopped (p : Produced) : Produced := {| Yielded := Yielded p; StoppedEarly := true; Finished := Finished p |}.
Definition yielded (p : Produced) : Produced := {| Yielded := Yielded p + 1; StoppedEarly := StoppedEarly p; Finished := Finished p |}.
Definition finished (p : Produced) : Produced := {| Yielded := Yielded p; StoppedEarly := StoppedEarly p; Finished := true |}.

(** The loop, with [n] chunks to go from [i]: what was sent, what is on record,
    and the handler's error. *)
Fixpoint tick_loop (W : weather) (r : TickRequest) (n : nat) (i : Z) (p : Produced) : list Tick * Produced * option err :=
  match n with
  | O => ([], finished p, None)
  | S n' =>
      if (0 <? FailAt r) && (FailAt r <=? i) then ([], p, Some (deliberate r i))
      else if gone W i then ([], stopped p, None)
      else match sends W i with
           | Some e => ([], stopped p, Some e)
           | None =>
               let p := yielded p in
               if (0 <? DelayMs r) && gone_waiting W i then ([chunk i], stopped p, None)
               else let '(l, p', e) := tick_loop W r n' (i + 1) p in (chunk i :: l, p', e)
           end
  end.

(** [Tick]; the record is the service's, from the call before. *)
Definition Tick_ (W : weather) (r : TickRequest) (p : Produced) : list Tick * Produced * option err :=
  if EmitNothing r then ([], p, None)
  else tick_loop W r (Z.to_nat (Count r)) 0 {| Yielded := 0; StoppedEarly := false; Finished := false |}.

Lemma tick_loop_spec W r n i p l p' e :
  tick_loop W r n i p = (l, p', e) -> StoppedEarly p = false -> Finished p = false ->
  l = chunk <$> seqZ i (len l) /\ Yielded p' = Yielded p + len l /\ len l <= Z.of_nat n /\
  (0 < FailAt r -> len l <= Z.max 0 (FailAt r - i)) /\
  (Finished p' = true <-> StoppedEarly p' = false /\ e = None) /\ (Finished p' = true -> len l = Z.of_nat n).
Proof.
  revert i p l p' e. induction n as [|n IH]; intros i p l p' e; simpl.
  { intros [= <- <- <-] Hs Hf. split_and!; try done; unfold len; simpl; lia || naive_solver. }
  destruct (Z.ltb_spec 0 (FailAt r)) as [Hf0|Hf0], (Z.leb_spec (FailAt r) i) as [Hi|Hi]; simpl;
    [intros [= <- <- <-] Hs Hf; rewrite Hf; split_and!; try done; unfold len; simpl; try lia; naive_solver|..];
    (destruct (gone W i); [intros [= <- <- <-] Hs Hf; simpl; rewrite Hf; split_and!; try done; unfold len; simpl; try lia; naive_solver|];
     destruct (sends W i); [intros [= <- <- <-] Hs Hf; simpl; rewrite Hf; split_and!; try done; unfold len; simpl; try lia; naive_solver|];
     destruct (_ && gone_waiting W i);
       [intros [= <- <- <-] Hs Hf; simpl; rewrite Hf; split_and!; try done; unfold len; simpl; try lia; naive_solver|];
     destruct (tick_loop W r n (i + 1) (yielded p)) as [[l0 p0] e0] eqn:E; intros [= <- <- <-] Hs Hf;
     destruct (IH _ _ _ _ _ E Hs Hf) as (H1 & H2 & H3 & H4 & H5 & H6);
     assert (len (chunk i :: l0) = 1 + len l0) as Hl by (unfold len; simpl; lia); simpl in H2; rewrite Hl; split_and!; try done; try lia;
     [rewrite (seqZ_cons i (1 + len l0)) by (unfold len; lia); rewrite fmap_cons; f_equal;
        replace (Z.pred (1 + len l0)) with (len l0) by lia; by rewrite <-Z.add_1_r
     |intros; specialize (H6 ltac:(done)); lia]).
Qed.

(** The chunks come in order without a gap, from the first; the record counts
    what was sent and says how it ended: to the end, or stopped early, never
    both; and a failure asked for comes when it was asked for. *)
Lemma tick_counts W r p l p' e :
  Tick_ W r p = (l, p', e) -> EmitNothing r = false ->
  l = chunk <$> seqZ 0 (len l) /\ Yielded p' = len l /\ len l <= Z.max 0 (Count r) /\ (0 < FailAt r -> len l <= FailAt r) /\
  (Finished p' = true <-> StoppedEarly p' = false /\ e = None) /\ (Finished p' = true -> len l = Z.max 0 (Count r)).
Proof.
  unfold Tick_. intros H Hn. rewrite Hn in H. destruct (tick_loop_spec _ _ _ _ _ _ _ _ H eq_refl eq_refl) as (H1 & H2 & H3 & H4 & H5 & H6).
  simpl in H2. split_and!; try done; [lia|lia|intros Hf; specialize (H6 Hf); lia].
Qed.

Definition Add (a b : Z) : Z := int32_wrap (a + b).

(** [Whoami] answers with what the context carries of the call. *)
Record Who := { WActor : string; WMessageId : string; WRoutingKey : string; WLang : string }.
Definition Lang : string := "go".
Definition Whoami (ci : CallInfo) : Who :=
  {| WActor := CActor ci; WMessageId := CMessageID ci; WRoutingKey := CRoutingKey ci; WLang := Lang |}.
End Counter.

(** ** The other services of the cross-language peer *)

Module Interop.

(** [wallet.Balance]: which accounts fail, and how. *)
Definition Balance {B : Type} (Canonical : B) (account : string) : B + err :=
  if bool_decide (account = "boom") then inr (NewHandledError "NOT_FOUND" "no such account")
  else if bool_decide (account = "crash") then inr (EText "kaboom")
  else inl Canonical.

(** [flaky.Fail] never succeeds. *)
Definition Fail_ (published : option err) : err := default (EText ("flaky " +:+ Counter.Lang)) published.

(** The echo of a ping: what is published, or the handler's error. *)
Record Ping := { Id : string; N : option (option bytes); From : string }.

Definition pong_topic : string := "EVENT.pong." +:+ Counter.Lang.

Definition on_ping (p : Ping) : (string * Ping) + bigint_error :=
  match BigInt (N p) with
  | inr e => inr e
  | inl n =>
      match NewBigint (Some (n + 1)) with
      | inr e => inr e
      | inl next => inl (pong_topic, {| Id := "pong:" +:+ Id p; N := Some (Some next); From := Counter.Lang |})
      end
  end.

Definition Ping2to70 : Z := Z.shiftl 1 70.

(** A pong carries one more than its ping, for every ping but the largest, which
    is refused rather than answered with zero. *)
Lemma on_ping_next id from v w :
  NewBigint (Some v) = inl w ->
  match on_ping {| Id := id; N := Some (Some w); From := from |} with
  | inl (_, p) => BigInt (N p) = inl (v + 1)
  | inr _ => v = 2 ^ 256 - 1
  end.
Proof.
  intros Hw. destruct (bigint_roundtrip v []) as (Hr & Hb & _). destruct (Hb _ Hw) as [_ HB].
  assert (0 <= v < 2 ^ 256) as Hv by (apply Hr; unfold MustBigint; rewrite Hw; by eexists).
  unfold on_ping. cbn [N]. rewrite HB. destruct (NewBigint (Some (v + 1))) as [x|e] eqn:E; cbn [N].
  - destruct (bigint_roundtrip (v + 1) []) as (_ & Hx & _). by apply Hx.
  - destruct (decide (v = 2 ^ 256 - 1)); [done|]. exfalso.
    destruct (bigint_roundtrip (v + 1) []) as ([_ Hx] & _). unfold MustBigint in Hx. rewrite E in Hx. destruct Hx as [? Hc]; [lia|by inversion Hc].
Qed.

Example ping_beyond_words id from :
  exists w, NewBigint (Some Ping2to70) = inl w /\
  match on_ping {| Id := id; N := Some (Some w); From := from |} with inl (_, p) => BigInt (N p) = inl (2 ^ 70 + 1) | inr _ => False end.
Proof. eexists. split; [reflexivity|]. vm_compute. reflexivity. Qed.
End Interop.

(** ** Tokens that stop when the reader does: examples/tokenstream *)

Module Assistant.

(** [strings.SplitAfter] on a space. *)
Fixpoint SplitAfter (s : string) : list string :=
  match s with
  | EmptyString => [""]
  | String c s' =>
      if bool_decide (c = " "%char) then String c "" :: SplitAfter s'
      else match SplitAfter s' with [] => [String c ""] | w :: ws => String c w :: ws end
  end.

(** The canned answer; [q] is the prompt quoted. *)
Definition canned : string :=
  "Streaming responses arrive one token at a time, which is what lets a chat interface render "
  +:+ "text as it is produced rather than waiting for a whole reply. That same property is what "
  +:+ "makes stopping useful: when the reader has seen enough, every token after that point is "
  +:+ "wasted work on the server. ".
Definition body (q : string) : string := "Answering " +:+ q +:+ ". " +:+ canned +:+ canned +:+ canned.
Definition completion (q : string) : list string := SplitAfter (body q).

Record Token := { TIndex : Z; Text : string }.
Record stats := { generated : Z; stoppedEarly : bool }.

(** The loop from word [i]; [gone] is which way the wait before a word ends. *)
Fixpoint generate_loop (gone : Z -> bool) (sends : Z -> option err) (ws : list string) (i : Z) (a : stats)
  : list Token * stats * option err :=
  match ws with
  | [] => ([], a, None)
  | w :: ws =>
      if gone i then ([], {| generated := generated a; stoppedEarly := true |}, None)
      else match sends i with
           | Some e => ([], a, Some e)
           | None =>
               let '(l, a', e) := generate_loop gone sends ws (i + 1)
                 {| generated := int32_wrap (i + 1); stoppedEarly := stoppedEarly a |} in
               ({| TIndex := int32_wrap i; Text := w |} :: l, a', e)
           end
  end.

(** [Generate] *)
Definition Generate (gone : Z -> bool) (sends : Z -> option err) (q : string) : list Token * stats * option err :=
  generate_loop gone sends (completion q) 0 {| generated := 0; stoppedEarly := false |}.

Lemma SplitAfter_concat s : String.concat "" (SplitAfter s) = s /\ SplitAfter s <> [].
Proof.
  induction s as [|c s [IH Hne]]; simpl; [done|]. case_bool_decide as Hc; (split; [|by destruct (SplitAfter s)]).
  - destruct (SplitAfter s) as [|w ws]; [done|]. simpl in *. by rewrite IH.
  - destruct (SplitAfter s) as [|w ws]; [done|]. destruct ws; simpl in *; by rewrite <-IH.
Qed.

Lemma generate_loop_spec gone sends ws i a l a' e :
  generate_loop gone sends ws i a = (l, a', e) -> 0 <= i -> i + len ws < 2 ^ 31 -> generated a = i -> stoppedEarly a = false ->
  Text <$> l `prefix_of` ws /\ TIndex <$> l = seqZ i (len l) /\ generated a' = i + len l /\
  (e = None -> (stoppedEarly a' = true <-> len l < len ws)) /\ (is_Some e -> stoppedEarly a' = false /\ len l < len ws).
Proof.
  revert i a l a' e. induction ws as [|w ws IH]; intros i a l a' e; simpl; intros H Hi Hb Hg Hs.
  { injection H as <- <- <-. unfold len. simpl. rewrite Hs. split_and!; [done|done|lia|intros; split; [done|lia]|by intros [? ?]]. }
  destruct (gone i); [|destruct (sends i)].
  1,2: injection H as <- <- <-; unfold len; simpl; split_and!; [apply prefix_nil|done|lia|naive_solver lia|naive_solver lia].
  assert (len (w :: ws) = 1 + len ws) as Hl by (unfold len; simpl; lia). rewrite Hl in *. assert (0 <= len ws) by (unfold len; lia).
  destruct (generate_loop gone sends ws (i + 1) _) as [[l0 a0] e0] eqn:E. injection H as <- <- <-.
  rewrite !int32_wrap_small in E by lia.
  destruct (IH _ _ _ _ _ E) as (H1 & H2 & H3 & H4 & H5); [lia|lia|done|done|].
  rewrite !fmap_cons. simpl. rewrite int32_wrap_small by lia. set (t := Build_Token i w).
  assert (len (t :: l0) = 1 + len l0) as -> by (unfold len; simpl; lia). assert (0 <= len l0) by (unfold len; lia).
  split_and!; [by apply prefix_cons| |lia|intros; rewrite H4 by done; lia|intros He; destruct (H5 He); split; [done|lia]].
  rewrite (seqZ_cons i) by lia. f_equal. by replace (Z.pred (1 + len l0)) with (len l0) by lia.
Qed.

(** What was sent is a beginning of the answer, its tokens numbered from zero;
    the count on record is the number sent, and the early stop is on record
    exactly when the reader went away before the end: with no error and nobody
    gone, the tokens make up the whole answer. *)
Lemma generate_records gone sends q l a e :
  Generate gone sends q = (l, a, e) -> len (completion q) < 2 ^ 31 ->
  Text <$> l `prefix_of` completion q /\ TIndex <$> l = seqZ 0 (len l) /\ generated a = len l /\
  (e = None -> stoppedEarly a = false -> String.concat "" (Text <$> l) = body q) /\ (stoppedEarly a = true -> len l < len (completion q)).
Proof.
  intros H Hb. destruct (generate_loop_spec _ _ _ _ _ _ _ _ H) as (H1 & H2 & H3 & H4 & H5); [lia|lia|done|done|].
  split_and!; [done|done|lia|intros -> Hs|intros Hs].
  - destruct (H4 eq_refl) as [_ K]. assert (Text <$> l = completion q) as ->; [|apply SplitAfter_concat].
    destruct H1 as [k Hk]. rewrite Hk. destruct k as [|x k]; [by rewrite app_nil_r|]. exfalso.
    assert (stoppedEarly a = true); [|congruence]. apply K. rewrite Hk. unfold len. rewrite length_app, length_fmap. simpl. lia.
  - destruct e as [e|]; [destruct (H5 ltac:(by eexists)); congruence|]. by apply H4.
Qed.
End Assistant.

(** ** examples/calculator *)

Module Calculator.

(** What a handler does: announces an operation, or nothing, and answers. *)
Definition Add (a b : Z) : option string * Z := (Some "add", int32_wrap (a + b)).

(** Doubles divide as IEEE 754 does; either zero is refused. *)
Definition f64_zero (x : spec_float) : bool := SFeqb x (S754_zero false).

Definition Divide (dividend divisor : spec_float) : option string * (spec_float + err) :=
  if f64_zero divisor then (None, inr (NewHandledError "DIVISION_BY_ZERO" "cannot divide by zero"))
  else (Some "divide", inl (SFdiv 53 1024 dividend divisor)).

(** Dividing by zero is an answer the caller gets at once: it is never retried,
    and nothing is announced. *)
Lemma divide_by_zero x s :
  Divide x (S754_zero s) = (None, inr (EHandled "DIVISION_BY_ZERO" "cannot divide by zero")) /\
  asAnswerable (EHandled "DIVISION_BY_ZERO" "cannot divide by zero") = Some ("DIVISION_BY_ZERO", "cannot divide by zero").
Proof. by destruct s. Qed.
End Calculator.
